(* ===== verification/_CoqProject ===== *)
-Q . S2P
Prelude.v
GoLib.v
GoText.v
GoFlag.v
Model.v
Memory.v
MemoryInv.v
StoreSpec.v
MemoryOps.v
MemoryLists.v
MemoryCounts.v
Task.v
TaskRegistry.v
Demo.v
MemoryProps.v
MemoryProps2.v
MemoryProps3.v
MemoryWitness.v
TaskProps.v
Pipeline.v
Engine.v
StoreLaws.v
EngineLemmas.v
EngineAdvance.v
PipelineProps.v
EngineProps.v
EngineWitness.v
Schedule.v
ScheduleProps.v
Worker.v
WorkerProps.v
App.v
Runtime.v
RuntimeProps.v
Observers.v
ObserversProps.v
Monitoring.v
MonitoringProps.v
RedisKeys.v
RedisServer.v
Redis.v
RedisRuns.v
RedisOps.v
RedisRep.v
RedisCommit.v
RedisItems.v
RedisRecords.v
RedisRunItems.v
RedisTx.v
RedisSteps.v
RedisLin.v
RedisCreate.v
RedisDelivery.v
RedisSubgraph.v
RedisCounts.v
RedisReads.v
RedisPurge.v
RedisClients.v
RedisDemo.v
RedisProps.v
RedisProps2.v
RedisWitness.v
PgTables.v
Postgres.v
PgServer.v
PgTx.v
PgStmts.v
PgRows.v
PgSpec.v
PgCalls.v
PgDelivery.v
PgCreate.v
PgSubgraph.v
PgReads.v
PgPurge.v
PgClients.v
PgProps.v
PgWitness.v
Admin.v
AdminProps.v
