(* ===== verification/Prelude.v ===== *)
(** * ody: a verification development of the durable task library

    ody (src/, Go) runs typed tasks durably.  A program declares task definitions (src/task/task.go),
    binds them to handlers in modules and a registry (src/task/registry.go), composes them into
    pipelines (src/pipeline/definition.go) and starts work by enqueueing executions or runs, by hand or
    from cron schedules (src/schedule/schedule.go).  All state lives in a store
    (src/execution/model.go, store.go, memory.go): executions with leases, attempts and an event log,
    and pipeline runs with a revision.  Workers (src/worker/worker.go) claim executions from the store
    under a lease, run the handler under heartbeats and report its outcome under the lease token; after
    a report the pipeline engine (src/pipeline/engine.go) rebuilds the state of the run from the store
    and creates or releases the nodes that have become ready.  The parts interact only through the
    store, so that the store's promises carry the system; the same contract is implemented in memory, on
    Redis (src/execution/redis) and on Postgres (src/execution/postgres).  Operators look at a store
    and act on it through the monitoring service (src/monitoring/service.go), its HTTP interface
    (src/monitoring/httpui/handler.go) and the command src/cmd/ody-admin/main.go.

    ** Files

    - Prelude (this file): the scope, hint database and tactics of the development, [sort.Slice], and
      lemmas on sorted and filtered lists.
    - GoLib: the Go runtime and standard library as far as the program uses them: 64-bit integers with
      their wrap-around, instants and durations in nanoseconds, [strings.TrimSpace], error values with
      wrapping, the state-and-error monad [M], and a weakest-precondition calculus for it.  The clock,
      fresh identifiers and map iteration orders are an environment [GoEnv]; what the program relies on
      ([GoEnvOk]: identifiers do not repeat, an iteration visits every entry once, ...) is a class that
      Demo instantiates.
    - GoText: texts as the program reads and writes them: decimal numbers, [time.RFC3339Nano] with its
      round trip, base64 keys, UTF-8.
    - Model: the structs and enumerations of src/execution/model.go, and the life cycle of an execution
      as a transition system ([transition], [History]).
    - Memory: every operation of [MemoryStore] (src/execution/memory.go) under the name it has there.
      An operation is one atomic step, as it is under the store's mutex.
    - MemoryInv, MemoryOps: the invariant of the store, its preservation by each operation, and the
      step relation of a store whose clients call any operations in any order ([step], [reachable]).
    - StoreSpec: the contract of the operations on one execution: the change each makes to the stored
      execution or the error it gives ([call_change]), the step of a store ([call_step]).
    - MemoryLists, MemoryCounts: lemmas on listings, cursors and statistics.
    - MemoryProps, MemoryProps2, MemoryProps3: the properties of the store; MemoryWitness evaluates them
      on concrete stores.
    - Task, TaskRegistry, TaskProps: task definitions, retry policies and error markers; bindings,
      modules and the registry; their properties.  [encoding/json] is the class [Codec], with the round
      trip the program relies on as [CodecOk].
    - Pipeline, Engine: pipeline definitions and the engine, the latter over any store with the
      operations of [Persistence].  StoreLaws states the contract the engine relies on, as laws over an
      abstract view of a store, and proves that the in-memory store honours it; EngineLemmas,
      EngineAdvance, PipelineProps and EngineProps prove the engine correct against the contract;
      EngineWitness runs it on the in-memory store.
    - Schedule, ScheduleProps: the scheduler.  The cron library is a parameter: a schedule is its [Next]
      function, with the documented promise [CronOk].
    - Worker, WorkerProps: one claim-and-execute loop of a worker over any [WorkerStore].  What a
      goroutine learns from its surroundings (cancellation, elapsed waits, the case a select takes) is
      an oracle [WorkerOracle].
    - Runtime, RuntimeProps: [Worker.Run] with its loops, handlers and grace period, [App.Run] with its
      components, and the life-cycle hooks of src/fx.go and src/worker/fx/lifecycle.go, as step relations
      over every interleaving of the goroutines with the cancellation of a context.  A loop appears in
      them by its stages (test of the context, claim, the select of [execute], return), and a handler may
      never return, have no timeout and keep its lease ([Handlers]).  Calls of the store return, and a
      heartbeat that the store accepts is no step.
    - App: the options and the constructor of src/app.go.
    - Observers, ObserversProps: the metrics of src/monitoring/prometheus/metrics.go and the log adapter of
      src/worker/zapobserver/observer.go, as what they tell the metrics library and the logger.
    - Monitoring, MonitoringProps: the monitoring service over any [MonitoringStore], and the HTTP handler:
      a request (method, path segments, query) becomes a response (status, content type, body).
    - RedisKeys, RedisServer, Redis, RedisRuns: the Redis store.  The operations are programs over the
      commands of a client ([RedisClient]); the server and other clients are parameters: [RedisLaws]
      states the documented behaviour of the commands, of WATCH and of MULTI over a keyspace that other
      clients may change between any two commands, in ways that are client steps ([rely]).
      [encoding/json] is the class [RedisServer.Codec] with its round trip on valid records.
    - RedisOps, RedisRep, RedisCommit, RedisItems, RedisRecords, RedisRunItems: the representation of a
      store of records by a keyspace ([Rep]: records, references, indexes, counters and event lists
      agree), and what each transaction does to it.  RedisTx, RedisSteps, RedisLin, RedisCreate,
      RedisDelivery, RedisSubgraph, RedisCounts, RedisReads, RedisPurge, RedisClients: the operations,
      each atomic at one instant of its call.  RedisProps, RedisProps2 state the properties; RedisDemo
      is an executable server that satisfies the hypotheses, on which RedisWitness runs them.
    - PgTables, Postgres: the Postgres store.  PgTables has the rows and constraints of
      src/execution/postgres/schema.sql and one definition per SQL statement; Postgres has the operations
      over the calls of [database/sql] ([PgClient]).  PgServer states the laws of the server ([PgLaws]): a
      statement sees one committed state and the writes of its own transaction; other transactions commit
      between any two calls, but neither touch a row that the open transaction holds nor break a constraint
      together with its writes; SKIP LOCKED passes over rows that another open transaction may hold
      ([pg_held]) and no others; a commit publishes everything or nothing; any call may fail.
    - PgTx, PgStmts, PgRows, PgSpec: views of open transactions, what each statement keeps, the
      contract with the differences of this store.  PgCalls, PgDelivery, PgCreate, PgSubgraph, PgReads,
      PgPurge, PgClients: the operations, each atomic at one instant of its call.  PgProps states the
      properties; PgWitness has an executable server with one client and runs them on it.
    - Admin: src/cmd/ody-admin/main.go, over GoFlag ([flag.FlagSet.Parse], [strconv.ParseInt] in any base and
      [time.ParseDuration] with its float64 fractions).  The process with its connections is one part of the
      state and the contents of the store the other; AdminProps has the properties and a concrete host.
    - Demo: a concrete environment, codec, task and registry for the examples.

    ** What is shown

    - Store invariant and history: whatever the clients call, executions are well formed, the
      uniqueness indexes are exact, and the event log of every execution replays to its status and
      attempt count ([store_invariant], [event_log_replays], [executions_unique]).
    - Delivery: a claim hands out the eligible executions, due first, each with a token of its own;
      tokens are never reused; a stale token can never change anything again; active work is always
      either claimable or reaped ([claim_delivers_due], [lease_tokens_never_reused],
      [stale_lease_fenced], [no_execution_stuck], [reaper_fails_exhausted], [owner_reports]).
    - Creation and operator actions on every branch, errors included: idempotent creation, compare-and-
      set run updates, cancellation, restart of executions and of pipeline subgraphs, release.
    - Queries and retention: listings are exact and paging is complete; statistics are exact; a purge
      removes exactly the oldest records with a finish time up to its limit, a run with all its nodes.
    - Tasks: registry routing, the round trip of a value from enqueueing through the handler, the
      behaviour of the backoff without wrap-around.
    - Pipelines: validation accepts exactly the topological definitions; the descendants of a node; the
      typed inputs of nodes; advancing a run schedules exactly the due nodes, fails, finishes and never
      gets stuck as long as the mappers succeed; advancing never changes an execution that is not blocked;
      cancellation.
    - Scheduler: the ticks a poll collects, catch-up over any polls with an execution stored for every tick,
      one execution per tick however many schedulers fire it, the overlap policy.
    - Redis: every operation on one execution refines the contract of StoreSpec, which the in-memory store
      also refines ([redis_refines_spec], [memory_refines_spec]); creation, claims, reaping, run updates
      and restarts of subgraphs are atomic whatever other clients do; the operations keep the keyspace
      consistent and typed and amount to client steps, so that clients compose; listings and statistics
      agree with the in-memory store; a purge removes exactly the oldest finished records.
    - Postgres: the same for this store: every operation on one execution refines its contract, which is
      StoreSpec with the differences that PgSpec lists ([postgres_refines_spec]); claims, creation, run updates, restarts of subgraphs and reaping take effect at
      one instant whatever other transactions commit; reads are snapshots that agree with the in-memory store;
      a purge removes finished runs with all their nodes and finished executions; the operations keep the constraints of the schema and
      only grow the tables, which is what clients rely on ([postgres_clients_compose]).
    - Monitoring: HTTP reads change nothing; actions answer with the status of their outcome; a client
      that follows the cursors sees every record ([http_reads_safe], [http_actions_answer],
      [http_paging_complete]).
    - Runtime: what [Worker.Run] and [App.Run] return, that a shutdown terminates even when handlers never
      return, and that a life cycle has
      one background run, which a stop cancels and awaits ([worker_run_result], [worker_run_stops],
      [app_run_result], [lifecycle_sound]); counters and scrapes are exact ([metrics_exact]).
    - Administration: the command closes every connection it opens, on every path; its read commands, on the
      Postgres and on the Redis store, change nothing and print one value or none; a purge has a deadline in the past; arguments are read back from
      every form they can be written in ([admin_closes_connections], [admin_reads_safe],
      [admin_purge_guarded], [parse_assignments]).
    - Worker: sound options, health, the fate of an execution by the outcome of its handler, a pass that
      delivers, and termination of the loop under persistent failure.

    Further theorems document where the code departs from its documentation or its intent:
    [purge_drops_unfinished_nodes], [default_backoff_below_cap], [latest_policy_fires_earliest],
    [worker_options_sound], [cancel_run] and [app_survives_lost_worker].

    ** Bounds and fuel

    Attempts, versions and counters are [Z] with the wrap-around of int64 and uint64 written out where
    the code computes with them.  The loops are bounded as in the code: [backoff_loop] by the number of
    attempts, [advance_tries] by the four tries of [Advance], [occurrences_loop] by its limit, the
    pass over the nodes of a pipeline by their number.  [TrimSpace] strips at most as many runes as the
    string has bytes.  [duration_sum] has the length of its text as fuel, and more
    changes nothing ([duration_sum_fuel]).  The worker's [loop], which is endless in the code, is given a
    number of iterations; [loop_stops_on_persistent_failure] states how many are enough.  The Redis [watch] tries
    sixteen times, as in the code.  Of the Redis store, the records are assumed to fit the JSON codec and
    the clock to stay in the years that the formats print ([small], [clock_ok]); a run status that is
    none of the five names is reported as an error, since [RunStatus] cannot hold it; [Purge], whose
    reads are not watched, is specified for a store that nobody else changes meanwhile.  Of the Postgres
    store, arguments are assumed to be ones that the server accepts (valid JSON, text without NUL, integers in
    range; [pg_op_ok]), instants have microseconds ([micro]) and a cursor is one of a stored record
    ([cursor_ok]); JSONB prints a value by the function [jsonb]; statistics come in the order of the
    server's collation, which is left open.  A statement sees one committed state: at the level READ
    COMMITTED a locking SELECT also checks rows again that were updated since its snapshot, and may return
    them in the place of their old version; this is left out, so that the order in which a claim prefers
    executions is that of one state.  The rows of a query arrive completely or the call fails, while
    [RestartPipelineSubgraph] does not look at [rows.Err] and takes an iteration that breaks off for
    complete.

    ** Not modelled

    Generated assets (the dashboard page) and the usage text of the flags.  Contexts, mutexes and observers
    without effect on the state do not appear outside Runtime; a panic outside the places where the program
    recovers is an error that no caller handles.  The HTTP model starts at a request with a clean path and ends at the value
    given to the JSON encoder; durations of metrics are in nanoseconds instead of floating-point seconds. *)

From stdpp Require Export base tactics gmap strings list fin_maps pretty.
From Stdlib Require Export ZArith Lia Sorting.Sorted.

(** ** Notation scope and hint databases of the development *)

Declare Scope ody_scope.
Delimit Scope ody_scope with ody.
#[global] Open Scope ody_scope.

Create HintDb ody discriminated.

(** ** Tactics *)

(** Split every conditional and match of the goal on its scrutinee. *)
Ltac split_matches := repeat (case_match; simplify_eq/=).

(** Turn a boolean test of the code into the proposition it decides. *)
Ltac reflect_bool :=
  repeat match goal with
  | H : bool_decide _ = true |- _ => apply bool_decide_eq_true_1 in H
  | H : bool_decide _ = false |- _ => apply bool_decide_eq_false_1 in H
  | H : andb _ _ = true |- _ => apply andb_prop in H as [? ?]
  | H : orb _ _ = false |- _ => apply orb_false_elim in H as [? ?]
  | H : negb _ = true |- _ => apply negb_true_iff in H
  | H : negb _ = false |- _ => apply negb_false_iff in H
  | H : Z.leb _ _ = true |- _ => apply Z.leb_le in H
  | H : Z.leb _ _ = false |- _ => apply Z.leb_gt in H
  | H : Z.ltb _ _ = true |- _ => apply Z.ltb_lt in H
  | H : Z.ltb _ _ = false |- _ => apply Z.ltb_ge in H
  | H : Z.eqb _ _ = true |- _ => apply Z.eqb_eq in H
  | H : Z.eqb _ _ = false |- _ => apply Z.eqb_neq in H
  end.

(** ** [sort.Slice]

    [sort.Slice] reorders a slice so that no element precedes one that is less than it.  It is
    not stable; every slice the program sorts was collected from a map in an arbitrary order, so
    that the stable insertion sort below, applied to that arbitrary order, has the same results. *)
Section SortSlice.
Context {A : Type} (less : A → A → bool).

Fixpoint sort_insert (x : A) (l : list A) : list A :=
  match l with
  | [] => [x]
  | y :: l' => if less y x then y :: sort_insert x l' else x :: y :: l'
  end.

Definition sort_Slice (l : list A) : list A := foldr sort_insert [] l.

Lemma sort_insert_perm x l : sort_insert x l ≡ₚ x :: l.
Proof.
  induction l as [|y l IH]; simpl; [done|].
  destruct (less y x); [|done]. rewrite IH. by constructor.
Qed.

Lemma sort_Slice_perm l : sort_Slice l ≡ₚ l.
Proof. induction l as [|x l IH]; simpl; [done|]. by rewrite sort_insert_perm, IH. Qed.

Lemma elem_of_sort_Slice x l : x ∈ sort_Slice l ↔ x ∈ l.
Proof. by rewrite sort_Slice_perm. Qed.

Lemma length_sort_Slice l : length (sort_Slice l) = length l.
Proof. apply Permutation_length, sort_Slice_perm. Qed.

(** The comparison functions of the program are strict weak orders: irreflexive, with a
    transitive complement. *)
Context (less_asym : ∀ x y, less x y = true → less y x = false).
Context (geq_trans : ∀ x y z, less y x = false → less z y = false → less z x = false).

Abbreviation sorted := (StronglySorted (λ x y, less y x = false)).

Lemma sort_insert_sorted x l : sorted l → sorted (sort_insert x l).
Proof using less_asym geq_trans.
  induction 1 as [|y l Hl IH Hy]; simpl; [by repeat constructor|].
  destruct (less y x) eqn:E.
  - constructor; [done|]. rewrite sort_insert_perm. constructor; [by apply less_asym|done].
  - constructor; [by constructor|]. constructor; [done|].
    eapply Forall_impl; [exact Hy|]. intros z Hz. by eapply geq_trans.
Qed.

Lemma sort_Slice_sorted l : sorted (sort_Slice l).
Proof using less_asym geq_trans.
  induction l; simpl; [constructor|by apply sort_insert_sorted].
Qed.
End SortSlice.

(** Two sorted lists with the same elements are equal when the order is antisymmetric on them. *)
Lemma StronglySorted_perm_eq {A} (R : A → A → Prop) (l k : list A) :
  (∀ x y, x ∈ l → y ∈ l → R x y → R y x → x = y) →
  StronglySorted R l → StronglySorted R k → l ≡ₚ k → l = k.
Proof.
  intros Hanti Hl. revert k Hanti. induction Hl as [|x l Hl IH Hx]; intros k Hanti Hk Hp.
  - by apply Permutation_nil_l in Hp.
  - destruct Hk as [|y k Hk Hy]; [by apply Permutation_nil_r in Hp|].
    assert (x = y) as ->.
    { assert (x ∈ y :: k) as Hin by (rewrite <-Hp; left).
      assert (y ∈ x :: l) as Hin' by (rewrite Hp; left).
      apply elem_of_cons in Hin as [?|Hin]; [done|].
      apply elem_of_cons in Hin' as [?|Hin']; [done|].
      rewrite Forall_forall in Hx, Hy. apply Hanti; [left|by right|auto|auto]. }
    f_equal. apply IH; [|done|by eapply Permutation_cons_inv].
    intros x' y' ??. apply Hanti; by right.
Qed.

Lemma StronglySorted_app_2 {A} (R : A → A → Prop) (l k : list A) :
  StronglySorted R (l ++ k) →
  StronglySorted R l ∧ StronglySorted R k ∧ ∀ x y, x ∈ l → y ∈ k → R x y.
Proof.
  induction l as [|a l IH]; simpl; intros Hs.
  - split_and!; [constructor|done|]. intros x y Hx. by apply elem_of_nil in Hx.
  - inversion_clear Hs as [|?? Hs' Ha]. apply Forall_app in Ha as [Hl Hk].
    destruct (IH Hs') as (H1 & H2 & H3). split_and!; [by constructor|done|].
    intros x y [->|Hx]%elem_of_cons Hy; [by rewrite Forall_forall in Hk; apply Hk|by apply H3].
Qed.

Lemma StronglySorted_app_1 {A} (R : A → A → Prop) (l k : list A) :
  StronglySorted R l → StronglySorted R k → (∀ x y, x ∈ l → y ∈ k → R x y) →
  StronglySorted R (l ++ k).
Proof.
  intros Hl Hk. induction Hl as [|a l Hl IH Ha]; intros Hlk; simpl; [done|].
  constructor; [apply IH; intros x y ??; apply Hlk; [by right|done]|].
  apply Forall_app. split; [done|]. rewrite Forall_forall. intros y ?. apply Hlk; [left|done].
Qed.

Lemma StronglySorted_filter {A} (R : A → A → Prop) (P : A → bool) (l : list A) :
  StronglySorted R l → StronglySorted R (List.filter P l).
Proof.
  induction 1 as [|x l Hl IH Hx]; simpl; [constructor|]. destruct (P x); [|done].
  constructor; [done|]. rewrite Forall_forall in Hx |- *. intros y Hy. apply Hx.
  by apply list_elem_of_In, filter_In, proj1, list_elem_of_In in Hy.
Qed.

Lemma elem_of_filter_In {A} (P : A → bool) (l : list A) x :
  x ∈ List.filter P l ↔ x ∈ l ∧ P x = true.
Proof. by rewrite !list_elem_of_In, filter_In. Qed.

Lemma filter_Permutation_bool {A} (P : A → bool) (l k : list A) :
  l ≡ₚ k → List.filter P l ≡ₚ List.filter P k.
Proof.
  induction 1 as [|x l k _ IH|x y l|l1 l2 l3 _ IH1 _ IH2]; simpl; [done| | |by rewrite IH1].
  - destruct (P x); [by constructor|done].
  - destruct (P x), (P y); try done. by constructor.
Qed.

Lemma filter_true_id {A} (P : A → bool) (l : list A) :
  (∀ x, x ∈ l → P x = true) → List.filter P l = l.
Proof.
  induction l as [|x l IH]; intros H; simpl; [done|].
  rewrite (H x) by left. f_equal. apply IH. intros y ?. apply H. by right.
Qed.

Lemma filter_false_nil {A} (P : A → bool) (l : list A) :
  (∀ x, x ∈ l → P x = false) → List.filter P l = [].
Proof.
  induction l as [|x l IH]; intros H; simpl; [done|].
  rewrite (H x) by left. apply IH. intros y ?. apply H. by right.
Qed.
