(* ===== verification/GoLib.v ===== *)
(** * The Go runtime and standard library, as the program uses them

    Machine integers, instants and durations, [strings.TrimSpace], error values with wrapping
    ([errors.Is], [errors.Join], [fmt.Errorf]), and the state-and-error monad in which every
    operation of the program is written.  The sources of non-determinism of a Go process (the
    clock, random identifiers, the iteration order of maps) are an environment, [GoEnv]. *)

From S2P Require Import Prelude.

(** ** Integers, instants, durations and identifiers *)

(** A [time.Time] is the number of nanoseconds since the zero [time.Time]; a [time.Duration] is
    an [int64] number of nanoseconds; a [uuid.UUID] is the 128-bit value of its bytes. *)
Abbreviation Time := Z (only parsing).
Abbreviation Duration := Z (only parsing).
Abbreviation UUID := N (only parsing).

Definition uuid_Nil : UUID := 0%N.

(** Wrap-around of [int]/[int64] and [uint64] arithmetic. *)
Definition int64 (z : Z) : Z := ((z + 2 ^ 63) mod 2 ^ 64 - 2 ^ 63)%Z.
Definition uint64 (z : Z) : Z := (z mod 2 ^ 64)%Z.
Definition MaxInt64 : Z := (2 ^ 63 - 1)%Z.

Definition IsZero (t : Time) : bool := (t =? 0)%Z.
Definition After (t u : Time) : bool := (u <? t)%Z.
Definition Before (t u : Time) : bool := (t <? u)%Z.
Definition Equal (t u : Time) : bool := (t =? u)%Z.
Definition Add (t : Time) (d : Duration) : Time := (t + d)%Z.

Definition Nanosecond : Duration := 1%Z.
Definition Millisecond : Duration := 1000000%Z.
Definition Second : Duration := 1000000000%Z.

Lemma int64_id z : (- 2 ^ 63 ≤ z ≤ MaxInt64)%Z → int64 z = z.
Proof. unfold int64, MaxInt64. intros ?. rewrite Z.mod_small by lia. lia. Qed.

Lemma uint64_succ_ne r : (0 ≤ r < 2 ^ 64)%Z → uint64 (r + 1) ≠ r.
Proof.
  unfold uint64. intros Hr Heq.
  destruct (decide (r = 2 ^ 64 - 1)%Z) as [->|].
  - revert Heq. vm_compute. done.
  - rewrite Z.mod_small in Heq by lia. lia.
Qed.

Lemma uint64_bounds z : (0 ≤ uint64 z < 2 ^ 64)%Z.
Proof. apply Z.mod_pos_bound. lia. Qed.

(** ** Strings *)

Definition byte_str (n : nat) : string := String (Ascii.ascii_of_nat n) EmptyString.

Definition NUL : string := byte_str 0.

(** A Go string comparison is the lexicographic comparison of the bytes. *)
Definition str_lt (a b : string) : bool :=
  match String.compare a b with Lt => true | _ => false end.

(** The UTF-8 encodings of the code points [unicode.IsSpace] accepts. *)
Definition unicode_spaces : list string :=
  (byte_str <$> [9; 10; 11; 12; 13; 32]) ++
  (String (Ascii.ascii_of_nat 194) <$> (byte_str <$> [133; 160])) ++
  [byte_str 225 +:+ byte_str 154 +:+ byte_str 128] ++
  ((λ n, byte_str 226 +:+ byte_str 128 +:+ byte_str n)
     <$> [128; 129; 130; 131; 132; 133; 134; 135; 136; 137; 138; 168; 169; 175]) ++
  [byte_str 226 +:+ byte_str 129 +:+ byte_str 159; byte_str 227 +:+ byte_str 128 +:+ byte_str 128].

Fixpoint strip_prefix (p s : string) : option string :=
  match p, s with
  | EmptyString, _ => Some s
  | String a p', String b s' => if decide (a = b) then strip_prefix p' s' else None
  | _, _ => None
  end.

Fixpoint strip_first (ps : list string) (s : string) : option string :=
  match ps with
  | [] => None
  | p :: ps' => match strip_prefix p s with Some s' => Some s' | None => strip_first ps' s end
  end.

Fixpoint trim_left (fuel : nat) (ps : list string) (s : string) : string :=
  match fuel with
  | O => s
  | S fuel' => match strip_first ps s with Some s' => trim_left fuel' ps s' | None => s end
  end.

(** [strings.TrimSpace]; a space takes at least one byte, so the length is enough fuel. *)
Definition TrimSpace (s : string) : string :=
  let left := trim_left (String.length s) unicode_spaces s in
  String.rev (trim_left (String.length left) (String.rev <$> unicode_spaces) (String.rev left)).

(** ** Errors *)

(** The package-level error values, compared by identity; [RedisNil] and [RedisTxFailed] are those
    of the Redis client, [ErrExisting] and [ErrUnavailable] the private ones of the Redis store. *)
Inductive sentinel :=
  | ErrNotFound | ErrLeaseLost | ErrActive | ErrPipelineExecution | ErrConflict
  | ErrEmptyName | ErrUnknownTask | ErrShutdownTimeout
  | ContextCanceled | ContextDeadlineExceeded
  | RedisNil | RedisTxFailed | ErrExisting | ErrUnavailable.

#[global] Instance sentinel_eq_dec : EqDecision sentinel.
Proof. solve_decision. Defined.

(** [errorString] is a value of [errors.New]; [fmtError] one of [fmt.Errorf] with the operands
    before and after the wrapped one; [permanentError] and [retryAfterError] are the wrappers of
    the task package. *)
Inductive error :=
  | Sentinel (s : sentinel)
  | errorString (text : string)
  | fmtError (format : string) (before : list string) (wrapped : option error) (after : list string)
  | joinError (errs : list error)
  | permanentError (err : error)
  | retryAfterError (err : error) (delay : Duration).

Coercion Sentinel : sentinel >-> error.

Fixpoint errors_Is (err : error) (target : sentinel) : bool :=
  match err with
  | Sentinel s => bool_decide (s = target)
  | errorString _ => false
  | fmtError _ _ wrapped _ => match wrapped with Some e => errors_Is e target | None => false end
  | joinError errs => existsb (λ e, errors_Is e target) errs
  | permanentError e | retryAfterError e _ => errors_Is e target
  end.

(** [errors.Join] drops nil errors and is nil when all are. *)
Definition errors_Join (errs : list (option error)) : option error :=
  match omap id errs with [] => None | es => Some (joinError es) end.

Definition fmt_Errorf (format : string) (operands : list string) : error :=
  fmtError format operands None [].

(** ** The environment of a process *)

(** The clock, the random identifiers and the permutations that map iterations follow, indexed by
    the number of queries made so far; the printed form of an identifier ([uuid.UUID.String]) and
    [fmt.Sprintf] on rendered operands. *)
Class GoEnv := {
  env_now : nat → Time;
  env_uuid : nat → UUID;
  env_shuffle : nat → ∀ A : Type, list A → list A;
  uuid_String : UUID → string;
  fmt_Sprintf : string → list string → string;
}.

(** What the program relies on: random identifiers do not repeat and are not the nil identifier,
    a map iteration visits every entry once, an identifier is determined by its printed form, which
    is made of hexadecimal digits and dashes (in particular it has no NUL byte), and the clock is
    past the zero instant. *)
Fixpoint no_byte (c : Ascii.ascii) (s : string) : Prop :=
  match s with EmptyString => True | String a s' => a ≠ c ∧ no_byte c s' end.

Class GoEnvOk `{E : GoEnv} : Prop := {
  env_uuid_inj :: Inj (=) (=) env_uuid;
  env_uuid_not_Nil : ∀ n, env_uuid n ≠ uuid_Nil;
  env_shuffle_perm : ∀ n A (l : list A), env_shuffle n A l ≡ₚ l;
  uuid_String_inj :: Inj (=) (=) uuid_String;
  uuid_String_no_NUL : ∀ u, no_byte Ascii.zero (uuid_String u);
  env_now_pos : ∀ n, (0 < env_now n)%Z;
}.

(** The [Error] method. *)
Fixpoint error_Error `{GoEnv} (err : error) : string :=
  match err with
  | Sentinel s =>
      match s with
      | ErrNotFound => "execution not found"
      | ErrLeaseLost => "execution lease lost"
      | ErrActive => "execution is active"
      | ErrPipelineExecution => "pipeline execution requires pipeline coordinator"
      | ErrConflict => "state revision conflict"
      | ErrEmptyName => "task name is empty"
      | ErrUnknownTask => "unknown task"
      | ErrShutdownTimeout => "worker shutdown grace period elapsed"
      | ContextCanceled => "context canceled"
      | ContextDeadlineExceeded => "context deadline exceeded"
      | RedisNil => "redis: nil"
      | RedisTxFailed => "redis: transaction failed"
      | ErrExisting => "redis execution reference already exists"
      | ErrUnavailable => "redis execution is not claimable"
      end
  | errorString text => text
  | fmtError format before wrapped after =>
      fmt_Sprintf format
        (before ++ match wrapped with Some e => [error_Error e] | None => [] end ++ after)
  | joinError errs => String.concat (byte_str 10) (map error_Error errs)
  | permanentError e | retryAfterError e _ => error_Error e
  end.

(** ** The monad *)

(** An operation changes a world [W] and returns an error or a value; the changes made before an
    error stay. *)
Definition M (W A : Type) : Type := W → (error + A) * W.

#[global] Instance M_ret {W} : MRet (M W) := λ A a w, (inr a, w).
#[global] Instance M_bind {W} : MBind (M W) := λ A B f m w,
  match m w with
  | (inl e, w') => (inl e, w')
  | (inr a, w') => f a w'
  end.

Definition throw {W A} (e : error) : M W A := λ w, (inl e, w).

(** Receive the error of an operation as a value, as [err := f()] does. *)
Definition try {W A} (m : M W A) : M W (error + A) := λ w, let '(r, w') := m w in (inr r, w').

Definition get_world {W} : M W W := λ w, (inr w, w).
Definition put_world {W} (w' : W) : M W unit := λ _, (inr tt, w').
Definition gets {W A} (f : W → A) : M W A := λ w, (inr (f w), w).

(** A loop over the elements of a slice. *)
Fixpoint forM_ {W A} (l : list A) (body : A → M W unit) : M W unit :=
  match l with
  | [] => mret tt
  | x :: l' => _ ← body x; forM_ l' body
  end.

Definition when {W} (b : bool) (m : M W unit) : M W unit := if b then m else mret tt.

(** ** Lemmas *)

Lemma append_nil s : EmptyString +:+ s = s.
Proof. done. Qed.

Lemma append_cons a s t : String a s +:+ t = String a (s +:+ t).
Proof. done. Qed.

(** [no_byte] separates a joined key: the part before the first separator determines it. *)
Lemma app_sep_inj (c : Ascii.ascii) (a a' b b' : string) :
  no_byte c a → no_byte c a' →
  a +:+ String c b = a' +:+ String c b' → a = a' ∧ b = b'.
Proof.
  revert a'. induction a as [|x a IH]; intros [|y a'] Ha Ha' Heq; simpl in *; simplify_eq.
  - done.
  - by destruct Ha'.
  - by destruct Ha.
  - destruct Ha as [_ Ha], Ha' as [_ Ha']. by destruct (IH a') as [-> ->].
Qed.

(** The part after the last separator determines a joined key. *)
Lemma app_sep_inj_r (c : Ascii.ascii) (a a' b b' : string) :
  no_byte c b → no_byte c b' → a +:+ String c b = a' +:+ String c b' → a = a' ∧ b = b'.
Proof.
  assert (∀ x y z, no_byte c z → z ≠ x +:+ String c y) as Hno.
  { intros x y. induction x as [|k x IH]; intros [|j z] Hz Heq; simpl in *;
      rewrite ?append_nil, ?append_cons in Heq; simplify_eq; [by destruct Hz|].
    destruct Hz as [_ Hz]. by apply (IH _ Hz). }
  intros Hb Hb'. revert a'. induction a as [|x a IH]; intros [|y a'] Heq;
    rewrite ?append_nil, ?append_cons in Heq; simplify_eq; [done|exfalso..|].
  - by eapply Hno, eq_refl.
  - by eapply Hno, eq_refl.
  - by destruct (IH a') as [-> ->].
Qed.

Lemma strip_prefix_Some p s s' : strip_prefix p s = Some s' ↔ s = p +:+ s'.
Proof.
  revert s. induction p as [|a p IH]; intros [|b s]; simpl;
    rewrite ?append_nil, ?append_cons; [split; congruence..|].
  destruct (decide (a = b)) as [->|]; [rewrite IH|]; split; congruence.
Qed.

Lemma strip_first_None ps s : strip_first ps s = None ↔ ∀ p s', p ∈ ps → s ≠ p +:+ s'.
Proof.
  induction ps as [|p ps IH]; simpl; [split; [|done]; intros _ ?? []%elem_of_nil|].
  destruct (strip_prefix p s) as [t|] eqn:E.
  - split; [done|]. intros H. exfalso. apply strip_prefix_Some in E. eapply H; [left|exact E].
  - rewrite IH. split.
    + intros H q s' [->|Hq]%elem_of_cons; [|by apply H].
      intros Hs. apply strip_prefix_Some in Hs. congruence.
    + intros H q s' Hq. apply H. by right.
Qed.

Lemma strip_first_Some ps s s' :
  strip_first ps s = Some s' → ∃ p, p ∈ ps ∧ s = p +:+ s'.
Proof.
  induction ps as [|p ps IH]; simpl; [done|].
  destruct (strip_prefix p s) as [t|] eqn:E; intros ?; simplify_eq.
  - apply strip_prefix_Some in E. exists p. split; [left|done].
  - destruct IH as (q & ? & ?); [done|]. exists q. split; [by right|done].
Qed.

(** ** Weakest preconditions

    [wp m Q w]: running [m] in the world [w] ends with a result and a world that satisfy [Q]. *)
Definition wp {W A} (m : M W A) (Q : error + A → W → Prop) (w : W) : Prop :=
  Q (m w).1 (m w).2.

Section WP.
Context {W : Type}.
Implicit Types w : W.

Lemma wp_run {A} (m : M W A) Q w r w' : m w = (r, w') → Q r w' → wp m Q w.
Proof. unfold wp. by intros ->. Qed.

Lemma wp_elim {A} (m : M W A) Q w r w' : wp m Q w → m w = (r, w') → Q r w'.
Proof. unfold wp. by intros H Heq; rewrite Heq in H. Qed.

Lemma wp_mono {A} (m : M W A) (Q R : error + A → W → Prop) w :
  wp m Q w → (∀ r w', Q r w' → R r w') → wp m R w.
Proof. unfold wp. auto. Qed.

Lemma wp_bind {A B} (m : M W A) (k : A → M W B) Q w :
  wp m (λ r w', match r with inl e => Q (inl e) w' | inr a => wp (k a) Q w' end) w →
  wp (m ≫= k) Q w.
Proof. unfold wp, mbind, M_bind. by destruct (m w) as [[e|a] w']. Qed.

Lemma wp_ret {A} (a : A) Q w : Q (inr a) w → wp (mret a) Q w.
Proof. done. Qed.

Lemma wp_throw {A} e (Q : error + A → W → Prop) w : Q (inl e) w → wp (throw e) Q w.
Proof. done. Qed.

Lemma wp_gets {A} (f : W → A) Q w : Q (inr (f w)) w → wp (gets f) Q w.
Proof. done. Qed.

Lemma wp_try {A} (m : M W A) Q w : wp m (λ r w', Q (inr r) w') w → wp (try m) Q w.
Proof. unfold wp, try. by destruct (m w). Qed.

Lemma wp_when b (m : M W unit) Q w :
  (b = true → wp m Q w) → (b = false → Q (inr tt) w) → wp (when b m) Q w.
Proof. destruct b; unfold when; intros H1 H2; [by apply H1|]. apply wp_ret. by apply H2. Qed.

(** A loop keeps an invariant indexed by the elements still to be visited. *)
Lemma wp_forM_ {A} (I : list A → W → Prop) (body : A → M W unit) (l : list A) w :
  (∀ x l' w, I (x :: l') w → wp (body x) (λ r w', r = inr tt ∧ I l' w') w) →
  I l w → wp (forM_ l body) (λ r w', r = inr tt ∧ I [] w') w.
Proof.
  intros Hstep. revert w. induction l as [|x l IH]; intros w Hw; simpl; [by apply wp_ret|].
  apply wp_bind. eapply wp_mono; [by apply Hstep|]. simpl. intros r w' [-> Hw']. by apply IH.
Qed.
End WP.

Lemma bind_gets {W A B} (f : W → A) (k : A → M W B) w : (gets f ≫= k) w = k (f w) w.
Proof. done. Qed.

(** ** The order of strings *)

Lemma str_lt_irrefl a : str_lt a a = false.
Proof.
  unfold str_lt. pose proof (String.compare_antisym a a) as H.
  by destruct (String.compare a a).
Qed.

Lemma ascii_compare_lt a b : Ascii.compare a b = Lt ↔ (Ascii.N_of_ascii a < Ascii.N_of_ascii b)%N.
Proof. unfold Ascii.compare. by rewrite N.compare_lt_iff. Qed.

Lemma ascii_compare_eq a b : Ascii.compare a b = Eq ↔ a = b.
Proof.
  split; [apply Ascii.compare_eq_iff|]. intros ->. unfold Ascii.compare. apply N.compare_refl.
Qed.

Lemma str_lt_nil_l b : str_lt EmptyString b = negb (bool_decide (b = EmptyString)).
Proof. destruct b; [done|]. by rewrite bool_decide_false. Qed.

Lemma str_lt_nil_r a : str_lt a EmptyString = false.
Proof. by destruct a. Qed.

Lemma str_lt_cons a s b t :
  str_lt (String a s) (String b t) = true ↔
  (Ascii.N_of_ascii a < Ascii.N_of_ascii b)%N ∨ a = b ∧ str_lt s t = true.
Proof.
  unfold str_lt. simpl. destruct (Ascii.compare a b) eqn:Hab.
  - apply ascii_compare_eq in Hab as ->. split; [auto|]. intros [?|[_ ?]]; [lia|done].
  - apply ascii_compare_lt in Hab. split; auto.
  - split; [done|]. intros [Hlt|[Heq _]].
    + apply ascii_compare_lt in Hlt. congruence.
    + apply ascii_compare_eq in Heq. congruence.
Qed.

Lemma str_lt_trans a b c : str_lt a b = true → str_lt b c = true → str_lt a c = true.
Proof.
  revert b c. induction a as [|x a IH]; intros [|y b] [|z c]; try done.
  rewrite !str_lt_cons. intros [?|[-> ?]] [?|[-> ?]]; [left; lia|by left|by left|right; eauto].
Qed.

Lemma str_lt_total a b : str_lt a b = true ∨ a = b ∨ str_lt b a = true.
Proof.
  unfold str_lt. destruct (String.compare a b) eqn:H; [|auto|].
  - right; left. by apply String.compare_eq_iff.
  - right; right. by rewrite String.compare_antisym, H.
Qed.

Lemma str_lt_asym a b : str_lt a b = true → str_lt b a = false.
Proof.
  intros Hab. destruct (str_lt b a) eqn:Hba; [|done].
  pose proof (str_lt_trans _ _ _ Hab Hba) as H. by rewrite str_lt_irrefl in H.
Qed.
