(* ===== verification/GoText.v ===== *)
(** * Text formats of the Go standard library

    Decimal numbers ([strconv.ParseInt], [fmt.Sscan]), instants in the layout [time.RFC3339Nano]
    ([time.Time.Format] in UTC, [time.Parse]) and [base64.RawURLEncoding], with their round trips. *)

From S2P Require Import Prelude GoLib.

(** ** Decimal numbers *)

Definition digit (c : Ascii.ascii) : option Z :=
  let n := Z.of_N (Ascii.N_of_ascii c) in
  if (48 <=? n)%Z && (n <=? 57)%Z then Some (n - 48)%Z else None.

(** The value of a text that is made of digits only. *)
Fixpoint digits_value (acc : Z) (s : string) : option Z :=
  match s with
  | EmptyString => Some acc
  | String c s' => match digit c with
                   | Some d => digits_value (acc * 10 + d)%Z s'
                   | None => None
                   end
  end.

Definition unsigned_value (s : string) : option Z :=
  match s with EmptyString => None | _ => digits_value 0 s end.

(** A number with an optional sign. *)
Definition signed_value (s : string) : option Z :=
  match s with
  | String c s' =>
      if bool_decide (c = Ascii.ascii_of_nat 45) then Z.opp <$> unsigned_value s' else
      if bool_decide (c = Ascii.ascii_of_nat 43) then unsigned_value s' else unsigned_value s
  | EmptyString => None
  end.

(** [strconv.ParseInt] with base 10 and 64 bits. *)
Definition ParseInt (s : string) : error + Z :=
  match signed_value s with
  | None => inl (errorString "strconv.ParseInt: invalid syntax")
  | Some z =>
      if (- 2 ^ 63 <=? z)%Z && (z <=? MaxInt64)%Z then inr z
      else inl (errorString "strconv.ParseInt: value out of range")
  end.

(** [fmt.Sscan] into an [int] and into a [uint64], on a text that is one decimal number; the base
    prefixes, underscores and trailing text that it also accepts are left out. *)
Definition Sscan_int (s : string) : error + Z :=
  match signed_value s with
  | Some z => if (- 2 ^ 63 <=? z)%Z && (z <=? MaxInt64)%Z then inr z
              else inl (errorString "integer overflow on token")
  | None => inl (errorString "expected integer")
  end.

Definition Sscan_uint64 (s : string) : error + Z :=
  match unsigned_value s with
  | Some z => if (z <? 2 ^ 64)%Z then inr z
              else inl (errorString "unsigned integer overflow on token")
  | None => inl (errorString "expected integer")
  end.

Lemma digit_pretty (n : N) : (n < 10)%N → digit (pretty_N_char n) = Some (Z.of_N n).
Proof.
  intros Hn. assert (n = 0 ∨ n = 1 ∨ n = 2 ∨ n = 3 ∨ n = 4 ∨ n = 5 ∨ n = 6 ∨ n = 7 ∨ n = 8 ∨ n = 9)%N
    as Hcases by lia.
  naive_solver.
Qed.

Lemma digits_pretty_go (x : N) s :
  digits_value 0 (pretty_N_go x s) = digits_value (Z.of_N x) s.
Proof.
  revert s. induction (N.lt_wf_0 x) as [x _ IH]; intros s.
  destruct (decide (0 < x)%N) as [Hx|Hx].
  - rewrite pretty_N_go_step by done. rewrite IH by (apply N.div_lt; lia). simpl.
    rewrite digit_pretty by (apply N.mod_lt; lia). f_equal.
    rewrite N2Z.inj_div, N2Z.inj_mod. pose proof (Z.div_mod (Z.of_N x) 10). lia.
  - assert (x = 0%N) as -> by lia. by rewrite pretty_N_go_0.
Qed.

Lemma digits_pretty (n : N) : digits_value 0 (pretty n) = Some (Z.of_N n).
Proof.
  unfold pretty, pretty_N. case_decide as H; [by rewrite H|]. by rewrite digits_pretty_go.
Qed.

Lemma pretty_N_go_nonempty x c t : pretty_N_go x (String c t) ≠ EmptyString.
Proof.
  revert c t. induction (N.lt_wf_0 x) as [x _ IH]; intros c t. destruct (decide (0 < x)%N) as [Hx|Hx].
  - rewrite pretty_N_go_step by done. apply IH, N.div_lt; lia.
  - assert (x = 0%N) as -> by lia. by rewrite pretty_N_go_0.
Qed.

Lemma pretty_N_cons (n : N) : ∃ c s, pretty n = String c s ∧ is_Some (digit c).
Proof.
  pose proof (digits_pretty n) as H. destruct (pretty n) as [|c s] eqn:Hp.
  - exfalso. clear H. unfold pretty, pretty_N in Hp. case_decide; [done|].
    rewrite pretty_N_go_step in Hp by lia. by apply pretty_N_go_nonempty in Hp.
  - exists c, s. split; [done|]. simpl in H. destruct (digit c); [by eexists|done].
Qed.

Lemma unsigned_pretty (n : N) : unsigned_value (pretty n) = Some (Z.of_N n).
Proof. destruct (pretty_N_cons n) as (c & s & Heq & _). rewrite <-digits_pretty, Heq. done. Qed.

Lemma signed_pretty (z : Z) : signed_value (pretty z) = Some z.
Proof.
  assert (∀ n : N, signed_value (pretty n) = Some (Z.of_N n)) as Hpos.
  { intros n. destruct (pretty_N_cons n) as (c & s & Heq & [d Hd]).
    rewrite <-unsigned_pretty, Heq. simpl.
    rewrite !bool_decide_eq_false_2; [done|intros ->; by vm_compute in Hd..]. }
  destruct z as [|p|p].
  - by vm_compute.
  - apply (Hpos (Npos p)).
  - change (pretty (Z.neg p)) with (String (Ascii.ascii_of_nat 45) (pretty (Npos p))).
    unfold signed_value. rewrite bool_decide_eq_true_2 by done. by rewrite unsigned_pretty.
Qed.

Lemma ParseInt_pretty z : (- 2 ^ 63 ≤ z ≤ MaxInt64)%Z → ParseInt (pretty z) = inr z.
Proof.
  intros [H1 H2]. unfold ParseInt. rewrite signed_pretty.
  by rewrite (proj2 (Z.leb_le _ _) H1), (proj2 (Z.leb_le _ _) H2).
Qed.

Lemma Sscan_int_pretty z : (- 2 ^ 63 ≤ z ≤ MaxInt64)%Z → Sscan_int (pretty z) = inr z.
Proof.
  intros [H1 H2]. unfold Sscan_int. rewrite signed_pretty.
  by rewrite (proj2 (Z.leb_le _ _) H1), (proj2 (Z.leb_le _ _) H2).
Qed.

Lemma Sscan_uint64_pretty z : (0 ≤ z < 2 ^ 64)%Z → Sscan_uint64 (pretty z) = inr z.
Proof.
  intros [H1 H2]. unfold Sscan_uint64. assert (pretty z = pretty (Z.to_N z)) as ->.
  { destruct z; [done..|lia]. }
  rewrite unsigned_pretty, Z2N.id by done. by rewrite (proj2 (Z.ltb_lt _ _) H2).
Qed.

(** ** Instants in the layout [time.RFC3339Nano] *)

(** The civil date of a day, counted from 1 March of the year 0. *)
Definition day_of_era (day : Z) : Z := (day mod 146097)%Z.
Definition year_of_era (doe : Z) : Z :=
  ((doe - doe / 1460 + doe / 36524 - doe / 146096) / 365)%Z.
Definition day_of_year (doe : Z) : Z :=
  let yoe := year_of_era doe in (doe - (365 * yoe + yoe / 4 - yoe / 100))%Z.

(** Year, month and day of a day counted from 1 January of the year 1. *)
Definition civil_date (day : Z) : Z * Z * Z :=
  let day := (day + 306)%Z in
  let doe := day_of_era day in
  let doy := day_of_year doe in
  let mp := ((5 * doy + 2) / 153)%Z in
  let d := (doy - (153 * mp + 2) / 5 + 1)%Z in
  let m := if (mp <? 10)%Z then (mp + 3)%Z else (mp - 9)%Z in
  let y := (year_of_era doe + day / 146097 * 400)%Z in
  (if (m <=? 2)%Z then (y + 1)%Z else y, m, d).

Fixpoint zeros (n : nat) : string :=
  match n with O => EmptyString | S n' => "0" +:+ zeros n' end.

(** The decimal digits of a number, padded to a width. *)
Definition padded (width : nat) (z : Z) : string :=
  let digits := pretty z in zeros (width - String.length digits) +:+ digits.

(** The fraction of a second without its trailing zeros. *)
Fixpoint fraction (width : nat) (ns : Z) : string :=
  match width with
  | O => EmptyString
  | S width' => if (ns =? 0)%Z then EmptyString
                else padded 1 (ns / 10 ^ Z.of_nat width')%Z
                     +:+ fraction width' (ns mod 10 ^ Z.of_nat width')%Z
  end.

(** [t.UTC().Format(time.RFC3339Nano)] *)
Definition format_RFC3339Nano (t : Time) : string :=
  let '(y, m, d) := civil_date (t / (86400 * Second))%Z in
  let s := (t / Second mod 86400)%Z in
  let ns := (t mod Second)%Z in
  padded 4 y +:+ "-" +:+ padded 2 m +:+ "-" +:+ padded 2 d +:+ "T"
  +:+ padded 2 (s / 3600)%Z +:+ ":" +:+ padded 2 (s / 60 mod 60)%Z +:+ ":" +:+ padded 2 (s mod 60)%Z
  +:+ (if (ns =? 0)%Z then EmptyString else "." +:+ fraction 9 ns) +:+ "Z".

(** The day, counted from 1 January of the year 1, of a civil date. *)
Definition day_of_date (y m d : Z) : Z :=
  let y' := if (m <=? 2)%Z then (y - 1)%Z else y in
  let yoe := (y' mod 400)%Z in
  let doy := ((153 * ((m + 9) mod 12) + 2) / 5 + d - 1)%Z in
  (y' / 400 * 146097 + (yoe * 365 + yoe / 4 - yoe / 100 + doy) - 306)%Z.

Definition is_leap (y : Z) : bool :=
  ((y mod 4 =? 0) && (negb (y mod 100 =? 0) || (y mod 400 =? 0)))%Z.

Definition days_in (m y : Z) : Z :=
  if (m =? 2)%Z then (if is_leap y then 29 else 28)%Z
  else if ((m =? 4) || (m =? 6) || (m =? 9) || (m =? 11))%Z then 30%Z else 31%Z.

(** A number of exactly [width] digits, and the rest of the text. *)
Fixpoint read_digits (width : nat) (acc : Z) (s : string) : option (Z * string) :=
  match width, s with
  | O, _ => Some (acc, s)
  | S width', String c s' =>
      match digit c with Some d => read_digits width' (acc * 10 + d)%Z s' | None => None end
  | S _, EmptyString => None
  end.

(** A fraction of up to nine digits, in nanoseconds; further digits are read and dropped. *)
Fixpoint read_fraction (scale acc : Z) (s : string) : Z * string :=
  match s with
  | String c s' =>
      match digit c with
      | Some d => read_fraction (scale / 10) (acc + d * scale) s'
      | None => (acc, s)
      end
  | EmptyString => (acc, s)
  end.

(** A number of a fixed width that is followed by a separator. *)
Definition field (width : nat) (separator s : string) : option (Z * string) :=
  match read_digits width 0 s with
  | Some (z, s') => match strip_prefix separator s' with Some rest => Some (z, rest) | None => None end
  | None => None
  end.

Definition fields_valid (y m d hour minute sec : Z) : bool :=
  ((1 <=? m) && (m <=? 12) && (1 <=? d) && (d <=? days_in m y)
   && (hour <? 24) && (minute <? 60) && (sec <? 60))%Z.

(** The hour may have one digit. *)
Definition hour_field (s : string) : option (Z * string) :=
  match field 2 ":" s with Some r => Some r | None => field 1 ":" s end.

(** A fraction of a second, after a period or a comma; without a digit it is not one. *)
Definition fraction_field (s : string) : Z * string :=
  match s with
  | String c s' =>
      if bool_decide (c = Ascii.ascii_of_nat 46) || bool_decide (c = Ascii.ascii_of_nat 44)
      then let '(ns, rest) := read_fraction (10 ^ 8) 0 s' in
           if bool_decide (rest = s') then (0%Z, s) else (ns, rest)
      else (0%Z, s)
  | EmptyString => (0%Z, s)
  end.

(** The seconds east of UTC that a time zone [Z] or [+07:00] stands for. *)
Definition zone_offset (s : string) : option Z :=
  if bool_decide (s = "Z") then Some 0%Z else
  match s with
  | String c s' =>
      sign ← (if bool_decide (c = Ascii.ascii_of_nat 43) then Some 1%Z
              else if bool_decide (c = Ascii.ascii_of_nat 45) then Some (-1)%Z else None);
      '(hour, s') ← field 2 ":" s'; '(minute, s') ← read_digits 2 0 s';
      if bool_decide (s' = EmptyString) && (hour <=? 24)%Z && (minute <=? 60)%Z
      then Some (sign * (hour * 3600 + minute * 60))%Z else None
  | EmptyString => None
  end.

(** [time.Parse(time.RFC3339Nano, s)], as the instant. *)
Definition parse_RFC3339Nano_opt (s : string) : option Time :=
  '(y, s) ← field 4 "-" s; '(m, s) ← field 2 "-" s; '(d, s) ← field 2 "T" s;
  '(hour, s) ← hour_field s; '(minute, s) ← field 2 ":" s; '(sec, s) ← read_digits 2 0 s;
  let '(ns, s) := fraction_field s in
  offset ← zone_offset s;
  if fields_valid y m d hour minute sec
  then Some ((day_of_date y m d * 86400 + hour * 3600 + minute * 60 + sec - offset) * Second + ns)%Z
  else None.

Definition time_Parse (s : string) : error + Time :=
  match parse_RFC3339Nano_opt s with
  | Some t => inr t
  | None => inl (fmt_Errorf "parsing time %q" [s])
  end.

(** *** Dates *)

Lemma year_of_era_bounds doe :
  (0 ≤ doe < 146097 → 0 ≤ year_of_era doe ≤ 399 ∧ 0 ≤ day_of_year doe ≤ 365)%Z.
Proof. intros H. unfold day_of_year, year_of_era. Z.to_euclidean_division_equations; lia. Qed.

Lemma day_of_year_leap doe :
  (0 ≤ doe < 146097)%Z → day_of_year doe = 365%Z → is_leap (year_of_era doe + 1) = true.
Proof.
  intros H Hd. pose proof (year_of_era_bounds doe H) as [Hy _]. unfold day_of_year in Hd.
  unfold is_leap. rewrite andb_true_iff, orb_true_iff, negb_true_iff, !Z.eqb_eq, Z.eqb_neq.
  assert ((year_of_era doe + 1) mod 4 = 0 ∧
    ((year_of_era doe + 1) mod 100 = 0 → year_of_era doe = 399))%Z as [H4 H100].
  { unfold year_of_era in *. Z.to_euclidean_division_equations; lia. }
  split; [done|]. destruct (decide ((year_of_era doe + 1) mod 100 = 0)%Z) as [Hz|Hz]; [|by left].
  right. by rewrite (H100 Hz).
Qed.

Lemma is_leap_shift y k : is_leap (y + k * 400) = is_leap y.
Proof.
  unfold is_leap. rewrite Z.mod_add by lia.
  replace (y + k * 400)%Z with (y + (k * 4) * 100)%Z at 2 by lia. rewrite Z.mod_add by lia.
  replace (y + k * 400)%Z with (y + (k * 100) * 4)%Z by lia. by rewrite Z.mod_add by lia.
Qed.

(** A civil date is a date of the calendar, and determines its day. *)
Lemma civil_date_spec day :
  let '(y, m, d) := civil_date day in
  day_of_date y m d = day ∧ (1 ≤ m ≤ 12)%Z ∧ (1 ≤ d ≤ days_in m y)%Z.
Proof.
  unfold civil_date. cbv zeta. set (day' := (day + 306)%Z).
  assert (0 ≤ day_of_era day' < 146097)%Z as Hdoe by (apply Z.mod_pos_bound; lia).
  pose proof (year_of_era_bounds _ Hdoe) as [Hy Hd]. pose proof (day_of_year_leap _ Hdoe) as Hleap.
  set (era := (day' / 146097)%Z). set (doe := day_of_era day') in *. set (yoe := year_of_era doe) in *.
  set (doy := day_of_year doe) in *. set (mp := ((5 * doy + 2) / 153)%Z).
  assert (0 ≤ mp ≤ 11)%Z as Hmp by (unfold mp; Z.to_euclidean_division_equations; lia).
  set (d := (doy - (153 * mp + 2) / 5 + 1)%Z).
  assert (day = era * 146097 + doe - 306)%Z as Hday
    by (unfold era, doe, day_of_era; pose proof (Z.div_mod day' 146097); lia).
  assert (doe = 365 * yoe + yoe / 4 - yoe / 100 + doy)%Z as Hdoe'
    by (unfold doy, day_of_year; fold yoe; lia).
  assert (∀ y', y' = (yoe + era * 400)%Z → y' mod 400 = yoe ∧ y' / 400 = era)%Z as Hy'.
  { intros y' ->. rewrite Z.mod_add, Z.div_add, Z.mod_small, Z.div_small by lia. lia. }
  destruct (Z.ltb_spec mp 10) as [Hlt|Hge].
  - destruct (Z.leb_spec (mp + 3) 2); [lia|]. split; [|split; [lia|]].
    + unfold day_of_date. destruct (Z.leb_spec (mp + 3) 2); [lia|].
      destruct (Hy' _ eq_refl) as [-> ->].
      replace ((mp + 3 + 9) mod 12)%Z with mp by (Z.to_euclidean_division_equations; lia).
      unfold d. lia.
    + unfold days_in, d. rewrite (proj2 (Z.eqb_neq _ _)) by lia.
      destruct ((mp + 3 =? 4) || (mp + 3 =? 6) || (mp + 3 =? 9) || (mp + 3 =? 11))%Z eqn:Hm;
        rewrite ?orb_true_iff, ?orb_false_iff, ?Z.eqb_eq, ?Z.eqb_neq in Hm;
        unfold mp in *; Z.to_euclidean_division_equations; lia.
  - destruct (Z.leb_spec (mp - 9) 2); [|lia]. split; [|split; [lia|]].
    + unfold day_of_date. destruct (Z.leb_spec (mp - 9) 2); [|lia].
      destruct (Hy' (yoe + era * 400 + 1 - 1)%Z) as [-> ->]; [lia|].
      replace ((mp - 9 + 9) mod 12)%Z with mp by (rewrite Z.mod_small; lia).
      unfold d. lia.
    + unfold days_in. replace (yoe + era * 400 + 1)%Z with (yoe + 1 + era * 400)%Z by lia.
      rewrite is_leap_shift. destruct (Z.eqb_spec (mp - 9) 2) as [H2|H2].
      * destruct (is_leap (yoe + 1)) eqn:Hl.
        -- unfold d, mp in *. Z.to_euclidean_division_equations; lia.
        -- assert (doy ≠ 365%Z) by (intros Heq; specialize (Hleap Heq); congruence).
           unfold d, mp in *. Z.to_euclidean_division_equations; lia.
      * assert ((mp - 9 =? 4) || (mp - 9 =? 6) || (mp - 9 =? 9) || (mp - 9 =? 11) = false)%Z as ->
          by (rewrite !orb_false_iff, !Z.eqb_neq; lia).
        unfold d, mp in *. Z.to_euclidean_division_equations; lia.
Qed.

(** *** Fields of a fixed width *)

Lemma zeros_value n s : digits_value 0 (zeros n +:+ s) = digits_value 0 s.
Proof. induction n as [|n IH]; [done|]. simpl zeros. rewrite append_cons, !append_nil. exact IH. Qed.

Lemma length_zeros n : String.length (zeros n) = n.
Proof. induction n as [|n IH]; [done|]. simpl. by f_equal. Qed.

Lemma length_append (s t : string) : String.length (s +:+ t) = String.length s + String.length t.
Proof. induction s as [|c s IH]; [done|]. rewrite append_cons. simpl. by rewrite IH. Qed.

Lemma read_digits_value s acc v rest :
  digits_value acc s = Some v → read_digits (String.length s) acc (s +:+ rest) = Some (v, rest).
Proof.
  revert acc. induction s as [|c s IH]; intros acc H; simpl in *; [by simplify_eq|].
  destruct (digit c) as [d|]; [by apply IH|done].
Qed.

Lemma length_pretty_go w (x : N) s :
  (Z.of_N x < 10 ^ Z.of_nat w)%Z → String.length (pretty_N_go x s) ≤ w + String.length s.
Proof.
  revert x s. induction w as [|w IH]; intros x s Hx.
  - assert (x = 0%N) as -> by (simpl in Hx; lia). rewrite pretty_N_go_0. lia.
  - destruct (decide (0 < x)%N) as [H0|H0].
    + rewrite pretty_N_go_step by done. etrans; [apply IH|simpl; lia].
      rewrite N2Z.inj_div. apply Z.div_lt_upper_bound; [lia|].
      rewrite Nat2Z.inj_succ, Z.pow_succ_r in Hx by lia. lia.
    + assert (x = 0%N) as -> by lia. rewrite pretty_N_go_0. lia.
Qed.

Lemma read_padded w z rest :
  (0 < w)%nat → (0 ≤ z < 10 ^ Z.of_nat w)%Z → read_digits w 0 (padded w z +:+ rest) = Some (z, rest).
Proof.
  intros Hw [H0 Hz]. unfold padded.
  assert (pretty z = pretty (Z.to_N z)) as -> by (destruct z; [done..|lia]).
  assert (String.length (pretty (Z.to_N z)) ≤ w) as Hlen.
  { unfold pretty, pretty_N. case_decide; [simpl; lia|].
    etrans; [apply (length_pretty_go w); lia|simpl; lia]. }
  replace w with (String.length (zeros (w - String.length (pretty (Z.to_N z))) +:+ pretty (Z.to_N z)))
    at 1 by (rewrite length_append, length_zeros; lia).
  apply read_digits_value. rewrite zeros_value, digits_pretty. f_equal. lia.
Qed.

Lemma field_padded w z c rest :
  (0 < w)%nat → (0 ≤ z < 10 ^ Z.of_nat w)%Z → field w c (padded w z +:+ c +:+ rest) = Some (z, rest).
Proof.
  intros Hw Hz. unfold field. rewrite read_padded by done.
  by rewrite (proj2 (strip_prefix_Some c (c +:+ rest) rest) eq_refl).
Qed.

(** *** Fractions of a second *)

Lemma append_assoc (a b c : string) : (a +:+ b) +:+ c = a +:+ (b +:+ c).
Proof. induction a as [|x a IH]; [done|]. by rewrite !append_cons, IH. Qed.

Lemma padded_1 d : (0 ≤ d < 10)%Z → ∃ c, padded 1 d = String c EmptyString ∧ digit c = Some d.
Proof.
  intros H. assert (d = 0 ∨ d = 1 ∨ d = 2 ∨ d = 3 ∨ d = 4 ∨ d = 5 ∨ d = 6 ∨ d = 7 ∨ d = 8 ∨ d = 9)%Z
    as Hcases by lia.
  destruct_or! Hcases; subst d; eexists; split; vm_compute; reflexivity.
Qed.

Lemma read_fraction_stop scale acc : read_fraction scale acc "Z" = (acc, "Z").
Proof. done. Qed.

Lemma read_fraction_fraction w ns acc :
  (0 ≤ ns < 10 ^ Z.of_nat w)%Z →
  read_fraction (10 ^ (Z.of_nat w - 1)) acc (fraction w ns +:+ "Z") = ((acc + ns)%Z, "Z").
Proof.
  revert ns acc. induction w as [|w IH]; intros ns acc Hns.
  - simpl in Hns. assert (ns = 0%Z) as -> by lia. by rewrite Z.add_0_r.
  - simpl fraction. destruct (Z.eqb_spec ns 0) as [->|Hne].
    { rewrite append_nil, read_fraction_stop. by rewrite Z.add_0_r. }
    rewrite Nat2Z.inj_succ, Z.pow_succ_r in Hns by lia.
    set (p := (10 ^ Z.of_nat w)%Z) in *. assert (0 < p)%Z as Hp by (unfold p; apply Z.pow_pos_nonneg; lia).
    destruct (padded_1 (ns / p)) as (c & -> & Hc).
    { split; [apply Z.div_pos; lia|apply Z.div_lt_upper_bound; lia]. }
    rewrite append_cons, append_nil, append_cons. cbn [read_fraction]. rewrite Hc.
    replace (Z.of_nat (S w) - 1)%Z with (Z.of_nat w) by lia. fold p.
    destruct w as [|w'].
    + unfold p in *. simpl in *. rewrite !Z.div_1_r. f_equal. lia.
    + replace (p / 10)%Z with (10 ^ (Z.of_nat (S w') - 1))%Z.
      2:{ unfold p. rewrite Nat2Z.inj_succ, Z.pow_succ_r by lia.
          replace (Z.succ (Z.of_nat w') - 1)%Z with (Z.of_nat w') by lia.
          rewrite Z.mul_comm, Z.div_mul; lia. }
      rewrite IH by (apply Z.mod_pos_bound; lia). f_equal. pose proof (Z.div_mod ns p). lia.
Qed.

Lemma fraction_nonempty ns : (0 < ns < 10 ^ 9)%Z → ∃ c s, fraction 9 ns = String c s.
Proof.
  intros [H0 H9]. change 9%nat with (S 8). simpl fraction. rewrite (proj2 (Z.eqb_neq _ _)) by lia.
  destruct (padded_1 (ns / 10 ^ Z.of_nat 8)) as (c & -> & _).
  { split; [apply Z.div_pos; lia|apply Z.div_lt_upper_bound; lia]. }
  eexists _, _. by rewrite append_cons.
Qed.

(** *** The round trip *)

(** The instants of the years 1 to 9999. *)
Definition time_ok (t : Time) : Prop := (0 ≤ t < 3652059 * 86400 * Second)%Z.

Lemma civil_year_ok t :
  time_ok t → let '(y, _, _) := civil_date (t / (86400 * Second))%Z in (0 ≤ y < 10000)%Z.
Proof.
  unfold time_ok. intros Ht. set (day := (t / (86400 * Second))%Z).
  assert (0 ≤ day < 3652059)%Z as Hday.
  { unfold day, Second in *. Z.to_euclidean_division_equations; lia. }
  unfold civil_date. cbv zeta.
  assert (0 ≤ day_of_era (day + 306) < 146097)%Z as Hdoe by (apply Z.mod_pos_bound; lia).
  pose proof (year_of_era_bounds _ Hdoe) as [Hy Hd].
  pose proof (Z.div_mod (day + 306) 146097) as Hera.
  assert (0 ≤ (day + 306) / 146097 ≤ 24)%Z as Hera24 by (Z.to_euclidean_division_equations; lia).
  set (doe := day_of_era (day + 306)) in *. set (yoe := year_of_era doe) in *.
  assert (doe = 365 * yoe + yoe / 4 - yoe / 100 + day_of_year doe)%Z as Hdoe'
    by (unfold day_of_year; fold yoe; lia).
  set (doy := day_of_year doe) in *. fold (day_of_era (day + 306)) in Hera. fold doe in Hera.
  set (era := ((day + 306) / 146097)%Z) in *. set (mp := ((5 * doy + 2) / 153)%Z).
  assert (0 ≤ mp ≤ 11 ∧ (10 ≤ mp → 306 ≤ doy))%Z as [Hmp Hjan]
    by (unfold mp; Z.to_euclidean_division_equations; lia).
  assert (yoe = 399 → era = 24 → doy < 306)%Z as Hlast.
  { intros H1 H2. rewrite H1 in Hdoe'. rewrite H2 in Hera. change (399 / 4)%Z with 99%Z in Hdoe'.
    change (399 / 100)%Z with 3%Z in Hdoe'. lia. }
  destruct (Z.ltb_spec mp 10);
    match goal with |- context [(?a <=? 2)%Z] => destruct (Z.leb_spec a 2) end; lia.
Qed.

(** The layout loses nothing: an instant of the years 1 to 9999 is read back from its text. *)
Lemma time_Parse_format t : time_ok t → time_Parse (format_RFC3339Nano t) = inr t.
Proof.
  intros Ht. pose proof (civil_year_ok t Ht) as Hyear. unfold time_Parse, format_RFC3339Nano.
  pose proof (civil_date_spec (t / (86400 * Second))) as Hdate.
  destruct (civil_date (t / (86400 * Second))) as [[y m] d] eqn:Hcivil.
  destruct Hdate as (Hday & Hm & Hd).
  assert (d ≤ 31)%Z as Hd31 by (unfold days_in in Hd; repeat case_match; lia).
  set (s := (t / Second mod 86400)%Z).
  assert (0 ≤ s < 86400)%Z as Hs by (apply Z.mod_pos_bound; lia).
  set (ns := (t mod Second)%Z).
  assert (0 ≤ ns < 10 ^ 9)%Z as Hns by (apply Z.mod_pos_bound; unfold Second; lia).
  assert (0 ≤ s / 3600 < 24 ∧ 0 ≤ s / 60 mod 60 < 60 ∧ 0 ≤ s mod 60 < 60)%Z as (Hh & Hmin & Hsec)
    by (Z.to_euclidean_division_equations; lia).
  unfold parse_RFC3339Nano_opt, hour_field.
  do 5 (rewrite field_padded by (simpl; lia); cbn [mbind option_bind]).
  rewrite read_padded by (simpl; lia). cbn [mbind option_bind].
  assert (day_of_date y m d * 86400 + s / 3600 * 3600 + s / 60 mod 60 * 60 + s mod 60 = t / Second)%Z
    as Hsum.
  { rewrite Hday. unfold s.
    replace (t / (86400 * Second))%Z with (t / Second / 86400)%Z
      by (rewrite Z.div_div by (unfold Second; lia); f_equal; lia).
    generalize (t / Second)%Z as u. clear. intros u. Z.to_euclidean_division_equations; lia. }
  assert (((day_of_date y m d * 86400 + s / 3600 * 3600 + s / 60 mod 60 * 60 + s mod 60) * Second + ns)
    = t)%Z as Ht'.
  { rewrite Hsum. unfold ns. pose proof (Z.div_mod t Second). unfold Second in *. lia. }
  assert (fields_valid y m d (s / 3600) (s / 60 mod 60) (s mod 60) = true)%Z as Hvalid.
  { unfold fields_valid. rewrite !andb_true_iff, !Z.leb_le, !Z.ltb_lt. lia. }
  destruct (Z.eqb_spec ns 0) as [H0|H0].
  - rewrite append_nil. change (fraction_field "Z") with (0%Z, "Z"). cbn [mbind option_bind].
    change (zone_offset "Z") with (Some 0%Z). cbn [mbind option_bind]. rewrite Hvalid. f_equal. lia.
  - rewrite append_assoc, append_cons. unfold fraction_field. rewrite bool_decide_eq_true_2 by done.
    cbn [orb]. pose proof (read_fraction_fraction 9 ns 0) as Hfrac.
    change (10 ^ (Z.of_nat 9 - 1))%Z with (10 ^ 8)%Z in Hfrac.
    rewrite append_nil, Hfrac by (simpl; lia). rewrite Z.add_0_l.
    rewrite bool_decide_eq_false_2.
    + change (zone_offset "Z") with (Some 0%Z). cbn [mbind option_bind]. rewrite Hvalid.
      rewrite Z.sub_0_r. by rewrite Ht'.
    + destruct (fraction_nonempty ns) as (c & rest & ->); [lia|].
      rewrite append_cons. intros [= _ Heq]. apply (f_equal String.length) in Heq.
      rewrite length_append in Heq. simpl in Heq. lia.
Qed.

Lemma format_RFC3339Nano_inj t u :
  time_ok t → time_ok u → format_RFC3339Nano t = format_RFC3339Nano u → t = u.
Proof.
  intros Ht Hu Heq. pose proof (time_Parse_format t Ht) as H1.
  pose proof (time_Parse_format u Hu) as H2. rewrite Heq in H1. congruence.
Qed.

(** ** [base64.RawURLEncoding] *)

Definition base64_alphabet : string :=
  "ABCDEFGHIJKLMNOPQRSTUVWXYZabcdefghijklmnopqrstuvwxyz0123456789-_".

Definition base64_char (n : N) : Ascii.ascii :=
  default Ascii.zero (String.get (N.to_nat n) base64_alphabet).

(** Three bytes give four characters; a rest of one or two bytes gives two or three, unpadded. *)
Fixpoint base64_encode (s : string) : string :=
  match s with
  | EmptyString => EmptyString
  | String a s1 =>
      let a := Ascii.N_of_ascii a in
      match s1 with
      | EmptyString =>
          String (base64_char (a / 4)) (String (base64_char (a mod 4 * 16)) EmptyString)
      | String b s2 =>
          let b := Ascii.N_of_ascii b in
          match s2 with
          | EmptyString =>
              String (base64_char (a / 4)) (String (base64_char (a mod 4 * 16 + b / 16))
                (String (base64_char (b mod 16 * 4)) EmptyString))
          | String c s3 =>
              let c := Ascii.N_of_ascii c in
              String (base64_char (a / 4)) (String (base64_char (a mod 4 * 16 + b / 16))
                (String (base64_char (b mod 16 * 4 + c / 64)) (String (base64_char (c mod 64))
                  (base64_encode s3))))
          end
      end
  end.

(** The index of a character in the alphabet. *)
Definition base64_index (c : Ascii.ascii) : option nat := String.index 0 (String c EmptyString) base64_alphabet.

Lemma base64_char_index n : (n < 64)%N → base64_index (base64_char n) = Some (N.to_nat n).
Proof.
  intros Hn.
  assert (forallb (λ n, bool_decide (base64_index (base64_char (N.of_nat n)) = Some n)) (seq 0 64) = true)
    as Hall by (vm_compute; reflexivity).
  rewrite forallb_forall in Hall. specialize (Hall (N.to_nat n)). rewrite N2Nat.id in Hall.
  assert (In (N.to_nat n) (seq 0 64)) as Hin by (apply in_seq; lia).
  specialize (Hall Hin). by apply bool_decide_eq_true_1 in Hall.
Qed.

Lemma base64_char_inj n m : (n < 64)%N → (m < 64)%N → base64_char n = base64_char m → n = m.
Proof.
  intros Hn Hm Heq. pose proof (base64_char_index n Hn) as H. rewrite Heq, base64_char_index in H by done.
  injection H as H. lia.
Qed.

Lemma N_of_ascii_bound c : (Ascii.N_of_ascii c < 256)%N.
Proof. apply Ascii.N_ascii_bounded. Qed.

Lemma N_of_ascii_inj a b : Ascii.N_of_ascii a = Ascii.N_of_ascii b → a = b.
Proof. intros H. by rewrite <-(Ascii.ascii_N_embedding a), H, Ascii.ascii_N_embedding. Qed.

Lemma N_div_mod_eq (k a a' : N) : (0 < k)%N → (a / k = a' / k)%N → (a mod k = a' mod k)%N → a = a'.
Proof.
  intros Hk Hd Hm. by rewrite (N.div_mod a k), (N.div_mod a' k), Hd, Hm by lia.
Qed.

(** Bounds of the parts of a byte. *)
Lemma byte_parts (a : N) : (a < 256)%N →
  (a / 4 < 64 ∧ a mod 4 < 4 ∧ a / 16 < 16 ∧ a mod 16 < 16 ∧ a / 64 < 4 ∧ a mod 64 < 64)%N.
Proof. intros Ha. zify. Z.to_euclidean_division_equations; lia. Qed.

Ltac sextets :=
  repeat match goal with
  | H : (?a < 256)%N |- _ =>
      lazymatch goal with
      | _ : (a / 4 < 64)%N |- _ => fail
      | _ => destruct (byte_parts a H) as (? & ? & ? & ? & ? & ?)
      end
  end;
  repeat match goal with
  | H : base64_char _ = base64_char _ |- _ => apply base64_char_inj in H; [|lia..]
  end.

(** Two digits in a base are determined by their value. *)
Lemma digits_eq (k x y x' y' : N) :
  (y < k)%N → (y' < k)%N → (x * k + y = x' * k + y')%N → x = x' ∧ y = y'.
Proof. intros Hy Hy' Heq. assert (x = x')%N as -> by nia. split; [done|lia]. Qed.

(** The characters of a group determine its bytes. *)
Lemma base64_group_1 a a' : (a < 256)%N → (a' < 256)%N →
  base64_char (a / 4) = base64_char (a' / 4) →
  base64_char (a mod 4 * 16) = base64_char (a' mod 4 * 16) → a = a'.
Proof. intros. sextets. apply (N_div_mod_eq 4); lia. Qed.

Lemma base64_group_2 a b a' b' : (a < 256)%N → (a' < 256)%N → (b < 256)%N → (b' < 256)%N →
  base64_char (a / 4) = base64_char (a' / 4) →
  base64_char (a mod 4 * 16 + b / 16) = base64_char (a' mod 4 * 16 + b' / 16) →
  base64_char (b mod 16 * 4) = base64_char (b' mod 16 * 4) → a = a' ∧ b = b'.
Proof.
  intros. sextets.
  destruct (digits_eq 16 (a mod 4) (b / 16) (a' mod 4) (b' / 16)) as [? ?]; [done..|].
  assert (b mod 16 = b' mod 16)%N by lia. split; eapply N_div_mod_eq; eauto; done.
Qed.

Lemma base64_group_3 a b c a' b' c' :
  (a < 256)%N → (a' < 256)%N → (b < 256)%N → (b' < 256)%N → (c < 256)%N → (c' < 256)%N →
  base64_char (a / 4) = base64_char (a' / 4) →
  base64_char (a mod 4 * 16 + b / 16) = base64_char (a' mod 4 * 16 + b' / 16) →
  base64_char (b mod 16 * 4 + c / 64) = base64_char (b' mod 16 * 4 + c' / 64) →
  base64_char (c mod 64) = base64_char (c' mod 64) → a = a' ∧ b = b' ∧ c = c'.
Proof.
  intros. sextets.
  destruct (digits_eq 16 (a mod 4) (b / 16) (a' mod 4) (b' / 16)) as [? ?]; [done..|].
  destruct (digits_eq 4 (b mod 16) (c / 64) (b' mod 16) (c' / 64)) as [? ?]; [done..|].
  split_and!; eapply N_div_mod_eq; eauto; done.
Qed.

#[global] Instance base64_encode_inj : Inj (=) (=) base64_encode.
Proof.
  intros s. induction s as [s IH] using (induction_ltof1 _ String.length). unfold ltof in IH.
  pose proof N_of_ascii_bound as Hb.
  intros t Heq. destruct s as [|a [|b [|c s]]], t as [|a' [|b' [|c' t]]]; simpl in Heq;
    try done; injection Heq; intros; try done.
  - assert (a = a') as ->; [|done]. apply N_of_ascii_inj, base64_group_1; auto.
  - destruct (base64_group_2 (Ascii.N_of_ascii a) (Ascii.N_of_ascii b) (Ascii.N_of_ascii a')
      (Ascii.N_of_ascii b')) as [->%N_of_ascii_inj ->%N_of_ascii_inj]; auto.
  - destruct (base64_group_3 (Ascii.N_of_ascii a) (Ascii.N_of_ascii b) (Ascii.N_of_ascii c)
      (Ascii.N_of_ascii a') (Ascii.N_of_ascii b') (Ascii.N_of_ascii c'))
      as (->%N_of_ascii_inj & ->%N_of_ascii_inj & ->%N_of_ascii_inj); auto.
    do 3 f_equal. apply IH; [simpl; lia|done].
Qed.

(** The alphabet has no separator of a key. *)
Lemma base64_char_no_colon n : (n < 64)%N → base64_char n ≠ Ascii.ascii_of_nat 58.
Proof. intros Hn Heq. pose proof (base64_char_index n Hn) as H. by rewrite Heq in H. Qed.

Lemma base64_no_colon s : no_byte (Ascii.ascii_of_nat 58) (base64_encode s).
Proof.
  pose proof N_of_ascii_bound as Hb.
  induction s as [s IH] using (induction_ltof1 _ String.length). unfold ltof in IH.
  destruct s as [|a [|b [|c s]]]; simpl; [done|..];
    repeat (split; [apply base64_char_no_colon|]); try done;
    try (pose proof (Hb a); try pose proof (Hb b); try pose proof (Hb c); sextets; lia).
  apply IH. simpl. lia.
Qed.

(** ** [utf8.ValidString] *)

Definition byte_in (lo hi : N) (c : Ascii.ascii) : bool :=
  ((lo <=? Ascii.N_of_ascii c) && (Ascii.N_of_ascii c <=? hi))%N.

(** [pending] are the ranges of the continuation bytes that must follow. *)
Fixpoint valid_utf8_from (pending : list (N * N)) (s : string) : bool :=
  match s, pending with
  | EmptyString, [] => true
  | EmptyString, _ :: _ => false
  | String c s', (lo, hi) :: pending' => byte_in lo hi c && valid_utf8_from pending' s'
  | String c s', [] =>
      if byte_in 0 127 c then valid_utf8_from [] s'
      else if byte_in 194 223 c then valid_utf8_from [(128, 191)%N] s'
      else if byte_in 224 224 c then valid_utf8_from [(160, 191)%N; (128, 191)%N] s'
      else if byte_in 237 237 c then valid_utf8_from [(128, 159)%N; (128, 191)%N] s'
      else if byte_in 225 239 c then valid_utf8_from [(128, 191)%N; (128, 191)%N] s'
      else if byte_in 240 240 c then valid_utf8_from [(144, 191)%N; (128, 191)%N; (128, 191)%N] s'
      else if byte_in 241 243 c then valid_utf8_from [(128, 191)%N; (128, 191)%N; (128, 191)%N] s'
      else if byte_in 244 244 c then valid_utf8_from [(128, 143)%N; (128, 191)%N; (128, 191)%N] s'
      else false
  end.

Definition valid_utf8 (s : string) : bool := valid_utf8_from [] s.
