(* ===== verification/GoFlag.v ===== *)
(** * Command-line flags of the Go standard library

    [flag.FlagSet.Parse] for flags of type string, int and time.Duration, with [strconv.ParseInt] in any
    base and [time.ParseDuration]. *)

From Stdlib Require Import SpecFloat.
From S2P Require Import Prelude GoLib GoText.

Definition char (n : nat) : Ascii.ascii := Ascii.ascii_of_nat n.

(** ** [strconv.ParseInt] with base 0 *)

Definition lower (c : Ascii.ascii) : Ascii.ascii :=
  let n := Ascii.nat_of_ascii c in if (65 <=? n) && (n <=? 90) then char (n + 32) else c.

Definition alnum (c : Ascii.ascii) : option Z :=
  let n := Z.of_N (Ascii.N_of_ascii (lower c)) in
  if (48 <=? n)%Z && (n <=? 57)%Z then Some (n - 48)%Z else
  if (97 <=? n)%Z && (n <=? 122)%Z then Some (n - 87)%Z else None.

(** The digits in [base], with underscores between them. *)
Fixpoint base_digits (base acc : Z) (s : string) : option Z :=
  match s with
  | EmptyString => Some acc
  | String c s' =>
      if bool_decide (c = char 95) then base_digits base acc s' else
      match alnum c with
      | Some d => if (d <? base)%Z then base_digits base (acc * base + d)%Z s' else None
      | None => None
      end
  end.

(** The base that a prefix announces, and the rest. *)
Definition base_prefix (s : string) : Z * string :=
  match s with
  | String z (String c (String _ _ as s')) =>
      if negb (bool_decide (z = char 48)) then (10%Z, s) else
      if bool_decide (lower c = char 98) then (2%Z, s') else
      if bool_decide (lower c = char 111) then (8%Z, s') else
      if bool_decide (lower c = char 120) then (16%Z, s') else (8%Z, String c s')
  | String z s' => if bool_decide (z = char 48) then (8%Z, s') else (10%Z, s)
  | EmptyString => (10%Z, s)
  end.

(** [underscoreOK]: an underscore follows a digit or a base prefix, and a digit follows it.  The last
    thing seen is a digit or prefix, an underscore, or something else. *)
Inductive Seen := SeenDigit | SeenUnderscore | SeenOther.

Fixpoint underscores_ok (hex : bool) (seen : Seen) (s : string) : bool :=
  match s with
  | EmptyString => match seen with SeenUnderscore => false | _ => true end
  | String c s' =>
      let n := Ascii.nat_of_ascii (lower c) in
      if ((48 <=? n) && (n <=? 57)) || (hex && (97 <=? n) && (n <=? 102)) then underscores_ok hex SeenDigit s' else
      if bool_decide (c = char 95)
      then match seen with SeenDigit => underscores_ok hex SeenUnderscore s' | _ => false end
      else match seen with SeenUnderscore => false | _ => underscores_ok hex SeenOther s' end
  end.

Definition underscoreOK (s : string) : bool :=
  match s with
  | String z (String c s') =>
      let l := lower c in
      if bool_decide (z = char 48) && (bool_decide (l = char 98) || bool_decide (l = char 111) || bool_decide (l = char 120))
      then underscores_ok (bool_decide (l = char 120)) SeenDigit s'
      else underscores_ok false SeenOther s
  | _ => underscores_ok false SeenOther s
  end.

Definition has_underscore (s : string) : bool := bool_decide (is_Some (String.index 0 (String (char 95) EmptyString) s)).

Definition unsigned_base0 (s : string) : option Z :=
  match s with
  | EmptyString => None
  | _ =>
      let '(base, digits) := base_prefix s in
      if has_underscore digits && negb (underscoreOK s) then None else base_digits base 0 digits
  end.

(** A text that is both too long and malformed is reported as malformed. *)
Definition ParseInt0 (s : string) : error + Z :=
  let value := match s with
               | String c s' =>
                   if bool_decide (c = char 45) then Z.opp <$> unsigned_base0 s' else
                   if bool_decide (c = char 43) then unsigned_base0 s' else unsigned_base0 s
               | EmptyString => None
               end in
  match value with
  | None => inl (errorString "parse error")
  | Some z => if (- 2 ^ 63 <=? z)%Z && (z <=? MaxInt64)%Z then inr z else inl (errorString "value out of range")
  end.

(** ** [time.ParseDuration] *)

Definition is_digit (c : Ascii.ascii) : bool := bool_decide (is_Some (digit c)).

(** [leadingInt], which reports values above 2^63. *)
Fixpoint leadingInt (x : Z) (s : string) : option (Z * string) :=
  match s with
  | String c s' =>
      match digit c with
      | Some d =>
          if (2 ^ 63 / 10 <? x)%Z then None else
          let x := (x * 10 + d)%Z in
          if (2 ^ 63 <? x)%Z then None else leadingInt x s'
      | None => Some (x, s)
      end
  | EmptyString => Some (x, s)
  end.

(** float64, rounded to nearest even. *)
Definition float64 (z : Z) : spec_float := binary_normalize 53 1024 z 0 false.
Definition float_mul (x y : spec_float) : spec_float := SFmul 53 1024 x y.
Definition float_div (x y : spec_float) : spec_float := SFdiv 53 1024 x y.

(** The conversion to uint64 of a value that is not negative. *)
Definition float_trunc (x : spec_float) : Z :=
  match x with
  | S754_finite false m e => if (0 <=? e)%Z then (Zpos m * 2 ^ e)%Z else (Zpos m / 2 ^ (- e))%Z
  | _ => 0%Z
  end.

(** [leadingFraction]: the digits that fit and their scale; the others are dropped. *)
Fixpoint leadingFraction (x : Z) (scale : spec_float) (overflow : bool) (s : string) : Z * spec_float * string :=
  match s with
  | String c s' =>
      match digit c with
      | Some d =>
          if overflow then leadingFraction x scale true s' else
          if ((2 ^ 63 - 1) / 10 <? x)%Z then leadingFraction x scale true s' else
          let y := (x * 10 + d)%Z in
          if (2 ^ 63 <? y)%Z then leadingFraction x scale true s'
          else leadingFraction y (float_mul scale (float64 10)) false s'
      | None => (x, scale, s)
      end
  | EmptyString => (x, scale, s)
  end.

(** The text up to a point or a digit. *)
Fixpoint unit_text (s : string) : string * string :=
  match s with
  | String c s' =>
      if bool_decide (c = char 46) || is_digit c then (EmptyString, s)
      else let '(u, rest) := unit_text s' in (String c u, rest)
  | EmptyString => (EmptyString, s)
  end.

Definition micro_sign : string := String (char 194) (String (char 181) (String (char 115) EmptyString)).
Definition greek_mu : string := String (char 206) (String (char 188) (String (char 115) EmptyString)).

Definition unitMap (u : string) : option Z :=
  if bool_decide (u = "ns") then Some 1%Z else
  if bool_decide (u = "us") || bool_decide (u = micro_sign) || bool_decide (u = greek_mu) then Some 1000%Z else
  if bool_decide (u = "ms") then Some Millisecond else
  if bool_decide (u = "s") then Some Second else
  if bool_decide (u = "m") then Some (60 * Second)%Z else
  if bool_decide (u = "h") then Some (3600 * Second)%Z else None.

(** One number with its unit, in nanoseconds, and the rest. *)
Definition duration_part (s : string) : option (Z * string) :=
  match s with
  | EmptyString => None
  | String c _ =>
      if negb (bool_decide (c = char 46) || is_digit c) then None else
      '(v, s1) ← leadingInt 0 s;
      let pre := negb (bool_decide (s1 = s)) in
      let '(f, scale, s2, post) :=
        match s1 with
        | String c1 s1' =>
            if bool_decide (c1 = char 46)
            then let '(f, scale, s2) := leadingFraction 0 (float64 1) false s1' in
                 (f, scale, s2, negb (bool_decide (s2 = s1')))
            else (0%Z, float64 1, s1, false)
        | EmptyString => (0%Z, float64 1, s1, false)
        end in
      if negb (pre || post) then None else
      let '(u, rest) := unit_text s2 in
      unit ← unitMap u;
      if (2 ^ 63 / unit <? v)%Z then None else
      let v := (v * unit)%Z in
      let v := if (0 <? f)%Z
               then (v + float_trunc (float_mul (float64 f) (float_div (float64 unit) scale)))%Z else v in
      if (2 ^ 63 <? v)%Z then None else Some (v, rest)
  end.

(** The sum of the parts; each takes a character at least, so that the length of the text is fuel enough. *)
Fixpoint duration_sum (fuel : nat) (d : Z) (s : string) : option Z :=
  match s with
  | EmptyString => Some d
  | _ =>
      match fuel with
      | 0 => None
      | S fuel' =>
          '(v, rest) ← duration_part s;
          if (2 ^ 63 <? d + v)%Z then None else duration_sum fuel' (d + v)%Z rest
      end
  end.

Definition unsigned_duration (s : string) : option Z :=
  if bool_decide (s = "0") then Some 0%Z else
  match s with EmptyString => None | _ => duration_sum (String.length s) 0 s end.

Definition ParseDuration (s : string) : error + Duration :=
  let invalid := inl (errorString "parse error") in
  let positive s := match unsigned_duration s with
                    | Some d => if (MaxInt64 <? d)%Z then invalid else inr d
                    | None => invalid
                    end in
  match s with
  | String c s' =>
      if bool_decide (c = char 45)
      then match unsigned_duration s' with Some d => inr (- d)%Z | None => invalid end
      else if bool_decide (c = char 43) then positive s' else positive s
  | EmptyString => invalid
  end.

(** ** [flag.FlagSet] *)

Inductive FlagValue := FString (value : string) | FInt (value : Z) | FDuration (value : Duration).

Definition FlagSet := gmap string FlagValue.

(** [Value.Set]. *)
Definition set_flag (old : FlagValue) (text : string) : error + FlagValue :=
  match old with
  | FString _ => inr (FString text)
  | FInt _ => match ParseInt0 text with inr z => inr (FInt z) | inl e => inl e end
  | FDuration _ => match ParseDuration text with inr d => inr (FDuration d) | inl e => inl e end
  end.

(** The name and the value around the first equality sign after the first character. *)
Fixpoint cut_equals (s : string) : string * option string :=
  match s with
  | EmptyString => (EmptyString, None)
  | String c s' =>
      if bool_decide (c = char 61) then (EmptyString, Some s')
      else let '(name, value) := cut_equals s' in (String c name, value)
  end.

Definition flag_name (s : string) : string * option string :=
  match s with
  | EmptyString => (EmptyString, None)
  | String c s' => let '(name, value) := cut_equals s' in (String c name, value)
  end.

(** What [parseOne] makes of an argument. *)
Inductive Arg := ArgStop | ArgTerminator | ArgBad | ArgFlag (name : string) (value : option string).

Definition read_arg (s : string) : Arg :=
  match s with
  | String d (String c s' as rest) =>
      if negb (bool_decide (d = char 45)) then ArgStop else
      let two := bool_decide (c = char 45) in
      if two && bool_decide (s' = EmptyString) then ArgTerminator else
      let name := if two then s' else rest in
      match name with
      | EmptyString => ArgBad
      | String c0 _ =>
          if bool_decide (c0 = char 45) || bool_decide (c0 = char 61) then ArgBad
          else let '(n, v) := flag_name name in ArgFlag n v
      end
  | _ => ArgStop
  end.

Section Parse.
Context `{E : GoEnv}.

Definition ErrHelp : error := errorString "flag: help requested".

(** [Parse]: the values of the flags and the remaining arguments. *)
Fixpoint Parse (flags : FlagSet) (args : list string) : error + (FlagSet * list string) :=
  match args with
  | [] => inr (flags, [])
  | s :: args' =>
      match read_arg s with
      | ArgStop => inr (flags, args)
      | ArgTerminator => inr (flags, args')
      | ArgBad => inl (fmt_Errorf "bad flag syntax: %s" [s])
      | ArgFlag name value =>
          match flags !! name with
          | None =>
              if bool_decide (name = "help") || bool_decide (name = "h") then inl ErrHelp
              else inl (fmt_Errorf "flag provided but not defined: -%s" [name])
          | Some old =>
              match value with
              | Some text =>
                  match set_flag old text with
                  | inr new => Parse (<[name := new]> flags) args'
                  | inl _ => inl (fmt_Errorf "invalid value %q for flag -%s" [text; name])
                  end
              | None =>
                  match args' with
                  | [] => inl (fmt_Errorf "flag needs an argument: -%s" [name])
                  | text :: args'' =>
                      match set_flag old text with
                      | inr new => Parse (<[name := new]> flags) args''
                      | inl _ => inl (fmt_Errorf "invalid value %q for flag -%s" [text; name])
                      end
                  end
              end
          end
      end
  end.
End Parse.

Definition string_flag (name : string) (flags : FlagSet) : string :=
  match flags !! name with Some (FString s) => s | _ => EmptyString end.
Definition int_flag (name : string) (flags : FlagSet) : Z :=
  match flags !! name with Some (FInt z) => z | _ => 0%Z end.
Definition duration_flag (name : string) (flags : FlagSet) : Duration :=
  match flags !! name with Some (FDuration d) => d | _ => 0%Z end.
