(* ===== verification/Model.v ===== *)
(** * The persistent data model (src/execution/model.go)

    Executions, pipeline runs, events, requests and filters, with the fields of the Go structs, and
    the life cycle of an execution as a transition system. *)

From S2P Require Import Prelude GoLib.

(** ** Field update

    [x <| field := v |>] is the struct [x] with one field assigned. *)
Class Settable {R T} (field : R → T) := set_field : T → R → R.
Arguments set_field {R T} field {_} _ _ /.

Notation "x <| field := v |>" := (set_field field v x)
  (at level 12, left associativity, format "x  <| field  :=  v |>") : ody_scope.

(** A [json.RawMessage] is a byte slice; [None] is the nil slice. *)
Abbreviation RawMessage := (option string).

Definition cloneJSON (value : RawMessage) : RawMessage :=
  match value with Some EmptyString => None | _ => value end.

(** ** Identities and states *)

Record TaskKey := mkTaskKey { k_Name : string; k_Version : Z }.

#[global] Instance TaskKey_eq_dec : EqDecision TaskKey.
Proof. solve_decision. Defined.
#[global] Instance TaskKey_countable : Countable TaskKey.
Proof.
  refine (inj_countable' (λ k, (k_Name k, k_Version k)) (λ p, mkTaskKey p.1 p.2) _).
  by intros [].
Defined.

Definition TaskKey_String (k : TaskKey) : string := k_Name k +:+ "@v" +:+ pretty (k_Version k).

(** [StatusZero] is the empty string, the zero value of the Go type. *)
Inductive Status :=
  | StatusZero
  | StatusPending | StatusBlocked | StatusRunning | StatusRetry
  | StatusSucceeded | StatusFailed | StatusCancelled.

Inductive RunStatus := RunPending | RunRunning | RunSucceeded | RunFailed | RunCancelled.

Inductive EventType :=
  | EventCreated | EventStarted | EventRetried | EventSucceeded
  | EventFailed | EventCancelled | EventRestarted.

#[global] Instance Status_eq_dec : EqDecision Status.
Proof. solve_decision. Defined.
#[global] Instance RunStatus_eq_dec : EqDecision RunStatus.
Proof. solve_decision. Defined.
#[global] Instance EventType_eq_dec : EqDecision EventType.
Proof. solve_decision. Defined.

(** The string constants behind the named states. *)
Definition Status_string (s : Status) : string :=
  match s with
  | StatusZero => EmptyString
  | StatusPending => "pending" | StatusBlocked => "blocked" | StatusRunning => "running"
  | StatusRetry => "retry" | StatusSucceeded => "succeeded" | StatusFailed => "failed"
  | StatusCancelled => "cancelled"
  end.

Definition RunStatus_string (s : RunStatus) : string :=
  match s with
  | RunPending => "pending" | RunRunning => "running" | RunSucceeded => "succeeded"
  | RunFailed => "failed" | RunCancelled => "cancelled"
  end.

#[global] Instance Status_string_inj : Inj (=) (=) Status_string.
Proof. by intros [] []. Qed.
#[global] Instance RunStatus_string_inj : Inj (=) (=) RunStatus_string.
Proof. by intros [] []. Qed.

(** ** Records *)

(** One durable invocation of a task definition. *)
Record Execution := mkExecution {
  e_ID : UUID;
  e_TaskName : string;
  e_TaskVersion : Z;
  e_Input : RawMessage;
  e_Output : RawMessage;
  e_Status : Status;
  e_Attempt : Z;
  e_MaxAttempts : Z;
  e_AvailableAt : Time;
  e_LeaseOwner : string;
  e_LeaseToken : UUID;
  e_LeaseUntil : Time;
  e_LastError : string;
  e_IdempotencyKey : string;
  e_PipelineRunID : option UUID;
  e_NodeKey : string;
  e_CreatedAt : Time;
  e_StartedAt : option Time;
  e_FinishedAt : option Time;
}.

#[global] Instance set_e_Input : Settable e_Input := λ v x,
  mkExecution (e_ID x) (e_TaskName x) (e_TaskVersion x) v (e_Output x) (e_Status x)
    (e_Attempt x) (e_MaxAttempts x) (e_AvailableAt x) (e_LeaseOwner x) (e_LeaseToken x)
    (e_LeaseUntil x) (e_LastError x) (e_IdempotencyKey x) (e_PipelineRunID x) (e_NodeKey x)
    (e_CreatedAt x) (e_StartedAt x) (e_FinishedAt x).
#[global] Instance set_e_Output : Settable e_Output := λ v x,
  mkExecution (e_ID x) (e_TaskName x) (e_TaskVersion x) (e_Input x) v (e_Status x) (e_Attempt x)
    (e_MaxAttempts x) (e_AvailableAt x) (e_LeaseOwner x) (e_LeaseToken x) (e_LeaseUntil x)
    (e_LastError x) (e_IdempotencyKey x) (e_PipelineRunID x) (e_NodeKey x) (e_CreatedAt x)
    (e_StartedAt x) (e_FinishedAt x).
#[global] Instance set_e_Status : Settable e_Status := λ v x,
  mkExecution (e_ID x) (e_TaskName x) (e_TaskVersion x) (e_Input x) (e_Output x) v (e_Attempt x)
    (e_MaxAttempts x) (e_AvailableAt x) (e_LeaseOwner x) (e_LeaseToken x) (e_LeaseUntil x)
    (e_LastError x) (e_IdempotencyKey x) (e_PipelineRunID x) (e_NodeKey x) (e_CreatedAt x)
    (e_StartedAt x) (e_FinishedAt x).
#[global] Instance set_e_Attempt : Settable e_Attempt := λ v x,
  mkExecution (e_ID x) (e_TaskName x) (e_TaskVersion x) (e_Input x) (e_Output x) (e_Status x) v
    (e_MaxAttempts x) (e_AvailableAt x) (e_LeaseOwner x) (e_LeaseToken x) (e_LeaseUntil x)
    (e_LastError x) (e_IdempotencyKey x) (e_PipelineRunID x) (e_NodeKey x) (e_CreatedAt x)
    (e_StartedAt x) (e_FinishedAt x).
#[global] Instance set_e_AvailableAt : Settable e_AvailableAt := λ v x,
  mkExecution (e_ID x) (e_TaskName x) (e_TaskVersion x) (e_Input x) (e_Output x) (e_Status x)
    (e_Attempt x) (e_MaxAttempts x) v (e_LeaseOwner x) (e_LeaseToken x) (e_LeaseUntil x)
    (e_LastError x) (e_IdempotencyKey x) (e_PipelineRunID x) (e_NodeKey x) (e_CreatedAt x)
    (e_StartedAt x) (e_FinishedAt x).
#[global] Instance set_e_LeaseOwner : Settable e_LeaseOwner := λ v x,
  mkExecution (e_ID x) (e_TaskName x) (e_TaskVersion x) (e_Input x) (e_Output x) (e_Status x)
    (e_Attempt x) (e_MaxAttempts x) (e_AvailableAt x) v (e_LeaseToken x) (e_LeaseUntil x)
    (e_LastError x) (e_IdempotencyKey x) (e_PipelineRunID x) (e_NodeKey x) (e_CreatedAt x)
    (e_StartedAt x) (e_FinishedAt x).
#[global] Instance set_e_LeaseToken : Settable e_LeaseToken := λ v x,
  mkExecution (e_ID x) (e_TaskName x) (e_TaskVersion x) (e_Input x) (e_Output x) (e_Status x)
    (e_Attempt x) (e_MaxAttempts x) (e_AvailableAt x) (e_LeaseOwner x) v (e_LeaseUntil x)
    (e_LastError x) (e_IdempotencyKey x) (e_PipelineRunID x) (e_NodeKey x) (e_CreatedAt x)
    (e_StartedAt x) (e_FinishedAt x).
#[global] Instance set_e_LeaseUntil : Settable e_LeaseUntil := λ v x,
  mkExecution (e_ID x) (e_TaskName x) (e_TaskVersion x) (e_Input x) (e_Output x) (e_Status x)
    (e_Attempt x) (e_MaxAttempts x) (e_AvailableAt x) (e_LeaseOwner x) (e_LeaseToken x) v
    (e_LastError x) (e_IdempotencyKey x) (e_PipelineRunID x) (e_NodeKey x) (e_CreatedAt x)
    (e_StartedAt x) (e_FinishedAt x).
#[global] Instance set_e_LastError : Settable e_LastError := λ v x,
  mkExecution (e_ID x) (e_TaskName x) (e_TaskVersion x) (e_Input x) (e_Output x) (e_Status x)
    (e_Attempt x) (e_MaxAttempts x) (e_AvailableAt x) (e_LeaseOwner x) (e_LeaseToken x)
    (e_LeaseUntil x) v (e_IdempotencyKey x) (e_PipelineRunID x) (e_NodeKey x) (e_CreatedAt x)
    (e_StartedAt x) (e_FinishedAt x).
#[global] Instance set_e_StartedAt : Settable e_StartedAt := λ v x,
  mkExecution (e_ID x) (e_TaskName x) (e_TaskVersion x) (e_Input x) (e_Output x) (e_Status x)
    (e_Attempt x) (e_MaxAttempts x) (e_AvailableAt x) (e_LeaseOwner x) (e_LeaseToken x)
    (e_LeaseUntil x) (e_LastError x) (e_IdempotencyKey x) (e_PipelineRunID x) (e_NodeKey x)
    (e_CreatedAt x) v (e_FinishedAt x).
#[global] Instance set_e_FinishedAt : Settable e_FinishedAt := λ v x,
  mkExecution (e_ID x) (e_TaskName x) (e_TaskVersion x) (e_Input x) (e_Output x) (e_Status x)
    (e_Attempt x) (e_MaxAttempts x) (e_AvailableAt x) (e_LeaseOwner x) (e_LeaseToken x)
    (e_LeaseUntil x) (e_LastError x) (e_IdempotencyKey x) (e_PipelineRunID x) (e_NodeKey x)
    (e_CreatedAt x) (e_StartedAt x) v.

(** [CreateExecution]: the request to create an execution. *)
Record CreateExecutionRequest := mkCreateExecution {
  c_TaskName : string;
  c_TaskVersion : Z;
  c_Input : RawMessage;
  c_MaxAttempts : Z;
  c_AvailableAt : Time;
  c_IdempotencyKey : string;
  c_PipelineRunID : option UUID;
  c_NodeKey : string;
}.

#[global] Instance set_c_MaxAttempts : Settable c_MaxAttempts := λ v x,
  mkCreateExecution (c_TaskName x) (c_TaskVersion x) (c_Input x) v (c_AvailableAt x)
    (c_IdempotencyKey x) (c_PipelineRunID x) (c_NodeKey x).
#[global] Instance set_c_AvailableAt : Settable c_AvailableAt := λ v x,
  mkCreateExecution (c_TaskName x) (c_TaskVersion x) (c_Input x) (c_MaxAttempts x) v
    (c_IdempotencyKey x) (c_PipelineRunID x) (c_NodeKey x).
#[global] Instance set_c_IdempotencyKey : Settable c_IdempotencyKey := λ v x,
  mkCreateExecution (c_TaskName x) (c_TaskVersion x) (c_Input x) (c_MaxAttempts x)
    (c_AvailableAt x) v (c_PipelineRunID x) (c_NodeKey x).

(** One durable pipeline invocation; [Revision] is a [uint64]. *)
Record PipelineRun := mkPipelineRun {
  r_ID : UUID;
  r_PipelineName : string;
  r_PipelineVersion : Z;
  r_Input : RawMessage;
  r_Status : RunStatus;
  r_Error : string;
  r_IdempotencyKey : string;
  r_Revision : Z;
  r_CreatedAt : Time;
  r_UpdatedAt : Time;
  r_FinishedAt : option Time;
}.

#[global] Instance set_r_Status : Settable r_Status := λ v x,
  mkPipelineRun (r_ID x) (r_PipelineName x) (r_PipelineVersion x) (r_Input x) v (r_Error x)
    (r_IdempotencyKey x) (r_Revision x) (r_CreatedAt x) (r_UpdatedAt x) (r_FinishedAt x).
#[global] Instance set_r_Error : Settable r_Error := λ v x,
  mkPipelineRun (r_ID x) (r_PipelineName x) (r_PipelineVersion x) (r_Input x) (r_Status x) v
    (r_IdempotencyKey x) (r_Revision x) (r_CreatedAt x) (r_UpdatedAt x) (r_FinishedAt x).
#[global] Instance set_r_Revision : Settable r_Revision := λ v x,
  mkPipelineRun (r_ID x) (r_PipelineName x) (r_PipelineVersion x) (r_Input x) (r_Status x)
    (r_Error x) (r_IdempotencyKey x) v (r_CreatedAt x) (r_UpdatedAt x) (r_FinishedAt x).
#[global] Instance set_r_UpdatedAt : Settable r_UpdatedAt := λ v x,
  mkPipelineRun (r_ID x) (r_PipelineName x) (r_PipelineVersion x) (r_Input x) (r_Status x)
    (r_Error x) (r_IdempotencyKey x) (r_Revision x) (r_CreatedAt x) v (r_FinishedAt x).
#[global] Instance set_r_FinishedAt : Settable r_FinishedAt := λ v x,
  mkPipelineRun (r_ID x) (r_PipelineName x) (r_PipelineVersion x) (r_Input x) (r_Status x)
    (r_Error x) (r_IdempotencyKey x) (r_Revision x) (r_CreatedAt x) (r_UpdatedAt x) v.

(** [CreatePipelineRun]: the request to create a run. *)
Record CreatePipelineRunRequest := mkCreatePipelineRun {
  cr_PipelineName : string;
  cr_PipelineVersion : Z;
  cr_Input : RawMessage;
  cr_IdempotencyKey : string;
}.

#[global] Instance set_cr_IdempotencyKey : Settable cr_IdempotencyKey := λ v x,
  mkCreatePipelineRun (cr_PipelineName x) (cr_PipelineVersion x) (cr_Input x) v.

(** A pipeline restart compiled from the registered graph. *)
Record RestartSubgraph := mkRestartSubgraph {
  rs_RunID : UUID;
  rs_RootNodeKey : string;
  rs_DescendantKeys : list string;
  rs_AvailableAt : Time;
}.

#[global] Instance set_rs_AvailableAt : Settable rs_AvailableAt := λ v x,
  mkRestartSubgraph (rs_RunID x) (rs_RootNodeKey x) (rs_DescendantKeys x) v.

(** An append-only transition record. *)
Record Event := mkEvent {
  ev_ID : UUID;
  ev_ExecutionID : UUID;
  ev_Type : EventType;
  ev_Attempt : Z;
  ev_Error : string;
  ev_CreatedAt : Time;
}.

(** The last item of a descending page. *)
Record Cursor := mkCursor {
  cu_CreatedAt : Time;
  cu_ID : UUID;
}.

(** Filters; a status of a filter is an arbitrary string, possibly empty. *)
Record ListFilter := mkListFilter {
  f_TaskName : string;
  f_Status : string;
  f_PipelineRunID : option UUID;
  f_Limit : Z;
  f_Before : option Cursor;
}.

(** [RunFilter]. *)
Record RunFilter := mkRunFilter {
  rf_Statuses : list string;
  rf_Limit : Z;
  rf_Before : option Cursor;
}.

(** Aggregates for monitoring. *)
Record ExecutionCount := mkExecutionCount {
  ec_TaskName : string;
  ec_Status : string;
  ec_Count : Z;
}.

(** [PipelineCount]. *)
Record PipelineCount := mkPipelineCount {
  pc_PipelineName : string;
  pc_Status : string;
  pc_Count : Z;
}.

(** [PurgeResult]. *)
Record PurgeResult := mkPurgeResult {
  pr_Executions : Z;
  pr_PipelineRuns : Z;
}.

#[global] Instance set_pr_Executions : Settable pr_Executions := λ v x,
  mkPurgeResult v (pr_PipelineRuns x).
#[global] Instance set_pr_PipelineRuns : Settable pr_PipelineRuns := λ v x,
  mkPurgeResult (pr_Executions x) v.

(** The zero value of the struct, which a missing map entry yields. *)
Definition zeroExecution : Execution :=
  mkExecution uuid_Nil EmptyString 0 None None StatusZero 0 0 0 EmptyString uuid_Nil 0
    EmptyString EmptyString None EmptyString 0 None None.

(** The disjunctions of states the code tests for. *)
Definition is_active (s : Status) : bool :=
  match s with StatusPending | StatusRetry | StatusRunning => true | _ => false end.

Definition is_terminal (s : Status) : bool :=
  match s with StatusSucceeded | StatusFailed | StatusCancelled => true | _ => false end.

Definition is_run_terminal (s : RunStatus) : bool :=
  match s with RunSucceeded | RunFailed | RunCancelled => true | _ => false end.

(** ** The life cycle of an execution

    The transitions that the events of an execution record.  A restart makes the root of the
    restarted subgraph pending and its descendants blocked; a release (blocked to pending) is not
    recorded. *)
Inductive transition : Status → EventType → Status → Prop :=
  | tr_started s : is_active s = true → transition s EventStarted StatusRunning
  | tr_retried : transition StatusRunning EventRetried StatusRetry
  | tr_succeeded : transition StatusRunning EventSucceeded StatusSucceeded
  | tr_failed : transition StatusRunning EventFailed StatusFailed
  | tr_cancelled s :
      is_active s = true ∨ s = StatusBlocked → transition s EventCancelled StatusCancelled
  | tr_restarted s s' :
      is_terminal s = true ∨ s = StatusBlocked → s' = StatusPending ∨ s' = StatusBlocked →
      transition s EventRestarted s'.

(** The number of deliveries an event accounts for, from the number before it. *)
Definition event_attempt (ev : EventType) (n : Z) : Z :=
  match ev with
  | EventStarted => (n + 1)%Z
  | EventCreated | EventRestarted => 0%Z
  | _ => n
  end.

(** [History evs s n]: the recorded events [evs] lead to status [s] with [n] deliveries since the
    creation or the last restart. *)
Inductive History : list EventType → Status → Z → Prop :=
  | history_created : History [EventCreated] StatusPending 0
  | history_event evs s n ev s' :
      History evs s n → transition s ev s' → History (evs ++ [ev]) s' (event_attempt ev n)
  | history_release evs n :
      History evs StatusBlocked n → History evs StatusPending n.

Lemma History_status evs s n : History evs s n → s ≠ StatusZero.
Proof. induction 1 as [|????? _ _ Htr|]; [done| |done]. destruct Htr; naive_solver. Qed.

Lemma History_nonneg evs s n : History evs s n → (0 ≤ n)%Z.
Proof. induction 1 as [|????? _ ? Htr|]; [done| |done]. destruct Htr; simpl; lia. Qed.

(** The deliveries counted in a history: the [EventStarted] records after the last restart. *)
Definition deliveries (evs : list EventType) : Z := foldl (λ n ev, event_attempt ev n) 0%Z evs.

Lemma History_deliveries evs s n : History evs s n → n = deliveries evs.
Proof.
  induction 1 as [|evs s n ev s' _ -> _|]; [done| |done].
  unfold deliveries. by rewrite foldl_app.
Qed.
