(* ===== verification/Memory.v ===== *)
(** * The in-memory store (src/execution/memory.go)

    The state of [MemoryStore] and every operation of it, under its mutex: an operation is one
    atomic step on the world, which pairs the store with the number of environment queries made. *)

From S2P Require Import Prelude GoLib Model.

Record MemoryStore := mkMemoryStore {
  m_executions : gmap UUID Execution;
  m_runs : gmap UUID PipelineRun;
  m_events : gmap UUID (list Event);
  m_idempotent : gmap string UUID;
  m_nodes : gmap string UUID;
  m_runIdempotent : gmap string UUID;
}.

#[global] Instance set_m_executions : Settable m_executions := λ v x,
  mkMemoryStore v (m_runs x) (m_events x) (m_idempotent x) (m_nodes x) (m_runIdempotent x).
#[global] Instance set_m_runs : Settable m_runs := λ v x,
  mkMemoryStore (m_executions x) v (m_events x) (m_idempotent x) (m_nodes x) (m_runIdempotent x).
#[global] Instance set_m_events : Settable m_events := λ v x,
  mkMemoryStore (m_executions x) (m_runs x) v (m_idempotent x) (m_nodes x) (m_runIdempotent x).
#[global] Instance set_m_idempotent : Settable m_idempotent := λ v x,
  mkMemoryStore (m_executions x) (m_runs x) (m_events x) v (m_nodes x) (m_runIdempotent x).
#[global] Instance set_m_nodes : Settable m_nodes := λ v x,
  mkMemoryStore (m_executions x) (m_runs x) (m_events x) (m_idempotent x) v (m_runIdempotent x).
#[global] Instance set_m_runIdempotent : Settable m_runIdempotent := λ v x,
  mkMemoryStore (m_executions x) (m_runs x) (m_events x) (m_idempotent x) (m_nodes x) v.

Record World := mkWorld { mem : MemoryStore; tick : nat }.

Definition NewMemoryStore : MemoryStore := mkMemoryStore ∅ ∅ ∅ ∅ ∅ ∅.
Definition initial_world : World := mkWorld NewMemoryStore 0.

Section Operations.
Context `{E : GoEnv}.

Abbreviation MW := (M World).

(** ** Environment queries and assignments *)

Definition now : MW Time := λ w, (inr (env_now (tick w)), mkWorld (mem w) (S (tick w))).
Definition uuid_New : MW UUID := λ w, (inr (env_uuid (tick w)), mkWorld (mem w) (S (tick w))).

(** The order in which a [for range] loop visits the entries of a map. *)
Definition range {A} (l : list A) : MW (list A) :=
  λ w, (inr (env_shuffle (tick w) A l), mkWorld (mem w) (S (tick w))).

Definition modify (f : MemoryStore → MemoryStore) : MW unit :=
  λ w, (inr tt, mkWorld (f (mem w)) (tick w)).

Definition put_execution (id : UUID) (item : Execution) : MW unit :=
  modify (λ s, s <| m_executions := <[id := item]> (m_executions s) |>).

Definition put_run (id : UUID) (run : PipelineRun) : MW unit :=
  modify (λ s, s <| m_runs := <[id := run]> (m_runs s) |>).

Definition cloneUUID (value : option UUID) : option UUID := value.

Definition cloneExecution (item : Execution) : Execution :=
  item <| e_Input := cloneJSON (e_Input item) |> <| e_Output := cloneJSON (e_Output item) |>.

Definition cloneRun (run : PipelineRun) : PipelineRun :=
  mkPipelineRun (r_ID run) (r_PipelineName run) (r_PipelineVersion run) (cloneJSON (r_Input run))
    (r_Status run) (r_Error run) (r_IdempotencyKey run) (r_Revision run) (r_CreatedAt run)
    (r_UpdatedAt run) (r_FinishedAt run).

Definition is_empty (s : string) : bool := bool_decide (s = EmptyString).

(** The keys of the uniqueness indexes. *)
Definition idempotent_key (name key : string) : string := name +:+ NUL +:+ key.
Definition node_key (runID : UUID) (node : string) : string := uuid_String runID +:+ NUL +:+ node.

Definition appendEvent (item : Execution) (eventType : EventType) (errorText : string) : MW unit :=
  id ← uuid_New;
  createdAt ← now;
  let event := mkEvent id (e_ID item) eventType (e_Attempt item) errorText createdAt in
  modify (λ s, s <| m_events := <[e_ID item := default [] (m_events s !! e_ID item) ++ [event]]>
                                  (m_events s) |>).

Definition clear_lease (item : Execution) : Execution :=
  item <| e_LeaseToken := uuid_Nil |> <| e_LeaseOwner := EmptyString |> <| e_LeaseUntil := 0%Z |>.

Definition owned (id token : UUID) : MW Execution :=
  s ← gets mem;
  match m_executions s !! id with
  | None => throw ErrNotFound
  | Some item =>
      if negb (bool_decide (e_Status item = StatusRunning)) || bool_decide (token = uuid_Nil)
         || negb (bool_decide (e_LeaseToken item = token))
      then throw ErrLeaseLost else mret item
  end.

(** ** Creation and reads *)

(** A duplicate idempotency key or pipeline node returns the stored execution. *)
Definition find_existing (s : MemoryStore) (request : CreateExecutionRequest) : option UUID :=
  match (if is_empty (c_IdempotencyKey request) then None
         else m_idempotent s !! idempotent_key (c_TaskName request) (c_IdempotencyKey request)) with
  | Some id => Some id
  | None =>
      match c_PipelineRunID request with
      | Some runID =>
          if is_empty (c_NodeKey request) then None
          else m_nodes s !! node_key runID (c_NodeKey request)
      | None => None
      end
  end.

Definition CreateExecution (request : CreateExecutionRequest) : MW Execution :=
  s ← gets mem;
  if is_empty (c_TaskName request) then throw (fmt_Errorf "task name is empty" []) else
  match find_existing s request with
  | Some id => mret (cloneExecution (default zeroExecution (m_executions s !! id)))
  | None =>
      t ← now;
      let availableAt := if IsZero (c_AvailableAt request) then t else c_AvailableAt request in
      let maxAttempts := if (c_MaxAttempts request <=? 0)%Z then 1%Z else c_MaxAttempts request in
      id ← uuid_New;
      let item := mkExecution id (c_TaskName request) (c_TaskVersion request)
        (cloneJSON (c_Input request)) None StatusPending 0 maxAttempts availableAt
        EmptyString uuid_Nil 0 EmptyString (c_IdempotencyKey request)
        (cloneUUID (c_PipelineRunID request)) (c_NodeKey request) t None None in
      _ ← put_execution id item;
      _ ← when (negb (is_empty (c_IdempotencyKey request)))
            (modify (λ s, s <| m_idempotent :=
               <[idempotent_key (c_TaskName request) (c_IdempotencyKey request) := id]>
                 (m_idempotent s) |>));
      _ ← match c_PipelineRunID request with
          | Some runID =>
              when (negb (is_empty (c_NodeKey request)))
                (modify (λ s, s <| m_nodes :=
                   <[node_key runID (c_NodeKey request) := id]> (m_nodes s) |>))
          | None => mret tt
          end;
      _ ← appendEvent item EventCreated EmptyString;
      mret (cloneExecution item)
  end.

Definition GetExecution (id : UUID) : MW Execution :=
  s ← gets mem;
  match m_executions s !! id with
  | None => throw ErrNotFound
  | Some item => mret (cloneExecution item)
  end.

(** Descending order of creation; the printed identifier breaks ties. *)
Definition newer (leftTime : Time) (leftID : UUID) (rightTime : Time) (rightID : UUID) : bool :=
  if Equal leftTime rightTime then str_lt (uuid_String rightID) (uuid_String leftID)
  else After leftTime rightTime.

Definition beforeCursor (createdAt : Time) (id : UUID) (cursor : Cursor) : bool :=
  Before createdAt (cu_CreatedAt cursor)
  || (Equal createdAt (cu_CreatedAt cursor)
      && str_lt (uuid_String id) (uuid_String (cu_ID cursor))).

Definition in_page (createdAt : Time) (id : UUID) (before : option Cursor) : bool :=
  match before with None => true | Some cursor => beforeCursor createdAt id cursor end.

(** [items[:limit]] when the limit is positive and exceeded. *)
Definition limit_slice {A} (limit : Z) (items : list A) : list A :=
  if (0 <? limit)%Z && (limit <? Z.of_nat (length items))%Z
  then take (Z.to_nat limit) items else items.

Definition matches_filter (filter : ListFilter) (item : Execution) : bool :=
  (is_empty (f_TaskName filter) || bool_decide (e_TaskName item = f_TaskName filter))
  && (is_empty (f_Status filter) || bool_decide (Status_string (e_Status item) = f_Status filter))
  && match f_PipelineRunID filter with
     | None => true
     | Some runID => bool_decide (e_PipelineRunID item = Some runID)
     end
  && in_page (e_CreatedAt item) (e_ID item) (f_Before filter).

Definition newer_execution (a b : Execution) : bool :=
  newer (e_CreatedAt a) (e_ID a) (e_CreatedAt b) (e_ID b).

Definition ListExecutions (filter : ListFilter) : MW (list Execution) :=
  s ← gets mem;
  entries ← range (map_to_list (m_executions s));
  let items := cloneExecution <$> List.filter (matches_filter filter) (entries.*2) in
  mret (limit_slice (f_Limit filter) (sort_Slice newer_execution items)).

Definition of_run (runID : UUID) (item : Execution) : bool :=
  bool_decide (e_PipelineRunID item = Some runID).

Definition ListRunExecutions (runID : UUID) : MW (list Execution) :=
  s ← gets mem;
  entries ← range (map_to_list (m_executions s));
  let items := cloneExecution <$> List.filter (of_run runID) (entries.*2) in
  mret (sort_Slice (λ a b, Before (e_CreatedAt a) (e_CreatedAt b)) items).

Definition Events (id : UUID) : MW (list Event) :=
  s ← gets mem;
  match m_executions s !! id with
  | None => throw ErrNotFound
  | Some _ => mret (default [] (m_events s !! id))
  end.

(** ** Delivery *)

Definition claimable (keys : list TaskKey) (now : Time) (item : Execution) : bool :=
  bool_decide (mkTaskKey (e_TaskName item) (e_TaskVersion item) ∈ keys)
  && negb (After (e_AvailableAt item) now)
  && match e_Status item with
     | StatusPending | StatusRetry => true
     | StatusRunning => negb (After (e_LeaseUntil item) now)
     | _ => false
     end
  && negb (e_MaxAttempts item <=? e_Attempt item)%Z.

Definition claim_less (a b : Execution) : bool :=
  if Equal (e_AvailableAt a) (e_AvailableAt b) then Before (e_CreatedAt a) (e_CreatedAt b)
  else Before (e_AvailableAt a) (e_AvailableAt b).

(** The assignments to a claimed candidate. *)
Definition claimed_execution (owner : string) (lease : Duration) (t : Time) (token : UUID)
    (candidate : Execution) : Execution :=
  candidate
    <| e_Status := StatusRunning |>
    <| e_Attempt := int64 (e_Attempt candidate + 1) |>
    <| e_LeaseOwner := owner |>
    <| e_LeaseToken := token |>
    <| e_LeaseUntil := Add t lease |>
    <| e_StartedAt := match e_StartedAt candidate with None => Some t | started => started end |>.

Definition claim_candidate (owner : string) (lease : Duration) (t : Time) (candidate : Execution)
    : MW Execution :=
  token ← uuid_New;
  let candidate := claimed_execution owner lease t token candidate in
  _ ← put_execution (e_ID candidate) candidate;
  _ ← appendEvent candidate EventStarted EmptyString;
  mret (cloneExecution candidate).

Definition Claim (owner : string) (keys : list TaskKey) (limit : Z) (lease : Duration)
    : MW (list Execution) :=
  s ← gets mem;
  let limit := if (limit <=? 0)%Z then 1%Z else limit in
  t ← now;
  entries ← range (map_to_list (m_executions s));
  let candidates := sort_Slice claim_less (List.filter (claimable keys t) (entries.*2)) in
  mapM (claim_candidate owner lease t) (limit_slice limit candidates).

Definition lease_expired_text : string := "lease expired after maximum attempts".

Definition expired (t : Time) (item : Execution) : bool :=
  bool_decide (e_Status item = StatusRunning) && negb (After (e_LeaseUntil item) t)
  && negb (e_Attempt item <? e_MaxAttempts item)%Z.

(** The assignments to a reaped execution. *)
Definition reaped_execution (t : Time) (item : Execution) : Execution :=
  clear_lease (item <| e_Status := StatusFailed |> <| e_LastError := lease_expired_text |>
    <| e_FinishedAt := Some t |>).

Definition reap_entry (t : Time) (entry : UUID * Execution) : MW unit :=
  let '(id, item) := entry in
  when (expired t item)
    (let item := reaped_execution t item in
     _ ← put_execution id item;
     appendEvent item EventFailed (e_LastError item)).

(** The affected pipeline runs, each once, in an arbitrary order. *)
Definition ReapExpired : MW (list UUID) :=
  s ← gets mem;
  t ← now;
  entries ← range (map_to_list (m_executions s));
  _ ← forM_ entries (reap_entry t);
  range (elements (list_to_set (C := gset UUID)
    (omap e_PipelineRunID (List.filter (expired t) (entries.*2))))).

Definition Heartbeat (id token : UUID) (lease : Duration) : MW unit :=
  item ← owned id token;
  t ← now;
  put_execution id (item <| e_LeaseUntil := Add t lease |>).

Definition Succeed (id token : UUID) (output : RawMessage) : MW unit :=
  item ← owned id token;
  t ← now;
  let item := clear_lease (item <| e_Status := StatusSucceeded |>
    <| e_Output := cloneJSON output |> <| e_FinishedAt := Some t |>) in
  _ ← put_execution id item;
  appendEvent item EventSucceeded EmptyString.

Definition Retry (id token : UUID) (errorText : string) (delay : Duration) : MW unit :=
  item ← owned id token;
  let item := clear_lease (item <| e_LastError := errorText |>) in
  if (e_MaxAttempts item <=? e_Attempt item)%Z then
    t ← now;
    let item := item <| e_Status := StatusFailed |> <| e_FinishedAt := Some t |> in
    _ ← put_execution id item;
    appendEvent item EventFailed errorText
  else
    t ← now;
    let item := item <| e_Status := StatusRetry |> <| e_AvailableAt := Add t delay |> in
    _ ← put_execution id item;
    appendEvent item EventRetried errorText.

Definition Fail (id token : UUID) (errorText : string) : MW unit :=
  item ← owned id token;
  t ← now;
  let item := clear_lease (item <| e_Status := StatusFailed |> <| e_LastError := errorText |>
    <| e_FinishedAt := Some t |>) in
  _ ← put_execution id item;
  appendEvent item EventFailed errorText.

(** ** Operator actions *)

Definition CancelExecution (id : UUID) (reason : string) : MW unit :=
  s ← gets mem;
  match m_executions s !! id with
  | None => throw ErrNotFound
  | Some item =>
      if is_terminal (e_Status item) then throw ErrNotFound else
      t ← now;
      let item := clear_lease (item <| e_Status := StatusCancelled |> <| e_LastError := reason |>
        <| e_FinishedAt := Some t |>) in
      _ ← put_execution id item;
      appendEvent item EventCancelled reason
  end.

(** The fields a restart assigns. *)
Definition reset_item (status : Status) (availableAt : Time) (item : Execution) : Execution :=
  clear_lease (item <| e_Status := status |> <| e_Attempt := 0%Z |>
    <| e_AvailableAt := availableAt |> <| e_Output := None |> <| e_LastError := EmptyString |>
    <| e_StartedAt := None |> <| e_FinishedAt := None |>).

Definition RestartExecution (id : UUID) (availableAt : Time) : MW Execution :=
  s ← gets mem;
  match m_executions s !! id with
  | None => throw ErrNotFound
  | Some item =>
      match e_PipelineRunID item with
      | Some _ => throw ErrPipelineExecution
      | None =>
          if is_active (e_Status item) then throw ErrActive else
          availableAt ← (if IsZero availableAt then now else mret availableAt);
          let item := reset_item StatusPending availableAt item in
          _ ← put_execution id item;
          _ ← appendEvent item EventRestarted EmptyString;
          mret (cloneExecution item)
      end
  end.

Definition in_subgraph (request : RestartSubgraph) (item : Execution) : bool :=
  of_run (rs_RunID request) item
  && (bool_decide (e_NodeKey item = rs_RootNodeKey request)
      || bool_decide (e_NodeKey item ∈ rs_DescendantKeys request)).

Definition is_root (request : RestartSubgraph) (item : Execution) : bool :=
  of_run (rs_RunID request) item && bool_decide (e_NodeKey item = rs_RootNodeKey request).

(** The second loop of [RestartPipelineSubgraph]; [root] is the result variable. *)
Fixpoint restart_entries (request : RestartSubgraph) (availableAt : Time) (root : Execution)
    (entries : list (UUID * Execution)) : MW Execution :=
  match entries with
  | [] => mret root
  | (id, item) :: entries' =>
      if in_subgraph request item then
        let status := if bool_decide (e_NodeKey item = rs_RootNodeKey request)
                      then StatusPending else StatusBlocked in
        let item := reset_item status availableAt item in
        _ ← put_execution id item;
        _ ← appendEvent item EventRestarted EmptyString;
        restart_entries request availableAt
          (if bool_decide (id = e_ID root) then item else root) entries'
      else restart_entries request availableAt root entries'
  end.

Definition RestartPipelineSubgraph (request : RestartSubgraph) : MW Execution :=
  s ← gets mem;
  match m_runs s !! rs_RunID request with
  | None => throw ErrNotFound
  | Some run =>
      entries ← range (map_to_list (m_executions s));
      if existsb (λ item, in_subgraph request item && is_active (e_Status item)) (entries.*2)
      then throw ErrActive else
      match last (List.filter (is_root request) (entries.*2)) with
      | None => throw ErrNotFound
      | Some root =>
          t ← now;
          let availableAt :=
            if IsZero (rs_AvailableAt request) then t else rs_AvailableAt request in
          entries ← range (map_to_list (m_executions s));
          root ← restart_entries request availableAt root entries;
          let run := run <| r_Status := RunRunning |> <| r_Error := EmptyString |>
            <| r_FinishedAt := None |> <| r_UpdatedAt := t |>
            <| r_Revision := uint64 (r_Revision run + 1) |> in
          _ ← put_run (r_ID run) run;
          mret (cloneExecution root)
      end
  end.

Definition ReleaseExecution (id : UUID) (input : RawMessage) (availableAt : Time) : MW unit :=
  s ← gets mem;
  match m_executions s !! id with
  | None => throw ErrNotFound
  | Some item =>
      if negb (bool_decide (e_Status item = StatusBlocked)) then throw ErrActive else
      availableAt ← (if IsZero availableAt then now else mret availableAt);
      put_execution id (item <| e_Status := StatusPending |> <| e_Input := cloneJSON input |>
        <| e_AvailableAt := availableAt |>)
  end.

(** ** Pipeline runs *)

Definition CreatePipelineRun (request : CreatePipelineRunRequest) : MW PipelineRun :=
  s ← gets mem;
  let key := idempotent_key (cr_PipelineName request) (cr_IdempotencyKey request) in
  match (if is_empty (cr_IdempotencyKey request) then None else m_runIdempotent s !! key) with
  | Some id => mret (cloneRun (default (mkPipelineRun uuid_Nil EmptyString 0 None RunPending
                 EmptyString EmptyString 0 0 0 None) (m_runs s !! id)))
  | None =>
      t ← now;
      id ← uuid_New;
      let run := mkPipelineRun id (cr_PipelineName request) (cr_PipelineVersion request)
        (cloneJSON (cr_Input request)) RunPending EmptyString (cr_IdempotencyKey request)
        0 t t None in
      _ ← put_run id run;
      _ ← when (negb (is_empty (cr_IdempotencyKey request)))
            (modify (λ s, s <| m_runIdempotent := <[key := id]> (m_runIdempotent s) |>));
      mret (cloneRun run)
  end.

Definition GetPipelineRun (id : UUID) : MW PipelineRun :=
  s ← gets mem;
  match m_runs s !! id with
  | None => throw ErrNotFound
  | Some run => mret (cloneRun run)
  end.

Definition matches_run_filter (filter : RunFilter) (run : PipelineRun) : bool :=
  (bool_decide (rf_Statuses filter = [])
   || bool_decide (RunStatus_string (r_Status run) ∈ rf_Statuses filter))
  && in_page (r_CreatedAt run) (r_ID run) (rf_Before filter).

Definition newer_run (a b : PipelineRun) : bool :=
  newer (r_CreatedAt a) (r_ID a) (r_CreatedAt b) (r_ID b).

Definition ListPipelineRuns (filter : RunFilter) : MW (list PipelineRun) :=
  s ← gets mem;
  entries ← range (map_to_list (m_runs s));
  let items := cloneRun <$> List.filter (matches_run_filter filter) (entries.*2) in
  mret (limit_slice (rf_Limit filter) (sort_Slice newer_run items)).

Definition SetPipelineRunStatus (id : UUID) (expectedRevision : Z) (status : RunStatus)
    (errorText : string) : MW unit :=
  s ← gets mem;
  match m_runs s !! id with
  | None => throw ErrNotFound
  | Some run =>
      if negb (r_Revision run =? expectedRevision)%Z then throw ErrConflict else
      t ← now;
      let run := run <| r_Status := status |> <| r_Error := errorText |> <| r_UpdatedAt := t |>
        <| r_Revision := uint64 (r_Revision run + 1) |> in
      let run := if is_run_terminal status then run <| r_FinishedAt := Some t |> else run in
      put_run id run
  end.

(** ** Statistics *)

Definition count_keys (keys : list (string * string)) : gmap (string * string) Z :=
  foldr (λ k counts, <[k := (default 0 (counts !! k) + 1)%Z]> counts) ∅ keys.

Definition pair_less (a b : string * string) : bool :=
  if bool_decide (a.1 = b.1) then str_lt a.2 b.2 else str_lt a.1 b.1.

Definition ExecutionCounts : MW (list ExecutionCount) :=
  s ← gets mem;
  entries ← range (map_to_list (m_executions s));
  let counts := count_keys ((λ item, (e_TaskName item, Status_string (e_Status item)))
                              <$> entries.*2) in
  entries ← range (map_to_list counts);
  let result := (λ '(key, count), mkExecutionCount key.1 key.2 count) <$> entries in
  mret (sort_Slice (λ a b, pair_less (ec_TaskName a, ec_Status a) (ec_TaskName b, ec_Status b))
          result).

Definition PipelineCounts : MW (list PipelineCount) :=
  s ← gets mem;
  entries ← range (map_to_list (m_runs s));
  let counts := count_keys ((λ run, (r_PipelineName run, RunStatus_string (r_Status run)))
                              <$> entries.*2) in
  entries ← range (map_to_list counts);
  let result := (λ '(key, count), mkPipelineCount key.1 key.2 count) <$> entries in
  mret (sort_Slice (λ a b, pair_less (pc_PipelineName a, pc_Status a)
                             (pc_PipelineName b, pc_Status b)) result).

(** ** Purge *)

Record candidate := mkCandidate { p_id : UUID; p_finished : Time; p_pipeline : bool }.

Definition finished_before (finished : option Time) (before : Time) : option Time :=
  match finished with
  | Some t => if Before t before then Some t else None
  | None => None
  end.

Definition deleteExecution (id : UUID) (item : Execution) (s : MemoryStore) : MemoryStore :=
  let s := s <| m_executions := delete id (m_executions s) |>
             <| m_events := delete id (m_events s) |> in
  let s := if is_empty (e_IdempotencyKey item) then s
           else s <| m_idempotent :=
                  delete (idempotent_key (e_TaskName item) (e_IdempotencyKey item))
                    (m_idempotent s) |> in
  match e_PipelineRunID item with
  | Some runID => s <| m_nodes := delete (node_key runID (e_NodeKey item)) (m_nodes s) |>
  | None => s
  end.

(** The loop that deletes the nodes of a purged run; a deleted entry was already visited. *)
Fixpoint delete_entries (runID : UUID) (entries : list (UUID * Execution)) (result : PurgeResult)
    : MW PurgeResult :=
  match entries with
  | [] => mret result
  | (id, item) :: entries' =>
      if of_run runID item then
        _ ← modify (deleteExecution id item);
        delete_entries runID entries' (result <| pr_Executions := (pr_Executions result + 1)%Z |>)
      else delete_entries runID entries' result
  end.

Definition purge_candidate (result : PurgeResult) (c : candidate) : MW PurgeResult :=
  s ← gets mem;
  if p_pipeline c then
    let run := default (mkPipelineRun uuid_Nil EmptyString 0 None RunPending EmptyString
                 EmptyString 0 0 0 None) (m_runs s !! p_id c) in
    entries ← range (map_to_list (m_executions s));
    result ← delete_entries (p_id c) entries result;
    _ ← modify (λ s, s <| m_runs := delete (p_id c) (m_runs s) |>);
    _ ← when (negb (is_empty (r_IdempotencyKey run)))
          (modify (λ s, s <| m_runIdempotent :=
             delete (idempotent_key (r_PipelineName run) (r_IdempotencyKey run))
               (m_runIdempotent s) |>));
    mret (result <| pr_PipelineRuns := (pr_PipelineRuns result + 1)%Z |>)
  else
    let item := default zeroExecution (m_executions s !! p_id c) in
    _ ← modify (deleteExecution (p_id c) item);
    mret (result <| pr_Executions := (pr_Executions result + 1)%Z |>).

Fixpoint purge_candidates (result : PurgeResult) (l : list candidate) : MW PurgeResult :=
  match l with
  | [] => mret result
  | c :: l' => result ← purge_candidate result c; purge_candidates result l'
  end.

Definition run_candidate (before : Time) (entry : UUID * PipelineRun) : option candidate :=
  t ← finished_before (r_FinishedAt entry.2) before; Some (mkCandidate entry.1 t true).

Definition execution_candidate (before : Time) (entry : UUID * Execution) : option candidate :=
  match e_PipelineRunID entry.2 with
  | Some _ => None
  | None => t ← finished_before (e_FinishedAt entry.2) before; Some (mkCandidate entry.1 t false)
  end.

Definition Purge (before : Time) (limit : Z) : MW PurgeResult :=
  s ← gets mem;
  let limit := if (limit <=? 0)%Z then 1000%Z else limit in
  runs ← range (map_to_list (m_runs s));
  items ← range (map_to_list (m_executions s));
  (* the sort is not stable: a run and a standalone execution may tie in any order *)
  candidates ← range (omap (run_candidate before) runs ++ omap (execution_candidate before) items);
  let candidates := limit_slice limit
    (sort_Slice (λ a b, Before (p_finished a) (p_finished b)) candidates) in
  purge_candidates (mkPurgeResult 0 0) candidates.

End Operations.
