(* ===== verification/MemoryInv.v ===== *)
(** * The invariant of the in-memory store

    What every reachable state of [MemoryStore] satisfies: well-formed executions, exact uniqueness
    indexes, an event log that replays to the stored state, identifiers drawn from the past.  Every
    operation preserves it. *)

From S2P Require Import Prelude GoLib Model Memory.

Section Invariant.
Context `{E : GoEnv}.

(** A stored execution, when [n] environment queries have been made. *)
Record ExecOk (n : nat) (e : Execution) : Prop := {
  ok_name : e_TaskName e ≠ EmptyString;
  ok_max : (1 ≤ e_MaxAttempts e ≤ MaxInt64)%Z;
  ok_attempt : (0 ≤ e_Attempt e ≤ e_MaxAttempts e)%Z;
  ok_fresh_attempt : e_Status e = StatusPending ∨ e_Status e = StatusBlocked → e_Attempt e = 0%Z;
  ok_token : e_Status e = StatusRunning ↔ e_LeaseToken e ≠ uuid_Nil;
  ok_token_past : e_LeaseToken e ≠ uuid_Nil → ∃ k, k < n ∧ e_LeaseToken e = env_uuid k;
  ok_lease : e_Status e ≠ StatusRunning → e_LeaseOwner e = EmptyString ∧ e_LeaseUntil e = 0%Z;
  ok_started : e_Status e = StatusRunning → is_Some (e_StartedAt e) ∧ (1 ≤ e_Attempt e)%Z;
  ok_finished : is_terminal (e_Status e) = true ↔ is_Some (e_FinishedAt e);
  ok_blocked : e_Status e = StatusBlocked → is_Some (e_PipelineRunID e);
  ok_output : e_Output e ≠ None → e_Status e = StatusSucceeded;
  ok_retry : e_Status e = StatusRetry → (e_Attempt e < e_MaxAttempts e)%Z;
}.

Record RunOk (r : PipelineRun) : Prop := {
  rok_revision : (0 ≤ r_Revision r < 2 ^ 64)%Z;
  rok_finished : is_run_terminal (r_Status r) = true → is_Some (r_FinishedAt r);
}.

Definition idem_entry (s : MemoryStore) (k : string) (id : UUID) : Prop :=
  ∃ e, m_executions s !! id = Some e ∧ e_IdempotencyKey e ≠ EmptyString ∧
    k = idempotent_key (e_TaskName e) (e_IdempotencyKey e).

Definition node_entry (s : MemoryStore) (k : string) (id : UUID) : Prop :=
  ∃ e r, m_executions s !! id = Some e ∧ e_PipelineRunID e = Some r ∧
    e_NodeKey e ≠ EmptyString ∧ k = node_key r (e_NodeKey e).

Definition run_entry (s : MemoryStore) (k : string) (id : UUID) : Prop :=
  ∃ r, m_runs s !! id = Some r ∧ r_IdempotencyKey r ≠ EmptyString ∧
    k = idempotent_key (r_PipelineName r) (r_IdempotencyKey r).

Definition log_ok (s : MemoryStore) (id : UUID) (e : Execution) : Prop :=
  ∃ evs, m_events s !! id = Some evs ∧
    History (ev_Type <$> evs) (e_Status e) (e_Attempt e) ∧
    Forall (λ ev, ev_ExecutionID ev = id) evs.

Record Inv (w : World) : Prop := {
  inv_exec : ∀ id e, m_executions (mem w) !! id = Some e → e_ID e = id ∧ ExecOk (tick w) e;
  inv_idem : ∀ k id, m_idempotent (mem w) !! k = Some id ↔ idem_entry (mem w) k id;
  inv_node : ∀ k id, m_nodes (mem w) !! k = Some id ↔ node_entry (mem w) k id;
  inv_log : ∀ id e, m_executions (mem w) !! id = Some e → log_ok (mem w) id e;
  inv_no_log : ∀ id, m_executions (mem w) !! id = None → m_events (mem w) !! id = None;
  inv_run : ∀ id r, m_runs (mem w) !! id = Some r → r_ID r = id ∧ RunOk r;
  inv_run_idem : ∀ k id, m_runIdempotent (mem w) !! k = Some id ↔ run_entry (mem w) k id;
  inv_past : ∀ id, is_Some (m_executions (mem w) !! id) ∨ is_Some (m_runs (mem w) !! id) →
    ∃ k, k < tick w ∧ id = env_uuid k;
}.

(** The fields an execution keeps from its creation on. *)
Definition same_identity (e e' : Execution) : Prop :=
  e_ID e' = e_ID e ∧ e_TaskName e' = e_TaskName e ∧ e_TaskVersion e' = e_TaskVersion e ∧
  e_IdempotencyKey e' = e_IdempotencyKey e ∧ e_PipelineRunID e' = e_PipelineRunID e ∧
  e_NodeKey e' = e_NodeKey e ∧ e_CreatedAt e' = e_CreatedAt e ∧
  e_MaxAttempts e' = e_MaxAttempts e.

(** ** Structural lemmas *)

Lemma same_identity_refl e : same_identity e e.
Proof. by repeat split. Qed.

Lemma same_identity_trans e1 e2 e3 : same_identity e1 e2 → same_identity e2 e3 → same_identity e1 e3.
Proof. unfold same_identity. intuition congruence. Qed.

Lemma ExecOk_mono n n' e : n ≤ n' → ExecOk n e → ExecOk n' e.
Proof.
  intros Hn [????? Hp]. split; try done.
  intros (k & ? & ?)%Hp. exists k. split; [lia|done].
Qed.

Lemma Inv_tick s n n' : n ≤ n' → Inv (mkWorld s n) → Inv (mkWorld s n').
Proof.
  intros Hn []; split; simpl in *; try done.
  - intros id e He. destruct (inv_exec0 id e He). split; [done|by eapply ExecOk_mono].
  - intros id Hid. destruct (inv_past0 id Hid) as (k & ? & ?). exists k. split; [lia|done].
Qed.

Lemma Inv_initial : Inv initial_world.
Proof.
  split; simpl; try (intros ??; rewrite lookup_empty; done).
  - intros k id. rewrite lookup_empty. split; [done|]. by intros (? & ? & _).
  - intros k id. rewrite lookup_empty. split; [done|]. by intros (? & ? & ? & _).
  - intros k id. rewrite lookup_empty. split; [done|]. by intros (? & ? & _).
  - intros id. rewrite !lookup_empty. by intros [[? ?]|[? ?]].
Qed.

(** The store after one execution is replaced and its event log replaced. *)
Definition with_execution (s : MemoryStore) (id : UUID) (e : Execution) (evs : list Event)
    : MemoryStore :=
  s <| m_executions := <[id := e]> (m_executions s) |> <| m_events := <[id := evs]> (m_events s) |>.

Lemma idem_entry_update s id e e' evs k id' :
  m_executions s !! id = Some e → same_identity e e' →
  idem_entry (with_execution s id e' evs) k id' ↔ idem_entry s k id'.
Proof.
  intros He (_ & Hn & _ & Hk & _). unfold idem_entry, with_execution; simpl.
  destruct (decide (id = id')) as [<-|?]; [|by rewrite lookup_insert_ne].
  rewrite lookup_insert_eq, He. split; intros (? & [= <-] & ?); eexists; (split; [done|]).
  - by rewrite <-Hn, <-Hk.
  - by rewrite Hn, Hk.
Qed.

Lemma node_entry_update s id e e' evs k id' :
  m_executions s !! id = Some e → same_identity e e' →
  node_entry (with_execution s id e' evs) k id' ↔ node_entry s k id'.
Proof.
  intros He (_ & _ & _ & _ & Hr & Hn & _). unfold node_entry, with_execution; simpl.
  destruct (decide (id = id')) as [<-|?]; [|by rewrite lookup_insert_ne].
  rewrite lookup_insert_eq, He. split; intros (? & r & [= <-] & ?); eexists _, r; (split; [done|]).
  - by rewrite <-Hr, <-Hn.
  - by rewrite Hr, Hn.
Qed.

(** Replacing a stored execution by one with the same identity, with its log. *)
Lemma Inv_with_execution w n id e e' evs :
  Inv w → tick w ≤ n → m_executions (mem w) !! id = Some e → same_identity e e' → ExecOk n e' →
  History (ev_Type <$> evs) (e_Status e') (e_Attempt e') →
  Forall (λ ev, ev_ExecutionID ev = id) evs →
  Inv (mkWorld (with_execution (mem w) id e' evs) n).
Proof.
  intros Hw Hn He Hsame Hok Hh Hall.
  assert (Inv (mkWorld (mem w) n)) as [].
  { destruct w as [s m]. by apply (Inv_tick s m). }
  simpl in *. split; simpl.
  - intros id' e''. destruct (decide (id = id')) as [<-|?].
    + rewrite lookup_insert_eq. intros [= <-]. split; [|done].
      destruct Hsame as [-> _]. by apply inv_exec0.
    + rewrite lookup_insert_ne by done. apply inv_exec0.
  - intros k id'. by rewrite (idem_entry_update _ _ e) by done.
  - intros k id'. by rewrite (node_entry_update _ _ e) by done.
  - intros id' e''. destruct (decide (id = id')) as [<-|?].
    + rewrite lookup_insert_eq. intros [= <-]. exists evs. simpl.
      by rewrite lookup_insert_eq.
    + rewrite lookup_insert_ne by done. intros He''.
      destruct (inv_log0 _ _ He'') as (evs' & ? & ? & ?). exists evs'. simpl.
      by rewrite lookup_insert_ne.
  - intros id'. destruct (decide (id = id')) as [<-|?]; [by rewrite lookup_insert_eq|].
    rewrite !lookup_insert_ne by done. apply inv_no_log0.
  - done.
  - done.
  - intros id' [Hid|Hid]; apply inv_past0; [|by right]. left.
    destruct (decide (id = id')) as [<-|?]; [by rewrite He|].
    by rewrite lookup_insert_ne in Hid.
Qed.

(** ** Primitive steps *)

Lemma wp_now Q w : Q (inr (env_now (tick w))) (mkWorld (mem w) (S (tick w))) → wp now Q w.
Proof. done. Qed.
Lemma wp_uuid_New Q w :
  Q (inr (env_uuid (tick w))) (mkWorld (mem w) (S (tick w))) → wp uuid_New Q w.
Proof. done. Qed.
Lemma wp_range {A} (l : list A) Q w :
  Q (inr (env_shuffle (tick w) A l)) (mkWorld (mem w) (S (tick w))) → wp (range l) Q w.
Proof. done. Qed.
Lemma wp_modify f Q w : Q (inr tt) (mkWorld (f (mem w)) (tick w)) → wp (modify f) Q w.
Proof. done. Qed.
Lemma wp_now_or (b : bool) (t : Time) (Q : error + Time → World → Prop) w :
  (∀ t' n, tick w ≤ n → Q (inr t') (mkWorld (mem w) n)) →
  wp (if b then now else mret t : M World Time) Q w.
Proof.
  intros H. destruct b; [apply wp_now|apply wp_ret].
  - apply H. lia.
  - destruct w. by apply H.
Qed.

(** The world after an execution is stored and an event appended to its log. *)
Definition logged (w : World) (id : UUID) (e : Execution) (ev : EventType) (text : string)
    : World :=
  mkWorld (with_execution (mem w) id e (default [] (m_events (mem w) !! id) ++
    [mkEvent (env_uuid (tick w)) id ev (e_Attempt e) text (env_now (S (tick w)))]))
    (S (S (tick w))).

Lemma put_append_run w id e ev text :
  e_ID e = id →
  (put_execution id e ≫= λ _, appendEvent e ev text) w = (inr tt, logged w id e ev text).
Proof. intros <-. done. Qed.

Lemma wp_put_append w id e ev text Q :
  e_ID e = id → Q (inr tt) (logged w id e ev text) →
  wp (put_execution id e ≫= λ _, appendEvent e ev text) Q w.
Proof. intros He HQ. eapply wp_run; [by apply put_append_run|done]. Qed.

Lemma wp_put_append_bind {A} w id e ev text (k : unit → M World A) Q :
  e_ID e = id → wp (k tt) Q (logged w id e ev text) →
  wp (put_execution id e ≫= λ _, appendEvent e ev text ≫= k) Q w.
Proof. intros <- HQ. exact HQ. Qed.

(** A recorded transition of a stored execution keeps the invariant. *)
Lemma Inv_logged w n id e e' ev text :
  Inv w → tick w ≤ n → m_executions (mem w) !! id = Some e → same_identity e e' →
  ExecOk n e' → transition (e_Status e) ev (e_Status e') →
  e_Attempt e' = event_attempt ev (e_Attempt e) →
  Inv (logged (mkWorld (mem w) n) id e' ev text).
Proof.
  intros Hw Hn He Hsame Hok Htr Hatt. unfold logged; simpl.
  destruct (inv_log _ Hw _ _ He) as (evs & Hevs & Hh & Hall). rewrite Hevs; simpl.
  eapply (Inv_with_execution w); [done|lia|done|done| | |].
  - eapply ExecOk_mono; [|done]. lia.
  - rewrite fmap_app, Hatt. simpl. by eapply history_event.
  - apply Forall_app. by repeat constructor.
Qed.

Lemma Inv_id w id e : Inv w → m_executions (mem w) !! id = Some e → e_ID e = id.
Proof. intros Hw He. by destruct (inv_exec _ Hw _ _ He). Qed.

Lemma Inv_ok w id e : Inv w → m_executions (mem w) !! id = Some e → ExecOk (tick w) e.
Proof. intros Hw He. by destruct (inv_exec _ Hw _ _ He). Qed.

(** ** The lease guard *)

Definition lease_valid (e : Execution) (token : UUID) : Prop :=
  e_Status e = StatusRunning ∧ token ≠ uuid_Nil ∧ e_LeaseToken e = token.

Lemma wp_owned id token Q w :
  (m_executions (mem w) !! id = None → Q (inl (ErrNotFound : error)) w) →
  (∀ e, m_executions (mem w) !! id = Some e → ¬ lease_valid e token →
    Q (inl (ErrLeaseLost : error)) w) →
  (∀ e, m_executions (mem w) !! id = Some e → lease_valid e token → Q (inr e) w) →
  wp (owned id token) Q w.
Proof.
  intros H1 H2 H3. unfold owned. apply wp_bind, wp_gets. simpl.
  destruct (m_executions (mem w) !! id) as [e|] eqn:He; [|apply wp_throw; by apply H1].
  unfold lease_valid in *.
  repeat case_bool_decide; simpl; first [apply wp_ret; apply H3|apply wp_throw; eapply H2];
    naive_solver.
Qed.

(** ** Every operation preserves the invariant *)

Abbreviation preserves m := (∀ w, Inv w → wp m (λ _ w', Inv w') w).

(** Well-formedness of an updated execution, field by field, from the one it replaces. *)
Ltac exec_ok Hok :=
  destruct Hok; split; simpl in *;
  repeat match goal with H : e_Status _ = _ |- _ => rewrite H in * end; simpl in *;
  try done; try lia; try naive_solver.

Ltac same_id := repeat split.

Lemma transition_inv w n id e e' ev text :
  Inv w → tick w ≤ n → m_executions (mem w) !! id = Some e → same_identity e e' →
  ExecOk n e' → transition (e_Status e) ev (e_Status e') →
  e_Attempt e' = event_attempt ev (e_Attempt e) →
  wp (put_execution id e' ≫= λ _, appendEvent e' ev text) (λ _ w', Inv w') (mkWorld (mem w) n).
Proof.
  intros Hw Hn He Hsame Hok Htr Hatt. apply wp_put_append.
  - destruct Hsame as [-> _]. by eapply Inv_id.
  - by eapply Inv_logged.
Qed.

Lemma Inv_store w n id e e' :
  Inv w → tick w ≤ n → m_executions (mem w) !! id = Some e → same_identity e e' → ExecOk n e' →
  (∀ evs, History evs (e_Status e) (e_Attempt e) → History evs (e_Status e') (e_Attempt e')) →
  Inv (mkWorld (mem w <| m_executions := <[id := e']> (m_executions (mem w)) |>) n).
Proof.
  intros Hw Hn He Hsame Hok Hhist. destruct (inv_log _ Hw _ _ He) as (evs & Hevs & Hh & Hall).
  assert (Inv (mkWorld (with_execution (mem w) id e' evs) n)) as Hinv
    by (eapply (Inv_with_execution w); eauto).
  unfold with_execution in Hinv. simpl in Hinv. by rewrite insert_id in Hinv.
Qed.

Lemma Heartbeat_inv id token lease : preserves (Heartbeat id token lease).
Proof.
  intros w Hw. apply wp_bind, wp_owned; [done..|]. intros e He (Hst & _ & _).
  apply wp_bind, wp_now, wp_modify. simpl. pose proof (Inv_ok _ _ _ Hw He) as Hok.
  eapply (Inv_store w); [done|lia|done|by same_id| |done].
  apply (ExecOk_mono (tick w)); [simpl; lia|exec_ok Hok].
Qed.

Lemma Succeed_inv id token output : preserves (Succeed id token output).
Proof.
  intros w Hw. apply wp_bind, wp_owned; [done..|]. intros e He (Hst & _ & _).
  apply wp_bind, wp_now. pose proof (Inv_ok _ _ _ Hw He) as Hok.
  eapply transition_inv; [done|lia|done|by same_id| |rewrite Hst; constructor|done].
  apply (ExecOk_mono (tick w)); [simpl; lia|exec_ok Hok].
Qed.

Lemma Fail_inv id token text : preserves (Fail id token text).
Proof.
  intros w Hw. apply wp_bind, wp_owned; [done..|]. intros e He (Hst & _ & _).
  apply wp_bind, wp_now. pose proof (Inv_ok _ _ _ Hw He) as Hok.
  eapply transition_inv; [done|lia|done|by same_id| |rewrite Hst; constructor|done].
  apply (ExecOk_mono (tick w)); [simpl; lia|exec_ok Hok].
Qed.

Lemma Retry_inv id token text delay : preserves (Retry id token text delay).
Proof.
  intros w Hw. apply wp_bind, wp_owned; [done..|]. intros e He (Hst & _ & _).
  pose proof (Inv_ok _ _ _ Hw He) as Hok. simpl.
  destruct (Z.leb_spec (e_MaxAttempts e) (e_Attempt e)); apply wp_bind, wp_now;
    (eapply transition_inv; [done|lia|done|by same_id| |rewrite Hst; constructor|done]);
    (apply (ExecOk_mono (tick w)); [simpl; lia|exec_ok Hok]).
Qed.

Lemma CancelExecution_inv id reason : preserves (CancelExecution id reason).
Proof.
  intros w Hw. apply wp_bind, wp_gets. simpl.
  destruct (m_executions (mem w) !! id) as [e|] eqn:He; [|by apply wp_throw].
  destruct (is_terminal (e_Status e)) eqn:Ht; [by apply wp_throw|].
  apply wp_bind, wp_now. pose proof (Inv_ok _ _ _ Hw He) as Hok.
  destruct (inv_log _ Hw _ _ He) as (? & _ & Hz%History_status & _).
  eapply transition_inv; [done|lia|done|by same_id| | |done].
  - apply (ExecOk_mono (tick w)); [simpl; lia|]. destruct (e_Status e) eqn:Hst; try done; exec_ok Hok.
  - constructor. destruct (e_Status e); naive_solver.
Qed.

Lemma reset_item_ok n n' status t e :
  n ≤ n' → ExecOk n e →
  status = StatusPending ∨ (status = StatusBlocked ∧ is_Some (e_PipelineRunID e)) →
  ExecOk n' (reset_item status t e).
Proof.
  intros Hn Hok Hs. apply (ExecOk_mono n); [done|].
  destruct Hs as [->|[-> ?]]; exec_ok Hok.
Qed.

Lemma not_active_restart w id e :
  Inv w → m_executions (mem w) !! id = Some e → is_active (e_Status e) = false →
  is_terminal (e_Status e) = true ∨ e_Status e = StatusBlocked.
Proof.
  intros Hw He Ha. destruct (inv_log _ Hw _ _ He) as (? & _ & Hz%History_status & _).
  destruct (e_Status e); naive_solver.
Qed.

Lemma RestartExecution_inv id t : preserves (RestartExecution id t).
Proof.
  intros w Hw. apply wp_bind, wp_gets. simpl.
  destruct (m_executions (mem w) !! id) as [e|] eqn:He; [|by apply wp_throw].
  destruct (e_PipelineRunID e) eqn:Hr; [by apply wp_throw|].
  destruct (is_active (e_Status e)) eqn:Ha; [by apply wp_throw|].
  apply wp_bind, wp_now_or. intros t' n Hn. apply wp_put_append_bind; [exact (Inv_id w id e Hw He)|].
  apply wp_ret. eapply Inv_logged; [done|lia|done|by same_id| | |done].
  - eapply reset_item_ok; [exact Hn|by eapply Inv_ok|by left].
  - constructor; [by eapply not_active_restart|by left].
Qed.

Lemma ReleaseExecution_inv id input t : preserves (ReleaseExecution id input t).
Proof.
  intros w Hw. apply wp_bind, wp_gets. simpl.
  destruct (m_executions (mem w) !! id) as [e|] eqn:He; [|by apply wp_throw].
  case_bool_decide as Hst; [|by apply wp_throw].
  apply wp_bind, wp_now_or. intros t' n Hn. apply wp_modify.
  pose proof (Inv_ok _ _ _ Hw He) as Hok.
  eapply (Inv_store w); [done|done|done|by same_id| |].
  - apply (ExecOk_mono (tick w)); [exact Hn|exec_ok Hok].
  - simpl. rewrite Hst. intros evs. apply history_release.
Qed.

(** *** Creation *)

Definition request_ok (request : CreateExecutionRequest) : Prop :=
  (c_MaxAttempts request ≤ MaxInt64)%Z.

Lemma is_empty_true s : is_empty s = true ↔ s = EmptyString.
Proof. unfold is_empty. by rewrite bool_decide_eq_true. Qed.
Lemma is_empty_false s : is_empty s = false ↔ s ≠ EmptyString.
Proof. unfold is_empty. by rewrite bool_decide_eq_false. Qed.

(** The store with a new execution, its index entries and its first event. *)
Definition inserted (s : MemoryStore) (id : UUID) (e : Execution) (event : Event) : MemoryStore :=
  mkMemoryStore (<[id := e]> (m_executions s)) (m_runs s)
    (<[id := default [] (m_events s !! id) ++ [event]]> (m_events s))
    (if is_empty (e_IdempotencyKey e) then m_idempotent s
     else <[idempotent_key (e_TaskName e) (e_IdempotencyKey e) := id]> (m_idempotent s))
    (match e_PipelineRunID e with
     | Some r => if is_empty (e_NodeKey e) then m_nodes s
                 else <[node_key r (e_NodeKey e) := id]> (m_nodes s)
     | None => m_nodes s
     end)
    (m_runIdempotent s).

(** The execution a request creates at instant [t]. *)
Definition new_execution (request : CreateExecutionRequest) (id : UUID) (t : Time) : Execution :=
  mkExecution id (c_TaskName request) (c_TaskVersion request)
    (cloneJSON (c_Input request)) None StatusPending 0
    (if (c_MaxAttempts request <=? 0)%Z then 1%Z else c_MaxAttempts request)
    (if IsZero (c_AvailableAt request) then t else c_AvailableAt request)
    EmptyString uuid_Nil 0 EmptyString (c_IdempotencyKey request)
    (c_PipelineRunID request) (c_NodeKey request) t None None.

Lemma CreateExecution_run request w :
  CreateExecution request w =
    if is_empty (c_TaskName request) then (inl (fmt_Errorf "task name is empty" []), w) else
    match find_existing (mem w) request with
    | Some id => (inr (cloneExecution (default zeroExecution (m_executions (mem w) !! id))), w)
    | None =>
        let t := env_now (tick w) in
        let id := env_uuid (S (tick w)) in
        let e := new_execution request id t in
        (inr (cloneExecution e),
         mkWorld (inserted (mem w) id e
           (mkEvent (env_uuid (S (S (tick w)))) id EventCreated 0 EmptyString
              (env_now (S (S (S (tick w))))))) (S (S (S (S (tick w))))))
    end.
Proof.
  unfold CreateExecution, mbind, M_bind, gets, throw, mret, M_ret.
  destruct (is_empty (c_TaskName request)); [done|].
  destruct (find_existing (mem w) request); [done|].
  unfold now, uuid_New, put_execution, modify, appendEvent, when, inserted, new_execution; simpl.
  destruct (is_empty (c_IdempotencyKey request)), (c_PipelineRunID request);
    simpl; [destruct (is_empty (c_NodeKey request))| |destruct (is_empty (c_NodeKey request))|];
    reflexivity.
Qed.

Lemma find_existing_None s request :
  find_existing s request = None →
  (c_IdempotencyKey request ≠ EmptyString →
     m_idempotent s !! idempotent_key (c_TaskName request) (c_IdempotencyKey request) = None) ∧
  (∀ r, c_PipelineRunID request = Some r → c_NodeKey request ≠ EmptyString →
     m_nodes s !! node_key r (c_NodeKey request) = None).
Proof.
  unfold find_existing. intros H. split.
  - intros Hk%is_empty_false. rewrite Hk in H. by destruct (m_idempotent s !! _).
  - intros r Hr Hn%is_empty_false. rewrite Hr, Hn in H.
    destruct (if is_empty _ then _ else _); done.
Qed.

Lemma Inv_fresh_id `{!GoEnvOk} w k :
  Inv w → tick w ≤ k →
  m_executions (mem w) !! env_uuid k = None ∧ m_runs (mem w) !! env_uuid k = None.
Proof.
  intros Hw Hk. split; apply eq_None_not_Some; intros Hs.
  - destruct (inv_past _ Hw (env_uuid k)) as (j & ? & Hj); [by left|].
    apply (inj env_uuid) in Hj. lia.
  - destruct (inv_past _ Hw (env_uuid k)) as (j & ? & Hj); [by right|].
    apply (inj env_uuid) in Hj. lia.
Qed.

(** Inserting a new execution under unused keys keeps the indexes exact. *)
Lemma inserted_idem s id e event k id' :
  m_executions s !! id = None →
  (e_IdempotencyKey e ≠ EmptyString →
     m_idempotent s !! idempotent_key (e_TaskName e) (e_IdempotencyKey e) = None) →
  (∀ k id', m_idempotent s !! k = Some id' ↔ idem_entry s k id') →
  m_idempotent (inserted s id e event) !! k = Some id' ↔
  idem_entry (inserted s id e event) k id'.
Proof.
  intros Hid Hnone Hinv. unfold idem_entry; simpl.
  assert (∀ id'', (∃ e0, <[id := e]> (m_executions s) !! id'' = Some e0 ∧
      e_IdempotencyKey e0 ≠ EmptyString ∧
      k = idempotent_key (e_TaskName e0) (e_IdempotencyKey e0)) ↔
    (id'' = id ∧ e_IdempotencyKey e ≠ EmptyString ∧
      k = idempotent_key (e_TaskName e) (e_IdempotencyKey e)) ∨ idem_entry s k id'') as ->.
  { intros id''. unfold idem_entry. destruct (decide (id'' = id)) as [->|Hne].
    - rewrite lookup_insert_eq, Hid. naive_solver.
    - rewrite lookup_insert_ne by done. naive_solver. }
  rewrite <-Hinv. destruct (is_empty (e_IdempotencyKey e)) eqn:Hk.
  - apply is_empty_true in Hk. naive_solver.
  - apply is_empty_false in Hk. specialize (Hnone Hk).
    destruct (decide (k = idempotent_key (e_TaskName e) (e_IdempotencyKey e))) as [->|Hne].
    + rewrite lookup_insert_eq, Hnone. naive_solver.
    + rewrite lookup_insert_ne by done. naive_solver.
Qed.

Lemma inserted_node s id e event k id' :
  m_executions s !! id = None →
  (∀ r, e_PipelineRunID e = Some r → e_NodeKey e ≠ EmptyString →
     m_nodes s !! node_key r (e_NodeKey e) = None) →
  (∀ k id', m_nodes s !! k = Some id' ↔ node_entry s k id') →
  m_nodes (inserted s id e event) !! k = Some id' ↔ node_entry (inserted s id e event) k id'.
Proof.
  intros Hid Hnone Hinv. unfold node_entry; simpl.
  assert (∀ id'', (∃ e0 r, <[id := e]> (m_executions s) !! id'' = Some e0 ∧
      e_PipelineRunID e0 = Some r ∧ e_NodeKey e0 ≠ EmptyString ∧ k = node_key r (e_NodeKey e0)) ↔
    (id'' = id ∧ ∃ r, e_PipelineRunID e = Some r ∧ e_NodeKey e ≠ EmptyString ∧
      k = node_key r (e_NodeKey e)) ∨ node_entry s k id'') as ->.
  { intros id''. unfold node_entry. destruct (decide (id'' = id)) as [->|Hne].
    - rewrite lookup_insert_eq, Hid. naive_solver.
    - rewrite lookup_insert_ne by done. naive_solver. }
  rewrite <-Hinv. destruct (e_PipelineRunID e) as [r|] eqn:Hr; [|naive_solver].
  destruct (is_empty (e_NodeKey e)) eqn:Hk.
  - apply is_empty_true in Hk. naive_solver.
  - apply is_empty_false in Hk. specialize (Hnone r eq_refl Hk).
    destruct (decide (k = node_key r (e_NodeKey e))) as [->|Hne].
    + rewrite lookup_insert_eq, Hnone. naive_solver.
    + rewrite lookup_insert_ne by done. naive_solver.
Qed.

Lemma new_execution_ok n request id t :
  c_TaskName request ≠ EmptyString → request_ok request → ExecOk n (new_execution request id t).
Proof.
  unfold request_ok. intros Hn Hr. split; simpl; try done; try naive_solver.
  - destruct (Z.leb_spec (c_MaxAttempts request) 0); unfold MaxInt64 in *; lia.
  - destruct (Z.leb_spec (c_MaxAttempts request) 0); lia.
Qed.

Lemma Inv_inserted `{!GoEnvOk} w k n e event :
  Inv w → tick w ≤ k → k < n → e_ID e = env_uuid k → ExecOk n e →
  e_Status e = StatusPending → ev_Type event = EventCreated → ev_ExecutionID event = e_ID e →
  (e_IdempotencyKey e ≠ EmptyString →
     m_idempotent (mem w) !! idempotent_key (e_TaskName e) (e_IdempotencyKey e) = None) →
  (∀ r, e_PipelineRunID e = Some r → e_NodeKey e ≠ EmptyString →
     m_nodes (mem w) !! node_key r (e_NodeKey e) = None) →
  Inv (mkWorld (inserted (mem w) (env_uuid k) e event) n).
Proof.
  intros Hw Hk Hn Hid Hok Hst Hev Hevid Hi Hnd.
  destruct (Inv_fresh_id w k Hw Hk) as [Hfresh _].
  assert (Inv (mkWorld (mem w) n)) as [].
  { destruct w as [s m]. apply (Inv_tick s m); simpl in *; [lia|done]. }
  simpl in *. split; simpl.
  - intros id' e'. destruct (decide (env_uuid k = id')) as [<-|?].
    + rewrite lookup_insert_eq. by intros [= <-].
    + rewrite lookup_insert_ne by done. apply inv_exec0.
  - intros k' id'. by apply inserted_idem.
  - intros k' id'. by apply inserted_node.
  - intros id' e'. unfold log_ok; simpl. destruct (decide (env_uuid k = id')) as [<-|?].
    + rewrite lookup_insert_eq, lookup_insert_eq, (inv_no_log0 _ Hfresh). intros [= <-].
      eexists. split; [done|]. simpl. rewrite Hev, Hst, (ok_fresh_attempt _ _ Hok); [|by left].
      split; [constructor|]. constructor; [congruence|done].
    + rewrite !lookup_insert_ne by done. apply inv_log0.
  - intros id'. destruct (decide (env_uuid k = id')) as [<-|?]; [by rewrite lookup_insert_eq|].
    rewrite !lookup_insert_ne by done. apply inv_no_log0.
  - done.
  - done.
  - intros id'. destruct (decide (env_uuid k = id')) as [<-|?]; [by intros _; exists k|].
    rewrite lookup_insert_ne by done. apply inv_past0.
Qed.

Lemma CreateExecution_inv `{!GoEnvOk} request :
  request_ok request → preserves (CreateExecution request).
Proof.
  intros Hr w Hw. unfold wp. rewrite CreateExecution_run.
  destruct (is_empty (c_TaskName request)) eqn:Hn; [done|].
  destruct (find_existing (mem w) request) eqn:Hf; [done|]. simpl.
  apply find_existing_None in Hf as [Hi Hnd]. apply is_empty_false in Hn.
  eapply (Inv_inserted w); simpl; try done; try lia. by apply new_execution_ok.
Qed.

(** *** Loops over the executions *)

(** The entries still to be visited are stored, each under its own key. *)
Definition pending_entries (l : list (UUID * Execution)) (w : World) : Prop :=
  NoDup l.*1 ∧ ∀ id e, (id, e) ∈ l → m_executions (mem w) !! id = Some e.

Lemma pending_entries_range `{!GoEnvOk} n w :
  pending_entries (env_shuffle n _ (map_to_list (m_executions (mem w)))) w.
Proof.
  split.
  - rewrite env_shuffle_perm. apply NoDup_fst_map_to_list.
  - intros id e. rewrite env_shuffle_perm. apply elem_of_map_to_list.
Qed.

Lemma pending_entries_cons id e l w :
  pending_entries ((id, e) :: l) w →
  m_executions (mem w) !! id = Some e ∧ id ∉ l.*1 ∧ pending_entries l w.
Proof.
  intros [[Hni Hnd]%NoDup_cons Hl]. split_and!; [apply Hl; left|done|].
  split; [done|]. intros id' e' Hin. apply Hl. by right.
Qed.

Lemma pending_entries_change l w w' :
  pending_entries l w →
  (∀ id, id ∈ l.*1 → m_executions (mem w') !! id = m_executions (mem w) !! id) →
  pending_entries l w'.
Proof.
  intros [Hnd Hl] Heq. split; [done|]. intros id e Hin.
  rewrite Heq; [by apply Hl|]. by apply (list_elem_of_fmap_2 fst) in Hin.
Qed.

Lemma pending_entries_logged l w n id e ev text :
  pending_entries l w → id ∉ l.*1 → pending_entries l (logged (mkWorld (mem w) n) id e ev text).
Proof.
  intros Hl Hid. eapply pending_entries_change; [done|]. intros id' Hin. simpl.
  rewrite lookup_insert_ne; [done|]. by intros ->.
Qed.

(** *** Claim *)

Lemma claimed_execution_ID owner lease t token e :
  e_ID (claimed_execution owner lease t token e) = e_ID e.
Proof. done. Qed.

Lemma claim_candidate_run owner lease t e w :
  claim_candidate owner lease t e w =
    let e' := claimed_execution owner lease t (env_uuid (tick w)) e in
    (inr (cloneExecution e'),
     logged (mkWorld (mem w) (S (tick w))) (e_ID e) e' EventStarted EmptyString).
Proof.
  pose proof (claimed_execution_ID owner lease t (env_uuid (tick w)) e) as Hid.
  change (claim_candidate owner lease t e w) with
    ((λ e', (put_execution (e_ID e') e' ≫= λ _, appendEvent e' EventStarted EmptyString ≫=
      λ _, mret (cloneExecution e')) (mkWorld (mem w) (S (tick w))))
      (claimed_execution owner lease t (env_uuid (tick w)) e)).
  cbv zeta beta. destruct (claimed_execution owner lease t (env_uuid (tick w)) e).
  simpl in Hid. by subst.
Qed.

Lemma claimable_spec keys t e :
  claimable keys t e = true →
  mkTaskKey (e_TaskName e) (e_TaskVersion e) ∈ keys ∧ (e_AvailableAt e ≤ t)%Z ∧
  is_active (e_Status e) = true ∧ (e_Status e = StatusRunning → (e_LeaseUntil e ≤ t)%Z) ∧
  (e_Attempt e < e_MaxAttempts e)%Z.
Proof.
  unfold claimable, After. intros H. reflect_bool.
  split_and!; [done|lia| | |lia]; destruct (e_Status e); try done. intros _. reflect_bool. lia.
Qed.

(** The attempt counter does not overflow: it stays within the attempt budget, an [int]. *)
Lemma claim_attempt n keys t e :
  ExecOk n e → claimable keys t e = true → int64 (e_Attempt e + 1) = (e_Attempt e + 1)%Z.
Proof.
  intros Hok (_ & _ & _ & _ & Hlt)%claimable_spec. apply int64_id.
  pose proof (ok_attempt _ _ Hok). pose proof (ok_max _ _ Hok). lia.
Qed.

Lemma claimed_execution_ok `{!GoEnvOk} n k keys t owner lease e :
  n ≤ k → ExecOk n e → claimable keys t e = true →
  ExecOk (S k) (claimed_execution owner lease t (env_uuid k) e).
Proof.
  intros Hn Hok Hc. pose proof (claim_attempt _ _ _ _ Hok Hc) as Hatt.
  apply claimable_spec in Hc as (_ & _ & Ha & _ & Hlt).
  pose proof (env_uuid_not_Nil k) as Hnil. destruct Hok. split; simpl; try done.
  - rewrite Hatt. lia.
  - by intros [|].
  - intros _. exists k. split; [lia|done].
  - intros _. rewrite Hatt. split; [by destruct (e_StartedAt e)|lia].
  - rewrite <-ok_finished0. by destruct (e_Status e).
  - intros Ho%ok_output0. by rewrite Ho in Ha.
Qed.

Lemma claim_step_inv `{!GoEnvOk} keys owner lease t id e w :
  Inv w → m_executions (mem w) !! id = Some e → claimable keys t e = true →
  Inv (logged (mkWorld (mem w) (S (tick w))) id
         (claimed_execution owner lease t (env_uuid (tick w)) e) EventStarted EmptyString).
Proof.
  intros Hw He Hc. pose proof (Inv_ok _ _ _ Hw He) as Hok.
  eapply (Inv_logged w); [done|lia|done|by same_id| | |].
  - by eapply claimed_execution_ok.
  - apply tr_started. by apply claimable_spec in Hc as (_ & _ & Ha & _).
  - simpl. by eapply claim_attempt.
Qed.

(** The candidates still to be claimed are stored, each once. *)
Definition pending_items (l : list Execution) (w : World) : Prop :=
  NoDup (e_ID <$> l) ∧ ∀ e, e ∈ l → m_executions (mem w) !! e_ID e = Some e.

Lemma pending_items_filter P l w :
  Inv w → pending_entries l w → pending_items (List.filter P l.*2) w.
Proof.
  intros Hw. induction l as [|[id e] l IH]; intros Hl; simpl.
  - split; [constructor|]. by intros e ?%elem_of_nil.
  - apply pending_entries_cons in Hl as (He & Hid & Hl). destruct (IH Hl) as [Hnd Hin].
    destruct (P e); [|done]. pose proof (Inv_id _ _ _ Hw He) as Heid. split; simpl.
    + constructor; [|done]. rewrite Heid. intros (e' & Heq & Hin')%list_elem_of_fmap.
      apply Hid. apply list_elem_of_In, filter_In in Hin' as [Hin' _].
      apply list_elem_of_In, list_elem_of_fmap in Hin' as ([id' e''] & -> & Hin'').
      destruct Hl as [_ Hl]. apply Hl in Hin'' as He'. apply (Inv_id _ _ _ Hw) in He'.
      simpl in *. apply list_elem_of_fmap. exists (id', e''). split; [simpl; congruence|done].
    + intros e' [->|?]%elem_of_cons; [congruence|auto].
Qed.

Lemma pending_items_perm l l' w : l ≡ₚ l' → pending_items l w → pending_items l' w.
Proof. intros Hp [Hnd Hin]. split; [by rewrite <-Hp|]. intros e. rewrite <-Hp. apply Hin. Qed.

Lemma limit_slice_prefix {A} limit (l : list A) : ∃ k, l = limit_slice limit l ++ k.
Proof.
  unfold limit_slice. destruct (_ && _); [|exists []; by rewrite app_nil_r].
  exists (drop (Z.to_nat limit) l). by rewrite take_drop.
Qed.

Lemma pending_items_limit limit l w : pending_items l w → pending_items (limit_slice limit l) w.
Proof.
  intros [Hnd Hin]. destruct (limit_slice_prefix limit l) as [k Hk]. split.
  - rewrite Hk, fmap_app in Hnd. by apply NoDup_app in Hnd as [? _].
  - intros e He. apply Hin. rewrite Hk. apply elem_of_app. by left.
Qed.

Lemma Forall_filter_limit {A} (P : A → bool) limit less l :
  Forall (λ x, P x = true) (limit_slice limit (sort_Slice less (List.filter P l))).
Proof.
  destruct (limit_slice_prefix limit (sort_Slice less (List.filter P l))) as [k Hk].
  apply Forall_forall. intros x Hx.
  assert (x ∈ List.filter P l) as Hf.
  { rewrite <-(elem_of_sort_Slice less), Hk. apply elem_of_app. by left. }
  by apply list_elem_of_In, filter_In in Hf as [_ ?].
Qed.

(** What the claiming loop does: it stores every candidate with a fresh token, returns the stored
    values in order, and touches nothing else. *)
Definition claim_post owner lease t (l : list Execution) (w : World)
    (r : error + list Execution) (w' : World) : Prop :=
  Inv w' ∧
  r = inr (imap (λ i e, cloneExecution
                   (claimed_execution owner lease t (env_uuid (tick w + 3 * i)) e)) l) ∧
  tick w' = tick w + 3 * length l ∧
  (∀ i e, l !! i = Some e → m_executions (mem w') !! e_ID e =
     Some (claimed_execution owner lease t (env_uuid (tick w + 3 * i)) e)) ∧
  (∀ id, id ∉ e_ID <$> l →
     m_executions (mem w') !! id = m_executions (mem w) !! id ∧
     m_events (mem w') !! id = m_events (mem w) !! id) ∧
  m_runs (mem w') = m_runs (mem w).

Lemma claim_loop `{!GoEnvOk} keys owner lease t l w :
  Inv w → pending_items l w → Forall (λ e, claimable keys t e = true) l →
  wp (mapM (claim_candidate owner lease t) l) (claim_post owner lease t l w) w.
Proof.
  intros Hw Hp Hc. revert w Hw Hp. induction Hc as [|e l Hce Hc IH]; intros w Hw [Hnd Hin].
  { apply wp_ret. split_and!; try done; simpl; lia. }
  apply NoDup_cons in Hnd as [Hni Hnd]. assert (m_executions (mem w) !! e_ID e = Some e) as He.
  { apply Hin. left. }
  simpl. apply wp_bind. eapply wp_run; [apply claim_candidate_run|]. simpl.
  pose proof (claim_step_inv keys owner lease t _ e w Hw He Hce) as Hw1.
  remember (claimed_execution owner lease t (env_uuid (tick w)) e) as e' eqn:He'.
  set (w1 := logged _ _ _ _ _) in *. apply wp_bind. eapply wp_mono; [apply (IH w1 Hw1)|].
  - split; [done|]. intros e'' Hin''. simpl. rewrite lookup_insert_ne; [apply Hin; by right|].
    intros Heq. apply Hni. rewrite Heq. by apply list_elem_of_fmap_2.
  - intros r w' (Hinv & -> & Htick & Hget & Hother & Hruns). apply wp_ret.
    assert (∀ i, tick w1 + 3 * i = tick w + 3 * S i) as Hshift by (intros; unfold w1; simpl; lia).
    split_and!; [done| |simpl in *; lia| | |done].
    + simpl. rewrite Nat.add_0_r, He'. do 2 f_equal. apply imap_ext. intros i x _. unfold compose.
      do 3 f_equal. lia.
    + intros [|i] x Hx; [injection Hx as <-|].
      * destruct (Hother (e_ID e)) as [-> _]; [done|]. simpl. rewrite lookup_insert_eq.
        by rewrite Nat.add_0_r, He'.
      * rewrite (Hget _ _ Hx), Hshift. done.
    + intros id Hid. simpl in Hid. apply not_elem_of_cons in Hid as [Hne Hid].
      destruct (Hother id Hid) as [-> ->]. simpl. by rewrite !lookup_insert_ne.
Qed.

(** The executions a call of [Claim] selects. *)
Definition claim_selection keys limit (w : World) : list Execution :=
  limit_slice (if (limit <=? 0)%Z then 1%Z else limit)
    (sort_Slice claim_less (List.filter (claimable keys (env_now (tick w)))
      (env_shuffle (S (tick w)) _ (map_to_list (m_executions (mem w)))).*2)).

Lemma Claim_wp `{!GoEnvOk} owner keys limit lease w :
  Inv w →
  wp (Claim owner keys limit lease)
    (claim_post owner lease (env_now (tick w)) (claim_selection keys limit w)
       (mkWorld (mem w) (S (S (tick w))))) w.
Proof.
  intros Hw. unfold Claim. apply wp_bind, wp_gets, wp_bind, wp_now, wp_bind, wp_range. simpl.
  set (w1 := mkWorld (mem w) (S (S (tick w)))).
  assert (Inv w1) as Hw1. { destruct w as [s n]. apply (Inv_tick s n); [simpl; lia|done]. }
  eapply (claim_loop keys); [done| |apply Forall_filter_limit].
  apply pending_items_limit. eapply pending_items_perm; [symmetry; apply sort_Slice_perm|].
  apply pending_items_filter; [done|]. apply (pending_entries_range (S (tick w)) w1).
Qed.

Lemma Claim_inv `{!GoEnvOk} owner keys limit lease : preserves (Claim owner keys limit lease).
Proof. intros w Hw. eapply wp_mono; [by apply Claim_wp|]. by intros r w' [? _]. Qed.

(** *** Reap *)

(** What a loop has done to the executions when [l] is left: those visited are mapped by [f]. *)
Definition mapped_except (f : Execution → Execution) (w0 : World) (l : list (UUID * Execution))
    (w : World) : Prop :=
  ∀ id, m_executions (mem w) !! id =
    if decide (id ∈ l.*1) then m_executions (mem w0) !! id
    else f <$> m_executions (mem w0) !! id.

(** The entries [l] are those of the store, in some order. *)
Definition all_entries (l : list (UUID * Execution)) (w : World) : Prop :=
  l ≡ₚ map_to_list (m_executions (mem w)).

Lemma mapped_except_start f l w : all_entries l w → mapped_except f w l w.
Proof.
  intros Hl id. destruct (decide (id ∈ l.*1)) as [|Hid]; [done|].
  destruct (m_executions (mem w) !! id) as [e|] eqn:He; [|done]. destruct Hid.
  rewrite Hl. apply elem_of_map_to_list in He. by apply (list_elem_of_fmap_2 fst) in He.
Qed.

Lemma mapped_except_end f w0 w id :
  mapped_except f w0 [] w → m_executions (mem w) !! id = f <$> m_executions (mem w0) !! id.
Proof. intros H. rewrite H. destruct (decide _) as [[]%elem_of_nil|]; done. Qed.

(** Visiting one entry stores its image. *)
Lemma mapped_except_step f w0 id e l w w' :
  mapped_except f w0 ((id, e) :: l) w → m_executions (mem w) !! id = Some e → id ∉ l.*1 →
  m_executions (mem w') = <[id := f e]> (m_executions (mem w)) →
  mapped_except f w0 l w'.
Proof.
  intros H He Hid Hw' id'. specialize (H id') as Hid'. rewrite Hw'. simpl in Hid'.
  destruct (decide (id = id')) as [<-|Hne].
  - rewrite lookup_insert_eq. specialize (H id). simpl in H. rewrite He in H.
    rewrite decide_True in H by (left). rewrite decide_False by done. by rewrite <-H.
  - rewrite lookup_insert_ne by done. rewrite Hid'.
    destruct (decide (id' ∈ id :: _)) as [Hin|Hni], (decide (id' ∈ l.*1)) as [|]; try done.
    + by apply elem_of_cons in Hin as [->|].
    + exfalso. apply Hni. by right.
Qed.

Lemma mapped_except_skip f w0 id e l w :
  mapped_except f w0 ((id, e) :: l) w → m_executions (mem w) !! id = Some e → id ∉ l.*1 →
  f e = e → mapped_except f w0 l w.
Proof.
  intros H He Hid Hf. eapply mapped_except_step; [exact H|done|done|].
  by rewrite Hf, insert_id.
Qed.

Definition reap_map (t : Time) (e : Execution) : Execution :=
  if expired t e then reaped_execution t e else e.

Lemma expired_spec t e :
  expired t e = true ↔
  e_Status e = StatusRunning ∧ (e_LeaseUntil e ≤ t)%Z ∧ (e_MaxAttempts e ≤ e_Attempt e)%Z.
Proof.
  unfold expired, After. split.
  - intros H. reflect_bool. split_and!; [done|lia|lia].
  - intros (H1 & H2 & H3). rewrite bool_decide_true by done.
    rewrite (proj2 (Z.ltb_ge _ _)) by done. rewrite (proj2 (Z.ltb_ge _ _)) by done. done.
Qed.

Lemma reaped_execution_same t e : same_identity e (reaped_execution t e).
Proof. by same_id. Qed.

Lemma reaped_execution_ok n t e :
  ExecOk n e → e_Status e = StatusRunning → ExecOk n (reaped_execution t e).
Proof. intros Hok Hst. exec_ok Hok. Qed.

Lemma reap_step t id e w :
  Inv w → m_executions (mem w) !! id = Some e → expired t e = true →
  Inv (logged w id (reaped_execution t e) EventFailed lease_expired_text).
Proof.
  intros Hw He (Hst & _ & _)%expired_spec.
  destruct w as [s n]. eapply (Inv_logged (mkWorld s n) n); [done|simpl; lia|done| | | |done].
  - apply reaped_execution_same.
  - apply reaped_execution_ok; [|done]. exact (Inv_ok _ _ _ Hw He).
  - rewrite Hst. constructor.
Qed.

Definition reap_loop_inv (t : Time) (w0 : World) (l : list (UUID * Execution)) (w : World) : Prop :=
  Inv w ∧ pending_entries l w ∧ mapped_except (reap_map t) w0 l w ∧
  m_runs (mem w) = m_runs (mem w0).

Lemma reap_loop t w0 l w :
  reap_loop_inv t w0 l w →
  wp (forM_ l (reap_entry t)) (λ r w', r = inr tt ∧ reap_loop_inv t w0 [] w') w.
Proof.
  apply wp_forM_. clear l w. intros [id e] l w (Hw & Hl & Hm & Hr).
  apply pending_entries_cons in Hl as (He & Hid & Hl). apply wp_when; intros Hx.
  - apply wp_put_append; [exact (Inv_id w id e Hw He)|]. split; [done|].
    split_and!; [by apply reap_step| | |done].
    + destruct w as [s n]. by apply (pending_entries_logged l (mkWorld s n) n).
    + eapply mapped_except_step; [exact Hm|done|done|]. unfold reap_map. by rewrite Hx.
  - split; [done|]. split_and!; [done|done| |done].
    eapply mapped_except_skip; [exact Hm|done|done|]. unfold reap_map. by rewrite Hx.
Qed.

Lemma ReapExpired_wp `{!GoEnvOk} w :
  Inv w →
  wp ReapExpired (λ r w', Inv w' ∧
    (∃ ids, r = inr ids ∧ NoDup ids ∧
       ∀ runID, runID ∈ ids ↔ ∃ id e, m_executions (mem w) !! id = Some e ∧
         expired (env_now (tick w)) e = true ∧ e_PipelineRunID e = Some runID) ∧
    (∀ id, m_executions (mem w') !! id =
       reap_map (env_now (tick w)) <$> m_executions (mem w) !! id) ∧
    m_runs (mem w') = m_runs (mem w)) w.
Proof.
  intros Hw. unfold ReapExpired. apply wp_bind, wp_gets, wp_bind, wp_now, wp_bind, wp_range.
  simpl. set (t := env_now (tick w)). set (w1 := mkWorld (mem w) (S (S (tick w)))).
  set (l := env_shuffle _ _ _). assert (all_entries l w1) as Hall by apply env_shuffle_perm.
  assert (Inv w1) as Hw1. { destruct w as [s n]. apply (Inv_tick s n); [simpl; lia|done]. }
  apply wp_bind. eapply wp_mono; [apply (reap_loop t w1)|].
  { split_and!; [done|exact (pending_entries_range _ w1)|by apply mapped_except_start|done]. }
  intros r w' [-> (Hw' & _ & Hm & Hr)]. apply wp_range. split_and!.
  - destruct w' as [s n]. apply (Inv_tick s n); [simpl; lia|done].
  - eexists. split; [done|]. split.
    + rewrite env_shuffle_perm. apply NoDup_elements.
    + intros runID. rewrite env_shuffle_perm, elem_of_elements, elem_of_list_to_set.
      rewrite list_elem_of_omap. split.
      * intros (e & Hin & He). apply list_elem_of_In, filter_In in Hin as [Hin Hx].
        apply list_elem_of_In, list_elem_of_fmap in Hin as ([id e'] & -> & Hin).
        rewrite Hall in Hin. apply elem_of_map_to_list in Hin. by exists id, e'.
      * intros (id & e & He & Hx & Hp). exists e. split; [|done].
        apply list_elem_of_In, filter_In. split; [|done]. apply list_elem_of_In.
        apply list_elem_of_fmap. exists (id, e). split; [done|]. rewrite Hall.
        by apply elem_of_map_to_list.
  - intros id. exact (mapped_except_end _ _ _ id Hm).
  - done.
Qed.

Lemma ReapExpired_inv `{!GoEnvOk} : preserves ReapExpired.
Proof. intros w Hw. eapply wp_mono; [by apply ReapExpired_wp|]. by intros r w' [? _]. Qed.

(** *** Restart of a pipeline subgraph *)

Definition restart_status (request : RestartSubgraph) (e : Execution) : Status :=
  if bool_decide (e_NodeKey e = rs_RootNodeKey request) then StatusPending else StatusBlocked.

Definition restart_map (request : RestartSubgraph) (t : Time) (e : Execution) : Execution :=
  if in_subgraph request e then reset_item (restart_status request e) t e else e.

Lemma of_run_true runID e : of_run runID e = true ↔ e_PipelineRunID e = Some runID.
Proof. unfold of_run. apply bool_decide_eq_true. Qed.

Lemma in_subgraph_run request e :
  in_subgraph request e = true → e_PipelineRunID e = Some (rs_RunID request).
Proof. unfold in_subgraph. intros H. reflect_bool. by apply of_run_true. Qed.

Lemma reset_item_ID status t e : e_ID (reset_item status t e) = e_ID e.
Proof. done. Qed.

Lemma restart_step request t id e w :
  Inv w → m_executions (mem w) !! id = Some e → in_subgraph request e = true →
  is_active (e_Status e) = false →
  Inv (logged w id (reset_item (restart_status request e) t e) EventRestarted EmptyString).
Proof.
  intros Hw He Hs Ha. destruct w as [s n].
  eapply (Inv_logged (mkWorld s n) n); [done|simpl; lia|done|by same_id| | |done].
  - eapply reset_item_ok; [reflexivity|exact (Inv_ok _ _ _ Hw He)|].
    unfold restart_status. case_bool_decide; [by left|right]. split; [done|].
    by rewrite (in_subgraph_run _ _ Hs).
  - constructor; [by eapply not_active_restart|]. simpl. unfold restart_status.
    case_bool_decide; auto.
Qed.

Definition restart_loop_inv request t (w0 : World) (l : list (UUID * Execution)) (w : World)
    : Prop :=
  Inv w ∧ pending_entries l w ∧ mapped_except (restart_map request t) w0 l w ∧
  m_runs (mem w) = m_runs (mem w0) ∧ m_runIdempotent (mem w) = m_runIdempotent (mem w0) ∧
  ∀ id e, (id, e) ∈ l → in_subgraph request e = true → is_active (e_Status e) = false.

(** The value of the result variable after the loop. *)
Definition restart_root request t (root : Execution) (l : list (UUID * Execution))
    (root' : Execution) : Prop :=
  (∀ e, (e_ID root, e) ∈ l → in_subgraph request e = true → root' = restart_map request t e) ∧
  (e_ID root ∉ l.*1 → root' = root).

Lemma restart_loop request t w0 l root w :
  restart_loop_inv request t w0 l w →
  wp (restart_entries request t root l) (λ r w', restart_loop_inv request t w0 [] w' ∧
    ∃ root', r = inr root' ∧ restart_root request t root l root') w.
Proof.
  revert root w. induction l as [|[id e] l IH]; intros root w (Hw & Hl & Hm & Hr & Hri & Ha).
  { apply wp_ret. split; [done|]. exists root. split; [done|]. split; [|done].
    by intros e ?%elem_of_nil. }
  apply pending_entries_cons in Hl as (He & Hid & Hl). simpl.
  destruct (in_subgraph request e) eqn:Hs.
  - apply wp_put_append_bind; [exact (Inv_id w id e Hw He)|].
    pose proof (restart_step request t _ _ _ Hw He Hs (Ha _ _ ltac:(left) Hs)) as Hw1.
    fold (restart_status request e).
    assert (e_ID (reset_item (restart_status request e) t e) = id) as Hid1
      by exact (Inv_id w id e Hw He).
    assert (restart_map request t e = reset_item (restart_status request e) t e) as Hmap
      by (unfold restart_map; by rewrite Hs).
    remember (reset_item (restart_status request e) t e) as e' eqn:He'.
    eapply wp_mono; [apply IH|].
    + split_and!; [done| | |done|done|].
      * destruct w as [s n]. by apply (pending_entries_logged l (mkWorld s n) n).
      * eapply mapped_except_step; [exact Hm|done|done|]. by rewrite Hmap.
      * intros id' e'' Hin. apply (Ha id'). by right.
    + simpl. intros r w' [Hinv (root' & -> & Hroot)]. split; [done|]. exists root'.
      split; [done|]. destruct Hroot as [Hin Hout]. case_bool_decide as Hc.
      * rewrite Hid1 in Hout, Hin. split.
        -- intros e'' [[= _ ->]|Hin'']%elem_of_cons _; [by rewrite Hout, Hmap|].
           destruct Hid. rewrite Hc. by apply (list_elem_of_fmap_2 fst) in Hin''.
        -- intros Hni. destruct Hni. rewrite <-Hc. left.
      * split.
        -- intros e'' [[= <- ->]|Hin'']%elem_of_cons; [done|by apply Hin].
        -- intros [_ Hni]%not_elem_of_cons. by apply Hout.
  - eapply wp_mono; [apply IH|].
    + split_and!; [done|done| |done|done|].
      * eapply mapped_except_skip; [exact Hm|done|done|]. unfold restart_map. by rewrite Hs.
      * intros id' e'' Hin. apply (Ha id'). by right.
    + simpl. intros r w' [Hinv (root' & -> & Hin & Hout)]. split; [done|]. exists root'.
      split; [done|]. split.
      * intros e'' [[= <- ->]|Hin'']%elem_of_cons Hs''; [congruence|by apply Hin].
      * intros [_ Hni]%not_elem_of_cons. by apply Hout.
Qed.

(** *** Runs *)

Definition same_run (r r' : PipelineRun) : Prop :=
  r_ID r' = r_ID r ∧ r_PipelineName r' = r_PipelineName r ∧
  r_PipelineVersion r' = r_PipelineVersion r ∧ r_IdempotencyKey r' = r_IdempotencyKey r ∧
  r_Input r' = r_Input r ∧ r_CreatedAt r' = r_CreatedAt r.

(** The references to runs are exact: the key of every run that has one leads to it. *)
Definition run_ref (m : gmap UUID PipelineRun) (k : string) (id : UUID) : Prop :=
  ∃ r, m !! id = Some r ∧ r_IdempotencyKey r ≠ EmptyString ∧
    k = idempotent_key (r_PipelineName r) (r_IdempotencyKey r).

Definition exact_refs (m : gmap UUID PipelineRun) (refs : gmap string UUID) : Prop :=
  ∀ k id, refs !! k = Some id ↔ run_ref m k id.

Lemma exact_refs_update m refs id r r' :
  exact_refs m refs → m !! id = Some r → same_run r r' → exact_refs (<[id := r']> m) refs.
Proof.
  intros Hex Hr (_ & H2 & _ & H4 & _) k id'. rewrite (Hex k id'). unfold run_ref.
  destruct (decide (id = id')) as [<-|?]; [|by rewrite lookup_insert_ne].
  rewrite lookup_insert_eq, Hr. split; intros (? & [= <-] & ?); eexists; (split; [done|]).
  - by rewrite H2, H4.
  - by rewrite <-H2, <-H4.
Qed.

Lemma exact_refs_insert m refs id r :
  exact_refs m refs → m !! id = None →
  (r_IdempotencyKey r ≠ EmptyString →
     refs !! idempotent_key (r_PipelineName r) (r_IdempotencyKey r) = None) →
  exact_refs (<[id := r]> m)
    (if is_empty (r_IdempotencyKey r) then refs
     else <[idempotent_key (r_PipelineName r) (r_IdempotencyKey r) := id]> refs).
Proof.
  intros Hex Hfresh Hi k id'. unfold run_ref.
  assert ((∃ r0, <[id := r]> m !! id' = Some r0 ∧ r_IdempotencyKey r0 ≠ EmptyString ∧
      k = idempotent_key (r_PipelineName r0) (r_IdempotencyKey r0)) ↔
    (id' = id ∧ r_IdempotencyKey r ≠ EmptyString ∧
      k = idempotent_key (r_PipelineName r) (r_IdempotencyKey r)) ∨ run_ref m k id') as ->.
  { unfold run_ref. destruct (decide (id' = id)) as [->|Hne].
    - rewrite lookup_insert_eq, Hfresh. naive_solver.
    - rewrite lookup_insert_ne by done. naive_solver. }
  rewrite <-(Hex k id'). destruct (is_empty (r_IdempotencyKey r)) eqn:Hke.
  - apply is_empty_true in Hke. naive_solver.
  - apply is_empty_false in Hke. specialize (Hi Hke).
    destruct (decide (k = idempotent_key (r_PipelineName r) (r_IdempotencyKey r))) as [->|].
    + rewrite lookup_insert_eq, Hi. naive_solver.
    + rewrite lookup_insert_ne by done. naive_solver.
Qed.

Lemma exact_refs_delete m refs id r :
  exact_refs m refs → m !! id = Some r →
  exact_refs (delete id m)
    (if is_empty (r_IdempotencyKey r) then refs
     else delete (idempotent_key (r_PipelineName r) (r_IdempotencyKey r)) refs).
Proof.
  intros Hex Hid k id'.
  assert (run_ref (delete id m) k id' ↔ id' ≠ id ∧ refs !! k = Some id') as ->.
  { rewrite (Hex k id'). unfold run_ref. destruct (decide (id = id')) as [->|Hne].
    - rewrite lookup_delete_eq. naive_solver.
    - rewrite lookup_delete_ne by done. naive_solver. }
  assert (∀ k, refs !! k = Some id ↔ r_IdempotencyKey r ≠ EmptyString ∧
    k = idempotent_key (r_PipelineName r) (r_IdempotencyKey r)) as Hmine.
  { intros k'. rewrite (Hex k' id). unfold run_ref. rewrite Hid. naive_solver. }
  destruct (is_empty (r_IdempotencyKey r)) eqn:Hk.
  - apply is_empty_true in Hk. specialize (Hmine k). naive_solver.
  - apply is_empty_false in Hk.
    destruct (decide (k = idempotent_key (r_PipelineName r) (r_IdempotencyKey r))) as [->|Hne].
    + rewrite lookup_delete_eq. rewrite (proj2 (Hmine _)) by done. naive_solver.
    + rewrite lookup_delete_ne by done. specialize (Hmine k). naive_solver.
Qed.

Lemma Inv_put_run w n id r r' :
  Inv w → tick w ≤ n → m_runs (mem w) !! id = Some r → same_run r r' → RunOk r' →
  Inv (mkWorld (mem w <| m_runs := <[id := r']> (m_runs (mem w)) |>) n).
Proof.
  intros Hw Hn Hr Hsame Hok.
  assert (Inv (mkWorld (mem w) n)) as [].
  { destruct w as [s m]. by apply (Inv_tick s m). }
  simpl in *. split; simpl; try done.
  - intros id' r''. destruct (decide (id = id')) as [<-|?].
    + rewrite lookup_insert_eq. intros [= <-]. split; [|done].
      destruct Hsame as [-> _]. by apply inv_run0.
    + rewrite lookup_insert_ne by done. apply inv_run0.
  - by apply (exact_refs_update _ _ _ r).
  - intros id' [?|Hs]; apply inv_past0; [by left|right].
    destruct (decide (id = id')) as [<-|?]; [by rewrite Hr|]. by rewrite lookup_insert_ne in Hs.
Qed.

Lemma Inv_run_id w id r : Inv w → m_runs (mem w) !! id = Some r → r_ID r = id ∧ RunOk r.
Proof. intros Hw Hr. by apply (inv_run _ Hw). Qed.

(** The run a reopened pipeline is stored as. *)
Definition reopened_run (t : Time) (run : PipelineRun) : PipelineRun :=
  run <| r_Status := RunRunning |> <| r_Error := EmptyString |> <| r_FinishedAt := None |>
    <| r_UpdatedAt := t |> <| r_Revision := uint64 (r_Revision run + 1) |>.

Definition restart_post request (w : World) (r : error + Execution) (w' : World) : Prop :=
  Inv w' ∧
  match r with
  | inl e => mem w' = mem w
  | inr root => ∃ run id e t t',
      m_runs (mem w) !! rs_RunID request = Some run ∧
      m_executions (mem w) !! id = Some e ∧ is_root request e = true ∧
      root = cloneExecution (reset_item StatusPending t e) ∧
      (rs_AvailableAt request ≠ 0%Z → t = rs_AvailableAt request) ∧
      (∀ id' e', m_executions (mem w) !! id' = Some e' → in_subgraph request e' = true →
         is_active (e_Status e') = false) ∧
      (∀ id', m_executions (mem w') !! id' =
         restart_map request t <$> m_executions (mem w) !! id') ∧
      m_runs (mem w') = <[rs_RunID request := reopened_run t' run]> (m_runs (mem w))
  end.

Lemma is_root_in_subgraph request e : is_root request e = true → in_subgraph request e = true.
Proof. unfold is_root, in_subgraph. intros H. reflect_bool. by rewrite H, bool_decide_true. Qed.

Lemma is_root_status request e :
  is_root request e = true → restart_status request e = StatusPending.
Proof. unfold is_root, restart_status. intros H. reflect_bool. by rewrite bool_decide_true. Qed.

Lemma existsb_false {A} (P : A → bool) l : existsb P l = false → ∀ x, x ∈ l → P x = false.
Proof.
  intros H x Hx. apply not_true_iff_false. intros HP.
  assert (existsb P l = true); [|congruence].
  apply existsb_exists. exists x. split; [by apply list_elem_of_In|done].
Qed.

Lemma last_filter_Some {A} (P : A → bool) l x :
  last (List.filter P l) = Some x → x ∈ l ∧ P x = true.
Proof.
  intros Hx. apply last_Some_elem_of, list_elem_of_In, filter_In in Hx as [Hx ?].
  by apply list_elem_of_In in Hx.
Qed.

Lemma elem_of_entries2 l w e :
  all_entries l w → e ∈ l.*2 → ∃ id, m_executions (mem w) !! id = Some e ∧ (id, e) ∈ l.
Proof.
  intros Hl ([id e'] & -> & Hin)%list_elem_of_fmap. exists id. split; [|done].
  rewrite Hl in Hin. by apply elem_of_map_to_list in Hin.
Qed.

Lemma RestartPipelineSubgraph_wp `{!GoEnvOk} request w :
  Inv w → wp (RestartPipelineSubgraph request) (restart_post request w) w.
Proof.
  intros Hw. unfold RestartPipelineSubgraph. apply wp_bind, wp_gets. simpl.
  assert (∀ n, tick w ≤ n → Inv (mkWorld (mem w) n)) as Htick.
  { intros n Hn. destruct w as [s m]. by apply (Inv_tick s m). }
  destruct (m_runs (mem w) !! rs_RunID request) as [run|] eqn:Hrun; [|by apply wp_throw].
  apply wp_bind, wp_range. set (l := env_shuffle _ _ _).
  assert (all_entries l w) as Hall by apply env_shuffle_perm.
  destruct (existsb _ _) eqn:Hex; [apply wp_throw; split; [apply Htick; lia|done]|].
  destruct (last _) as [root|] eqn:Hlast; [|apply wp_throw; split; [apply Htick; lia|done]].
  apply last_filter_Some in Hlast as [Hin Hroot].
  destruct (elem_of_entries2 _ _ _ Hall Hin) as (id & He & _).
  apply wp_bind, wp_now. apply wp_bind, wp_range. simpl.
  set (t := if IsZero _ then _ else _). set (w1 := mkWorld (mem w) (S (S (S (tick w))))).
  set (l' := env_shuffle _ _ _). assert (all_entries l' w1) as Hall' by apply env_shuffle_perm.
  assert (∀ id' e', m_executions (mem w) !! id' = Some e' → in_subgraph request e' = true →
    is_active (e_Status e') = false) as Hact.
  { intros id' e' He' Hs. apply elem_of_map_to_list in He'. rewrite <-Hall in He'.
    apply (list_elem_of_fmap_2 snd) in He'. apply (existsb_false _ _ Hex) in He'. simpl in He'.
    by rewrite Hs in He'. }
  apply wp_bind. eapply wp_mono; [apply (restart_loop request t w1)|].
  { split_and!; [apply Htick; lia|exact (pending_entries_range _ w1)
                |by apply mapped_except_start|done|done|].
    intros id' e' Hin' Hs. apply (Hact id'); [|done]. rewrite Hall' in Hin'.
    by apply elem_of_map_to_list in Hin'. }
  intros r w' [(Hw' & _ & Hm & Hr & _) (root' & -> & Hr1 & _)].
  apply wp_bind, wp_modify, wp_ret. simpl. destruct (Inv_run_id _ _ _ Hw Hrun) as [Hrid Hrok].
  assert (root' = reset_item StatusPending t root) as ->.
  { rewrite (Hr1 root); [unfold restart_map|rewrite Hall', (Inv_id _ _ _ Hw He)|].
    - by rewrite (is_root_in_subgraph _ _ Hroot), (is_root_status _ _ Hroot).
    - by apply elem_of_map_to_list.
    - by apply is_root_in_subgraph. }
  split.
  - eapply (Inv_put_run w' _ _ run); [done|done|by rewrite Hr, Hrid|done|].
    split; [apply uint64_bounds|done].
  - exists run, id, root, t, (env_now (S (tick w))). split_and!; [done..| |exact Hact| |].
    + intros Hz. unfold t, IsZero. by rewrite (proj2 (Z.eqb_neq _ _) Hz).
    + intros id'. exact (mapped_except_end _ _ _ id' Hm).
    + rewrite Hr, Hrid. done.
Qed.

Lemma RestartPipelineSubgraph_inv `{!GoEnvOk} request : preserves (RestartPipelineSubgraph request).
Proof. intros w Hw. eapply wp_mono; [by apply RestartPipelineSubgraph_wp|]. by intros r w' [? _]. Qed.

Lemma Inv_insert_run `{!GoEnvOk} w k n r :
  Inv w → tick w ≤ k → k < n → r_ID r = env_uuid k → RunOk r →
  (r_IdempotencyKey r ≠ EmptyString →
     m_runIdempotent (mem w) !! idempotent_key (r_PipelineName r) (r_IdempotencyKey r) = None) →
  Inv (mkWorld (mem w <| m_runs := <[env_uuid k := r]> (m_runs (mem w)) |>
    <| m_runIdempotent := if is_empty (r_IdempotencyKey r) then m_runIdempotent (mem w)
         else <[idempotent_key (r_PipelineName r) (r_IdempotencyKey r) := env_uuid k]>
                (m_runIdempotent (mem w)) |>) n).
Proof.
  intros Hw Hk Hn Hid Hok Hi. destruct (Inv_fresh_id w k Hw Hk) as [_ Hfresh].
  assert (Inv (mkWorld (mem w) n)) as [].
  { destruct w as [s m]. apply (Inv_tick s m); simpl in *; [lia|done]. }
  simpl in *. split; simpl; try done.
  - intros id' r'. destruct (decide (env_uuid k = id')) as [<-|?].
    + rewrite lookup_insert_eq. by intros [= <-].
    + rewrite lookup_insert_ne by done. apply inv_run0.
  - by apply exact_refs_insert.
  - intros id'. destruct (decide (env_uuid k = id')) as [<-|?]; [by intros _; exists k|].
    rewrite lookup_insert_ne by done. apply inv_past0.
Qed.

(** The run a request creates at instant [t]. *)
Definition new_run (request : CreatePipelineRunRequest) (id : UUID) (t : Time) : PipelineRun :=
  mkPipelineRun id (cr_PipelineName request) (cr_PipelineVersion request)
    (cloneJSON (cr_Input request)) RunPending EmptyString (cr_IdempotencyKey request) 0 t t None.

Definition find_existing_run (s : MemoryStore) (request : CreatePipelineRunRequest)
    : option UUID :=
  if is_empty (cr_IdempotencyKey request) then None
  else m_runIdempotent s !! idempotent_key (cr_PipelineName request) (cr_IdempotencyKey request).

Lemma CreatePipelineRun_run request w :
  CreatePipelineRun request w =
    match find_existing_run (mem w) request with
    | Some id => (inr (cloneRun (default (mkPipelineRun uuid_Nil EmptyString 0 None RunPending
                   EmptyString EmptyString 0 0 0 None) (m_runs (mem w) !! id))), w)
    | None =>
        let r := new_run request (env_uuid (S (tick w))) (env_now (tick w)) in
        (inr (cloneRun r),
         mkWorld (mem w <| m_runs := <[env_uuid (S (tick w)) := r]> (m_runs (mem w)) |>
           <| m_runIdempotent := if is_empty (r_IdempotencyKey r) then m_runIdempotent (mem w)
                else <[idempotent_key (r_PipelineName r) (r_IdempotencyKey r) :=
                         env_uuid (S (tick w))]> (m_runIdempotent (mem w)) |>)
           (S (S (tick w))))
    end.
Proof.
  unfold CreatePipelineRun, mbind, M_bind, gets, find_existing_run. simpl.
  destruct (is_empty (cr_IdempotencyKey request)) eqn:Hk; [done|].
  destruct (m_runIdempotent (mem w) !! _) eqn:Hr; done.
Qed.

Lemma CreatePipelineRun_inv `{!GoEnvOk} request : preserves (CreatePipelineRun request).
Proof.
  intros w Hw. unfold wp. rewrite CreatePipelineRun_run.
  destruct (find_existing_run (mem w) request) eqn:Hf; [done|]. simpl.
  apply (Inv_insert_run w (S (tick w)) _ (new_run request (env_uuid (S (tick w))) (env_now (tick w))));
    simpl; try done; try lia.
  intros Hk%is_empty_false. unfold find_existing_run in Hf. by rewrite Hk in Hf.
Qed.

(** The run a status change stores. *)
Definition updated_run (t : Time) (status : RunStatus) (text : string) (run : PipelineRun)
    : PipelineRun :=
  let run := run <| r_Status := status |> <| r_Error := text |> <| r_UpdatedAt := t |>
    <| r_Revision := uint64 (r_Revision run + 1) |> in
  if is_run_terminal status then run <| r_FinishedAt := Some t |> else run.

Lemma SetPipelineRunStatus_run id revision status text w :
  SetPipelineRunStatus id revision status text w =
    match m_runs (mem w) !! id with
    | None => (inl (ErrNotFound : error), w)
    | Some run =>
        if (r_Revision run =? revision)%Z
        then (inr tt, mkWorld (mem w <| m_runs :=
               <[id := updated_run (env_now (tick w)) status text run]> (m_runs (mem w)) |>)
               (S (tick w)))
        else (inl (ErrConflict : error), w)
    end.
Proof.
  unfold SetPipelineRunStatus, mbind, M_bind, gets. simpl.
  destruct (m_runs (mem w) !! id) as [run|]; [|done].
  by destruct (r_Revision run =? revision)%Z.
Qed.

Lemma updated_run_same t status text run : same_run run (updated_run t status text run).
Proof. unfold updated_run. by destruct (is_run_terminal status). Qed.

Lemma SetPipelineRunStatus_inv id revision status text :
  preserves (SetPipelineRunStatus id revision status text).
Proof.
  intros w Hw. unfold wp. rewrite SetPipelineRunStatus_run.
  destruct (m_runs (mem w) !! id) as [run|] eqn:Hr; [|done].
  destruct (r_Revision run =? revision)%Z; [|done]. simpl.
  eapply Inv_put_run; [done|lia|done|apply updated_run_same|].
  destruct (Inv_run_id _ _ _ Hw Hr) as [_ [_ Hfin]].
  unfold updated_run. destruct (is_run_terminal status) eqn:Ht; split; simpl;
    first [apply uint64_bounds|by eauto|congruence].
Qed.

(** *** Reads *)

(** An operation that only reads: it may query the environment, the store does not change. *)
Definition read_only {A} (m : M World A) : Prop :=
  ∀ w, mem (m w).2 = mem w ∧ tick w ≤ tick (m w).2.

Lemma read_only_inv {A} (m : M World A) : read_only m → preserves m.
Proof.
  intros Hm w Hw. destruct (Hm w) as [Hmem Htick]. unfold wp. destruct (m w) as [r [s n]].
  simpl in *. subst s. destruct w as [s m']. by apply (Inv_tick s m').
Qed.

Lemma GetExecution_read id : read_only (GetExecution id).
Proof. intros w. unfold GetExecution, mbind, M_bind; simpl. by destruct (_ !! _). Qed.
Lemma GetPipelineRun_read id : read_only (GetPipelineRun id).
Proof. intros w. unfold GetPipelineRun, mbind, M_bind; simpl. by destruct (_ !! _). Qed.
Lemma Events_read id : read_only (Events id).
Proof. intros w. unfold Events, mbind, M_bind; simpl. by destruct (_ !! _). Qed.
Lemma ListExecutions_read filter : read_only (ListExecutions filter).
Proof. intros w. split; simpl; [done|lia]. Qed.
Lemma ListRunExecutions_read runID : read_only (ListRunExecutions runID).
Proof. intros w. split; simpl; [done|lia]. Qed.
Lemma ListPipelineRuns_read filter : read_only (ListPipelineRuns filter).
Proof. intros w. split; simpl; [done|lia]. Qed.
Lemma ExecutionCounts_read : read_only ExecutionCounts.
Proof. intros w. split; simpl; [done|lia]. Qed.
Lemma PipelineCounts_read : read_only PipelineCounts.
Proof. intros w. split; simpl; [done|lia]. Qed.

(** *** Purge *)

(** A node key determines the run and the node. *)
Lemma node_key_inj `{!GoEnvOk} r r' n n' : node_key r n = node_key r' n' → r = r' ∧ n = n'.
Proof.
  unfold node_key. intros Heq.
  apply (app_sep_inj Ascii.zero) in Heq as [Hr Hn]; [|apply uuid_String_no_NUL..].
  split; [by apply (inj uuid_String)|done].
Qed.

(** An idempotency key determines the task when task names have no NUL byte. *)
Lemma idempotent_key_inj a a' k k' :
  no_byte Ascii.zero a → no_byte Ascii.zero a' →
  idempotent_key a k = idempotent_key a' k' → a = a' ∧ k = k'.
Proof. intros Ha Ha' Heq. by apply (app_sep_inj Ascii.zero) in Heq. Qed.

Lemma deleteExecution_executions id item s :
  m_executions (deleteExecution id item s) = delete id (m_executions s) ∧
  m_events (deleteExecution id item s) = delete id (m_events s) ∧
  m_runs (deleteExecution id item s) = m_runs s ∧
  m_runIdempotent (deleteExecution id item s) = m_runIdempotent s.
Proof.
  unfold deleteExecution. by destruct (is_empty _), (e_PipelineRunID item).
Qed.

Lemma deleteExecution_idem id item s k id' :
  m_executions s !! id = Some item →
  (∀ k id', m_idempotent s !! k = Some id' ↔ idem_entry s k id') →
  m_idempotent (deleteExecution id item s) !! k = Some id' ↔
  idem_entry (deleteExecution id item s) k id'.
Proof.
  intros Hid Hinv.
  assert (idem_entry (deleteExecution id item s) k id' ↔ id' ≠ id ∧ m_idempotent s !! k = Some id')
    as ->.
  { rewrite Hinv. unfold idem_entry.
    destruct (deleteExecution_executions id item s) as [-> _].
    destruct (decide (id = id')) as [->|Hne].
    - rewrite lookup_delete_eq. naive_solver.
    - rewrite lookup_delete_ne by done. naive_solver. }
  assert (∀ k, m_idempotent s !! k = Some id ↔ e_IdempotencyKey item ≠ EmptyString ∧
    k = idempotent_key (e_TaskName item) (e_IdempotencyKey item)) as Hmine.
  { intros k'. rewrite Hinv. unfold idem_entry. rewrite Hid. naive_solver. }
  assert (m_idempotent (deleteExecution id item s) =
    if is_empty (e_IdempotencyKey item) then m_idempotent s
    else delete (idempotent_key (e_TaskName item) (e_IdempotencyKey item)) (m_idempotent s)) as ->.
  { unfold deleteExecution. by destruct (is_empty _), (e_PipelineRunID item). }
  destruct (is_empty (e_IdempotencyKey item)) eqn:Hk.
  - apply is_empty_true in Hk. specialize (Hmine k). naive_solver.
  - apply is_empty_false in Hk.
    destruct (decide (k = idempotent_key (e_TaskName item) (e_IdempotencyKey item))) as [->|Hne].
    + rewrite lookup_delete_eq. rewrite (proj2 (Hmine _)) by done. naive_solver.
    + rewrite lookup_delete_ne by done. specialize (Hmine k). naive_solver.
Qed.

Lemma deleteExecution_node `{!GoEnvOk} id item s k id' :
  m_executions s !! id = Some item →
  (∀ k id', m_nodes s !! k = Some id' ↔ node_entry s k id') →
  m_nodes (deleteExecution id item s) !! k = Some id' ↔
  node_entry (deleteExecution id item s) k id'.
Proof.
  intros Hid Hinv.
  assert (node_entry (deleteExecution id item s) k id' ↔ id' ≠ id ∧ m_nodes s !! k = Some id')
    as ->.
  { rewrite Hinv. unfold node_entry.
    destruct (deleteExecution_executions id item s) as [-> _].
    destruct (decide (id = id')) as [->|Hne].
    - rewrite lookup_delete_eq. naive_solver.
    - rewrite lookup_delete_ne by done. naive_solver. }
  assert (∀ k, m_nodes s !! k = Some id ↔ ∃ r, e_PipelineRunID item = Some r ∧
    e_NodeKey item ≠ EmptyString ∧ k = node_key r (e_NodeKey item)) as Hmine.
  { intros k'. rewrite Hinv. unfold node_entry. rewrite Hid. naive_solver. }
  assert (m_nodes (deleteExecution id item s) =
    match e_PipelineRunID item with
    | Some r => delete (node_key r (e_NodeKey item)) (m_nodes s) | None => m_nodes s end) as ->.
  { unfold deleteExecution. by destruct (is_empty _), (e_PipelineRunID item). }
  destruct (e_PipelineRunID item) as [r|] eqn:Hr.
  - destruct (decide (k = node_key r (e_NodeKey item))) as [->|Hne].
    + rewrite lookup_delete_eq. split; [done|]. intros [Hne Hs]. exfalso.
      apply Hinv in Hs as Hent. destruct Hent as (e' & r' & He' & Hr' & Hn' & Hkey).
      apply node_key_inj in Hkey as [<- Hnk].
      assert (m_nodes s !! node_key r (e_NodeKey item) = Some id) as Hid'.
      { apply Hmine. exists r. by rewrite Hnk. }
      congruence.
    + rewrite lookup_delete_ne by done. specialize (Hmine k). naive_solver.
  - specialize (Hmine k). naive_solver.
Qed.

Lemma Inv_delete `{!GoEnvOk} w id item :
  Inv w → m_executions (mem w) !! id = Some item →
  Inv (mkWorld (deleteExecution id item (mem w)) (tick w)).
Proof.
  intros [] Hid. destruct (deleteExecution_executions id item (mem w)) as (H1 & H2 & H3 & H4).
  split; simpl.
  - intros id' e. rewrite H1. intros [_ He]%lookup_delete_Some. by apply inv_exec0.
  - intros k id'. by apply deleteExecution_idem.
  - intros k id'. by apply deleteExecution_node.
  - intros id' e. unfold log_ok. rewrite H1, H2. intros [Hne He]%lookup_delete_Some.
    rewrite lookup_delete_ne by done. by apply inv_log0.
  - intros id'. rewrite H1, H2. rewrite !lookup_delete_None. intros [?|?]; auto.
  - by rewrite H3.
  - unfold run_entry. by rewrite H3, H4.
  - rewrite H1, H3. intros id' [[? [_ ?]%lookup_delete_Some]|?]; apply inv_past0; eauto.
Qed.

(** Deleting the zero value of a missing execution changes nothing that is stored. *)
Lemma Inv_delete_missing w id :
  Inv w → m_executions (mem w) !! id = None →
  deleteExecution id zeroExecution (mem w) = mem w.
Proof.
  intros Hw Hid. unfold deleteExecution; simpl.
  rewrite (delete_id (m_executions (mem w))) by done.
  rewrite (delete_id (m_events (mem w))) by by apply (inv_no_log _ Hw).
  by destruct (mem w).
Qed.

Lemma Inv_delete_default `{!GoEnvOk} w id :
  Inv w →
  Inv (mkWorld (deleteExecution id (default zeroExecution (m_executions (mem w) !! id)) (mem w))
         (tick w)).
Proof.
  intros Hw. destruct (m_executions (mem w) !! id) as [item|] eqn:Hid; simpl.
  - by apply Inv_delete.
  - rewrite Inv_delete_missing by done. by destruct w.
Qed.

Lemma pending_entries_delete l w id item :
  pending_entries l w → id ∉ l.*1 →
  pending_entries l (mkWorld (deleteExecution id item (mem w)) (tick w)).
Proof.
  intros Hl Hid. eapply pending_entries_change; [done|]. intros id' Hin. simpl.
  destruct (deleteExecution_executions id item (mem w)) as [-> _].
  rewrite lookup_delete_ne; [done|]. by intros ->.
Qed.

Lemma size_delete_Some {A} (m : gmap UUID A) i : is_Some (m !! i) → size m = size (delete i m) + 1.
Proof.
  intros [x Hx]. rewrite <-(insert_delete_id _ _ _ Hx) at 1.
  rewrite map_size_insert, lookup_delete_eq. lia.
Qed.

Definition delete_post (runID : UUID) (l : list (UUID * Execution)) (result : PurgeResult)
    (w : World) (r : error + PurgeResult) (w' : World) : Prop :=
  Inv w' ∧ m_runs (mem w') = m_runs (mem w) ∧
  m_runIdempotent (mem w') = m_runIdempotent (mem w) ∧
  (∃ n, r = inr (result <| pr_Executions := (pr_Executions result + Z.of_nat n)%Z |>) ∧
     size (m_executions (mem w)) = size (m_executions (mem w')) + n) ∧
  ∀ id, m_executions (mem w') !! id =
    e ← m_executions (mem w) !! id;
    if bool_decide (id ∈ l.*1) && of_run runID e then None else Some e.

Lemma delete_entries_wp `{!GoEnvOk} runID l result w :
  Inv w → pending_entries l w →
  wp (delete_entries runID l result) (delete_post runID l result w) w.
Proof.
  revert result w. induction l as [|[id e] l IH]; intros result w Hw Hl; simpl.
  { apply wp_ret. split_and!; try done.
    - exists 0. split; [|lia]. destruct result; simpl. by rewrite Z.add_0_r.
    - intros id'. simpl. by destruct (m_executions (mem w) !! id'). }
  apply pending_entries_cons in Hl as (He & Hid & Hl).
  destruct (of_run runID e) eqn:Ho.
  - apply wp_bind, wp_modify. simpl.
    destruct (deleteExecution_executions id e (mem w)) as (H1 & _ & H3 & H4).
    eapply wp_mono; [apply IH|].
    { by apply Inv_delete. } { by apply pending_entries_delete. }
    intros r w' (Hw' & Hr & Hri & (n & -> & Hn) & Hget). simpl in *.
    split_and!; [done|congruence|congruence| |].
    + exists (S n). split.
      * by replace (pr_Executions result + Z.of_nat (S n))%Z
          with (pr_Executions result + 1 + Z.of_nat n)%Z by lia.
      * rewrite H1 in Hn. rewrite (size_delete_Some _ id) by (by rewrite He). lia.
    + intros id'. rewrite Hget, H1. destruct (decide (id = id')) as [<-|Hne].
      * rewrite lookup_delete_eq, He. simpl. rewrite bool_decide_true by left. by rewrite Ho.
      * rewrite lookup_delete_ne by done. destruct (m_executions (mem w) !! id'); simpl; [|done].
        assert (bool_decide (id' ∈ l.*1) = bool_decide (id' ∈ id :: l.*1)) as Hb
          by (apply bool_decide_ext; rewrite elem_of_cons; naive_solver).
        by rewrite Hb.
  - eapply wp_mono; [by apply IH|]. intros r w' (Hw' & Hr & Hri & Hn & Hget).
    split_and!; try done. intros id'. rewrite Hget.
    destruct (m_executions (mem w) !! id') as [e'|] eqn:He'; simpl; [|done].
    destruct (decide (id' = id)) as [->|Hne].
    + rewrite He in He'. injection He' as <-. rewrite Ho, !andb_false_r. done.
    + assert (bool_decide (id' ∈ l.*1) = bool_decide (id' ∈ id :: l.*1)) as Hb
        by (apply bool_decide_ext; rewrite elem_of_cons; naive_solver).
      by rewrite Hb.
Qed.

(** The candidates that remove an execution, a run. *)
Definition purges (c : candidate) (id : UUID) (e : Execution) : bool :=
  if p_pipeline c then of_run (p_id c) e else bool_decide (p_id c = id).
Definition purges_run (c : candidate) (id : UUID) : bool :=
  p_pipeline c && bool_decide (p_id c = id).

(** A candidate of a purge: a stored run, or a stored standalone execution. *)
Definition candidate_ok (w : World) (c : candidate) : Prop :=
  if p_pipeline c then is_Some (m_runs (mem w) !! p_id c)
  else ∃ e, m_executions (mem w) !! p_id c = Some e ∧ e_PipelineRunID e = None.

Definition purge_post (l : list candidate) (result : PurgeResult) (w : World)
    (r : error + PurgeResult) (w' : World) : Prop :=
  Inv w' ∧
  (∃ n m, r = inr (mkPurgeResult (pr_Executions result + Z.of_nat n)
                                 (pr_PipelineRuns result + Z.of_nat m)) ∧
     size (m_executions (mem w)) = size (m_executions (mem w')) + n ∧
     size (m_runs (mem w)) = size (m_runs (mem w')) + m) ∧
  (∀ id, m_executions (mem w') !! id =
     e ← m_executions (mem w) !! id; if existsb (λ c, purges c id e) l then None else Some e) ∧
  (∀ id, m_runs (mem w') !! id =
     r ← m_runs (mem w) !! id; if existsb (λ c, purges_run c id) l then None else Some r).

Lemma Inv_delete_run w n id r :
  Inv w → tick w ≤ n → m_runs (mem w) !! id = Some r →
  Inv (mkWorld (mem w <| m_runs := delete id (m_runs (mem w)) |>
    <| m_runIdempotent := if is_empty (r_IdempotencyKey r) then m_runIdempotent (mem w)
         else delete (idempotent_key (r_PipelineName r) (r_IdempotencyKey r))
                (m_runIdempotent (mem w)) |>) n).
Proof.
  intros Hw Hn Hid. assert (Inv (mkWorld (mem w) n)) as [].
  { destruct w as [s m]. by apply (Inv_tick s m). }
  simpl in *. split; simpl; try done.
  - intros id' r'. intros [_ Hr]%lookup_delete_Some. by apply inv_run0.
  - by apply exact_refs_delete.
  - intros id' [?|[? [_ ?]%lookup_delete_Some]]; apply inv_past0; eauto.
Qed.


Lemma purge_run_wp `{!GoEnvOk} c result w :
  Inv w → p_pipeline c = true → is_Some (m_runs (mem w) !! p_id c) →
  wp (purge_candidate result c) (purge_post [c] result w) w.
Proof.
  intros Hw Hp [run Hrun]. unfold purge_candidate. apply wp_bind, wp_gets.
  rewrite Hp, Hrun. simpl. apply wp_bind, wp_range.
  set (w1 := mkWorld (mem w) (S (tick w))).
  assert (Inv w1) as Hw1. { destruct w as [s n]. apply (Inv_tick s n); [simpl; lia|done]. }
  set (l := env_shuffle _ _ _). assert (all_entries l w1) as Hall by apply env_shuffle_perm.
  apply wp_bind. eapply wp_mono; [apply delete_entries_wp|].
  { done. } { exact (pending_entries_range _ w1). }
  intros r w2 (Hw2 & Hr & Hri & (n & -> & Hn) & Hget).
  apply wp_bind, wp_modify. simpl. assert (m_runs (mem w2) !! p_id c = Some run) as Hrun2
    by by rewrite Hr.
  pose proof (Inv_delete_run w2 (tick w2) _ _ Hw2 ltac:(done) Hrun2) as Hinv.
  apply wp_bind. eapply (wp_mono _ (λ r w', r = inr tt ∧ Inv w' ∧
    m_executions (mem w') = m_executions (mem w2) ∧
    m_runs (mem w') = delete (p_id c) (m_runs (mem w2)))).
  { apply wp_when; intros Hk; [apply wp_modify|];
      (split_and!; [done| |done|done]); simpl; destruct (is_empty (r_IdempotencyKey run)) eqn:Hk';
      try done; exact Hinv. }
  intros r w3 (-> & Hw3 & Hx & Hruns). apply wp_ret. split_and!.
  - done.
  - exists n, 1. split; [done|]. split.
    + rewrite Hx. exact Hn.
    + rewrite Hruns, Hr. apply size_delete_Some. by exists run.
  - intros id. rewrite Hx, Hget. change (mem w1) with (mem w).
    destruct (m_executions (mem w) !! id) as [e|] eqn:He; simpl; [|done].
    unfold purges. rewrite Hp, orb_false_r, bool_decide_true; [done|].
    rewrite Hall. apply elem_of_map_to_list in He. by apply (list_elem_of_fmap_2 fst) in He.
  - intros id. rewrite Hruns, Hr. change (mem w1) with (mem w). simpl.
    unfold purges_run. rewrite Hp, orb_false_r. simpl.
    destruct (decide (p_id c = id)) as [->|Hne].
    + rewrite lookup_delete_eq, bool_decide_true by done. by destruct (m_runs (mem w) !! id).
    + rewrite lookup_delete_ne, bool_decide_false by done. by destruct (m_runs (mem w) !! id).
Qed.

Lemma purge_standalone_wp `{!GoEnvOk} c result w e :
  Inv w → p_pipeline c = false → m_executions (mem w) !! p_id c = Some e →
  wp (purge_candidate result c) (purge_post [c] result w) w.
Proof.
  intros Hw Hp He. unfold purge_candidate. apply wp_bind, wp_gets.
  rewrite Hp, He. simpl. apply wp_bind, wp_modify, wp_ret. simpl.
  destruct (deleteExecution_executions (p_id c) e (mem w)) as (H1 & _ & H3 & _).
  split_and!; simpl.
  - by apply Inv_delete.
  - exists 1, 0. rewrite H1, H3. split; [by rewrite Z.add_0_r|]. split; [|lia].
    apply size_delete_Some. by rewrite He.
  - intros id. rewrite H1. unfold purges. rewrite Hp, orb_false_r.
    destruct (decide (p_id c = id)) as [<-|Hne].
    + rewrite lookup_delete_eq, He. simpl. by rewrite bool_decide_true.
    + rewrite lookup_delete_ne, bool_decide_false by done. by destruct (m_executions (mem w) !! id).
  - intros id. rewrite H3. unfold purges_run. rewrite Hp. simpl.
    by destruct (m_runs (mem w) !! id).
Qed.

Lemma purge_candidate_wp `{!GoEnvOk} c result w :
  Inv w → candidate_ok w c → wp (purge_candidate result c) (purge_post [c] result w) w.
Proof.
  unfold candidate_ok. intros Hw Hc. destruct (p_pipeline c) eqn:Hp; [by apply purge_run_wp|].
  destruct Hc as (e & He & _). by eapply purge_standalone_wp.
Qed.

(** The kind and the identifier of a candidate. *)
Definition candidate_key (c : candidate) : bool * UUID := (p_pipeline c, p_id c).

(** Purging one candidate leaves the others in place. *)
Lemma candidate_ok_purged c c' result w r w' :
  purge_post [c] result w r w' → candidate_key c ≠ candidate_key c' →
  candidate_ok w c' → candidate_ok w' c'.
Proof.
  unfold candidate_ok, candidate_key. intros (_ & _ & Hx & Hr) Hne.
  destruct (p_pipeline c') eqn:Hp'.
  - intros [r' Hr']. rewrite Hr, Hr'. simpl. unfold purges_run. rewrite orb_false_r.
    destruct (p_pipeline c); simpl; [|by eexists].
    rewrite bool_decide_false; [by eexists|]. intros Heq. apply Hne. by rewrite Heq.
  - intros (e & He & Hnone). exists e. split; [|done]. rewrite Hx, He. simpl.
    unfold purges. rewrite orb_false_r. destruct (p_pipeline c).
    + unfold of_run. by rewrite Hnone.
    + rewrite bool_decide_false; [done|]. intros Heq. apply Hne. by rewrite Heq.
Qed.

Lemma purge_candidates_wp `{!GoEnvOk} l result w :
  Inv w → NoDup (candidate_key <$> l) → Forall (candidate_ok w) l →
  wp (purge_candidates result l) (purge_post l result w) w.
Proof.
  revert result w. induction l as [|c l IH]; intros result w Hw Hnd Hok; simpl.
  { apply wp_ret. split_and!; [done| | |].
    - exists 0, 0. split; [|lia]. destruct result; simpl. by rewrite !Z.add_0_r.
    - intros id. by destruct (m_executions (mem w) !! id).
    - intros id. by destruct (m_runs (mem w) !! id). }
  apply NoDup_cons in Hnd as [Hni Hnd]. apply Forall_cons in Hok as [Hc Hok].
  apply wp_bind. eapply wp_mono; [by apply purge_candidate_wp|]. simpl. intros r w1 Hpost.
  assert (Forall (candidate_ok w1) l) as Hok1.
  { apply Forall_forall. intros c' Hin. rewrite Forall_forall in Hok.
    eapply candidate_ok_purged; [exact Hpost| |by apply Hok].
    intros Heq. apply Hni. rewrite Heq. by apply list_elem_of_fmap_2. }
  destruct Hpost as (Hw1 & (n & m & -> & Hn & Hm) & Hx & Hr).
  eapply wp_mono; [by apply IH|]. intros r w2 (Hw2 & (n' & m' & -> & Hn' & Hm') & Hx' & Hr').
  split_and!; [done| | |].
  - exists (n + n'), (m + m'). split; [|lia]. simpl. rewrite !Nat2Z.inj_add, !Z.add_assoc. done.
  - intros id. rewrite Hx', Hx. destruct (m_executions (mem w) !! id) as [e|]; simpl; [|done].
    rewrite orb_false_r. by destruct (purges c id e).
  - intros id. rewrite Hr', Hr. destruct (m_runs (mem w) !! id) as [r|]; simpl; [|done].
    rewrite orb_false_r. by destruct (purges_run c id).
Qed.

(** What makes a run or a standalone execution a candidate. *)
Definition candidate_due (before : Time) (w : World) (c : candidate) : Prop :=
  (p_finished c < before)%Z ∧
  if p_pipeline c then ∃ r, m_runs (mem w) !! p_id c = Some r ∧ r_FinishedAt r = Some (p_finished c)
  else ∃ e, m_executions (mem w) !! p_id c = Some e ∧ e_PipelineRunID e = None ∧
         e_FinishedAt e = Some (p_finished c).

Lemma candidate_due_ok before w c : candidate_due before w c → candidate_ok w c.
Proof. unfold candidate_due, candidate_ok. destruct (p_pipeline c); naive_solver. Qed.

Lemma finished_before_Some finished before t :
  finished_before finished before = Some t ↔ finished = Some t ∧ (t < before)%Z.
Proof.
  unfold finished_before, Before. destruct finished as [u|]; [|naive_solver].
  destruct (Z.ltb_spec u before); naive_solver lia.
Qed.

Lemma run_candidate_Some before entry c :
  run_candidate before entry = Some c ↔
  c = mkCandidate entry.1 (p_finished c) true ∧ r_FinishedAt entry.2 = Some (p_finished c) ∧
  (p_finished c < before)%Z.
Proof.
  unfold run_candidate. rewrite bind_Some. setoid_rewrite finished_before_Some. split.
  - by intros (t & [Ht Hlt] & [= <-]).
  - intros (-> & Ht & Hlt). eauto.
Qed.

Lemma execution_candidate_Some before entry c :
  execution_candidate before entry = Some c ↔
  c = mkCandidate entry.1 (p_finished c) false ∧ e_PipelineRunID entry.2 = None ∧
  e_FinishedAt entry.2 = Some (p_finished c) ∧ (p_finished c < before)%Z.
Proof.
  unfold execution_candidate. destruct (e_PipelineRunID entry.2); [naive_solver|].
  rewrite bind_Some. setoid_rewrite finished_before_Some. split.
  - by intros (t & [Ht Hlt] & [= <-]).
  - intros (-> & _ & Ht & Hlt). eauto.
Qed.

(** Collecting at most one candidate per entry keeps the keys distinct. *)
Lemma NoDup_candidate_keys {V} (f : UUID * V → option candidate) b l :
  (∀ entry c, f entry = Some c → candidate_key c = (b, entry.1)) →
  NoDup l.*1 → NoDup (candidate_key <$> omap f l).
Proof.
  intros Hf. induction l as [|entry l IH]; simpl; [constructor|]. intros [Hni Hnd]%NoDup_cons.
  destruct (f entry) as [c|] eqn:Hc; simpl; [|by apply IH]. constructor; [|by apply IH].
  intros (c' & Hk & Hin)%list_elem_of_fmap. apply list_elem_of_omap in Hin as (entry' & Hin & Hc').
  apply Hni. apply Hf in Hc, Hc'. rewrite Hc, Hc' in Hk. injection Hk as Hk.
  apply list_elem_of_fmap. by exists entry'.
Qed.

Definition purge_candidates_of (before : Time) (w : World) : list candidate :=
  env_shuffle (S (S (tick w))) _
    (omap (run_candidate before) (env_shuffle (tick w) _ (map_to_list (m_runs (mem w)))) ++
     omap (execution_candidate before)
       (env_shuffle (S (tick w)) _ (map_to_list (m_executions (mem w))))).

Definition candidate_less (a b : candidate) : bool := Before (p_finished a) (p_finished b).

(** The candidates a call of [Purge] selects. *)
Definition purge_selection (before : Time) (limit : Z) (w : World) : list candidate :=
  limit_slice (if (limit <=? 0)%Z then 1000%Z else limit)
    (sort_Slice candidate_less (purge_candidates_of before w)).

Lemma purge_candidates_of_due `{!GoEnvOk} before w c :
  c ∈ purge_candidates_of before w ↔ candidate_due before w c.
Proof.
  unfold purge_candidates_of, candidate_due. rewrite env_shuffle_perm, elem_of_app.
  rewrite !list_elem_of_omap.
  setoid_rewrite run_candidate_Some. setoid_rewrite execution_candidate_Some.
  setoid_rewrite env_shuffle_perm. split.
  - intros [([id r] & Hin & -> & ? & ?)|([id e] & Hin & -> & ? & ? & ?)]; simpl in *;
      apply elem_of_map_to_list in Hin; eauto.
  - destruct c as [id t []]; simpl.
    + intros (? & r & Hr & ?). left. exists (id, r). by rewrite elem_of_map_to_list.
    + intros (? & e & He & ? & ?). right. exists (id, e). by rewrite elem_of_map_to_list.
Qed.

Lemma purge_candidates_of_NoDup `{!GoEnvOk} before w :
  NoDup (candidate_key <$> purge_candidates_of before w).
Proof.
  unfold purge_candidates_of. rewrite env_shuffle_perm, fmap_app. apply NoDup_app. split_and!.
  - eapply (NoDup_candidate_keys _ true); [|rewrite env_shuffle_perm; apply NoDup_fst_map_to_list].
    by intros entry c (-> & _)%run_candidate_Some.
  - intros k (c & -> & Hc)%list_elem_of_fmap (c' & Hk & Hc')%list_elem_of_fmap.
    apply list_elem_of_omap in Hc as (x & _ & (Hc & _)%run_candidate_Some).
    apply list_elem_of_omap in Hc' as (x' & _ & (Hc' & _)%execution_candidate_Some).
    by rewrite Hc, Hc' in Hk.
  - eapply (NoDup_candidate_keys _ false); [|rewrite env_shuffle_perm; apply NoDup_fst_map_to_list].
    by intros entry c (-> & _)%execution_candidate_Some.
Qed.

Lemma purge_selection_ok `{!GoEnvOk} before limit w :
  NoDup (candidate_key <$> purge_selection before limit w) ∧
  Forall (candidate_due before w) (purge_selection before limit w).
Proof.
  unfold purge_selection. set (l := sort_Slice _ _). set (n := if (limit <=? 0)%Z then _ else _).
  destruct (limit_slice_prefix n l) as [k Hk]. split.
  - assert (NoDup (candidate_key <$> l)) as Hnd.
    { unfold l. rewrite sort_Slice_perm. apply purge_candidates_of_NoDup. }
    rewrite Hk, fmap_app in Hnd. by apply NoDup_app in Hnd as [? _].
  - apply Forall_forall. intros c Hc. apply purge_candidates_of_due.
    rewrite <-(elem_of_sort_Slice candidate_less). fold l. rewrite Hk. apply elem_of_app. by left.
Qed.

Lemma Purge_wp `{!GoEnvOk} before limit w :
  Inv w →
  wp (Purge before limit)
    (purge_post (purge_selection before limit w) (mkPurgeResult 0 0)
       (mkWorld (mem w) (S (S (S (tick w)))))) w.
Proof.
  intros Hw. unfold Purge. apply wp_bind, wp_gets, wp_bind, wp_range, wp_bind, wp_range.
  apply wp_bind, wp_range. simpl. destruct (purge_selection_ok before limit w) as [Hnd Hok].
  apply purge_candidates_wp.
  - destruct w as [s n]. apply (Inv_tick s n); [simpl; lia|done].
  - exact Hnd.
  - eapply Forall_impl; [exact Hok|]. intros c Hc. by apply candidate_due_ok in Hc.
Qed.

Lemma Purge_inv `{!GoEnvOk} before limit : preserves (Purge before limit).
Proof. intros w Hw. eapply wp_mono; [by apply Purge_wp|]. by intros r w' [? _]. Qed.
End Invariant.
