(* ===== verification/StoreSpec.v ===== *)
(** * The changes a store makes to one execution

    What every operation on one execution does, as a function of the stored execution: an error, or the
    execution it becomes and the event it records.  The stores of the program implement these changes,
    the in-memory one under its mutex, the Redis one in a transaction. *)

From S2P Require Import Prelude GoLib Model Memory MemoryInv.

Record Change := mkChange { ch_item : Execution; ch_event : option (EventType * string) }.

Definition owns (token : UUID) (e : Execution) : bool :=
  bool_decide (e_Status e = StatusRunning) && negb (bool_decide (token = uuid_Nil))
  && bool_decide (e_LeaseToken e = token).

Definition guarded (token : UUID) (e : Execution) (ch : Change) : error + Change :=
  if owns token e then inr ch else inl (ErrLeaseLost : error).

Definition heartbeat_change (token : UUID) (lease : Duration) (t : Time) (e : Execution) : error + Change :=
  guarded token e (mkChange (e <| e_LeaseUntil := Add t lease |>) None).

Definition succeed_change (token : UUID) (output : RawMessage) (t : Time) (e : Execution)
    : error + Change :=
  guarded token e (mkChange (clear_lease (e <| e_Status := StatusSucceeded |>
    <| e_Output := cloneJSON output |> <| e_FinishedAt := Some t |>)) (Some (EventSucceeded, EmptyString))).

Definition fail_change (token : UUID) (text : string) (t : Time) (e : Execution) : error + Change :=
  guarded token e (mkChange (clear_lease (e <| e_Status := StatusFailed |> <| e_LastError := text |>
    <| e_FinishedAt := Some t |>)) (Some (EventFailed, text))).

Definition retry_change (token : UUID) (text : string) (delay : Duration) (t : Time) (e : Execution)
    : error + Change :=
  let e1 := clear_lease (e <| e_LastError := text |>) in
  guarded token e
    (if (e_MaxAttempts e <=? e_Attempt e)%Z
     then mkChange (e1 <| e_Status := StatusFailed |> <| e_FinishedAt := Some t |>) (Some (EventFailed, text))
     else mkChange (e1 <| e_Status := StatusRetry |> <| e_AvailableAt := Add t delay |>)
            (Some (EventRetried, text))).

Definition cancel_change (reason : string) (t : Time) (e : Execution) : error + Change :=
  if is_terminal (e_Status e) then inl (ErrNotFound : error)
  else inr (mkChange (clear_lease (e <| e_Status := StatusCancelled |> <| e_LastError := reason |>
              <| e_FinishedAt := Some t |>)) (Some (EventCancelled, reason))).

Definition release_change (input : RawMessage) (availableAt t : Time) (e : Execution) : error + Change :=
  if bool_decide (e_Status e = StatusBlocked)
  then inr (mkChange (e <| e_Status := StatusPending |> <| e_Input := cloneJSON input |>
              <| e_AvailableAt := if IsZero availableAt then t else availableAt |>) None)
  else inl (ErrActive : error).

(** A restart is refused for an active execution and for a node of a pipeline; [order] tells which of the
    two errors is given to an active node. *)
Definition restart_change (order : bool) (availableAt t : Time) (e : Execution) : error + Change :=
  let node := bool_decide (is_Some (e_PipelineRunID e)) in
  if order && is_active (e_Status e) then inl (ErrActive : error) else
  if node then inl (ErrPipelineExecution : error) else
  if is_active (e_Status e) then inl (ErrActive : error) else
  inr (mkChange (reset_item StatusPending (if IsZero availableAt then t else availableAt) e)
        (Some (EventRestarted, EmptyString))).

Definition claim_change (keys : list TaskKey) (owner : string) (lease : Duration) (token : UUID)
    (t : Time) (e : Execution) : error + Change :=
  if claimable keys t e
  then inr (mkChange (claimed_execution owner lease t token e) (Some (EventStarted, EmptyString)))
  else inl (ErrUnavailable : error).

Definition reap_change (t : Time) (e : Execution) : error + Change :=
  if expired t e
  then inr (mkChange (reaped_execution t e) (Some (EventFailed, lease_expired_text)))
  else inl (ErrUnavailable : error).

(** ** The step of a store *)

(** The events that a change appends to the log of an execution. *)
Definition logs (id : UUID) (ch : Change) (evs : list Event) : Prop :=
  match ch_event ch with
  | None => evs = []
  | Some (type, text) => ∃ u t, evs = [mkEvent u id type (e_Attempt (ch_item ch)) text t]
  end.

(** A change of the execution [id], with its outcome; [ret] is the returned value. *)
Definition item_step {A} (id : UUID) (change : Execution → error + Change) (ret : Execution → A)
    (s : MemoryStore) (r : error + A) (s' : MemoryStore) : Prop :=
  match m_executions s !! id with
  | None => r = inl (ErrNotFound : error) ∧ s' = s
  | Some e =>
      match change e with
      | inl err => r = inl err ∧ s' = s
      | inr ch => r = inr (ret (ch_item ch)) ∧ ∃ evs, logs id ch evs ∧
          s' = with_execution s id (ch_item ch) (default [] (m_events s !! id) ++ evs)
      end
  end.

Section Duplicates.
Context `{E : GoEnv}.

(** The stored execution stands for the request already. *)
Definition duplicate (request : CreateExecutionRequest) (e : Execution) : Prop :=
  (c_IdempotencyKey request ≠ EmptyString ∧ e_IdempotencyKey e ≠ EmptyString ∧
   idempotent_key (e_TaskName e) (e_IdempotencyKey e) =
     idempotent_key (c_TaskName request) (c_IdempotencyKey request)) ∨
  (∃ run, c_PipelineRunID request = Some run ∧ e_PipelineRunID e = Some run ∧
     c_NodeKey request ≠ EmptyString ∧ e_NodeKey e = c_NodeKey request).

End Duplicates.

(** ** The operations on one execution *)

Inductive Call : Type → Type :=
  | CHeartbeat (id token : UUID) (lease : Duration) : Call unit
  | CSucceed (id token : UUID) (output : RawMessage) : Call unit
  | CRetry (id token : UUID) (text : string) (delay : Duration) : Call unit
  | CFail (id token : UUID) (text : string) : Call unit
  | CCancel (id : UUID) (reason : string) : Call unit
  | CRelease (id : UUID) (input : RawMessage) (availableAt : Time) : Call unit
  | CRestart (id : UUID) (availableAt : Time) : Call Execution.

Definition call_id {A} (c : Call A) : UUID :=
  match c with
  | CHeartbeat id _ _ | CSucceed id _ _ | CRetry id _ _ _ | CFail id _ _ | CCancel id _
  | CRelease id _ _ | CRestart id _ => id
  end.

(** The change of a call at instant [t]; [order] is that of the errors of a restart. *)
Definition call_change {A} (order : bool) (c : Call A) (t : Time) : Execution → error + Change :=
  match c with
  | CHeartbeat _ token lease => heartbeat_change token lease t
  | CSucceed _ token output => succeed_change token output t
  | CRetry _ token text delay => retry_change token text delay t
  | CFail _ token text => fail_change token text t
  | CCancel _ reason => cancel_change reason t
  | CRelease _ input availableAt => release_change input availableAt t
  | CRestart _ availableAt => restart_change order availableAt t
  end.

Definition call_result {A} (c : Call A) : Execution → A :=
  match c with CRestart _ _ => cloneExecution | _ => λ _, tt end.

(** The specification of a call at instant [t]. *)
Definition call_step {A} (order : bool) (c : Call A) (t : Time) : MemoryStore → error + A → MemoryStore → Prop :=
  item_step (call_id c) (call_change order c t) (call_result c).

(** A change keeps what an execution has from its creation. *)
Lemma call_identity {A} order (c : Call A) t e ch :
  call_change order c t e = inr ch → same_identity e (ch_item ch).
Proof.
  destruct c; simpl; unfold heartbeat_change, succeed_change, retry_change, fail_change, cancel_change,
    release_change, restart_change, guarded; repeat case_match; intros; simplify_eq; by repeat split.
Qed.

(** ** The in-memory store takes these steps *)

Definition memory_call `{E : GoEnv} {A} (c : Call A) : M World A :=
  match c with
  | CHeartbeat id token lease => Memory.Heartbeat id token lease
  | CSucceed id token output => Memory.Succeed id token output
  | CRetry id token text delay => Memory.Retry id token text delay
  | CFail id token text => Memory.Fail id token text
  | CCancel id reason => Memory.CancelExecution id reason
  | CRelease id input availableAt => Memory.ReleaseExecution id input availableAt
  | CRestart id availableAt => Memory.RestartExecution id availableAt
  end.

Section MemorySteps.
Context `{E : GoEnv}.

Lemma owned_guard id token w :
  owned id token w =
    match m_executions (mem w) !! id with
    | None => (inl (ErrNotFound : error), w)
    | Some e => if owns token e then (inr e, w) else (inl (ErrLeaseLost : error), w)
    end.
Proof.
  unfold owned, owns. rewrite bind_gets. destruct (m_executions (mem w) !! id) as [e|]; [|done].
  by repeat case_bool_decide.
Qed.

(** The events of an execution stay when it alone is replaced. *)
Lemma put_step (w : World) id e :
  Inv w → is_Some (m_executions (mem w) !! id) →
  mem w <| m_executions := <[id := e]> (m_executions (mem w)) |>
  = with_execution (mem w) id e (default [] (m_events (mem w) !! id) ++ []).
Proof.
  intros Hinv [e0 He0]. destruct (inv_log _ Hinv _ _ He0) as (evs & Hevs & _).
  unfold with_execution. simpl. rewrite Hevs. simpl. rewrite app_nil_r.
  by rewrite (insert_id (m_events (mem w))).
Qed.

(** Under its mutex, the in-memory store makes the change of a call. *)
Lemma memory_call_step {A} (c : Call A) w :
  Inv w → wp (memory_call c) (λ r w', call_step false c (env_now (tick w)) (mem w) r (mem w')) w.
Proof.
  intros Hinv. unfold wp, call_step, item_step.
  destruct (m_executions (mem w) !! call_id c) as [e|] eqn:He; cycle 1.
  { destruct c; simpl in *; unfold Heartbeat, Succeed, Retry, Fail, CancelExecution, ReleaseExecution,
      RestartExecution, mbind, M_bind; rewrite ?owned_guard; simpl; by rewrite He. }
  pose proof (Inv_id _ _ _ Hinv He) as Hid.
  destruct c as [id token lease|id token output|id token text delay|id token text|id reason
    |id input available|id available]; simpl in *.
  - unfold Heartbeat, mbind, M_bind. rewrite owned_guard, He. unfold heartbeat_change, guarded.
    destruct (owns token e); [|done]. simpl. split; [done|]. exists []. split; [done|].
    by apply put_step.
  - unfold Succeed, mbind, M_bind. rewrite owned_guard, He. unfold succeed_change, guarded.
    destruct (owns token e); [|done]. split; [done|]. eexists. split; [by do 2 eexists|].
    simpl. by rewrite Hid.
  - unfold Retry, mbind, M_bind. rewrite owned_guard, He. unfold retry_change, guarded.
    destruct (owns token e); [|done]. simpl. destruct (e_MaxAttempts e <=? e_Attempt e)%Z;
      (split; [done|]); (eexists; split; [by do 2 eexists|]); simpl; by rewrite Hid.
  - unfold Fail, mbind, M_bind. rewrite owned_guard, He. unfold fail_change, guarded.
    destruct (owns token e); [|done]. split; [done|]. eexists. split; [by do 2 eexists|].
    simpl. by rewrite Hid.
  - unfold CancelExecution, mbind, M_bind. simpl. rewrite He. unfold cancel_change.
    destruct (is_terminal (e_Status e)); [done|]. split; [done|]. eexists. split; [by do 2 eexists|].
    simpl. by rewrite Hid.
  - unfold ReleaseExecution, mbind, M_bind. simpl. rewrite He. unfold release_change.
    destruct (bool_decide (e_Status e = StatusBlocked)); [|done]. simpl.
    destruct (IsZero available); simpl; (split; [done|]); exists []; (split; [done|]); by apply put_step.
  - unfold RestartExecution, mbind, M_bind. simpl. rewrite He. unfold restart_change.
    destruct (e_PipelineRunID e) as [run|]; [done|]. simpl.
    destruct (is_active (e_Status e)); [done|]. simpl.
    destruct (IsZero available); simpl; (split; [done|]); (eexists; split; [by do 2 eexists|]); simpl;
      by rewrite Hid.
Qed.
End MemorySteps.
