(* ===== verification/MemoryOps.v ===== *)
(** * Sequences of store operations

    The operations of [MemoryStore] as data, the steps a store takes when its clients call them in
    any order, the invariant of every reachable store, and how a stored execution or run may evolve
    along a sequence of calls. *)

From S2P Require Import Prelude GoLib Model Memory MemoryInv.

(** A call of a client. *)
Inductive Op :=
  | OpCreateExecution (request : CreateExecutionRequest)
  | OpGetExecution (id : UUID)
  | OpListExecutions (filter : ListFilter)
  | OpListRunExecutions (runID : UUID)
  | OpClaim (owner : string) (keys : list TaskKey) (limit : Z) (lease : Duration)
  | OpReapExpired
  | OpHeartbeat (id token : UUID) (lease : Duration)
  | OpSucceed (id token : UUID) (output : RawMessage)
  | OpRetry (id token : UUID) (text : string) (delay : Duration)
  | OpFail (id token : UUID) (text : string)
  | OpCancelExecution (id : UUID) (reason : string)
  | OpRestartExecution (id : UUID) (availableAt : Time)
  | OpRestartPipelineSubgraph (request : RestartSubgraph)
  | OpReleaseExecution (id : UUID) (input : RawMessage) (availableAt : Time)
  | OpEvents (id : UUID)
  | OpCreatePipelineRun (request : CreatePipelineRunRequest)
  | OpGetPipelineRun (id : UUID)
  | OpListPipelineRuns (filter : RunFilter)
  | OpSetPipelineRunStatus (id : UUID) (revision : Z) (status : RunStatus) (text : string)
  | OpExecutionCounts
  | OpPipelineCounts
  | OpPurge (before : Time) (limit : Z).

Section Steps.
Context `{E : GoEnv}.

(** The world after a call. *)
Definition exec_op (o : Op) (w : World) : World :=
  match o with
  | OpCreateExecution request => (CreateExecution request w).2
  | OpGetExecution id => (GetExecution id w).2
  | OpListExecutions filter => (ListExecutions filter w).2
  | OpListRunExecutions runID => (ListRunExecutions runID w).2
  | OpClaim owner keys limit lease => (Claim owner keys limit lease w).2
  | OpReapExpired => (ReapExpired w).2
  | OpHeartbeat id token lease => (Heartbeat id token lease w).2
  | OpSucceed id token output => (Succeed id token output w).2
  | OpRetry id token text delay => (Retry id token text delay w).2
  | OpFail id token text => (Fail id token text w).2
  | OpCancelExecution id reason => (CancelExecution id reason w).2
  | OpRestartExecution id availableAt => (RestartExecution id availableAt w).2
  | OpRestartPipelineSubgraph request => (RestartPipelineSubgraph request w).2
  | OpReleaseExecution id input availableAt => (ReleaseExecution id input availableAt w).2
  | OpEvents id => (Events id w).2
  | OpCreatePipelineRun request => (CreatePipelineRun request w).2
  | OpGetPipelineRun id => (GetPipelineRun id w).2
  | OpListPipelineRuns filter => (ListPipelineRuns filter w).2
  | OpSetPipelineRunStatus id revision status text =>
      (SetPipelineRunStatus id revision status text w).2
  | OpExecutionCounts => (ExecutionCounts w).2
  | OpPipelineCounts => (PipelineCounts w).2
  | OpPurge before limit => (Purge before limit w).2
  end.

(** An attempt budget is an [int]. *)
Definition op_ok (o : Op) : Prop :=
  match o with OpCreateExecution request => request_ok request | _ => True end.

Inductive step : World → World → Prop :=
  | step_op o w : op_ok o → step w (exec_op o w).

Abbreviation steps := (rtc step).
Definition reachable (w : World) : Prop := steps initial_world w.

(** ** How the records evolve *)

(** A token is kept, dropped, or drawn after the [n]-th query. *)
Definition token_evolves (n : nat) (e e' : Execution) : Prop :=
  e_LeaseToken e' = e_LeaseToken e ∨ e_LeaseToken e' = uuid_Nil ∨
  ∃ k, n ≤ k ∧ e_LeaseToken e' = env_uuid k.

Definition exec_evolves (n : nat) (o : option Execution) (e' : Execution) : Prop :=
  match o with
  | Some e => same_identity e e' ∧ token_evolves n e e'
  | None => e_LeaseToken e' = uuid_Nil
  end.

(** The revision of a run is kept or incremented by one. *)
Definition run_evolves (o : option PipelineRun) (r' : PipelineRun) : Prop :=
  match o with
  | Some r => same_run r r' ∧ (r_Revision r' = r_Revision r ∨ r_Revision r' = uint64 (r_Revision r + 1))
  | None => r_Revision r' = 0%Z
  end.

(** A record appears only under an identifier drawn after the [n]-th query. *)
Record Evolves (w w' : World) : Prop := {
  ev_tick : tick w ≤ tick w';
  ev_exec : ∀ id e', m_executions (mem w') !! id = Some e' →
    exec_evolves (tick w) (m_executions (mem w) !! id) e';
  ev_run : ∀ id r', m_runs (mem w') !! id = Some r' → run_evolves (m_runs (mem w) !! id) r';
  ev_new : ∀ id, (m_executions (mem w) !! id = None ∧ is_Some (m_executions (mem w') !! id)) ∨
    (m_runs (mem w) !! id = None ∧ is_Some (m_runs (mem w') !! id)) →
    ∃ k, tick w ≤ k ∧ id = env_uuid k;
}.

Lemma same_run_refl r : same_run r r.
Proof. by repeat split. Qed.

Lemma exec_evolves_refl n o e : o = Some e → exec_evolves n o e.
Proof. intros ->. split; [apply same_identity_refl|by left]. Qed.

Lemma run_evolves_refl o r : o = Some r → run_evolves o r.
Proof. intros ->. split; [apply same_run_refl|by left]. Qed.

(** Operations that keep the set of records and map each execution and run. *)
Lemma Evolves_map w w' :
  tick w ≤ tick w' →
  (∀ id e', m_executions (mem w') !! id = Some e' → ∃ e, m_executions (mem w) !! id = Some e ∧
    same_identity e e' ∧ token_evolves (tick w) e e') →
  (∀ id r', m_runs (mem w') !! id = Some r' → ∃ r, m_runs (mem w) !! id = Some r ∧
    same_run r r' ∧ (r_Revision r' = r_Revision r ∨ r_Revision r' = uint64 (r_Revision r + 1))) →
  Evolves w w'.
Proof.
  intros Ht He Hr. split; [done| | |].
  - intros id e' (e & Hs & ?)%He. by rewrite Hs.
  - intros id r' (r & Hs & ?)%Hr. by rewrite Hs.
  - intros id [[Hn [x Hx]]|[Hn [x Hx]]].
    + apply He in Hx as (? & ? & _). congruence.
    + apply Hr in Hx as (? & ? & _). congruence.
Qed.

Lemma Evolves_same w w' :
  tick w ≤ tick w' → mem w' = mem w → Evolves w w'.
Proof.
  intros Ht Hm. apply Evolves_map; [done| |]; rewrite Hm.
  - intros id e He. exists e. split_and!; [done|apply same_identity_refl|by left].
  - intros id r Hr. exists r. split_and!; [done|apply same_run_refl|by left].
Qed.

(** One execution is replaced, the runs are kept. *)
Lemma Evolves_one w w' id e e' :
  tick w ≤ tick w' → m_executions (mem w) !! id = Some e →
  m_executions (mem w') = <[id := e']> (m_executions (mem w)) →
  m_runs (mem w') = m_runs (mem w) →
  same_identity e e' → token_evolves (tick w) e e' → Evolves w w'.
Proof.
  intros Ht He Hx Hr Hs Htok. apply Evolves_map; [done| |].
  - intros id' e''. rewrite Hx. destruct (decide (id = id')) as [<-|?].
    + rewrite lookup_insert_eq. intros [= <-]. by exists e.
    + rewrite lookup_insert_ne by done. intros He'. exists e''.
      split_and!; [done|apply same_identity_refl|by left].
  - rewrite Hr. intros id' r Hr'. exists r. split_and!; [done|apply same_run_refl|by left].
Qed.

Lemma Evolves_refl w : Evolves w w.
Proof. by apply Evolves_same. Qed.

(** ** Every call makes the records evolve *)

Abbreviation evolves m := (∀ w, Inv w → wp m (λ _ w', Evolves w w') w).

Ltac evolve_one He :=
  eapply Evolves_one; [simpl; lia|exact He|reflexivity|reflexivity|by repeat split|];
  first [by left|by right; left].

Lemma read_only_evolves {A} (m : M World A) : read_only m → evolves m.
Proof. intros Hm w _. destruct (Hm w). by apply Evolves_same. Qed.

Lemma Heartbeat_evolves id token lease : evolves (Heartbeat id token lease).
Proof.
  intros w Hw. apply wp_bind, wp_owned; [intros; apply Evolves_refl..|]. intros e He _.
  apply wp_bind, wp_now, wp_modify. evolve_one He.
Qed.

Lemma Succeed_evolves id token output : evolves (Succeed id token output).
Proof.
  intros w Hw. apply wp_bind, wp_owned; [intros; apply Evolves_refl..|]. intros e He _.
  apply wp_bind, wp_now. apply wp_put_append; [exact (Inv_id w id e Hw He)|]. evolve_one He.
Qed.

Lemma Fail_evolves id token text : evolves (Fail id token text).
Proof.
  intros w Hw. apply wp_bind, wp_owned; [intros; apply Evolves_refl..|]. intros e He _.
  apply wp_bind, wp_now. apply wp_put_append; [exact (Inv_id w id e Hw He)|]. evolve_one He.
Qed.

Lemma Retry_evolves id token text delay : evolves (Retry id token text delay).
Proof.
  intros w Hw. apply wp_bind, wp_owned; [intros; apply Evolves_refl..|]. intros e He _. simpl.
  destruct (e_MaxAttempts e <=? e_Attempt e)%Z; apply wp_bind, wp_now;
    (apply wp_put_append; [exact (Inv_id w id e Hw He)|]); evolve_one He.
Qed.

Lemma CancelExecution_evolves id reason : evolves (CancelExecution id reason).
Proof.
  intros w Hw. apply wp_bind, wp_gets. simpl.
  destruct (m_executions (mem w) !! id) as [e|] eqn:He; [|apply wp_throw, Evolves_refl].
  destruct (is_terminal (e_Status e)); [apply wp_throw, Evolves_refl|].
  apply wp_bind, wp_now. apply wp_put_append; [exact (Inv_id w id e Hw He)|]. evolve_one He.
Qed.

Lemma RestartExecution_evolves id t : evolves (RestartExecution id t).
Proof.
  intros w Hw. apply wp_bind, wp_gets. simpl.
  destruct (m_executions (mem w) !! id) as [e|] eqn:He; [|apply wp_throw, Evolves_refl].
  destruct (e_PipelineRunID e); [apply wp_throw, Evolves_refl|].
  destruct (is_active (e_Status e)); [apply wp_throw, Evolves_refl|].
  apply wp_bind, wp_now_or. intros t' n Hn.
  apply wp_put_append_bind; [exact (Inv_id w id e Hw He)|]. apply wp_ret. evolve_one He.
Qed.

Lemma ReleaseExecution_evolves id input t : evolves (ReleaseExecution id input t).
Proof.
  intros w Hw. apply wp_bind, wp_gets. simpl.
  destruct (m_executions (mem w) !! id) as [e|] eqn:He; [|apply wp_throw, Evolves_refl].
  destruct (negb _); [apply wp_throw, Evolves_refl|].
  apply wp_bind, wp_now_or. intros t' n Hn. apply wp_modify. evolve_one He.
Qed.

Lemma CreateExecution_evolves `{!GoEnvOk} request : evolves (CreateExecution request).
Proof.
  intros w Hw. unfold wp. rewrite CreateExecution_run.
  destruct (is_empty (c_TaskName request)); [apply Evolves_refl|].
  destruct (find_existing (mem w) request); [apply Evolves_refl|]. cbv zeta.
  destruct (Inv_fresh_id w (S (tick w)) Hw) as [Hf _]; [lia|]. split; simpl; [lia| | |].
  - intros id e'. destruct (decide (env_uuid (S (tick w)) = id)) as [<-|?].
    + rewrite lookup_insert_eq, Hf. by intros [= <-].
    + rewrite lookup_insert_ne by done. apply exec_evolves_refl.
  - intros id r' Hr. by apply run_evolves_refl.
  - intros id [[Hn Hs]|[Hn [? Hs]]]; [|congruence].
    destruct (decide (env_uuid (S (tick w)) = id)) as [<-|?]; [by eauto with lia|].
    rewrite lookup_insert_ne in Hs by done. destruct Hs. congruence.
Qed.

Lemma CreatePipelineRun_evolves `{!GoEnvOk} request : evolves (CreatePipelineRun request).
Proof.
  intros w Hw. unfold wp. rewrite CreatePipelineRun_run.
  destruct (find_existing_run (mem w) request); [apply Evolves_refl|]. cbv zeta.
  destruct (Inv_fresh_id w (S (tick w)) Hw) as [_ Hf]; [lia|]. split; simpl; [lia| | |].
  - intros id e' He. by apply exec_evolves_refl.
  - intros id r'. destruct (decide (env_uuid (S (tick w)) = id)) as [<-|?].
    + rewrite lookup_insert_eq, Hf. by intros [= <-].
    + rewrite lookup_insert_ne by done. apply run_evolves_refl.
  - intros id [[Hn [? Hs]]|[Hn Hs]]; [congruence|].
    destruct (decide (env_uuid (S (tick w)) = id)) as [<-|?]; [by eauto with lia|].
    rewrite lookup_insert_ne in Hs by done. destruct Hs. congruence.
Qed.

Lemma SetPipelineRunStatus_evolves id revision status text :
  evolves (SetPipelineRunStatus id revision status text).
Proof.
  intros w Hw. unfold wp. rewrite SetPipelineRunStatus_run.
  destruct (m_runs (mem w) !! id) as [run|] eqn:Hr; [|apply Evolves_refl].
  destruct (r_Revision run =? revision)%Z; [|apply Evolves_refl]. apply Evolves_map; simpl; [lia| |].
  - intros id' e He. exists e. split_and!; [done|apply same_identity_refl|by left].
  - intros id' r'. destruct (decide (id = id')) as [<-|?].
    + rewrite lookup_insert_eq. intros [= <-]. exists run. split; [done|].
      split; [apply updated_run_same|]. right. unfold updated_run.
      by destruct (is_run_terminal status).
    + rewrite lookup_insert_ne by done. intros Hr'. exists r'.
      split_and!; [done|apply same_run_refl|by left].
Qed.

Lemma Claim_evolves `{!GoEnvOk} owner keys limit lease : evolves (Claim owner keys limit lease).
Proof.
  intros w Hw. eapply wp_mono; [by apply Claim_wp|]. simpl.
  intros r w' (_ & _ & Htick & Hget & Hother & Hruns). apply Evolves_map; [simpl in *; lia| |].
  - intros id e' He'.
    destruct (decide (id ∈ e_ID <$> claim_selection keys limit w)) as [Hin|Hni].
    + apply list_elem_of_fmap in Hin as (e & -> & Hin).
      assert (m_executions (mem w) !! e_ID e = Some e) as He.
      { unfold claim_selection in Hin.
        pose proof (pending_entries_range (S (tick w)) w) as Hp.
        apply (pending_items_filter (claimable keys (env_now (tick w)))) in Hp; [|done].
        eapply pending_items_perm in Hp; [|symmetry; apply (sort_Slice_perm claim_less)].
        apply (pending_items_limit (if (limit <=? 0)%Z then 1%Z else limit)) in Hp.
        by apply Hp. }
      exists e. split; [done|]. apply list_elem_of_lookup in Hin as [i Hi].
      rewrite (Hget _ _ Hi) in He'. injection He' as <-. split; [by repeat split|].
      right; right. eexists. split; [|reflexivity]. simpl. lia.
    + destruct (Hother id Hni) as [Heq _]. rewrite Heq in He'. exists e'.
      split_and!; [done|apply same_identity_refl|by left].
  - rewrite Hruns. intros id run Hr. exists run.
    split_and!; [done|apply same_run_refl|by left].
Qed.

(** The number of environment queries only grows. *)
Definition mono {A} (m : M World A) : Prop := ∀ w, tick w ≤ tick (m w).2.

Lemma mono_bind {A B} (m : M World A) (k : A → M World B) :
  mono m → (∀ a, mono (k a)) → mono (m ≫= k).
Proof.
  intros Hm Hk w. unfold mbind, M_bind. specialize (Hm w). destruct (m w) as [[e|a] w']; [done|].
  specialize (Hk a w'). simpl in *. lia.
Qed.
Lemma mono_ret {A} (a : A) : mono (mret a).
Proof. by intros w. Qed.
Lemma mono_throw {A} e : mono (throw (A := A) e).
Proof. by intros w. Qed.
Lemma mono_gets {A} (f : World → A) : mono (gets f).
Proof. by intros w. Qed.
Lemma mono_now : mono now.
Proof. intros w. simpl. lia. Qed.
Lemma mono_uuid : mono uuid_New.
Proof. intros w. simpl. lia. Qed.
Lemma mono_range {A} (l : list A) : mono (range l).
Proof. intros w. simpl. lia. Qed.
Lemma mono_modify f : mono (modify f).
Proof. by intros w. Qed.
Lemma mono_put_run id r : mono (put_run id r).
Proof. by intros w. Qed.
Lemma mono_when b m : mono m → mono (when b m).
Proof. intros Hm w. destruct b; [apply Hm|done]. Qed.
Lemma mono_forM_ {A} (l : list A) body : (∀ x, mono (body x)) → mono (forM_ l body).
Proof.
  intros Hb. induction l as [|x l IH]; simpl; [apply mono_ret|]. by apply mono_bind.
Qed.
Lemma mono_put_append id e e' ev text :
  mono (put_execution id e ≫= λ _, appendEvent e' ev text).
Proof. intros w. simpl. lia. Qed.
Lemma mono_put_append_bind {A} id e e' ev text (k : unit → M World A) :
  (∀ u, mono (k u)) → mono (put_execution id e ≫= λ _, appendEvent e' ev text ≫= k).
Proof.
  intros Hk. apply mono_bind; [apply mono_modify|]. intros _.
  apply mono_bind; [intros w; simpl; lia|done].
Qed.

#[local] Hint Resolve mono_bind mono_ret mono_throw mono_gets mono_now mono_uuid mono_range
  mono_modify mono_put_run mono_when mono_forM_ mono_put_append mono_put_append_bind : ody.

Lemma mono_reap_entry t entry : mono (reap_entry t entry).
Proof. destruct entry. simpl. auto with ody. Qed.

Lemma mono_restart_entries request t root l : mono (restart_entries request t root l).
Proof.
  revert root. induction l as [|[id e] l IH]; intros root; simpl; [auto with ody|].
  destruct (in_subgraph request e); auto with ody.
Qed.

Lemma mono_delete_entries runID l result : mono (delete_entries runID l result).
Proof.
  revert result. induction l as [|[id e] l IH]; intros result; simpl; [auto with ody|].
  destruct (of_run runID e); auto with ody.
Qed.

#[local] Hint Resolve mono_reap_entry mono_restart_entries mono_delete_entries : ody.

Lemma mono_purge_candidates result l : mono (purge_candidates result l).
Proof.
  revert result. induction l as [|c l IH]; intros result; simpl; [auto with ody|].
  apply mono_bind; [|done]. unfold purge_candidate. apply mono_bind; [auto with ody|]. intros s.
  destruct (p_pipeline c); auto 10 with ody.
Qed.

Lemma mono_ReapExpired : mono ReapExpired.
Proof. unfold ReapExpired. auto 10 with ody. Qed.

Lemma mono_RestartPipelineSubgraph request : mono (RestartPipelineSubgraph request).
Proof.
  unfold RestartPipelineSubgraph. apply mono_bind; [auto with ody|]. intros s.
  destruct (m_runs s !! _); [|auto with ody]. apply mono_bind; [auto with ody|]. intros l.
  destruct (existsb _ _); [auto with ody|]. destruct (last _); auto 10 with ody.
Qed.

Lemma mono_Purge before limit : mono (Purge before limit).
Proof. unfold Purge. auto 10 using mono_purge_candidates with ody. Qed.

Lemma wp_and {A} (m : M World A) (Q R : error + A → World → Prop) w :
  wp m Q w → wp m R w → wp m (λ r w', Q r w' ∧ R r w') w.
Proof. done. Qed.

Lemma ReapExpired_evolves `{!GoEnvOk} : evolves ReapExpired.
Proof.
  intros w Hw. eapply wp_mono; [eapply wp_and; [by apply ReapExpired_wp|]|].
  { apply (mono_ReapExpired w : wp ReapExpired (λ _ w', tick w ≤ tick w') w). }
  simpl. intros r w' [(_ & _ & Hx & Hr) Ht]. apply Evolves_map; [done| |].
  - intros id e'. rewrite Hx. intros (e & He & ->)%fmap_Some. exists e. split; [done|].
    unfold reap_map. destruct (expired _ e).
    + split; [apply reaped_execution_same|by right; left].
    + split; [apply same_identity_refl|by left].
  - rewrite Hr. intros id run Hrun. exists run. split_and!; [done|apply same_run_refl|by left].
Qed.

Lemma RestartPipelineSubgraph_evolves `{!GoEnvOk} request :
  evolves (RestartPipelineSubgraph request).
Proof.
  intros w Hw. eapply wp_mono; [eapply wp_and; [by apply RestartPipelineSubgraph_wp|]|].
  { apply (mono_RestartPipelineSubgraph request w :
      wp (RestartPipelineSubgraph request) (λ _ w', tick w ≤ tick w') w). }
  simpl. intros [e|root] w' [[_ Hpost] Ht]; [by apply Evolves_same|].
  destruct Hpost as (run & id & e & t & t' & Hrun & He & _ & _ & _ & _ & Hx & Hr).
  apply Evolves_map; [done| |].
  - intros id' e'. rewrite Hx. intros (e0 & He' & ->)%fmap_Some. exists e0. split; [done|].
    unfold restart_map. destruct (in_subgraph request e0).
    + split; [by repeat split|by right; left].
    + split; [apply same_identity_refl|by left].
  - rewrite Hr. intros id' r'. destruct (decide (rs_RunID request = id')) as [<-|?].
    + rewrite lookup_insert_eq. intros [= <-]. exists run. split; [done|].
      split; [by repeat split|by right].
    + rewrite lookup_insert_ne by done. intros Hr'. exists r'.
      split_and!; [done|apply same_run_refl|by left].
Qed.

Lemma Purge_evolves `{!GoEnvOk} before limit : evolves (Purge before limit).
Proof.
  intros w Hw. eapply wp_mono; [eapply wp_and; [by apply Purge_wp|]|].
  { apply (mono_Purge before limit w : wp (Purge before limit) (λ _ w', tick w ≤ tick w') w). }
  simpl. intros r w' [(_ & _ & Hx & Hr) Ht]. apply Evolves_map; [done| |].
  - intros id e'. rewrite Hx. intros (e & He & Hs)%bind_Some. exists e. split; [done|].
    destruct (existsb _ _); simplify_eq. split; [apply same_identity_refl|by left].
  - intros id r'. rewrite Hr. intros (run & Hrun & Hs)%bind_Some. exists run. split; [done|].
    destruct (existsb _ _); simplify_eq. split; [apply same_run_refl|by left].
Qed.

(** ** Sequences of calls *)

Lemma exec_op_inv `{!GoEnvOk} o w : op_ok o → Inv w → Inv (exec_op o w).
Proof.
  intros Ho Hw. destruct o; simpl in *.
  - by apply (CreateExecution_inv request Ho).
  - by apply (read_only_inv _ (GetExecution_read id)).
  - by apply (read_only_inv _ (ListExecutions_read filter)).
  - by apply (read_only_inv _ (ListRunExecutions_read runID)).
  - by apply (Claim_inv owner keys limit lease).
  - by apply ReapExpired_inv.
  - by apply (Heartbeat_inv id token lease).
  - by apply (Succeed_inv id token output).
  - by apply (Retry_inv id token text delay).
  - by apply (Fail_inv id token text).
  - by apply (CancelExecution_inv id reason).
  - by apply (RestartExecution_inv id availableAt).
  - by apply (RestartPipelineSubgraph_inv request).
  - by apply (ReleaseExecution_inv id input availableAt).
  - by apply (read_only_inv _ (Events_read id)).
  - by apply (CreatePipelineRun_inv request).
  - by apply (read_only_inv _ (GetPipelineRun_read id)).
  - by apply (read_only_inv _ (ListPipelineRuns_read filter)).
  - by apply (SetPipelineRunStatus_inv id revision status text).
  - by apply (read_only_inv _ ExecutionCounts_read).
  - by apply (read_only_inv _ PipelineCounts_read).
  - by apply (Purge_inv before limit).
Qed.

Lemma exec_op_evolves `{!GoEnvOk} o w : Inv w → Evolves w (exec_op o w).
Proof.
  intros Hw. destruct o; simpl in *.
  - by apply (CreateExecution_evolves request).
  - by apply (read_only_evolves _ (GetExecution_read id)).
  - by apply (read_only_evolves _ (ListExecutions_read filter)).
  - by apply (read_only_evolves _ (ListRunExecutions_read runID)).
  - by apply (Claim_evolves owner keys limit lease).
  - by apply ReapExpired_evolves.
  - by apply (Heartbeat_evolves id token lease).
  - by apply (Succeed_evolves id token output).
  - by apply (Retry_evolves id token text delay).
  - by apply (Fail_evolves id token text).
  - by apply (CancelExecution_evolves id reason).
  - by apply (RestartExecution_evolves id availableAt).
  - by apply (RestartPipelineSubgraph_evolves request).
  - by apply (ReleaseExecution_evolves id input availableAt).
  - by apply (read_only_evolves _ (Events_read id)).
  - by apply (CreatePipelineRun_evolves request).
  - by apply (read_only_evolves _ (GetPipelineRun_read id)).
  - by apply (read_only_evolves _ (ListPipelineRuns_read filter)).
  - by apply (SetPipelineRunStatus_evolves id revision status text).
  - by apply (read_only_evolves _ ExecutionCounts_read).
  - by apply (read_only_evolves _ PipelineCounts_read).
  - by apply (Purge_evolves before limit).
Qed.

Lemma step_inv `{!GoEnvOk} w w' : step w w' → Inv w → Inv w'.
Proof. intros [o w0 Ho] Hw. by apply exec_op_inv. Qed.

Lemma step_evolves `{!GoEnvOk} w w' : step w w' → Inv w → Evolves w w'.
Proof. intros [o w0 Ho] Hw. by apply exec_op_evolves. Qed.

Lemma steps_inv `{!GoEnvOk} w w' : steps w w' → Inv w → Inv w'.
Proof. induction 1; eauto using step_inv. Qed.

Lemma reachable_Inv `{!GoEnvOk} w : reachable w → Inv w.
Proof. intros Hr. by eapply steps_inv; [|apply Inv_initial]. Qed.

(** An identifier of the past that is not in use stays unused: a deleted record does not come
    back. *)
Lemma step_unused `{!GoEnvOk} w w' k :
  step w w' → Inv w → k < tick w →
  (m_executions (mem w) !! env_uuid k = None → m_executions (mem w') !! env_uuid k = None) ∧
  (m_runs (mem w) !! env_uuid k = None → m_runs (mem w') !! env_uuid k = None).
Proof.
  intros Hs Hw Hk. pose proof (step_evolves _ _ Hs Hw) as Hev.
  split; intros Hn; apply eq_None_not_Some; intros Hsome.
  - destruct (ev_new _ _ Hev (env_uuid k)) as (j & Hj & Heq); [by left|].
    apply (inj env_uuid) in Heq. lia.
  - destruct (ev_new _ _ Hev (env_uuid k)) as (j & Hj & Heq); [by right|].
    apply (inj env_uuid) in Heq. lia.
Qed.

Lemma steps_unused `{!GoEnvOk} w w' k :
  steps w w' → Inv w → k < tick w →
  (m_executions (mem w) !! env_uuid k = None → m_executions (mem w') !! env_uuid k = None) ∧
  (m_runs (mem w) !! env_uuid k = None → m_runs (mem w') !! env_uuid k = None).
Proof.
  induction 1 as [w|w w1 w' Hs Hss IH]; intros Hw Hk; [done|].
  destruct (step_unused _ _ _ Hs Hw Hk) as [H1 H2].
  pose proof (ev_tick _ _ (step_evolves _ _ Hs Hw)).
  destruct IH as [H3 H4]; [by eapply step_inv|lia|]. auto.
Qed.

(** A relation that every step makes true of the successive values of an execution, and that is
    transitive, holds along a sequence of calls. *)
Lemma steps_execution `{!GoEnvOk} (R : Execution → Execution → Prop) w w' id e e' :
  Reflexive R → Transitive R →
  (∀ w1 w2 e1 e2, steps w w1 → step w1 w2 → Inv w1 → m_executions (mem w1) !! id = Some e1 →
     m_executions (mem w2) !! id = Some e2 → R e1 e2) →
  steps w w' → Inv w → m_executions (mem w) !! id = Some e →
  m_executions (mem w') !! id = Some e' → R e e'.
Proof.
  intros Hrefl Htrans HR Hss. revert e. induction Hss as [w|w w1 w' Hs Hss IH];
    intros e Hw He He'; [by simplify_eq|].
  destruct (m_executions (mem w1) !! id) as [e1|] eqn:He1.
  - transitivity e1; [by eapply HR; eauto; constructor|].
    eapply IH; eauto using step_inv. intros. eapply HR; eauto. by econstructor.
  - destruct (inv_past _ Hw id) as (k & Hk & ->); [left; by eexists|].
    pose proof (ev_tick _ _ (step_evolves _ _ Hs Hw)).
    destruct (steps_unused w1 w' k) as [Hn _]; [done|by eapply step_inv|lia|].
    rewrite Hn in He'; done.
Qed.

#[export] Instance same_identity_reflexive : Reflexive same_identity.
Proof. intros e. apply same_identity_refl. Qed.
#[export] Instance same_identity_transitive : Transitive same_identity.
Proof. unfold same_identity. intros e1 e2 e3. naive_solver congruence. Qed.

(** The identity of an execution does not change. *)
Lemma steps_identity `{!GoEnvOk} w w' id e e' :
  steps w w' → Inv w → m_executions (mem w) !! id = Some e →
  m_executions (mem w') !! id = Some e' → same_identity e e'.
Proof.
  apply steps_execution; [apply _..|]. intros w1 w2 e1 e2 _ Hs Hw1 He1 He2.
  pose proof (ev_exec _ _ (step_evolves _ _ Hs Hw1) _ _ He2) as Hex.
  rewrite He1 in Hex. by destruct Hex.
Qed.

(** A token of the past that does not own the execution never owns it again. *)
Definition not_token (id token : UUID) (w : World) : Prop :=
  ∀ e, m_executions (mem w) !! id = Some e → e_LeaseToken e ≠ token.

Lemma steps_not_token `{!GoEnvOk} w w' id k :
  steps w w' → Inv w → k < tick w → not_token id (env_uuid k) w →
  not_token id (env_uuid k) w'.
Proof.
  induction 1 as [w|w w1 w' Hs Hss IH]; intros Hw Hk Hn; [done|].
  pose proof (step_evolves _ _ Hs Hw) as Hev. pose proof (ev_tick _ _ Hev).
  apply IH; [by eapply step_inv|lia|]. intros e1 He1.
  pose proof (ev_exec _ _ Hev _ _ He1) as Hex. pose proof (env_uuid_not_Nil k).
  destruct (m_executions (mem w) !! id) as [e|] eqn:He; simpl in Hex; [|congruence].
  destruct Hex as [_ [Heq|[Heq|(j & Hj & Heq)]]]; rewrite Heq.
  - by apply Hn.
  - done.
  - intros Hjk%(inj env_uuid). lia.
Qed.

(** The revision of a run: [n] calls add at most [n] to it. *)
Lemma step_revision `{!GoEnvOk} w w' id r r' :
  step w w' → Inv w → m_runs (mem w) !! id = Some r → m_runs (mem w') !! id = Some r' →
  ∃ d, (0 ≤ d ≤ 1)%Z ∧ r_Revision r' = uint64 (r_Revision r + d).
Proof.
  intros Hs Hw Hr Hr'. pose proof (ev_run _ _ (step_evolves _ _ Hs Hw) _ _ Hr') as Hev.
  rewrite Hr in Hev. destruct Hev as [_ [Heq|Heq]].
  - exists 0%Z. split; [lia|]. destruct (Inv_run_id _ _ _ Hw Hr) as [_ [Hb _]].
    rewrite Heq. unfold uint64. rewrite Z.add_0_r, Z.mod_small; [done|lia].
  - exists 1%Z. split; [lia|done].
Qed.

Lemma uint64_add a b : uint64 (uint64 a + b) = uint64 (a + b).
Proof. unfold uint64. apply Zplus_mod_idemp_l. Qed.

Lemma nsteps_revision `{!GoEnvOk} n w w' id r r' :
  nsteps step n w w' → Inv w → m_runs (mem w) !! id = Some r → m_runs (mem w') !! id = Some r' →
  ∃ d, (0 ≤ d ≤ Z.of_nat n)%Z ∧ r_Revision r' = uint64 (r_Revision r + d).
Proof.
  intros Hss. revert r. induction Hss as [w|n w w1 w' Hs Hss IH]; intros r Hw Hr Hr'.
  - simplify_eq. exists 0%Z. split; [lia|]. destruct (Inv_run_id _ _ _ Hw Hr) as [_ [Hb _]].
    unfold uint64. rewrite Z.add_0_r, Z.mod_small; [done|lia].
  - destruct (m_runs (mem w1) !! id) as [r1|] eqn:Hr1.
    + destruct (step_revision _ _ _ _ _ Hs Hw Hr Hr1) as (d & Hd & Hrev).
      destruct (IH r1) as (d' & Hd' & Hrev'); [by eapply step_inv|done|done|].
      exists (d + d')%Z. split; [lia|]. rewrite Hrev', Hrev, uint64_add. f_equal. lia.
    + destruct (inv_past _ Hw id) as (k & Hk & ->); [right; by eexists|].
      pose proof (ev_tick _ _ (step_evolves _ _ Hs Hw)).
      destruct (steps_unused w1 w' k) as [_ Hn]; [by eapply rtc_nsteps_2|by eapply step_inv|lia|].
      rewrite Hn in Hr'; done.
Qed.
Lemma steps_tick `{!GoEnvOk} w w' : steps w w' → Inv w → tick w ≤ tick w'.
Proof.
  induction 1 as [|w1 w2 w3 Hst _ IH]; intros Hinv; [done|].
  pose proof (ev_tick _ _ (step_evolves _ _ Hst Hinv)).
  pose proof (IH (step_inv _ _ Hst Hinv)). lia.
Qed.
End Steps.

Abbreviation steps := (rtc step).
