(* ===== verification/MemoryLists.v ===== *)
(** * Listings of the in-memory store

    [ListExecutions] and [ListPipelineRuns] return the matching records in a total order that does
    not depend on the iteration order of the maps, and their cursors page through the listing without
    gaps or repetitions. *)

From S2P Require Import Prelude GoLib Model Memory MemoryInv MemoryOps.

(** ** The descending order of creation *)

Section Order.
Context `{E : GoEnv}.

Lemma newer_spec t i u j :
  newer t i u j = true ↔ (u < t)%Z ∨ t = u ∧ str_lt (uuid_String j) (uuid_String i) = true.
Proof.
  unfold newer, Equal, After. destruct (Z.eqb_spec t u) as [->|Hne].
  - split; [auto|]. intros [?|[_ ?]]; [lia|done].
  - rewrite Z.ltb_lt. split; [auto|]. intros [?|[? _]]; [done|lia].
Qed.

Lemma newer_asym t i u j : newer t i u j = true → newer u j t i = false.
Proof.
  rewrite newer_spec. intros H. apply not_true_is_false. rewrite newer_spec.
  intros [?|[-> Hji]]; destruct H as [?|[? Hij]]; [lia..|].
  rewrite (str_lt_asym _ _ Hij) in Hji. done.
Qed.

Lemma newer_total `{!GoEnvOk} t i u j :
  newer t i u j = false → newer u j t i = false → t = u ∧ i = j.
Proof.
  rewrite <-!not_true_iff_false, !newer_spec. intros H1 H2.
  assert (t = u) as <- by lia. split; [done|]. apply (inj uuid_String).
  destruct (str_lt_total (uuid_String i) (uuid_String j)) as [?|[?|?]]; [|done|];
    exfalso; [apply H2|apply H1]; auto.
Qed.

Lemma newer_trans t i u j v k :
  newer t i u j = true → newer u j v k = true → newer t i v k = true.
Proof.
  rewrite !newer_spec. intros [?|[-> ?]] [?|[-> ?]]; [left; lia|by left|by left|].
  right. split; [done|]. by eapply str_lt_trans.
Qed.

Lemma not_newer_trans `{!GoEnvOk} t i u j v k :
  newer u j t i = false → newer v k u j = false → newer v k t i = false.
Proof.
  intros H1 H2. apply not_true_is_false. intros H3.
  destruct (newer t i u j) eqn:H4.
  - rewrite (newer_trans _ _ _ _ _ _ H3 H4) in H2. done.
  - destruct (newer_total _ _ _ _ H1 H4) as [-> ->]. congruence.
Qed.

(** A cursor admits the records that are older than it. *)
Lemma beforeCursor_newer t i c : beforeCursor t i c = newer (cu_CreatedAt c) (cu_ID c) t i.
Proof.
  unfold beforeCursor, newer, Before, Equal, After.
  destruct (Z.eqb_spec t (cu_CreatedAt c)) as [->|Hne].
  - by rewrite Z.eqb_refl, Z.ltb_irrefl.
  - rewrite (proj2 (Z.eqb_neq (cu_CreatedAt c) t)) by lia. by rewrite andb_false_l, orb_false_r.
Qed.
End Order.

(** ** Sorted listings of records with a creation time and an identifier *)

Section Listing.
Context `{E : GoEnv} `{!GoEnvOk}.
Context {A : Type} (tm : A → Time) (uid : A → UUID).

Definition newer_by (a b : A) : bool := newer (tm a) (uid a) (tm b) (uid b).

(** Records are determined by their identifiers. *)
Definition distinct (l : list A) : Prop := NoDup (uid <$> l).

Lemma distinct_eq l a b : distinct l → a ∈ l → b ∈ l → uid a = uid b → a = b.
Proof.
  intros Hd Ha Hb Heq. induction l as [|x l IH]; [by apply elem_of_nil in Ha|].
  unfold distinct in Hd. simpl in Hd. apply NoDup_cons in Hd as [Hni Hd].
  apply elem_of_cons in Ha as [->|Ha], Hb as [->|Hb]; [done| | |by apply IH].
  - destruct Hni. rewrite Heq. by apply list_elem_of_fmap_2.
  - destruct Hni. rewrite <-Heq. by apply list_elem_of_fmap_2.
Qed.

Abbreviation sorted := (StronglySorted (λ a b, newer_by b a = false)).

Lemma sort_newer_sorted l : sorted (sort_Slice newer_by l).
Proof.
  apply sort_Slice_sorted.
  - intros a b. apply newer_asym.
  - intros a b c. apply not_newer_trans.
Qed.

Lemma sorted_unique l k : distinct l → sorted l → sorted k → l ≡ₚ k → l = k.
Proof.
  intros Hd. apply StronglySorted_perm_eq. intros a b Ha Hb H1 H2.
  destruct (newer_total _ _ _ _ H1 H2) as [_ Huid]. by eapply distinct_eq.
Qed.

Lemma sort_newer_perm l k : distinct l → l ≡ₚ k → sort_Slice newer_by l = sort_Slice newer_by k.
Proof.
  intros Hd Hp. apply sorted_unique; [|apply sort_newer_sorted..|].
  - unfold distinct. by rewrite sort_Slice_perm.
  - by rewrite !sort_Slice_perm.
Qed.

(** A sorted listing of distinct records is strictly sorted. *)
Lemma sorted_strict l : distinct l → sorted l → StronglySorted (λ a b, newer_by a b = true) l.
Proof.
  unfold distinct. intros Hd Hs. induction Hs as [|a l Hl IH Ha]; [constructor|].
  simpl in Hd. apply NoDup_cons in Hd as [Hni Hd]. constructor; [by apply IH|].
  rewrite Forall_forall in Ha |- *. intros b Hb. destruct (newer_by a b) eqn:Hab; [done|].
  destruct (newer_total _ _ _ _ Hab (Ha b Hb)) as [_ Huid]. destruct Hni. rewrite Huid.
  by apply list_elem_of_fmap_2.
Qed.

(** The records after [c] in a sorted listing are those older than [c]. *)
Lemma sorted_split l1 c l2 :
  distinct (l1 ++ c :: l2) → sorted (l1 ++ c :: l2) →
  List.filter (newer_by c) (l1 ++ c :: l2) = l2.
Proof.
  intros Hd Hs. apply StronglySorted_app_2 in Hs as (_ & Hs & Hall).
  inversion_clear Hs as [|?? _ Hc]. rewrite List.filter_app. simpl.
  assert (newer_by c c = false) as ->.
  { unfold newer_by, newer, Equal. by rewrite Z.eqb_refl, str_lt_irrefl. }
  rewrite filter_false_nil, filter_true_id; [done| |].
  - intros x Hx. destruct (newer_by c x) eqn:Hn; [done|]. rewrite Forall_forall in Hc.
    destruct (newer_total _ _ _ _ Hn (Hc x Hx)) as [_ Huid]. unfold distinct in Hd.
    rewrite fmap_app in Hd. apply NoDup_app in Hd as (_ & _ & Hd). simpl in Hd.
    apply NoDup_cons in Hd as [Hni _]. destruct Hni. rewrite Huid. by apply list_elem_of_fmap_2.
  - intros x Hx. apply Hall; [done|left].
Qed.

(** Filtering commutes with sorting. *)
Lemma filter_sort (P : A → bool) l :
  distinct l → List.filter P (sort_Slice newer_by l) = sort_Slice newer_by (List.filter P l).
Proof.
  intros Hd. apply sorted_unique.
  - unfold distinct. rewrite (filter_Permutation_bool P _ l) by apply sort_Slice_perm.
    clear -Hd. induction l as [|x l IH]; simpl; [constructor|].
    unfold distinct in Hd. simpl in Hd. apply NoDup_cons in Hd as [Hni Hd].
    destruct (P x); [|by apply IH]. simpl. constructor; [|by apply IH].
    intros (y & Heq & [Hy _]%elem_of_filter_In)%list_elem_of_fmap. apply Hni. rewrite Heq.
    by apply list_elem_of_fmap_2.
  - apply StronglySorted_filter, sort_newer_sorted.
  - apply sort_newer_sorted.
  - transitivity (List.filter P l); [apply filter_Permutation_bool, sort_Slice_perm|].
    symmetry. apply sort_Slice_perm.
Qed.
End Listing.

(** ** The listings of a store *)

Section StoreListings.
Context `{E : GoEnv} `{!GoEnvOk}.

Abbreviation executions_of w := ((map_to_list (m_executions (mem w))).*2).
Abbreviation runs_of w := ((map_to_list (m_runs (mem w))).*2).

(** All the matching records, newest first, whatever the limit. *)
Definition listing (filter : ListFilter) (w : World) : list Execution :=
  sort_Slice newer_execution
    (cloneExecution <$> List.filter (matches_filter filter) (executions_of w)).

Definition run_listing (filter : RunFilter) (w : World) : list PipelineRun :=
  sort_Slice newer_run (cloneRun <$> List.filter (matches_run_filter filter) (runs_of w)).

Lemma NoDup_values {A} (uid : A → UUID) (P : A → bool) (m : gmap UUID A) :
  (∀ i x, m !! i = Some x → uid x = i) →
  NoDup (uid <$> List.filter P (map_to_list m).*2).
Proof.
  intros Huid. assert (∀ i x, (i, x) ∈ map_to_list m → uid x = i) as Hin
    by (intros i x ?%elem_of_map_to_list; auto).
  pose proof (NoDup_fst_map_to_list m) as Hnd. revert Hin Hnd.
  generalize (map_to_list m). clear Huid m. intros l. induction l as [|[i x] l IH]; simpl; [constructor|].
  intros Hin [Hni Hnd]%NoDup_cons. assert (NoDup (uid <$> List.filter P l.*2)) as IH'.
  { apply IH; [|done]. intros j y ?. apply Hin. by right. }
  destruct (P x); [|done]. simpl. constructor; [|done].
  intros (y & Heq & [Hy _]%elem_of_filter_In)%list_elem_of_fmap.
  apply list_elem_of_fmap in Hy as ([j y'] & -> & Hy). apply Hni.
  rewrite <-(Hin i x) by left. simpl in Heq. rewrite Heq. rewrite (Hin j y') by (by right).
  apply list_elem_of_fmap. by exists (j, y').
Qed.

(** Records are stored under their identifiers. *)
Definition keyed (w : World) : Prop :=
  (∀ id e, m_executions (mem w) !! id = Some e → e_ID e = id) ∧
  (∀ id r, m_runs (mem w) !! id = Some r → r_ID r = id).

Lemma Inv_keyed w : Inv w → keyed w.
Proof. intros Hinv. split; [intros id e; by apply Inv_id|intros id r Hr; by apply (Inv_run_id w)]. Qed.

Lemma listing_distinct P w :
  keyed w → distinct e_ID (cloneExecution <$> List.filter P (executions_of w)).
Proof.
  intros [Hk _]. unfold distinct. rewrite <-list_fmap_compose. apply NoDup_values.
  intros i x ?. by apply Hk.
Qed.

Lemma run_listing_distinct P w :
  keyed w → distinct r_ID (cloneRun <$> List.filter P (runs_of w)).
Proof.
  intros [_ Hk]. unfold distinct. rewrite <-list_fmap_compose. apply NoDup_values.
  intros i x ?. by apply Hk.
Qed.

(** A call returns the first records of the listing; the order of the map iteration is
    irrelevant. *)
Lemma ListExecutions_keyed filter w :
  keyed w →
  ListExecutions filter w =
    (inr (limit_slice (f_Limit filter) (listing filter w)), mkWorld (mem w) (S (tick w))).
Proof.
  intros Hinv. unfold ListExecutions, mbind, M_bind, gets, range, mret, M_ret.
  do 3 f_equal. symmetry.
  apply (sort_newer_perm e_CreatedAt e_ID); [by apply listing_distinct|].
  apply fmap_Permutation, filter_Permutation_bool, fmap_Permutation. symmetry.
  apply env_shuffle_perm.
Qed.

Lemma ListPipelineRuns_keyed filter w :
  keyed w →
  ListPipelineRuns filter w =
    (inr (limit_slice (rf_Limit filter) (run_listing filter w)), mkWorld (mem w) (S (tick w))).
Proof.
  intros Hinv. unfold ListPipelineRuns, mbind, M_bind, gets, range, mret, M_ret.
  do 3 f_equal. symmetry.
  apply (sort_newer_perm r_CreatedAt r_ID); [by apply run_listing_distinct|].
  apply fmap_Permutation, filter_Permutation_bool, fmap_Permutation. symmetry.
  apply env_shuffle_perm.
Qed.

Lemma ListExecutions_run filter w :
  Inv w →
  ListExecutions filter w =
    (inr (limit_slice (f_Limit filter) (listing filter w)), mkWorld (mem w) (S (tick w))).
Proof. intros Hinv. by apply ListExecutions_keyed, Inv_keyed. Qed.

Lemma ListPipelineRuns_run filter w :
  Inv w →
  ListPipelineRuns filter w =
    (inr (limit_slice (rf_Limit filter) (run_listing filter w)), mkWorld (mem w) (S (tick w))).
Proof. intros Hinv. by apply ListPipelineRuns_keyed, Inv_keyed. Qed.

Lemma elem_of_values {A} (m : gmap UUID A) x :
  x ∈ (map_to_list m).*2 ↔ ∃ i, m !! i = Some x.
Proof.
  rewrite list_elem_of_fmap. split.
  - intros ([i y] & -> & Hy%elem_of_map_to_list). by exists i.
  - intros [i Hi]. exists (i, x). split; [done|]. by apply elem_of_map_to_list.
Qed.

Lemma elem_of_listing filter w e :
  e ∈ listing filter w ↔
  ∃ id e0, m_executions (mem w) !! id = Some e0 ∧ matches_filter filter e0 = true ∧
    e = cloneExecution e0.
Proof.
  unfold listing. rewrite elem_of_sort_Slice, list_elem_of_fmap. split.
  - intros (e0 & -> & [(id & ?)%elem_of_values ?]%elem_of_filter_In). by exists id, e0.
  - intros (id & e0 & ? & ? & ->). exists e0. split; [done|]. apply elem_of_filter_In.
    split; [|done]. apply elem_of_values. by exists id.
Qed.

Lemma elem_of_run_listing filter w r :
  r ∈ run_listing filter w ↔
  ∃ id r0, m_runs (mem w) !! id = Some r0 ∧ matches_run_filter filter r0 = true ∧
    r = cloneRun r0.
Proof.
  unfold run_listing. rewrite elem_of_sort_Slice, list_elem_of_fmap. split.
  - intros (e0 & -> & [(id & ?)%elem_of_values ?]%elem_of_filter_In). by exists id, e0.
  - intros (id & e0 & ? & ? & ->). exists e0. split; [done|]. apply elem_of_filter_In.
    split; [|done]. apply elem_of_values. by exists id.
Qed.

(** ** Paging *)

(** The filter of the page after the one that ends with [last]. *)
Definition next_page (filter : ListFilter) (last : Execution) : ListFilter :=
  mkListFilter (f_TaskName filter) (f_Status filter) (f_PipelineRunID filter) (f_Limit filter)
    (Some (mkCursor (e_CreatedAt last) (e_ID last))).

Definition next_run_page (filter : RunFilter) (last : PipelineRun) : RunFilter :=
  mkRunFilter (rf_Statuses filter) (rf_Limit filter)
    (Some (mkCursor (r_CreatedAt last) (r_ID last))).

Lemma filter_fmap_clone {A} (f : A → A) (P Q : A → bool) l :
  (∀ x, x ∈ l → Q x = P (f x)) → f <$> List.filter Q l = List.filter P (f <$> l).
Proof.
  induction l as [|x l IH]; simpl; intros Heq; [done|]. rewrite (Heq x) by left.
  destruct (P (f x)); [simpl; f_equal|]; apply IH; intros y ?; apply Heq; by right.
Qed.

Lemma filter_filter {A} (P Q : A → bool) l :
  List.filter P (List.filter Q l) = List.filter (λ x, Q x && P x) l.
Proof.
  induction l as [|x l IH]; simpl; [done|]. destruct (Q x); simpl; [|done].
  destruct (P x); by rewrite IH.
Qed.

(** The cursor of a listed record, on top of the cursor of the listing, selects the records older
    than it. *)
Lemma matches_next_page filter c e :
  matches_filter filter c = true →
  matches_filter (next_page filter c) e = matches_filter filter e && newer_execution c e.
Proof.
  unfold matches_filter, next_page, newer_execution. simpl. rewrite beforeCursor_newer. simpl.
  intros Hc. rewrite <-!andb_assoc. repeat f_equal.
  destruct (f_Before filter) as [cu|]; simpl; [|done].
  apply andb_prop in Hc as [_ Hc]. simpl in Hc. rewrite beforeCursor_newer in Hc |- *.
  destruct (newer (e_CreatedAt c) (e_ID c) (e_CreatedAt e) (e_ID e)) eqn:Hce;
    [|by rewrite andb_false_r]. by rewrite (newer_trans _ _ _ _ _ _ Hc Hce).
Qed.

Lemma matches_next_run_page filter c r :
  matches_run_filter filter c = true →
  matches_run_filter (next_run_page filter c) r = matches_run_filter filter r && newer_run c r.
Proof.
  unfold matches_run_filter, next_run_page, newer_run. simpl. rewrite beforeCursor_newer. simpl.
  intros Hc. rewrite <-!andb_assoc. repeat f_equal.
  destruct (rf_Before filter) as [cu|]; simpl; [|done].
  apply andb_prop in Hc as [_ Hc]. simpl in Hc. rewrite beforeCursor_newer in Hc |- *.
  destruct (newer (r_CreatedAt c) (r_ID c) (r_CreatedAt r) (r_ID r)) eqn:Hcr;
    [|by rewrite andb_false_r]. by rewrite (newer_trans _ _ _ _ _ _ Hc Hcr).
Qed.

(** The listing after the cursor of a listed record is the rest of the listing. *)
Lemma listing_next filter w l1 c l2 :
  Inv w → listing filter w = l1 ++ c :: l2 → listing (next_page filter c) w = l2.
Proof.
  intros Hinv Hl. pose proof (listing_distinct (matches_filter filter) w (Inv_keyed _ Hinv)) as Hd.
  assert (c ∈ listing filter w) as (id & c0 & _ & Hc & ->)%elem_of_listing
    by (rewrite Hl; set_solver).
  rewrite <-(sorted_split e_CreatedAt e_ID l1 (cloneExecution c0) l2); rewrite <-?Hl.
  - unfold listing. change newer_execution with (newer_by e_CreatedAt e_ID).
    rewrite (filter_sort e_CreatedAt e_ID) by done.
    f_equal. rewrite <-(filter_fmap_clone cloneExecution _ (newer_execution (cloneExecution c0)))
      by done. rewrite filter_filter. f_equal. apply filter_ext. intros e.
    rewrite <-matches_next_page by done. done.
  - unfold listing, distinct. by rewrite sort_Slice_perm.
  - apply (sort_newer_sorted e_CreatedAt e_ID).
Qed.

Lemma run_listing_next filter w l1 c l2 :
  Inv w → run_listing filter w = l1 ++ c :: l2 → run_listing (next_run_page filter c) w = l2.
Proof.
  intros Hinv Hl. pose proof (run_listing_distinct (matches_run_filter filter) w (Inv_keyed _ Hinv)) as Hd.
  assert (c ∈ run_listing filter w) as (id & c0 & _ & Hc & ->)%elem_of_run_listing
    by (rewrite Hl; set_solver).
  rewrite <-(sorted_split r_CreatedAt r_ID l1 (cloneRun c0) l2); rewrite <-?Hl.
  - unfold run_listing. change newer_run with (newer_by r_CreatedAt r_ID).
    rewrite (filter_sort r_CreatedAt r_ID) by done.
    f_equal. rewrite <-(filter_fmap_clone cloneRun _ (newer_run (cloneRun c0))) by done.
    rewrite filter_filter. f_equal. apply filter_ext. intros e.
    rewrite <-matches_next_run_page by done. done.
  - unfold run_listing, distinct. by rewrite sort_Slice_perm.
  - apply (sort_newer_sorted r_CreatedAt r_ID).
Qed.

(** A client that follows the cursors, at most [fuel] pages. *)
Fixpoint collect_pages (fuel : nat) (filter : ListFilter) : M World (list Execution) :=
  match fuel with
  | O => mret []
  | S fuel' =>
      page ← ListExecutions filter;
      match last page with
      | None => mret []
      | Some c => rest ← collect_pages fuel' (next_page filter c); mret (page ++ rest)
      end
  end.

Fixpoint collect_run_pages (fuel : nat) (filter : RunFilter) : M World (list PipelineRun) :=
  match fuel with
  | O => mret []
  | S fuel' =>
      page ← ListPipelineRuns filter;
      match last page with
      | None => mret []
      | Some c => rest ← collect_run_pages fuel' (next_run_page filter c); mret (page ++ rest)
      end
  end.

(** A limited page of a listing is a prefix, empty only when the listing is. *)
Lemma limit_slice_split {A} limit (l : list A) :
  (limit_slice limit l = [] ∧ l = []) ∨
  ∃ l1 c l2, limit_slice limit l = l1 ++ [c] ∧ l = l1 ++ c :: l2.
Proof.
  destruct (limit_slice_prefix limit l) as [k Hk].
  destruct (limit_slice limit l) as [|x l1 _] eqn:Hs using rev_ind.
  - left. split; [done|]. unfold limit_slice in Hs. split_matches; [|done].
    reflect_bool. apply (f_equal length) in Hs. rewrite length_take in Hs. simpl in Hs. lia.
  - right. exists l1, x, k. split; [done|]. by rewrite Hk, <-app_assoc.
Qed.

Lemma collect_pages_all fuel filter w :
  Inv w → length (listing filter w) < fuel →
  (collect_pages fuel filter w).1 = inr (listing filter w).
Proof.
  revert filter w. induction fuel as [|fuel IH]; intros filter w Hinv Hlen; [lia|].
  cbn [collect_pages]. unfold mbind, M_bind at 1. rewrite ListExecutions_run by done.
  destruct (limit_slice_split (f_Limit filter) (listing filter w))
    as [[-> ->]|(l1 & c & l2 & -> & Hl)]; [done|].
  rewrite last_snoc. pose proof (listing_next _ _ _ _ _ Hinv Hl) as Hnext.
  set (w1 := mkWorld (mem w) (S (tick w))).
  assert (Inv w1) as Hinv1 by (eapply (Inv_tick _ (tick w)); [lia|by destruct w]).
  assert (listing (next_page filter c) w1 = l2) as Hnext' by done.
  specialize (IH (next_page filter c) w1 Hinv1). rewrite Hnext' in IH. rewrite Hl in Hlen |- *.
  rewrite length_app in Hlen. simpl in Hlen. unfold M_bind.
  destruct (collect_pages fuel (next_page filter c) w1) as [r w2]. simpl in IH.
  rewrite IH by lia. simpl. by rewrite <-app_assoc.
Qed.

Lemma collect_run_pages_all fuel filter w :
  Inv w → length (run_listing filter w) < fuel →
  (collect_run_pages fuel filter w).1 = inr (run_listing filter w).
Proof.
  revert filter w. induction fuel as [|fuel IH]; intros filter w Hinv Hlen; [lia|].
  cbn [collect_run_pages]. unfold mbind, M_bind at 1. rewrite ListPipelineRuns_run by done.
  destruct (limit_slice_split (rf_Limit filter) (run_listing filter w))
    as [[-> ->]|(l1 & c & l2 & -> & Hl)]; [done|].
  rewrite last_snoc. pose proof (run_listing_next _ _ _ _ _ Hinv Hl) as Hnext.
  set (w1 := mkWorld (mem w) (S (tick w))).
  assert (Inv w1) as Hinv1 by (eapply (Inv_tick _ (tick w)); [lia|by destruct w]).
  assert (run_listing (next_run_page filter c) w1 = l2) as Hnext' by done.
  specialize (IH (next_run_page filter c) w1 Hinv1). rewrite Hnext' in IH. rewrite Hl in Hlen |- *.
  rewrite length_app in Hlen. simpl in Hlen. unfold M_bind.
  destruct (collect_run_pages fuel (next_run_page filter c) w1) as [r w2]. simpl in IH.
  rewrite IH by lia. simpl. by rewrite <-app_assoc.
Qed.
End StoreListings.
