(* ===== verification/MemoryCounts.v ===== *)
(** * Statistics of the in-memory store

    [ExecutionCounts] and [PipelineCounts] report, for every task (pipeline) and status in use, the
    number of records, each pair once, in the order of the pairs. *)

From S2P Require Import Prelude GoLib Model Memory MemoryInv MemoryOps MemoryLists.

(** ** The order of the rows *)

Lemma pair_less_spec a b :
  pair_less a b = true ↔ str_lt a.1 b.1 = true ∨ a.1 = b.1 ∧ str_lt a.2 b.2 = true.
Proof.
  unfold pair_less. case_bool_decide as Heq; [rewrite Heq, str_lt_irrefl|]; naive_solver.
Qed.

Lemma pair_less_trans a b c : pair_less a b = true → pair_less b c = true → pair_less a c = true.
Proof.
  rewrite !pair_less_spec. intros [?|[-> ?]] [?|[<- ?]];
    [left; by eapply str_lt_trans|by left|by left|right; eauto using str_lt_trans].
Qed.

Lemma pair_less_irrefl a : pair_less a a = false.
Proof. unfold pair_less. rewrite bool_decide_true by done. apply str_lt_irrefl. Qed.

Lemma pair_less_asym a b : pair_less a b = true → pair_less b a = false.
Proof.
  intros Hab. destruct (pair_less b a) eqn:Hba; [|done].
  pose proof (pair_less_trans _ _ _ Hab Hba) as H. by rewrite pair_less_irrefl in H.
Qed.

Lemma pair_less_total a b : pair_less a b = true ∨ a = b ∨ pair_less b a = true.
Proof.
  rewrite !pair_less_spec. destruct a as [a1 a2], b as [b1 b2]; simpl.
  destruct (str_lt_total a1 b1) as [?|[->|?]]; [auto| |auto].
  destruct (str_lt_total a2 b2) as [?|[->|?]]; auto.
Qed.

Lemma pair_geq_trans a b c :
  pair_less b a = false → pair_less c b = false → pair_less c a = false.
Proof.
  intros Hba Hcb. destruct (pair_less c a) eqn:Hca; [|done].
  destruct (pair_less_total a b) as [Hab|[->|?]]; [|congruence..].
  pose proof (pair_less_trans _ _ _ Hca Hab). congruence.
Qed.

(** ** Counting *)

(** The number of occurrences of a pair. *)
Definition occurrences_of (k : string * string) (keys : list (string * string)) : Z :=
  Z.of_nat (length (List.filter (λ k', bool_decide (k' = k)) keys)).

Lemma occurrences_of_perm k keys keys' :
  keys ≡ₚ keys' → occurrences_of k keys = occurrences_of k keys'.
Proof. intros Hp. unfold occurrences_of. by rewrite (filter_Permutation_bool _ _ _ Hp). Qed.

Lemma count_keys_lookup keys k n :
  count_keys keys !! k = Some n ↔ (0 < n)%Z ∧ n = occurrences_of k keys.
Proof.
  assert (default 0%Z (count_keys keys !! k) = occurrences_of k keys ∧
          (is_Some (count_keys keys !! k) ↔ (0 < occurrences_of k keys)%Z)) as [H1 H2].
  { unfold occurrences_of. induction keys as [|k' keys [IH1 IH2]]; simpl.
    - rewrite lookup_empty. split; [done|]. split; [by intros []|lia].
    - case_bool_decide as Hk; [subst k'; rewrite lookup_insert_eq|rewrite lookup_insert_ne by done].
      + simpl. rewrite IH1. split; [lia|]. split; [lia|eauto].
      + done. }
  destruct (count_keys keys !! k) as [m|]; simpl in *.
  - assert (0 < occurrences_of k keys)%Z by (apply H2; eauto). split; [|intros [_ ->]; congruence].
    intros [= ->]. by rewrite H1.
  - split; [done|]. intros [? ->]. destruct (proj2 H2); [done|congruence].
Qed.

Section Rows.
Context {R : Type} (mk : string * string → Z → R) (key : R → string * string) (count : R → Z).
Context (key_mk : ∀ k n, key (mk k n) = k) (count_mk : ∀ k n, count (mk k n) = n)
  (mk_eta : ∀ r, mk (key r) (count r) = r).

Abbreviation row_less := (λ a b, pair_less (key a) (key b)).

(** What a report promises of the counted pairs. *)
Definition report (keys : list (string * string)) (rows : list R) : Prop :=
  (∀ row, row ∈ rows ↔ (0 < count row)%Z ∧ count row = occurrences_of (key row) keys) ∧
  StronglySorted (λ a b, row_less a b = true) rows.

Lemma strictly_sorted rows :
  NoDup (key <$> rows) → StronglySorted (λ a b, row_less b a = false) rows →
  StronglySorted (λ a b, row_less a b = true) rows.
Proof.
  induction 2 as [|a l Hl IH Ha]; [constructor|]. simpl in *.
  match goal with H : NoDup _ |- _ => apply NoDup_cons in H as [Hni Hnd] end.
  constructor; [by apply IH|]. rewrite Forall_forall in Ha |- *. intros b Hb.
  destruct (pair_less_total (key a) (key b)) as [?|[Heq|Hlt]]; [done| |].
  - destruct Hni. rewrite Heq. by apply list_elem_of_fmap_2.
  - pose proof (Ha b Hb). congruence.
Qed.

Lemma report_counts keys keys' entries :
  keys' ≡ₚ keys → entries ≡ₚ map_to_list (count_keys keys') →
  report keys (sort_Slice row_less ((λ '(k, n), mk k n) <$> entries)).
Proof using key_mk count_mk mk_eta.
  intros Hkeys Hentries. split.
  - intros row. rewrite elem_of_sort_Slice, list_elem_of_fmap.
    rewrite <-(occurrences_of_perm _ _ _ Hkeys), <-count_keys_lookup. split.
    + intros ([k n] & -> & Hin). rewrite Hentries, elem_of_map_to_list in Hin.
      by rewrite key_mk, count_mk.
    + intros Hl. exists (key row, count row). rewrite mk_eta. split; [done|].
      by rewrite Hentries, elem_of_map_to_list.
  - apply strictly_sorted.
    + rewrite sort_Slice_perm, <-list_fmap_compose.
      replace (key ∘ _ <$> entries) with (entries.*1).
      * rewrite Hentries. apply NoDup_fst_map_to_list.
      * apply list_fmap_ext. intros i [k n] _. simpl. by rewrite key_mk.
    + apply sort_Slice_sorted.
      * intros a b. apply pair_less_asym.
      * intros a b c. apply pair_geq_trans.
Qed.
End Rows.

(** ** The two reports *)

Section Counts.
Context `{E : GoEnv} `{!GoEnvOk}.

Definition execution_key (e : Execution) : string * string :=
  (e_TaskName e, Status_string (e_Status e)).
Definition run_key (r : PipelineRun) : string * string :=
  (r_PipelineName r, RunStatus_string (r_Status r)).

Lemma ExecutionCounts_report w :
  wp ExecutionCounts (λ r w', mem w' = mem w ∧ ∃ rows, r = inr rows ∧
    report (λ row, (ec_TaskName row, ec_Status row)) ec_Count
      (execution_key <$> (map_to_list (m_executions (mem w))).*2) rows) w.
Proof.
  split; [apply ExecutionCounts_read|]. eexists. split; [reflexivity|].
  eapply (report_counts (λ k n, mkExecutionCount k.1 k.2 n)); [by intros []|done|by intros []| |].
  - apply fmap_Permutation, fmap_Permutation, env_shuffle_perm.
  - apply env_shuffle_perm.
Qed.

Lemma PipelineCounts_report w :
  wp PipelineCounts (λ r w', mem w' = mem w ∧ ∃ rows, r = inr rows ∧
    report (λ row, (pc_PipelineName row, pc_Status row)) pc_Count
      (run_key <$> (map_to_list (m_runs (mem w))).*2) rows) w.
Proof.
  split; [apply PipelineCounts_read|]. eexists. split; [reflexivity|].
  eapply (report_counts (λ k n, mkPipelineCount k.1 k.2 n)); [by intros []|done|by intros []| |].
  - apply fmap_Permutation, fmap_Permutation, env_shuffle_perm.
  - apply env_shuffle_perm.
Qed.
End Counts.
