(* ===== verification/Task.v ===== *)
(** * Task definitions (src/task/task.go)

    Versioned task definitions with their options, the retry policies, the error wrappers that
    steer retries, and the enqueueing of an execution through a store. *)

From S2P Require Import Prelude GoLib Model.

(** ** JSON

    [encoding/json] on the Go type that [A] stands for: [Marshal] yields a text, [Unmarshal] reads
    one. *)
Class Codec (A : Type) := {
  Marshal : A → error + string;
  Unmarshal : RawMessage → error + A;
}.

(** Values that can be encoded are read back as they were, and no JSON text is empty. *)
Class CodecOk A `{!Codec A} : Prop := {
  Marshal_Unmarshal : ∀ a raw, Marshal a = inr raw → Unmarshal (Some raw) = inr a;
  Marshal_nonempty : ∀ a raw, Marshal a = inr raw → raw ≠ EmptyString;
}.

(** ** Retry policies *)

(** The delay after a completed attempt, which starts at one. *)
Definition RetryPolicy : Type := Z → Duration.

(** The loop of [ExponentialBackoff], [n] iterations at most. *)
Fixpoint backoff_loop (n : nat) (maximum delay : Duration) : Duration :=
  match n with
  | O => delay
  | S n' =>
      if (delay <? Z.quot maximum 2)%Z then backoff_loop n' maximum (int64 (delay * 2)) else delay
  end.

Definition ExponentialBackoff (base maximum : Duration) : RetryPolicy := λ attempt,
  let attempt := if (attempt <? 1)%Z then 1%Z else attempt in
  let delay := backoff_loop (Z.to_nat (attempt - 1)) maximum base in
  if (maximum <? delay)%Z then maximum else delay.

Arguments ExponentialBackoff (_ _ _)%_Z.

(** ** Definitions *)

Record specification := mkSpecification {
  s_name : string;
  s_version : Z;
  s_maxAttempts : Z;
  s_timeout : Duration;
  s_retry : option RetryPolicy;
}.

(** The typed definition: the types are the codecs its operations are given. *)
Record Definition_ (I O : Type) := mkDefinition { d_spec : specification }.
Arguments mkDefinition {I O} d_spec.
Arguments d_spec {I O} d.

(** A nil option is skipped. *)
Definition Option_ : Type := option (specification → specification).

Definition WithVersion (version : Z) : Option_ := Some (λ s,
  mkSpecification (s_name s) version (s_maxAttempts s) (s_timeout s) (s_retry s)).
Definition WithMaxAttempts (attempts : Z) : Option_ := Some (λ s,
  mkSpecification (s_name s) (s_version s) attempts (s_timeout s) (s_retry s)).
Definition WithTimeout (timeout : Duration) : Option_ := Some (λ s,
  mkSpecification (s_name s) (s_version s) (s_maxAttempts s) timeout (s_retry s)).
Definition WithRetryPolicy (policy : option RetryPolicy) : Option_ := Some (λ s,
  mkSpecification (s_name s) (s_version s) (s_maxAttempts s) (s_timeout s) policy).

(** Apply the options of a call in order. *)
Definition apply_options {S : Type} (options : list (option (S → S))) (s : S) : S :=
  foldl (λ s option, match option with Some f => f s | None => s end) s options.

Section Definitions.
Context {I O : Type}.

Definition New (name : string) (options : list Option_) : Definition_ I O :=
  mkDefinition (apply_options options
    (mkSpecification (TrimSpace name) 1 3 0
       (Some (ExponentialBackoff (100 * Millisecond) (30 * Second))))).

Definition Name (d : Definition_ I O) : string := s_name (d_spec d).
Definition Version (d : Definition_ I O) : Z := s_version (d_spec d).
Definition MaxAttempts (d : Definition_ I O) : Z := s_maxAttempts (d_spec d).
Definition Timeout (d : Definition_ I O) : Duration := s_timeout (d_spec d).

Definition Validate (d : Definition_ I O) : option error :=
  if bool_decide (s_name (d_spec d) = EmptyString) then Some (ErrEmptyName : error) else
  if (s_version (d_spec d) <=? 0)%Z then
    Some (fmt_Errorf "task %q version must be positive" [s_name (d_spec d)]) else
  if (s_maxAttempts (d_spec d) <=? 0)%Z then
    Some (fmt_Errorf "task %q max attempts must be positive" [s_name (d_spec d)]) else
  match s_retry (d_spec d) with
  | None => Some (fmt_Errorf "task %q retry policy is nil" [s_name (d_spec d)])
  | Some _ => None
  end.

Definition EncodeInput `{!Codec I} (d : Definition_ I O) (input : I) : error + RawMessage :=
  match Validate d with
  | Some err => inl err
  | None =>
      match Marshal input with
      | inl err => inl (fmtError "encode task %q input: %w" [Name d] (Some err) [])
      | inr raw => inr (Some raw)
      end
  end.

(** [ExecutionCreator] is the one method of a store that [Enqueue] calls; the interface value may be
    nil. *)
Definition Enqueue {W} `{!Codec I} (d : Definition_ I O)
    (store : option (CreateExecutionRequest → M W Execution)) (input : I)
    (options : list (option (CreateExecutionRequest → CreateExecutionRequest))) : M W Execution :=
  match store with
  | None => throw (errorString "execution store is nil")
  | Some CreateExecution =>
      match EncodeInput d input with
      | inl err => throw err
      | inr raw =>
          let request := mkCreateExecution (Name d) (Version d) raw (MaxAttempts d) 0 EmptyString
                           None EmptyString in
          CreateExecution (apply_options options request)
      end
  end.
End Definitions.

Definition WithAvailableAt (value : Time) : option (CreateExecutionRequest → CreateExecutionRequest) :=
  Some (λ r, r <| c_AvailableAt := value |>).
Definition WithIdempotencyKey (value : string)
    : option (CreateExecutionRequest → CreateExecutionRequest) :=
  Some (λ r, r <| c_IdempotencyKey := value |>).

(** ** Error wrappers (src/task/registry.go) *)

Definition Permanent (err : option error) : option error := permanentError <$> err.

(** [errors.As] searches the wrapped errors depth first, an error before those it wraps. *)
Fixpoint IsPermanent (err : error) : bool :=
  match err with
  | permanentError _ => true
  | Sentinel _ | errorString _ => false
  | fmtError _ _ wrapped _ => match wrapped with Some e => IsPermanent e | None => false end
  | joinError errs => existsb IsPermanent errs
  | retryAfterError e _ => IsPermanent e
  end.

Definition RetryAfter (err : option error) (delay : Duration) : option error :=
  (λ e, retryAfterError e delay) <$> err.

Fixpoint RetryDelay (err : error) : option Duration :=
  match err with
  | retryAfterError _ delay => Some delay
  | Sentinel _ | errorString _ => None
  | fmtError _ _ wrapped _ => match wrapped with Some e => RetryDelay e | None => None end
  | joinError errs =>
      foldr (λ e rest, match RetryDelay e with Some delay => Some delay | None => rest end) None errs
  | permanentError e => RetryDelay e
  end.

(** ** Lemmas on retry policies *)

Section Backoff.
Context (base maximum : Duration) (Hbase : (0 < base ≤ MaxInt64)%Z)
  (Hmax : (0 < maximum ≤ MaxInt64)%Z).

(** The delay after [k] doublings, without wrap-around: it stops growing at half the maximum. *)
Fixpoint delay_after (k : nat) : Z :=
  match k with
  | O => base
  | S k' => if (delay_after k' <? Z.quot maximum 2)%Z then (delay_after k' * 2)%Z else delay_after k'
  end.

Lemma half_bounds : (0 ≤ Z.quot maximum 2)%Z ∧ (2 * Z.quot maximum 2 ≤ maximum)%Z ∧
  (maximum ≤ 2 * Z.quot maximum 2 + 1)%Z.
Proof using Hmax.
  rewrite Z.quot_div_nonneg by lia. pose proof (Z.div_mod maximum 2).
  pose proof (Z.mod_pos_bound maximum 2). lia.
Qed.

Lemma delay_after_bounds k :
  (base ≤ delay_after k)%Z ∧ (delay_after k ≤ Z.max base (maximum - 1))%Z.
Proof using Hbase Hmax.
  pose proof half_bounds. induction k as [|k IH]; simpl; [lia|].
  destruct (Z.ltb_spec (delay_after k) (Z.quot maximum 2)); lia.
Qed.

Lemma delay_after_stop k j :
  (Z.quot maximum 2 ≤ delay_after k)%Z → k ≤ j → delay_after j = delay_after k.
Proof.
  intros Hk Hj. induction Hj as [|j Hj IH]; [done|]. simpl. rewrite IH.
  by rewrite (proj2 (Z.ltb_ge _ _) Hk).
Qed.

Lemma backoff_loop_delay n k :
  backoff_loop n maximum (delay_after k) = delay_after (k + n).
Proof using Hbase Hmax.
  revert k. induction n as [|n IH]; intros k; simpl; [by rewrite Nat.add_0_r|].
  destruct (Z.ltb_spec (delay_after k) (Z.quot maximum 2)) as [Hlt|Hge].
  - pose proof (delay_after_bounds k). pose proof half_bounds.
    unfold MaxInt64 in *. rewrite int64_id by (unfold MaxInt64; lia).
    replace (delay_after k * 2)%Z with (delay_after (S k)).
    + rewrite IH. f_equal. lia.
    + simpl. by rewrite (proj2 (Z.ltb_lt _ _) Hlt).
  - symmetry. apply delay_after_stop; [done|lia].
Qed.

Lemma ExponentialBackoff_delay attempt :
  ExponentialBackoff base maximum attempt =
  Z.min maximum (delay_after (Z.to_nat (attempt - 1))).
Proof using Hbase Hmax.
  unfold ExponentialBackoff.
  replace (Z.to_nat ((if (attempt <? 1)%Z then 1 else attempt) - 1)) with (Z.to_nat (attempt - 1))
    by (destruct (Z.ltb_spec attempt 1); lia).
  change base with (delay_after 0) at 1 2. rewrite backoff_loop_delay. simpl.
  destruct (Z.ltb_spec maximum (delay_after (Z.to_nat (attempt - 1)))); lia.
Qed.

(** Below half the maximum the delay is a power of two times the base. *)
Lemma delay_after_growth k :
  (Z.quot maximum 2 ≤ delay_after k)%Z ∨ (2 ^ Z.of_nat k ≤ delay_after k)%Z.
Proof using Hbase Hmax.
  induction k as [|k IH]; [right; simpl; lia|].
  destruct (Z.ltb_spec (delay_after k) (Z.quot maximum 2)) as [Hlt|Hge].
  - destruct IH as [?|IH]; [lia|]. right. simpl delay_after.
    rewrite (proj2 (Z.ltb_lt _ _) Hlt), Nat2Z.inj_succ, Z.pow_succ_r by lia. lia.
  - left. simpl. by rewrite (proj2 (Z.ltb_ge _ _) Hge).
Qed.
End Backoff.
