(* ===== verification/TaskRegistry.v ===== *)
(** * Bindings, modules and the task registry (src/task/registry.go)

    A binding erases the types of a definition and its handler; modules group bindings; the registry
    routes an execution to the binding of its task and version. *)

From S2P Require Import Prelude GoLib Model Task.

Record Message (I : Type) := mkMessage {
  msg_ExecutionID : string;
  msg_Input : I;
  msg_Attempt : Z;
  msg_MaxAttempts : Z;
}.
Arguments mkMessage {I} _ _ _ _.
Arguments msg_ExecutionID {I} _.
Arguments msg_Input {I} _.
Arguments msg_Attempt {I} _.
Arguments msg_MaxAttempts {I} _.

(** What running user code does: it returns, or panics with a value whose text and stack are given. *)
Inductive outcome (O : Type) :=
  | Returned (r : error + O)
  | Panicked (recovered stack : string).
Arguments Returned {O} r.
Arguments Panicked {O} recovered stack.

Definition Handler (W I O : Type) : Type := Message I → W → outcome O * W.

Definition descriptorKey (name : string) (version : Z) : string :=
  name +:+ "@v" +:+ pretty version.

Section Registry.
Context `{E : GoEnv} {W : Type}.

Record descriptor := mkDescriptor {
  t_name : string;
  t_version : Z;
  t_maxAttempts : Z;
  t_timeout : Duration;
  t_retry : option RetryPolicy;
  t_execute : Execution → M W RawMessage;
}.

(** A binding is a descriptor or the error found when it was made. *)
Definition Binding : Type := error + descriptor.

(** The closure [Handle] builds; a panic of the handler becomes an ordinary error. *)
Definition handle_execute {I O} `{!Codec I, !Codec O} (name : string) (handler : Handler W I O)
    (item : Execution) : M W RawMessage :=
  match Unmarshal (e_Input item) with
  | inl err => throw (permanentError (fmtError "decode task %q input: %w" [name] (Some err) []))
  | inr input =>
      let message := mkMessage (uuid_String (e_ID item)) input (e_Attempt item)
                       (e_MaxAttempts item) in
      λ w,
        let '(result, w') := handler message w in
        (match result with
         | Panicked recovered stack => 
             inl (fmt_Errorf ("task panic: %v" +:+ byte_str 10 +:+ "%s") [recovered; stack])
         | Returned (inl err) => inl err
         | Returned (inr value) =>
             match Marshal value with
             | inl err =>
                 inl (permanentError (fmtError "encode task %q output: %w" [name] (Some err) []))
             | inr output => inr (Some output)
             end
         end, w')
  end.

Definition Handle {I O} `{!Codec I, !Codec O} (definition : Definition_ I O)
    (handler : option (Handler W I O)) : Binding :=
  match Validate definition with
  | Some err => inl err
  | None =>
      match handler with
      | None => inl (errorString "task handler is nil")
      | Some handler =>
          inr (mkDescriptor (Name definition) (Version definition) (MaxAttempts definition)
                 (Timeout definition) (s_retry (d_spec definition))
                 (handle_execute (Name definition) handler))
      end
  end.

Record Module_ := mkModule { mod_name : string; mod_bindings : list descriptor }.

Definition key_of (d : descriptor) : string := descriptorKey (t_name d) (t_version d).
Definition task_key_of (d : descriptor) : TaskKey := mkTaskKey (t_name d) (t_version d).

(** The loop of [NewModule]; the bindings of a module are valid descriptors. *)
Fixpoint check_bindings (name : string) (seen : gset string) (bindings : list Binding)
    : error + list descriptor :=
  match bindings with
  | [] => inr []
  | inl err :: _ => inl err
  | inr d :: bindings' =>
      if bool_decide (key_of d ∈ seen)
      then inl (fmt_Errorf "module %q contains duplicate task %q" [name; key_of d])
      else match check_bindings name ({[key_of d]} ∪ seen) bindings' with
           | inl err => inl err
           | inr ds => inr (d :: ds)
           end
  end.

Definition NewModule (name : string) (bindings : list Binding) : error + Module_ :=
  let name := TrimSpace name in
  if bool_decide (name = EmptyString) then inl (errorString "module name is empty") else
  match check_bindings name ∅ bindings with
  | inl err => inl err
  | inr ds => inr (mkModule name ds)
  end.

Record Registry := mkRegistry {
  reg_tasks : gmap string descriptor;
  reg_keys : list TaskKey;
}.

(** The inner loop of [NewRegistry], over the bindings of a module. *)
Fixpoint register_bindings (module : string) (owners : gmap string string) (r : Registry)
    (bindings : list descriptor) : error + (gmap string string * Registry) :=
  match bindings with
  | [] => inr (owners, r)
  | d :: bindings' =>
      match owners !! key_of d with
      | Some owner =>
          inl (fmt_Errorf "task %q is registered by modules %q and %q" [key_of d; owner; module])
      | None =>
          register_bindings module (<[key_of d := module]> owners)
            (mkRegistry (<[key_of d := d]> (reg_tasks r)) (reg_keys r ++ [task_key_of d])) bindings'
      end
  end.

Fixpoint register_modules (owners : gmap string string) (r : Registry) (modules : list Module_)
    : error + Registry :=
  match modules with
  | [] => inr r
  | m :: modules' =>
      if bool_decide (mod_name m = EmptyString)
      then inl (errorString "invalid zero-value module")
      else match register_bindings (mod_name m) owners r (mod_bindings m) with
           | inl err => inl err
           | inr (owners, r) => register_modules owners r modules'
           end
  end.

Definition key_less (a b : TaskKey) : bool :=
  if bool_decide (k_Name a = k_Name b) then (k_Version a <? k_Version b)%Z
  else str_lt (k_Name a) (k_Name b).

Definition NewRegistry (modules : list Module_) : error + Registry :=
  match register_modules ∅ (mkRegistry ∅ []) modules with
  | inl err => inl err
  | inr r => inr (mkRegistry (reg_tasks r) (sort_Slice key_less (reg_keys r)))
  end.

Definition Keys (r : Registry) : list TaskKey := reg_keys r.

Definition Execute (r : Registry) (item : Execution) : M W RawMessage :=
  match reg_tasks r !! descriptorKey (e_TaskName item) (e_TaskVersion item) with
  | None =>
      throw (permanentError (fmtError "%w: %s@v%d" [] (Some (ErrUnknownTask : error))
        [e_TaskName item; pretty (e_TaskVersion item)]))
  | Some d => t_execute d item
  end.

Definition Policy (r : Registry) (name : string) (version : Z)
    : option (Z * Duration * option RetryPolicy) :=
  match reg_tasks r !! descriptorKey name version with
  | None => None
  | Some d => Some (t_maxAttempts d, t_timeout d, t_retry d)
  end.
End Registry.
Arguments descriptor : clear implicits.
Arguments Binding : clear implicits.
Arguments Module_ : clear implicits.
Arguments Registry : clear implicits.

(** ** Keys *)

Definition at_sign : Ascii.ascii := Ascii.ascii_of_nat 64.

Lemma pretty_N_char_no_at n : pretty_N_char n ≠ at_sign.
Proof. by destruct n as [|[[[[]|[]|]|[[]|[]|]|]|[[[]|[]|]|[[]|[]|]|]|]]. Qed.

Lemma pretty_N_go_no_at x s : no_byte at_sign s → no_byte at_sign (pretty_N_go x s).
Proof.
  revert s. induction (N.lt_wf_0 x) as [x _ IH]; intros s Hs.
  destruct (decide (0 < x)%N) as [Hx|Hx].
  - rewrite pretty_N_go_step by done. apply IH; [apply N.div_lt; lia|].
    split; [apply pretty_N_char_no_at|done].
  - assert (x = 0%N) as -> by lia. by rewrite pretty_N_go_0.
Qed.

Lemma pretty_N_no_at (n : N) : no_byte at_sign (pretty n).
Proof. unfold pretty, pretty_N. case_decide; [done|]. by apply pretty_N_go_no_at. Qed.

Lemma pretty_Z_no_at (z : Z) : no_byte at_sign (pretty z).
Proof.
  destruct z; [done|apply pretty_N_no_at|]. unfold pretty, pretty_Z.
  rewrite append_cons, append_nil. split; [done|apply pretty_N_no_at].
Qed.

Lemma descriptorKey_inj a v a' v' : descriptorKey a v = descriptorKey a' v' → a = a' ∧ v = v'.
Proof.
  unfold descriptorKey. rewrite !append_cons, !append_nil. intros Heq.
  apply (app_sep_inj_r at_sign) in Heq as [-> Heq]; [simplify_eq; done|..];
    (split; [done|apply pretty_Z_no_at]).
Qed.

(** ** The order of task keys *)

Lemma key_less_spec a b :
  key_less a b = true ↔
  str_lt (k_Name a) (k_Name b) = true ∨ k_Name a = k_Name b ∧ (k_Version a < k_Version b)%Z.
Proof.
  unfold key_less. case_bool_decide as Heq; [rewrite Heq, str_lt_irrefl, Z.ltb_lt|]; naive_solver.
Qed.

Lemma key_less_trans a b c : key_less a b = true → key_less b c = true → key_less a c = true.
Proof.
  rewrite !key_less_spec. intros [?|[-> ?]] [?|[<- ?]];
    [left; by eapply str_lt_trans|by left|by left|right; split; [done|lia]].
Qed.

Lemma key_less_asym a b : key_less a b = true → key_less b a = false.
Proof.
  intros Hab. destruct (key_less b a) eqn:Hba; [|done].
  pose proof (key_less_trans _ _ _ Hab Hba) as H. apply key_less_spec in H as [H|[_ H]]; [|lia].
  by rewrite str_lt_irrefl in H.
Qed.

Lemma key_less_total a b : key_less a b = true ∨ a = b ∨ key_less b a = true.
Proof.
  rewrite !key_less_spec. destruct a as [a1 a2], b as [b1 b2]; simpl.
  destruct (str_lt_total a1 b1) as [?|[->|?]]; [auto| |auto].
  destruct (Z.lt_trichotomy a2 b2) as [?|[->|?]]; auto.
Qed.

Lemma key_geq_trans a b c : key_less b a = false → key_less c b = false → key_less c a = false.
Proof.
  intros Hba Hcb. destruct (key_less c a) eqn:Hca; [|done].
  destruct (key_less_total a b) as [Hab|[->|?]]; [|congruence..].
  pose proof (key_less_trans _ _ _ Hca Hab). congruence.
Qed.

Lemma sorted_keys_strict l :
  NoDup l → StronglySorted (λ a b, key_less a b = true) (sort_Slice key_less l).
Proof.
  intros Hnd. rewrite <-(sort_Slice_perm key_less l) in Hnd.
  pose proof (sort_Slice_sorted key_less key_less_asym key_geq_trans l) as Hs.
  induction Hs as [|a k Hk IH Ha]; [constructor|]. apply NoDup_cons in Hnd as [Hni Hnd].
  constructor; [by apply IH|]. rewrite Forall_forall in Ha |- *. intros b Hb.
  destruct (key_less_total a b) as [?|[->|Hlt]]; [done..|]. pose proof (Ha b Hb). congruence.
Qed.

(** ** What the registry holds *)

Section RegistryLemmas.
Context {W : Type}.
Implicit Types (ds : list (descriptor W)) (r : Registry W).

Lemma key_of_task_key (d d' : descriptor W) :
  key_of d = key_of d' ↔ task_key_of d = task_key_of d'.
Proof.
  unfold key_of, task_key_of. split.
  - by intros [-> ->]%descriptorKey_inj.
  - by intros [= -> ->].
Qed.

Lemma NoDup_keys ds : NoDup (key_of <$> ds) ↔ NoDup (task_key_of <$> ds).
Proof.
  assert (∀ (d : descriptor W) (l : list (descriptor W)),
    key_of d ∈ key_of <$> l ↔ task_key_of d ∈ task_key_of <$> l) as Hin.
  { intros d l. rewrite !list_elem_of_fmap. by setoid_rewrite key_of_task_key. }
  induction ds as [|d ds IH]; simpl; [by split; constructor|]. by rewrite !NoDup_cons, IH, Hin.
Qed.

(** The registry and the owners after the descriptors [ds] have been registered. *)
Definition registered ds (owners : gmap string string) r : Prop :=
  NoDup (key_of <$> ds) ∧ reg_keys r = task_key_of <$> ds ∧
  (∀ k d, reg_tasks r !! k = Some d ↔ d ∈ ds ∧ key_of d = k) ∧
  (∀ k, is_Some (owners !! k) ↔ k ∈ key_of <$> ds).

Lemma registered_nil : registered [] ∅ (mkRegistry ∅ []).
Proof.
  split_and!; simpl; [constructor|done|..].
  - intros k d. rewrite lookup_empty. split; [done|]. by intros [[]%elem_of_nil _].
  - intros k. rewrite lookup_empty. split; [by intros []|by intros []%elem_of_nil].
Qed.

Lemma registered_cons ds owners r d m :
  registered ds owners r → owners !! key_of d = None →
  registered (ds ++ [d]) (<[key_of d := m]> owners)
    (mkRegistry (<[key_of d := d]> (reg_tasks r)) (reg_keys r ++ [task_key_of d])).
Proof.
  intros (Hnd & Hkeys & Htasks & Howners) Hnone.
  assert (key_of d ∉ key_of <$> ds) as Hni by (intros [? ?]%Howners; congruence).
  split_and!; simpl.
  - rewrite fmap_app. apply NoDup_app. split_and!; [done| |apply NoDup_singleton].
    intros k Hk Heq%list_elem_of_singleton. by subst k.
  - by rewrite fmap_app, Hkeys.
  - intros k d'. rewrite elem_of_app, list_elem_of_singleton.
    destruct (decide (k = key_of d)) as [->|Hk].
    + rewrite lookup_insert_eq. split; [intros [= ->]; auto|].
      intros [[Hd'| ->] Heq]; [|done]. destruct Hni. rewrite <-Heq. by apply list_elem_of_fmap_2.
    + rewrite lookup_insert_ne by done. rewrite Htasks. naive_solver.
  - intros k. rewrite fmap_app, elem_of_app. simpl. rewrite list_elem_of_singleton, <-Howners.
    destruct (decide (k = key_of d)) as [->|Hk].
    + rewrite lookup_insert_eq. split; [by right|eauto].
    + rewrite lookup_insert_ne by done. naive_solver.
Qed.

Lemma register_bindings_spec m ds0 ds owners r :
  registered ds0 owners r →
  match register_bindings m owners r ds with
  | inr (owners', r') => registered (ds0 ++ ds) owners' r'
  | inl _ => ¬ NoDup (key_of <$> ds0 ++ ds)
  end.
Proof.
  revert ds0 owners r. induction ds as [|d ds IH]; intros ds0 owners r Hreg; simpl;
    [by rewrite app_nil_r|].
  destruct (owners !! key_of d) as [o|] eqn:Ho.
  - rewrite fmap_app. intros (_ & Hno & _)%NoDup_app. apply (Hno (key_of d)); [|left].
    apply Hreg. eauto.
  - specialize (IH _ _ _ (registered_cons _ _ _ _ m Hreg Ho)). by rewrite <-app_assoc in IH.
Qed.

Lemma register_modules_spec ds0 modules owners r :
  registered ds0 owners r →
  match register_modules owners r modules with
  | inr r' => Forall (λ m, mod_name m ≠ EmptyString) modules ∧
      ∃ owners', registered (ds0 ++ (modules ≫= mod_bindings)) owners' r'
  | inl _ => Exists (λ m, mod_name m = EmptyString) modules ∨
      ¬ NoDup (key_of <$> ds0 ++ (modules ≫= mod_bindings))
  end.
Proof.
  revert ds0 owners r. induction modules as [|m modules IH]; intros ds0 owners r Hreg; simpl.
  - rewrite app_nil_r. split; [constructor|by exists owners].
  - case_bool_decide as Hname; [left; by left|].
    pose proof (register_bindings_spec (mod_name m) ds0 (mod_bindings m) _ _ Hreg) as Hb.
    destruct (register_bindings _ _ _ _) as [err|[owners' r']].
    + right. intros Hnd. apply Hb. rewrite app_assoc, fmap_app in Hnd. by apply NoDup_app in Hnd as [? _].
    + specialize (IH _ _ _ Hb). rewrite <-app_assoc in IH.
      destruct (register_modules owners' r' modules); [|by destruct IH; split; [constructor|]].
      destruct IH as [?|?]; [left; by right|by right].
Qed.
End RegistryLemmas.
