(* ===== verification/Demo.v ===== *)
(** * A concrete environment

    A process whose clock advances by one at every query, whose identifiers are consecutive
    numbers printed in binary, and whose maps iterate in key order.  It satisfies the environment's
    hypotheses and makes every definition of the library executable. *)

From S2P Require Import Prelude GoLib Model Memory MemoryInv MemoryOps Task TaskRegistry.

Fixpoint positive_digits (p : positive) : string :=
  match p with
  | xH => "1"
  | xO p' => String (Ascii.ascii_of_nat 48) (positive_digits p')
  | xI p' => String (Ascii.ascii_of_nat 49) (positive_digits p')
  end.

Definition N_digits (n : N) : string :=
  match n with N0 => EmptyString | Npos p => positive_digits p end.

Definition demo_Sprintf (format : string) (operands : list string) : string :=
  format +:+ String.concat "," operands.

#[export] Instance demo_env : GoEnv := {|
  env_now n := (Z.of_nat n + 1)%Z;
  env_uuid n := (N.of_nat n + 1)%N;
  env_shuffle _ _ l := l;
  uuid_String := N_digits;
  fmt_Sprintf := demo_Sprintf;
|}.

Lemma positive_digits_nonempty p : positive_digits p ≠ EmptyString.
Proof. by destruct p. Qed.

Lemma positive_digits_inj p q : positive_digits p = positive_digits q → p = q.
Proof.
  revert q. induction p as [p IH|p IH|]; intros [q|q|]; simpl; intros Heq; simplify_eq;
    try (by f_equal; apply IH); by edestruct positive_digits_nonempty.
Qed.

Lemma positive_digits_no_NUL p : no_byte Ascii.zero (positive_digits p).
Proof. by induction p. Qed.

#[export] Instance demo_env_ok : GoEnvOk.
Proof.
  split; simpl.
  - intros a b ?. lia.
  - intros n. unfold uuid_Nil. lia.
  - done.
  - intros [|p] [|q]; simpl; intros Heq; [done|exfalso..|].
    + by eapply positive_digits_nonempty.
    + by eapply positive_digits_nonempty.
    + f_equal. by apply positive_digits_inj.
  - intros [|p]; [done|]. apply positive_digits_no_NUL.
  - intros n. lia.
Qed.

(** ** Reading identifiers back *)

Fixpoint parse_digits (s : string) : option positive :=
  match s with
  | EmptyString => None
  | String c s' =>
      if bool_decide (s' = EmptyString) then
        if bool_decide (c = Ascii.ascii_of_nat 49) then Some xH else None
      else
        p ← parse_digits s';
        if bool_decide (c = Ascii.ascii_of_nat 48) then Some (xO p)
        else if bool_decide (c = Ascii.ascii_of_nat 49) then Some (xI p) else None
  end.

Lemma parse_positive_digits p : parse_digits (positive_digits p) = Some p.
Proof.
  induction p as [p IH|p IH|]; simpl; [..|done];
    rewrite bool_decide_eq_false_2 by apply positive_digits_nonempty; by rewrite IH.
Qed.

Definition or_error {A} (x : option A) : error + A :=
  match x with Some a => inr a | None => inl (errorString "invalid text") end.

Definition demo_parse_uuid (s : string) : error + UUID :=
  if is_empty s then inr 0%N else or_error (Npos <$> parse_digits s).

Lemma demo_parse_uuid_String u : demo_parse_uuid (uuid_String u) = inr u.
Proof.
  destruct u as [|p]; [done|]. unfold demo_parse_uuid. cbn [uuid_String demo_env N_digits].
  rewrite (proj2 (is_empty_false _)) by apply positive_digits_nonempty.
  by rewrite parse_positive_digits.
Qed.

(** Running a list of calls from the empty store reaches a store. *)
Definition run_ops (ops : list Op) : World := foldl (λ w o, exec_op o w) initial_world ops.

Lemma run_ops_reachable ops : Forall op_ok ops → reachable (run_ops ops).
Proof.
  unfold reachable, run_ops. generalize initial_world. induction ops as [|o ops IH]; simpl;
    intros w Hops; [constructor|]. apply Forall_cons in Hops as [Ho Hops].
  eapply rtc_l; [by constructor|by apply IH].
Qed.

Lemma run_ops_steps ops ops' : Forall op_ok ops' → steps (run_ops ops) (run_ops (ops ++ ops')).
Proof.
  unfold run_ops. rewrite foldl_app. generalize (foldl (λ w o, exec_op o w) initial_world ops).
  induction ops' as [|o ops' IH]; simpl; intros w Hops; [constructor|].
  apply Forall_cons in Hops as [Ho Hops]. eapply rtc_l; [by constructor|by apply IH].
Qed.

Definition default_result {A} (d : A) (r : (error + A) * World) : A :=
  match r.1 with inr a => a | inl _ => d end.

(** Requests and stores the examples use. *)
Definition demo_key : TaskKey := mkTaskKey "mail" 1.
Definition demo_request (key : string) : CreateExecutionRequest :=
  mkCreateExecution "mail" 1 (Some "{}") 2 0 key None EmptyString.
Definition demo_node (run : UUID) (node : string) : CreateExecutionRequest :=
  mkCreateExecution "mail" 1 (Some "{}") 1 0 EmptyString (Some run) node.

(** JSON booleans. *)
#[export] Instance demo_codec : Codec bool := {|
  Marshal (b : bool) := inr (if b then "true" else "false");
  Unmarshal raw :=
    if bool_decide (raw = Some "true") then inr true else
    if bool_decide (raw = Some "false") then inr false else inl (errorString "invalid boolean");
|}.

#[export] Instance demo_codec_ok : CodecOk bool.
Proof. split; intros [] raw [= <-]; done. Qed.

(** A task that negates its input, in a module of its own. *)
Definition demo_task : Definition_ bool bool := New "not" [].
Definition demo_handler : Handler World bool bool :=
  λ message w, (Returned (inr (negb (msg_Input message))), w).
Definition demo_module : list (Module_ World) :=
  match NewModule "logic" [Handle demo_task (Some demo_handler)] with
  | inr m => [m]
  | inl _ => []
  end.
