(* ===== verification/MemoryProps.v ===== *)
(** * Properties of the in-memory store

    What the store promises to its clients, along any sequence of calls: leases fence stale
    workers, deliveries are selected fairly and counted, creation is idempotent, run updates are
    compare-and-set, the event log replays to the stored state, operator actions and retention
    touch what they say and nothing else. *)

From S2P Require Import Prelude GoLib Model Memory MemoryInv MemoryOps MemoryLists.
From S2P Require Import MemoryCounts Demo.

Section Shared.
Context `{E : GoEnv}.

(** A call that is refused for want of a lease and changes nothing. *)
Definition fenced {A} (m : M World A) (w : World) : Prop :=
  m w = (inl (ErrNotFound : error), w) ∨ m w = (inl (ErrLeaseLost : error), w).

(** The token does not own the execution. *)
Definition not_owner (id token : UUID) (w : World) : Prop :=
  ∀ e, m_executions (mem w) !! id = Some e → ¬ lease_valid e token.

Lemma owned_run id token w :
  owned id token w =
    match m_executions (mem w) !! id with
    | None => (inl (ErrNotFound : error), w)
    | Some e => if negb (bool_decide (e_Status e = StatusRunning)) || bool_decide (token = uuid_Nil)
                   || negb (bool_decide (e_LeaseToken e = token))
                then (inl (ErrLeaseLost : error), w) else (inr e, w)
    end.
Proof.
  unfold owned, mbind, M_bind, gets. destruct (m_executions (mem w) !! id); [|done].
  by destruct (negb _ || _ || _).
Qed.

Lemma owned_valid id token w e :
  m_executions (mem w) !! id = Some e → lease_valid e token → owned id token w = (inr e, w).
Proof.
  intros He (H1 & H2 & H3). rewrite owned_run, He.
  rewrite bool_decide_true, bool_decide_false, bool_decide_true by done. done.
Qed.

Lemma owned_fenced id token w : not_owner id token w → fenced (owned id token) w.
Proof.
  intros Hno. unfold fenced. rewrite owned_run.
  destruct (m_executions (mem w) !! id) as [e|] eqn:He; [|by left].
  destruct (negb _ || _ || _) eqn:Hc; [by right|]. destruct (Hno e He). reflect_bool. done.
Qed.

Lemma fenced_bind {A B} (m : M World A) (k : A → M World B) w : fenced m w → fenced (m ≫= k) w.
Proof. unfold fenced, mbind, M_bind. by intros [-> | ->]; auto. Qed.

Lemma stale_not_owner `{!GoEnvOk} w0 w1 w2 id0 id e :
  reachable w0 → m_executions (mem w0) !! id0 = Some e → steps w0 w1 →
  not_token id (e_LeaseToken e) w1 → steps w1 w2 → not_owner id (e_LeaseToken e) w2.
Proof.
  intros Hr He H01 Hno H12 e2 He2 (_ & Hnil & Htok).
  pose proof (reachable_Inv _ Hr) as Hinv.
  destruct (ok_token_past _ _ (Inv_ok _ _ _ Hinv He) Hnil) as (k & Hk & Heq).
  pose proof (steps_inv _ _ H01 Hinv) as Hinv1.
  pose proof (steps_tick _ _ H01 Hinv).
  rewrite Heq in Hno, Htok. eapply (steps_not_token w1 w2 id k); eauto. lia.
Qed.

(** ** The selection of a claim *)

(** [a] is due no later than [b]; ties go to the older one. *)
Definition due_before (a b : Execution) : Prop :=
  (e_AvailableAt a < e_AvailableAt b)%Z ∨
  e_AvailableAt a = e_AvailableAt b ∧ (e_CreatedAt a ≤ e_CreatedAt b)%Z.

Lemma claim_less_due a b : claim_less b a = false ↔ due_before a b.
Proof.
  unfold claim_less, due_before, Equal, Before. destruct (Z.eqb_spec (e_AvailableAt b) (e_AvailableAt a)).
  - rewrite Z.ltb_ge. lia.
  - rewrite Z.ltb_ge. lia.
Qed.

Lemma claim_less_sorted l : StronglySorted due_before (sort_Slice claim_less l).
Proof.
  assert (StronglySorted (λ a b, claim_less b a = false) (sort_Slice claim_less l)) as Hs.
  { apply sort_Slice_sorted.
    - intros a b Hab. apply not_true_is_false. intros Hba. revert Hab Hba.
      rewrite <-!not_false_iff_true, !claim_less_due. unfold due_before. lia.
    - intros a b c. rewrite !claim_less_due. unfold due_before. lia. }
  induction Hs as [|a l' Hl IH Ha]; constructor; [done|]. eapply Forall_impl; [exact Ha|].
  intros b. apply claim_less_due.
Qed.

(** The number of records a page or a batch of at most [limit] holds. *)
Lemma length_limit_slice {A} limit (l : list A) :
  (0 < limit)%Z → length (limit_slice limit l) = Nat.min (Z.to_nat limit) (length l).
Proof.
  intros Hl. unfold limit_slice. destruct (Z.ltb_spec limit (Z.of_nat (length l))).
  - rewrite (proj2 (Z.ltb_lt 0 limit)) by done. simpl. apply length_take.
  - rewrite andb_false_r. lia.
Qed.

(** The stored executions a claim may deliver. *)
Definition eligible (keys : list TaskKey) (w : World) : list Execution :=
  List.filter (claimable keys (env_now (tick w))) (map_to_list (m_executions (mem w))).*2.

Lemma claim_selection_length `{!GoEnvOk} keys limit w :
  length (claim_selection keys limit w) =
  Nat.min (if (limit <=? 0)%Z then 1 else Z.to_nat limit) (length (eligible keys w)).
Proof.
  unfold claim_selection. rewrite length_limit_slice by (destruct (Z.leb_spec limit 0); lia).
  rewrite length_sort_Slice. f_equal; [by destruct (limit <=? 0)%Z|].
  apply Permutation_length, filter_Permutation_bool, fmap_Permutation, env_shuffle_perm.
Qed.

Lemma claim_selection_fair `{!GoEnvOk} keys limit w a b :
  a ∈ claim_selection keys limit w → b ∈ eligible keys w → b ∉ claim_selection keys limit w →
  due_before a b.
Proof.
  unfold claim_selection. set (lim := if (limit <=? 0)%Z then 1%Z else limit).
  set (l := List.filter _ _). intros Ha Hb Hnb.
  destruct (limit_slice_prefix lim (sort_Slice claim_less l)) as [k Hk].
  pose proof (claim_less_sorted l) as Hs. rewrite Hk in Hs.
  apply StronglySorted_app_2 in Hs as (_ & _ & Hs). apply Hs; [done|].
  assert (b ∈ sort_Slice claim_less l) as Hin.
  { apply elem_of_sort_Slice. unfold l, eligible in *. apply elem_of_filter_In in Hb as [Hb ?].
    apply elem_of_filter_In. split; [|done]. by rewrite env_shuffle_perm. }
  rewrite Hk in Hin. apply elem_of_app in Hin as [?|?]; done.
Qed.

Lemma claim_selection_stored `{!GoEnvOk} keys limit w e :
  Inv w → e ∈ claim_selection keys limit w →
  m_executions (mem w) !! e_ID e = Some e ∧ claimable keys (env_now (tick w)) e = true.
Proof.
  intros Hinv He. unfold claim_selection in He.
  destruct (limit_slice_prefix (if (limit <=? 0)%Z then 1%Z else limit) (sort_Slice claim_less
    (List.filter (claimable keys (env_now (tick w)))
      (env_shuffle (S (tick w)) _ (map_to_list (m_executions (mem w)))).*2))) as [k Hk].
  assert (e ∈ List.filter (claimable keys (env_now (tick w)))
    (env_shuffle (S (tick w)) _ (map_to_list (m_executions (mem w)))).*2) as Hin.
  { eapply elem_of_sort_Slice. rewrite Hk. by apply elem_of_app; left. }
  apply elem_of_filter_In in Hin as [Hin ?]. split; [|done].
  rewrite env_shuffle_perm in Hin. apply elem_of_values in Hin as [id Hid].
  by rewrite (Inv_id _ _ _ Hinv Hid).
Qed.

Lemma claim_selection_NoDup `{!GoEnvOk} keys limit w :
  Inv w → NoDup (e_ID <$> claim_selection keys limit w).
Proof.
  intros Hinv. apply (pending_items_limit _ _ w).
  eapply pending_items_perm; [symmetry; apply sort_Slice_perm|].
  apply pending_items_filter; [done|]. apply pending_entries_range.
Qed.

(** What a claim makes of an execution. *)
Definition delivered (owner : string) (lease : Duration) (t : Time) (e item : Execution) : Prop :=
  same_identity e item ∧ e_Status item = StatusRunning ∧
  e_Attempt item = (e_Attempt e + 1)%Z ∧ (e_Attempt item ≤ e_MaxAttempts item)%Z ∧
  e_LeaseOwner item = owner ∧ e_LeaseUntil item = (t + lease)%Z ∧
  e_LeaseToken item ≠ uuid_Nil ∧ e_LeaseToken item ≠ e_LeaseToken e ∧
  e_StartedAt item = Some (default t (e_StartedAt e)) ∧ e_LastError item = e_LastError e.

Lemma claimed_delivered `{!GoEnvOk} w k keys owner lease t e :
  ExecOk (tick w) e → tick w ≤ k → claimable keys t e = true →
  delivered owner lease t e (claimed_execution owner lease t (env_uuid k) e).
Proof.
  intros Hok Hk Hc. pose proof (claim_attempt _ _ _ _ Hok Hc) as Ha.
  apply claimable_spec in Hc as (_ & _ & _ & _ & Hlt).
  split; [by repeat split|]. simpl. rewrite Ha.
  split_and!; try done; [lia|apply env_uuid_not_Nil| |].
  - intros Heq. assert (e_LeaseToken e ≠ uuid_Nil) as Hnil by (rewrite <-Heq; apply env_uuid_not_Nil).
    destruct (ok_token_past _ _ Hok Hnil) as (j & Hj & Hej). rewrite Hej in Heq.
    apply (inj env_uuid) in Heq. lia.
  - by destruct (e_StartedAt e).
Qed.

Lemma NoDup_imap_inj {A B} (f : nat → A → B) l :
  (∀ i j a b, f i a = f j b → i = j) → NoDup (imap f l).
Proof.
  intros Hinj. apply NoDup_alt. intros i j x Hi Hj. rewrite list_lookup_imap in Hi, Hj.
  apply fmap_Some in Hi as (a & _ & Ha), Hj as (b & _ & Hb). eapply Hinj. by rewrite <-Ha, Hb.
Qed.

End Shared.

(** ** Leases and deliveries *)

Section Delivery.
Context `{E : GoEnv} `{!GoEnvOk}.

(** C1: whatever calls the clients make, in whatever order, the store satisfies its invariant:
    executions are well formed (a lease token exactly while running, an attempt counter within the
    budget, a finish time exactly in the terminal states), the uniqueness indexes list exactly the
    stored records, and the event log of every execution replays to its stored state. *)
Theorem store_invariant w : reachable w → Inv w.
Proof. apply reachable_Inv. Qed.

(** C4: a lease token that does not own an execution any more never changes it again: whatever
    happens afterwards, a heartbeat, success, retry or failure report with that token is refused
    with [ErrNotFound] or [ErrLeaseLost] and leaves the store as it is. *)
Theorem stale_lease_fenced w0 w1 w2 id0 id e lease output text delay :
  reachable w0 → m_executions (mem w0) !! id0 = Some e → steps w0 w1 →
  not_token id (e_LeaseToken e) w1 → steps w1 w2 →
  fenced (Heartbeat id (e_LeaseToken e) lease) w2 ∧
  fenced (Succeed id (e_LeaseToken e) output) w2 ∧
  fenced (Retry id (e_LeaseToken e) text delay) w2 ∧
  fenced (Fail id (e_LeaseToken e) text) w2.
Proof.
  intros Hr He H01 Hno H12.
  pose proof (owned_fenced _ _ _ (stale_not_owner _ _ _ _ _ _ Hr He H01 Hno H12)) as Hf.
  split_and!; by apply fenced_bind.
Qed.

(** C5: a claim returns the smaller of its limit and the number of eligible executions, those that
    are due first, each once and each with a token of its own; a claimed execution is stored as
    returned (running, one more attempt, within the budget, leased to the owner until the lease
    ends), and nothing else changes. *)
Theorem claim_delivers_due owner keys limit lease w :
  reachable w →
  ∃ items w', Claim owner keys limit lease w = (inr items, w') ∧
    length items =
      Nat.min (if (limit <=? 0)%Z then 1 else Z.to_nat limit) (length (eligible keys w)) ∧
    NoDup (e_ID <$> items) ∧ NoDup (e_LeaseToken <$> items) ∧
    (∀ item, item ∈ items → ∃ e stored, e ∈ eligible keys w ∧
       delivered owner lease (env_now (tick w)) e stored ∧ item = cloneExecution stored ∧
       m_executions (mem w') !! e_ID item = Some stored ∧
       ∀ e', e' ∈ eligible keys w → e_ID e' ∉ e_ID <$> items → due_before e e') ∧
    (∀ id, id ∉ e_ID <$> items →
       m_executions (mem w') !! id = m_executions (mem w) !! id ∧
       m_events (mem w') !! id = m_events (mem w) !! id) ∧
    m_runs (mem w') = m_runs (mem w).
Proof.
  intros Hinv%reachable_Inv. pose proof (Claim_wp owner keys limit lease w Hinv) as Hwp.
  destruct (Claim owner keys limit lease w) as [r w'] eqn:Hclaim.
  eapply wp_elim in Hwp as (_ & -> & _ & Hst & Hrest & Hruns); [|exact Hclaim].
  set (sel := claim_selection keys limit w) in *. simpl in *.
  assert (∀ f, e_ID <$> imap (λ i e, cloneExecution (claimed_execution owner lease
    (env_now (tick w)) (env_uuid (f i)) e)) sel = e_ID <$> sel) as Hids.
  { intros f. rewrite fmap_imap. apply imap_const. }
  eexists _, w'. split; [done|]. rewrite !Hids, length_imap.
  split_and!; [apply claim_selection_length|by apply claim_selection_NoDup| | |done|done].
  - rewrite fmap_imap. apply NoDup_imap_inj. simpl. intros i j _ _ Hij%(inj env_uuid). lia.
  - intros item Hin. apply elem_of_lookup_imap_1 in Hin as (i & e & -> & Hi).
    pose proof (list_elem_of_lookup_2 _ _ _ Hi) as Hsel.
    destruct (claim_selection_stored _ _ _ _ Hinv Hsel) as [He Hc].
    exists e, (claimed_execution owner lease (env_now (tick w)) (env_uuid (S (S (tick w)) + 3 * i)) e).
    split_and!; [|eapply (claimed_delivered w); [by eapply Inv_ok|lia|done]|done|exact (Hst i e Hi)|].
    + apply elem_of_filter_In. split; [|done]. apply elem_of_values. eauto.
    + intros e' He' Hni. eapply claim_selection_fair; [exact Hsel|done|].
      intros Hin. apply Hni. by apply list_elem_of_fmap_2.
Qed.

(** No lease token is handed out twice: the executions returned by a later claim carry tokens
    different from those of every earlier claim, so that an owner can never be mistaken for
    another. *)
Theorem lease_tokens_never_reused w w1 w2 w3 o k l d o' k' l' d' items items' a b :
  reachable w → Claim o k l d w = (inr items, w1) → steps w1 w2 →
  Claim o' k' l' d' w2 = (inr items', w3) → a ∈ items → b ∈ items' →
  e_LeaseToken a ≠ e_LeaseToken b.
Proof.
  intros Hinv%reachable_Inv Hc1 H12 Hc2 Ha Hb.
  destruct (wp_elim _ _ _ _ _ (Claim_wp o k l d w Hinv) Hc1) as (Hinv1 & [= ->] & Ht & _).
  pose proof (steps_inv _ _ H12 Hinv1) as Hinv2.
  destruct (wp_elim _ _ _ _ _ (Claim_wp o' k' l' d' w2 Hinv2) Hc2) as (_ & [= ->] & _).
  apply elem_of_lookup_imap_1 in Ha as (i & ea & -> & Hi).
  apply elem_of_lookup_imap_1 in Hb as (j & eb & -> & _). simpl.
  apply lookup_lt_Some in Hi. pose proof (steps_tick _ _ H12 Hinv1).
  intros Heq%(inj env_uuid). simpl in Ht. lia.
Qed.

(** C13: the event log of an execution is returned whole, is about that execution only, starts with
    its creation and replays to its stored status; the deliveries it records since the creation or
    the last restart are the attempt counter, which never exceeds the attempt budget. *)
Theorem event_log_replays w id e :
  reachable w → m_executions (mem w) !! id = Some e →
  ∃ evs, Events id w = (inr evs, w) ∧ Forall (λ ev, ev_ExecutionID ev = id) evs ∧
    History (ev_Type <$> evs) (e_Status e) (e_Attempt e) ∧
    deliveries (ev_Type <$> evs) = e_Attempt e ∧ (0 ≤ e_Attempt e ≤ e_MaxAttempts e)%Z.
Proof.
  intros Hinv%reachable_Inv He. destruct (inv_log _ Hinv _ _ He) as (evs & Hevs & Hh & Hall).
  exists evs. split_and!; [|done|done|by symmetry; eapply History_deliveries|..].
  - unfold Events, mbind, M_bind, gets. by rewrite He, Hevs.
  - apply (ok_attempt _ _ (Inv_ok _ _ _ Hinv He)).
  - apply (ok_attempt _ _ (Inv_ok _ _ _ Hinv He)).
Qed.

(** No accepted work is lost: an active execution of a known task that is due and not under a
    live lease is either claimable or, its attempts used up, failed by the reaper; never both, and
    never neither. *)
Theorem no_execution_stuck w id e keys t :
  reachable w → m_executions (mem w) !! id = Some e →
  is_active (e_Status e) = true → mkTaskKey (e_TaskName e) (e_TaskVersion e) ∈ keys →
  (e_AvailableAt e ≤ t)%Z → (e_Status e = StatusRunning → (e_LeaseUntil e ≤ t)%Z) →
  claimable keys t e = negb (expired t e).
Proof.
  intros Hinv%reachable_Inv He Hact Hkey Hav Hlease.
  pose proof (Inv_ok _ _ _ Hinv He) as Hok. unfold claimable, expired, After.
  rewrite bool_decide_true by done. rewrite (proj2 (Z.ltb_ge _ _) Hav). simpl.
  destruct (e_Status e) eqn:Hst; try done; simpl.
  - pose proof (ok_fresh_attempt _ _ Hok (or_introl Hst)). pose proof (ok_max _ _ Hok).
    destruct (Z.leb_spec (e_MaxAttempts e) (e_Attempt e)); [lia|done].
  - rewrite (proj2 (Z.ltb_ge _ _) (Hlease eq_refl)). simpl.
    destruct (Z.leb_spec (e_MaxAttempts e) (e_Attempt e)),
      (Z.ltb_spec (e_Attempt e) (e_MaxAttempts e)); try done; lia.
  - pose proof (ok_retry _ _ Hok Hst).
    destruct (Z.leb_spec (e_MaxAttempts e) (e_Attempt e)); [lia|done].
Qed.

(** The reaper fails exactly the running executions whose lease has ended and whose attempts
    are used up, clears their leases, leaves every other execution and every run as it is, and
    returns the pipeline runs of the failed executions, each once. *)
Theorem reaper_fails_exhausted w :
  reachable w →
  ∃ ids w', ReapExpired w = (inr ids, w') ∧ NoDup ids ∧
    (∀ runID, runID ∈ ids ↔ ∃ id e, m_executions (mem w) !! id = Some e ∧
       e_PipelineRunID e = Some runID ∧ e_Status e = StatusRunning ∧
       (e_LeaseUntil e ≤ env_now (tick w))%Z ∧ e_Attempt e = e_MaxAttempts e) ∧
    (∀ id, m_executions (mem w') !! id =
       (λ e, if bool_decide (e_Status e = StatusRunning) &&
                (e_LeaseUntil e <=? env_now (tick w))%Z && (e_Attempt e =? e_MaxAttempts e)%Z
             then reaped_execution (env_now (tick w)) e else e) <$> m_executions (mem w) !! id) ∧
    m_runs (mem w') = m_runs (mem w).
Proof.
  intros Hinv%reachable_Inv. pose proof (ReapExpired_wp w Hinv) as Hwp.
  destruct (ReapExpired w) as [r w'] eqn:Hreap.
  eapply wp_elim in Hwp as (_ & (ids & -> & Hnd & Hids) & Hmap & Hruns); [|exact Hreap].
  assert (∀ id e, m_executions (mem w) !! id = Some e → (e_Attempt e ≤ e_MaxAttempts e)%Z) as Hle
    by (intros id e He; apply (ok_attempt _ _ (Inv_ok _ _ _ Hinv He))).
  exists ids, w'. split_and!; [done|done| | |done].
  - intros runID. rewrite Hids. split; intros (id & e & He & H1 & H2); exists id, e;
      pose proof (Hle _ _ He).
    + apply expired_spec in H1 as (? & ? & ?). split_and!; [done..|lia].
    + destruct H2 as (? & ? & ?). split_and!; [done|apply expired_spec; split_and!; [done..|lia]|done].
  - intros id. rewrite Hmap. destruct (m_executions (mem w) !! id) as [e|] eqn:He; [|done]. simpl.
    unfold reap_map. pose proof (Hle _ _ He).
    assert (expired (env_now (tick w)) e = bool_decide (e_Status e = StatusRunning) &&
      (e_LeaseUntil e <=? env_now (tick w))%Z && (e_Attempt e =? e_MaxAttempts e)%Z) as ->; [|done].
    unfold expired, After. rewrite <-Z.leb_antisym. do 2 f_equal.
    destruct (Z.ltb_spec (e_Attempt e) (e_MaxAttempts e)), (Z.eqb_spec (e_Attempt e) (e_MaxAttempts e));
      done || lia.
Qed.
End Delivery.
