(* ===== verification/MemoryProps2.v ===== *)
(** * Properties of the in-memory store: creation, runs and operator actions *)

From S2P Require Import Prelude GoLib Model Memory MemoryInv MemoryOps MemoryLists.
From S2P Require Import MemoryCounts MemoryProps StoreSpec Demo.

Section Creation.
Context `{E : GoEnv} `{!GoEnvOk}.

Lemma run_identity w w' id r r' :
  steps w w' → Inv w → m_runs (mem w) !! id = Some r → m_runs (mem w') !! id = Some r' →
  same_run r r'.
Proof.
  intros Hs. revert r. induction Hs as [w|w w1 w' Hst Hss IH]; intros r Hinv Hr Hr'.
  - simplify_eq. apply same_run_refl.
  - pose proof (step_inv _ _ Hst Hinv) as Hinv1.
    destruct (m_runs (mem w1) !! id) as [r1|] eqn:Hr1.
    + pose proof (ev_run _ _ (step_evolves _ _ Hst Hinv) _ _ Hr1) as Hev. rewrite Hr in Hev.
      destruct Hev as [H1 _]. pose proof (IH _ Hinv1 eq_refl Hr') as H2.
      unfold same_run in *. intuition congruence.
    + destruct (inv_past _ Hinv id) as (k & Hk & ->); [rewrite Hr; eauto|].
      pose proof (ev_tick _ _ (step_evolves _ _ Hst Hinv)).
      destruct (steps_unused _ _ k Hss Hinv1) as [_ Hno]; [lia|]. rewrite Hno in Hr'; done.
Qed.

(** After a creation with an idempotency key, the index lists the returned execution. *)
Lemma created_indexed request w e w1 :
  Inv w → CreateExecution request w = (inr e, w1) → c_PipelineRunID request = None →
  c_IdempotencyKey request ≠ EmptyString →
  c_TaskName request ≠ EmptyString ∧
  m_idempotent (mem w1) !! idempotent_key (c_TaskName request) (c_IdempotencyKey request)
    = Some (e_ID e).
Proof.
  intros Hinv Hc Hrun Hkey. rewrite CreateExecution_run in Hc.
  destruct (is_empty (c_TaskName request)) eqn:Hname; [done|]. apply is_empty_false in Hname.
  split; [done|]. apply is_empty_false in Hkey. unfold find_existing in Hc. rewrite Hrun, Hkey in Hc.
  destruct (m_idempotent (mem w) !! _) as [id|] eqn:Hidx; simplify_eq.
  - rewrite Hidx. f_equal. pose proof Hidx as (e0 & He0 & _)%(inv_idem _ Hinv). rewrite He0. simpl.
    by rewrite (Inv_id _ _ _ Hinv He0).
  - simpl. rewrite Hkey. apply lookup_insert_eq.
Qed.

Lemma create_existing w name key id e request :
  Inv w → m_idempotent (mem w) !! idempotent_key name key = Some id →
  m_executions (mem w) !! id = Some e → name ≠ EmptyString → key ≠ EmptyString →
  c_TaskName request = name → c_IdempotencyKey request = key →
  CreateExecution request w = (inr (cloneExecution e), w).
Proof.
  intros Hinv Hidx He Hname Hkey <- <-. rewrite CreateExecution_run.
  apply is_empty_false in Hname as ->. unfold find_existing.
  apply is_empty_false in Hkey as ->. by rewrite Hidx, He.
Qed.

(** Creation is idempotent: as long as an execution created with an idempotency key is stored,
    any request for the same task with the same key returns that execution in its current state
    and changes nothing, whatever calls were made in between. *)
Theorem create_idempotent w w1 w2 request request' e e2 :
  reachable w → request_ok request → c_PipelineRunID request = None →
  c_IdempotencyKey request ≠ EmptyString → CreateExecution request w = (inr e, w1) →
  steps w1 w2 → m_executions (mem w2) !! e_ID e = Some e2 →
  c_TaskName request' = c_TaskName request →
  c_IdempotencyKey request' = c_IdempotencyKey request →
  CreateExecution request' w2 = (inr (cloneExecution e2), w2).
Proof.
  intros Hr Hok Hrun Hkey Hc H12 He2 Hn Hk. pose proof (reachable_Inv _ Hr) as Hinv.
  destruct (created_indexed _ _ _ _ Hinv Hc Hrun Hkey) as [Hname Hidx].
  pose proof (wp_elim _ _ _ _ _ (CreateExecution_inv request Hok w Hinv) Hc) as Hinv1.
  pose proof (steps_inv _ _ H12 Hinv1) as Hinv2.
  pose proof Hidx as (e1 & He1 & Hne & Heq)%(inv_idem _ Hinv1).
  pose proof (steps_identity _ _ _ _ _ H12 Hinv1 He1 He2) as (_ & Hn2 & _ & Hk2 & _).
  eapply create_existing; [done| |exact He2|exact Hname|exact Hkey|done|done].
  apply (inv_idem _ Hinv2). exists e2. rewrite Heq, Hn2, Hk2. done.
Qed.

(** No two stored executions stand for the same idempotent request of a task or for the same
    node of a pipeline run, and a request for a node that exists returns the stored execution and
    changes nothing. *)
Theorem executions_unique w id1 e1 id2 e2 :
  reachable w → m_executions (mem w) !! id1 = Some e1 → m_executions (mem w) !! id2 = Some e2 →
  (e_TaskName e1 = e_TaskName e2 → e_IdempotencyKey e1 = e_IdempotencyKey e2 →
     e_IdempotencyKey e1 ≠ EmptyString → id1 = id2) ∧
  (∀ run, e_PipelineRunID e1 = Some run → e_PipelineRunID e2 = Some run →
     e_NodeKey e1 = e_NodeKey e2 → e_NodeKey e1 ≠ EmptyString → id1 = id2) ∧
  (∀ run request, e_PipelineRunID e1 = Some run → e_NodeKey e1 ≠ EmptyString →
     c_PipelineRunID request = Some run → c_NodeKey request = e_NodeKey e1 →
     c_TaskName request ≠ EmptyString → c_IdempotencyKey request = EmptyString →
     CreateExecution request w = (inr (cloneExecution e1), w)).
Proof.
  intros Hinv%reachable_Inv He1 He2.
  assert (∀ run, e_PipelineRunID e1 = Some run → e_NodeKey e1 ≠ EmptyString →
    m_nodes (mem w) !! node_key run (e_NodeKey e1) = Some id1) as Hnode.
  { intros run ??. apply (inv_node _ Hinv). by exists e1, run. }
  split_and!.
  - intros Hn Hk Hne.
    assert (m_idempotent (mem w) !! idempotent_key (e_TaskName e1) (e_IdempotencyKey e1) = Some id1)
      by (apply (inv_idem _ Hinv); by exists e1).
    assert (m_idempotent (mem w) !! idempotent_key (e_TaskName e1) (e_IdempotencyKey e1) = Some id2)
      by (apply (inv_idem _ Hinv); exists e2; rewrite Hn, Hk in *; done).
    congruence.
  - intros run H1 H2 Hk Hne. pose proof (Hnode run H1 Hne).
    assert (m_nodes (mem w) !! node_key run (e_NodeKey e1) = Some id2)
      by (apply (inv_node _ Hinv); exists e2, run; rewrite Hk in *; done).
    congruence.
  - intros run request H1 Hne Hr Hk Hname%is_empty_false Hidem.
    rewrite CreateExecution_run, Hname. unfold find_existing. rewrite Hidem, Hr, Hk.
    rewrite (proj2 (is_empty_false _) Hne), (Hnode run) by done. simpl. by rewrite He1.
Qed.

(** Run creation is idempotent: as long as a run created with an idempotency key is stored,
    any request for the same pipeline with the same key returns it in its current state and
    changes nothing. *)
Theorem create_run_idempotent w w1 w2 request request' r r2 :
  reachable w → cr_IdempotencyKey request ≠ EmptyString →
  CreatePipelineRun request w = (inr r, w1) → steps w1 w2 → m_runs (mem w2) !! r_ID r = Some r2 →
  cr_PipelineName request' = cr_PipelineName request →
  cr_IdempotencyKey request' = cr_IdempotencyKey request →
  CreatePipelineRun request' w2 = (inr (cloneRun r2), w2).
Proof.
  intros Hinv%reachable_Inv Hkey Hc H12 Hr2 Hn Hk.
  pose proof (wp_elim _ _ _ _ _ (CreatePipelineRun_inv request w Hinv) Hc) as Hinv1.
  pose proof (proj2 (is_empty_false _) Hkey) as Hkey'.
  assert (m_runIdempotent (mem w1) !!
    idempotent_key (cr_PipelineName request) (cr_IdempotencyKey request) = Some (r_ID r)) as Hidx.
  { rewrite CreatePipelineRun_run in Hc. unfold find_existing_run in Hc. rewrite Hkey' in Hc.
    destruct (m_runIdempotent (mem w) !! _) as [id|] eqn:Hidx; simplify_eq.
    - rewrite Hidx. f_equal. pose proof Hidx as (r0 & Hr0 & _)%(inv_run_idem _ Hinv).
      rewrite Hr0. simpl. by destruct (Inv_run_id _ _ _ Hinv Hr0) as [-> _].
    - simpl. rewrite Hkey'. apply lookup_insert_eq. }
  pose proof Hidx as (r1 & Hr1 & Hne & Heq)%(inv_run_idem _ Hinv1).
  pose proof (run_identity _ _ _ _ _ H12 Hinv1 Hr1 Hr2) as (_ & Hn2 & _ & Hk2 & _).
  rewrite CreatePipelineRun_run. unfold find_existing_run. rewrite Hn, Hk, Hkey'.
  pose proof (steps_inv _ _ H12 Hinv1) as Hinv2.
  rewrite (proj2 (inv_run_idem _ Hinv2 _ (r_ID r))); [by rewrite Hr2|].
  exists r2. by rewrite Heq, Hn2, Hk2.
Qed.

(** Run updates are compare-and-set: of two updates made from the same revision the second
    one, within fewer than 2^64 - 1 calls of the first, is refused with [ErrConflict] and changes
    nothing; the first stores its status and the next revision. *)
Theorem run_update_compare_and_set w w1 w2 n id r r2 status text status' text' :
  reachable w → m_runs (mem w) !! id = Some r →
  SetPipelineRunStatus id (r_Revision r) status text w = (inr tt, w1) →
  nsteps step n w1 w2 → (Z.of_nat n < 2 ^ 64 - 1)%Z → m_runs (mem w2) !! id = Some r2 →
  (∃ r1, m_runs (mem w1) !! id = Some r1 ∧ same_run r r1 ∧ r_Status r1 = status ∧
     r_Error r1 = text ∧ r_Revision r1 = uint64 (r_Revision r + 1)) ∧
  SetPipelineRunStatus id (r_Revision r) status' text' w2 = (inl (ErrConflict : error), w2).
Proof.
  intros Hinv%reachable_Inv Hr Hset Hn Hlt Hr2.
  pose proof (wp_elim _ _ _ _ _ (SetPipelineRunStatus_inv _ _ _ _ w Hinv) Hset) as Hinv1.
  rewrite SetPipelineRunStatus_run, Hr, Z.eqb_refl in Hset. simplify_eq.
  set (r1 := updated_run (env_now (tick w)) status text r) in *.
  assert (r_Revision r1 = uint64 (r_Revision r + 1) ∧ r_Status r1 = status ∧ r_Error r1 = text)
    as (Hrev & Hst & Htext) by (unfold r1, updated_run; by destruct (is_run_terminal status)).
  split.
  - exists r1. simpl. rewrite lookup_insert_eq. split_and!; [done|apply updated_run_same|done..].
  - edestruct (nsteps_revision n _ _ id r1 r2 Hn Hinv1) as (d & Hd & Heq); [|done|].
    { simpl. apply lookup_insert_eq. }
    rewrite SetPipelineRunStatus_run, Hr2. pose proof (rok_revision _ (proj2 (Inv_run_id _ _ _ Hinv Hr))).
    destruct (Z.eqb_spec (r_Revision r2) (r_Revision r)) as [Hcontra|]; [exfalso|done].
    rewrite Heq, Hrev, uint64_add in Hcontra. unfold uint64 in Hcontra.
    destruct (decide (r_Revision r + 1 + d < 2 ^ 64)%Z).
    + rewrite Z.mod_small in Hcontra by lia. lia.
    + rewrite <-(Z.mod_add _ (-1)) in Hcontra by lia. rewrite Z.mod_small in Hcontra by lia. lia.
Qed.
End Creation.

(** ** Reports and operator actions *)

Section Actions.
Context `{E : GoEnv} `{!GoEnvOk}.

(** Exactly one execution is replaced and exactly one event is appended, to its log. *)
Definition recorded (id : UUID) (e' : Execution) (ev : EventType) (text : string) (w w' : World)
    : Prop :=
  m_executions (mem w') = <[id := e']> (m_executions (mem w)) ∧
  (∃ event, m_events (mem w') =
       <[id := default [] (m_events (mem w) !! id) ++ [event]]> (m_events (mem w)) ∧
     ev_ExecutionID event = id ∧ ev_Type event = ev ∧ ev_Attempt event = e_Attempt e' ∧
     ev_Error event = text) ∧
  m_runs (mem w') = m_runs (mem w) ∧ m_idempotent (mem w') = m_idempotent (mem w) ∧
  m_nodes (mem w') = m_nodes (mem w) ∧ m_runIdempotent (mem w') = m_runIdempotent (mem w).

Definition no_lease (e : Execution) : Prop :=
  e_LeaseToken e = uuid_Nil ∧ e_LeaseOwner e = EmptyString ∧ e_LeaseUntil e = 0%Z.

(** The delivery is over: the lease is released, the attempt stays counted. *)
Definition settled (e e' : Execution) : Prop :=
  same_identity e e' ∧ no_lease e' ∧ e_Attempt e' = e_Attempt e ∧ e_Input e' = e_Input e.

Lemma logged_recorded w n id e ev text :
  recorded id e ev text w (logged (mkWorld (mem w) n) id e ev text).
Proof. split; [done|]. split; [by eexists|done]. Qed.

(** The owner of a lease, past the guard. *)
Lemma owned_bind {A} id token e (k : Execution → M World A) w :
  m_executions (mem w) !! id = Some e → lease_valid e token →
  (owned id token ≫= k) w = k e w.
Proof. intros He Hv. unfold mbind, M_bind. by rewrite (owned_valid _ _ _ _ He Hv). Qed.

Lemma now_put_append (f : Time → Execution) id ev text w :
  (∀ t, e_ID (f t) = id) →
  (now ≫= λ t, put_execution id (f t) ≫= λ _, appendEvent (f t) ev text) w =
  (inr tt, logged (mkWorld (mem w) (S (tick w))) id (f (env_now (tick w))) ev text).
Proof.
  intros Hid. unfold mbind at 1, M_bind at 1, now. by rewrite put_append_run by apply Hid.
Qed.

Lemma put_append_ret {A} id e ev text (a : A) w :
  e_ID e = id →
  (put_execution id e ≫= λ _, appendEvent e ev text ≫= λ _, mret a) w =
  (inr a, logged w id e ev text).
Proof. by intros <-. Qed.

Lemma owner_reports_inv w id e token :
  Inv w → m_executions (mem w) !! id = Some e → lease_valid e token →
  let t := env_now (tick w) in
  (∀ output, ∃ e' w', Succeed id token output w = (inr tt, w') ∧
     recorded id e' EventSucceeded EmptyString w w' ∧ settled e e' ∧
     e_Status e' = StatusSucceeded ∧ e_Output e' = cloneJSON output ∧ e_FinishedAt e' = Some t) ∧
  (∀ text, ∃ e' w', Fail id token text w = (inr tt, w') ∧
     recorded id e' EventFailed text w w' ∧ settled e e' ∧
     e_Status e' = StatusFailed ∧ e_LastError e' = text ∧ e_FinishedAt e' = Some t) ∧
  (∀ text delay, ∃ e' w', Retry id token text delay w = (inr tt, w') ∧
     recorded id e' (if (e_Attempt e <? e_MaxAttempts e)%Z then EventRetried else EventFailed)
       text w w' ∧ settled e e' ∧ e_LastError e' = text ∧
     if (e_Attempt e <? e_MaxAttempts e)%Z
     then e_Status e' = StatusRetry ∧ e_AvailableAt e' = (t + delay)%Z ∧ e_FinishedAt e' = None
     else e_Status e' = StatusFailed ∧ e_FinishedAt e' = Some t).
Proof.
  intros Hinv He Hv t. pose proof (Inv_id _ _ _ Hinv He) as Hid.
  pose proof (Inv_ok _ _ _ Hinv He) as Hok.
  assert (e_FinishedAt e = None) as Hfin.
  { destruct (e_FinishedAt e) eqn:Hf; [|done]. destruct Hv as (Hst & _).
    assert (is_terminal (e_Status e) = true) as Ht by (apply (ok_finished _ _ Hok); eauto).
    by rewrite Hst in Ht. }
  split_and!.
  - intros output. eexists _, _. unfold Succeed. rewrite (owned_bind _ _ e) by done. split.
    { apply (now_put_append (λ t, clear_lease _)). done. }
    split; [apply logged_recorded|]. by repeat split.
  - intros text. eexists _, _. unfold Fail. rewrite (owned_bind _ _ e) by done. split.
    { apply (now_put_append (λ t, clear_lease _)). done. }
    split; [apply logged_recorded|]. by repeat split.
  - intros text delay. unfold Retry. rewrite (owned_bind _ _ e) by done. simpl.
    rewrite Z.leb_antisym. destruct (e_Attempt e <? e_MaxAttempts e)%Z; simpl;
      (eexists _, _; split; [apply (now_put_append (λ t, _)); done|]);
      (split; [apply logged_recorded|]); by repeat split.
Qed.

(** The reports of the lease owner: a success stores the output and finishes the execution; a
    failure finishes it with the error; a retry schedules it after the delay while attempts are
    left and finishes it as failed otherwise.  Each releases the lease, appends one event with the
    attempt number and changes nothing else. *)
Theorem owner_reports w id e token :
  reachable w → m_executions (mem w) !! id = Some e → lease_valid e token →
  let t := env_now (tick w) in
  (∀ output, ∃ e' w', Succeed id token output w = (inr tt, w') ∧
     recorded id e' EventSucceeded EmptyString w w' ∧ settled e e' ∧
     e_Status e' = StatusSucceeded ∧ e_Output e' = cloneJSON output ∧ e_FinishedAt e' = Some t) ∧
  (∀ text, ∃ e' w', Fail id token text w = (inr tt, w') ∧
     recorded id e' EventFailed text w w' ∧ settled e e' ∧
     e_Status e' = StatusFailed ∧ e_LastError e' = text ∧ e_FinishedAt e' = Some t) ∧
  (∀ text delay, ∃ e' w', Retry id token text delay w = (inr tt, w') ∧
     recorded id e' (if (e_Attempt e <? e_MaxAttempts e)%Z then EventRetried else EventFailed)
       text w w' ∧ settled e e' ∧ e_LastError e' = text ∧
     if (e_Attempt e <? e_MaxAttempts e)%Z
     then e_Status e' = StatusRetry ∧ e_AvailableAt e' = (t + delay)%Z ∧ e_FinishedAt e' = None
     else e_Status e' = StatusFailed ∧ e_FinishedAt e' = Some t).
Proof. intros Hinv%reachable_Inv. by apply owner_reports_inv. Qed.

(** A cancellation finishes a pending, blocked, running or waiting execution with the reason
    and revokes its lease; an unknown or finished execution is refused with [ErrNotFound] and the
    store does not change. *)
Theorem cancel_execution w id reason :
  reachable w →
  match m_executions (mem w) !! id with
  | Some e =>
      if is_terminal (e_Status e) then CancelExecution id reason w = (inl (ErrNotFound : error), w)
      else ∃ e' w', CancelExecution id reason w = (inr tt, w') ∧
        recorded id e' EventCancelled reason w w' ∧ settled e e' ∧
        e_Status e' = StatusCancelled ∧ e_LastError e' = reason ∧
        e_FinishedAt e' = Some (env_now (tick w))
  | None => CancelExecution id reason w = (inl (ErrNotFound : error), w)
  end.
Proof.
  intros Hinv%reachable_Inv. unfold CancelExecution. rewrite !bind_gets.
  destruct (m_executions (mem w) !! id) as [e|] eqn:He; [|done].
  destruct (is_terminal (e_Status e)); [done|]. pose proof (Inv_id _ _ _ Hinv He) as Hid.
  eexists _, _. split; [apply (now_put_append (λ t, _)); intros t; exact Hid|].
  split; [apply logged_recorded|]. by repeat split.
Qed.

(** The state a restart puts an execution in. *)
Definition restarted (e : Execution) (status : Status) (t : Time) (e' : Execution) : Prop :=
  same_identity e e' ∧ no_lease e' ∧ e_Input e' = e_Input e ∧ e_Status e' = status ∧
  e_Attempt e' = 0%Z ∧ e_AvailableAt e' = t ∧ e_Output e' = None ∧ e_LastError e' = EmptyString ∧
  e_StartedAt e' = None ∧ e_FinishedAt e' = None.

Lemma reset_item_restarted status t e : restarted e status t (reset_item status t e).
Proof. by repeat split. Qed.

(** A restart makes a finished standalone execution pending again with a full attempt budget
    and without its old result; an unknown execution, a pipeline node and an active execution are
    refused with their errors and the store does not change. *)
Theorem restart_execution w id availableAt :
  reachable w →
  match m_executions (mem w) !! id with
  | None => RestartExecution id availableAt w = (inl (ErrNotFound : error), w)
  | Some e =>
      match e_PipelineRunID e with
      | Some _ => RestartExecution id availableAt w = (inl (ErrPipelineExecution : error), w)
      | None =>
          if is_terminal (e_Status e) then
            ∃ e' w', RestartExecution id availableAt w = (inr (cloneExecution e'), w') ∧
              recorded id e' EventRestarted EmptyString w w' ∧
              restarted e StatusPending
                (if IsZero availableAt then env_now (tick w) else availableAt) e'
          else RestartExecution id availableAt w = (inl (ErrActive : error), w)
      end
  end.
Proof.
  intros Hinv%reachable_Inv. unfold RestartExecution. rewrite !bind_gets.
  destruct (m_executions (mem w) !! id) as [e|] eqn:He; [|done].
  destruct (e_PipelineRunID e) as [r|] eqn:Hr; [done|].
  pose proof (Inv_id _ _ _ Hinv He) as Hid. pose proof (Inv_ok _ _ _ Hinv He) as Hok.
  destruct (inv_log _ Hinv _ _ He) as (? & _ & Hz%History_status & _).
  assert (is_active (e_Status e) = negb (is_terminal (e_Status e))) as Hact.
  { destruct (e_Status e) eqn:Hst; try done.
    destruct (ok_blocked _ _ Hok Hst) as [? ?]. congruence. }
  rewrite Hact. destruct (is_terminal (e_Status e)); [|done]. simpl.
  assert (∀ n t, (put_execution id (reset_item StatusPending t e) ≫= λ _,
    appendEvent (reset_item StatusPending t e) EventRestarted EmptyString ≫= λ _,
    mret (cloneExecution (reset_item StatusPending t e))) (mkWorld (mem w) n) =
    (inr (cloneExecution (reset_item StatusPending t e)),
     logged (mkWorld (mem w) n) id (reset_item StatusPending t e) EventRestarted EmptyString))
    as Hrun by (intros n t; apply put_append_ret; exact Hid).
  destruct (IsZero availableAt); eexists _, _.
  - split; [apply (Hrun (S (tick w)))|]. split; [apply logged_recorded|apply reset_item_restarted].
  - split; [destruct w as [s n]; apply (Hrun n)|].
    split; [apply logged_recorded|apply reset_item_restarted].
Qed.

(** Releasing a blocked pipeline node stores its new input and makes it pending; any other
    state is refused with [ErrActive], an unknown execution with [ErrNotFound], and the store does
    not change. *)
Theorem release_execution w id input availableAt :
  match m_executions (mem w) !! id with
  | None => ReleaseExecution id input availableAt w = (inl (ErrNotFound : error), w)
  | Some e =>
      if bool_decide (e_Status e = StatusBlocked) then
        ∃ e' w', ReleaseExecution id input availableAt w = (inr tt, w') ∧
          mem w' = mem w <| m_executions := <[id := e']> (m_executions (mem w)) |> ∧
          same_identity e e' ∧ e_Status e' = StatusPending ∧ e_Input e' = cloneJSON input ∧
          e_AvailableAt e' = (if IsZero availableAt then env_now (tick w) else availableAt) ∧
          e_Attempt e' = e_Attempt e
      else ReleaseExecution id input availableAt w = (inl (ErrActive : error), w)
  end.
Proof.
  unfold ReleaseExecution. rewrite !bind_gets.
  destruct (m_executions (mem w) !! id) as [e|]; [|done].
  destruct (bool_decide (e_Status e = StatusBlocked)); [|done]. simpl.
  destruct (IsZero availableAt); eexists _, _; (split; [reflexivity|]); (split; [reflexivity|]);
    by repeat split.
Qed.
End Actions.

(** ** The specification of the operations on one execution *)

Section Refinement.
Context `{E : GoEnv} `{!GoEnvOk}.

(** C21: every operation of the in-memory store on one execution (heartbeat, success, retry, failure,
    cancellation, release, restart) makes the change of the specification at the instant its clock shows
    and returns its result; an error leaves the store as it was. *)
Theorem memory_refines_spec {A} (c : Call A) w :
  Inv w → wp (memory_call c) (λ r w', call_step false c (env_now (tick w)) (mem w) r (mem w')) w.
Proof. apply memory_call_step. Qed.
End Refinement.
