(* ===== verification/MemoryProps3.v ===== *)
(** * Properties of the in-memory store: pipeline restarts, listings, statistics and retention *)

From S2P Require Import Prelude GoLib Model Memory MemoryInv MemoryOps MemoryLists.
From S2P Require Import MemoryCounts MemoryProps MemoryProps2 Demo.

Section Restart.
Context `{E : GoEnv} `{!GoEnvOk}.

Lemma restart_entries_total request t root l w :
  ∃ root' w', restart_entries request t root l w = (inr root', w').
Proof.
  revert root w. induction l as [|[id e] l IH]; intros root w; simpl; [by eexists _, _|].
  destruct (in_subgraph request e); [|apply IH].
  unfold put_execution, appendEvent, modify, uuid_New, now, mbind, M_bind. apply IH.
Qed.

(** Why a restart is refused. *)
Definition restart_refused (request : RestartSubgraph) (w : World) (err : error) : Prop :=
  (err = ErrNotFound ∧
     (m_runs (mem w) !! rs_RunID request = None ∨
      ∀ id e, m_executions (mem w) !! id = Some e → is_root request e = false)) ∨
  (err = ErrActive ∧ ∃ id e, m_executions (mem w) !! id = Some e ∧
     in_subgraph request e = true ∧ is_active (e_Status e) = true).

Lemma restart_errors request w :
  wp (RestartPipelineSubgraph request)
    (λ r w', ∀ err, r = inl err → restart_refused request w err) w.
Proof.
  apply wp_bind, wp_gets. destruct (m_runs (mem w) !! rs_RunID request) as [run|] eqn:Hrun;
    [|apply wp_throw; intros err [= <-]; left; auto].
  apply wp_bind, wp_range. simpl. set (l := env_shuffle _ _ _).
  assert (∀ e, e ∈ l.*2 ↔ ∃ id, m_executions (mem w) !! id = Some e) as Hin.
  { intros e. unfold l. rewrite env_shuffle_perm. apply elem_of_values. }
  destruct (existsb _ l.*2) eqn:Hact.
  { apply wp_throw. intros err [= <-]. right. split; [done|].
    apply existsb_exists in Hact as (e & He & Hb). apply list_elem_of_In, Hin in He as [id He].
    apply andb_prop in Hb as [? ?]. by exists id, e. }
  destruct (last (List.filter (is_root request) l.*2)) as [root|] eqn:Hlast.
  - apply wp_bind, wp_now. apply wp_bind, wp_range. unfold wp, mbind, M_bind.
    edestruct restart_entries_total as (root' & w' & ->). intros err. by destruct w'.
  - apply wp_throw. intros err [= <-]. left. split; [done|]. right. intros id e He.
    apply last_None in Hlast. destruct (is_root request e) eqn:Hr; [|done].
    assert (e ∈ List.filter (is_root request) l.*2) as Hf
      by (apply elem_of_filter_In; split; [apply Hin; eauto|done]).
    rewrite Hlast in Hf. by apply elem_of_nil in Hf.
Qed.

(** C14: restarting a node of a run resets that node to pending and its listed descendants to
    blocked, all with their results erased, reopens the run under the next revision and leaves every
    other execution and run as it is.  It is refused, with the store unchanged, exactly when the run or
    the node is unknown ([ErrNotFound]) or a node of the subgraph is active ([ErrActive]). *)
Theorem restart_subgraph request w :
  reachable w →
  match RestartPipelineSubgraph request w with
  | (inl err, w') => mem w' = mem w ∧ restart_refused request w err
  | (inr root, w') => ∃ run t t' id e,
      m_runs (mem w) !! rs_RunID request = Some run ∧
      m_runs (mem w') = <[rs_RunID request := reopened_run t' run]> (m_runs (mem w)) ∧
      (rs_AvailableAt request ≠ 0%Z → t = rs_AvailableAt request) ∧
      m_executions (mem w) !! id = Some e ∧ is_root request e = true ∧
      (∃ e', m_executions (mem w') !! id = Some e' ∧ root = cloneExecution e') ∧
      ∀ id e, m_executions (mem w) !! id = Some e →
        if in_subgraph request e then
          is_active (e_Status e) = false ∧
          ∃ e', m_executions (mem w') !! id = Some e' ∧
            restarted e (if bool_decide (e_NodeKey e = rs_RootNodeKey request)
                         then StatusPending else StatusBlocked) t e'
        else m_executions (mem w') !! id = Some e
  end.
Proof.
  intros Hinv%reachable_Inv. pose proof (RestartPipelineSubgraph_wp request w Hinv) as Hwp.
  pose proof (restart_errors request w) as Herr.
  destruct (RestartPipelineSubgraph request w) as [[err|root] w'] eqn:Hrun.
  - split; [apply (wp_elim _ _ _ _ _ Hwp Hrun)|]. by apply (wp_elim _ _ _ _ _ Herr Hrun).
  - apply (wp_elim _ _ _ _ _ Hwp) in Hrun as (_ & run & id & e & t & t' & ? & He & Hroot & -> & Ht & Hact & Hmap & ?).
    exists run, t, t', id, e. split_and!; try done.
    + eexists. rewrite Hmap, He. simpl. split; [done|]. f_equal. unfold restart_map.
      rewrite is_root_in_subgraph by done. by rewrite is_root_status.
    + intros id1 e1 He1. rewrite Hmap, He1. simpl. unfold restart_map.
      destruct (in_subgraph request e1) eqn:Hs; [|done]. split; [by eapply Hact|].
      eexists. split; [done|]. apply reset_item_restarted.
Qed.
End Restart.

(** ** Listings and statistics *)

Section Reads.
Context `{E : GoEnv} `{!GoEnvOk}.

(** A listing holds the stored records that match the filter, each once, strictly newest
    first (the printed identifier breaks ties), whatever the iteration order of the maps; a positive
    limit cuts it to a prefix; the store does not change. *)
Theorem listings_exact filter run_filter w :
  reachable w →
  (∃ items, ListExecutions filter w =
      (inr (limit_slice (f_Limit filter) items), mkWorld (mem w) (S (tick w))) ∧
     StronglySorted (λ a b, newer_execution a b = true) items ∧
     ∀ e, e ∈ items ↔ ∃ id e0, m_executions (mem w) !! id = Some e0 ∧
       matches_filter filter e0 = true ∧ e = cloneExecution e0) ∧
  (∃ runs, ListPipelineRuns run_filter w =
      (inr (limit_slice (rf_Limit run_filter) runs), mkWorld (mem w) (S (tick w))) ∧
     StronglySorted (λ a b, newer_run a b = true) runs ∧
     ∀ r, r ∈ runs ↔ ∃ id r0, m_runs (mem w) !! id = Some r0 ∧
       matches_run_filter run_filter r0 = true ∧ r = cloneRun r0).
Proof.
  intros Hinv%reachable_Inv. split.
  - exists (listing filter w). split_and!; [by apply ListExecutions_run| |apply elem_of_listing].
    apply (sorted_strict e_CreatedAt e_ID); [|apply (sort_newer_sorted e_CreatedAt e_ID)].
    unfold listing, distinct. rewrite sort_Slice_perm. by apply listing_distinct, Inv_keyed.
  - exists (run_listing run_filter w).
    split_and!; [by apply ListPipelineRuns_run| |apply elem_of_run_listing].
    apply (sorted_strict r_CreatedAt r_ID); [|apply (sort_newer_sorted r_CreatedAt r_ID)].
    unfold run_listing, distinct. rewrite sort_Slice_perm. by apply run_listing_distinct, Inv_keyed.
Qed.

(** Following the cursors, page after page, visits the whole listing: no record is skipped and
    none is repeated, whatever the page size. *)
Theorem paging_complete filter run_filter fuel w :
  reachable w → length (listing filter w) < fuel → length (run_listing run_filter w) < fuel →
  (collect_pages fuel filter w).1 = inr (listing filter w) ∧
  (collect_run_pages fuel run_filter w).1 = inr (run_listing run_filter w).
Proof.
  intros Hinv%reachable_Inv ??. split; [by apply collect_pages_all|by apply collect_run_pages_all].
Qed.

(** The statistics report, strictly ordered by name and status, exactly the pairs in use, each
    with the number of its records; the store does not change. *)
Theorem counts_exact w :
  (∃ rows w', ExecutionCounts w = (inr rows, w') ∧ mem w' = mem w ∧
     report (λ row, (ec_TaskName row, ec_Status row)) ec_Count
       (execution_key <$> (map_to_list (m_executions (mem w))).*2) rows) ∧
  (∃ rows w', PipelineCounts w = (inr rows, w') ∧ mem w' = mem w ∧
     report (λ row, (pc_PipelineName row, pc_Status row)) pc_Count
       (run_key <$> (map_to_list (m_runs (mem w))).*2) rows).
Proof.
  split.
  - destruct (ExecutionCounts w) as [r w'] eqn:Hrun.
    destruct (wp_elim _ _ _ _ _ (ExecutionCounts_report w) Hrun) as (? & rows & -> & ?).
    by exists rows, w'.
  - destruct (PipelineCounts w) as [r w'] eqn:Hrun.
    destruct (wp_elim _ _ _ _ _ (PipelineCounts_report w) Hrun) as (? & rows & -> & ?).
    by exists rows, w'.
Qed.
End Reads.

(** ** Retention *)

Section Retention.
Context `{E : GoEnv} `{!GoEnvOk}.

(** A selected candidate finished no later than one that was due and left. *)
Lemma purge_selection_oldest before limit w c :
  candidate_due before w c → c ∉ purge_selection before limit w →
  Z.of_nat (length (purge_selection before limit w)) = (if (limit <=? 0)%Z then 1000 else limit)%Z ∧
  ∀ c', c' ∈ purge_selection before limit w → (p_finished c' ≤ p_finished c)%Z.
Proof.
  intros Hdue Hni. apply purge_candidates_of_due in Hdue. unfold purge_selection in *.
  set (l := purge_candidates_of before w) in *.
  set (lim := if (limit <=? 0)%Z then 1000%Z else limit) in *.
  assert (0 < lim)%Z as Hlim by (unfold lim; destruct (Z.leb_spec limit 0); lia).
  destruct (limit_slice_prefix lim (sort_Slice candidate_less l)) as [k Hk].
  assert (c ∈ k) as Hc.
  { assert (c ∈ sort_Slice candidate_less l) as Hin by by apply elem_of_sort_Slice.
    rewrite Hk in Hin. by apply elem_of_app in Hin as [?|?]. }
  split.
  - rewrite length_limit_slice by done. apply (f_equal length) in Hk.
    rewrite length_app, length_limit_slice in Hk by done.
    destruct k; [by apply elem_of_nil in Hc|]. simpl in Hk. lia.
  - intros c' Hc'. assert (StronglySorted (λ a b, candidate_less b a = false)
      (sort_Slice candidate_less l)) as Hs.
    { apply sort_Slice_sorted; unfold candidate_less, Before.
      - intros a b. rewrite Z.ltb_lt, Z.ltb_ge. lia.
      - intros a b d. rewrite !Z.ltb_ge. lia. }
    rewrite Hk in Hs. apply StronglySorted_app_2 in Hs as (_ & _ & Hs).
    specialize (Hs c' c Hc' Hc). unfold candidate_less, Before in Hs. by rewrite Z.ltb_ge in Hs.
Qed.

(** C29: a purge selects runs and standalone executions with a finish time before the cutoff, the oldest
    first and at most [limit] of them (1000 if the limit is not positive), and removes them; a selected run
    goes with all its nodes, whatever their status, pending and blocked ones included, and also when it is
    running again, since the finish time of a run that was finished once stays (both differ from the comment
    of the store interface, which says that active and blocked work is preserved); the result counts the
    removed records; every other record stays as it is. *)
Theorem purge_exact before limit w :
  reachable w →
  ∃ sel n m w', Purge before limit w = (inr (mkPurgeResult (Z.of_nat n) (Z.of_nat m)), w') ∧
    NoDup (candidate_key <$> sel) ∧ Forall (candidate_due before w) sel ∧
    (∀ c, candidate_due before w c → c ∉ sel →
       Z.of_nat (length sel) = (if (limit <=? 0)%Z then 1000 else limit)%Z ∧
       ∀ c', c' ∈ sel → (p_finished c' ≤ p_finished c)%Z) ∧
    size (m_executions (mem w)) = size (m_executions (mem w')) + n ∧
    size (m_runs (mem w)) = size (m_runs (mem w')) + m ∧
    (∀ id, m_executions (mem w') !! id =
       e ← m_executions (mem w) !! id;
       if existsb (λ c, purges c id e) sel then None else Some e) ∧
    (∀ id, m_runs (mem w') !! id =
       r ← m_runs (mem w) !! id; if existsb (λ c, purges_run c id) sel then None else Some r).
Proof.
  intros Hinv%reachable_Inv. pose proof (Purge_wp before limit w Hinv) as Hwp.
  destruct (Purge before limit w) as [r w'] eqn:Hrun.
  destruct (wp_elim _ _ _ _ _ Hwp Hrun) as (_ & (n & m & -> & ? & ?) & ? & ?).
  destruct (purge_selection_ok before limit w) as [Hnd Hdue].
  exists (purge_selection before limit w), n, m, w'.
  split_and!; try done. intros c Hc Hni. by apply purge_selection_oldest.
Qed.

(** A purge keeps every standalone execution that is not finished or finished at or after the
    cutoff, every run without a finish time or finished at or after it, and all the nodes of such a
    run. *)
Theorem purge_keeps_unfinished before limit w id :
  reachable w →
  let w' := (Purge before limit w).2 in
  (∀ e, m_executions (mem w) !! id = Some e → e_PipelineRunID e = None →
     is_terminal (e_Status e) = false ∨ (∀ t, e_FinishedAt e = Some t → (before ≤ t)%Z) →
     m_executions (mem w') !! id = Some e) ∧
  (∀ runID r, m_runs (mem w) !! runID = Some r →
     (∀ t, r_FinishedAt r = Some t → (before ≤ t)%Z) →
     m_runs (mem w') !! runID = Some r ∧
     ∀ e, m_executions (mem w) !! id = Some e → e_PipelineRunID e = Some runID →
       m_executions (mem w') !! id = Some e).
Proof.
  intros Hinv%reachable_Inv w'. pose proof (Purge_wp before limit w Hinv) as (_ & _ & Hx & Hr).
  destruct (purge_selection_ok before limit w) as [_ Hdue]. rewrite Forall_forall in Hdue.
  fold w' in Hx, Hr. simpl in Hx, Hr. split.
  - intros e He Hrun Hfin. rewrite Hx, He. simpl.
    destruct (existsb _ _) eqn:Hex; [exfalso|done].
    apply existsb_exists in Hex as (c & Hc%list_elem_of_In & Hp). destruct (Hdue c Hc) as [Hlt Hd].
    unfold purges in Hp. destruct (p_pipeline c).
    + apply of_run_true in Hp. congruence.
    + reflect_bool. subst id. destruct Hd as (e0 & He0 & _ & Hf). simplify_eq.
      destruct Hfin as [Hnt|Hfin]; [|specialize (Hfin _ Hf); lia].
      assert (is_terminal (e_Status e) = true); [|congruence].
      apply (ok_finished _ _ (Inv_ok _ _ _ Hinv He)). eauto.
  - intros runID r Hrun Hfin.
    assert (∀ c, c ∈ purge_selection before limit w → p_pipeline c = true → p_id c = runID → False)
      as Hno.
    { intros c Hc Hp <-. destruct (Hdue c Hc) as [Hlt Hd]. rewrite Hp in Hd.
      destruct Hd as (r0 & Hr0 & Hf). simplify_eq. specialize (Hfin _ Hf). lia. }
    split.
    + rewrite Hr, Hrun. simpl. destruct (existsb _ _) eqn:Hex; [exfalso|done].
      apply existsb_exists in Hex as (c & Hc%list_elem_of_In & Hp). unfold purges_run in Hp.
      reflect_bool. eauto.
    + intros e He Hnode. rewrite Hx, He. simpl. destruct (existsb _ _) eqn:Hex; [exfalso|done].
      apply existsb_exists in Hex as (c & Hc%list_elem_of_In & Hp). destruct (Hdue c Hc) as [_ Hd].
      unfold purges in Hp. destruct (p_pipeline c) eqn:Hpc.
      * apply of_run_true in Hp. apply (Hno c Hc Hpc). congruence.
      * reflect_bool. subst id. destruct Hd as (e0 & He0 & Hnone & _). congruence.
Qed.
End Retention.
