(* ===== verification/MemoryWitness.v ===== *)
(** * The store's properties on concrete stores *)

From S2P Require Import Prelude GoLib Model Memory MemoryInv MemoryOps MemoryLists.
From S2P Require Import MemoryCounts MemoryProps MemoryProps2 MemoryProps3 StoreSpec Demo.

(** Two standalone executions, the first of which is claimed and then cancelled. *)
Definition ops_create : list Op :=
  [OpCreateExecution (demo_request "a"); OpCreateExecution (demo_request "b")].
Definition ops_claim : list Op := ops_create ++ [OpClaim "w1" [demo_key] 1 5].
Definition ops_cancel : list Op := ops_claim ++ [OpCancelExecution 2%N "stop"].

(** A run with two nodes, the first of which has failed. *)
Definition ops_run : list Op :=
  [OpCreatePipelineRun (mkCreatePipelineRun "p" 1 None "key");
   OpCreateExecution (demo_node 2%N "first"); OpCreateExecution (demo_node 2%N "second");
   OpClaim "w1" [demo_key] 1 5; OpFail 4%N 13%N "boom"].

Ltac calls_ok := repeat constructor; vm_compute; done.
Ltac reach := apply run_ops_reachable; calls_ok.

Abbreviation at_id w id := (default zeroExecution (m_executions (mem w) !! id)).

Lemma store_invariant_witness : Inv (run_ops ops_claim).
Proof. apply (store_invariant (run_ops ops_claim)). reach. Defined.

Lemma stale_lease_fenced_witness :
  fenced (Heartbeat 2%N (e_LeaseToken (at_id (run_ops ops_claim) 2%N)) 5) (run_ops ops_cancel) ∧
  fenced (Succeed 2%N (e_LeaseToken (at_id (run_ops ops_claim) 2%N)) None) (run_ops ops_cancel) ∧
  fenced (Retry 2%N (e_LeaseToken (at_id (run_ops ops_claim) 2%N)) "x" 1) (run_ops ops_cancel) ∧
  fenced (Fail 2%N (e_LeaseToken (at_id (run_ops ops_claim) 2%N)) "x") (run_ops ops_cancel).
Proof.
  apply (stale_lease_fenced (run_ops ops_claim) (run_ops ops_cancel) (run_ops ops_cancel) 2%N).
  - reach.
  - vm_compute. done.
  - apply run_ops_steps. calls_ok.
  - intros e. vm_compute. intros [= <-]. done.
  - apply rtc_refl.
Defined.

Lemma claim_delivers_due_witness :
  ∃ items w', Claim "w1" [demo_key] 1 5 (run_ops ops_create) = (inr items, w') ∧ length items = 1.
Proof.
  destruct (claim_delivers_due "w1" [demo_key] 1 5 (run_ops ops_create)) as (items & w' & Hc & Hl & _).
  - reach.
  - exists items, w'. split; [exact Hc|]. rewrite Hl. vm_compute. done.
Defined.

Lemma lease_tokens_never_reused_witness :
  e_LeaseToken (at_id (run_ops ops_claim) 2%N) ≠
  e_LeaseToken (at_id (run_ops (ops_claim ++ [OpClaim "w2" [demo_key] 1 5])) 2%N).
Proof.
  pose (items := default_result [] (Claim "w1" [demo_key] 1 5 (run_ops ops_create))).
  pose (items' := default_result [] (Claim "w2" [demo_key] 1 5 (run_ops ops_claim))).
  apply (lease_tokens_never_reused (run_ops ops_create) (run_ops ops_claim) (run_ops ops_claim)
    (run_ops (ops_claim ++ [OpClaim "w2" [demo_key] 1 5]))
    "w1" [demo_key] 1 5 "w2" [demo_key] 1 5 items items').
  - reach.
  - vm_compute. done.
  - apply rtc_refl.
  - vm_compute. done.
  - vm_compute. left.
  - vm_compute. left.
Defined.

Lemma event_log_replays_witness :
  ∃ evs, Events 2%N (run_ops ops_claim) = (inr evs, run_ops ops_claim) ∧
    deliveries (ev_Type <$> evs) = 1%Z.
Proof.
  destruct (event_log_replays (run_ops ops_claim) 2%N (at_id (run_ops ops_claim) 2%N))
    as (evs & He & _ & _ & Hd & _).
  - reach.
  - vm_compute. done.
  - exists evs. split; [exact He|]. rewrite Hd. vm_compute. done.
Defined.

Lemma no_execution_stuck_witness :
  claimable [demo_key] 100 (at_id (run_ops ops_claim) 2%N) = true.
Proof.
  rewrite (no_execution_stuck (run_ops ops_claim) 2%N (at_id (run_ops ops_claim) 2%N) [demo_key] 100).
  - vm_compute. done.
  - reach.
  - vm_compute. done.
  - vm_compute. done.
  - apply list_elem_of_here.
  - vm_compute. done.
  - intros _. vm_compute. done.
Defined.

Lemma reaper_fails_exhausted_witness :
  ∃ ids w', ReapExpired (run_ops (removelast ops_run)) = (inr ids, w') ∧ NoDup ids.
Proof.
  destruct (reaper_fails_exhausted (run_ops (removelast ops_run))) as (ids & w' & Hr & Hn & _).
  - reach.
  - exists ids, w'. split; [exact Hr|exact Hn].
Defined.

Lemma create_idempotent_witness :
  CreateExecution (demo_request "a") (run_ops ops_cancel) =
  (inr (cloneExecution (at_id (run_ops ops_cancel) 2%N)), run_ops ops_cancel).
Proof.
  pose (ops := [OpCreateExecution (demo_request "a")]).
  apply (create_idempotent (run_ops []) (run_ops ops) (run_ops ops_cancel) (demo_request "a")
    (demo_request "a") (at_id (run_ops ops) 2%N)).
  - reach.
  - vm_compute. done.
  - done.
  - done.
  - vm_compute. done.
  - apply (run_ops_steps ops [OpCreateExecution (demo_request "b"); OpClaim "w1" [demo_key] 1 5;
      OpCancelExecution 2%N "stop"]). calls_ok.
  - vm_compute. done.
  - done.
  - done.
Defined.

Lemma executions_unique_witness :
  CreateExecution (demo_node 2%N "first") (run_ops ops_run) =
  (inr (cloneExecution (at_id (run_ops ops_run) 4%N)), run_ops ops_run).
Proof.
  apply (executions_unique (run_ops ops_run) 4%N (at_id (run_ops ops_run) 4%N) 4%N
    (at_id (run_ops ops_run) 4%N)) with (run := 2%N).
  - reach.
  - vm_compute. done.
  - vm_compute. done.
  - vm_compute. done.
  - vm_compute. done.
  - done.
  - vm_compute. done.
  - done.
  - done.
Defined.

Abbreviation demo_run := (mkCreatePipelineRun "p" 1 None "key").

Lemma create_run_idempotent_witness :
  CreatePipelineRun demo_run (run_ops ops_run) =
  (inr (cloneRun (default (new_run demo_run 0%N 0) (m_runs (mem (run_ops ops_run)) !! 2%N))),
   run_ops ops_run).
Proof.
  pose (ops := [OpCreatePipelineRun demo_run]).
  apply (create_run_idempotent (run_ops []) (run_ops ops) (run_ops ops_run) demo_run demo_run
    (new_run demo_run 2%N 1)).
  - reach.
  - done.
  - vm_compute. done.
  - apply (run_ops_steps ops (tail ops_run)). calls_ok.
  - vm_compute. done.
  - done.
  - done.
Defined.

(** The run after the calls. *)
Abbreviation run_at w := (default (new_run demo_run 0%N 0) (m_runs (mem w) !! 2%N)).

Lemma run_update_compare_and_set_witness :
  SetPipelineRunStatus 2%N (r_Revision (run_at (run_ops ops_run))) RunCancelled "late"
    (run_ops (ops_run ++ [OpSetPipelineRunStatus 2%N 0 RunFailed "boom"])) =
  (inl (ErrConflict : error), run_ops (ops_run ++ [OpSetPipelineRunStatus 2%N 0 RunFailed "boom"])).
Proof.
  pose (ops := ops_run ++ [OpSetPipelineRunStatus 2%N 0 RunFailed "boom"]).
  apply (run_update_compare_and_set (run_ops ops_run) (run_ops ops) (run_ops ops) 0 2%N
    (run_at (run_ops ops_run)) (run_at (run_ops ops)) RunFailed "boom" RunCancelled "late").
  - reach.
  - vm_compute. done.
  - vm_compute. done.
  - constructor.
  - vm_compute. done.
  - vm_compute. done.
Defined.

Lemma owner_reports_witness :
  ∃ e' w', Retry 2%N (e_LeaseToken (at_id (run_ops ops_claim) 2%N)) "x" 7 (run_ops ops_claim) =
    (inr tt, w') ∧ e_Status e' = StatusRetry ∧ m_executions (mem w') !! 2%N = Some e'.
Proof.
  destruct (owner_reports (run_ops ops_claim) 2%N (at_id (run_ops ops_claim) 2%N)
    (e_LeaseToken (at_id (run_ops ops_claim) 2%N))) as (_ & _ & Hr).
  - reach.
  - vm_compute. done.
  - split_and!; vm_compute; done.
  - destruct (Hr "x" 7%Z) as (e' & w' & H1 & (H2 & _) & _ & _ & H3). exists e', w'.
    assert (e_Attempt (at_id (run_ops ops_claim) 2%N) <? e_MaxAttempts (at_id (run_ops ops_claim) 2%N)
      = true)%Z as Hlt by (vm_compute; done).
    rewrite Hlt in H3. split; [exact H1|]. split; [exact (proj1 H3)|]. rewrite H2.
    apply lookup_insert_eq.
Defined.

Lemma cancel_execution_witness :
  CancelExecution 2%N "again" (run_ops ops_cancel) =
  (inl (ErrNotFound : error), run_ops ops_cancel).
Proof.
  assert (reachable (run_ops ops_cancel)) as Hreach by reach.
  pose proof (cancel_execution (run_ops ops_cancel) 2%N "again" Hreach) as H.
  destruct (m_executions _ !! _) as [e|] eqn:He; [|exact H].
  assert (is_terminal (e_Status e) = true) as Ht by (revert He; vm_compute; by intros [= <-]).
  rewrite Ht in H. exact H.
Defined.

Lemma restart_execution_witness :
  RestartExecution 2%N 0 (run_ops ops_claim) = (inl (ErrActive : error), run_ops ops_claim).
Proof.
  assert (reachable (run_ops ops_claim)) as Hreach by reach.
  pose proof (restart_execution (run_ops ops_claim) 2%N 0 Hreach) as H.
  destruct (m_executions _ !! _) as [e|] eqn:He; [|revert He; vm_compute; done].
  assert (e_PipelineRunID e = None ∧ is_terminal (e_Status e) = false) as [Hr Ht]
    by (revert He; vm_compute; by intros [= <-]).
  rewrite Hr, Ht in H. exact H.
Defined.

Lemma restart_subgraph_witness :
  match RestartPipelineSubgraph (mkRestartSubgraph 2%N "first" [] 9) (run_ops ops_run) with
  | (inl err, w') => False
  | (inr root, w') => ∃ e', m_executions (mem w') !! 4%N = Some e' ∧ e_Status e' = StatusPending
  end.
Proof.
  assert (reachable (run_ops ops_run)) as Hreach by reach.
  pose proof (restart_subgraph (mkRestartSubgraph 2%N "first" [] 9) (run_ops ops_run) Hreach) as H.
  destruct (RestartPipelineSubgraph _ _) as [[err|root] w'] eqn:Hr.
  - exfalso. clear H. revert Hr. vm_compute. done.
  - destruct H as (run & t & t' & id & e & _ & _ & _ & _ & _ & _ & H).
    destruct (H 4%N (at_id (run_ops ops_run) 4%N)) as (_ & e' & He' & _ & _ & _ & Hs & _).
    + vm_compute. done.
    + by exists e'.
Defined.

Lemma listings_exact_witness :
  ∃ items, ListExecutions (mkListFilter "mail" EmptyString None 1 None) (run_ops ops_claim) =
    (inr (limit_slice 1 items), mkWorld (mem (run_ops ops_claim)) (S (tick (run_ops ops_claim)))).
Proof.
  destruct (listings_exact (mkListFilter "mail" EmptyString None 1 None) (mkRunFilter [] 0 None)
    (run_ops ops_claim)) as [(items & Hl & _) _]; [reach|].
  exists items. exact Hl.
Defined.

Lemma paging_complete_witness :
  (collect_pages 3 (mkListFilter EmptyString EmptyString None 1 None) (run_ops ops_claim)).1 =
  inr (listing (mkListFilter EmptyString EmptyString None 1 None) (run_ops ops_claim)).
Proof.
  apply (paging_complete (mkListFilter EmptyString EmptyString None 1 None) (mkRunFilter [] 1 None)).
  - reach.
  - vm_compute. lia.
  - vm_compute. lia.
Defined.

Lemma counts_exact_witness :
  ∃ rows w', ExecutionCounts (run_ops ops_claim) = (inr rows, w') ∧
    mem w' = mem (run_ops ops_claim).
Proof.
  destruct (counts_exact (run_ops ops_claim)) as [(rows & w' & Hc & Hm & _) _].
  exists rows, w'. split; [exact Hc|exact Hm].
Defined.

Lemma purge_exact_witness :
  ∃ n m w', Purge 1000 10 (run_ops ops_cancel) =
    (inr (mkPurgeResult (Z.of_nat n) (Z.of_nat m)), w').
Proof.
  destruct (purge_exact 1000 10 (run_ops ops_cancel)) as (sel & n & m & w' & Hp & _); [reach|].
  exists n, m, w'. exact Hp.
Defined.

Lemma purge_keeps_unfinished_witness :
  m_executions (mem (Purge 1000 10 (run_ops ops_cancel)).2) !! 6%N =
  Some (at_id (run_ops ops_cancel) 6%N).
Proof.
  apply (purge_keeps_unfinished 1000 10 (run_ops ops_cancel) 6%N).
  - reach.
  - vm_compute. done.
  - vm_compute. done.
  - left. vm_compute. done.
Defined.

(** ** What a purge drops *)

(** A run that failed while its second node was pending, and a run that was cancelled and then set
    running again. *)
Definition ops_failed_run : list Op := ops_run ++ [OpSetPipelineRunStatus 2%N 0 RunFailed "boom"].
Definition ops_reset_run : list Op :=
  ops_run ++ [OpSetPipelineRunStatus 2%N 0 RunCancelled "stop";
              OpSetPipelineRunStatus 2%N 1 RunRunning EmptyString].

(** A purge removes unfinished work of a pipeline: the pending node of a failed run, and a run
    whose status was set back to running, since the store keeps the finish time of such a run. *)
Theorem purge_drops_unfinished_nodes :
  (∃ w id e, reachable w ∧ m_executions (mem w) !! id = Some e ∧ e_Status e = StatusPending ∧
     m_executions (mem (Purge 1000 10 w).2) !! id = None) ∧
  (∃ w id r, reachable w ∧ m_runs (mem w) !! id = Some r ∧ r_Status r = RunRunning ∧
     is_Some (r_FinishedAt r) ∧ m_runs (mem (Purge 1000 10 w).2) !! id = None).
Proof.
  split.
  - exists (run_ops ops_failed_run), 8%N, (at_id (run_ops ops_failed_run) 8%N).
    split; [reach|]. vm_compute. done.
  - eexists (run_ops ops_reset_run), 2%N, _. split; [reach|]. vm_compute. eauto.
Qed.

(** A success reported by the owner of the lease. *)
Lemma memory_refines_spec_witness :
  call_step false (CSucceed 2%N (e_LeaseToken (at_id (run_ops ops_claim) 2%N)) (Some "1"))
    (env_now (tick (run_ops ops_claim))) (mem (run_ops ops_claim)) (inr tt)
    (mem (memory_call (CSucceed 2%N (e_LeaseToken (at_id (run_ops ops_claim) 2%N)) (Some "1"))
            (run_ops ops_claim)).2).
Proof.
  assert (Inv (run_ops ops_claim)) as Hinv by (apply reachable_Inv; reach).
  pose proof (memory_refines_spec (CSucceed 2%N (e_LeaseToken (at_id (run_ops ops_claim) 2%N)) (Some "1"))
    (run_ops ops_claim) Hinv) as Hstep.
  unfold wp in Hstep. set (r := (memory_call _ _).1) in Hstep.
  assert (r = inr tt) as Hr by (vm_compute; reflexivity).
  rewrite Hr in Hstep. exact Hstep.
Defined.
