(* ===== verification/TaskProps.v ===== *)
(** * Properties of tasks, retry policies and the registry *)

From S2P Require Import Prelude GoLib Model Memory MemoryInv MemoryOps Task TaskRegistry Demo.

(** C40: a capped exponential policy starts at the base delay, doubles it after every attempt while
    it is below half the cap and keeps it from then on; no wrap-around occurs, every delay is
    positive and at most the cap, and from the 64th attempt on it is at least half the cap. *)
Theorem backoff_doubles base maximum :
  (0 < base ≤ MaxInt64)%Z → (0 < maximum ≤ MaxInt64)%Z →
  (∀ a, (a ≤ 1)%Z → ExponentialBackoff base maximum a = Z.min base maximum) ∧
  (∀ a, (1 ≤ a)%Z → ExponentialBackoff base maximum (a + 1)%Z =
     let d := ExponentialBackoff base maximum a in
     if (d <? Z.quot maximum 2)%Z then (2 * d)%Z else d) ∧
  (∀ a, (0 < ExponentialBackoff base maximum a ≤ maximum)%Z) ∧
  (∀ a, (64 ≤ a)%Z → (Z.quot maximum 2 ≤ ExponentialBackoff base maximum a)%Z).
Proof.
  intros Hb Hm. pose proof (half_bounds maximum Hm) as Hhalf.
  split_and!.
  - intros a Ha. rewrite ExponentialBackoff_delay by done.
    replace (Z.to_nat (a - 1)) with 0 by lia. simpl. lia.
  - intros a Ha. rewrite !ExponentialBackoff_delay by done.
    replace (Z.to_nat (a + 1 - 1)) with (S (Z.to_nat (a - 1))) by lia. simpl.
    set (k := Z.to_nat (a - 1)). pose proof (delay_after_bounds base maximum Hb Hm k).
    destruct (Z.ltb_spec (delay_after base maximum k) (Z.quot maximum 2)),
      (Z.ltb_spec (Z.min maximum (delay_after base maximum k)) (Z.quot maximum 2)); lia.
  - intros a. rewrite ExponentialBackoff_delay by done.
    pose proof (delay_after_bounds base maximum Hb Hm (Z.to_nat (a - 1))). lia.
  - intros a Ha. rewrite ExponentialBackoff_delay by done.
    destruct (delay_after_growth base maximum Hb Hm (Z.to_nat (a - 1))) as [?|Hg]; [lia|].
    assert (2 ^ 63 ≤ 2 ^ Z.of_nat (Z.to_nat (a - 1)))%Z by (apply Z.pow_le_mono_r; lia).
    unfold MaxInt64 in *. lia.
Qed.

Lemma backoff_doubles_witness :
  (0 < ExponentialBackoff 100 1000 7 ≤ 1000)%Z ∧ ExponentialBackoff 100 1000 3%Z = 400%Z.
Proof.
  destruct (backoff_doubles 100 1000) as (_ & Hstep & Hb & _); [done|done|].
  split; [apply Hb|]. change 3%Z with (2 + 1)%Z. rewrite Hstep; done.
Defined.

(** The policy of a definition made without options never reaches its cap of 30 seconds: the
    delays stop at 25.6 seconds. *)
Theorem default_backoff_below_cap attempt :
  (ExponentialBackoff (100 * Millisecond) (30 * Second) attempt ≤ 25600 * Millisecond)%Z.
Proof.
  rewrite ExponentialBackoff_delay by (unfold Millisecond, Second, MaxInt64; lia).
  set (k := Z.to_nat _). destruct (decide (k < 8)) as [Hk|Hk].
  - do 8 (destruct k as [|k]; [vm_compute; done|]). lia.
  - rewrite (delay_after_stop _ _ 8 k); [vm_compute; done|vm_compute; done|lia].
Qed.

(** ** The registry *)

Section RegistryProps.
Context {W : Type}.

(** Composing modules succeeds exactly when every module is named and no task is bound twice;
    the registry then lists the bound tasks, each once and in order, routes an execution to the
    binding of its task and version (two tasks never share a key), hands out that binding's policy,
    and refuses any other execution with a permanent unknown-task error. *)
Theorem registry_exact (modules : list (Module_ W)) :
  match NewRegistry modules with
  | inr r =>
      Forall (λ m, mod_name m ≠ EmptyString) modules ∧
      NoDup (task_key_of <$> (modules ≫= mod_bindings)) ∧
      StronglySorted (λ a b, key_less a b = true) (Keys r) ∧
      (∀ k, k ∈ Keys r ↔ ∃ d, d ∈ (modules ≫= mod_bindings) ∧ task_key_of d = k) ∧
      (∀ d item, d ∈ (modules ≫= mod_bindings) →
         task_key_of d = mkTaskKey (e_TaskName item) (e_TaskVersion item) →
         Execute r item = t_execute d item ∧
         Policy r (e_TaskName item) (e_TaskVersion item) =
           Some (t_maxAttempts d, t_timeout d, t_retry d)) ∧
      (∀ item, mkTaskKey (e_TaskName item) (e_TaskVersion item) ∉ Keys r →
         Policy r (e_TaskName item) (e_TaskVersion item) = None ∧
         ∃ err, (∀ w, Execute r item w = (inl err, w)) ∧
           IsPermanent err = true ∧ errors_Is err ErrUnknownTask = true)
  | inl _ =>
      Exists (λ m, mod_name m = EmptyString) modules ∨
      ¬ NoDup (task_key_of <$> (modules ≫= mod_bindings))
  end.
Proof.
  pose proof (register_modules_spec [] modules ∅ _ registered_nil) as Hspec. unfold NewRegistry.
  destruct (register_modules ∅ (mkRegistry ∅ []) modules) as [err|r]; simpl in *.
  { by rewrite <-NoDup_keys. }
  destruct Hspec as (Hnames & owners & Hnd & Hkeys & Htasks & _).
  set (ds := modules ≫= mod_bindings) in *. apply NoDup_keys in Hnd.
  assert (∀ k, k ∈ sort_Slice key_less (reg_keys r) ↔ ∃ d, d ∈ ds ∧ task_key_of d = k) as Hin.
  { intros k. rewrite elem_of_sort_Slice, Hkeys, list_elem_of_fmap. naive_solver. }
  split_and!; [done|done| |done| |].
  - unfold Keys. simpl. rewrite Hkeys. by apply sorted_keys_strict.
  - intros d item Hd [= Hn Hv].
    assert (reg_tasks r !! descriptorKey (e_TaskName item) (e_TaskVersion item) = Some d) as Hl
      by (apply Htasks; split; [done|]; unfold key_of; by rewrite Hn, Hv).
    unfold Execute, Policy. simpl. by rewrite Hl.
  - intros item Hni. unfold Execute, Policy, Keys in *. simpl in *.
    destruct (reg_tasks r !! descriptorKey (e_TaskName item) (e_TaskVersion item)) as [d|] eqn:Hl.
    + apply Htasks in Hl as [Hd [Hn Hv]%descriptorKey_inj]. destruct Hni. apply Hin. exists d.
      split; [done|]. unfold task_key_of. by rewrite Hn, Hv.
    + split; [done|]. eexists. split; [intros w; reflexivity|done].
Qed.
End RegistryProps.

(** ** From the request to the handler *)

Section RoundTrip.
Context `{E : GoEnv} `{!GoEnvOk}.
Context {W I O : Type} `{!Codec I, !Codec O, !CodecOk I, !CodecOk O}.

Lemma Validate_None (d : Definition_ I O) :
  Validate d = None →
  Name d ≠ EmptyString ∧ (0 < Version d)%Z ∧ (0 < MaxAttempts d)%Z ∧ is_Some (s_retry (d_spec d)).
Proof.
  unfold Validate, Name, Version, MaxAttempts. intros Hv.
  case_bool_decide; [done|]. destruct (Z.leb_spec (s_version (d_spec d)) 0); [done|].
  destruct (Z.leb_spec (s_maxAttempts (d_spec d)) 0); [done|].
  destruct (s_retry (d_spec d)); [|done]. split_and!; eauto.
Qed.

Lemma registry_routes (modules : list (Module_ W)) r d item :
  NewRegistry modules = inr r → d ∈ (modules ≫= mod_bindings) →
  task_key_of d = mkTaskKey (e_TaskName item) (e_TaskVersion item) →
  task_key_of d ∈ Keys r ∧ Execute r item = t_execute d item.
Proof.
  intros Hr Hd [= Hn Hv].
  pose proof (register_modules_spec [] modules ∅ _ registered_nil) as Hspec. unfold NewRegistry in Hr.
  destruct (register_modules ∅ (mkRegistry ∅ []) modules) as [err|r0]; [done|]. simplify_eq/=.
  destruct Hspec as (_ & owners & _ & Hkeys & Htasks & _). simpl in *. split.
  - unfold Keys. simpl. rewrite elem_of_sort_Slice, Hkeys. by apply list_elem_of_fmap_2.
  - unfold Execute. simpl. rewrite <-Hn, <-Hv. fold (key_of d). by rewrite (proj2 (Htasks (key_of d) d)).
Qed.

(** C17: a task enqueued in the store reaches its handler: the stored execution is pending, can be
    claimed at once by a worker with the registry's keys, and executing it (on any attempt) runs the
    registered handler on exactly the value that was enqueued; the handler's value is stored so that it
    decodes to itself, its error is passed on, and its panic becomes a retryable error. *)
Theorem enqueue_reaches_handler (d : Definition_ I O) (h : Handler W I O) b
    (modules : list (Module_ W)) r input raw w :
  Handle d (Some h) = inr b → NewRegistry modules = inr r → b ∈ (modules ≫= mod_bindings) →
  Marshal input = inr raw → (MaxAttempts d ≤ MaxInt64)%Z →
  ∃ e w1, Enqueue d (Some CreateExecution) input [] w = (inr e, w1) ∧
    (∃ stored, m_executions (mem w1) !! e_ID e = Some stored ∧ e = cloneExecution stored ∧
       ∀ t, (env_now (tick w) ≤ t)%Z → claimable (Keys r) t stored = true) ∧
    ∀ item s result s',
      same_identity e item → e_Input item = e_Input e →
      h (mkMessage (uuid_String (e_ID e)) input (e_Attempt item) (MaxAttempts d)) s = (result, s') →
      match result with
      | Returned (inr v) => ∀ out, Marshal v = inr out →
          Execute r item s = (inr (Some out), s') ∧ Unmarshal (Some out) = inr v
      | Returned (inl err) => Execute r item s = (inl err, s')
      | Panicked _ _ => ∃ err, Execute r item s = (inl err, s') ∧ IsPermanent err = false
      end.
Proof.
  intros Hh Hr Hb Hraw Hmax. unfold Handle in Hh.
  destruct (Validate d) eqn:Hv; [done|]. pose proof (Validate_None _ Hv) as (Hname & Hver & Hatt & _).
  simplify_eq. set (b := mkDescriptor _ _ _ _ _ _) in *.
  unfold Enqueue, EncodeInput. rewrite Hv, Hraw. simpl. rewrite CreateExecution_run. simpl.
  rewrite (proj2 (is_empty_false _) Hname). unfold find_existing. simpl.
  eexists _, _. split; [reflexivity|]. split.
  - eexists. split; [apply lookup_insert_eq|]. split; [done|]. intros t Ht.
    destruct (registry_routes modules r b (new_execution (mkCreateExecution (Name d) (Version d)
      (Some raw) (MaxAttempts d) 0 EmptyString None EmptyString) 0%N 0) Hr Hb eq_refl) as [Hin _].
    unfold claimable. simpl. rewrite bool_decide_true by exact Hin. unfold After.
    rewrite (proj2 (Z.ltb_ge _ _) Ht). simpl.
    destruct (Z.leb_spec (MaxAttempts d) 0); [lia|].
    by rewrite (proj2 (Z.leb_gt _ _) Hatt).
  - intros item s result s' (Hid & Hn & Hver' & _ & _ & _ & _ & Hm) Hin Hrun. simpl in *.
    destruct (registry_routes modules r b item Hr Hb) as [_ Hex].
    { unfold task_key_of. simpl. by rewrite Hn, Hver'. }
    rewrite Hex. unfold b. simpl. unfold handle_execute. rewrite Hin. simpl.
    pose proof (Marshal_nonempty _ _ Hraw) as Hne.
    destruct raw as [|c raw]; [done|]. simpl. rewrite (Marshal_Unmarshal _ _ Hraw).
    rewrite Hid, Hm. destruct (Z.leb_spec (MaxAttempts d) 0); [lia|]. rewrite Hrun.
    destruct result as [[err|v]|p st]; [done| |by eexists].
    intros out Hout. rewrite Hout. split; [done|]. by apply Marshal_Unmarshal.
Qed.
End RoundTrip.

Lemma enqueue_reaches_handler_witness :
  ∃ e w1, Enqueue demo_task (Some CreateExecution) true [] initial_world = (inr e, w1).
Proof.
  destruct (Handle demo_task (Some demo_handler)) as [err|b] eqn:Hb; [done|].
  destruct (NewRegistry demo_module) as [err|r] eqn:Hr; [done|].
  destruct (enqueue_reaches_handler demo_task demo_handler b demo_module r true "true" initial_world)
    as (e & w1 & He & _).
  - exact Hb.
  - exact Hr.
  - injection Hb as <-. apply list_elem_of_here.
  - done.
  - done.
  - by exists e, w1.
Defined.
