(* ===== verification/Pipeline.v ===== *)
(** * Pipeline definitions (src/pipeline/definition.go)

    A pipeline is a list of nodes in declaration order; a node names the predecessors its input is
    built from.  [validate] accepts the definitions whose declaration order is topological. *)

From S2P Require Import Prelude GoLib Model Task TaskRegistry.

(** [buildInput] is given the input of the run and the stored outputs by node key; it runs the
    user's mapper, which may panic. *)
Record nodeDefinition := mkNode {
  n_key : string;
  n_taskName : string;
  n_taskVersion : Z;
  n_maxAttempts : Z;
  n_dependencies : list string;
  n_buildInput : RawMessage → gmap string RawMessage → outcome RawMessage;
  n_err : option error;
}.

#[global] Instance set_n_key : Settable n_key := λ v x,
  mkNode v (n_taskName x) (n_taskVersion x) (n_maxAttempts x) (n_dependencies x) (n_buildInput x)
    (n_err x).

Record PipelineDefinition (P : Type) := mkPipelineDefinition {
  pd_name : string;
  pd_version : Z;
  pd_nodes : list nodeDefinition;
}.
Arguments mkPipelineDefinition {P} _ _ _.
Arguments pd_name {P} _.
Arguments pd_version {P} _.
Arguments pd_nodes {P} _.

(** [Node]: a typed reference to the stored output of a node. *)
Record NodeRef (O : Type) := mkNodeRef {
  nr_key : string;
  nr_pipelineName : string;
  nr_pipelineVersion : Z;
}.
Arguments mkNodeRef {O} _ _ _.
Arguments nr_key {O} _.
Arguments nr_pipelineName {O} _.
Arguments nr_pipelineVersion {O} _.

(** A user function returns a value or panics; a nil function is [None]. *)
Definition Mapper (A B : Type) : Type := option (A → string + B).

Section Building.
Context {P : Type}.

Definition NewPipeline (name : string) (version : Z) : PipelineDefinition P :=
  mkPipelineDefinition (TrimSpace name) version [].

Definition reference {O} (pipeline : PipelineDefinition P) (key : string) : NodeRef O :=
  mkNodeRef key (pd_name pipeline) (pd_version pipeline).

Definition belongsTo {O} (pipeline : PipelineDefinition P) (node : NodeRef O) : bool :=
  bool_decide (nr_pipelineName node = pd_name pipeline)
  && (nr_pipelineVersion node =? pd_version pipeline)%Z.

Definition newNode {I O} (key : string) (definition : Definition_ I O) (dependencies : list string)
    (validationErr : option error)
    (buildInput : RawMessage → gmap string RawMessage → outcome RawMessage) : nodeDefinition :=
  mkNode key (Name definition) (Version definition) (MaxAttempts definition) dependencies buildInput
    validationErr.

Definition append_node (pipeline : PipelineDefinition P) (node : nodeDefinition)
    : PipelineDefinition P :=
  mkPipelineDefinition (pd_name pipeline) (pd_version pipeline) (pd_nodes pipeline ++ [node]).

(** A call of a nil function panics; the validation error keeps such a node from running. *)
Definition call_mapper {A B} (mapper : Mapper A B) (a : A) : string + B :=
  match mapper with
  | Some f => f a
  | None => inl "invalid memory address or nil pointer dereference"
  end.

(** [json.Marshal(mapper(value))] *)
Definition marshal_mapped {I} `{!Codec I} (mapped : string + I) : outcome RawMessage :=
  match mapped with
  | inl panic => Panicked panic EmptyString
  | inr value =>
      Returned match Marshal value with inl err => inl err | inr raw => inr (Some raw) end
  end.

(** A missing entry of the outputs is the nil message. *)
Definition output_of (outputs : gmap string RawMessage) (key : string) : RawMessage :=
  default None (outputs !! key).

Definition mapper_nil : error := errorString "pipeline node mapper is nil".
Definition foreign_dependency : error :=
  errorString "pipeline node dependency belongs to another pipeline".

Definition is_nil {A} (o : option A) : bool := match o with None => true | Some _ => false end.

Definition Start {I O} `{!Codec P, !Codec I} (pipeline : PipelineDefinition P) (key : string)
    (definition : Definition_ I O) (mapper : Mapper P I) : NodeRef O * PipelineDefinition P :=
  let validationErr := Validate definition in
  let validationErr := if is_nil mapper then Some mapper_nil else validationErr in
  (reference pipeline key,
   append_node pipeline (newNode key definition [] validationErr (λ initial _,
     match Unmarshal initial with
     | inl err => Returned (inl err)
     | inr input => marshal_mapped (call_mapper mapper input)
     end))).

Definition Then {A I O} `{!Codec A, !Codec I} (pipeline : PipelineDefinition P)
    (previous : NodeRef A) (key : string) (definition : Definition_ I O) (mapper : Mapper A I)
    : NodeRef O * PipelineDefinition P :=
  let validationErr := Validate definition in
  let validationErr := if is_nil mapper then Some mapper_nil else validationErr in
  let validationErr := if negb (belongsTo pipeline previous) then Some foreign_dependency
                       else validationErr in
  (reference pipeline key,
   append_node pipeline (newNode key definition [nr_key previous] validationErr (λ _ outputs,
     match Unmarshal (output_of outputs (nr_key previous)) with
     | inl err => Returned (inl err)
     | inr value => marshal_mapped (call_mapper mapper value)
     end))).

Definition Join2 {A B I O} `{!Codec A, !Codec B, !Codec I} (pipeline : PipelineDefinition P)
    (first : NodeRef A) (second : NodeRef B) (key : string) (definition : Definition_ I O)
    (mapper : Mapper (A * B) I) : NodeRef O * PipelineDefinition P :=
  let validationErr := Validate definition in
  let validationErr := if is_nil mapper then Some mapper_nil else validationErr in
  let validationErr := if negb (belongsTo pipeline first) || negb (belongsTo pipeline second)
                       then Some foreign_dependency else validationErr in
  (reference pipeline key,
   append_node pipeline (newNode key definition [nr_key first; nr_key second] validationErr
     (λ _ outputs,
       match Unmarshal (output_of outputs (nr_key first)) with
       | inl err => Returned (inl err)
       | inr a =>
           match Unmarshal (output_of outputs (nr_key second)) with
           | inl err => Returned (inl err)
           | inr b => marshal_mapped (call_mapper mapper (a, b))
           end
       end))).

(** The loop of [validate] over the nodes: it trims the node keys in place as it goes and stops at
    the first error.  The result pairs the error with the nodes as they are then. *)
Fixpoint validate_nodes (seen : gset string) (nodes : list nodeDefinition)
    : option error * list nodeDefinition :=
  match nodes with
  | [] => (None, [])
  | node :: nodes' =>
      match n_err node with
      | Some err => (Some (fmtError "pipeline node %q: %w" [n_key node] (Some err) []), nodes)
      | None =>
          let node := node <| n_key := TrimSpace (n_key node) |> in
          if bool_decide (n_key node = EmptyString)
          then (Some (errorString "pipeline node key is empty"), node :: nodes') else
          if bool_decide (n_key node ∈ seen)
          then (Some (fmt_Errorf "duplicate pipeline node %q" [n_key node]), node :: nodes') else
          match List.find (λ dependency, negb (bool_decide (dependency ∈ seen)))
                  (n_dependencies node) with
          | Some dependency =>
              (Some (fmt_Errorf "node %q depends on unknown or forward node %q"
                       [n_key node; dependency]), node :: nodes')
          | None =>
              let '(err, nodes') := validate_nodes ({[n_key node]} ∪ seen) nodes' in
              (err, node :: nodes')
          end
      end
  end.

(** The nil definition is [None]; the error comes with the definition as the call leaves it. *)
Definition validate (d : option (PipelineDefinition P))
    : option error * option (PipelineDefinition P) :=
  match d with
  | None => (Some (errorString "pipeline name is empty"), None)
  | Some p =>
      if bool_decide (pd_name p = EmptyString)
      then (Some (errorString "pipeline name is empty"), d) else
      if (pd_version p <=? 0)%Z
      then (Some (fmt_Errorf "pipeline %q version must be positive" [pd_name p]), d) else
      let '(err, nodes) := validate_nodes ∅ (pd_nodes p) in
      (err, Some (mkPipelineDefinition (pd_name p) (pd_version p) nodes))
  end.
End Building.

Record compiledDefinition := mkCompiled {
  cd_name : string;
  cd_version : Z;
  cd_nodes : list nodeDefinition;
}.

(** The compiled definition shares its nodes with the definition; their keys are trimmed by then. *)
Definition compile {P} (d : option (PipelineDefinition P)) : error + compiledDefinition :=
  match validate d with
  | (Some err, _) => inl err
  | (None, Some p) => inr (mkCompiled (pd_name p) (pd_version p) (pd_nodes p))
  | (None, None) => inl (errorString "pipeline name is empty")
  end.

Definition registryKey (name : string) (version : Z) : string := descriptorKey name version.

Record PipelineRegistry := mkPipelineRegistry { definitions : gmap string compiledDefinition }.

(** [RegisteredDefinition] is an interface with the one method [compile]; a definition of any type is
    passed as the result of that call, made when the loop reaches it. *)
Fixpoint register_definitions (r : PipelineRegistry) (l : list (error + compiledDefinition))
    : error + PipelineRegistry :=
  match l with
  | [] => inr r
  | inl err :: _ => inl err
  | inr compiled :: l' =>
      let key := registryKey (cd_name compiled) (cd_version compiled) in
      match definitions r !! key with
      | Some _ => inl (fmt_Errorf "duplicate pipeline %s" [key])
      | None => register_definitions (mkPipelineRegistry (<[key := compiled]> (definitions r))) l'
      end
  end.

Definition NewPipelineRegistry (l : list (error + compiledDefinition)) : error + PipelineRegistry :=
  register_definitions (mkPipelineRegistry ∅) l.

(** ** Valid definitions *)

(** Every node is valid, with a key of its own, and depends only on nodes declared before it. *)
Inductive topological : gset string → list nodeDefinition → Prop :=
  | topological_nil seen : topological seen []
  | topological_cons seen node nodes :
      n_err node = None → n_key node ≠ EmptyString → n_key node ∉ seen →
      (∀ d, d ∈ n_dependencies node → d ∈ seen) →
      topological ({[n_key node]} ∪ seen) nodes → topological seen (node :: nodes).

Definition trimmed (node : nodeDefinition) : nodeDefinition :=
  node <| n_key := TrimSpace (n_key node) |>.

Lemma find_none_forall {A} (P : A → bool) l :
  List.find P l = None ↔ ∀ x, x ∈ l → P x = false.
Proof.
  split.
  - intros Hf x Hx%list_elem_of_In. by eapply find_none.
  - induction l as [|a l IH]; intros Hf; simpl; [done|]. rewrite Hf by left. apply IH.
    intros x ?. apply Hf. by right.
Qed.

Lemma validate_nodes_spec seen nodes :
  match validate_nodes seen nodes with
  | (None, nodes') => nodes' = trimmed <$> nodes ∧ topological seen nodes'
  | (Some _, _) => ¬ topological seen (trimmed <$> nodes)
  end.
Proof.
  revert seen. induction nodes as [|node nodes IH]; intros seen; simpl; [by repeat constructor|].
  destruct (n_err node) as [err|] eqn:Herr; [by inversion 1; simplify_eq/=; congruence|].
  case_bool_decide as Hempty; [by inversion 1; simplify_eq/=|].
  case_bool_decide as Hseen; [by inversion 1; simplify_eq/=|].
  destruct (List.find _ _) as [d|] eqn:Hfind.
  - apply find_some in Hfind as [Hin%list_elem_of_In Hd]. reflect_bool.
    inversion 1; simplify_eq/=. naive_solver.
  - specialize (IH ({[TrimSpace (n_key node)]} ∪ seen)).
    destruct (validate_nodes _ nodes) as [[err|] nodes'].
    + inversion 1; simplify_eq/=.
    + destruct IH as [-> IH]. split; [done|]. constructor; try done.
      intros d Hd. rewrite find_none_forall in Hfind. specialize (Hfind d Hd).
      simpl in Hfind. by reflect_bool.
Qed.
