(* ===== verification/Engine.v ===== *)
(** * The pipeline engine (src/pipeline/engine.go)

    Starting and advancing durable runs, over any store with the operations of [Persistence]. *)

From S2P Require Import Prelude GoLib Model Task TaskRegistry Pipeline.

(** The durable capability that the coordination of pipelines requires. *)
Class Persistence (W : Type) := {
  CreatePipelineRun : CreatePipelineRunRequest → M W PipelineRun;
  GetPipelineRun : UUID → M W PipelineRun;
  ListPipelineRuns : RunFilter → M W (list PipelineRun);
  SetPipelineRunStatus : UUID → Z → RunStatus → string → M W unit;
  RestartPipelineSubgraph : RestartSubgraph → M W Execution;
  ReleaseExecution : UUID → RawMessage → Time → M W unit;
  CreateExecution : CreateExecutionRequest → M W Execution;
  GetExecution : UUID → M W Execution;
  ListRunExecutions : UUID → M W (list Execution);
  CancelExecution : UUID → string → M W unit;
  RestartExecution : UUID → Time → M W Execution;
}.

Record Snapshot := mkSnapshot { snap_Run : PipelineRun; snap_Executions : list Execution }.

Definition WithRunIdempotencyKey (key : string)
    : option (CreatePipelineRunRequest → CreatePipelineRunRequest) :=
  Some (λ request, request <| cr_IdempotencyKey := key |>).

Section Engine.
Context `{E : GoEnv} {W : Type} `{!Persistence W}.

(** An engine is its registry; its store is the one of the class. *)
Record Engine := mkEngine { registry : PipelineRegistry }.

Definition NewEngine (store : option (Persistence W)) (reg : option PipelineRegistry)
    : error + Engine :=
  match store, reg with
  | None, _ => inl (errorString "pipeline store is nil")
  | _, None => inl (errorString "pipeline registry is nil")
  | Some _, Some reg => inr (mkEngine reg)
  end.

(** [err] as an option, for the calls whose error is inspected. *)
Definition error_of {A} (r : error + A) : option error :=
  match r with inl err => Some err | inr _ => None end.

Definition not_registered (name : string) (version : Z) : error :=
  fmt_Errorf "pipeline definition %s is not registered" [registryKey name version].

Definition safeBuildInput (node : nodeDefinition) (initial : RawMessage)
    (outputs : gmap string RawMessage) : error + RawMessage :=
  match n_buildInput node initial outputs with
  | Returned r => r
  | Panicked recovered _ => inl (fmt_Errorf "pipeline mapper panic: %v" [recovered])
  end.

(** ** Advancing a run *)

Definition is_failed (item : Execution) : bool :=
  bool_decide (e_Status item = StatusFailed) || bool_decide (e_Status item = StatusCancelled).

Definition succeeded (item : Execution) : bool := bool_decide (e_Status item = StatusSucceeded).

(** The maps the first loop builds; a later item of a node replaces an earlier one. *)
Definition byNode_of (items : list Execution) : gmap string Execution :=
  foldl (λ m item, <[e_NodeKey item := item]> m) ∅ items.

Definition outputs_of (items : list Execution) : gmap string RawMessage :=
  foldl (λ m item, if succeeded item then <[e_NodeKey item := e_Output item]> m else m) ∅ items.

Definition ready (byNode : gmap string Execution) (node : nodeDefinition) : bool :=
  forallb (λ dependency,
    match byNode !! dependency with Some predecessor => succeeded predecessor | None => false end)
    (n_dependencies node).

Definition node_request (runID : UUID) (node : nodeDefinition) (input : RawMessage)
    : CreateExecutionRequest :=
  mkCreateExecution (n_taskName node) (n_taskVersion node) input (n_maxAttempts node) 0
    (uuid_String runID +:+ ":" +:+ n_key node) (Some runID) (n_key node).

(** The second loop, over the nodes in declaration order; the result is [created]. *)
Fixpoint schedule_nodes (runID : UUID) (run : PipelineRun) (byNode : gmap string Execution)
    (outputs : gmap string RawMessage) (created : bool) (nodes : list nodeDefinition) : M W bool :=
  match nodes with
  | [] => mret created
  | node :: nodes' =>
      let existing := byNode !! n_key node in
      let exists_done := match existing with
                         | Some item => negb (bool_decide (e_Status item = StatusBlocked))
                         | None => false
                         end in
      if exists_done || negb (ready byNode node)
      then schedule_nodes runID run byNode outputs created nodes'
      else
        match safeBuildInput node (r_Input run) outputs with
        | inl buildErr =>
            statusErr ← try (SetPipelineRunStatus runID (r_Revision run) RunFailed
              (fmt_Sprintf "build node %s input: %v" [n_key node; error_Error buildErr]));
            throw (joinError (buildErr :: match error_of statusErr with
                                          | Some err => [err]
                                          | None => []
                                          end))
        | inr input =>
            match existing with
            | Some item =>
                _ ← ReleaseExecution (e_ID item) input (e_AvailableAt item);
                schedule_nodes runID run byNode outputs true nodes'
            | None =>
                _ ← CreateExecution (node_request runID node input);
                schedule_nodes runID run byNode outputs true nodes'
            end
        end
  end.

Definition advanceOnce (e : Engine) (runID : UUID) : M W unit :=
  run ← GetPipelineRun runID;
  if is_run_terminal (r_Status run) then mret tt else
  match definitions (registry e) !! registryKey (r_PipelineName run) (r_PipelineVersion run) with
  | None => throw (not_registered (r_PipelineName run) (r_PipelineVersion run))
  | Some definition =>
      executions ← ListRunExecutions runID;
      match List.find is_failed executions with
      | Some item =>
          SetPipelineRunStatus runID (r_Revision run) RunFailed
            (fmt_Sprintf "node %s: %s" [e_NodeKey item; e_LastError item])
      | None =>
          let byNode := byNode_of executions in
          let outputs := outputs_of executions in
          created ← schedule_nodes runID run byNode outputs false (cd_nodes definition);
          if bool_decide (cd_nodes definition = []) then
            SetPipelineRunStatus runID (r_Revision run) RunSucceeded EmptyString
          else if bool_decide (size byNode = length (cd_nodes definition))
                  && forallb (λ '(_, item), succeeded item) (map_to_list byNode) then
            SetPipelineRunStatus runID (r_Revision run) RunSucceeded EmptyString
          else if created || bool_decide (r_Status run = RunPending) then
            SetPipelineRunStatus runID (r_Revision run) RunRunning EmptyString
          else mret tt
      end
  end.

(** At most [n] tries, as long as an update conflicts. *)
Fixpoint advance_tries (n : nat) (e : Engine) (runID : UUID) : M W unit :=
  match n with
  | O => throw (fmtError "advance pipeline %s: %w" [uuid_String runID]
                  (Some (ErrConflict : error)) [])
  | S n' =>
      r ← try (advanceOnce e runID);
      match r with
      | inl err => if errors_Is err ErrConflict then advance_tries n' e runID else throw err
      | inr _ => mret tt
      end
  end.

Definition Advance (e : Engine) (runID : UUID) : M W unit := advance_tries 4 e runID.

(** ** Runs *)

Definition Run {P} `{!Codec P} (engine : option Engine) (definition : option (PipelineDefinition P))
    (input : P) (options : list (option (CreatePipelineRunRequest → CreatePipelineRunRequest)))
    : M W PipelineRun :=
  match engine with
  | None => throw (errorString "pipeline engine is nil")
  | Some engine =>
      match validate definition with
      | (Some err, _) => throw err
      | (None, None) => throw (errorString "pipeline name is empty")
      | (None, Some d) =>
          match definitions (registry engine) !! registryKey (pd_name d) (pd_version d) with
          | None => throw (not_registered (pd_name d) (pd_version d))
          | Some _ =>
              match Marshal input with
              | inl err => throw (fmtError "encode pipeline input: %w" [] (Some err) [])
              | inr raw =>
                  let request := mkCreatePipelineRun (pd_name d) (pd_version d) (Some raw)
                                   EmptyString in
                  run ← CreatePipelineRun (apply_options options request);
                  _ ← Advance engine (r_ID run);
                  GetPipelineRun (r_ID run)
              end
          end
      end
  end.

(** The loop of [descendantKeys]. *)
Fixpoint descendants (root : string) (affected : gset string) (found : bool) (result : list string)
    (nodes : list nodeDefinition) : list string * bool :=
  match nodes with
  | [] => (result, found)
  | node :: nodes' =>
      if bool_decide (n_key node = root) then descendants root affected true result nodes'
      else if existsb (λ dependency, bool_decide (dependency ∈ affected)) (n_dependencies node)
      then descendants root ({[n_key node]} ∪ affected) found (result ++ [n_key node]) nodes'
      else descendants root affected found result nodes'
  end.

Definition descendantKeys (definition : compiledDefinition) (root : string) : list string * bool :=
  descendants root {[root]} false [] (cd_nodes definition).

Definition Engine_RestartExecution (e : Engine) (executionID : UUID) : M W Execution :=
  item ← GetExecution executionID;
  match e_PipelineRunID item with
  | None => RestartExecution executionID 0
  | Some runID =>
      run ← GetPipelineRun runID;
      match definitions (registry e) !! registryKey (r_PipelineName run) (r_PipelineVersion run) with
      | None => throw (not_registered (r_PipelineName run) (r_PipelineVersion run))
      | Some definition =>
          match descendantKeys definition (e_NodeKey item) with
          | (_, false) => throw (fmt_Errorf "pipeline node %q is not registered" [e_NodeKey item])
          | (descendants, true) =>
              restarted ← RestartPipelineSubgraph
                            (mkRestartSubgraph runID (e_NodeKey item) descendants 0);
              _ ← Advance e runID;
              mret restarted
          end
      end
  end.

(** The failures of the runs, in the order of the listing; one failure does not stop the others. *)
Fixpoint reconcile_runs (e : Engine) (runs : list PipelineRun) : M W (list error) :=
  match runs with
  | [] => mret []
  | run :: runs' =>
      r ← try (Advance e (r_ID run));
      failures ← reconcile_runs e runs';
      mret (match r with
            | inl err => fmtError "advance pipeline run %s: %w" [uuid_String (r_ID run)] (Some err) []
                         :: failures
            | inr _ => failures
            end)
  end.

Definition Reconcile (e : Engine) : M W unit :=
  runs ← ListPipelineRuns
           (mkRunFilter [RunStatus_string RunPending; RunStatus_string RunRunning] 0 None);
  failures ← reconcile_runs e runs;
  match failures with [] => mret tt | _ => throw (joinError failures) end.

Definition Inspect (e : Engine) (runID : UUID) : M W Snapshot :=
  run ← GetPipelineRun runID;
  items ← ListRunExecutions runID;
  mret (mkSnapshot run items).

Definition Cancel (e : Engine) (runID : UUID) (reason : string) : M W unit :=
  run ← GetPipelineRun runID;
  items ← ListRunExecutions runID;
  _ ← forM_ items (λ item, when (is_active (e_Status item)) (CancelExecution (e_ID item) reason));
  SetPipelineRunStatus runID (r_Revision run) RunCancelled reason.

Definition Output {O} `{!Codec O} (runID : UUID) (node : NodeRef O) : M W O :=
  executions ← ListRunExecutions runID;
  match List.find (λ item, bool_decide (e_NodeKey item = nr_key node)) executions with
  | None => throw ErrNotFound
  | Some item =>
      if negb (succeeded item)
      then throw (fmt_Errorf "node %q is %s" [nr_key node; Status_string (e_Status item)])
      else match Unmarshal (e_Output item) with inl err => throw err | inr value => mret value end
  end.
End Engine.
