(* ===== verification/StoreLaws.v ===== *)
(** * What the engine relies on

    The contract of a store as the coordination of pipelines uses it, on an abstract view of the
    store (its runs and executions), and the proof that the in-memory store honours it. *)

From S2P Require Import Prelude GoLib Model Memory MemoryInv MemoryOps MemoryLists MemoryProps.
From S2P Require Import StoreSpec MemoryProps2 MemoryProps3 Task TaskRegistry Pipeline Engine.

(** The abstract state of a store; [v_ok] is the store's own invariant. *)
Class StoreView (W : Type) := {
  v_ok : W → Prop;
  v_runs : W → gmap UUID PipelineRun;
  v_execs : W → gmap UUID Execution;
}.

Definition released (input : RawMessage) (t : Time) (e : Execution) : Execution :=
  e <| e_Status := StatusPending |> <| e_Input := cloneJSON input |> <| e_AvailableAt := t |>.

Section View.
Context {W : Type} `{!StoreView W}.

(** The view does not change. *)
Definition keeps (w w' : W) : Prop := v_ok w' ∧ v_runs w' = v_runs w ∧ v_execs w' = v_execs w.

(** Every execution but [id] stays as it is, every run stays. *)
Definition replaces (id : UUID) (e' : Execution) (w w' : W) : Prop :=
  v_ok w' ∧ v_runs w' = v_runs w ∧ v_execs w' = <[id := e']> (v_execs w).
End View.

Class StoreLaws (W : Type) `{E : GoEnv, !Persistence W, !StoreView W} : Prop := {
  law_exec_id : ∀ (w : W) id e, v_ok w → v_execs w !! id = Some e → e_ID e = id;
  law_status : ∀ (w : W) id e, v_ok w → v_execs w !! id = Some e → e_Status e ≠ StatusZero;
  law_run_id : ∀ (w : W) id r, v_ok w → v_runs w !! id = Some r → r_ID r = id;
  law_node_unique : ∀ (w : W) id1 e1 id2 e2 run, v_ok w →
    v_execs w !! id1 = Some e1 → v_execs w !! id2 = Some e2 →
    e_PipelineRunID e1 = Some run → e_PipelineRunID e2 = Some run →
    e_NodeKey e1 = e_NodeKey e2 → e_NodeKey e1 ≠ EmptyString → id1 = id2;
  law_get_run : ∀ (w : W) id, v_ok w → wp (GetPipelineRun id) (λ r w', keeps w w' ∧
    r = match v_runs w !! id with
        | Some run => inr (cloneRun run)
        | None => inl (ErrNotFound : error)
        end) w;
  law_list_executions : ∀ (w : W) id, v_ok w → wp (ListRunExecutions id) (λ r w', keeps w w' ∧
    ∃ items, r = inr items ∧
      items ≡ₚ cloneExecution <$> List.filter (of_run id) (map_to_list (v_execs w)).*2) w;
  law_set_status : ∀ (w : W) id revision status text, v_ok w →
    wp (SetPipelineRunStatus id revision status text) (λ r w',
      match v_runs w !! id with
      | None => r = inl (ErrNotFound : error) ∧ keeps w w'
      | Some run =>
          if (r_Revision run =? revision)%Z
          then r = inr tt ∧ v_ok w' ∧ v_execs w' = v_execs w ∧
               ∃ t, v_runs w' = <[id := updated_run t status text run]> (v_runs w)
          else r = inl (ErrConflict : error) ∧ keeps w w'
      end) w;
  law_release : ∀ (w : W) id input availableAt, v_ok w →
    wp (ReleaseExecution id input availableAt) (λ r w',
      match v_execs w !! id with
      | None => r = inl (ErrNotFound : error) ∧ keeps w w'
      | Some e =>
          if bool_decide (e_Status e = StatusBlocked)
          then r = inr tt ∧ ∃ t, (availableAt ≠ 0%Z → t = availableAt) ∧
                 replaces id (released input t e) w w'
          else r = inl (ErrActive : error) ∧ keeps w w'
      end) w;
  law_create : ∀ (w : W) request, v_ok w → request_ok request →
    wp (CreateExecution request) (λ r w',
      if is_empty (c_TaskName request)
      then keeps w w' ∧ r = inl (fmt_Errorf "task name is empty" [])
      else
        (∃ id e, v_execs w !! id = Some e ∧ duplicate request e ∧
           r = inr (cloneExecution e) ∧ keeps w w') ∨
        (∃ id t, v_execs w !! id = None ∧
           (∀ id' e, v_execs w !! id' = Some e → ¬ duplicate request e) ∧
           r = inr (cloneExecution (new_execution request id t)) ∧
           replaces id (new_execution request id t) w w')) w;
  law_cancel : ∀ (w : W) id reason, v_ok w →
    wp (CancelExecution id reason) (λ r w',
      match v_execs w !! id with
      | None => r = inl (ErrNotFound : error) ∧ keeps w w'
      | Some e =>
          if is_terminal (e_Status e) then r = inl (ErrNotFound : error) ∧ keeps w w'
          else r = inr tt ∧ ∃ e', settled e e' ∧ e_Status e' = StatusCancelled ∧
                 e_LastError e' = reason ∧ is_Some (e_FinishedAt e') ∧ replaces id e' w w'
      end) w;
}.

(** ** The in-memory store *)

#[export] Instance memory_persistence `{E : GoEnv} : Persistence World := {|
  CreatePipelineRun := Memory.CreatePipelineRun;
  GetPipelineRun := Memory.GetPipelineRun;
  ListPipelineRuns := Memory.ListPipelineRuns;
  SetPipelineRunStatus := Memory.SetPipelineRunStatus;
  RestartPipelineSubgraph := Memory.RestartPipelineSubgraph;
  ReleaseExecution := Memory.ReleaseExecution;
  CreateExecution := Memory.CreateExecution;
  GetExecution := Memory.GetExecution;
  ListRunExecutions := Memory.ListRunExecutions;
  CancelExecution := Memory.CancelExecution;
  RestartExecution := Memory.RestartExecution;
|}.

#[export] Instance memory_view `{E : GoEnv} : StoreView World := {|
  v_ok := Inv;
  v_runs w := m_runs (mem w);
  v_execs w := m_executions (mem w);
|}.

Section MemoryLaws.
Context `{E : GoEnv} `{!GoEnvOk}.

Lemma keeps_read {A} (m : M World A) (w : World) :
  read_only m → Inv w → keeps (W := World) w (m w).2.
Proof.
  intros Hr Hinv. destruct (Hr w) as [Hmem Htick]. unfold keeps. simpl. rewrite Hmem.
  split; [|done]. by apply (read_only_inv m Hr w).
Qed.

Lemma Inv_keeps (w : World) : Inv w → keeps (W := World) w w.
Proof. done. Qed.

Lemma memory_get_run (w : World) id :
  Inv w → wp (Memory.GetPipelineRun id) (λ r w', keeps (W := World) w w' ∧
    r = match m_runs (mem w) !! id with
        | Some run => inr (cloneRun run)
        | None => inl (ErrNotFound : error)
        end) w.
Proof.
  intros Hinv. split; [apply keeps_read; [apply GetPipelineRun_read|done]|].
  unfold Memory.GetPipelineRun. rewrite bind_gets. by destruct (m_runs (mem w) !! id).
Qed.

Lemma memory_list_executions (w : World) id :
  Inv w → wp (Memory.ListRunExecutions id) (λ r w', keeps (W := World) w w' ∧ ∃ items,
    r = inr items ∧
    items ≡ₚ cloneExecution <$> List.filter (of_run id) (map_to_list (m_executions (mem w))).*2) w.
Proof.
  intros Hinv. split; [apply keeps_read; [apply ListRunExecutions_read|done]|].
  eexists. split; [reflexivity|]. rewrite sort_Slice_perm.
  apply fmap_Permutation, filter_Permutation_bool, fmap_Permutation, env_shuffle_perm.
Qed.

Lemma memory_create (w : World) request :
  Inv w → request_ok request →
  wp (Memory.CreateExecution request) (λ r w',
    if is_empty (c_TaskName request)
    then keeps (W := World) w w' ∧ r = inl (fmt_Errorf "task name is empty" [])
    else
      (∃ id e, m_executions (mem w) !! id = Some e ∧ duplicate request e ∧
         r = inr (cloneExecution e) ∧ keeps (W := World) w w') ∨
      (∃ id t, m_executions (mem w) !! id = None ∧
         (∀ id' e, m_executions (mem w) !! id' = Some e → ¬ duplicate request e) ∧
         r = inr (cloneExecution (new_execution request id t)) ∧
         replaces (W := World) id (new_execution request id t) w w')) w.
Proof.
  intros Hinv Hok. pose proof (CreateExecution_inv request Hok w Hinv) as Hinv'.
  destruct (Memory.CreateExecution request w) as [r w'] eqn:Hc.
  apply (wp_run _ _ _ _ _ Hc). pose proof (wp_elim _ _ _ _ _ Hinv' Hc) as Hi. clear Hinv'.
  rewrite CreateExecution_run in Hc. destruct (is_empty (c_TaskName request)); [by simplify_eq|].
  destruct (find_existing (mem w) request) as [id|] eqn:Hf; simplify_eq.
  - left. unfold find_existing in Hf.
    destruct (if is_empty (c_IdempotencyKey request) then None else _) as [i|] eqn:Hi1.
    + injection Hf as ->. destruct (is_empty (c_IdempotencyKey request)) eqn:Hk; [done|].
      apply (inv_idem _ Hinv) in Hi1 as (e & He & Hne & Heq). exists id, e. rewrite He.
      split_and!; [done|left|done|done]. by apply is_empty_false in Hk.
    + destruct (c_PipelineRunID request) as [run|] eqn:Hrun; [|done].
      destruct (is_empty (c_NodeKey request)) eqn:Hn; [done|]. apply is_empty_false in Hn.
      apply (inv_node _ Hinv) in Hf as (e & run' & He & Hr & Hne & Heq).
      apply node_key_inj in Heq as [-> Heq]. exists id, e. rewrite He.
      split_and!; [done|right|done|done]. exists run'. by rewrite Heq.
  - cbv zeta in Hc. simplify_eq. right. exists (env_uuid (S (tick w))), (env_now (tick w)).
    split; [apply (Inv_fresh_id w); [done|lia]|].
    split; [|split; [reflexivity|done]].
    pose proof (find_existing_None _ _ Hf) as [Hidem Hnode].
    intros id' e He [(H1 & H2 & H3)|(run & H1 & H2 & H3 & H4)].
    + assert (m_idempotent (mem w) !! idempotent_key (e_TaskName e) (e_IdempotencyKey e) = Some id')
        as Hi' by (apply (inv_idem _ Hinv); by exists e).
      rewrite H3, Hidem in Hi'; done.
    + assert (m_nodes (mem w) !! node_key run (e_NodeKey e) = Some id') as Hn'
        by (apply (inv_node _ Hinv); exists e, run; by rewrite H4).
      rewrite H4, Hnode in Hn'; done.
Qed.

#[export] Instance memory_laws : StoreLaws World.
Proof.
  split.
  - intros w id e. apply Inv_id.
  - intros w id e Hinv He. destruct (inv_log _ Hinv _ _ He) as (? & _ & Hh & _).
    by eapply History_status.
  - intros w id r Hinv Hr. by apply (Inv_run_id w).
  - intros w id1 e1 id2 e2 run Hinv He1 He2 H1 H2 Hk Hne.
    assert (m_nodes (mem w) !! node_key run (e_NodeKey e1) = Some id1)
      by (apply (inv_node _ Hinv); by exists e1, run).
    assert (m_nodes (mem w) !! node_key run (e_NodeKey e1) = Some id2)
      by (apply (inv_node _ Hinv); exists e2, run; rewrite Hk in *; done).
    congruence.
  - intros w id. apply memory_get_run.
  - intros w id. apply memory_list_executions.
  - intros w id revision status text Hinv.
    pose proof (SetPipelineRunStatus_inv id revision status text w Hinv) as Hinv'.
    unfold wp in *. simpl in *. rewrite SetPipelineRunStatus_run in *.
    destruct (m_runs (mem w) !! id) as [run|]; [|done].
    destruct (r_Revision run =? revision)%Z; [|done]. split_and!; [done..|]. by eexists.
  - intros w id input t Hinv. pose proof (ReleaseExecution_inv id input t w Hinv) as Hinv'.
    unfold wp in *. simpl in *. unfold Memory.ReleaseExecution in *. rewrite bind_gets in *.
    destruct (m_executions (mem w) !! id) as [e|]; [|done].
    destruct (bool_decide (e_Status e = StatusBlocked)); [|done]. simpl in *. unfold IsZero in *.
    destruct (Z.eqb_spec t 0) as [->|Hne]; (split; [done|]).
    + exists (env_now (tick w)). split; [by intros []|]. split; [exact Hinv'|done].
    + exists t. split; [done|]. split; [exact Hinv'|done].
  - intros w request. apply memory_create.
  - intros w id reason Hinv. pose proof (CancelExecution_inv id reason w Hinv) as Hinv'.
    unfold wp in *. simpl in *. unfold Memory.CancelExecution in *. rewrite bind_gets in *.
    destruct (m_executions (mem w) !! id) as [e|] eqn:He; [|done].
    destruct (is_terminal (e_Status e)); [done|]. pose proof (Inv_id _ _ _ Hinv He) as Hid.
    rewrite (now_put_append (λ t, _)) in * by (intros t; exact Hid).
    split; [done|]. eexists. split; [|split; [|split; [|split; [|split; [exact Hinv'|done]]]]];
      done.
Qed.
End MemoryLaws.
