(* ===== verification/EngineLemmas.v ===== *)
(** * How the engine reads a run and schedules its nodes

    The maps the engine rebuilds from the stored executions, and what one pass over the nodes does to
    the store, for any store that honours the contract. *)

From S2P Require Import Prelude GoLib Model Memory MemoryInv MemoryOps MemoryLists Task.
From S2P Require Import TaskRegistry Pipeline Engine StoreSpec StoreLaws.

(** ** The maps of the first loop *)

Lemma byNode_of_app items k :
  (∀ item, byNode_of items !! k = Some item → item ∈ items ∧ e_NodeKey item = k) ∧
  (∀ item, item ∈ items → e_NodeKey item = k → is_Some (byNode_of items !! k)).
Proof.
  unfold byNode_of. induction items as [|x items [IH1 IH2]] using rev_ind; simpl.
  - rewrite lookup_empty. split; [done|]. by intros item ?%elem_of_nil.
  - rewrite foldl_app. simpl. destruct (decide (e_NodeKey x = k)) as [Hx|Hx].
    + rewrite Hx, lookup_insert_eq. split; [|eauto]. intros item [= <-]. set_solver.
    + rewrite lookup_insert_ne by done. split.
      * intros item Hi. destruct (IH1 item Hi). set_solver.
      * intros item [Hin| ->%list_elem_of_singleton]%elem_of_app; [eauto|done].
Qed.

(** The items have distinct node keys, as far as [k] is concerned. *)
Definition unique_key (k : string) (items : list Execution) : Prop :=
  ∀ a b, a ∈ items → b ∈ items → e_NodeKey a = k → e_NodeKey b = k → a = b.

Lemma byNode_of_spec items k item :
  unique_key k items → byNode_of items !! k = Some item ↔ item ∈ items ∧ e_NodeKey item = k.
Proof.
  intros Hu. destruct (byNode_of_app items k) as [H1 H2]. split; [apply H1|].
  intros [Hin Hk]. destruct (H2 _ Hin Hk) as [item' Hi']. rewrite Hi'. f_equal.
  destruct (H1 _ Hi') as [Hin' Hk']. by apply Hu.
Qed.

Lemma outputs_of_spec items k out :
  unique_key k items →
  outputs_of items !! k = Some out ↔
  ∃ item, item ∈ items ∧ e_NodeKey item = k ∧ e_Status item = StatusSucceeded ∧
    out = e_Output item.
Proof.
  unfold outputs_of, succeeded. induction items as [|x items IH] using rev_ind; simpl; intros Hu.
  - rewrite lookup_empty. split; [done|]. by intros (item & ?%elem_of_nil & _).
  - assert (unique_key k items) as Hu' by (intros a b Ha Hb; apply Hu; set_solver).
    rewrite foldl_app. simpl. specialize (IH Hu').
    case_bool_decide as Hs; [destruct (decide (e_NodeKey x = k)) as [Hx|Hx]|].
    + rewrite Hx, lookup_insert_eq. split; [intros [= <-]; exists x; set_solver|].
      intros (item & Hin & Hk & _ & ->). f_equal. f_equal. symmetry. apply Hu; set_solver.
    + rewrite lookup_insert_ne by done. rewrite IH. split; intros (item & Hin & Hk & Hst & Ho);
        exists item; set_solver.
    + rewrite IH. split; intros (item & Hin & Hk & Hst & Ho); exists item; set_solver.
Qed.

Lemma size_byNode_of items : NoDup (e_NodeKey <$> items) → size (byNode_of items) = length items.
Proof.
  unfold byNode_of. induction items as [|x items IH] using rev_ind; intros Hnd.
  - apply map_size_empty.
  - rewrite fmap_app in Hnd. apply NoDup_app in Hnd as (Hnd & Hni & _).
    rewrite foldl_app, length_app. simpl. rewrite map_size_insert_None, IH; [lia|done|].
    apply eq_None_not_Some. intros [item Hi]. apply byNode_of_app in Hi as [Hin Hk].
    apply (Hni (e_NodeKey x)); [|left]. rewrite <-Hk. by apply list_elem_of_fmap_2.
Qed.

(** ** Topological definitions *)

Lemma topological_keys seen nodes :
  topological seen nodes → NoDup (n_key <$> nodes) ∧ ∀ k, k ∈ n_key <$> nodes → k ∉ seen.
Proof.
  induction 1 as [seen|seen node nodes Herr Hne Hns Hdep Htop [IH1 IH2]]; simpl.
  - split; [constructor|by intros k ?%elem_of_nil].
  - split.
    + constructor; [|done]. intros Hin. apply (IH2 _ Hin). set_solver.
    + intros k [->|Hk]%elem_of_cons; [done|]. specialize (IH2 k Hk). set_solver.
Qed.

Lemma topological_split seen l1 node l2 :
  topological seen (l1 ++ node :: l2) →
  n_key node ≠ EmptyString ∧ n_err node = None ∧
  ∀ d, d ∈ n_dependencies node → d ∈ seen ∨ d ∈ n_key <$> l1.
Proof.
  revert seen. induction l1 as [|x l1 IH]; intros seen Htop; simpl in Htop; inversion_clear Htop.
  - split_and!; [done..|]. intros d Hd. left. auto.
  - destruct (IH _ ltac:(eassumption)) as (Hk & He & Hds). split_and!; [done..|].
    intros d Hd. destruct (Hds d Hd) as [Hs|Hs]; set_solver.
Qed.

(** ** The stored nodes of a run *)

Section Snapshot.
Context `{E : GoEnv} {W : Type} `{!Persistence W, !StoreView W, !StoreLaws W}.

(** [e], stored as [id], is the node [k] of the run. *)
Definition node_exec (w : W) (runID : UUID) (k : string) (id : UUID) (e : Execution) : Prop :=
  v_execs w !! id = Some e ∧ e_PipelineRunID e = Some runID ∧ e_NodeKey e = k.

Definition node_succeeded (w : W) (runID : UUID) (k : string) : Prop :=
  ∃ id e, node_exec w runID k id e ∧ e_Status e = StatusSucceeded.

Definition node_failed (w : W) (runID : UUID) : Prop :=
  ∃ k id e, node_exec w runID k id e ∧
    (e_Status e = StatusFailed ∨ e_Status e = StatusCancelled).

(** The list is a listing of the run's executions. *)
Definition lists (w : W) (runID : UUID) (items : list Execution) : Prop :=
  items ≡ₚ cloneExecution <$> List.filter (of_run runID) (map_to_list (v_execs w)).*2.

Lemma elem_of_lists w runID items item :
  lists w runID items →
  item ∈ items ↔ ∃ id e, node_exec w runID (e_NodeKey item) id e ∧ item = cloneExecution e.
Proof.
  intros Hl. rewrite Hl, list_elem_of_fmap. split.
  - intros (e & -> & [(id & He)%elem_of_values Hr%of_run_true]%elem_of_filter_In). by exists id, e.
  - intros (id & e & (He & Hr & _) & ->). exists e. split; [done|]. apply elem_of_filter_In.
    split; [apply elem_of_values; eauto|by apply of_run_true].
Qed.

Lemma lists_unique w runID items k :
  v_ok w → lists w runID items → k ≠ EmptyString → unique_key k items.
Proof.
  intros Hok Hl Hne a b Ha Hb Hka Hkb.
  apply (elem_of_lists _ _ _ _ Hl) in Ha as (id & e & (He & Hr & Hk) & ->).
  apply (elem_of_lists _ _ _ _ Hl) in Hb as (id' & e' & (He' & Hr' & Hk') & ->). simpl in *.
  assert (id = id') as <- by (eapply law_node_unique; eauto; congruence). congruence.
Qed.

Lemma lists_byNode w runID items k item :
  v_ok w → lists w runID items → k ≠ EmptyString →
  byNode_of items !! k = Some item ↔ ∃ id e, node_exec w runID k id e ∧ item = cloneExecution e.
Proof.
  intros Hok Hl Hne. rewrite byNode_of_spec by (by eapply lists_unique).
  rewrite (elem_of_lists _ _ _ _ Hl). split.
  - intros [(id & e & Hn & ->) <-]. by exists id, e.
  - intros (id & e & Hn & ->). split; [|by destruct Hn as (_ & _ & <-)].
    exists id, e. destruct Hn as (? & ? & <-). done.
Qed.

Lemma lists_byNode_None w runID items k :
  v_ok w → lists w runID items → k ≠ EmptyString →
  byNode_of items !! k = None ↔ ∀ id e, ¬ node_exec w runID k id e.
Proof.
  intros Hok Hl Hne. split.
  - intros Hn id e He. assert (byNode_of items !! k = Some (cloneExecution e)) by
      (eapply lists_byNode; eauto). congruence.
  - intros Hn. apply eq_None_not_Some. intros [item (id & e & He & _)%(lists_byNode w runID)];
      [by eapply Hn|done..].
Qed.

Lemma ready_spec w runID items node :
  v_ok w → lists w runID items → (∀ d, d ∈ n_dependencies node → d ≠ EmptyString) →
  ready (byNode_of items) node = true ↔ ∀ d, d ∈ n_dependencies node → node_succeeded w runID d.
Proof.
  intros Hok Hl Hne. unfold ready. rewrite forallb_forall. split.
  - intros Hr d Hd. specialize (Hr d (proj1 (list_elem_of_In _ _) Hd)).
    destruct (byNode_of items !! d) as [p|] eqn:Hp; [|done].
    apply (lists_byNode w runID) in Hp as (id & e & He & ->); [|by auto..].
    exists id, e. split; [done|]. unfold succeeded in Hr. by reflect_bool.
  - intros Hr d Hd%list_elem_of_In. destruct (Hr d Hd) as (id & e & He & Hs).
    assert (byNode_of items !! d = Some (cloneExecution e)) as -> by
      (eapply lists_byNode; eauto). unfold succeeded. by apply bool_decide_eq_true_2.
Qed.

Lemma find_failed_spec w runID items :
  lists w runID items → List.find is_failed items = None ↔ ¬ node_failed w runID.
Proof.
  intros Hl. unfold is_failed. rewrite find_none_forall. split.
  - intros Hf (k & id & e & (He & Hr & Hk) & Hs).
    assert (cloneExecution e ∈ items) as Hin by (apply (elem_of_lists _ _ _ _ Hl); by exists id, e).
    specialize (Hf _ Hin). simpl in Hf. reflect_bool. naive_solver.
  - intros Hn item (id & e & He & ->)%(elem_of_lists _ _ _ _ Hl).
    apply orb_false_intro; apply bool_decide_eq_false_2; intros Hs; apply Hn;
      eexists _, id, e; (split; [exact He|]); auto.
Qed.

Lemma find_failed_Some w runID items item :
  lists w runID items → List.find is_failed items = Some item → node_failed w runID.
Proof.
  intros Hl [Hin%list_elem_of_In Hf]%find_some.
  apply (elem_of_lists _ _ _ _ Hl) in Hin as (id & e & He & ->). eexists _, id, e.
  split; [exact He|]. unfold is_failed in Hf. apply orb_true_iff in Hf as [?|?]; reflect_bool; auto.
Qed.
End Snapshot.

(** ** One pass over the nodes *)

Record node_ok (node : nodeDefinition) : Prop := {
  nok_key : n_key node ≠ EmptyString;
  nok_task : n_taskName node ≠ EmptyString;
  nok_task_NUL : no_byte Ascii.zero (n_taskName node);
  nok_max : (n_maxAttempts node ≤ MaxInt64)%Z;
}.

Section Schedule.
Context `{E : GoEnv} {W : Type} `{!Persistence W, !StoreView W, !StoreLaws W}.
Context (w0 : W) (runID : UUID) (run : PipelineRun) (items : list Execution).
Context (Hok0 : v_ok w0) (Hl : lists w0 runID items)
  (Hrun : v_runs w0 !! runID = Some run).

Abbreviation byNode := (byNode_of items).
Abbreviation outputs := (outputs_of items).
Abbreviation node_idem node := (uuid_String runID +:+ ":" +:+ n_key node).

(** The node is to be created or released. *)
Definition needs_scheduling (node : nodeDefinition) : bool :=
  ready byNode node &&
  match byNode !! n_key node with
  | Some item => bool_decide (e_Status item = StatusBlocked)
  | None => true
  end.

(** No other execution uses the idempotency key of the node. *)
Definition key_reserved (node : nodeDefinition) : Prop :=
  ∀ id e, v_execs w0 !! id = Some e → e_IdempotencyKey e ≠ EmptyString →
    idempotent_key (e_TaskName e) (e_IdempotencyKey e) =
      idempotent_key (n_taskName node) (node_idem node) →
    e_PipelineRunID e = Some runID ∧ e_NodeKey e = n_key node.

(** [e'], stored as [id], was created or released for the node. *)
Definition scheduled_for (node : nodeDefinition) (id : UUID) (e' : Execution) : Prop :=
  e_PipelineRunID e' = Some runID ∧ e_NodeKey e' = n_key node ∧ e_Status e' = StatusPending ∧
  needs_scheduling node = true ∧
  (∃ input, safeBuildInput node (cloneJSON (r_Input run)) outputs = inr input ∧
     e_Input e' = cloneJSON input) ∧
  ((v_execs w0 !! id = None ∧ e_TaskName e' = n_taskName node ∧
    e_TaskVersion e' = n_taskVersion node ∧ e_IdempotencyKey e' = node_idem node) ∨
   ∃ e, v_execs w0 !! id = Some e ∧ e_Status e = StatusBlocked ∧ same_identity e e').

(** What the pass may have done to the executions when the nodes [visited] have been visited. *)
Definition pass_frame (visited : list nodeDefinition) (w : W) : Prop :=
  (∀ id, is_Some (v_execs w0 !! id) → is_Some (v_execs w !! id)) ∧
  (∀ id e', v_execs w !! id = Some e' →
     v_execs w0 !! id = Some e' ∨ ∃ node, node ∈ visited ∧ scheduled_for node id e').

(** Every visited node that was to be scheduled is. *)
Definition pass_done (visited : list nodeDefinition) (w : W) : Prop :=
  ∀ node, node ∈ visited → needs_scheduling node = true →
    ∃ id e', v_execs w !! id = Some e' ∧ scheduled_for node id e'.

Definition pass_inv (visited : list nodeDefinition) (w : W) : Prop :=
  v_ok w ∧ v_runs w = v_runs w0 ∧ pass_frame visited w ∧ pass_done visited w.

Lemma pass_inv_start : pass_inv [] w0.
Proof.
  do 2 (split; [done|]). split; [split; auto|]. by intros node ?%elem_of_nil.
Qed.

Lemma pass_inv_skip visited node w :
  pass_inv visited w → needs_scheduling node = false → pass_inv (visited ++ [node]) w.
Proof.
  intros (Hok & Hr & [Hf1 Hf2] & Hd) Hn. do 2 (split; [done|]). split; [split; [done|]|].
  - intros id e' He'. destruct (Hf2 id e' He') as [?|(n & ? & ?)]; [by left|right].
    exists n. set_solver.
  - intros n [Hin| ->%list_elem_of_singleton]%elem_of_app; [auto|congruence].
Qed.

(** Storing a scheduled execution for the node just visited. *)
Lemma pass_inv_store visited node id e' w w' :
  pass_inv visited w → replaces id e' w w' → scheduled_for node id e' →
  (∀ e, v_execs w !! id = Some e → e_Status e = StatusBlocked) →
  pass_inv (visited ++ [node]) w'.
Proof.
  intros (Hok & Hr & [Hf1 Hf2] & Hd) (Hok' & Hr' & Hx) Hs Hb.
  split; [done|]. split; [congruence|]. unfold pass_frame, pass_done. rewrite Hx.
  split; [split|].
  - intros id' Hi. destruct (decide (id' = id)) as [->|].
    + rewrite lookup_insert_eq. eauto.
    + rewrite lookup_insert_ne by done. auto.
  - intros id' e'' He''. destruct (decide (id' = id)) as [->|].
    + rewrite lookup_insert_eq in He''. simplify_eq. right. exists node. set_solver.
    + rewrite lookup_insert_ne in He'' by done.
      destruct (Hf2 id' e'' He'') as [?|(m & ? & ?)]; [by left|right]. exists m. set_solver.
  - intros n [Hin| ->%list_elem_of_singleton]%elem_of_app Hn.
    + destruct (Hd n Hin Hn) as (id' & e1 & He1 & Hs1). destruct (decide (id' = id)) as [->|].
      * specialize (Hb e1 He1). destruct Hs1 as (_ & _ & Hp & _). congruence.
      * exists id', e1. by rewrite lookup_insert_ne.
    + exists id, e'. by rewrite lookup_insert_eq.
Qed.

(** The node at hand is not among the visited ones, nor stored for the run in another way. *)
Lemma pass_unvisited visited node w id e' :
  pass_inv visited w → n_key node ∉ n_key <$> visited → n_key node ≠ EmptyString →
  v_execs w !! id = Some e' → e_PipelineRunID e' = Some runID → e_NodeKey e' = n_key node →
  v_execs w0 !! id = Some e'.
Proof.
  intros (_ & _ & [_ Hf2] & _) Hni Hne He' Hr Hk.
  destruct (Hf2 id e' He') as [?|(n & Hin & (_ & Hkn & _))]; [done|].
  destruct Hni. rewrite <-Hk, Hkn. by apply list_elem_of_fmap_2.
Qed.

Lemma node_idem_inj node node' :
  no_byte Ascii.zero (n_taskName node) → no_byte Ascii.zero (n_taskName node') →
  idempotent_key (n_taskName node) (node_idem node) =
    idempotent_key (n_taskName node') (node_idem node') → n_key node = n_key node'.
Proof.
  intros H1 H2 [_ Heq]%idempotent_key_inj; [|done..].
  apply (inj (String.append (uuid_String runID))) in Heq.
  by apply (inj (String.append ":")) in Heq.
Qed.

Lemma not_duplicate visited node input w id e :
  pass_inv visited w → Forall node_ok visited → node_ok node → key_reserved node →
  n_key node ∉ n_key <$> visited → byNode !! n_key node = None →
  v_execs w !! id = Some e → ¬ duplicate (node_request runID node input) e.
Proof.
  intros Hinv Hvok Hnok Hres Hni Hnone He Hdup.
  assert (∀ id' e', v_execs w0 !! id' = Some e' → e_PipelineRunID e' = Some runID →
    e_NodeKey e' = n_key node → False) as Hno.
  { intros id' e' He' Hr Hk. apply (lists_byNode_None w0 runID items) with (id := id') (e := e') in Hnone;
      [by destruct Hnone|done|done|by apply nok_key]. }
  assert (e_PipelineRunID e = Some runID → e_NodeKey e = n_key node → False) as Hnow.
  { intros Hr Hk. eapply Hno; [|exact Hr|exact Hk].
    by eapply pass_unvisited; [| |apply nok_key| | |]. }
  destruct Hdup as [(_ & Hne & Heq)|(r & Hr & Hr' & _ & Hk)]; simpl in *; [|by simplify_eq; auto].
  destruct Hinv as (_ & _ & [_ Hf2] & _).
  destruct (Hf2 id e He) as [He0|(n & Hin & (Hr & Hk & _ & _ & _ & Hcase))].
  - by destruct (Hres _ _ He0 Hne Heq); auto.
  - destruct Hcase as [(_ & Hname & _ & Hidem)|(e0 & He0 & _ & Hid)].
    + rewrite Hname, Hidem in Heq. apply node_idem_inj in Heq.
      * destruct Hni. rewrite <-Heq. by apply list_elem_of_fmap_2.
      * rewrite Forall_forall in Hvok. by apply nok_task_NUL, Hvok.
      * by apply nok_task_NUL.
    + destruct Hid as (_ & Hn & _ & Hi & Hp & Hkk & _).
      destruct (Hres id e0 He0) as [H1 H2]; [congruence..|]. apply Hnow; congruence.
Qed.
Definition schedule_post (visited nodes : list nodeDefinition) (created : bool) (r : error + bool)
    (w' : W) : Prop :=
  match r with
  | inr c => pass_inv (visited ++ nodes) w' ∧ c = created || existsb needs_scheduling nodes
  | inl err => ∃ node buildErr t text, node ∈ nodes ∧ needs_scheduling node = true ∧
      safeBuildInput node (cloneJSON (r_Input run)) outputs = inl buildErr ∧
      err = joinError [buildErr] ∧ v_ok w' ∧ pass_frame (visited ++ nodes) w' ∧
      v_runs w' = <[runID := updated_run t RunFailed text run]> (v_runs w0)
  end.

Lemma schedule_post_cons visited node nodes created created' r w' :
  schedule_post (visited ++ [node]) nodes created' r w' →
  created' = created || needs_scheduling node →
  schedule_post visited (node :: nodes) created r w'.
Proof.
  intros Hp ->. unfold schedule_post in *. rewrite <-app_assoc in Hp. destruct r as [err|c].
  - destruct Hp as (n & b & t & text & Hin & Hrest). exists n, b, t, text.
    split; [by right|done].
  - destruct Hp as [Hinv ->]. split; [done|]. simpl. by rewrite orb_assoc.
Qed.

(** The mapper of a node that is due fails: the run is marked failed and the pass stops. *)
Lemma build_error_wp visited node nodes created buildErr text w :
  pass_inv visited w → needs_scheduling node = true →
  safeBuildInput node (cloneJSON (r_Input run)) outputs = inl buildErr →
  wp (statusErr ← try (SetPipelineRunStatus runID (r_Revision run) RunFailed text);
      throw (joinError (buildErr :: match error_of statusErr with Some err => [err] | None => [] end)))
    (schedule_post visited (node :: nodes) created) w.
Proof.
  intros (Hok & Hr & Hf & _) Hn Hbuild. apply wp_bind, wp_try.
  eapply wp_mono; [by apply law_set_status|]. intros r w' Hset. simpl in Hset.
  rewrite Hr, Hrun, Z.eqb_refl in Hset. destruct Hset as (-> & Hok' & Hx & t & Hr').
  apply wp_throw. exists node, buildErr, t, text. split; [left|]. do 4 (split; [done|]).
  split; [|congruence]. destruct Hf as [Hf1 Hf2]. unfold pass_frame. rewrite Hx.
  split; [done|]. intros id e' He'.
  destruct (Hf2 id e' He') as [?|(m & Hin & ?)]; [by left|right]. exists m.
  split; [|done]. apply elem_of_app. by left.
Qed.

(** A blocked node is released. *)
Lemma release_step visited node item input w :
  pass_inv visited w → n_key node ∉ n_key <$> visited → node_ok node →
  needs_scheduling node = true → byNode !! n_key node = Some item →
  safeBuildInput node (cloneJSON (r_Input run)) outputs = inr input →
  wp (ReleaseExecution (e_ID item) input (e_AvailableAt item))
    (λ r w', r = inr tt ∧ pass_inv (visited ++ [node]) w') w.
Proof.
  intros Hinv Hni Hnok Hn Hitem Hbuild. pose proof (nok_key _ Hnok) as Hne.
  pose proof Hn as Hn'. unfold needs_scheduling in Hn'. rewrite Hitem in Hn'.
  apply (lists_byNode w0 runID) in Hitem as (id & e & (He & Hr & Hk) & ->); [|done..].
  simpl in *. reflect_bool. pose proof (law_exec_id _ _ _ Hok0 He) as Hid. rewrite Hid.
  destruct Hinv as (Hok & Hrs & Hf & Hd). pose proof (conj Hok (conj Hrs (conj Hf Hd))) as Hinv.
  assert (v_execs w !! id = Some e) as Hew.
  { destruct Hf as [Hf1 Hf2]. destruct (Hf1 id) as [e' He']; [eauto|]. rewrite He'.
    destruct (Hf2 id e' He') as [?|(m & Hin & (_ & Hkm & _ & _ & _ & Hcase))]; [congruence|].
    destruct Hni. destruct Hcase as [(? & _)|(e0 & He0 & _ & Hsame)]; [congruence|].
    destruct Hsame as (_ & _ & _ & _ & _ & Hkk & _). rewrite <-Hk.
    replace (e_NodeKey e) with (n_key m) by congruence. by apply list_elem_of_fmap_2. }
  eapply wp_mono; [by apply law_release|]. intros r w' Hrel. simpl in Hrel. rewrite Hew in Hrel.
  rewrite bool_decide_true in Hrel by done. destruct Hrel as (-> & t & _ & Hrep).
  split; [done|]. eapply pass_inv_store; [exact Hinv|exact Hrep| |intros; congruence].
  split_and!; try done; [by exists input|]. right. exists e. by repeat split.
Qed.

(** A missing node is created. *)
Lemma create_step visited node input w :
  pass_inv visited w → n_key node ∉ n_key <$> visited → Forall node_ok visited → node_ok node →
  key_reserved node → needs_scheduling node = true → byNode !! n_key node = None →
  safeBuildInput node (cloneJSON (r_Input run)) outputs = inr input →
  wp (CreateExecution (node_request runID node input))
    (λ r w', (∃ e, r = inr e) ∧ pass_inv (visited ++ [node]) w') w.
Proof.
  intros Hinv Hni Hvok Hnok Hres Hn Hnone Hbuild. pose proof Hinv as (Hok & _ & [Hf1 _] & _).
  eapply wp_mono; [apply law_create; [done|by apply nok_max]|]. intros r w' Hc. simpl in Hc.
  rewrite (proj2 (is_empty_false _) (nok_task _ Hnok)) in Hc.
  destruct Hc as [(id & e & He & Hdup & _)|(id & t & Hid & _ & -> & Hrep)].
  - exfalso. by eapply not_duplicate.
  - split; [by eexists|]. eapply pass_inv_store; [exact Hinv|exact Hrep| |intros; congruence].
    split_and!; try done; [by exists input|]. left. split_and!; try done.
    apply eq_None_not_Some. intros Hs%Hf1. rewrite Hid in Hs. by destruct Hs.
Qed.

Lemma schedule_wp visited nodes created w :
  pass_inv visited w → NoDup (n_key <$> visited ++ nodes) → Forall node_ok (visited ++ nodes) →
  Forall key_reserved nodes →
  wp (schedule_nodes runID (cloneRun run) byNode outputs created nodes)
    (schedule_post visited nodes created) w.
Proof.
  revert visited created w. induction nodes as [|node nodes IH];
    intros visited created w Hinv Hnd Hnok Hres.
  { apply wp_ret. simpl. rewrite app_nil_r. split; [done|by rewrite orb_false_r]. }
  pose proof Hnok as Hnok'. apply Forall_app in Hnok' as [Hvok [Hk _]%Forall_cons].
  apply Forall_cons in Hres as [Hr Hres]. cbn [schedule_nodes].
  assert (n_key node ∉ n_key <$> visited) as Hni.
  { rewrite fmap_app in Hnd. apply NoDup_app in Hnd as (_ & Hno & _). intros Hin.
    apply (Hno _ Hin). left. }
  assert (∀ c w, pass_inv (visited ++ [node]) w → c = created || needs_scheduling node →
    wp (schedule_nodes runID (cloneRun run) byNode outputs c nodes)
      (schedule_post visited (node :: nodes) created) w) as Hnext.
  { intros c w' Hinv' Hc.
    assert ((visited ++ [node]) ++ nodes = visited ++ node :: nodes) as Happ by (by rewrite <-app_assoc).
    eapply wp_mono; [apply IH; [done|rewrite Happ; done|rewrite Happ; done|done]|].
    intros r w'' Hp. by eapply schedule_post_cons. }
  destruct (needs_scheduling node) eqn:Hn; pose proof Hn as Hn'; unfold needs_scheduling in Hn'.
  - apply andb_prop in Hn' as [Hready Hblocked]. rewrite Hready.
    destruct (byNode !! n_key node) as [item|] eqn:Hitem; [rewrite Hblocked|]; simpl;
      (destruct (safeBuildInput node (cloneJSON (r_Input run)) outputs) as [buildErr|input] eqn:Hb;
       [by apply build_error_wp|]).
    + apply wp_bind. eapply wp_mono; [by eapply release_step|]. intros r w' [-> Hinv'].
      apply Hnext; [done|by rewrite orb_true_r].
    + apply wp_bind. eapply wp_mono; [by eapply create_step|]. intros r w' [(e & ->) Hinv'].
      apply Hnext; [done|by rewrite orb_true_r].
  - assert (match byNode !! n_key node with
            | Some item => negb (bool_decide (e_Status item = StatusBlocked))
            | None => false
            end || negb (ready byNode node) = true) as ->.
    { destruct (ready byNode node); [|by rewrite orb_true_r]. simpl in Hn'.
      destruct (byNode !! n_key node); [by rewrite Hn'|done]. }
    apply Hnext; [by apply pass_inv_skip|by rewrite orb_false_r].
Qed.
End Schedule.
