(* ===== verification/EngineAdvance.v ===== *)
(** * Advancing a run

    What one call of [Advance] does, for any store that honours the contract: it fails the run of a
    failed node, creates or releases exactly the nodes whose predecessors have all succeeded, and
    moves the run to the status its nodes call for. *)

From S2P Require Import Prelude GoLib Model Memory MemoryInv MemoryOps MemoryLists Task.
From S2P Require Import TaskRegistry Pipeline Engine StoreLaws EngineLemmas.

Section Advance.
Context `{E : GoEnv} {W : Type} `{!Persistence W, !StoreView W, !StoreLaws W}.

(** An open run of a registered, valid definition. *)
Record open_run (e : Engine) (w : W) (runID : UUID) (run : PipelineRun) (def : compiledDefinition)
    : Prop := {
  or_ok : v_ok w;
  or_run : v_runs w !! runID = Some run;
  or_open : is_run_terminal (r_Status run) = false;
  or_def : definitions (registry e) !! registryKey (r_PipelineName run) (r_PipelineVersion run)
             = Some def;
  or_top : topological ∅ (cd_nodes def);
  or_nodes : Forall node_ok (cd_nodes def);
  or_reserved : Forall (key_reserved w runID) (cd_nodes def);
  or_keys : ∀ k id x, node_exec w runID k id x → k ∈ n_key <$> cd_nodes def;
}.

(** The predecessors of the node have succeeded, and the node is missing or blocked. *)
Definition due (w : W) (runID : UUID) (node : nodeDefinition) : Prop :=
  (∀ d, d ∈ n_dependencies node → node_succeeded w runID d) ∧
  (∀ id x, node_exec w runID (n_key node) id x → e_Status x = StatusBlocked).

Definition all_succeeded (w : W) (runID : UUID) (def : compiledDefinition) : Prop :=
  ∀ node, node ∈ cd_nodes def → node_succeeded w runID (n_key node).

Section OneRun.
Context (e : Engine) (w : W) (runID : UUID) (run : PipelineRun) (def : compiledDefinition).
Context (Hopen : open_run e w runID run def).

Lemma dependency_nonempty node d :
  node ∈ cd_nodes def → d ∈ n_dependencies node → d ≠ EmptyString.
Proof.
  intros (l1 & l2 & Heq)%list_elem_of_split Hd. pose proof (or_top _ _ _ _ _ Hopen) as Htop.
  rewrite Heq in Htop. apply topological_split in Htop as (_ & _ & Hdep).
  destruct (Hdep d Hd) as [?|(node' & -> & Hin)%list_elem_of_fmap]; [set_solver|].
  pose proof (or_nodes _ _ _ _ _ Hopen) as Hok. rewrite Forall_forall in Hok.
  apply nok_key, Hok. rewrite Heq. set_solver.
Qed.

Lemma needs_due items node :
  lists w runID items → node ∈ cd_nodes def →
  needs_scheduling items node = true ↔ due w runID node.
Proof.
  intros Hl Hin. pose proof (or_ok _ _ _ _ _ Hopen) as Hok.
  assert (n_key node ≠ EmptyString) as Hne.
  { pose proof (or_nodes _ _ _ _ _ Hopen) as Hn. rewrite Forall_forall in Hn. by apply nok_key, Hn. }
  unfold needs_scheduling, due. rewrite andb_true_iff, (ready_spec w runID) by
    eauto using dependency_nonempty. apply and_iff_compat_l.
  destruct (byNode_of items !! n_key node) as [item|] eqn:Hi.
  - apply (lists_byNode w runID) in Hi as (id & x & Hx & ->); [|done..]. simpl.
    rewrite bool_decide_eq_true. split; [|naive_solver].
    intros Hs id' x' Hx'. destruct Hx as (H1 & H2 & H3), Hx' as (H1' & H2' & H3').
    assert (id' = id) as -> by (eapply law_node_unique; eauto; congruence). congruence.
  - split; [|done]. intros _ id x Hx.
    by apply (lists_byNode_None w runID items) with (id := id) (e := x) in Hi.
Qed.

(** The nodes the store has for the run are nodes of the definition, each once. *)
Lemma dom_byNode items :
  lists w runID items → dom (byNode_of items) ⊆ list_to_set (C := gset string) (n_key <$> cd_nodes def).
Proof.
  intros Hl k [item Hi]%elem_of_dom. apply byNode_of_app in Hi as [Hin Hk].
  apply (elem_of_lists _ _ _ _ Hl) in Hin as (id & x & Hx & ->). rewrite Hk in Hx.
  apply elem_of_list_to_set. by apply (or_keys _ _ _ _ _ Hopen) in Hx.
Qed.

Lemma size_keys : size (list_to_set (C := gset string) (n_key <$> cd_nodes def)) = length (cd_nodes def).
Proof.
  rewrite size_list_to_set, length_fmap; [done|].
  apply (topological_keys ∅), (or_top _ _ _ _ _ Hopen).
Qed.

Lemma key_nonempty k : k ∈ n_key <$> cd_nodes def → k ≠ EmptyString.
Proof.
  intros (node & -> & Hin)%list_elem_of_fmap. pose proof (or_nodes _ _ _ _ _ Hopen) as Hn.
  rewrite Forall_forall in Hn. by apply nok_key, Hn.
Qed.

Lemma all_succeeded_check items :
  lists w runID items →
  bool_decide (size (byNode_of items) = length (cd_nodes def)) &&
  forallb (λ '(_, item), succeeded item) (map_to_list (byNode_of items)) = true ↔
  all_succeeded w runID def.
Proof.
  intros Hl. pose proof (or_ok _ _ _ _ _ Hopen) as Hok.
  pose proof (dom_byNode _ Hl) as Hdom. rewrite andb_true_iff, bool_decide_eq_true, forallb_forall.
  assert (∀ k item, k ∈ n_key <$> cd_nodes def → byNode_of items !! k = Some item →
    ∃ id x, node_exec w runID k id x ∧ item = cloneExecution x) as Hby.
  { intros k item Hk Hi. by eapply (lists_byNode w runID items k); eauto using key_nonempty. }
  split.
  - intros [Hsize Hall] node Hin.
    assert (n_key node ∈ dom (byNode_of items)) as [item Hi]%elem_of_dom.
    { assert (dom (byNode_of items) ≡ list_to_set (C := gset string) (n_key <$> cd_nodes def)) as ->.
      { apply set_subseteq_size_equiv; [done|]. by rewrite size_keys, size_dom, Hsize. }
      apply elem_of_list_to_set. by apply list_elem_of_fmap_2. }
    destruct (Hby (n_key node) item) as (id & x & Hx & ->); [by apply list_elem_of_fmap_2|done|].
    exists id, x. split; [done|].
    specialize (Hall (n_key node, cloneExecution x)). unfold succeeded in Hall.
    rewrite bool_decide_eq_true in Hall. apply Hall, list_elem_of_In. by apply elem_of_map_to_list.
  - intros Hall. split.
    + rewrite <-size_dom, <-size_keys. f_equal. apply set_eq_subseteq. split; [done|].
      intros k (node & -> & Hin)%elem_of_list_to_set%list_elem_of_fmap.
      destruct (Hall node Hin) as (id & x & Hx & _). apply elem_of_dom. exists (cloneExecution x).
      apply (lists_byNode w runID); eauto. by apply key_nonempty, list_elem_of_fmap_2.
    + intros [k item] Hi%list_elem_of_In%elem_of_map_to_list.
      assert (k ∈ n_key <$> cd_nodes def) as Hk.
      { apply (elem_of_list_to_set (C := gset string)), Hdom, elem_of_dom. eauto. }
      destruct (Hby k item Hk Hi) as (id & x & (He & Hr & Hkx) & ->).
      apply list_elem_of_fmap in Hk as (node & -> & Hin).
      destruct (Hall node Hin) as (id' & x' & (He' & Hr' & Hkx') & Hs).
      assert (id' = id) as -> by (eapply law_node_unique; eauto; [congruence|];
        rewrite Hkx'; by apply key_nonempty, list_elem_of_fmap_2).
      simplify_eq. unfold succeeded. by apply bool_decide_eq_true_2.
Qed.
(** The run is stored with a new status. *)
Definition run_set (status : RunStatus) (w' : W) : Prop :=
  ∃ t text, v_runs w' = <[runID := updated_run t status text run]> (v_runs w).

(** The status of the run after its nodes have been scheduled. *)
Definition status_follows (w' : W) : Prop :=
  (all_succeeded w runID def → run_set RunSucceeded w') ∧
  (¬ all_succeeded w runID def →
     ((∃ node, node ∈ cd_nodes def ∧ due w runID node) ∨ r_Status run = RunPending →
        run_set RunRunning w') ∧
     (¬ (∃ node, node ∈ cd_nodes def ∧ due w runID node) → r_Status run ≠ RunPending →
        v_runs w' = v_runs w)).

Definition advance_outcome (r : error + unit) (w' : W) : Prop :=
  (node_failed w runID ∧ r = inr tt ∧ v_ok w' ∧ v_execs w' = v_execs w ∧ run_set RunFailed w') ∨
  (¬ node_failed w runID ∧ ∃ items, lists w runID items ∧ v_ok w' ∧
     pass_frame w runID run items (cd_nodes def) w' ∧
     match r with
     | inl err => ∃ node buildErr, node ∈ cd_nodes def ∧ due w runID node ∧
         safeBuildInput node (cloneJSON (r_Input run)) (outputs_of items) = inl buildErr ∧
         err = joinError [buildErr] ∧ run_set RunFailed w'
     | inr _ => pass_done w runID run items (cd_nodes def) w' ∧ status_follows w'
     end).

Lemma set_status_wp (Q : error + unit → W → Prop) status text w1 :
  v_ok w1 → v_runs w1 = v_runs w →
  (∀ w', v_ok w' → v_execs w' = v_execs w1 → run_set status w' → Q (inr tt) w') →
  wp (SetPipelineRunStatus runID (r_Revision run) status text) Q w1.
Proof.
  intros Hok Hr HQ. eapply wp_mono; [by apply law_set_status|]. intros r w' Hset. simpl in Hset.
  rewrite Hr, (or_run _ _ _ _ _ Hopen), Z.eqb_refl in Hset.
  destruct Hset as (-> & Hok' & Hx & t & Hr'). apply HQ; [done..|]. by eexists _, _.
Qed.

Lemma existsb_due items :
  lists w runID items →
  existsb (needs_scheduling items) (cd_nodes def) = true ↔
  ∃ node, node ∈ cd_nodes def ∧ due w runID node.
Proof.
  intros Hl. rewrite existsb_exists. split; intros (node & Hin & Hn); exists node.
  - apply list_elem_of_In in Hin. split; [done|]. by eapply needs_due.
  - split; [by apply list_elem_of_In|]. by apply needs_due.
Qed.

(** After the pass, the status updates. *)
Lemma finish_wp items w1 created :
  lists w runID items → ¬ node_failed w runID → pass_inv w runID run items (cd_nodes def) w1 →
  created = existsb (needs_scheduling items) (cd_nodes def) →
  wp (if bool_decide (cd_nodes def = []) then
        SetPipelineRunStatus runID (r_Revision run) RunSucceeded EmptyString
      else if bool_decide (size (byNode_of items) = length (cd_nodes def)) &&
              forallb (λ '(_, item), succeeded item) (map_to_list (byNode_of items)) then
        SetPipelineRunStatus runID (r_Revision run) RunSucceeded EmptyString
      else if created || bool_decide (r_Status run = RunPending) then
        SetPipelineRunStatus runID (r_Revision run) RunRunning EmptyString
      else mret tt) advance_outcome w1.
Proof.
  intros Hl Hnf (Hok1 & Hr1 & Hframe & Hdone) Hc.
  assert (∀ w', v_ok w' → v_execs w' = v_execs w1 → status_follows w' → advance_outcome (inr tt) w')
    as Hout.
  { intros w' Hok' Hx Hs. right. split; [done|]. exists items. unfold pass_frame, pass_done in *.
    rewrite Hx. done. }
  pose proof (all_succeeded_check items Hl) as Hcheck.
  destruct (bool_decide (cd_nodes def = [])) eqn:Hnil; reflect_bool.
  { apply set_status_wp; [done..|]. intros w' ?? Hs. apply Hout; [done..|]. split; [done|].
    intros []. intros node Hin. rewrite Hnil in Hin. by apply elem_of_nil in Hin. }
  destruct (bool_decide (size _ = _) && _) eqn:Hall.
  { apply set_status_wp; [done..|]. intros w' ?? Hs. apply Hout; [done..|]. split; [done|].
    intros []. by apply Hcheck. }
  assert (¬ all_succeeded w runID def) as Hnall by (rewrite <-Hcheck; done).
  rewrite Hc. destruct (existsb _ _ || _) eqn:Hcr.
  - apply set_status_wp; [done..|]. intros w' ?? Hs. apply Hout; [done..|]. split; [done|].
    intros _. split; [done|]. intros Hno Hnp. exfalso. apply orb_true_iff in Hcr as [Hcr|Hcr].
    + apply Hno. by eapply existsb_due.
    + by reflect_bool.
  - apply wp_ret, Hout; [done..|]. split; [done|]. intros _. split; [|done].
    apply orb_false_iff in Hcr as [Hcr Hp]. reflect_bool. intros [Hdue|?]; [|done].
    rewrite (proj2 (existsb_due items Hl) Hdue) in Hcr. done.
Qed.

Lemma advanceOnce_wp : wp (advanceOnce e runID) advance_outcome w.
Proof.
  pose proof (or_ok _ _ _ _ _ Hopen) as Hok.
  apply wp_bind. eapply wp_mono; [by apply law_get_run|]. intros r w1 [Hk1 ->].
  rewrite (or_run _ _ _ _ _ Hopen). simpl. rewrite (or_open _ _ _ _ _ Hopen), (or_def _ _ _ _ _ Hopen).
  destruct Hk1 as (Hok1 & Hr1 & Hx1).
  apply wp_bind. eapply wp_mono; [by apply law_list_executions|].
  intros r w2 [Hk2 (items & -> & Hitems)]. destruct Hk2 as (Hok2 & Hr2 & Hx2).
  rewrite Hx1 in Hitems. assert (lists w runID items) as Hl by done.
  assert (v_execs w2 = v_execs w) as Hx by congruence.
  assert (v_runs w2 = v_runs w) as Hr by congruence.
  destruct (List.find is_failed items) as [item|] eqn:Hfind.
  { apply set_status_wp; [done..|]. intros w' ? Hx' ?. left. split; [|split_and!; congruence || done].
    by eapply find_failed_Some. }
  assert (¬ node_failed w runID) as Hnf by (by rewrite <-(find_failed_spec w runID items)).
  pose proof (pass_inv_start w runID run items Hok) as Hstart.
  assert (pass_inv w runID run items [] w2) as Hstart2.
  { destruct Hstart as (_ & _ & Hf & Hd). unfold pass_inv, pass_frame, pass_done in *.
    rewrite Hx. done. }
  apply wp_bind. eapply wp_mono.
  { eapply (schedule_wp w runID run items Hok Hl (or_run _ _ _ _ _ Hopen) [] (cd_nodes def) false w2);
      [done| | |].
    - apply (topological_keys ∅), (or_top _ _ _ _ _ Hopen).
    - apply (or_nodes _ _ _ _ _ Hopen).
    - apply (or_reserved _ _ _ _ _ Hopen). }
  intros [err|c] w3 Hpost; simpl in Hpost.
  - destruct Hpost as (node & buildErr & t & text & Hin & Hn & Hb & -> & Hok3 & Hf & Hr3).
    right. split; [done|]. exists items. split_and!; try done. exists node, buildErr.
    split_and!; try done; [by eapply needs_due|]. by exists t, text.
  - destruct Hpost as [Hinv ->]. by apply finish_wp.
Qed.
End OneRun.
End Advance.
