(* ===== verification/PipelineProps.v ===== *)
(** * Properties of pipeline definitions *)

From S2P Require Import Prelude GoLib Model Task TaskRegistry Pipeline Engine EngineLemmas.
From S2P Require Import Demo.

(** [validate] accepts a definition exactly when it is named, its version is positive and its
    nodes, with their keys trimmed, are valid, distinct, named and declared after all the nodes they
    depend on; it then leaves the definition with the trimmed keys. *)
Theorem validate_accepts_topological {P} (d : PipelineDefinition P) :
  match validate (Some d) with
  | (None, d') =>
      pd_name d ≠ EmptyString ∧ (0 < pd_version d)%Z ∧ topological ∅ (trimmed <$> pd_nodes d) ∧
      d' = Some (mkPipelineDefinition (pd_name d) (pd_version d) (trimmed <$> pd_nodes d))
  | (Some _, _) =>
      pd_name d = EmptyString ∨ (pd_version d ≤ 0)%Z ∨ ¬ topological ∅ (trimmed <$> pd_nodes d)
  end.
Proof.
  unfold validate. case_bool_decide as Hname; [by left|].
  destruct (Z.leb_spec (pd_version d) 0); [by right; left|].
  pose proof (validate_nodes_spec ∅ (pd_nodes d)) as Hspec.
  destruct (validate_nodes ∅ (pd_nodes d)) as [[err|] nodes]; [by right; right|].
  destruct Hspec as [-> Htop]. done.
Qed.

(** ** Descendants *)

(** [k] is a node that depends on [root], directly or through other nodes. *)
Inductive descendant (nodes : list nodeDefinition) (root : string) : string → Prop :=
  | descendant_child node :
      node ∈ nodes → root ∈ n_dependencies node → descendant nodes root (n_key node)
  | descendant_step k node :
      descendant nodes root k → node ∈ nodes → k ∈ n_dependencies node →
      descendant nodes root (n_key node).

Lemma descendant_last nodes root k :
  descendant nodes root k →
  ∃ node a, node ∈ nodes ∧ n_key node = k ∧ a ∈ n_dependencies node ∧
    (a = root ∨ descendant nodes root a).
Proof. destruct 1 as [node Hin Hd|a node Ha Hin Hd]; exists node; eauto 10. Qed.

Section Order.
Context (nodes : list nodeDefinition) (Htop : topological ∅ nodes).

Lemma dependency_before l1 node l2 a :
  nodes = l1 ++ node :: l2 → a ∈ n_dependencies node → a ∈ n_key <$> l1.
Proof.
  intros Heq Ha. pose proof Htop as Ht. rewrite Heq in Ht.
  apply topological_split in Ht as (_ & _ & Hd). destruct (Hd a Ha); set_solver.
Qed.

(** A node is determined by its key. *)
Lemma node_unique node node' : node ∈ nodes → node' ∈ nodes → n_key node = n_key node' → node = node'.
Proof.
  destruct (topological_keys _ _ Htop) as [Hnd _]. revert Hnd. clear Htop.
  induction nodes as [|x l IH]; simpl; intros Hnd Hn Hn' Heq; [by apply elem_of_nil in Hn|].
  apply NoDup_cons in Hnd as [Hni Hnd].
  apply elem_of_cons in Hn as [->|Hn], Hn' as [->|Hn']; [done| | |by apply IH]; destruct Hni;
    [rewrite Heq|rewrite <-Heq]; by apply list_elem_of_fmap_2.
Qed.

(** The descendants of a node that is not in a prefix are not in the prefix. *)
Lemma descendant_after root l1 l2 k :
  nodes = l1 ++ l2 → root ∉ n_key <$> l1 → descendant nodes root k → k ∉ n_key <$> l1.
Proof.
  intros Heq Hroot Hk.
  assert (∀ node a, node ∈ nodes → a ∈ n_dependencies node → a ∉ n_key <$> l1 →
    n_key node ∉ n_key <$> l1) as Hstep.
  { intros node a Hin Ha Hna (node' & Hkey & Hin')%list_elem_of_fmap.
    assert (node' ∈ nodes) as Hin'' by (rewrite Heq; set_solver).
    assert (node' = node) as -> by (by apply node_unique).
    apply list_elem_of_split in Hin' as (p & q & ->). apply Hna.
    rewrite fmap_app. apply elem_of_app. left.
    eapply (dependency_before p node (q ++ l2)); [|done]. by rewrite Heq, <-app_assoc. }
  induction Hk as [node Hin Hd|a node Ha IH Hin Hd]; eauto.
Qed.

Lemma descendant_irrefl root : ¬ descendant nodes root root.
Proof.
  intros Hr. apply descendant_last in Hr as (node & a & Hin & Hkey & Ha & Hcase).
  pose proof Hin as (l1 & l2 & Heq)%list_elem_of_split.
  pose proof (dependency_before _ _ _ _ Heq Ha) as Hbefore.
  destruct (topological_keys _ _ Htop) as [Hnd _].
  assert (root ∉ n_key <$> l1) as Hroot.
  { rewrite Heq, fmap_app in Hnd. apply NoDup_app in Hnd as (_ & Hno & _). intros Hr.
    apply (Hno root Hr). rewrite <-Hkey. left. }
  destruct Hcase as [->|Hd]; [done|]. by eapply (descendant_after root l1 (node :: l2)).
Qed.

(** The loop has collected the descendants among the visited nodes. *)
Lemma descendants_spec root visited l affected found result :
  nodes = visited ++ l →
  (∀ k, k ∈ affected ↔ k = root ∨ k ∈ result) →
  (∀ k, k ∈ result ↔ k ∈ n_key <$> visited ∧ descendant nodes root k) →
  NoDup result → (found = true ↔ root ∈ n_key <$> visited) →
  let '(result', found') := descendants root affected found result l in
  (∀ k, k ∈ result' ↔ descendant nodes root k) ∧ NoDup result' ∧
  (found' = true ↔ root ∈ n_key <$> nodes).
Proof.
  revert visited affected found result.
  induction l as [|node l IH]; intros visited affected found result Heq Haff Hres Hnd Hfound; simpl.
  { rewrite app_nil_r in Heq. rewrite <-Heq in *. split_and!; try done. intros k. rewrite Hres.
    split; [naive_solver|]. intros Hd. split; [|done].
    destruct (descendant_last _ _ _ Hd) as (n & _ & Hin & <- & _). by apply list_elem_of_fmap_2. }
  assert (nodes = (visited ++ [node]) ++ l) as Heq' by (by rewrite <-app_assoc).
  assert (node ∈ nodes) as Hin by (rewrite Heq; set_solver).
  assert (∀ k, k ∈ n_key <$> visited ++ [node] ↔ k ∈ n_key <$> visited ∨ k = n_key node) as Hvis.
  { intros k. rewrite fmap_app, elem_of_app. simpl. by rewrite list_elem_of_singleton. }
  assert (existsb (λ d, bool_decide (d ∈ affected)) (n_dependencies node) = true ↔
    descendant nodes root (n_key node)) as Hex.
  { rewrite existsb_exists. split.
    - intros (d & Hd%list_elem_of_In & Ha). reflect_bool. apply Haff in Ha as [->|Ha].
      + by apply descendant_child.
      + apply Hres in Ha as [_ Ha]. by eapply descendant_step.
    - intros Hd. destruct (descendant_last _ _ _ Hd) as (n & a & Hn & Hkey & Ha & Hcase).
      assert (n = node) as -> by (by apply node_unique). exists a.
      split; [by apply list_elem_of_In|]. apply bool_decide_eq_true_2, Haff.
      destruct Hcase as [->|Hda]; [by left|right]. apply Hres. split; [|done].
      by eapply dependency_before. }
  case_bool_decide as Hroot.
  - apply (IH (visited ++ [node])); try done.
    + intros k. rewrite Hres, Hvis. split; [naive_solver|]. intros [[?| ->] Hd]; [done|].
      rewrite Hroot in Hd. by apply descendant_irrefl in Hd.
    + rewrite Hvis. naive_solver.
  - destruct (existsb _ _) eqn:He.
    + apply (IH (visited ++ [node])); try done.
      * intros k. rewrite elem_of_app, list_elem_of_singleton. set_solver.
      * intros k. rewrite elem_of_app, list_elem_of_singleton, Hres, Hvis. naive_solver.
      * apply NoDup_app. split_and!; [done| |apply NoDup_singleton].
        intros k [Hk _]%Hres Heqk%list_elem_of_singleton. subst k.
        destruct (topological_keys _ _ Htop) as [Hnd' _]. rewrite Heq, fmap_app in Hnd'.
        apply NoDup_app in Hnd' as (_ & Hno & _). apply (Hno _ Hk). left.
      * rewrite Hvis. naive_solver.
    + apply (IH (visited ++ [node])); try done.
      * intros k. rewrite Hres, Hvis. split; [naive_solver|]. intros [[?| ->] Hd]; [done|].
        apply Hex in Hd. congruence.
      * rewrite Hvis. naive_solver.
Qed.
End Order.

(** C22: the descendants a restart resets are exactly the nodes that depend on the restarted node,
    directly or through other nodes, each once; the node itself is never among them, and an unknown
    node is reported as such. *)
Theorem descendantKeys_exact name version nodes root :
  topological ∅ nodes →
  let '(keys, found) := descendantKeys (mkCompiled name version nodes) root in
  (∀ k, k ∈ keys ↔ descendant nodes root k) ∧ NoDup keys ∧ root ∉ keys ∧
  (found = true ↔ root ∈ n_key <$> nodes).
Proof.
  intros Htop. unfold descendantKeys. simpl.
  pose proof (descendants_spec nodes Htop root [] nodes {[root]} false []) as H.
  destruct (descendants _ _ _ _ _) as [keys found]. destruct H as (Hk & Hnd & Hf).
  - done.
  - set_solver.
  - intros k. split; [by intros ?%elem_of_nil|by intros [?%elem_of_nil _]].
  - constructor.
  - split; [done|by intros ?%elem_of_nil].
  - split_and!; try done; [|apply Hf..]. rewrite Hk. by apply descendant_irrefl.
Qed.

(** Three nodes in a row, and one beside them. *)
Definition demo_node_of (key : string) (dependencies : list string) : nodeDefinition :=
  mkNode key "not" 1 3 dependencies (λ initial _, Returned (inr initial)) None.
Definition demo_nodes : list nodeDefinition :=
  [demo_node_of "a" []; demo_node_of "b" ["a"]; demo_node_of "c" ["b"]; demo_node_of "d" []].

Lemma demo_nodes_topological : topological ∅ demo_nodes.
Proof. repeat (constructor; [done|done|set_solver|set_solver|]). constructor. Qed.

Lemma descendantKeys_exact_witness :
  descendant demo_nodes "a" "b" ∧ descendant demo_nodes "a" "c" ∧ ¬ descendant demo_nodes "a" "a".
Proof.
  destruct (descendantKeys_exact "p" 1 demo_nodes "a" demo_nodes_topological) as (H & _ & Hroot & _).
  split_and!; [apply H; set_solver|apply H; set_solver|]. intros Ha. apply Hroot, H, Ha.
Defined.

(** ** Typed inputs *)

Section Typed.
Context {P A B I O : Type} `{!Codec P, !Codec A, !Codec B, !Codec I}.
Context `{!CodecOk P, !CodecOk A, !CodecOk B, !CodecOk I}.

(** The node that a builder appends to the pipeline. *)
Definition appended (before after : PipelineDefinition P) (node : nodeDefinition) : Prop :=
  pd_name after = pd_name before ∧ pd_version after = pd_version before ∧
  pd_nodes after = pd_nodes before ++ [node].

(** C31: the input of a node is computed from what was stored: a root node gets the mapped input of
    the run, a successor the mapped output of its predecessor, a fan-in node the mapped outputs of
    both; the stored text decodes to exactly that value.  The node depends on those predecessors and
    nothing else. *)
Theorem node_inputs_typed (pipeline : PipelineDefinition P) key (definition : Definition_ I O)
    (first : NodeRef A) (second : NodeRef B) (f : P → I) (g : A → I) (h : A * B → I)
    p a b rp ra rb initial outputs :
  Marshal p = inr rp → Marshal a = inr ra → Marshal b = inr rb →
  outputs !! nr_key first = Some (Some ra) → outputs !! nr_key second = Some (Some rb) →
  (∃ node, appended pipeline (Start pipeline key definition (Some (inr ∘ f))).2 node ∧
     n_dependencies node = [] ∧
     ∀ out, Marshal (f p) = inr out →
       n_buildInput node (Some rp) outputs = Returned (inr (Some out)) ∧
       Unmarshal (Some out) = inr (f p)) ∧
  (∃ node, appended pipeline (Then pipeline first key definition (Some (inr ∘ g))).2 node ∧
     n_dependencies node = [nr_key first] ∧
     ∀ out, Marshal (g a) = inr out →
       n_buildInput node initial outputs = Returned (inr (Some out)) ∧
       Unmarshal (Some out) = inr (g a)) ∧
  (∃ node, appended pipeline (Join2 pipeline first second key definition (Some (inr ∘ h))).2 node ∧
     n_dependencies node = [nr_key first; nr_key second] ∧
     ∀ out, Marshal (h (a, b)) = inr out →
       n_buildInput node initial outputs = Returned (inr (Some out)) ∧
       Unmarshal (Some out) = inr (h (a, b))).
Proof.
  intros Hp Ha Hb Hfirst Hsecond. split_and!; eexists; (split; [done|]); (split; [done|]);
    intros out Hout; simpl; unfold output_of; rewrite ?Hfirst, ?Hsecond; simpl;
    rewrite ?(Marshal_Unmarshal _ _ Hp), ?(Marshal_Unmarshal _ _ Ha), ?(Marshal_Unmarshal _ _ Hb);
    simpl; rewrite Hout; (split; [done|by apply Marshal_Unmarshal]).
Qed.
End Typed.

Lemma node_inputs_typed_witness :
  ∃ node, appended (P := bool) (NewPipeline "p" 1)
    (Then (NewPipeline "p" 1) (mkNodeRef (O := bool) "a" "p" 1) "b" demo_task (Some (inr ∘ negb))).2
    node ∧ n_dependencies node = ["a"].
Proof.
  destruct (node_inputs_typed (NewPipeline (P := bool) "p" 1) "b" demo_task
    (mkNodeRef (O := bool) "a" "p" 1) (mkNodeRef (O := bool) "c" "p" 1) negb negb (λ x, fst x)
    true true false "true" "true" "false" None
    {["a" := Some "true"; "c" := Some "false"]}) as (_ & (node & H1 & H2 & _) & _); try done.
  by exists node.
Defined.
