(* ===== verification/EngineProps.v ===== *)
(** * Properties of the pipeline engine *)

From S2P Require Import Prelude GoLib Model Memory MemoryInv MemoryOps MemoryLists.
From S2P Require Import MemoryProps2 Task TaskRegistry Pipeline Engine StoreLaws EngineLemmas.
From S2P Require Import EngineAdvance PipelineProps Demo.

Section Engine.
Context `{E : GoEnv} {W : Type} `{!Persistence W, !StoreView W, !StoreLaws W}.

(** Without a conflict the first try of [Advance] is its result. *)
Lemma Advance_once e runID w r w' :
  advanceOnce e runID w = (r, w') →
  match r with inl err => errors_Is err ErrConflict = false | inr _ => True end →
  Advance e runID w = (r, w').
Proof.
  intros Ho Hc. unfold Advance. cbn [advance_tries]. unfold mbind, M_bind, try.
  rewrite Ho. destruct r as [err|[]]; [by rewrite Hc|done].
Qed.

(** ** What advancing leaves alone *)

(** Every execution stays stored, with what it has from its creation, and those that are not blocked stay
    as they are. *)
Definition unblocked_kept (w w' : W) : Prop :=
  v_ok w' ∧ ∀ id x, v_execs w !! id = Some x → ∃ x', v_execs w' !! id = Some x' ∧ same_identity x x' ∧
    (e_Status x ≠ StatusBlocked → x' = x).

(** The attempt budgets of the registered nodes fit an int. *)
Definition budgets_ok (e : Engine) : Prop :=
  ∀ key def, definitions (registry e) !! key = Some def →
    Forall (λ node, (n_maxAttempts node ≤ MaxInt64)%Z) (cd_nodes def).

Lemma kept_refl w : v_ok w → unblocked_kept w w.
Proof. split; [done|]. intros id x Hx. exists x. split; [done|]. split; [apply same_identity_refl|done]. Qed.

Lemma kept_trans w1 w2 w3 : unblocked_kept w1 w2 → unblocked_kept w2 w3 → unblocked_kept w1 w3.
Proof. 
  intros [_ H1] [Hok H2]. split; [done|]. intros id x Hx. destruct (H1 id x Hx) as (y & Hy & Hid & Hs).
  destruct (H2 id y Hy) as (z & Hz & Hid' & Hs'). exists z. split; [done|]. split; [by eapply same_identity_trans|].
  intros Hb. specialize (Hs Hb). subst y. by apply Hs'.
Qed.

Lemma kept_keeps w w' : keeps w w' → unblocked_kept w w'.
Proof. intros (Hok & _ & Hx). pose proof (kept_refl w') as Hr. unfold unblocked_kept in *. rewrite Hx in *. by apply Hr. Qed.

Lemma kept_replaces id x' w w' :
  (∀ x, v_execs w !! id = Some x → e_Status x = StatusBlocked ∧ same_identity x x') →
  replaces id x' w w' → unblocked_kept w w'.
Proof.
  intros Hb (Hok & _ & Hx). split; [done|]. intros i x Hi. rewrite Hx. destruct (decide (i = id)) as [->|Hne].
  - exists x'. rewrite lookup_insert_eq. destruct (Hb x Hi) as [Hs Hid]. split_and!; [done|done|congruence].
  - exists x. rewrite lookup_insert_ne by done. split_and!; [done|apply same_identity_refl|done].
Qed.

Lemma kept_wp {A B} (m : M W A) (k : A → M W B) (Q : error + A → W → Prop) w :
  wp m Q w → (∀ r w', Q r w' → unblocked_kept w w') →
  (∀ a w', v_ok w' → wp (k a) (λ _ w'', unblocked_kept w' w'') w') →
  wp (m ≫= k) (λ _ w', unblocked_kept w w') w.
Proof.
  intros Hm HQ Hk. apply wp_bind. eapply wp_mono; [exact Hm|]. intros r w' Hr. specialize (HQ r w' Hr).
  destruct r as [err|a]; [done|]. eapply wp_mono; [apply Hk; apply HQ|]. intros r' w''. by apply kept_trans.
Qed.

Lemma set_status_kept id revision status text w :
  v_ok w → wp (SetPipelineRunStatus id revision status text) (λ _ w', unblocked_kept w w') w.
Proof.
  intros Hok. eapply wp_mono; [by apply law_set_status|]. intros r w'. simpl.
  destruct (v_runs w !! id) as [run|]; [|intros [_ ?]; by apply kept_keeps].
  destruct (r_Revision run =? revision)%Z; [|intros [_ ?]; by apply kept_keeps].
  intros (_ & Hok' & Hx & _). pose proof (kept_refl w') as Hr. unfold unblocked_kept in *. rewrite Hx in *. by apply Hr.
Qed.

Lemma release_kept id input t w :
  v_ok w → wp (ReleaseExecution id input t) (λ _ w', unblocked_kept w w') w.
Proof.
  intros Hok. eapply wp_mono; [by apply law_release|]. intros r w'. simpl.
  destruct (v_execs w !! id) as [x|] eqn:Hx; [|intros [_ ?]; by apply kept_keeps].
  case_bool_decide as Hs; [|intros [_ ?]; by apply kept_keeps]. intros (_ & t' & _ & Hrep).
  eapply kept_replaces; [|done]. intros y Hy. simplify_eq. split; [done|]. by destruct x.
Qed.

Lemma create_kept request w :
  v_ok w → request_ok request → wp (CreateExecution request) (λ _ w', unblocked_kept w w') w.
Proof.
  intros Hok Hr. eapply wp_mono; [by apply law_create|]. intros r w'. simpl.
  destruct (is_empty _); [intros [? _]; by apply kept_keeps|].
  intros [(id & x & _ & _ & _ & ?)|(id & t & Hnone & _ & _ & Hrep)]; [by apply kept_keeps|].
  eapply kept_replaces; [|done]. intros y Hy. by simplify_eq.
Qed.

Lemma schedule_nodes_kept runID run byNode outputs nodes :
  Forall (λ node, (n_maxAttempts node ≤ MaxInt64)%Z) nodes → ∀ created w, v_ok w →
  wp (schedule_nodes runID run byNode outputs created nodes) (λ _ w', unblocked_kept w w') w.
Proof.
  induction 1 as [|node nodes Hmax _ IH]; intros created w Hok; cbn [schedule_nodes]; [by apply wp_ret, kept_refl|].
  destruct (_ || _); [by apply IH|]. destruct (safeBuildInput _ _ _) as [err|input].
  - apply (kept_wp _ _ (λ _ w', unblocked_kept w w')); [apply wp_try; by apply set_status_kept|done|]. intros a w' Hok'. by apply wp_throw, kept_refl.
  - destruct (byNode !! n_key node) as [item|].
    + eapply kept_wp; [by apply release_kept|done|]. intros _ w' Hok'. by apply IH.
    + eapply kept_wp; [by apply create_kept|done|]. intros _ w' Hok'. by apply IH.
Qed.

Lemma advanceOnce_kept e runID w :
  budgets_ok e → v_ok w → wp (advanceOnce e runID) (λ _ w', unblocked_kept w w') w.
Proof.
  intros He Hok. unfold advanceOnce. eapply kept_wp; [by apply law_get_run|intros r w' [? _]; by apply kept_keeps|].
  intros run w1 Hok1. destruct (is_run_terminal _); [by apply wp_ret, kept_refl|].
  destruct (definitions (registry e) !! _) as [def|] eqn:Hdef; [|by apply wp_throw, kept_refl].
  eapply kept_wp; [by apply law_list_executions|intros r w' [? _]; by apply kept_keeps|]. intros items w2 Hok2.
  destruct (List.find is_failed items); [by apply set_status_kept|].
  eapply kept_wp; [apply schedule_nodes_kept; [by eapply He|done]|done|]. intros created w3 Hok3.
  repeat (match goal with |- wp (if ?b then _ else _) _ _ => destruct b end);
    first [by apply set_status_kept|by apply wp_ret, kept_refl].
Qed.

(** Advancing a run, whatever becomes of it, changes no execution that is not blocked. *)
Lemma Advance_kept e runID w :
  budgets_ok e → v_ok w → wp (Advance e runID) (λ _ w', unblocked_kept w w') w.
Proof.
  intros He. unfold Advance. generalize 4. intros n. revert w. induction n as [|n IH]; intros w Hok; cbn [advance_tries];
    [by apply wp_throw, kept_refl|].
  apply (kept_wp _ _ (λ _ w', unblocked_kept w w')); [apply wp_try; by apply advanceOnce_kept|done|]. intros r w' Hok'.
  destruct r as [err|_]; [|by apply wp_ret, kept_refl]. destruct (errors_Is err ErrConflict); [by apply IH|by apply wp_throw, kept_refl].
Qed.

(** The mappers of the nodes that are due produce their inputs. *)
Definition mappers_succeed (w : W) (runID : UUID) (run : PipelineRun) (def : compiledDefinition)
    : Prop :=
  ∀ items node, lists w runID items → node ∈ cd_nodes def → due w runID node →
    ∃ input, safeBuildInput node (cloneJSON (r_Input run)) (outputs_of items) = inr input.

Lemma Advance_schedules e w runID run def :
  open_run e w runID run def → ¬ node_failed w runID → mappers_succeed w runID run def →
  ∃ w' items, Advance e runID w = (inr tt, w') ∧ lists w runID items ∧ v_ok w' ∧
    pass_frame w runID run items (cd_nodes def) w' ∧
    pass_done w runID run items (cd_nodes def) w' ∧ status_follows w runID run def w'.
Proof.
  intros Hopen Hnf Hmap. destruct (advanceOnce e runID w) as [r w'] eqn:Ho.
  pose proof (wp_elim _ _ _ _ _ (advanceOnce_wp e w runID run def Hopen) Ho) as
    [(Hf & _)|(_ & items & Hl & Hok & Hframe & Hr)]; [done|].
  destruct r as [err|[]].
  - destruct Hr as (node & buildErr & Hin & Hdue & Hb & _).
    destruct (Hmap items node Hl Hin Hdue). congruence.
  - destruct Hr as [Hdone Hstatus]. exists w', items. split_and!; try done.
    by apply Advance_once.
Qed.

(** C8: advancing an open run without failed nodes succeeds at the first try, when the mappers of the nodes
    that are due succeed (if one fails, the run is stored as failed instead): every node whose predecessors
    have succeeded and that is missing or blocked is now pending with the input its mapper builds from the
    stored outputs; no other execution changes and none disappears; the run succeeds exactly when all its
    nodes have, and is running as soon as work was scheduled. The run has a registered definition that
    passed validation and whose task names hold no NUL byte, its stored nodes are nodes of that definition,
    and no other execution uses the idempotency keys that the engine gives to its nodes; the store keeps the
    laws of [StoreLaws], and nobody else changes it meanwhile. *)
Theorem advance_schedules_due e w runID run def :
  open_run e w runID run def → ¬ node_failed w runID → mappers_succeed w runID run def →
  ∃ w' items, Advance e runID w = (inr tt, w') ∧ lists w runID items ∧ v_ok w' ∧
    (∀ node, node ∈ cd_nodes def → due w runID node →
       ∃ id x, v_execs w' !! id = Some x ∧ scheduled_for w runID run items node id x) ∧
    (∀ id x, v_execs w' !! id = Some x →
       v_execs w !! id = Some x ∨
       ∃ node, node ∈ cd_nodes def ∧ due w runID node ∧
         scheduled_for w runID run items node id x) ∧
    (∀ id, is_Some (v_execs w !! id) → is_Some (v_execs w' !! id)) ∧
    status_follows w runID run def w'.
Proof.
  intros Hopen Hnf Hmap.
  destruct (Advance_schedules _ _ _ _ _ Hopen Hnf Hmap) as (w' & items & Ha & Hl & Hok & [Hf1 Hf2] & Hd & Hs).
  exists w', items. split_and!; try done.
  - intros node Hin Hdue. apply Hd; [done|]. by eapply needs_due.
  - intros id x Hx. destruct (Hf2 id x Hx) as [?|(node & Hin & Hsch)]; [by left|right].
    exists node. split_and!; [done| |done]. eapply needs_due; [done..|]. by destruct Hsch as (_ & _ & _ & ? & _).
Qed.

(** C32: a failed or cancelled node fails its run: the run is stored as failed and no node is
    created, released or changed; a run that is finished already is left alone. *)
Theorem advance_failed_run e w runID run def :
  open_run e w runID run def → node_failed w runID →
  (∃ w', Advance e runID w = (inr tt, w') ∧ v_ok w' ∧ v_execs w' = v_execs w ∧
     run_set w runID run RunFailed w') ∧
  (∀ w1 run1, v_ok w1 → v_runs w1 !! runID = Some run1 → is_run_terminal (r_Status run1) = true →
     ∃ w2, Advance e runID w1 = (inr tt, w2) ∧ keeps w1 w2).
Proof.
  intros Hopen Hf. split.
  - destruct (advanceOnce e runID w) as [r w'] eqn:Ho.
    pose proof (wp_elim _ _ _ _ _ (advanceOnce_wp e w runID run def Hopen) Ho) as
      [(_ & -> & ? & ? & ?)|(? & _)]; [|done].
    exists w'. split; [by apply Advance_once|done].
  - intros w1 run1 Hok Hr Ht. pose proof (law_get_run w1 runID Hok) as Hg.
    destruct (GetPipelineRun runID w1) as [r w2] eqn:Hget.
    destruct (wp_elim _ _ _ _ _ Hg Hget) as [Hk ->]. rewrite Hr in Hget.
    exists w2. split; [|done]. apply Advance_once; [|done].
    unfold advanceOnce, mbind, M_bind. rewrite Hget. simpl. by rewrite Ht.
Qed.

(** ** Progress *)

(** The first node that has not succeeded. *)
Lemma first_unfinished w runID items l :
  v_ok w → lists w runID items → Forall node_ok l →
  (∀ node, node ∈ l → node_succeeded w runID (n_key node)) ∨
  ∃ l1 node l2, l = l1 ++ node :: l2 ∧ ¬ node_succeeded w runID (n_key node) ∧
    ∀ k, k ∈ n_key <$> l1 → node_succeeded w runID k.
Proof.
  intros Hok Hl Hnok. induction l as [|node l IH]; [left; by intros ? ?%elem_of_nil|].
  apply Forall_cons in Hnok as [Hn Hnok].
  assert (node_succeeded w runID (n_key node) ∨ ¬ node_succeeded w runID (n_key node)) as [Hs|Hs].
  { destruct (byNode_of items !! n_key node) as [item|] eqn:Hi.
    - apply (lists_byNode w runID) in Hi as (id & x & Hx & ->); [|done|done|by apply nok_key].
      destruct (decide (e_Status x = StatusSucceeded)) as [?|Hne]; [left; by exists id, x|right].
      intros (id' & x' & Hx' & Hs'). destruct Hx as (H1 & H2 & H3), Hx' as (H1' & H2' & H3').
      assert (id' = id) as -> by (eapply law_node_unique; eauto; [congruence|];
        rewrite H3'; by apply nok_key). congruence.
    - right. intros (id & x & Hx & _).
      apply (lists_byNode_None w runID items) with (id := id) (e := x) in Hi; [done|done|done|].
      by apply nok_key. }
  - destruct IH as [IH|(l1 & n & l2 & -> & Hn' & Hl1)]; [done|left|right].
    + by intros n [->|?]%elem_of_cons; auto.
    + exists (node :: l1), n, l2. split_and!; [done..|]. simpl. intros k [->|?]%elem_of_cons; auto.
  - right. exists [], node, l. split_and!; [done..|]. by intros k ?%elem_of_nil.
Qed.

(** An active execution of the run is still there, and active, after the run has been advanced. *)
Lemma active_kept w runID run items visited w' k id x :
  pass_frame w runID run items visited w' → node_exec w runID k id x →
  is_active (e_Status x) = true → node_exec w' runID k id x.
Proof.
  intros [Hf1 Hf2] (Hx & Hr & Hk) Ha. destruct (Hf1 id) as [x' Hx']; [eauto|].
  destruct (Hf2 id x' Hx') as [?|(node & _ & (_ & _ & _ & _ & _ & Hcase))].
  - split; [congruence|done].
  - exfalso. destruct Hcase as [(? & _)|(x0 & Hx0 & Hb & _)]; [congruence|].
    simplify_eq. by rewrite Hb in Ha.
Qed.

(** C9: a run is never stuck: after an open run without failed nodes has been advanced and the mappers of
    the nodes that were due have succeeded (if one fails, the run is stored as failed instead), either all
    its nodes have succeeded and the run is stored as succeeded, or one of its nodes is active (pending,
    waiting for a retry, or running), so that a worker's report will advance it again. As for the scheduling
    of nodes, the run has a registered definition that passed validation and whose task names hold no NUL
    byte, its stored nodes are nodes of it, no other execution uses the idempotency keys of its nodes, and
    nobody else changes the store meanwhile. *)
Theorem advance_never_stuck e w runID run def :
  open_run e w runID run def → ¬ node_failed w runID → mappers_succeed w runID run def →
  ∃ w', Advance e runID w = (inr tt, w') ∧
    ((all_succeeded w runID def ∧ run_set w runID run RunSucceeded w') ∨
     ∃ node id x, node ∈ cd_nodes def ∧ node_exec w' runID (n_key node) id x ∧
       is_active (e_Status x) = true).
Proof.
  intros Hopen Hnf Hmap.
  destruct (Advance_schedules _ _ _ _ _ Hopen Hnf Hmap)
    as (w' & items & Ha & Hl & Hok & Hframe & Hd & Hs & _).
  exists w'. split; [done|]. pose proof (or_nodes _ _ _ _ _ Hopen) as Hnok.
  pose proof (or_ok _ _ _ _ _ Hopen) as Hok0.
  destruct (first_unfinished w runID items (cd_nodes def) Hok0 Hl Hnok)
    as [Hall|(l1 & node & l2 & Heq & Hns & Hl1)]; [left; auto|right].
  assert (node ∈ cd_nodes def) as Hin by (rewrite Heq; set_solver).
  assert (due w runID node → ∃ node id x, node ∈ cd_nodes def ∧
    node_exec w' runID (n_key node) id x ∧ is_active (e_Status x) = true) as Hsched.
  { intros Hdue. destruct (Hd node Hin) as (id & x & Hx & (Hr & Hk & Hp & _)); [by eapply needs_due|].
    exists node, id, x. rewrite Hp. done. }
  assert (∀ d, d ∈ n_dependencies node → node_succeeded w runID d) as Hdeps.
  { intros d Hdep. apply Hl1. by eapply (dependency_before (cd_nodes def) (or_top _ _ _ _ _ Hopen)). }
  assert (n_key node ≠ EmptyString) as Hne by (rewrite Forall_forall in Hnok; by apply nok_key, Hnok).
  destruct (byNode_of items !! n_key node) as [item|] eqn:Hi.
  - apply (lists_byNode w runID) in Hi as (id & x & Hx & ->); [|done..].
    destruct (e_Status x) eqn:Hst.
    + destruct Hx as (Hx & _). by apply (law_status w id x) in Hst.
    + exists node, id, x. split_and!; [done|by eapply active_kept; [..|rewrite Hst]|by rewrite Hst].
    + apply Hsched. split; [done|]. intros id' x' Hx'.
      destruct Hx as (H1 & H2 & H3), Hx' as (H1' & H2' & H3').
      assert (id' = id) as -> by (eapply law_node_unique; eauto; congruence). congruence.
    + exists node, id, x. split_and!; [done|by eapply active_kept; [..|rewrite Hst]|by rewrite Hst].
    + exists node, id, x. split_and!; [done|by eapply active_kept; [..|rewrite Hst]|by rewrite Hst].
    + destruct Hns. by exists id, x.
    + destruct Hnf. exists (n_key node), id, x. auto.
    + destruct Hnf. exists (n_key node), id, x. auto.
  - apply Hsched. split; [done|]. intros id x Hx.
    by apply (lists_byNode_None w runID items) with (id := id) (e := x) in Hi.
Qed.

(** ** Cancellation *)

Definition cancelled (reason : string) (x x' : Execution) : Prop :=
  settled x x' ∧ e_Status x' = StatusCancelled ∧ e_LastError x' = reason ∧
  is_Some (e_FinishedAt x').

(** The active nodes of the run that are not in [rest] have been cancelled. *)
Definition cancel_progress (w0 : W) (runID : UUID) (reason : string) (rest : list UUID) (w : W)
    : Prop :=
  ∀ id,
    match v_execs w0 !! id with
    | None => v_execs w !! id = None
    | Some x =>
        if of_run runID x && is_active (e_Status x) && bool_decide (id ∉ rest)
        then ∃ x', v_execs w !! id = Some x' ∧ cancelled reason x x'
        else v_execs w !! id = Some x
    end.

Definition cancel_inv (w0 : W) (runID : UUID) (reason : string) (l : list Execution) (w : W) : Prop :=
  v_ok w ∧ v_runs w = v_runs w0 ∧ NoDup (e_ID <$> l) ∧
  (∀ item, item ∈ l → ∃ x, v_execs w0 !! e_ID item = Some x ∧ of_run runID x = true ∧
     item = cloneExecution x) ∧
  cancel_progress w0 runID reason (e_ID <$> l) w.

Lemma cancel_progress_step w0 runID reason id x rest w w' x' :
  cancel_progress w0 runID reason (id :: rest) w → v_execs w0 !! id = Some x →
  v_execs w' = <[id := x']> (v_execs w) → cancelled reason x x' →
  of_run runID x = true → is_active (e_Status x) = true → id ∉ rest →
  cancel_progress w0 runID reason rest w'.
Proof.
  intros Hp Hx Hx' Hc Hr Ha Hni id'. specialize (Hp id').
  destruct (decide (id' = id)) as [->|Hne].
  - rewrite Hx, Hr, Ha, bool_decide_true by done. simpl. exists x'. split; [|done].
    rewrite Hx'. apply lookup_insert_eq.
  - rewrite Hx', lookup_insert_ne by done. destruct (v_execs w0 !! id') as [y|]; [|done].
    by rewrite (bool_decide_ext (id' ∉ rest) (id' ∉ id :: rest)) by set_solver.
Qed.

Lemma cancel_progress_skip w0 runID reason id x rest w :
  cancel_progress w0 runID reason (id :: rest) w → v_execs w0 !! id = Some x →
  is_active (e_Status x) = false → cancel_progress w0 runID reason rest w.
Proof.
  intros Hp Hx Ha id'. specialize (Hp id'). destruct (decide (id' = id)) as [->|Hne].
  - rewrite Hx, Ha, andb_false_r in *. done.
  - destruct (v_execs w0 !! id') as [y|]; [|done].
    by rewrite (bool_decide_ext (id' ∉ rest) (id' ∉ id :: rest)) by set_solver.
Qed.

Lemma cancel_loop w0 runID reason l w :
  v_ok w0 → cancel_inv w0 runID reason l w →
  wp (forM_ l (λ item, when (is_active (e_Status item)) (CancelExecution (e_ID item) reason)))
    (λ r w', r = inr tt ∧ cancel_inv w0 runID reason [] w') w.
Proof.
  intros Hok0. apply wp_forM_. intros item l' w1 (Hok & Hr & Hnd & Hitems & Hp).
  simpl in Hnd. apply NoDup_cons in Hnd as [Hni Hnd].
  destruct (Hitems item) as (x & Hx & Hrun & ->); [left|]. simpl in *.
  assert (∀ item, item ∈ l' → ∃ x, v_execs w0 !! e_ID item = Some x ∧ of_run runID x = true ∧
    item = cloneExecution x) as Hitems' by (intros ? ?; apply Hitems; by right).
  apply wp_when; intros Ha.
  - pose proof (Hp (e_ID x)) as Hpx. rewrite Hx in Hpx.
    rewrite (bool_decide_false (e_ID x ∉ _)), andb_false_r in Hpx by set_solver.
    eapply wp_mono; [by apply law_cancel|]. intros r w2 Hc. simpl in Hc. rewrite Hpx in Hc.
    assert (is_terminal (e_Status x) = false) as Ht by (by destruct (e_Status x)).
    rewrite Ht in Hc. destruct Hc as (-> & x' & Hs & Hst & Herr & Hfin & Hok2 & Hr2 & Hx2).
    split; [done|]. split_and!; [done|congruence|done|done|].
    by eapply cancel_progress_step.
  - split; [done|]. split_and!; try done. by eapply cancel_progress_skip.
Qed.

(** Cancelling a run stores it as cancelled, whatever its status was, and cancels exactly its
    pending, waiting and running nodes; every other execution stays as it is, the blocked nodes of the
    run included. *)
Theorem cancel_run e w runID run reason :
  v_ok w → v_runs w !! runID = Some run →
  ∃ w', Cancel e runID reason w = (inr tt, w') ∧ v_ok w' ∧ run_set w runID run RunCancelled w' ∧
    ∀ id, match v_execs w !! id with
          | None => v_execs w' !! id = None
          | Some x =>
              if of_run runID x && is_active (e_Status x)
              then ∃ x', v_execs w' !! id = Some x' ∧ cancelled reason x x'
              else v_execs w' !! id = Some x
          end.
Proof.
  intros Hok Hrun.
  assert (wp (Cancel e runID reason) (λ r w', r = inr tt ∧ v_ok w' ∧
    run_set w runID run RunCancelled w' ∧ cancel_progress w runID reason [] w') w) as Hwp.
  { apply wp_bind. eapply wp_mono; [by apply law_get_run|]. intros r w1 [(Hok1 & Hr1 & Hx1) ->].
    rewrite Hrun. apply wp_bind. eapply wp_mono; [by apply law_list_executions|].
    intros r w2 [(Hok2 & Hr2 & Hx2) (items & -> & Hitems)]. rewrite Hx1 in Hitems.
    assert (cancel_inv w runID reason items w2) as Hinv.
    { split_and!; [done|congruence| | |].
      - rewrite Hitems, <-list_fmap_compose. apply NoDup_values. intros i x Hx.
        exact (law_exec_id w i x Hok Hx).
      - intros item Hin. apply (elem_of_lists w runID) in Hin as (id & x & (Hx & Hr & _) & ->); [|done].
        exists x. simpl. rewrite (law_exec_id _ _ _ Hok Hx). split_and!; try done. by apply of_run_true.
      - intros id. rewrite Hx2, Hx1. destruct (v_execs w !! id) as [x|] eqn:Hx; [|done].
        destruct (of_run runID x) eqn:Hr; [|done]. rewrite bool_decide_false, andb_false_r; [done|].
        intros Hni. apply Hni. rewrite Hitems, <-list_fmap_compose. apply list_elem_of_fmap.
        exists x. split; [symmetry; exact (law_exec_id w id x Hok Hx)|]. apply elem_of_filter_In.
        split; [apply elem_of_values; eauto|done]. }
    apply wp_bind. eapply wp_mono; [by apply (cancel_loop w)|].
    intros r w3 [-> (Hok3 & Hr3 & _ & _ & Hp)]. simpl.
    eapply wp_mono; [by apply law_set_status|]. intros r w4 Hset. simpl in Hset.
    rewrite Hr3, Hrun, Z.eqb_refl in Hset. destruct Hset as (-> & Hok4 & Hx4 & t & Hr4).
    split_and!; try done; [by exists t, reason|]. intros id. specialize (Hp id). by rewrite Hx4. }
  destruct (Cancel e runID reason w) as [r w'] eqn:Hc.
  destruct (wp_elim _ _ _ _ _ Hwp Hc) as (-> & Hok' & Hset & Hp).
  exists w'. split_and!; try done. intros id. specialize (Hp id).
  destruct (v_execs w !! id) as [x|]; [|done].
  rewrite bool_decide_true, andb_true_r in Hp by set_solver. done.
Qed.
End Engine.
