(* ===== verification/EngineWitness.v ===== *)
(** * The engine's properties on concrete runs of the in-memory store *)

From S2P Require Import Prelude GoLib Model Memory MemoryInv MemoryOps MemoryLists.
From S2P Require Import MemoryProps2 Task TaskRegistry Pipeline Engine StoreLaws EngineLemmas.
From S2P Require Import EngineAdvance PipelineProps EngineProps Demo.

Definition demo_compiled : compiledDefinition := mkCompiled "p" 1 demo_nodes.
Definition demo_engine : Engine := mkEngine (mkPipelineRegistry {[registryKey "p" 1 := demo_compiled]}).

(** A new run, and a run whose first node has failed. *)
Definition ops_new_run : list Op :=
  [OpCreatePipelineRun (mkCreatePipelineRun "p" 1 (Some "true") EmptyString)].
Definition ops_failed_node : list Op :=
  ops_new_run ++
  [OpCreateExecution (node_request 2%N (demo_node_of "a" []) (Some "true"));
   OpClaim "w1" [mkTaskKey "not" 1] 1 5; OpFail 4%N 9%N "boom"].

Abbreviation run_of ops :=
  (default (new_run (mkCreatePipelineRun "p" 1 None EmptyString) 0%N 0)
     (m_runs (mem (run_ops ops)) !! 2%N)).

Lemma demo_nodes_ok : Forall node_ok demo_nodes.
Proof. repeat (constructor; [split; try done; repeat (split; [done|]); vm_compute; done|]). constructor. Qed.

Lemma no_executions id e : m_executions (mem (run_ops ops_new_run)) !! id = Some e → False.
Proof. vm_compute. by destruct id. Qed.

Lemma new_run_open : open_run (W := World) demo_engine (run_ops ops_new_run) 2%N (run_of ops_new_run) demo_compiled.
Proof.
  split.
  - apply reachable_Inv, run_ops_reachable. repeat constructor.
  - vm_compute. done.
  - vm_compute. done.
  - vm_compute. done.
  - apply demo_nodes_topological.
  - apply demo_nodes_ok.
  - apply Forall_forall. intros node _ id e He. by apply no_executions in He.
  - intros k id x [Hx _]. by apply no_executions in Hx.
Qed.

Lemma demo_mappers w run :
  mappers_succeed (W := World) w 2%N run demo_compiled.
Proof.
  intros items node _ Hin _. exists (cloneJSON (r_Input run)).
  repeat (apply elem_of_cons in Hin as [->|Hin]; [done|]). by apply elem_of_nil in Hin.
Qed.

Lemma advance_schedules_due_witness :
  ∃ w', Advance demo_engine 2%N (run_ops ops_new_run) = (inr tt, w').
Proof.
  destruct (advance_schedules_due demo_engine (run_ops ops_new_run) 2%N (run_of ops_new_run)
    demo_compiled) as (w' & items & Ha & _).
  - apply new_run_open.
  - intros (k & id & x & [Hx _] & _). by apply no_executions in Hx.
  - apply demo_mappers.
  - exists w'. exact Ha.
Defined.

Lemma advance_never_stuck_witness :
  ∃ w', Advance demo_engine 2%N (run_ops ops_new_run) = (inr tt, w').
Proof.
  destruct (advance_never_stuck demo_engine (run_ops ops_new_run) 2%N (run_of ops_new_run)
    demo_compiled) as (w' & Ha & _).
  - apply new_run_open.
  - intros (k & id & x & [Hx _] & _). by apply no_executions in Hx.
  - apply demo_mappers.
  - exists w'. exact Ha.
Defined.

Lemma failed_executions id e :
  m_executions (mem (run_ops ops_failed_node)) !! id = Some e →
  id = 4%N ∧ e = default zeroExecution (m_executions (mem (run_ops ops_failed_node)) !! 4%N).
Proof.
  assert (m_executions (mem (run_ops ops_failed_node)) =
    {[4%N := default zeroExecution (m_executions (mem (run_ops ops_failed_node)) !! 4%N)]}) as Heq
    by (vm_compute; done).
  rewrite Heq at 1. intros [<- <-]%lookup_singleton_Some. done.
Qed.

Lemma failed_run_open : open_run (W := World) demo_engine (run_ops ops_failed_node) 2%N (run_of ops_failed_node) demo_compiled.
Proof.
  split.
  - apply reachable_Inv, run_ops_reachable. repeat constructor. vm_compute. done.
  - vm_compute. done.
  - vm_compute. done.
  - vm_compute. done.
  - apply demo_nodes_topological.
  - apply demo_nodes_ok.
  - apply Forall_forall. intros node Hin id e [-> ->]%failed_executions _ Heq.
    split; [vm_compute; done|].
    repeat (apply elem_of_cons in Hin as [->|Hin]; [revert Heq; vm_compute; done|]).
    by apply elem_of_nil in Hin.
  - intros k id x [[-> ->]%failed_executions [_ <-]]. apply list_elem_of_here.
Qed.

Lemma advance_failed_run_witness :
  ∃ w', Advance demo_engine 2%N (run_ops ops_failed_node) = (inr tt, w').
Proof.
  destruct (advance_failed_run demo_engine (run_ops ops_failed_node) 2%N (run_of ops_failed_node)
    demo_compiled) as [(w' & Ha & _) _].
  - apply failed_run_open.
  - exists "a", 4%N, (default zeroExecution (m_executions (mem (run_ops ops_failed_node)) !! 4%N)).
    split; [split_and!; vm_compute; done|]. left. vm_compute. done.
  - exists w'. exact Ha.
Defined.

Lemma cancel_run_witness :
  ∃ w', Cancel demo_engine 2%N "stop" (run_ops ops_failed_node) = (inr tt, w').
Proof.
  destruct (cancel_run demo_engine (run_ops ops_failed_node) 2%N (run_of ops_failed_node) "stop")
    as (w' & Hc & _).
  - apply (or_ok _ _ _ _ _ failed_run_open).
  - vm_compute. done.
  - exists w'. exact Hc.
Defined.
