(* ===== verification/Schedule.v ===== *)
(** * The cron scheduler (src/schedule/schedule.go)

    Cron ticks become ordinary executions and runs, under an idempotency key made of the name of the
    schedule and the instant of the tick.  The cron expressions are parsed by a library that is not part
    of the program: the parser is a parameter, and a parsed schedule is its [Next] function. *)

From S2P Require Import Prelude GoLib GoText Model Task TaskRegistry Pipeline Engine.

(** ** Options *)

(** The policies are named strings. *)
Definition MisfireSkip : string := "skip".
Definition MisfireLatest : string := "latest".
Definition MisfireCatchUp : string := "catch_up".
Definition OverlapAllow : string := "allow".
Definition OverlapSkip : string := "skip".

(** [location] is the name of the time zone, [None] the nil pointer. *)
Record definitionOptions := mkOptions {
  o_location : option string;
  o_misfire : string;
  o_overlap : string;
  o_lookback : Duration;
  o_maxCatchUp : Z;
}.

Definition WithLocation (location : option string) : option (definitionOptions → definitionOptions) :=
  Some (λ o, mkOptions location (o_misfire o) (o_overlap o) (o_lookback o) (o_maxCatchUp o)).
Definition WithMisfire (policy : string) (lookback : Duration) (maxCatchUp : Z)
    : option (definitionOptions → definitionOptions) :=
  Some (λ o, mkOptions (o_location o) policy (o_overlap o) lookback maxCatchUp).
Definition WithOverlap (policy : string) : option (definitionOptions → definitionOptions) :=
  Some (λ o, mkOptions (o_location o) (o_misfire o) policy (o_lookback o) (o_maxCatchUp o)).

(** A parsed schedule is the method [Next] of [cron.Schedule]. *)
Abbreviation CronSchedule := (Time → Time).

(** The part of a store that the scheduler uses. *)
Class ScheduleStore (W : Type) := {
  schedule_persistence :: Persistence W;
  ListExecutions : ListFilter → M W (list Execution);
}.

(** ** The occurrences of a schedule *)

Fixpoint occurrences_loop (schedule : CronSchedule) (through : Time) (limit : nat) (next : Time)
    : list Time :=
  match limit with
  | O => []
  | S limit' =>
      if After next through then []
      else next :: occurrences_loop schedule through limit' (schedule next)
  end.

Definition occurrences (schedule : CronSchedule) (after through : Time) (limit : Z) : list Time :=
  let limit := if (limit <=? 0)%Z then 100%Z else limit in
  occurrences_loop schedule through (Z.to_nat limit) (schedule after).

(** [due[len(due)-1:]] when there is more than one. *)
Definition last_only (due : list Time) : list Time :=
  if (1 <? length due)%nat then drop (length due - 1) due else due.

Section Scheduler.
Context `{E : GoEnv} {W : Type} `{!ScheduleStore W}.
Context (parse : string → error + CronSchedule).

Record ScheduleDefinition := mkScheduleDefinition {
  sd_name : string;
  sd_schedule : CronSchedule;
  sd_options : definitionOptions;
  sd_trigger : option (option Engine → Time → string → M W unit);
  sd_isActive : M W bool;
}.

Definition newDefinition (name expression : string)
    (options : list (option (definitionOptions → definitionOptions)))
    : error + (string * CronSchedule * definitionOptions) :=
  let name := TrimSpace name in
  if bool_decide (name = EmptyString) then inl (errorString "schedule name is empty") else
  let configured := apply_options options
    (mkOptions (Some "UTC") MisfireSkip OverlapAllow 0 100) in
  match o_location configured with
  | None => inl (errorString "schedule location is nil")
  | Some location =>
      match parse ("CRON_TZ=" +:+ location +:+ " " +:+ expression) with
      | inl err => inl (fmtError "parse schedule %q: %w" [name] (Some err) [])
      | inr parsed => inr (name, parsed, configured)
      end
  end.

(** The statuses are tried in turn; an error or a hit ends the search. *)
Fixpoint task_active (taskName : string) (statuses : list Status) : M W bool :=
  match statuses with
  | [] => mret false
  | status :: statuses' =>
      items ← ListExecutions (mkListFilter taskName (Status_string status) None 1 None);
      match items with [] => task_active taskName statuses' | _ => mret true end
  end.

Definition ScheduleTask {I O} `{!Codec I} (name expression : string) (definition : Definition_ I O)
    (input : option (Time → I)) (options : list (option (definitionOptions → definitionOptions)))
    : error + ScheduleDefinition :=
  match input with
  | None => inl (errorString "schedule task input factory is nil")
  | Some input =>
      match newDefinition name expression options with
      | inl err => inl err
      | inr (name, schedule, configured) =>
          inr (mkScheduleDefinition name schedule configured
            (Some (λ _ scheduledAt key,
               _ ← Enqueue definition (Some CreateExecution) (input scheduledAt)
                     [WithIdempotencyKey key];
               mret tt))
            (task_active (Name definition) [StatusPending; StatusRetry; StatusRunning]))
      end
  end.

Definition SchedulePipeline {P} `{!Codec P} (name expression : string)
    (definition : option (PipelineDefinition P)) (input : option (Time → P))
    (options : list (option (definitionOptions → definitionOptions))) : error + ScheduleDefinition :=
  match definition, input with
  | Some pipeline, Some input =>
      match newDefinition name expression options with
      | inl err => inl err
      | inr (name, schedule, configured) =>
          inr (mkScheduleDefinition name schedule configured
            (Some (λ engine scheduledAt key,
               match engine with
               | None => throw (errorString "pipeline scheduler requires pipeline engine")
               | Some engine =>
                   _ ← Run (Some engine) definition (input scheduledAt) [WithRunIdempotencyKey key];
                   mret tt
               end))
            (runs ← ListPipelineRuns
                      (mkRunFilter [RunStatus_string RunPending; RunStatus_string RunRunning] 0 None);
             mret (existsb (λ run, bool_decide (r_PipelineName run = pd_name pipeline)
                                   && (r_PipelineVersion run =? pd_version pipeline)%Z) runs)))
      end
  | _, _ => inl (errorString "schedule pipeline definition and input factory are required")
  end.

(** ** The scheduler *)

(** The state: the store, the next instants by schedule, and the calls of the observer. *)
Record SchedulerState := mkSchedulerState {
  sc_store : W;
  sc_next : gmap string Time;
  sc_triggered : list (string * Time * option error);
}.

Record Scheduler := mkScheduler {
  sc_engine : option Engine;
  sc_definitions : list ScheduleDefinition;
  sc_PollInterval : Duration;
}.

Fixpoint check_definitions (seen : gset string) (l : list ScheduleDefinition) : option error :=
  match l with
  | [] => None
  | d :: l' =>
      if bool_decide (sd_name d = EmptyString) || is_nil (sd_trigger d)
      then Some (errorString "invalid schedule definition") else
      if bool_decide (sd_name d ∈ seen)
      then Some (fmt_Errorf "duplicate schedule %q" [sd_name d])
      else check_definitions ({[sd_name d]} ∪ seen) l'
  end.

Definition NewScheduler (store : option W) (engine : option Engine) (l : list ScheduleDefinition)
    (pollInterval : Duration) : error + (Scheduler * SchedulerState) :=
  match store with
  | None => inl (errorString "schedule store is nil")
  | Some w =>
      match check_definitions ∅ l with
      | Some err => inl err
      | None =>
          inr (mkScheduler engine l (if (pollInterval <=? 0)%Z then Second else pollInterval),
               mkSchedulerState w ∅ [])
      end
  end.

Abbreviation MS := (M SchedulerState).

Definition on_store {A} (m : M W A) : MS A := λ s,
  let '(r, w) := m (sc_store s) in (r, mkSchedulerState w (sc_next s) (sc_triggered s)).

Definition Triggered (name : string) (scheduledAt : Time) (err : option error) : MS unit := λ s,
  (inr tt, mkSchedulerState (sc_store s) (sc_next s) (sc_triggered s ++ [(name, scheduledAt, err)])).

Definition set_next (name : string) (t : Time) : MS unit := λ s,
  (inr tt, mkSchedulerState (sc_store s) (<[name := t]> (sc_next s)) (sc_triggered s)).

Definition tick_key (name : string) (scheduledAt : Time) : string :=
  "schedule:" +:+ name +:+ ":" +:+ format_RFC3339Nano scheduledAt.

(** The trigger of a checked definition is not nil; a nil trigger would panic. *)
Definition call_trigger (s : Scheduler) (definition : ScheduleDefinition) (scheduledAt : Time)
    : MS unit :=
  match sd_trigger definition with
  | Some trigger =>
      on_store (trigger (sc_engine s) scheduledAt (tick_key (sd_name definition) scheduledAt))
  | None => throw (errorString "invalid memory address or nil pointer dereference")
  end.

Definition fire (s : Scheduler) (definition : ScheduleDefinition) (scheduledAt : Time) : MS unit :=
  blocked ← (if bool_decide (o_overlap (sd_options definition) = OverlapSkip) then
               r ← try (on_store (sd_isActive definition));
               mret match r with inl err => Some (Some err) | inr true => Some None
                                 | inr false => None end
             else mret None);
  match blocked with
  | Some err => Triggered (sd_name definition) scheduledAt err
  | None =>
      r ← try (call_trigger s definition scheduledAt);
      Triggered (sd_name definition) scheduledAt (error_of r)
  end.

Definition initial_due (definition : ScheduleDefinition) (now : Time) : list Time :=
  let o := sd_options definition in
  if (0 <? o_lookback o)%Z && negb (bool_decide (o_misfire o = MisfireSkip)) then
    let due := occurrences (sd_schedule definition) (Add now (- o_lookback o)) now (o_maxCatchUp o) in
    if bool_decide (o_misfire o = MisfireLatest) then last_only due else due
  else [].

Definition initialize (s : Scheduler) (now : Time) : MS unit :=
  forM_ (sc_definitions s) (λ definition,
    _ ← forM_ (initial_due definition now) (fire s definition);
    set_next (sd_name definition) (sd_schedule definition now)).

Definition tick_due (definition : ScheduleDefinition) (next now : Time) : list Time :=
  let o := sd_options definition in
  let due := occurrences (sd_schedule definition) (Add next (- Nanosecond)) now (o_maxCatchUp o) in
  if bool_decide (o_misfire o = MisfireLatest) || bool_decide (o_misfire o = MisfireSkip)
  then last_only due else due.

(** A missing entry of the map is the zero instant. *)
Definition tick (s : Scheduler) (now : Time) : MS unit :=
  forM_ (sc_definitions s) (λ definition,
    next ← gets (λ st, default 0%Z (sc_next st !! sd_name definition));
    if After next now then mret tt else
    _ ← forM_ (tick_due definition next now) (fire s definition);
    set_next (sd_name definition) (sd_schedule definition now)).

(** [Run] until the context ends: the instants the ticker delivers, then the context's error. *)
Definition Scheduler_Run (s : Scheduler) (start : Time) (instants : list Time) (ctxErr : error)
    : MS unit :=
  _ ← initialize s start;
  _ ← forM_ instants (tick s);
  throw ctxErr.
End Scheduler.
