(* ===== verification/ScheduleProps.v ===== *)
(** * Properties of the scheduler *)

From S2P Require Import Prelude GoLib Model Memory MemoryInv MemoryOps MemoryLists MemoryProps.
From S2P Require Import MemoryProps2 Task TaskRegistry TaskProps Pipeline Engine StoreLaws.
From S2P Require Import EngineProps Schedule Demo.

(** What [Next] of a cron schedule promises: the first tick after an instant. *)
Class CronOk (is_tick : Time → Prop) (Next : CronSchedule) : Prop := {
  next_tick : ∀ t, is_tick (Next t);
  next_after : ∀ t, (t < Next t)%Z;
  next_first : ∀ t u, is_tick u → (t < u)%Z → (Next t ≤ u)%Z;
}.

(** A schedule that ticks at the multiples of a period. *)
Definition every (period : Duration) : CronSchedule := λ t, ((t / period + 1) * period)%Z.

Lemma every_ok period : (0 < period)%Z → CronOk (λ t, t mod period = 0)%Z (every period).
Proof.
  intros Hp. split; unfold every.
  - intros t. apply Z.mod_mul. lia.
  - intros t. pose proof (Z.mod_pos_bound t period). pose proof (Z.div_mod t period). lia.
  - intros t u Hu Hlt. pose proof (Z.div_mod u period). pose proof (Z.mod_pos_bound t period).
    pose proof (Z.div_mod t period). assert (t / period < u / period)%Z by nia. nia.
Qed.

Section Occurrences.
Context (is_tick : Time → Prop) (Next : CronSchedule) `{!CronOk is_tick Next}.

(** The list holds the ticks after [after] up to [through], from the first on, in order. *)
Definition first_ticks (after through : Time) (l : list Time) : Prop :=
  (∀ x, x ∈ l → is_tick x ∧ (after < x ≤ through)%Z) ∧ StronglySorted Z.lt l ∧
  (∀ x, is_tick x → (after < x ≤ through)%Z → x ∉ l → ∀ y, y ∈ l → (y < x)%Z).

(** The list holds all of them. *)
Definition all_ticks (after through : Time) (l : list Time) : Prop :=
  StronglySorted Z.lt l ∧ ∀ x, x ∈ l ↔ is_tick x ∧ (after < x ≤ through)%Z.

Lemma first_ticks_nil after through : first_ticks after through [].
Proof. split_and!; [by intros x ?%elem_of_nil|constructor|by intros x _ _ _ y ?%elem_of_nil]. Qed.

Lemma occurrences_loop_spec through limit after :
  let l := occurrences_loop Next through limit (Next after) in
  first_ticks after through l ∧ length l ≤ limit ∧
  (length l < limit → ∀ x, is_tick x → (after < x ≤ through)%Z → x ∈ l).
Proof.
  revert after. induction limit as [|limit IH]; intros after; simpl.
  - split; [apply first_ticks_nil|]. split; [done|lia].
  - unfold After. pose proof (next_after (is_tick := is_tick) after) as Hgt.
    pose proof (next_tick after) as Ht. destruct (Z.ltb_spec through (Next after)) as [Hout|Hin].
    + assert (∀ x, is_tick x → (after < x ≤ through)%Z → False) as Hno.
      { intros x Hx Hr. pose proof (next_first after x Hx). lia. }
      split; [apply first_ticks_nil|]. split; [simpl; lia|].
      intros _ x Hx Hr. by destruct (Hno x).
    + destruct (IH (Next after)) as ((H1 & H2 & H3) & Hlen & Hall).
      set (l := occurrences_loop Next through limit (Next (Next after))) in *.
      split; [split_and!|split].
      * intros x [->|Hx]%elem_of_cons; [split; [done|lia]|]. destruct (H1 x Hx). split; [done|lia].
      * constructor; [done|]. rewrite Forall_forall. intros x Hx. by destruct (H1 x Hx) as [_ [? _]].
      * intros x Hx Hr Hni y Hy. pose proof (next_first after x Hx ltac:(lia)).
        assert (x ≠ Next after) by (intros ->; apply Hni; left).
        apply elem_of_cons in Hy as [->|Hy]; [lia|].
        apply (H3 x Hx); [lia| |done]. intros ?. apply Hni. by right.
      * simpl. lia.
      * simpl. intros Hl x Hx Hr. pose proof (next_first after x Hx ltac:(lia)).
        destruct (decide (x = Next after)) as [->|Hne]; [left|right].
        apply Hall; [lia|done|lia].
Qed.

(** The limit as the code applies it. *)
Definition effective_limit (limit : Z) : nat := Z.to_nat (if (limit <=? 0)%Z then 100%Z else limit).

Lemma occurrences_spec after through limit :
  first_ticks after through (occurrences Next after through limit) ∧
  length (occurrences Next after through limit) ≤ effective_limit limit ∧
  (length (occurrences Next after through limit) < effective_limit limit →
     all_ticks after through (occurrences Next after through limit)).
Proof.
  destruct (occurrences_loop_spec through (effective_limit limit) after) as (H1 & H2 & H3).
  split_and!; [done..|]. intros Hl. destruct H1 as (Hin & Hs & _). split; [done|].
  intros x. split; [apply Hin|]. intros [? ?]. by apply H3.
Qed.

(** The tick that is due is the first occurrence from just before it on. *)
Lemma occurrences_from_tick p through limit :
  occurrences Next (Add (Next p) (- Nanosecond)) through limit = occurrences Next p through limit.
Proof.
  assert (Next (Add (Next p) (- Nanosecond)) = Next p) as Heq; [|unfold occurrences; by rewrite Heq].
  set (q := Add (Next p) (- Nanosecond)).
  assert (q = Next p - 1)%Z as Hq by (unfold q, Add, Nanosecond; lia).
  pose proof (next_after (is_tick := is_tick) q).
  pose proof (next_first (is_tick := is_tick) q (Next p) (next_tick p) ltac:(lia)). lia.
Qed.

Lemma occurrences_empty p through limit :
  (through < Next p)%Z → occurrences Next p through limit = [].
Proof.
  intros Hlt. unfold occurrences, occurrences_loop. destruct (Z.to_nat _); [done|].
  unfold After. by rewrite (proj2 (Z.ltb_lt _ _) Hlt).
Qed.

Lemma Next_unchanged p now : (p ≤ now)%Z → (now < Next p)%Z → Next now = Next p.
Proof.
  intros Hle Hlt. pose proof (next_first (is_tick := is_tick) now (Next p) (next_tick p) Hlt).
  pose proof (next_first (is_tick := is_tick) p (Next now) (next_tick now)).
  pose proof (next_after (is_tick := is_tick) now). lia.
Qed.

(** Adjacent intervals. *)
Lemma all_ticks_app a b c l k :
  (a ≤ b ≤ c)%Z → all_ticks a b l → all_ticks b c k → all_ticks a c (l ++ k).
Proof.
  intros Habc [Hs Hl] [Hs' Hk]. split.
  - apply StronglySorted_app_1; [done..|]. intros x y [_ ?]%Hl [_ ?]%Hk. lia.
  - intros x. rewrite elem_of_app, Hl, Hk. split; [intros [[? ?]|[? ?]]; (split; [done|lia])|].
    intros [? ?]. destruct (decide (x ≤ b)%Z); [left|right]; (split; [done|lia]).
Qed.
End Occurrences.

(** The occurrences a poll collects are cron ticks of the interval, in order and each once,
    and there are at most [limit] of them (100 by default): all the ticks of the interval when there are
    fewer, the earliest ones otherwise. *)
Theorem occurrences_exact is_tick Next after through limit :
  CronOk is_tick Next →
  let l := occurrences Next after through limit in
  first_ticks is_tick after through l ∧ length l ≤ effective_limit limit ∧
  (length l < effective_limit limit → all_ticks is_tick after through l).
Proof. intros Hcron. by apply occurrences_spec. Qed.

(** ** What the scheduler fires *)

Section Firing.
Context `{E : GoEnv} {W : Type} `{!ScheduleStore W}.
Implicit Types (st : SchedulerState (W := W)) (d : ScheduleDefinition (W := W)).

(** The instants for which a schedule was reported, in order. *)
Definition fired (name : string) st : list Time :=
  omap (λ '(n, t, _), if decide (n = name) then Some t else None) (sc_triggered st).

(** The next instant of a schedule. *)
Definition next_of (name : string) st : Time := default 0%Z (sc_next st !! name).

Lemma fired_app name st l :
  omap (λ '(n, t, _), if decide (n = name) then Some t else None) (sc_triggered st ++ l) =
  fired name st ++ omap (λ '(n, t, _), if decide (n = name) then Some t else None) l.
Proof. unfold fired. by rewrite omap_app. Qed.

(** A call of [fire] always returns, reports once, and leaves the next instants alone. *)
Lemma fire_reports s d t st :
  wp (fire s d t) (λ r st', r = inr tt ∧ sc_next st' = sc_next st ∧
    ∀ name, fired name st' = fired name st ++ (if decide (sd_name d = name) then [t] else [])) st.
Proof.
  assert (∀ err st1, sc_triggered st1 = sc_triggered st → sc_next st1 = sc_next st →
    wp (Triggered (sd_name d) t err) (λ r st', r = inr tt ∧ sc_next st' = sc_next st ∧
      ∀ name, fired name st' = fired name st ++ (if decide (sd_name d = name) then [t] else [])) st1)
    as Htrig.
  { intros err st1 Hl Hn. split_and!; [done|done|]. intros name. unfold fired at 1, Triggered. simpl.
    rewrite Hl, fired_app. simpl. by destruct (decide (sd_name d = name)). }
  assert (∀ st1, sc_triggered st1 = sc_triggered st → sc_next st1 = sc_next st →
    wp (r ← try (call_trigger s d t); Triggered (sd_name d) t (error_of r))
      (λ r st', r = inr tt ∧ sc_next st' = sc_next st ∧
        ∀ name, fired name st' = fired name st ++ (if decide (sd_name d = name) then [t] else [])) st1)
    as Hcall.
  { intros st1 Hl Hn. apply wp_bind, wp_try. unfold call_trigger.
    destruct (sd_trigger d) as [trigger|]; [|by apply wp_throw, Htrig].
    unfold wp at 1, on_store. destruct (trigger _ _ _ (sc_store st1)) as [r w']. by apply Htrig. }
  unfold fire. apply wp_bind. case_bool_decide.
  - apply wp_bind, wp_try. unfold wp at 1, on_store.
    destruct (sd_isActive d (sc_store st)) as [[err|[]] w']; apply wp_ret;
      [by apply Htrig|by apply Htrig|by apply Hcall].
  - apply wp_ret. by apply Hcall.
Qed.

Lemma fires_report s d l st :
  wp (forM_ l (fire s d)) (λ r st', r = inr tt ∧ sc_next st' = sc_next st ∧
    ∀ name, fired name st' = fired name st ++ (if decide (sd_name d = name) then l else [])) st.
Proof.
  revert st. induction l as [|t l IH]; intros st; simpl.
  - apply wp_ret. split_and!; [done..|]. intros name. destruct (decide _); by rewrite app_nil_r.
  - apply wp_bind. eapply wp_mono; [apply fire_reports|]. intros r st1 (-> & Hn1 & Hf1).
    eapply wp_mono; [apply IH|]. intros r st2 (-> & Hn2 & Hf2).
    split_and!; [done|congruence|]. intros name. rewrite Hf2, Hf1, <-app_assoc.
    by destruct (decide (sd_name d = name)).
Qed.

(** One poll, as it concerns one schedule. *)
Definition poll (d : ScheduleDefinition (W := W)) (now : Time) (state : Time * list Time)
    : Time * list Time :=
  let '(next, l) := state in
  if After next now then (next, l) else (sd_schedule d now, l ++ tick_due d next now).

Definition view d st : Time * list Time :=
  (next_of (sd_name d) st, fired (sd_name d) st).

(** The body of the loop of [tick] for the schedule [d]. *)
Lemma tick_one s d now st :
  wp (next ← gets (λ st, default 0%Z (sc_next st !! sd_name d));
      if After next now then mret tt else
      _ ← forM_ (tick_due d next now) (fire s d);
      set_next (sd_name d) (sd_schedule d now))
    (λ r st', r = inr tt ∧ view d st' = poll d now (view d st) ∧
       ∀ d', sd_name d' ≠ sd_name d → view d' st' = view d' st) st.
Proof.
  apply wp_bind, wp_gets. simpl. unfold view, poll, next_of.
  destruct (After (default 0%Z (sc_next st !! sd_name d)) now); [by apply wp_ret|].
  apply wp_bind. eapply wp_mono; [apply fires_report|]. intros r st1 (-> & Hn & Hf).
  unfold wp, set_next. simpl. split_and!; [done| |].
  - rewrite lookup_insert_eq. f_equal. unfold fired in *. simpl. rewrite Hf. by rewrite decide_True.
  - intros d' Hne. rewrite lookup_insert_ne by done. rewrite Hn. f_equal. unfold fired in *. simpl.
    rewrite Hf, decide_False by done. by rewrite app_nil_r.
Qed.

Lemma tick_views s now l st :
  NoDup (sd_name <$> l) →
  wp (forM_ l (λ definition,
        next ← gets (λ st, default 0%Z (sc_next st !! sd_name definition));
        if After next now then mret tt else
        _ ← forM_ (tick_due definition next now) (fire s definition);
        set_next (sd_name definition) (sd_schedule definition now)))
    (λ r st', r = inr tt ∧ (∀ d, d ∈ l → view d st' = poll d now (view d st)) ∧
       (∀ d, sd_name d ∉ sd_name <$> l → view d st' = view d st)) st.
Proof.
  revert st. induction l as [|d l IH]; intros st Hnd; simpl.
  { apply wp_ret. split_and!; [done| |done]. by intros d ?%elem_of_nil. }
  simpl in Hnd. apply NoDup_cons in Hnd as [Hni Hnd].
  apply wp_bind. eapply wp_mono; [apply tick_one|]. intros r st1 (-> & Hd & Hother).
  eapply wp_mono; [by apply IH|]. intros r st2 (-> & Hl & Hrest). split_and!; [done| |].
  - intros d' [->|Hin]%elem_of_cons; [by rewrite Hrest|]. rewrite Hl by done.
    rewrite Hother; [done|]. intros Heq. destruct Hni. rewrite <-Heq. by apply list_elem_of_fmap_2.
  - intros d' Hn. rewrite Hrest, Hother; [done|..]; set_solver.
Qed.

Lemma ticks_views s instants st d :
  NoDup (sd_name <$> sc_definitions s) → d ∈ sc_definitions s →
  wp (forM_ instants (tick s))
    (λ r st', r = inr tt ∧ view d st' = foldl (λ state now, poll d now state) (view d st) instants) st.
Proof.
  intros Hnd Hd. revert st. induction instants as [|now instants IH]; intros st; simpl;
    [by apply wp_ret|].
  apply wp_bind. eapply wp_mono; [by apply tick_views|]. intros r st1 (-> & Hv & _).
  eapply wp_mono; [apply IH|]. intros r st2 [-> Hv2]. split; [done|]. by rewrite Hv2, Hv.
Qed.
End Firing.

Section CatchUp.
Context `{E : GoEnv} {W : Type} `{!ScheduleStore W}.
Context (is_tick : Time → Prop) (d : ScheduleDefinition (W := W)).
Context `{!CronOk is_tick (sd_schedule d)}.

Abbreviation limit_of := (o_maxCatchUp (sd_options d)).

(** The polls follow each other, and fewer ticks than the limit lie between two of them. *)
Fixpoint polls_ok (start : Time) (instants : list Time) : Prop :=
  match instants with
  | [] => True
  | now :: instants' =>
      (start ≤ now)%Z ∧
      length (occurrences (sd_schedule d) start now limit_of) < effective_limit limit_of ∧
      polls_ok now instants'
  end.

Lemma all_ticks_nil t : all_ticks is_tick t t [].
Proof.
  split; [constructor|]. intros x. split; [by intros ?%elem_of_nil|]. intros [_ ?]. lia.
Qed.

Lemma poll_next start now l :
  (start ≤ now)%Z → o_misfire (sd_options d) = MisfireCatchUp →
  poll d now (sd_schedule d start, l) =
  (sd_schedule d now, l ++ occurrences (sd_schedule d) start now limit_of).
Proof.
  intros Hle Hm. unfold poll, After. destruct (Z.ltb_spec now (sd_schedule d start)) as [Hlt|Hge].
  - rewrite (Next_unchanged is_tick (sd_schedule d) start now) by done.
    by rewrite occurrences_empty, app_nil_r.
  - do 2 f_equal. unfold tick_due. rewrite Hm. simpl. by apply (occurrences_from_tick is_tick).
Qed.

(** The last poll. *)
Fixpoint end_of (start : Time) (instants : list Time) : Time :=
  match instants with [] => start | now :: instants' => end_of now instants' end.

Lemma end_after start instants : polls_ok start instants → (start ≤ end_of start instants)%Z.
Proof.
  revert start. induction instants as [|now instants IH]; intros start; simpl; [done|].
  intros (Hle & _ & Hok). specialize (IH now Hok). lia.
Qed.

Lemma polls_all start instants l :
  o_misfire (sd_options d) = MisfireCatchUp → polls_ok start instants →
  ∃ l', foldl (λ state now, poll d now state) (sd_schedule d start, l) instants =
    (sd_schedule d (end_of start instants), l ++ l') ∧
    all_ticks is_tick start (end_of start instants) l'.
Proof.
  intros Hm. revert start l. induction instants as [|now instants IH]; intros start l Hok;
    cbn [foldl end_of].
  - exists []. rewrite app_nil_r. split; [done|apply all_ticks_nil].
  - destruct Hok as (Hle & Hlim & Hok). rewrite poll_next by done.
    destruct (IH now (l ++ occurrences (sd_schedule d) start now limit_of) Hok) as (l' & -> & Hall).
    rewrite <-app_assoc. eexists. split; [done|].
    pose proof (end_after _ _ Hok). eapply all_ticks_app; [|by apply occurrences_spec|done]. lia.
Qed.
End CatchUp.

(** ** The work of a tick *)

(** [done t] says of a store that the work of the tick [t] of the schedule [d] was started. *)
Section Work.
Context `{E : GoEnv} {W : Type} `{!ScheduleStore W} (P : W → Prop) (done : Time → W → Prop).
Context (s : Scheduler (W := W)) (d : ScheduleDefinition (W := W)).
Implicit Types (st : SchedulerState (W := W)).

(** A computation keeps the store in order and undoes no such work. *)
Definition retains {A} (m : M W A) : Prop :=
  ∀ w, P w → wp m (λ _ w', P w' ∧ ∀ t, done t w → done t w') w.

Definition definition_retains (d' : ScheduleDefinition (W := W)) : Prop :=
  retains (sd_isActive d') ∧
  ∀ trigger t, sd_trigger d' = Some trigger →
    retains (trigger (sc_engine s) t (tick_key (sd_name d') t)).

Context (Hothers : ∀ d', d' ∈ sc_definitions s → definition_retains d').
Context (Hnames : ∀ d', d' ∈ sc_definitions s → sd_name d' = sd_name d → d' = d).
Context (Hallow : o_overlap (sd_options d) ≠ OverlapSkip).
(** The trigger of [d] starts the work. *)
Context (Hwork : ∀ t st, P (sc_store st) → wp (call_trigger s d t) (λ _ st', done t (sc_store st')) st).

(** The ticks reported since [l0] were started. *)
Definition started (l0 : list Time) st : Prop :=
  P (sc_store st) ∧ ∃ l, fired (sd_name d) st = l0 ++ l ∧ Forall (λ t, done t (sc_store st)) l.

Lemma fire_retains d' t st :
  definition_retains d' → P (sc_store st) →
  wp (fire s d' t) (λ _ st', P (sc_store st') ∧ ∀ u, done u (sc_store st) → done u (sc_store st')) st.
Proof.
  intros [Hact Htrig] Hp.
  assert (∀ st1, P (sc_store st1) → (∀ u, done u (sc_store st) → done u (sc_store st1)) →
    wp (r ← try (call_trigger s d' t); Triggered (sd_name d') t (error_of r))
      (λ _ st', P (sc_store st') ∧ ∀ u, done u (sc_store st) → done u (sc_store st')) st1) as Hcall.
  { intros st1 Hp1 Hd1. apply wp_bind, wp_try. unfold call_trigger.
    destruct (sd_trigger d') as [trigger|] eqn:Ht; [|by apply wp_throw]. unfold wp at 1, on_store.
    pose proof (Htrig trigger t eq_refl _ Hp1) as Hw. unfold wp in Hw.
    destruct (trigger _ _ _ (sc_store st1)) as [r w']. destruct Hw as [Hw1 Hw2]. split; simpl; auto. }
  unfold fire. apply wp_bind. case_bool_decide; [|by apply wp_ret, Hcall].
  apply wp_bind, wp_try. unfold wp at 1, on_store. pose proof (Hact _ Hp) as Hw. unfold wp in Hw.
  destruct (sd_isActive d' (sc_store st)) as [[err|[]] w']; destruct Hw; apply wp_ret; [by split..|by apply Hcall].
Qed.

Lemma fire_starts t st : P (sc_store st) → wp (fire s d t) (λ _ st', done t (sc_store st')) st.
Proof.
  intros Hp. unfold fire. rewrite bool_decide_false by done. apply wp_bind, wp_ret, wp_bind, wp_try.
  pose proof (Hwork t st Hp) as Hw. unfold wp in *. by destruct (call_trigger s d t st) as [r st'].
Qed.

Lemma fire_started d' t l0 st :
  d' ∈ sc_definitions s → started l0 st → wp (fire s d' t) (λ r st', r = inr tt ∧ started l0 st') st.
Proof.
  intros Hin [Hp (l & Hl & Hdone)].
  pose proof (fire_reports s d' t st) as Hrep. pose proof (fire_retains d' t st (Hothers _ Hin) Hp) as Hret.
  pose proof (fire_starts t st Hp) as Hst. unfold wp in *.
  destruct (decide (sd_name d' = sd_name d)) as [Heq|Hne].
  - rewrite (Hnames d' Hin Heq) in *. destruct (fire s d t st) as [r st'].
    destruct Hrep as (-> & _ & Hf), Hret as [Hp' Hk]. split; [done|]. split; [done|]. exists (l ++ [t]).
    rewrite Hf, decide_True, Hl, app_assoc by done. split; [done|]. apply Forall_app. split; [|by constructor].
    eapply Forall_impl; [exact Hdone|]. intros u. apply Hk.
  - destruct (fire s d' t st) as [r st']. destruct Hrep as (-> & _ & Hf), Hret as [Hp' Hk].
    split; [done|]. split; [done|]. exists l. rewrite Hf, decide_False, Hl, app_nil_r by done. split; [done|].
    eapply Forall_impl; [exact Hdone|]. intros u. apply Hk.
Qed.

Lemma forM_started {A} l0 (body : A → M SchedulerState unit) l st :
  (∀ x st, x ∈ l → started l0 st → wp (body x) (λ r st', r = inr tt ∧ started l0 st') st) →
  started l0 st → wp (forM_ l body) (λ r st', r = inr tt ∧ started l0 st') st.
Proof.
  intros Hbody Hst. eapply wp_mono.
  - apply (wp_forM_ (λ rest st, (∀ x, x ∈ rest → x ∈ l) ∧ started l0 st)); [|done].
    intros x rest st1 [Hsub Hst1]. eapply wp_mono; [apply Hbody; [apply Hsub; left|done]|].
    intros r st2 [-> Hst2]. split; [done|]. split; [|done]. intros y Hy. apply Hsub. by right.
  - intros r st' [-> [_ Hst']]. done.
Qed.

(** Every poll starts what it reports. *)
Lemma ticks_started l0 instants st :
  started l0 st → wp (forM_ instants (tick s)) (λ r st', r = inr tt ∧ started l0 st') st.
Proof.
  intros Hst. apply forM_started; [|done]. intros now st1 _ Hst1. unfold tick. apply forM_started; [|done].
  intros d' st2 Hin Hst2. apply wp_bind, wp_gets. destruct (After _ now); [by apply wp_ret|].
  apply wp_bind. eapply wp_mono.
  - apply (forM_started l0); [|exact Hst2]. intros t st3 _. by apply fire_started.
  - intros r st3 [-> Hst3]. done.
Qed.
End Work.

(** With the "latest" policy and a limit of one missed tick, the tick fired after a pause is the
    earliest one missed, not the latest: an hourly schedule started with a day of lookback fires the
    tick of the day before. *)
Theorem latest_policy_fires_earliest `{E : GoEnv} {W} `{!ScheduleStore W} :
  ∃ (is_tick : Time → Prop) (d : ScheduleDefinition (W := W)) now,
    CronOk is_tick (sd_schedule d) ∧ o_misfire (sd_options d) = MisfireLatest ∧
    ∃ fired later, initial_due d now = [fired] ∧
      is_tick later ∧ (fired < later)%Z ∧ (later ≤ now)%Z.
Proof.
  set (hour := (3600 * Second)%Z).
  exists (λ t, t mod hour = 0)%Z, (mkScheduleDefinition "hourly" (every hour)
    (mkOptions (Some "UTC") MisfireLatest OverlapAllow (24 * hour) 1) None (mret false)),
    (48 * hour)%Z.
  split; [apply every_ok; unfold hour, Second; lia|]. split; [done|].
  exists (25 * hour)%Z, (48 * hour)%Z. split_and!; vm_compute; done.
Qed.

(** ** Ticks on the in-memory store *)

#[export] Instance memory_schedule_store `{E : GoEnv} : ScheduleStore World := {|
  schedule_persistence := memory_persistence;
  ListExecutions := Memory.ListExecutions;
|}.

Section MemoryTicks.
Context `{E : GoEnv} `{!GoEnvOk}.
Context {I O : Type} `{!Codec I}.
Context (parse : string → error + CronSchedule) (s : Scheduler (W := World)).

(** What firing a task schedule amounts to once the overlap policy has let it pass. *)
Definition tick_request (definition : Definition_ I O) (raw name : string) (t : Time)
    : CreateExecutionRequest :=
  mkCreateExecution (Name definition) (Version definition) (Some raw) (MaxAttempts definition) 0
    (tick_key name t) None EmptyString.

Lemma ScheduleTask_spec name expression (definition : Definition_ I O) input options d :
  ScheduleTask (W := World) parse name expression definition (Some input) options = inr d →
  sd_isActive d = task_active (Name definition) [StatusPending; StatusRetry; StatusRunning] ∧
  ∀ t, Validate definition = None → ∀ raw, Marshal (input t) = inr raw →
    call_trigger s d t =
    on_store (_ ← Memory.CreateExecution (tick_request definition raw (sd_name d) t); mret tt).
Proof.
  unfold ScheduleTask. destruct (newDefinition parse name expression options) as [err|[[n sch] o]];
    [done|]. intros [= <-]. split; [done|]. intros t Hv raw Hraw.
  unfold call_trigger. simpl. unfold Enqueue, EncodeInput. by rewrite Hv, Hraw.
Qed.

Lemma fire_allowed (d : ScheduleDefinition (W := World)) t st :
  o_overlap (sd_options d) ≠ OverlapSkip →
  sc_store (fire s d t st).2 = sc_store (call_trigger s d t st).2.
Proof.
  intros Ho. unfold fire. rewrite bool_decide_false by done.
  unfold mbind, M_bind, mret, M_ret, try. by destruct (call_trigger s d t st) as [r st'].
Qed.

Lemma on_store_run {A} (m : M World A) (st : SchedulerState (W := World)) :
  sc_store (on_store m st).2 = (m (sc_store st)).2.
Proof. unfold on_store. by destruct (m (sc_store st)). Qed.

(** C24: a tick fires once, however many schedulers see it: after a scheduler has fired a tick of a
    task, the execution is stored under the key of the schedule and the instant, and as long as it is
    stored, firing the same tick again, from any scheduler state and after any calls of other clients,
    leaves the store as it is. *)
Theorem tick_fires_once name expression (definition : Definition_ I O) input options d t raw
    (st : SchedulerState (W := World)) :
  ScheduleTask (W := World) parse name expression definition (Some input) options = inr d →
  o_overlap (sd_options d) ≠ OverlapSkip → Validate definition = None →
  Marshal (input t) = inr raw → (MaxAttempts definition ≤ MaxInt64)%Z → reachable (sc_store st) →
  ∃ id e, m_executions (mem (sc_store (fire s d t st).2)) !! id = Some e ∧
    idempotent_key (e_TaskName e) (e_IdempotencyKey e) =
      idempotent_key (Name definition) (tick_key (sd_name d) t) ∧
    ∀ st2, steps (sc_store (fire s d t st).2) (sc_store st2) →
      is_Some (m_executions (mem (sc_store st2)) !! id) →
      sc_store (fire s d t st2).2 = sc_store st2.
Proof.
  intros Hd Ho Hv Hraw Hmax Hreach. destruct (ScheduleTask_spec _ _ _ _ _ _ Hd) as [_ Htrig].
  specialize (Htrig t Hv raw Hraw). pose proof (reachable_Inv _ Hreach) as Hinv.
  destruct (Validate_None definition Hv) as (Hname & _).
  set (request := tick_request definition raw (sd_name d) t) in *.
  assert (∀ st0, sc_store (fire s d t st0).2 = (Memory.CreateExecution request (sc_store st0)).2)
    as Hfire.
  { intros st0. rewrite fire_allowed, Htrig, on_store_run by done. unfold mbind, M_bind, mret, M_ret.
    by destruct (Memory.CreateExecution request (sc_store st0)) as [[err|e] w']. }
  rewrite Hfire. destruct (Memory.CreateExecution request (sc_store st)) as [[err|e] w1] eqn:Hc.
  { rewrite CreateExecution_run in Hc. simpl in Hc.
    rewrite (proj2 (is_empty_false _) Hname) in Hc. by destruct (find_existing _ _). }
  assert (request_ok request) as Hok by done.
  pose proof (wp_elim _ _ _ _ _ (CreateExecution_inv request Hok _ Hinv) Hc) as Hinv1.
  destruct (created_indexed _ _ _ _ Hinv Hc eq_refl) as [_ Hidx]; [done|].
  pose proof Hidx as (e1 & He1 & Hne & Heq)%(inv_idem _ Hinv1).
  exists (e_ID e), e1. split_and!; [done|symmetry; exact Heq|]. intros st2 H12 [e2 He2]. simpl in H12.
  pose proof (steps_inv _ _ H12 Hinv1) as Hinv2.
  pose proof (steps_identity _ _ _ _ _ H12 Hinv1 He1 He2) as (_ & Hn2 & _ & Hk2 & _).
  rewrite Hfire, (create_existing _ (Name definition) (tick_key (sd_name d) t) (e_ID e) e2); try done.
  apply (inv_idem _ Hinv2). exists e2. rewrite Hn2, Hk2. split_and!; [done|done|exact Heq].
Qed.

(** ** Catching up *)

Lemma names_distinct (l : list (ScheduleDefinition (W := World))) :
  NoDup (sd_name <$> l) → ∀ d d', d ∈ l → d' ∈ l → sd_name d = sd_name d' → d = d'.
Proof.
  induction l as [|x l IH]; simpl; [by intros _ d d' ?%elem_of_nil|]. intros [Hni Hnd]%NoDup_cons d d'.
  intros [->|Hd]%elem_of_cons [->|Hd']%elem_of_cons Heq; [done|..|by apply IH]; destruct Hni;
    [rewrite Heq|rewrite <-Heq]; by apply list_elem_of_fmap_2.
Qed.

(** The execution of the tick is stored. *)
Definition tick_stored (taskName name : string) (t : Time) (w : World) : Prop :=
  ∃ id e, m_executions (mem w) !! id = Some e ∧
    idempotent_key (e_TaskName e) (e_IdempotencyKey e) = idempotent_key taskName (tick_key name t).

(** Every execution stays stored, with what it has from its creation. *)
Definition keeps_tasks {A} (m : M World A) : Prop :=
  ∀ w, Inv w → wp m (λ _ w', Inv w' ∧ ∀ id e, m_executions (mem w) !! id = Some e →
    ∃ e', m_executions (mem w') !! id = Some e' ∧ same_identity e e') w.

Definition definition_keeps (d : ScheduleDefinition (W := World)) : Prop :=
  keeps_tasks (sd_isActive d) ∧
  ∀ trigger t, sd_trigger d = Some trigger → keeps_tasks (trigger (sc_engine s) t (tick_key (sd_name d) t)).

Lemma keeps_retains {A} (m : M World A) taskName name :
  keeps_tasks m → retains Inv (tick_stored taskName name) m.
Proof.
  intros Hm w Hinv. eapply wp_mono; [by apply Hm|]. intros r w' [Hinv' Hk]. split; [done|].
  intros t (id & e & He & Heq). destruct (Hk id e He) as (e' & He' & _ & Hn & _ & Hi & _).
  exists id, e'. by rewrite Hn, Hi.
Qed.

Lemma keeps_bind {A B} (m : M World A) (k : A → M World B) :
  keeps_tasks m → (∀ a, keeps_tasks (k a)) → keeps_tasks (m ≫= k).
Proof.
  intros Hm Hk w Hinv. apply wp_bind. eapply wp_mono; [by apply Hm|]. intros [err|a] w1 [Hinv1 H1]; [done|].
  eapply wp_mono; [by apply Hk|]. intros r w2 [Hinv2 H2]. split; [done|]. intros id e He.
  destruct (H1 id e He) as (e1 & He1 & Hid1). destruct (H2 id e1 He1) as (e2 & He2 & Hid2).
  exists e2. split; [done|]. by eapply same_identity_trans.
Qed.

Lemma keeps_pure {A} (m : M World A) : read_only m → keeps_tasks m.
Proof.
  intros Hm w Hinv. pose proof (read_only_inv m Hm w Hinv) as Hi. destruct (Hm w) as [Hmem _]. unfold wp in *.
  destruct (m w) as [r w']. simpl in *. split; [done|]. rewrite Hmem. intros id e He. exists e.
  split; [done|apply same_identity_refl].
Qed.

Lemma create_keeps request : request_ok request → keeps_tasks (Memory.CreateExecution request).
Proof.
  intros Hr w Hinv. pose proof (CreateExecution_inv request Hr w Hinv) as Hi.
  pose proof (Inv_fresh_id w (S (Memory.tick w)) Hinv ltac:(lia)) as [Hf _]. unfold wp in *.
  rewrite CreateExecution_run in *. destruct (is_empty _);
    [split; [done|]; intros id e He; exists e; split; [done|apply same_identity_refl]|].
  destruct (find_existing _ _); [split; [done|]; intros id e He; exists e; split; [done|apply same_identity_refl]|].
  split; [done|]. intros id e He. exists e. split; [|apply same_identity_refl]. simpl.
  rewrite lookup_insert_ne; [done|]. intros <-. congruence.
Qed.

Lemma task_active_keeps taskName statuses : keeps_tasks (task_active (W := World) taskName statuses).
Proof.
  induction statuses as [|status statuses IH]; simpl; [by apply keeps_pure|].
  apply keeps_bind; [apply keeps_pure, ListExecutions_read|]. intros [|]; [done|by apply keeps_pure].
Qed.

(** The schedules that [Task] makes keep the executions. *)
Lemma ScheduleTask_keeps name expression (definition : Definition_ I O) input options d :
  ScheduleTask (W := World) parse name expression definition (Some input) options = inr d →
  (MaxAttempts definition ≤ MaxInt64)%Z → definition_keeps d.
Proof.
  unfold ScheduleTask. destruct (newDefinition parse name expression options) as [err|[[n sch] o]]; [done|].
  intros [= <-] Hmax.
  split; [exact (task_active_keeps (Name definition) [StatusPending; StatusRetry; StatusRunning])|]. intros trigger t [= <-].
  apply keeps_bind; [|intros; by apply keeps_pure]. unfold Enqueue, EncodeInput. simpl.
  destruct (Validate definition); [by apply keeps_pure|].
  destruct (Marshal (input t)) as [err|raw]; [by apply keeps_pure|]. by apply create_keeps.
Qed.

(** So do those that [Pipeline] makes. *)
Lemma keeps_throw {A} err : keeps_tasks (throw err : M World A).
Proof. by apply keeps_pure. Qed.

Lemma create_run_keeps request : keeps_tasks (Memory.CreatePipelineRun request).
Proof.
  intros w Hinv. pose proof (CreatePipelineRun_inv request w Hinv) as Hi. unfold wp in *.
  rewrite CreatePipelineRun_run in *. destruct (find_existing_run _ _); (split; [exact Hi|]);
    intros id e He; exists e; (split; [exact He|apply same_identity_refl]).
Qed.

Lemma advance_keeps_tasks engine run : budgets_ok engine → keeps_tasks (Advance (W := World) engine run).
Proof.
  intros He w Hinv. eapply wp_mono; [exact (Advance_kept (W := World) engine run w He Hinv)|].
  intros r w' [Hok Hk]. split; [done|]. intros id e Hx. destruct (Hk id e Hx) as (e' & He' & Hid & _). by exists e'.
Qed.

Lemma Run_keeps {Q} `{!Codec Q} engine (definition : option (PipelineDefinition Q)) value options :
  budgets_ok engine → keeps_tasks (Run (W := World) (Some engine) definition value options).
Proof.
  intros Hengine. unfold Run. destruct (validate definition) as [[err|] dp]; [apply keeps_throw|].
  destruct dp as [p|]; [|apply keeps_throw]. destruct (definitions (registry engine) !! _); [|apply keeps_throw].
  destruct (Marshal value) as [err|raw]; [apply keeps_throw|].
  apply keeps_bind; [apply create_run_keeps|]. intros run.
  apply keeps_bind; [by apply advance_keeps_tasks|]. intros _. apply keeps_pure, GetPipelineRun_read.
Qed.

Lemma SchedulePipeline_keeps {Q} `{!Codec Q} name expression (definition : option (PipelineDefinition Q)) input
    options d :
  SchedulePipeline (W := World) parse name expression definition input options = inr d →
  (∀ engine, sc_engine s = Some engine → budgets_ok engine) → definition_keeps d.
Proof.
  unfold SchedulePipeline. destruct definition as [pipeline|], input as [input|]; try done.
  destruct (newDefinition parse name expression options) as [err|[[n sch] o]]; [done|].
  intros Heq Hengine. injection Heq as <-. split.
  { apply keeps_bind; [apply keeps_pure, ListPipelineRuns_read|]. intros; by apply keeps_pure. }
  intros trigger t Ht. injection Ht as <-. destruct (sc_engine s) as [engine|]; [|apply keeps_throw].
  refine (keeps_bind (Run (W := World) (Some engine) (Some pipeline) (input t) [WithRunIdempotencyKey (tick_key n t)]) _
    (Run_keeps engine (Some pipeline) (input t) _ (Hengine engine eq_refl)) _). intros; by apply keeps_pure.
Qed.

(** The trigger of a task schedule stores the execution of its tick. *)
Lemma trigger_stores name expression (definition : Definition_ I O) input options d t st :
  ScheduleTask (W := World) parse name expression definition (Some input) options = inr d →
  Validate definition = None → (∃ raw, Marshal (input t) = inr raw) → (MaxAttempts definition ≤ MaxInt64)%Z →
  Inv (sc_store st) →
  wp (call_trigger s d t) (λ _ st', tick_stored (Name definition) (sd_name d) t (sc_store st')) st.
Proof.
  intros Hd Hv [raw Hraw] Hmax Hinv. destruct (ScheduleTask_spec _ _ _ _ _ _ Hd) as [_ Htrig].
  rewrite (Htrig t Hv raw Hraw). destruct (Validate_None definition Hv) as (Hname & _).
  set (request := tick_request definition raw (sd_name d) t). unfold wp, on_store, mbind, M_bind, mret, M_ret.
  destruct (Memory.CreateExecution request (sc_store st)) as [[err|e] w1] eqn:Hc; simpl.
  { rewrite CreateExecution_run in Hc. simpl in Hc.
    rewrite (proj2 (is_empty_false _) Hname) in Hc. by destruct (find_existing _ _). }
  pose proof (wp_elim _ _ _ _ _ (CreateExecution_inv request (Hmax : request_ok request) _ Hinv) Hc) as Hinv1.
  destruct (created_indexed _ _ _ _ Hinv Hc eq_refl) as [_ Hidx]; [done|].
  apply (inv_idem _ Hinv1) in Hidx as (e1 & He1 & _ & Heq). by exists (e_ID e), e1.
Qed.

(** C23: with the catch-up policy no tick of a task schedule is missed and none is fired twice: over any
    sequence of polls, late or on time, the scheduler fires, in order and each once, exactly the cron ticks
    between the start and the last poll, and after the polls the execution of each of these ticks is stored
    under the key of the schedule and the instant. This holds for a schedule that allows overlaps, with a
    valid task and inputs that can be encoded, in a scheduler of any number of schedules with distinct names
    (which never remove executions, as those made by Task and Pipeline do not), on the in-memory store
    without other clients, and as long as fewer ticks than the catch-up limit lie between two polls. *)
Theorem catch_up_fires_every_tick is_tick name expression (definition : Definition_ I O) input options d
    (st : SchedulerState (W := World)) start instants :
  ScheduleTask (W := World) parse name expression definition (Some input) options = inr d →
  o_misfire (sd_options d) = MisfireCatchUp → o_overlap (sd_options d) ≠ OverlapSkip →
  Validate definition = None → (MaxAttempts definition ≤ MaxInt64)%Z → (∀ t, ∃ raw, Marshal (input t) = inr raw) →
  CronOk is_tick (sd_schedule d) → NoDup (sd_name <$> sc_definitions s) → d ∈ sc_definitions s →
  (∀ d', d' ∈ sc_definitions s → definition_keeps d') →
  reachable (sc_store st) → next_of (sd_name d) st = sd_schedule d start → polls_ok d start instants →
  ∃ st' l, forM_ instants (tick s) st = (inr tt, st') ∧
    fired (sd_name d) st' = fired (sd_name d) st ++ l ∧
    all_ticks is_tick start (end_of start instants) l ∧
    ∀ t, t ∈ l → tick_stored (Name definition) (sd_name d) t (sc_store st').
Proof.
  intros Hd Hm Ho Hv Hmax Hraw Hcron Hnd Hin Hkeep Hreach%reachable_Inv Hnext Hok.
  destruct (forM_ instants (tick s) st) as [r st'] eqn:Hrun.
  destruct (wp_elim _ _ _ _ _ (ticks_views s instants st d Hnd Hin) Hrun) as [-> Hview].
  destruct (polls_all is_tick d start instants (fired (sd_name d) st) Hm Hok) as (l & Hl & Hall).
  unfold view in Hview. rewrite Hnext, Hl in Hview. injection Hview as _ Hfired. exists st', l.
  split_and!; [done|done|done|]. apply Forall_forall.
  assert (started Inv (tick_stored (Name definition) (sd_name d)) d (fired (sd_name d) st) st') as [_ (l' & Hl' & Hst)].
  { refine (proj2 (wp_elim _ _ _ _ _ (ticks_started Inv (tick_stored (Name definition) (sd_name d)) s d _ _ Ho _
      (fired (sd_name d) st) instants st _) Hrun)).
    - intros d' Hd'. destruct (Hkeep d' Hd') as [H1 H2]. split; [by apply keeps_retains|].
      intros trigger t Ht. by apply keeps_retains, H2.
    - intros d' Hd' Heq. by apply (names_distinct _ Hnd).
    - intros t st0 Hinv. by eapply trigger_stores.
    - split; [done|]. exists []. by rewrite app_nil_r. }
  rewrite Hfired in Hl'. apply (inj (app _)) in Hl'. by subst l'.
Qed.

(** ** Overlap *)

Lemma matches_task_status taskName status e :
  taskName ≠ EmptyString → status ≠ StatusZero →
  matches_filter (mkListFilter taskName (Status_string status) None 1 None) e = true ↔
  e_TaskName e = taskName ∧ e_Status e = status.
Proof.
  intros Hne Hz. unfold matches_filter, is_empty. simpl.
  rewrite !andb_true_r, (bool_decide_false (taskName = EmptyString)) by done.
  rewrite (bool_decide_false (Status_string status = EmptyString)) by (by destruct status).
  simpl. rewrite andb_true_iff, !bool_decide_eq_true. split; intros [? ?]; split; try congruence.
  by apply (inj Status_string).
Qed.

Lemma task_active_spec taskName statuses w :
  Inv w → taskName ≠ EmptyString → StatusZero ∉ statuses →
  wp (task_active (W := World) taskName statuses) (λ r w', mem w' = mem w ∧ ∃ b, r = inr b ∧
    (b = true ↔ ∃ id e, m_executions (mem w) !! id = Some e ∧ e_TaskName e = taskName ∧
       e_Status e ∈ statuses)) w.
Proof.
  intros Hinv Hne Hz. revert w Hinv. induction statuses as [|status statuses IH]; intros w Hinv; simpl.
  { apply wp_ret. split; [done|]. exists false. split; [done|].
    split; [done|]. by intros (id & e & _ & _ & ?%elem_of_nil). }
  apply not_elem_of_cons in Hz as [Hz Hzs].
  apply wp_bind. set (filter := mkListFilter taskName (Status_string status) None 1 None).
  eapply wp_run; [by apply ListExecutions_run|]. simpl.
  assert (Inv (mkWorld (mem w) (S (Memory.tick w)))) as Hinv1
    by (eapply (Inv_tick _ (Memory.tick w)); [lia|by destruct w]).
  assert (∀ e, e ∈ listing filter w ↔ ∃ id e0, m_executions (mem w) !! id = Some e0 ∧
    (e_TaskName e0 = taskName ∧ e_Status e0 = status) ∧ e = cloneExecution e0) as Hl.
  { intros e. rewrite elem_of_listing. split; intros (id & e0 & He0 & Hm & ->); exists id, e0;
      (split; [done|]); (split; [|done]); by apply matches_task_status. }
  destruct (limit_slice_split 1 (listing filter w)) as [[-> Hnil]|(l1 & c & l2 & -> & Hcons)].
  - eapply wp_mono; [by apply IH|]. simpl. intros r w' (Hmem & b & -> & Hb). split; [done|].
    exists b. split; [done|]. rewrite Hb. split; intros (id & e & He & Hn & Hs); exists id, e;
      (split_and!; [done..|]); [by right|].
    apply elem_of_cons in Hs as [Hs|?]; [|done]. rewrite Hnil in Hl.
    assert (cloneExecution e ∈ ([] : list Execution)) as Hin by (apply Hl; by exists id, e).
    by apply elem_of_nil in Hin.
  - assert (c ∈ listing filter w) as (id & e & He & [Hn Hs] & _)%Hl by (rewrite Hcons; set_solver).
    destruct (l1 ++ [c]) eqn:Happ; [by destruct l1|]. apply wp_ret. split; [done|].
    exists true. split; [done|]. split; [|done]. intros _. exists id, e. rewrite Hs.
    split_and!; [done..|left].
Qed.

(** Under the skip policy a tick does not start a task that is still pending, waiting for a
    retry or running: the store does not change; when no execution of the task is active the tick is
    enqueued as under the allow policy. *)
Theorem overlap_skip_respects_active name expression (definition : Definition_ I O) input options d t
    raw (st : SchedulerState (W := World)) :
  ScheduleTask (W := World) parse name expression definition (Some input) options = inr d →
  o_overlap (sd_options d) = OverlapSkip → Validate definition = None →
  Marshal (input t) = inr raw → reachable (sc_store st) →
  let active := ∃ id e, m_executions (mem (sc_store st)) !! id = Some e ∧
    e_TaskName e = Name definition ∧ is_active (e_Status e) = true in
  (active → mem (sc_store (fire s d t st).2) = mem (sc_store st)) ∧
  (¬ active → ∃ w, mem w = mem (sc_store st) ∧
     sc_store (fire s d t st).2 =
       (Memory.CreateExecution (tick_request definition raw (sd_name d) t) w).2).
Proof.
  intros Hd Ho Hv Hraw Hreach active. destruct (ScheduleTask_spec _ _ _ _ _ _ Hd) as [Hact Htrig].
  specialize (Htrig t Hv raw Hraw). destruct (Validate_None definition Hv) as (Hname & _).
  pose proof (task_active_spec (Name definition) [StatusPending; StatusRetry; StatusRunning]
    (sc_store st) (reachable_Inv _ Hreach) Hname ltac:(set_solver)) as Hwp.
  rewrite <-Hact in Hwp. destruct (sd_isActive d (sc_store st)) as [r w1] eqn:Hrun.
  destruct (wp_elim _ _ _ _ _ Hwp Hrun) as (Hmem & b & -> & Hb).
  assert (b = true ↔ active) as Hb'.
  { rewrite Hb. unfold active. split; intros (id & e & He & Hn & Hs); exists id, e; split_and!; try done.
    - by repeat (apply elem_of_cons in Hs as [->|Hs]; [done|]); apply elem_of_nil in Hs.
    - destruct (e_Status e); try done; set_solver. }
  assert (sc_store (fire s d t st).2 = if b then w1 else
    (Memory.CreateExecution (tick_request definition raw (sd_name d) t) w1).2) as Hfire.
  { unfold fire. rewrite bool_decide_true by done. unfold mbind, M_bind, try, mret, M_ret.
    unfold on_store at 1. rewrite Hrun. destruct b; [done|]. rewrite Htrig. unfold on_store. simpl.
    unfold mbind, M_bind, mret, M_ret.
    by destruct (Memory.CreateExecution _ w1) as [[err|e] w2]. }
  rewrite Hfire. split.
  - intros Ha%Hb'. by rewrite Ha.
  - intros Hna. exists w1. split; [done|]. destruct b; [|done]. destruct Hna. by apply Hb'.
Qed.
End MemoryTicks.

(** ** On concrete schedules *)

Definition demo_parse : string → error + CronSchedule := λ _, inr (every 10).

Definition demo_schedule (policy overlap : string) : ScheduleDefinition (W := World) :=
  match ScheduleTask (W := World) demo_parse "job" "* * * * *" demo_task (Some (λ _, true))
          [WithMisfire policy 0 5; WithOverlap overlap] with
  | inr d => d
  | inl _ => mkScheduleDefinition EmptyString (every 10) (mkOptions None EmptyString EmptyString 0 0)
               None (mret false)
  end.

Definition demo_scheduler (policy overlap : string) : Scheduler (W := World) :=
  mkScheduler None [demo_schedule policy overlap] Second.

Lemma occurrences_exact_witness :
  length (occurrences (every 10) 3 47 0) ≤ 100 ∧
  all_ticks (λ t, t mod 10 = 0)%Z 3 47 (occurrences (every 10) 3 47 0).
Proof.
  destruct (occurrences_exact (λ t, t mod 10 = 0)%Z (every 10) 3 47 0) as (_ & H1 & H2).
  - apply every_ok. lia.
  - split; [exact H1|]. apply H2. vm_compute. lia.
Defined.

(** Four polls, two of them late: the ticks at 10, 20, 30 and 40 are enqueued. *)
Lemma catch_up_fires_every_tick_witness :
  ∃ st' l, forM_ [7; 25; 26; 47]%Z (tick (demo_scheduler MisfireCatchUp OverlapAllow))
      (mkSchedulerState initial_world {["job" := 10%Z]} []) = (inr tt, st') ∧
    all_ticks (λ t, t mod 10 = 0)%Z 3 47 l ∧ ∀ t, t ∈ l → tick_stored "not" "job" t (sc_store st').
Proof.
  destruct (catch_up_fires_every_tick demo_parse (demo_scheduler MisfireCatchUp OverlapAllow)
    (λ t, t mod 10 = 0)%Z "job" "* * * * *" demo_task (λ _, true)
    [WithMisfire MisfireCatchUp 0 5; WithOverlap OverlapAllow] (demo_schedule MisfireCatchUp OverlapAllow)
    (mkSchedulerState initial_world {["job" := 10%Z]} []) 3 [7; 25; 26; 47]%Z)
    as (st' & l & Hrun & _ & Hl & Hst).
  - reflexivity.
  - reflexivity.
  - discriminate.
  - reflexivity.
  - vm_compute. discriminate.
  - intros t. exists "true". reflexivity.
  - apply every_ok. lia.
  - repeat constructor. set_solver.
  - apply list_elem_of_here.
  - intros d' ->%list_elem_of_singleton.
    apply (ScheduleTask_keeps demo_parse _ "job" "* * * * *" demo_task (λ _, true)
      [WithMisfire MisfireCatchUp 0 5; WithOverlap OverlapAllow]); [reflexivity|vm_compute; discriminate].
  - apply rtc_refl.
  - reflexivity.
  - vm_compute. repeat split; try done; lia.
  - exists st', l. split; [exact Hrun|]. split; [exact Hl|exact Hst].
Defined.

Lemma tick_fires_once_witness :
  ∃ id e, m_executions (mem (sc_store (fire (demo_scheduler MisfireSkip OverlapAllow)
    (demo_schedule MisfireSkip OverlapAllow) 10 (mkSchedulerState initial_world ∅ [])).2)) !! id = Some e.
Proof.
  destruct (tick_fires_once demo_parse (demo_scheduler MisfireSkip OverlapAllow) "job" "* * * * *"
    demo_task (λ _, true) [WithMisfire MisfireSkip 0 5; WithOverlap OverlapAllow]
    (demo_schedule MisfireSkip OverlapAllow) 10 "true" (mkSchedulerState initial_world ∅ []))
    as (id & e & He & _); try done.
  - apply rtc_refl.
  - exists id, e. exact He.
Defined.

Lemma overlap_skip_respects_active_witness :
  ∃ w, sc_store (fire (demo_scheduler MisfireSkip OverlapSkip) (demo_schedule MisfireSkip OverlapSkip)
    10 (mkSchedulerState initial_world ∅ [])).2 =
  (Memory.CreateExecution (tick_request demo_task "true" "job" 10) w).2.
Proof.
  destruct (overlap_skip_respects_active demo_parse (demo_scheduler MisfireSkip OverlapSkip) "job"
    "* * * * *" demo_task (λ _, true) [WithMisfire MisfireSkip 0 5; WithOverlap OverlapSkip]
    (demo_schedule MisfireSkip OverlapSkip) 10 "true" (mkSchedulerState initial_world ∅ []))
    as [_ Hfree]; try done.
  - apply rtc_refl.
  - destruct Hfree as (w & _ & Hw).
    + intros (id & e & He & _). revert He. by destruct id.
    + exists w. exact Hw.
Defined.
