(* ===== verification/Worker.v ===== *)
(** * The worker (src/worker/worker.go)

    One claim-and-execute loop of a worker: reaping, claiming, running a handler under heartbeats, and
    reporting its outcome.  What a goroutine receives from its surroundings (the cancellation of its
    context, the end of a wait, the case a [select] takes) comes from an oracle indexed by the number of
    times the loop has looked. *)

From S2P Require Import Prelude GoLib Model Task TaskRegistry.

(** The storage capability a worker requires: [execution.Queue] and [GetExecution]. *)
Class WorkerStore (W : Type) := {
  Queue_Claim : string → list TaskKey → Z → Duration → M W (list Execution);
  Queue_ReapExpired : M W (list UUID);
  Queue_Heartbeat : UUID → UUID → Duration → M W unit;
  Queue_Succeed : UUID → UUID → RawMessage → M W unit;
  Queue_Retry : UUID → UUID → string → Duration → M W unit;
  Queue_Fail : UUID → UUID → string → M W unit;
  Queue_GetExecution : UUID → M W Execution;
}.

(** An [Advancer]; [Reconcile] is there when its dynamic type has that method. *)
Record Advancer (W : Type) := mkAdvancer {
  adv_Advance : UUID → M W unit;
  adv_Reconcile : option (M W unit);
}.
Arguments mkAdvancer {W} _ _.
Arguments adv_Advance {W} _ _.
Arguments adv_Reconcile {W} _.

Record WorkerOptions := mkWorkerOptions {
  wo_ID : string;
  wo_Concurrency : Z;
  wo_PollInterval : Duration;
  wo_LeaseDuration : Duration;
  wo_HeartbeatInterval : Duration;
  wo_MaxConsecutiveErrors : Z;
  wo_ShutdownGracePeriod : Duration;
}.

Inductive Operation :=
  OperationClaim | OperationReap | OperationAdvance | OperationReconcile | OperationReload.

Inductive HealthStatus := HealthReady | HealthDegraded.

Record Health := mkHealth {
  h_Status : HealthStatus;
  h_ConsecutiveFailures : Z;
  h_LastError : string;
  h_LastFailureAt : Time;
}.

(** The calls of the observer. *)
Inductive Observation :=
  | Transition (item : Execution) (status : Status) (err : option error)
  | InfrastructureError (operation : Operation) (err : error).

(** The case that a [select] of [execute] takes. *)
Inductive select_case :=
  | WorkerDone
  | HandlerDone (err : error)
  | ResultReady
  | HeartbeatTick.

Class WorkerOracle := {
  ctx_Err : nat → option error;
  wait_elapsed : nat → bool;
  select_events : nat → list select_case;
}.

Section Worker.
Context `{E : GoEnv} `{Or : WorkerOracle} {W : Type} `{!WorkerStore W}.

Record Worker := mkWorker {
  w_registry : Registry W;
  w_advancer : option (Advancer W);
  w_options : WorkerOptions;
}.

(** The state of a loop: the store, the health of the worker, the failure counter of the loop, the
    observations made and the number of looks at the surroundings. *)
Record WorkerState := mkWorkerState {
  ws_store : W;
  ws_health : Health;
  ws_consecutive : Z;
  ws_observed : list Observation;
  ws_looks : nat;
}.

Definition NewWorker (store : option W) (registry : option (Registry W))
    (advancer : option (Advancer W)) (freshID : string) (o : WorkerOptions)
    : error + (Worker * WorkerState) :=
  match store, registry with
  | None, _ => inl (errorString "worker store is nil")
  | _, None => inl (errorString "task registry is nil")
  | Some w, Some registry =>
      let id := if bool_decide (wo_ID o = EmptyString) then freshID else wo_ID o in
      let concurrency := if (wo_Concurrency o <=? 0)%Z then 1%Z else wo_Concurrency o in
      let poll := if (wo_PollInterval o <=? 0)%Z then (100 * Millisecond)%Z
                  else wo_PollInterval o in
      let lease := if (wo_LeaseDuration o <=? 0)%Z then (30 * Second)%Z
                   else wo_LeaseDuration o in
      let heartbeat := if (wo_HeartbeatInterval o <=? 0)%Z then Z.quot lease 3
                       else wo_HeartbeatInterval o in
      if (lease <=? heartbeat)%Z
      then inl (errorString "heartbeat interval must be shorter than lease duration")
      else
        let grace := if (wo_ShutdownGracePeriod o <=? 0)%Z then (30 * Second)%Z
                     else wo_ShutdownGracePeriod o in
        inr (mkWorker registry advancer
               (mkWorkerOptions id concurrency poll lease heartbeat (wo_MaxConsecutiveErrors o) grace),
             mkWorkerState w (mkHealth HealthReady 0 EmptyString 0) 0 [] 0)
  end.

Abbreviation MW := (M WorkerState).

(** ** Steps on the state *)

Definition on_queue {A} (m : M W A) : MW A := λ s,
  let '(r, w) := m (ws_store s) in
  (r, mkWorkerState w (ws_health s) (ws_consecutive s) (ws_observed s) (ws_looks s)).

Definition observe (o : Observation) : MW unit := λ s,
  (inr tt, mkWorkerState (ws_store s) (ws_health s) (ws_consecutive s) (ws_observed s ++ [o])
             (ws_looks s)).

Definition look {A} (f : nat → A) : MW A := λ s,
  (inr (f (ws_looks s)),
   mkWorkerState (ws_store s) (ws_health s) (ws_consecutive s) (ws_observed s) (S (ws_looks s))).

Definition set_health (h : Health) (consecutive : Z) : MW unit := λ s,
  (inr tt, mkWorkerState (ws_store s) h consecutive (ws_observed s) (ws_looks s)).

Definition is_some {A} (o : option A) : bool := match o with Some _ => true | None => false end.

(** Whether the loop has to stop. *)
Definition infrastructureFailure (wk : Worker) (operation : Operation) (err : error) : MW bool :=
  ctxErr ← look ctx_Err;
  if errors_Is err ContextCanceled && is_some ctxErr then mret false else
  consecutive ← gets (λ s, int64 (ws_consecutive s + 1));
  failedAt ← look env_now;
  _ ← set_health (mkHealth HealthDegraded consecutive (error_Error err) failedAt) consecutive;
  _ ← observe (InfrastructureError operation err);
  mret ((0 <? wo_MaxConsecutiveErrors (w_options wk))%Z
        && (wo_MaxConsecutiveErrors (w_options wk) <=? consecutive)%Z).

Definition healthy : MW unit := set_health (mkHealth HealthReady 0 EmptyString 0) 0.

(** ** Reporting an outcome *)

Definition advance (wk : Worker) (item : Execution) : MW unit :=
  match w_advancer wk, e_PipelineRunID item with
  | Some advancer, Some runID =>
      r ← try (on_queue (adv_Advance advancer runID));
      match r with
      | inl err => observe (InfrastructureError OperationAdvance err)
      | inr _ => mret tt
      end
  | _, _ => mret tt
  end.

(** A retry policy is called; a nil policy would panic. *)
Definition policy_delay (retryPolicy : option RetryPolicy) (attempt : Z) : MW Duration :=
  match retryPolicy with
  | Some policy => mret (policy attempt)
  | None => throw (errorString "invalid memory address or nil pointer dereference")
  end.

Definition resolve (wk : Worker) (item : Execution) (outcome : error + RawMessage)
    (retryPolicy : option RetryPolicy) (registered : bool) : MW unit :=
  match outcome with
  | inr output =>
      r ← try (on_queue (Queue_Succeed (e_ID item) (e_LeaseToken item) output));
      match r with
      | inl err => observe (Transition item StatusRunning (Some err))
      | inr _ => _ ← observe (Transition item StatusSucceeded None); advance wk item
      end
  | inl handlerErr =>
      if negb registered || IsPermanent handlerErr then
        r ← try (on_queue (Queue_Fail (e_ID item) (e_LeaseToken item) (error_Error handlerErr)));
        match r with
        | inl err => observe (Transition item StatusRunning (Some err))
        | inr _ => _ ← observe (Transition item StatusFailed (Some handlerErr)); advance wk item
        end
      else
        delay ← match RetryDelay handlerErr with
                | Some delay => mret delay
                | None => policy_delay retryPolicy (e_Attempt item)
                end;
        r ← try (on_queue (Queue_Retry (e_ID item) (e_LeaseToken item) (error_Error handlerErr) delay));
        match r with
        | inl err => observe (Transition item StatusRunning (Some err))
        | inr _ =>
            r ← try (on_queue (Queue_GetExecution (e_ID item)));
            match r with
            | inl err =>
                _ ← observe (InfrastructureError OperationReload err);
                observe (Transition item StatusRetry (Some handlerErr))
            | inr updated =>
                _ ← observe (Transition updated (e_Status updated) (Some handlerErr));
                if bool_decide (e_Status updated = StatusFailed) then advance wk updated else mret tt
            end
        end
  end.

(** ** Executing a claimed item *)

(** The [select] loop, over the cases it takes.  The handler runs beside it; its effects are placed
    where its result is received, and those of a handler whose result is not received are left out.  A
    list without a final case stands for a process that stops there. *)
Fixpoint execute_cases (wk : Worker) (item : Execution) (retryPolicy : option RetryPolicy)
    (registered : bool) (cases : list select_case) : MW unit :=
  match cases with
  | [] => mret tt
  | WorkerDone :: _ => mret tt
  | HandlerDone err :: _ => resolve wk item (inl err) retryPolicy registered
  | ResultReady :: _ =>
      r ← try (on_queue (Execute (w_registry wk) item));
      resolve wk item r retryPolicy registered
  | HeartbeatTick :: cases' =>
      r ← try (on_queue (Queue_Heartbeat (e_ID item) (e_LeaseToken item)
                           (wo_LeaseDuration (w_options wk))));
      match r with
      | inl err =>
          observe (Transition item StatusRunning (Some (fmtError "heartbeat: %w" [] (Some err) [])))
      | inr _ => execute_cases wk item retryPolicy registered cases'
      end
  end.

Definition execute (wk : Worker) (item : Execution) : MW unit :=
  let '(retryPolicy, registered) :=
    match Policy (w_registry wk) (e_TaskName item) (e_TaskVersion item) with
    | Some (_, _, retry) => (retry, true)
    | None => (None, false)
    end in
  cases ← look select_events;
  execute_cases wk item retryPolicy registered cases.

(** ** The loop *)

(** How an iteration ends: [continue], [break], or a return with an error. *)
Inductive control := Continue | Break | Return (err : error).

(** Advancing the runs of the reaped executions; the result tells whether a call failed, or the error
    to return. *)
Fixpoint advance_reaped (wk : Worker) (had : bool) (runs : list UUID) : MW (error + bool) :=
  match runs with
  | [] => mret (inr had)
  | runID :: runs' =>
      match w_advancer wk with
      | None => advance_reaped wk had runs'
      | Some advancer =>
          r ← try (on_queue (adv_Advance advancer runID));
          match r with
          | inl err =>
              stop ← infrastructureFailure wk OperationAdvance err;
              if stop : bool
              then mret (inl (fmtError "advance reaped pipeline: %w" [] (Some err) []))
              else advance_reaped wk true runs'
          | inr _ => advance_reaped wk had runs'
          end
      end
  end.

(** Nothing was claimed: reconcile and wait. *)
Definition idle (wk : Worker) (had : bool) : MW control :=
  outcome ← match w_advancer wk with
            | Some (mkAdvancer _ (Some Reconcile)) =>
                r ← try (on_queue Reconcile);
                match r with
                | inl err =>
                    stop ← infrastructureFailure wk OperationReconcile err;
                    mret (if stop : bool
                          then inl (fmtError "reconcile pipelines: %w" [] (Some err) [])
                          else inr true)
                | inr _ => mret (inr had)
                end
            | _ => mret (inr had)
            end;
  match outcome with
  | inl err => mret (Return err)
  | inr had =>
      _ ← when (negb had) healthy;
      elapsed ← look wait_elapsed;
      mret (if elapsed : bool then Continue else Break)
  end.

Definition iteration (wk : Worker) : MW control :=
  r ← try (on_queue Queue_ReapExpired);
  match r with
  | inl err =>
      stop ← infrastructureFailure wk OperationReap err;
      if stop : bool then mret (Return (fmtError "reap expired executions: %w" [] (Some err) [])) else
      elapsed ← look wait_elapsed;
      mret (if elapsed : bool then Continue else Break)
  | inr runs =>
      reaped ← advance_reaped wk false runs;
      match reaped with
      | inl err => mret (Return err)
      | inr had =>
          r ← try (on_queue (Queue_Claim (wo_ID (w_options wk)) (Keys (w_registry wk)) 1
                               (wo_LeaseDuration (w_options wk))));
          match r with
          | inl err =>
              stop ← infrastructureFailure wk OperationClaim err;
              if stop : bool then mret (Return (fmtError "claim execution: %w" [] (Some err) []))
              else idle wk true
          | inr [] => idle wk had
          | inr (item :: _) =>
              _ ← when (negb had) healthy;
              _ ← execute wk item;
              mret Continue
          end
      end
  end.

(** [fuel] iterations at most; [None] when the loop is still running then, otherwise the error it
    returned, if any. *)
Fixpoint loop (fuel : nat) (wk : Worker) : MW (option (option error)) :=
  match fuel with
  | O => mret None
  | S fuel' =>
      ctxErr ← look ctx_Err;
      match ctxErr with
      | Some _ => mret (Some None)
      | None =>
          c ← iteration wk;
          match c with
          | Continue => loop fuel' wk
          | Break => mret (Some None)
          | Return err => mret (Some (Some err))
          end
      end
  end.
End Worker.
