(* ===== verification/WorkerProps.v ===== *)
(** * Properties of the worker *)

From S2P Require Import Prelude GoLib Model Memory MemoryInv MemoryOps MemoryLists MemoryProps.
From S2P Require Import MemoryProps2 Task TaskRegistry Demo Pipeline Engine StoreLaws EngineLemmas.
From S2P Require Import EngineProps EngineWitness Worker.

#[export] Instance memory_worker_store `{E : GoEnv} : WorkerStore World := {|
  Queue_Claim := Memory.Claim;
  Queue_ReapExpired := Memory.ReapExpired;
  Queue_Heartbeat := Memory.Heartbeat;
  Queue_Succeed := Memory.Succeed;
  Queue_Retry := Memory.Retry;
  Queue_Fail := Memory.Fail;
  Queue_GetExecution := Memory.GetExecution;
|}.

(** ** Options *)

(** A worker that is accepted has an identity, at least one loop, positive intervals and a
    heartbeat interval shorter than its lease; the interval itself is positive when the lease is at
    least three nanoseconds.  A worker is refused only without a store or registry, or for a heartbeat
    interval that is not shorter than the lease. *)
Theorem worker_options_sound {W} (store : option W) registry advancer freshID o :
  freshID ≠ EmptyString →
  match NewWorker store registry advancer freshID o with
  | inr (wk, s) =>
      wo_ID (w_options wk) ≠ EmptyString ∧ (1 ≤ wo_Concurrency (w_options wk))%Z ∧
      (0 < wo_PollInterval (w_options wk))%Z ∧ (0 < wo_LeaseDuration (w_options wk))%Z ∧
      (0 < wo_ShutdownGracePeriod (w_options wk))%Z ∧
      (0 ≤ wo_HeartbeatInterval (w_options wk) < wo_LeaseDuration (w_options wk))%Z ∧
      ((3 ≤ wo_LeaseDuration (w_options wk))%Z → (0 < wo_HeartbeatInterval (w_options wk))%Z) ∧
      h_Status (ws_health s) = HealthReady
  | inl _ =>
      store = None ∨ registry = None ∨
      ((0 < wo_HeartbeatInterval o)%Z ∧
       ((if (wo_LeaseDuration o <=? 0)%Z then 30 * Second else wo_LeaseDuration o)
          ≤ wo_HeartbeatInterval o)%Z)
  end.
Proof.
  intros Hid. unfold NewWorker. destruct store as [w|]; [|by left].
  destruct registry as [reg|]; [|by right; left].
  set (lease := (if (wo_LeaseDuration o <=? 0)%Z then 30 * Second else wo_LeaseDuration o)%Z).
  assert (0 < lease)%Z as Hlease.
  { unfold lease, Second. destruct (Z.leb_spec (wo_LeaseDuration o) 0); lia. }
  assert (Z.quot lease 3 = lease / 3)%Z as Hquot by (apply Z.quot_div_nonneg; lia).
  pose proof (Z.div_mod lease 3). pose proof (Z.mod_pos_bound lease 3).
  destruct (Z.leb_spec (wo_HeartbeatInterval o) 0) as [Hh|Hh].
  - destruct (Z.leb_spec lease (Z.quot lease 3)) as [Hbad|Hok]; [lia|]. simpl.
    split_and!; simpl; try lia; try done; [by case_bool_decide|..];
      unfold Millisecond, Second;
      [destruct (Z.leb_spec (wo_Concurrency o) 0)|destruct (Z.leb_spec (wo_PollInterval o) 0)
      |destruct (Z.leb_spec (wo_ShutdownGracePeriod o) 0)]; lia.
  - destruct (Z.leb_spec lease (wo_HeartbeatInterval o)) as [Hbad|Hok]; [by right; right|]. simpl.
    split_and!; simpl; try lia; try done; [by case_bool_decide|..];
      unfold Millisecond, Second;
      [destruct (Z.leb_spec (wo_Concurrency o) 0)|destruct (Z.leb_spec (wo_PollInterval o) 0)
      |destruct (Z.leb_spec (wo_ShutdownGracePeriod o) 0)]; lia.
Qed.

(** ** Health *)

Section Health.
Context `{E : GoEnv} `{Or : WorkerOracle} {W : Type} `{!WorkerStore W}.

(** The failure counter and the reported health agree: a failure that is not the end of the
    context degrades the health and adds one to the consecutive failures, and asks the loop to stop
    exactly when a positive maximum is reached; a failure that comes from a cancelled context changes
    nothing; a clean pass resets the counter and the health. *)
Theorem health_follows_failures (wk : Worker (W := W)) operation err s :
  (0 ≤ ws_consecutive s < MaxInt64)%Z →
  let '(r, s') := infrastructureFailure wk operation err s in
  ws_store s' = ws_store s ∧
  (if errors_Is err ContextCanceled && is_some (ctx_Err (ws_looks s)) then
     r = inr false ∧ ws_health s' = ws_health s ∧ ws_consecutive s' = ws_consecutive s ∧
     ws_observed s' = ws_observed s
   else
     ws_consecutive s' = (ws_consecutive s + 1)%Z ∧
     h_Status (ws_health s') = HealthDegraded ∧
     h_ConsecutiveFailures (ws_health s') = ws_consecutive s' ∧
     h_LastError (ws_health s') = error_Error err ∧
     ws_observed s' = ws_observed s ++ [InfrastructureError operation err] ∧
     ∃ stop, r = inr stop ∧
       (stop = true ↔ (0 < wo_MaxConsecutiveErrors (w_options wk) ≤ ws_consecutive s')%Z)) ∧
  ∀ s1 : WorkerState (W := W), ws_consecutive (healthy s1).2 = 0%Z ∧ h_Status (ws_health (healthy s1).2) = HealthReady.
Proof.
  intros Hc. unfold infrastructureFailure, mbind, M_bind, look, gets, set_health, observe, mret, M_ret.
  destruct (errors_Is err ContextCanceled && is_some (ctx_Err (ws_looks s))); simpl; [done|].
  rewrite int64_id by (unfold MaxInt64 in *; lia). split_and!; try done.
  eexists. split; [done|]. rewrite andb_true_iff, Z.ltb_lt, Z.leb_le. done.
Qed.

(** The state after a failed call to reap. *)
Lemma iteration_reap_fails (wk : Worker (W := W)) err s w :
  (∀ n, ctx_Err n = None) → (∀ n, wait_elapsed n = true) →
  (0 ≤ ws_consecutive s < MaxInt64)%Z →
  Queue_ReapExpired (ws_store s) = (inl err, w) →
  ∃ s', ws_consecutive s' = (ws_consecutive s + 1)%Z ∧ h_Status (ws_health s') = HealthDegraded ∧
    iteration wk s = (inr (if (0 <? wo_MaxConsecutiveErrors (w_options wk))%Z
                              && (wo_MaxConsecutiveErrors (w_options wk) <=? ws_consecutive s')%Z
                           then Return (fmtError "reap expired executions: %w" [] (Some err) [])
                           else Continue), s').
Proof.
  intros Hctx Hwait Hc Hreap.
  unfold iteration, mbind, M_bind, try, on_queue. rewrite Hreap. simpl.
  unfold infrastructureFailure, mbind, M_bind, look, gets, set_health, observe, mret, M_ret. simpl.
  rewrite Hctx, andb_false_r. simpl. rewrite int64_id by (unfold MaxInt64 in *; lia).
  destruct (_ && _) eqn:Hm; simpl; eexists; (split; [|split; [|f_equal]]); simpl; try done;
    rewrite Hm; [done|by rewrite Hwait].
Qed.

(** How a loop over such a store goes, from any number of failures below the bound. *)
Lemma loop_reap_fails (wk : Worker (W := W)) err :
  (∀ n, ctx_Err n = None) → (∀ n, wait_elapsed n = true) →
  (∀ w, ∃ w', Queue_ReapExpired w = (inl err, w')) →
  let m := wo_MaxConsecutiveErrors (w_options wk) in
  ∀ fuel s, (0 ≤ ws_consecutive s)%Z → (ws_consecutive s + Z.of_nat fuel < MaxInt64)%Z →
    ((0 < m)%Z → (ws_consecutive s < m)%Z) → ∃ s',
    loop fuel wk s =
      (inr (if (0 <? m)%Z && (m <=? ws_consecutive s + Z.of_nat fuel)%Z
            then Some (Some (fmtError "reap expired executions: %w" [] (Some err) []))
            else None), s') ∧
    ws_consecutive s' = (if (0 <? m)%Z then Z.min m (ws_consecutive s + Z.of_nat fuel)
                         else ws_consecutive s + Z.of_nat fuel)%Z.
Proof.
  intros Hctx Hwait Hreap m fuel. induction fuel as [|fuel IH]; intros s H0 Hlt Hm.
  - exists s. rewrite Z.add_0_r. destruct (Z.ltb_spec 0 m); simpl; [|done].
    destruct (Z.leb_spec m (ws_consecutive s)); [lia|]. split; [done|lia].
  - simpl. unfold mbind at 1, M_bind at 1, look. rewrite Hctx. unfold mbind at 1, M_bind at 1.
    set (s0 := mkWorkerState _ _ _ _ _). destruct (Hreap (ws_store s0)) as [w Hw].
    destruct (iteration_reap_fails wk err s0 w Hctx Hwait) as (s1 & Hc1 & _ & Hit);
      [simpl; lia|done|]. rewrite Hit. fold m. simpl in Hc1.
    replace (ws_consecutive s + Z.of_nat (S fuel))%Z with (ws_consecutive s1 + Z.of_nat fuel)%Z by lia.
    destruct (Z.ltb_spec 0 m); simpl; [|apply IH; lia].
    destruct (Z.leb_spec m (ws_consecutive s1)) as [Hle|Hgt]; [|apply IH; lia].
    exists s1. destruct (Z.leb_spec m (ws_consecutive s1 + Z.of_nat fuel)); [|lia].
    split; [done|lia].
Qed.

(** A store that keeps failing stops a loop that has a bound on consecutive failures, with the
    wrapped error and after exactly that many failures; a loop without a bound keeps running. *)
Theorem loop_stops_on_persistent_failure (wk : Worker (W := W)) err s :
  (∀ n, ctx_Err n = None) → (∀ n, wait_elapsed n = true) →
  (∀ w, ∃ w', Queue_ReapExpired w = (inl err, w')) →
  ws_consecutive s = 0%Z →
  let m := wo_MaxConsecutiveErrors (w_options wk) in
  ∀ fuel, (Z.of_nat fuel < MaxInt64)%Z → ∃ s',
    loop fuel wk s =
      (inr (if (0 <? m)%Z && (m <=? Z.of_nat fuel)%Z
            then Some (Some (fmtError "reap expired executions: %w" [] (Some err) []))
            else None), s') ∧
    ws_consecutive s' = (if (0 <? m)%Z then Z.min m (Z.of_nat fuel) else Z.of_nat fuel).
Proof.
  intros Hctx Hwait Hreap Hc m fuel Hfuel.
  destruct (loop_reap_fails wk err Hctx Hwait Hreap fuel s) as (s' & Hl & Hc'); [lia..|].
  rewrite Hc in *. by exists s'.
Qed.
End Health.

(** ** Reports on the in-memory store *)

Section Reports.
Context `{E : GoEnv} `{!GoEnvOk} `{Or : WorkerOracle}.
Implicit Types (wk : Worker (W := World)) (s : WorkerState (W := World)).

Definition with_store s w : WorkerState (W := World) :=
  mkWorkerState w (ws_health s) (ws_consecutive s) (ws_observed s) (ws_looks s).

(** The health of the worker and the failure counter of the loop do not change. *)
Definition same_health s s' : Prop :=
  ws_health s' = ws_health s ∧ ws_consecutive s' = ws_consecutive s.

Lemma try_on_queue {A B} (m : M World A) (k : error + A → M WorkerState B) s r w :
  m (ws_store s) = (r, w) → (try (on_queue m) ≫= k) s = k r (with_store s w).
Proof. intros Hm. unfold mbind, M_bind, try, on_queue. by rewrite Hm. Qed.

(** No pipeline has to be advanced. *)
Definition standalone wk (item : Execution) : Prop :=
  w_advancer wk = None ∨ e_PipelineRunID item = None.

Lemma advance_standalone wk item s : standalone wk item → advance wk item s = (inr tt, s).
Proof.
  unfold advance. intros [-> | ->]; [done|]. by destruct (w_advancer wk).
Qed.

(** What a worker makes of the outcome of a handler. *)
Definition reported (outcome : error + RawMessage) (delay : Duration) (registered : bool) (t : Time)
    (e e' : Execution) : Prop :=
  settled e e' ∧
  match outcome with
  | inr output =>
      e_Status e' = StatusSucceeded ∧ e_Output e' = cloneJSON output ∧ e_FinishedAt e' = Some t
  | inl err =>
      e_LastError e' = error_Error err ∧
      if negb registered || IsPermanent err || negb (e_Attempt e <? e_MaxAttempts e)%Z
      then e_Status e' = StatusFailed ∧ e_FinishedAt e' = Some t
      else e_Status e' = StatusRetry ∧ e_AvailableAt e' = (t + delay)%Z ∧ e_FinishedAt e' = None
  end.

Lemma resolve_owner wk item outcome policy registered s e :
  Inv (ws_store s) → standalone wk item → e_PipelineRunID item = e_PipelineRunID e →
  m_executions (mem (ws_store s)) !! e_ID item = Some e → lease_valid e (e_LeaseToken item) →
  ∃ e' s', resolve wk item outcome (Some policy) registered s = (inr tt, s') ∧
    m_executions (mem (ws_store s')) =
      <[e_ID item := e']> (m_executions (mem (ws_store s))) ∧
    same_health s s' ∧
    reported outcome match outcome with
                     | inl err => default (policy (e_Attempt item)) (RetryDelay err)
                     | inr _ => 0%Z
                     end registered (env_now (tick (ws_store s))) e e'.
Proof.
  intros Hinv Hst Hrun He Hv.
  destruct (owner_reports_inv _ _ _ _ Hinv He Hv) as (Hsucc & Hfail & Hretry).
  unfold resolve, reported. destruct outcome as [err|output].
  - destruct (negb registered || IsPermanent err) eqn:Hperm.
    + destruct (Hfail (error_Error err)) as (e' & w' & Hf & (Hx & _) & Hs & Hstat & Herr & Hfin).
      exists e'. eexists. split; [|split; [|split; [|split; [exact Hs|done]]]].
      * rewrite (try_on_queue _ _ _ _ _ Hf). simpl. unfold mbind at 1, M_bind at 1, observe.
        by rewrite advance_standalone.
      * done.
      * done.
    + set (delay := default (policy (e_Attempt item)) (RetryDelay err)).
      destruct (Hretry (error_Error err) delay) as (e' & w' & Hr & (Hx & _) & Hs & Herr & Hcase).
      assert (standalone wk (cloneExecution e')) as Hst'.
      { destruct Hst as [?|Hp]; [by left|right]. destruct Hs as ((_ & _ & _ & _ & Hpr & _) & _).
        simpl. congruence. }
      exists e'. eexists. split; [|split; [|split; [|split; [exact Hs|split; [exact Herr|]]]]].
      * assert (match RetryDelay err with
                | Some delay => mret delay
                | None => policy_delay (Some policy) (e_Attempt item)
                end s = (inr delay, s)) as Hd by (unfold delay; by destruct (RetryDelay err)).
        unfold mbind at 1, M_bind at 1. rewrite Hd.
        rewrite (try_on_queue _ _ _ _ _ Hr). simpl.
        erewrite try_on_queue; [|unfold Memory.GetExecution; rewrite bind_gets; simpl; rewrite Hx,
          lookup_insert_eq; reflexivity]. simpl.
        unfold mbind at 1, M_bind at 1, observe. case_bool_decide; [by rewrite advance_standalone|done].
      * exact Hx.
      * done.
      * simpl. destruct (e_Attempt e <? e_MaxAttempts e)%Z; done.
  - destruct (Hsucc output) as (e' & w' & Hf & (Hx & _) & Hs & Hstat & Hout & Hfin).
    exists e'. eexists. split; [|split; [|split; [|split; [exact Hs|done]]]].
    + rewrite (try_on_queue _ _ _ _ _ Hf). simpl. unfold mbind at 1, M_bind at 1, observe.
      by rewrite advance_standalone.
    + done.
    + done.
Qed.

(** What a worker relies on of its advancer: whether it succeeds or not, it keeps the store in order and
    every execution that is not blocked as it is. *)
Definition advancer_ok (advancer : Advancer World) : Prop :=
  ∀ runID w, Inv w → wp (adv_Advance advancer runID) (λ _ w', Inv w' ∧ ∀ id x,
    m_executions (mem w) !! id = Some x → e_Status x ≠ StatusBlocked → m_executions (mem w') !! id = Some x) w.

Definition worker_ok wk : Prop := ∀ advancer, w_advancer wk = Some advancer → advancer_ok advancer.

(** The handler of the item returns [output]; it may use the store, but leaves its own execution alone. *)
Definition handler_returns wk (item : Execution) (output : RawMessage) : Prop :=
  ∀ w, Inv w → wp (Execute (w_registry wk) item) (λ r w', r = inr output ∧ Inv w' ∧
    m_executions (mem w') !! e_ID item = m_executions (mem w) !! e_ID item) w.

Lemma advance_keeps wk item s :
  worker_ok wk → Inv (ws_store s) → ∃ s', advance wk item s = (inr tt, s') ∧ same_health s s' ∧
    ∀ id x, m_executions (mem (ws_store s)) !! id = Some x → e_Status x ≠ StatusBlocked →
      m_executions (mem (ws_store s')) !! id = Some x.
Proof.
  intros Hwk Hinv. unfold advance. destruct (w_advancer wk) as [advancer|] eqn:Hadv; [|by exists s].
  destruct (e_PipelineRunID item) as [runID|]; [|by exists s].
  destruct (adv_Advance advancer runID (ws_store s)) as [r w'] eqn:Ha.
  destruct (wp_elim _ _ _ _ _ (Hwk _ Hadv runID _ Hinv) Ha) as [_ Hk].
  rewrite (try_on_queue _ _ _ _ _ Ha). destruct r as [err|[]]; by eexists.
Qed.

(** Success of an owned item, and what is advanced after it. *)
Lemma resolve_success wk item output policy registered s e :
  worker_ok wk → Inv (ws_store s) → m_executions (mem (ws_store s)) !! e_ID item = Some e →
  lease_valid e (e_LeaseToken item) →
  ∃ e' s', resolve wk item (inr output) (Some policy) registered s = (inr tt, s') ∧
    m_executions (mem (ws_store s')) !! e_ID item = Some e' ∧ same_health s s' ∧ same_identity e e' ∧
    e_Status e' = StatusSucceeded ∧ e_Output e' = cloneJSON output ∧ e_Attempt e' = e_Attempt e.
Proof.
  intros Hwk Hinv He Hv. destruct (owner_reports_inv _ _ _ _ Hinv He Hv) as (Hsucc & _ & _).
  destruct (Hsucc output) as (e' & w' & Hf & (Hx & _) & Hs & Hstat & Hout & Hfin).
  pose proof (wp_elim _ _ _ _ _ (Succeed_inv _ _ _ _ Hinv) Hf) as Hinv'.
  set (s1 := mkWorkerState w' (ws_health s) (ws_consecutive s)
    (ws_observed s ++ [Transition item StatusSucceeded None]) (ws_looks s)).
  destruct (advance_keeps wk item s1 Hwk Hinv') as (s' & Ha & Hh & Hk).
  exists e', s'. destruct Hs as (Hid & _ & Hatt & _). split_and!; try done.
  - unfold resolve. rewrite (try_on_queue _ _ _ _ _ Hf). simpl. unfold mbind at 1, M_bind at 1, observe. exact Ha.
  - apply Hk; [simpl; rewrite Hx; apply lookup_insert_eq|congruence].
Qed.

Lemma with_store_same s : with_store s (ws_store s) = s.
Proof. by destruct s. Qed.

Lemma resolve_fenced wk item outcome policy registered s :
  not_owner (e_ID item) (e_LeaseToken item) (ws_store s) →
  ∃ s' err, resolve wk item outcome (Some policy) registered s = (inr tt, s') ∧
    ws_store s' = ws_store s ∧
    ws_observed s' = ws_observed s ++ [Transition item StatusRunning (Some err)].
Proof.
  intros Hno. pose proof (owned_fenced _ _ _ Hno) as Hf.
  assert (∀ A (m : M World A), fenced m (ws_store s) → ∀ k : M WorkerState unit, ∃ s' err,
    (r ← try (on_queue m); match r with
       | inl err => observe (Transition item StatusRunning (Some err))
       | inr _ => k end) s = (inr tt, s') ∧ ws_store s' = ws_store s ∧
    ws_observed s' = ws_observed s ++ [Transition item StatusRunning (Some err)]) as Hobs.
  { intros A m [Hm|Hm] k; erewrite try_on_queue by exact Hm; simpl; by eexists _, _. }
  unfold resolve. destruct outcome as [herr|output].
  - destruct (negb registered || IsPermanent herr).
    + apply Hobs. by apply fenced_bind.
    + set (delay := default (policy (e_Attempt item)) (RetryDelay herr)).
      assert (match RetryDelay herr with
              | Some delay => mret delay
              | None => policy_delay (Some policy) (e_Attempt item)
              end s = (inr delay, s)) as Hd by (unfold delay; by destruct (RetryDelay herr)).
      unfold mbind at 1, M_bind at 1. rewrite Hd. apply Hobs. by apply fenced_bind.
  - apply Hobs. by apply fenced_bind.
Qed.

(** The outcome of a handler decides the fate of the execution that the worker still owns: a
    value succeeds it; an error fails it when the task is unknown, the error is permanent or the
    attempts are used up, and otherwise schedules a retry after the delay the error asks for or, without
    one, that of the task's policy.  Nothing else in the store changes.  A worker that lost its lease
    changes nothing at all. *)
Theorem worker_reports wk item outcome policy registered s :
  reachable (ws_store s) → standalone wk item →
  (∀ e, m_executions (mem (ws_store s)) !! e_ID item = Some e →
     lease_valid e (e_LeaseToken item) → e_PipelineRunID item = e_PipelineRunID e →
     ∃ e' s', resolve wk item outcome (Some policy) registered s = (inr tt, s') ∧
       m_executions (mem (ws_store s')) =
         <[e_ID item := e']> (m_executions (mem (ws_store s))) ∧
       reported outcome match outcome with
                        | inl err => default (policy (e_Attempt item)) (RetryDelay err)
                        | inr _ => 0%Z
                        end registered (env_now (tick (ws_store s))) e e') ∧
  (not_owner (e_ID item) (e_LeaseToken item) (ws_store s) →
     ∃ s' err, resolve wk item outcome (Some policy) registered s = (inr tt, s') ∧
       ws_store s' = ws_store s ∧
       ws_observed s' = ws_observed s ++ [Transition item StatusRunning (Some err)]).
Proof.
  intros Hinv%reachable_Inv Hst. split.
  - intros e He Hv Hrun.
    destruct (resolve_owner wk item outcome policy registered s e) as (e' & s' & ? & ? & _ & ?);
      [done..|]. by exists e', s'.
  - apply resolve_fenced.
Qed.

(** ** From the claim to the report *)

Lemma Heartbeat_owner id token lease w e :
  m_executions (mem w) !! id = Some e → lease_valid e token →
  ∃ e' w', Heartbeat id token lease w = (inr tt, w') ∧
    m_executions (mem w') = <[id := e']> (m_executions (mem w)) ∧
    lease_valid e' token ∧ same_identity e e' ∧ e_Attempt e' = e_Attempt e ∧
    e_Input e' = e_Input e.
Proof.
  intros He Hv. unfold Heartbeat. rewrite (owned_bind _ _ e) by done.
  eexists _, _. split; [reflexivity|]. split; [reflexivity|].
  destruct Hv as (Hs & Hn & Ht). by repeat split.
Qed.

Lemma failure_store wk operation err s : ws_store (infrastructureFailure wk operation err s).2 = ws_store s.
Proof.
  unfold infrastructureFailure, mbind, M_bind, look, gets, set_health, observe, mret, M_ret.
  by destruct (errors_Is err ContextCanceled && is_some (ctx_Err (ws_looks s))).
Qed.

(** Heartbeats keep the lease; when the result arrives it is reported. *)
Lemma execute_heartbeats wk item output policy registered n rest s e :
  worker_ok wk → handler_returns wk item output → Inv (ws_store s) →
  m_executions (mem (ws_store s)) !! e_ID item = Some e → lease_valid e (e_LeaseToken item) →
  ∃ e' s', execute_cases wk item (Some policy) registered (replicate n HeartbeatTick ++ ResultReady :: rest)
      s = (inr tt, s') ∧
    m_executions (mem (ws_store s')) !! e_ID item = Some e' ∧
    same_health s s' ∧ same_identity e e' ∧ e_Status e' = StatusSucceeded ∧
    e_Output e' = cloneJSON output ∧ e_Attempt e' = e_Attempt e.
Proof.
  intros Hwk Hex. revert s e. induction n as [|n IH]; intros s e Hinv He Hv; simpl.
  - destruct (Execute (w_registry wk) item (ws_store s)) as [r w1] eqn:Hrun.
    destruct (wp_elim _ _ _ _ _ (Hex _ Hinv) Hrun) as (-> & Hinv1 & Hsame).
    rewrite (try_on_queue _ _ _ _ _ Hrun). apply (resolve_success wk item output policy registered (with_store s w1) e);
      [done|done|by rewrite <-He|done].
  - destruct (Heartbeat_owner _ _ (wo_LeaseDuration (w_options wk)) _ _ He Hv)
      as (e1 & w1 & Hh & Hx1 & Hv1 & Hid1 & Ha1 & _).
    rewrite (try_on_queue _ _ _ _ _ Hh).
    pose proof (wp_elim _ _ _ _ _ (Heartbeat_inv _ _ _ _ Hinv) Hh) as Hinv1.
    destruct (IH (with_store s w1) e1) as (e' & s' & Hr & He' & Hh' & Hid & Hs & Ho & Ha); simpl;
      [done|rewrite Hx1; apply lookup_insert_eq|done|].
    exists e', s'. split_and!; try done; [by etrans|congruence].
Qed.

(** Advancing the runs of reaped executions keeps the store in order. *)
Lemma advance_reaped_inv wk : worker_ok wk → ∀ runs had s r s',
  Inv (ws_store s) → advance_reaped wk had runs s = (r, s') → Inv (ws_store s').
Proof.
  intros Hwk runs. induction runs as [|runID runs IH]; intros had s r s' Hinv Hrun; simpl in Hrun.
  { by injection Hrun as _ <-. }
  destruct (w_advancer wk) as [advancer|] eqn:Hadv; [|by eapply IH].
  destruct (adv_Advance advancer runID (ws_store s)) as [ra w1] eqn:Ha.
  destruct (wp_elim _ _ _ _ _ (Hwk _ Hadv runID _ Hinv) Ha) as [Hinv1 _].
  rewrite (try_on_queue _ _ _ _ _ Ha) in Hrun. destruct ra as [err|[]]; [|by eapply (IH _ (with_store s w1))].
  unfold mbind at 1, M_bind at 1 in Hrun. pose proof (failure_store wk OperationAdvance err (with_store s w1)) as Hst.
  destruct (infrastructureFailure wk OperationAdvance err (with_store s w1)) as [[e|stop] s1]; simpl in Hst.
  { injection Hrun as _ <-. by rewrite Hst. }
  destruct stop; [injection Hrun as _ <-; by rewrite Hst|]. eapply IH; [|exact Hrun]. by rewrite Hst.
Qed.

(** A claim of one item returns the stored execution, leased to the caller. *)
Lemma claimed_item owner keys lease w item rest w' :
  Inv w → Claim owner keys 1 lease w = (inr (item :: rest), w') →
  Inv w' ∧ ∃ e, m_executions (mem w') !! e_ID item = Some e ∧ item = cloneExecution e ∧
    lease_valid e (e_LeaseToken item) ∧
    ∃ e0, m_executions (mem w) !! e_ID item = Some e0 ∧ same_identity e0 e.
Proof.
  intros Hinv Hc. destruct (wp_elim _ _ _ _ _ (Claim_wp owner keys 1 lease w Hinv) Hc)
    as (Hinv' & [= Hitems] & _ & Hst & _). split; [done|].
  destruct (claim_selection keys 1 w) as [|e0 l] eqn:Hsel; [done|]. simpl in Hitems.
  injection Hitems as -> _. specialize (Hst 0 e0 eq_refl). simpl in Hst.
  eexists. split; [exact Hst|]. split; [done|]. split.
  - split_and!; [done|apply env_uuid_not_Nil|done].
  - exists e0. split; [|by repeat split].
    apply (claim_selection_stored keys 1 w e0 Hinv). rewrite Hsel. left.
Qed.

(** C10: a pass of a worker over the in-memory store, which nobody else changes meanwhile, delivers: when
    the pass gets to a claim and is given an execution of a registered task, the handler returns a value
    before its timeout and before the worker is cancelled, and the handler and the advancer (any that keeps
    executions that are not blocked, as the pipeline engine does) leave that execution alone, the pass ends
    with the execution stored as succeeded, with that value and within its attempt budget, however many
    heartbeats the handler took and whether or not the pipelines can be advanced; the worker is reported
    ready when no reaped pipeline failed to advance. *)
Theorem iteration_delivers wk s runs w1 had s1 item rest w2 policy output n cases :
  reachable (ws_store s) → worker_ok wk →
  ReapExpired (ws_store s) = (inr runs, w1) →
  advance_reaped wk false runs (with_store s w1) = (inr (inr had), s1) →
  Claim (wo_ID (w_options wk)) (Keys (w_registry wk)) 1 (wo_LeaseDuration (w_options wk)) (ws_store s1)
    = (inr (item :: rest), w2) →
  (∃ a t, Policy (w_registry wk) (e_TaskName item) (e_TaskVersion item) = Some (a, t, Some policy)) →
  handler_returns wk item output →
  select_events (ws_looks s1) = replicate n HeartbeatTick ++ ResultReady :: cases →
  ∃ s' e, iteration wk s = (inr Continue, s') ∧
    (had = false → ws_consecutive s' = 0%Z ∧ h_Status (ws_health s') = HealthReady) ∧
    m_executions (mem (ws_store s')) !! e_ID item = Some e ∧
    e_Status e = StatusSucceeded ∧ e_Output e = cloneJSON output ∧
    (1 ≤ e_Attempt e ≤ e_MaxAttempts e)%Z.
Proof.
  intros Hinv%reachable_Inv Hwk Hreap Hadv Hclaim (a & t & Hpol) Hex Hsel.
  destruct (wp_elim _ _ _ _ _ (ReapExpired_wp _ Hinv) Hreap) as (Hinv0 & _).
  pose proof (advance_reaped_inv wk Hwk _ _ _ _ _ (Hinv0 : Inv (ws_store (with_store s w1))) Hadv) as Hinv1.
  destruct (claimed_item _ _ _ _ _ _ _ Hinv1 Hclaim) as (Hinv2 & e0 & He0 & Hitem & Hv & _).
  set (s2 := mkWorkerState w2 (if had then ws_health s1 else mkHealth HealthReady 0 EmptyString 0)
    (if had then ws_consecutive s1 else 0%Z) (ws_observed s1) (S (ws_looks s1))).
  destruct (execute_heartbeats wk item output policy true n cases s2 e0)
    as (e' & s' & Hrun & He' & [Hh Hc] & Hid & Hs & Ho & Ha); try done.
  exists s', e'. split.
  { unfold iteration. simpl. rewrite (try_on_queue _ _ _ _ _ Hreap).
    unfold mbind at 1, M_bind at 1. rewrite Hadv. rewrite (try_on_queue _ _ _ _ _ Hclaim).
    unfold mbind at 1, M_bind at 1. unfold when, healthy, set_health. unfold s2 in Hrun.
    destruct had; cbn [negb]; unfold execute; rewrite Hpol; unfold mret, M_ret, mbind, M_bind, look; simpl;
      by rewrite Hsel, Hrun. }
  destruct (inv_exec _ Hinv2 _ _ He0) as [_ Hok].
  destruct (ok_started _ _ Hok (proj1 Hv)) as [_ Hstarted]. pose proof (ok_attempt _ _ Hok) as Hatt.
  destruct Hid as (_ & _ & _ & _ & _ & _ & _ & Hmax).
  split_and!; [|done..|lia|lia]. intros ->. by rewrite Hc, Hh.
Qed.
End Reports.

(** ** Concrete workers *)

(** Surroundings in which nothing is cancelled, waits end, and a handler's result arrives after one
    heartbeat. *)
#[export] Instance demo_oracle : WorkerOracle := {|
  ctx_Err _ := None;
  wait_elapsed _ := true;
  select_events _ := [HeartbeatTick; ResultReady];
|}.

Definition demo_registry : Registry World :=
  match NewRegistry demo_module with inr r => r | inl _ => mkRegistry ∅ [] end.

Definition demo_options (max : Z) : WorkerOptions := mkWorkerOptions "w1" 1 0 30 0 max 0.

Definition demo_worker : Worker (W := World) :=
  mkWorker demo_registry None (mkWorkerOptions "w1" 1 100 30 10 3 100).

Definition demo_loop (w : World) : WorkerState (W := World) :=
  mkWorkerState w (mkHealth HealthReady 0 EmptyString 0) 0 [] 0.

(** One execution of the task, waiting; then leased to the worker. *)
Definition ops_not : list Op :=
  [OpCreateExecution (mkCreateExecution "not" 1 (Some "true") 3 0 EmptyString None EmptyString)].
Definition ops_not_claimed : list Op := ops_not ++ [OpClaim "w1" [mkTaskKey "not" 1] 1 30].

Definition leased_not : Execution :=
  default zeroExecution (head (map snd (map_to_list (m_executions (mem (run_ops ops_not_claimed)))))).

Lemma worker_options_sound_witness :
  match NewWorker (Some initial_world) (Some demo_registry) None "id" (demo_options 3) with
  | inr (wk, _) => (0 < wo_HeartbeatInterval (w_options wk) < wo_LeaseDuration (w_options wk))%Z
  | inl _ => False
  end.
Proof.
  pose proof (worker_options_sound (Some initial_world) (Some demo_registry) None "id" (demo_options 3)
    ltac:(done)) as H.
  destruct (NewWorker _ _ _ _ _) as [err|[wk s]] eqn:Hn.
  - destruct H as [H|[H|[H _]]]; done.
  - destruct H as (_ & _ & _ & _ & _ & Hb & Hp & _). injection Hn as <- _. simpl in *.
    split; [apply Hp; done|apply Hb].
Defined.

Lemma health_follows_failures_witness :
  h_Status (ws_health (infrastructureFailure demo_worker OperationClaim (errorString "down")
    (demo_loop initial_world)).2) = HealthDegraded.
Proof.
  pose proof (health_follows_failures demo_worker OperationClaim (errorString "down")
    (demo_loop initial_world) ltac:(split; vm_compute; done)) as H.
  destruct (infrastructureFailure _ _ _ _) as [r s']. destruct H as (_ & H & _). apply H.
Defined.

(** A queue that always fails. *)
Definition broken_store : WorkerStore unit := {|
  Queue_Claim _ _ _ _ := throw (errorString "down");
  Queue_ReapExpired := throw (errorString "down");
  Queue_Heartbeat _ _ _ := throw (errorString "down");
  Queue_Succeed _ _ _ := throw (errorString "down");
  Queue_Retry _ _ _ _ := throw (errorString "down");
  Queue_Fail _ _ _ := throw (errorString "down");
  Queue_GetExecution _ := throw (errorString "down");
|}.

Definition broken_worker : Worker (W := unit) :=
  mkWorker (mkRegistry ∅ []) None (mkWorkerOptions "w1" 1 100 30 10 3 100).

Lemma loop_stops_on_persistent_failure_witness : ∃ s',
  loop (WorkerStore0 := broken_store) 5 broken_worker
    (mkWorkerState tt (mkHealth HealthReady 0 EmptyString 0) 0 [] 0) =
  (inr (Some (Some (fmtError "reap expired executions: %w" [] (Some (errorString "down")) []))), s') ∧
  ws_consecutive s' = 3%Z.
Proof.
  apply (loop_stops_on_persistent_failure (WorkerStore0 := broken_store) broken_worker
    (errorString "down") (mkWorkerState tt (mkHealth HealthReady 0 EmptyString 0) 0 [] 0)
    ltac:(done) ltac:(done) ltac:(intros w; by exists w) eq_refl 5 ltac:(vm_compute; done)).
Defined.

Lemma worker_reports_witness :
  ∃ e' s', resolve demo_worker leased_not (inl (errorString "boom")) (Some (λ _, 5%Z)) true
      (demo_loop (run_ops ops_not_claimed)) = (inr tt, s') ∧
    e_Status e' = StatusRetry ∧ e_LastError e' = error_Error (errorString "boom").
Proof.
  destruct (worker_reports demo_worker leased_not (inl (errorString "boom")) (λ _, 5%Z) true
    (demo_loop (run_ops ops_not_claimed))) as [H _].
  - apply run_ops_reachable. repeat constructor; vm_compute; done.
  - by left.
  - destruct (H leased_not) as (e' & s' & Hr & _ & _ & Herr & Hst).
    + vm_compute. reflexivity.
    + split_and!; vm_compute; done.
    + reflexivity.
    + exists e', s'. split; [exact Hr|]. split; [exact (proj1 Hst)|exact Herr].
Defined.

(** The store after the reaping and after the claim of a pass. *)
Definition not_reaped : World := (ReapExpired (run_ops ops_not)).2.
Definition not_claim := Claim "w1" (Keys demo_registry) 1 30 not_reaped.
Definition not_item : Execution := default zeroExecution (head (default_result [] not_claim)).

(** The engine is such an advancer. *)
Lemma engine_advancer_ok `{E : GoEnv} `{!GoEnvOk} e :
  budgets_ok e → advancer_ok (mkAdvancer (Advance e) (Some (Reconcile e))).
Proof.
  intros He runID w Hinv. eapply wp_mono; [exact (Advance_kept (W := World) e runID w He Hinv)|].
  intros r w' [Hok Hk]. split; [done|]. intros id x Hx Hs. destruct (Hk id x Hx) as (x' & Hx' & _ & Heq).
  rewrite <-(Heq Hs). exact Hx'.
Qed.

(** A worker that advances pipelines. *)
Definition advancing_worker : Worker (W := World) :=
  mkWorker demo_registry (Some (mkAdvancer (Advance demo_engine) (Some (Reconcile demo_engine))))
    (w_options demo_worker).

Lemma advancing_worker_ok : worker_ok advancing_worker.
Proof.
  intros advancer [= <-]. apply engine_advancer_ok. intros key def Hdef. cbn [demo_engine registry definitions] in Hdef.
  apply lookup_singleton_Some in Hdef as [_ <-].
  eapply Forall_impl; [apply demo_nodes_ok|]. intros node. apply nok_max.
Qed.

Lemma iteration_delivers_witness :
  ∃ s' e, iteration advancing_worker (demo_loop (run_ops ops_not)) = (inr Continue, s') ∧
    m_executions (mem (ws_store s')) !! 2%N = Some e ∧ e_Output e = Some "false".
Proof.
  assert (match Policy demo_registry "not" 1 with Some (_, _, Some _) => true | _ => false end = true)
    as Hsome by (vm_compute; reflexivity).
  destruct (Policy demo_registry "not" 1) as [[[a t] [policy|]]|] eqn:Hpol; [|done..].
  assert (e_ID not_item = 2%N) as Hid by (vm_compute; reflexivity).
  destruct (iteration_delivers advancing_worker (demo_loop (run_ops ops_not)) [] not_reaped false
    (demo_loop not_reaped) not_item [] (not_claim.2) policy (Some "false") 1 [])
    as (s' & e & Hit & _ & He & _ & Ho & _).
  - apply run_ops_reachable. repeat constructor; vm_compute; done.
  - exact advancing_worker_ok.
  - vm_compute. reflexivity.
  - reflexivity.
  - vm_compute. reflexivity.
  - exists a, t. exact Hpol.
  - intros w Hw. unfold wp. vm_compute Execute. split; [reflexivity|]. split; [exact Hw|reflexivity].
  - reflexivity.
  - exists s', e. split; [exact Hit|]. split; [|exact Ho]. rewrite <- Hid. exact He.
Defined.
