(* ===== verification/App.v ===== *)
(** * The application (src/app.go)

    The options and the constructor that wire registries, engine, worker and scheduler over one store, and
    the operations that the application delegates.  [App.Run] is in Runtime. *)

From S2P Require Import Prelude GoLib Model Task TaskRegistry Pipeline Engine Schedule Worker.

Section App.
Context `{E : GoEnv} `{Or : WorkerOracle} {W : Type} `{!ScheduleStore W} `{!WorkerStore W}.

(** The observer, which has no effect on the application, is left out. *)
Record configuration := mkConfiguration {
  cf_modules : list (Module_ W);
  cf_pipelines : list (error + compiledDefinition);
  cf_worker : WorkerOptions;
  cf_schedules : list (ScheduleDefinition (W := W));
  cf_scheduler : Duration;
}.

(** [None] is a nil option. *)
Definition AppOption : Type := option (configuration → configuration).

Definition Tasks (modules : list (Module_ W)) : AppOption :=
  Some (λ c, mkConfiguration (cf_modules c ++ modules) (cf_pipelines c) (cf_worker c) (cf_schedules c)
               (cf_scheduler c)).
Definition Pipelines (definitions : list (error + compiledDefinition)) : AppOption :=
  Some (λ c, mkConfiguration (cf_modules c) (cf_pipelines c ++ definitions) (cf_worker c) (cf_schedules c)
               (cf_scheduler c)).
Definition WithWorker (options : WorkerOptions) : AppOption :=
  Some (λ c, mkConfiguration (cf_modules c) (cf_pipelines c) options (cf_schedules c) (cf_scheduler c)).
Definition Schedules (definitions : list (ScheduleDefinition (W := W))) : AppOption :=
  Some (λ c, mkConfiguration (cf_modules c) (cf_pipelines c) (cf_worker c) (cf_schedules c ++ definitions)
               (cf_scheduler c)).
Definition WithScheduler (pollInterval : Duration) : AppOption :=
  Some (λ c, mkConfiguration (cf_modules c) (cf_pipelines c) (cf_worker c) (cf_schedules c) pollInterval).

Definition zeroConfiguration : configuration :=
  mkConfiguration [] [] (mkWorkerOptions EmptyString 0 0 0 0 0 0) [] 0.

Definition configure (options : list AppOption) : configuration :=
  foldl (λ c option, match option with Some f => f c | None => c end) zeroConfiguration options.

Record App := mkApp {
  app_worker : Worker (W := W);
  app_pipelines : Engine;
  app_scheduler : Scheduler (W := W);
}.

(** The engine as the worker's advancer; it has a [Reconcile]. *)
Definition engine_advancer (e : Engine) : Advancer W := mkAdvancer (Advance e) (Some (Reconcile e)).

(** The application with the states of its worker and its scheduler. *)
Definition NewApp (store : option W) (options : list AppOption) (freshID : string)
    : error + (App * WorkerState (W := W) * SchedulerState (W := W)) :=
  match store with
  | None => inl (errorString "ody store is nil")
  | Some w =>
      let config := configure options in
      match NewRegistry (cf_modules config) with
      | inl err => inl (fmtError "build task registry: %w" [] (Some err) [])
      | inr tasks =>
      match NewPipelineRegistry (cf_pipelines config) with
      | inl err => inl (fmtError "build pipeline registry: %w" [] (Some err) [])
      | inr pipelines =>
      match NewEngine (W := W) (Some schedule_persistence) (Some pipelines) with
      | inl err => inl err
      | inr engine =>
      match NewWorker (Some w) (Some tasks) (Some (engine_advancer engine)) freshID (cf_worker config) with
      | inl err => inl err
      | inr (runner, runnerState) =>
      match NewScheduler (Some w) (Some engine) (cf_schedules config) (cf_scheduler config) with
      | inl err => inl err
      | inr (scheduler, schedulerState) => inr (mkApp runner engine scheduler, runnerState, schedulerState)
      end end end end end
  end.

(** [None] is the nil application. *)
Definition App_CreateExecution (a : option App) (request : CreateExecutionRequest) : M W Execution :=
  match a with
  | None => throw (errorString "ody app is nil")
  | Some _ => CreateExecution request
  end.

Definition App_RestartExecution (a : option App) (id : UUID) : M W Execution :=
  match a with
  | None => throw (errorString "ody app is nil")
  | Some app => Engine_RestartExecution (app_pipelines app) id
  end.

(** ** The parts of an application fit together *)

(** An application is built from the registered tasks and pipelines, or the first error is returned; its
    worker runs exactly the registered tasks and advances the runs of its engine, whose pipelines are the
    registered ones, and its scheduler triggers on the same engine. *)
Lemma NewApp_wires store options freshID app ws ss :
  NewApp store options freshID = inr (app, ws, ss) →
  ∃ w tasks, store = Some w ∧ NewRegistry (cf_modules (configure options)) = inr tasks ∧
    NewPipelineRegistry (cf_pipelines (configure options)) = inr (registry (app_pipelines app)) ∧
    w_registry (app_worker app) = tasks ∧
    w_advancer (app_worker app) = Some (engine_advancer (app_pipelines app)) ∧
    sc_engine (app_scheduler app) = Some (app_pipelines app) ∧
    sc_definitions (app_scheduler app) = cf_schedules (configure options) ∧
    ws_store ws = w ∧ sc_store ss = w.
Proof.
  unfold NewApp. destruct store as [w|]; [|done].
  destruct (NewRegistry _) as [|tasks] eqn:Ht; [done|].
  destruct (NewPipelineRegistry _) as [|pipelines] eqn:Hp; [done|]. cbn [NewEngine].
  destruct (NewWorker _ _ _ _ _) as [|[runner rs]] eqn:Hw; [done|].
  destruct (NewScheduler _ _ _ _) as [|[sched scs]] eqn:Hs; [done|]. intros [= <- <- <-].
  unfold NewWorker in Hw. case_match; [done|]. simplify_eq/=.
  unfold NewScheduler in Hs. destruct (check_definitions _ _); [done|]. simplify_eq/=.
  exists w, tasks. by split_and!.
Qed.
End App.
