(* ===== verification/Runtime.v ===== *)
(** * The runtime (Run of src/worker/worker.go and src/app.go, the hooks of src/fx.go and
    src/worker/fx/lifecycle.go)

    How goroutines are started, cancelled and drained, as step relations: every interleaving of the
    goroutines with the cancellation of a context is a sequence of steps. *)

From S2P Require Import Prelude GoLib Model.

(** ** Contexts *)

(** A context is alive or done, with what [ctx.Err] and [context.Cause] return then. *)
Record Done := mkDone { done_Err : error; done_Cause : error }.
Abbreviation Ctx := (option Done).

(** [cancel(err)] of [context.WithCancelCause]: the first cause stays. *)
Definition ctx_cancel (err : option error) (c : Ctx) : Ctx :=
  match c with
  | Some d => Some d
  | None => Some (mkDone ContextCanceled (default (ContextCanceled : error) err))
  end.

(** The parent of a derived context is done. *)
Definition ctx_follow (parent : Done) (c : Ctx) : Ctx :=
  match c with Some d => Some d | None => Some parent end.

(** What a [Run] returns: the error of the caller's context, or the cause of the derived one. *)
Definition run_result (ctx runCtx : Ctx) : option error :=
  match ctx with Some d => Some (done_Err d) | None => done_Cause <$> runCtx end.

(** ** [Worker.Run] *)

(** Where a loop is: at the test of its context, between the test and the wait or the claimed item,
    in the select of [execute] for the handler with the given number, or returned. *)
Inductive LoopState := Checking | Claiming | Executing (handler : nat) | Returned (err : option error).

(** [group.Wait], [waitForHandlers], or returned. *)
Inductive RunPhase := Looping | Draining | Finished (err : option error).

(** The handlers are numbered in the order they are started; [rn_handlers] says which have returned. *)
Record RunState := mkRunState {
  rn_ctx : Ctx;
  rn_runCtx : Ctx;
  rn_loops : list LoopState;
  rn_handlers : list bool;
  rn_phase : RunPhase;
}.
#[export] Instance set_rn_ctx : Settable rn_ctx := λ x v,
  mkRunState x (rn_runCtx v) (rn_loops v) (rn_handlers v) (rn_phase v).
#[export] Instance set_rn_runCtx : Settable rn_runCtx := λ x v,
  mkRunState (rn_ctx v) x (rn_loops v) (rn_handlers v) (rn_phase v).
#[export] Instance set_rn_loops : Settable rn_loops := λ x v,
  mkRunState (rn_ctx v) (rn_runCtx v) x (rn_handlers v) (rn_phase v).
#[export] Instance set_rn_handlers : Settable rn_handlers := λ x v,
  mkRunState (rn_ctx v) (rn_runCtx v) (rn_loops v) x (rn_phase v).
#[export] Instance set_rn_phase : Settable rn_phase := λ x v,
  mkRunState (rn_ctx v) (rn_runCtx v) (rn_loops v) (rn_handlers v) x.

Definition run_start (concurrency : Z) (ctx : Ctx) : RunState :=
  mkRunState ctx ctx (replicate (Z.to_nat concurrency) Checking) [] Looping.

Definition is_returned (l : LoopState) : Prop := ∃ err, l = Returned err.
Definition loop_at (s : RunState) (i : nat) (l : LoopState) : Prop :=
  rn_phase s = Looping ∧ rn_loops s !! i = Some l.
Definition move (i : nat) (l : LoopState) (s : RunState) : RunState :=
  s <| rn_loops := <[i := l]> (rn_loops s) |>.

(** The counter of [w.handlers]. *)
Definition running (s : RunState) : nat := length (filter (λ returned, returned = false) (rn_handlers s)).

(** What the handlers do: the handler [h] may return at all ([hd_returns]; one that ignores its context
    may never), has a timeout ([hd_timeout]), or loses its lease, so that the store refuses one of its
    heartbeats ([hd_refused]). *)
Record Handlers := mkHandlers {
  hd_returns : nat → bool;
  hd_timeout : nat → bool;
  hd_refused : nat → bool;
}.

(** Calls of the store return.  A heartbeat that is accepted changes nothing and is not a step. *)
Inductive run_step (hd : Handlers) : RunState → RunState → Prop :=
  (** the caller's context is done *)
  | run_cancelled s d : (∀ r, rn_phase s ≠ Finished r) → rn_ctx s = None →
      run_step hd s (s <| rn_ctx := Some d |> <| rn_runCtx := ctx_follow d (rn_runCtx s) |>)
  (** the loop finds its context alive, or done *)
  | run_check s i : loop_at s i Checking → rn_runCtx s = None → run_step hd s (move i Claiming s)
  | run_leave s i d : loop_at s i Checking → rn_runCtx s = Some d →
      run_step hd s (move i (Returned None) s)
  (** nothing was claimed: the wait elapses, or ends with the context *)
  | run_idle s i : loop_at s i Claiming → run_step hd s (move i Checking s)
  | run_interrupted s i d : loop_at s i Claiming → rn_runCtx s = Some d →
      run_step hd s (move i (Returned None) s)
  (** too many failures: the loop returns an error, with which the group is cancelled *)
  | run_fails s i err : loop_at s i Claiming →
      run_step hd s (move i (Returned (Some err)) (s <| rn_runCtx := ctx_cancel (Some err) (rn_runCtx s) |>))
  (** an item is claimed and its handler started *)
  | run_claims s i : loop_at s i Claiming →
      run_step hd s (move i (Executing (length (rn_handlers s)))
        (s <| rn_handlers := rn_handlers s ++ [false] |>))
  (** the select of [execute]: the context of the worker is done and the item given up, *)
  | run_abandons s i h d : loop_at s i (Executing h) → rn_runCtx s = Some d →
      run_step hd s (move i Checking s)
  (** the timeout of the handler has elapsed, *)
  | run_timed_out s i h : loop_at s i (Executing h) → hd_timeout hd h = true →
      run_step hd s (move i Checking s)
  (** the handler has sent its result, *)
  | run_resolves s i h : loop_at s i (Executing h) → rn_handlers s !! h = Some true →
      run_step hd s (move i Checking s)
  (** a heartbeat is refused *)
  | run_lost s i h : loop_at s i (Executing h) → hd_refused hd h = true →
      run_step hd s (move i Checking s)
  (** a handler returns, also after its loop has left it *)
  | run_handler_done s h : (∀ r, rn_phase s ≠ Finished r) → rn_handlers s !! h = Some false →
      hd_returns hd h = true → run_step hd s (s <| rn_handlers := <[h := true]> (rn_handlers s) |>)
  (** [group.Wait] returns *)
  | run_waited s : rn_phase s = Looping → Forall is_returned (rn_loops s) →
      run_step hd s (s <| rn_phase := Draining |>)
  (** the handlers have ended, or the grace period has *)
  | run_drained s : rn_phase s = Draining → running s = 0 →
      run_step hd s (s <| rn_phase := Finished (run_result (rn_ctx s) (rn_runCtx s)) |>)
  | run_timeout s : rn_phase s = Draining →
      run_step hd s (s <| rn_phase := Finished (Some (ErrShutdownTimeout : error)) |>).

(** ** [App.Run] *)

(** The components, in the order they are started, with what they have returned. *)
Record AppState := mkAppState {
  ap_ctx : Ctx;
  ap_runCtx : Ctx;
  ap_components : list (option (option error));
  ap_result : option (option error);
}.

Definition app_start (components : nat) (ctx : Ctx) : AppState :=
  mkAppState ctx ctx (replicate components None) None.

(** The errors with which a component cancels the others. *)
Definition reported (err : option error) : bool :=
  match err with Some e => negb (errors_Is e ContextCanceled) | None => false end.

Section AppRun.
(** What the component [i] may return, given the context it was started with. *)
Context (returns : nat → Ctx → option error → Prop).

Inductive app_step : AppState → AppState → Prop :=
  | app_cancelled s d : ap_result s = None → ap_ctx s = None →
      app_step s (mkAppState (Some d) (ctx_follow d (ap_runCtx s)) (ap_components s) None)
  | app_returns s i err : ap_result s = None → ap_components s !! i = Some None →
      returns i (ap_runCtx s) err →
      app_step s (mkAppState (ap_ctx s)
        (if reported err then ctx_cancel err (ap_runCtx s) else ap_runCtx s)
        (<[i := Some err]> (ap_components s)) None)
  | app_waited s : ap_result s = None → Forall is_Some (ap_components s) →
      app_step s (mkAppState (ap_ctx s) (ap_runCtx s) (ap_components s)
        (Some (run_result (ap_ctx s) (ap_runCtx s)))).
End AppRun.

(** ** Life-cycle hooks *)

(** The channel on which the background run reports. *)
Record Channel := mkChannel { ch_buffer : list (option error); ch_closed : bool }.

(** The two adapters differ in where they drop a cancellation, in whether they close the channel, and in
    the errors they return. *)
Record Hooks := mkHooks {
  hk_send : option error → option error;
  hk_closes : bool;
  hk_receive : option error → option error;
  hk_started : error;
  hk_expired : error → error;
}.

Definition drop_canceled (err : option error) : option error :=
  if reported err then err else None.

(** src/worker/fx/lifecycle.go *)
Definition worker_hooks : Hooks := mkHooks drop_canceled true
  (λ err, match err with Some e => Some (fmtError "worker stopped: %w" [] (Some e) []) | None => None end)
  (errorString "worker fx lifecycle already started")
  (λ e, fmtError "stop worker: %w" [] (Some e) []).

(** src/fx.go *)
Definition app_hooks : Hooks := mkHooks id false drop_canceled
  (errorString "ody app already started")
  (λ e, fmtError "stop ody app: %w" [] (Some e) []).

(** A life cycle: whether it was started, its channel and the cancellation of its run; then the runs
    started, whether the run has returned, the stops that wait, and what finished stops returned. *)
Record Lifecycle := mkLifecycle {
  lc_done : option Channel;
  lc_cancelled : bool;
  lc_runs : nat;
  lc_returned : option (option error);
  lc_waiting : nat;
  lc_stops : list (option error);
}.

Definition NewLifecycle : Lifecycle := mkLifecycle None false 0 None 0 [].

(** The receive of a select: the next value, the zero value of a closed channel, or none. *)
Definition receive (ch : Channel) : option (option error * Channel) :=
  match ch_buffer ch with
  | err :: rest => Some (err, mkChannel rest (ch_closed ch))
  | [] => if ch_closed ch then Some (None, ch) else None
  end.

Section Lifecycle.
Context (hk : Hooks).

Definition start (l : Lifecycle) : error + Lifecycle :=
  match lc_done l with
  | Some _ => inl (hk_started hk)
  | None => inr (mkLifecycle (Some (mkChannel [] false)) false (S (lc_runs l)) None (lc_waiting l)
                   (lc_stops l))
  end.

Inductive lifecycle_step : Lifecycle → Lifecycle → Prop :=
  | lc_start l l' : start l = inr l' → lifecycle_step l l'
  (** the background run ends and reports *)
  | lc_run_returns l ch err : lc_done l = Some ch → lc_returned l = None →
      lifecycle_step l (mkLifecycle (Some (mkChannel (ch_buffer ch ++ [hk_send hk err]) (hk_closes hk)))
        (lc_cancelled l) (lc_runs l) (Some err) (lc_waiting l) (lc_stops l))
  (** a stop before any start returns at once *)
  | lc_stop_idle l : lc_done l = None →
      lifecycle_step l (mkLifecycle None (lc_cancelled l) (lc_runs l) (lc_returned l) (lc_waiting l)
        (lc_stops l ++ [None]))
  (** a stop cancels the run and waits *)
  | lc_stop l ch : lc_done l = Some ch →
      lifecycle_step l (mkLifecycle (Some ch) true (lc_runs l) (lc_returned l) (S (lc_waiting l))
        (lc_stops l))
  | lc_stopped l ch n err ch' : lc_done l = Some ch → lc_waiting l = S n →
      receive ch = Some (err, ch') →
      lifecycle_step l (mkLifecycle (Some ch') (lc_cancelled l) (lc_runs l) (lc_returned l) n
        (lc_stops l ++ [hk_receive hk err]))
  (** the context of a stop is done first *)
  | lc_stop_expired l n e : lc_waiting l = S n →
      lifecycle_step l (mkLifecycle (lc_done l) (lc_cancelled l) (lc_runs l) (lc_returned l) n
        (lc_stops l ++ [Some (hk_expired hk e)])).
End Lifecycle.
