(* ===== verification/RuntimeProps.v ===== *)
(** * Properties of the runtime

    What [Run] returns and that it returns, over every interleaving of the goroutines. *)

From S2P Require Import Prelude GoLib Model Runtime.

(** ** The worker *)

Section Worker.
Context (hd : Handlers).

Record RunInv (s : RunState) : Prop := {
  run_follows : ∀ d, rn_ctx s = Some d → is_Some (rn_runCtx s);
  run_left : ∀ err, Returned err ∈ rn_loops s → is_Some (rn_runCtx s);
  run_cause : ∀ d, rn_ctx s = None → rn_runCtx s = Some d → Returned (Some (done_Cause d)) ∈ rn_loops s;
  run_waits : rn_phase s ≠ Looping → Forall is_returned (rn_loops s);
  run_ends : ∀ r, rn_phase s = Finished r → r = Some (ErrShutdownTimeout : error) ∨
    running s = 0 ∧ r = run_result (rn_ctx s) (rn_runCtx s);
}.

Lemma RunInv_start concurrency ctx : RunInv (run_start concurrency ctx).
Proof.
  split; simpl; try done.
  - intros err Hin. apply elem_of_replicate in Hin. by destruct Hin.
  - intros d Hc Hd. by rewrite Hc in Hd.
Qed.

(** The other loops stay in the list when one moves. *)
Lemma elem_of_move i l l0 x (ls : list LoopState) :
  ls !! i = Some l0 → x ≠ l0 → x ∈ ls → x ∈ <[i := l]> ls.
Proof.
  intros Hi Hx [j Hj]%list_elem_of_lookup. apply list_elem_of_lookup. exists j.
  rewrite list_lookup_insert_ne; [done|]. intros ->. congruence.
Qed.

Lemma elem_of_moved i l x (ls : list LoopState) : x ∈ <[i := l]> ls → x = l ∨ x ∈ ls.
Proof.
  intros [j Hj]%list_elem_of_lookup. destruct (decide (i = j)) as [<-|Hne].
  - destruct (decide (i < length ls)).
    + rewrite list_lookup_insert_eq in Hj by done. left. congruence.
    + rewrite list_insert_ge in Hj by lia. right. by apply list_elem_of_lookup_2 in Hj.
  - rewrite list_lookup_insert_ne in Hj by done. right. by apply list_elem_of_lookup_2 in Hj.
Qed.

Lemma moved_in i l l0 (ls : list LoopState) : ls !! i = Some l0 → l ∈ <[i := l]> ls.
Proof. intros Hi. apply list_elem_of_lookup. exists i. apply list_lookup_insert_eq. by eapply lookup_lt_Some. Qed.

(** A loop that was not returned moves; the derived context stays as it is or is cancelled. *)
Lemma RunInv_move s i l0 l runCtx handlers :
  RunInv s → loop_at s i l0 → (∀ err, l0 ≠ Returned err) →
  (is_Some (rn_runCtx s) → runCtx = rn_runCtx s) →
  (∀ err, l = Returned err → is_Some runCtx) →
  (∀ d, rn_runCtx s = None → runCtx = Some d → l = Returned (Some (done_Cause d))) →
  RunInv (mkRunState (rn_ctx s) runCtx (<[i := l]> (rn_loops s)) handlers (rn_phase s)).
Proof.
  intros [Hf Hl Hc Hw He] [Hp Hi] Hl0 Hkeep Hret Hnew. rewrite Hp. split; simpl; try done.
  - intros d Hd. specialize (Hf d Hd). by rewrite Hkeep.
  - intros err [<-|Hin]%elem_of_moved; [by eapply Hret|]. specialize (Hl err Hin). by rewrite Hkeep.
  - intros d Hd Hr. destruct (rn_runCtx s) as [d'|] eqn:Hrun.
    + rewrite (Hkeep ltac:(done)) in Hr. simplify_eq. eapply elem_of_move; [done| |by apply Hc]. congruence.
    + rewrite <-(Hnew d eq_refl Hr). by eapply moved_in.
Qed.

Lemma RunInv_step s s' : RunInv s → run_step hd s s' → RunInv s'.
Proof.
  intros Hs Hstep.
  assert (∀ i l0 l, loop_at s i l0 → (∀ err, l0 ≠ Returned err) →
    (∀ err, l = Returned err → is_Some (rn_runCtx s)) → RunInv (move i l s)) as Hmove.
  { intros i l0 l Hat Hl0 Hret. eapply RunInv_move; [done|done|done|done|done|]. intros d H1 H2. simpl in H1, H2. congruence. }
  destruct Hstep as [s d Hp Hd|s i Hat Hr|s i d Hat Hr|s i Hat|s i d Hat Hr|s i err Hat|s i Hat
    |s i h d Hat Hr|s i h Hat Ht|s i h Hat Hh|s i h Hat Hb|s h Hp Hh Hb|s Hp Hall|s Hp Hn|s Hp].
  - destruct Hs as [Hf Hl Hc Hw He]. split; simpl; try done.
    + intros _ _. by destruct (rn_runCtx s).
    + intros err Hin. by destruct (rn_runCtx s).
    + intros r Hr. by destruct (Hp r).
  - by eapply Hmove.
  - eapply Hmove; [done|done|]. by rewrite Hr.
  - by eapply Hmove.
  - eapply Hmove; [done|done|]. by rewrite Hr.
  - eapply (RunInv_move s i Claiming); [done|done|done|..].
    + intros [d Hd]. simpl. by rewrite Hd.
    + intros _ _. simpl. by destruct (rn_runCtx s).
    + intros d Hd. simpl. rewrite Hd. by intros [= <-].
  - eapply (RunInv_move s i Claiming); [done|done|done|done|done|]. intros d H1 H2. simpl in H1, H2. congruence.
  - by eapply Hmove.
  - by eapply Hmove.
  - by eapply Hmove.
  - by eapply Hmove.
  - destruct Hs as [Hf Hl Hc Hw He]. split; simpl; try done. intros r Hr. by destruct (Hp r).
  - destruct Hs as [Hf Hl Hc Hw He]. by split.
  - destruct Hs as [Hf Hl Hc Hw He]. split; simpl; try done; [intros _; apply Hw; by rewrite Hp|].
    intros r [= <-]. by right.
  - destruct Hs as [Hf Hl Hc Hw He]. split; simpl; try done; [intros _; apply Hw; by rewrite Hp|].
    intros r [= <-]. by left.
Qed.

Lemma run_length s s' : run_step hd s s' → length (rn_loops s') = length (rn_loops s).
Proof. destruct 1; simpl; by rewrite ?length_insert. Qed.

Definition run_reachable (concurrency : Z) (ctx : Ctx) (s : RunState) : Prop :=
  rtc (run_step hd) (run_start concurrency ctx) s.

Lemma run_reachable_inv concurrency ctx s :
  run_reachable concurrency ctx s →
  RunInv s ∧ length (rn_loops s) = Z.to_nat concurrency.
Proof.
  apply (rtc_ind_r (λ s, RunInv s ∧ length (rn_loops s) = Z.to_nat concurrency)).
  - split; [apply RunInv_start|apply length_replicate].
  - intros s1 s2 _ Hstep [Hs Hlen]. split; [by eapply RunInv_step|]. by rewrite (run_length _ _ Hstep).
Qed.

(** *** Termination *)

Definition loop_cost (l : LoopState) : nat :=
  match l with Checking => 1 | Claiming => 4 | Executing _ => 2 | Returned _ => 0 end.

(** A bound on the steps that are left once the derived context is done. *)
Definition run_cost (s : RunState) : nat :=
  (match rn_ctx s with None => 1 | Some _ => 0 end) + sum_list (loop_cost <$> rn_loops s)
  + running s + match rn_phase s with Looping => 2 | Draining => 1 | Finished _ => 0 end.

Lemma loops_cost_move i l0 l (ls : list LoopState) :
  ls !! i = Some l0 →
  sum_list (loop_cost <$> <[i := l]> ls) + loop_cost l0 = sum_list (loop_cost <$> ls) + loop_cost l.
Proof.
  revert i. induction ls as [|x ls IH]; intros [|i] Hi; simplify_eq/=; [lia|]. specialize (IH i Hi). lia.
Qed.

Lemma running_started s : length (filter (λ r : bool, r = false) (rn_handlers s ++ [false])) = S (running s).
Proof. unfold running. rewrite filter_app, length_app. simpl. lia. Qed.

Lemma running_done (l : list bool) h :
  l !! h = Some false →
  S (length (filter (λ r : bool, r = false) (<[h := true]> l))) = length (filter (λ r : bool, r = false) l).
Proof.
  revert h. induction l as [|x l IH]; intros [|h] Hh; simplify_eq/=; [done|]. rewrite !filter_cons. specialize (IH h Hh).
  destruct (decide (x = false)); simpl; lia.
Qed.

Lemma run_cost_step s s' :
  is_Some (rn_runCtx s) → run_step hd s s' → is_Some (rn_runCtx s') ∧ run_cost s' < run_cost s.
Proof.
  intros [d0 Hd0] Hstep. unfold run_cost, running.
  destruct Hstep as [s d Hp Hd|s i Hat Hr|s i d Hat Hr|s i Hat|s i d Hat Hr|s i err Hat|s i Hat
    |s i h d Hat Hr|s i h Hat Ht|s i h Hat Hh|s i h Hat Hb|s h Hp Hh Hb|s Hp Hall|s Hp Hn|s Hp];
    simpl; rewrite ?Hd0; try (destruct Hat as [Hp Hi]);
    try (match goal with |- context [<[?i := ?l]> (rn_loops ?s)] =>
      pose proof (loops_cost_move i _ l (rn_loops s) Hi) as Hc end);
    (split; [done|]); rewrite ?Hp, ?Hd, ?running_started; unfold running;
    try (pose proof (running_done _ _ Hh) as Hrun); simpl in *; try congruence; try lia.
Qed.

(** Until [Run] has returned, some step is enabled. *)
Lemma run_progress s :
  is_Some (rn_runCtx s) → (∀ s', ¬ run_step hd s s') → ∃ r, rn_phase s = Finished r.
Proof.
  intros [d Hd] Hstuck. destruct (rn_phase s) as [| |r] eqn:Hp; [exfalso..|by eexists].
  - destruct (decide (Forall (λ l, loop_cost l = 0) (rn_loops s))) as [Hall|Hsome].
    + eapply Hstuck, run_waited; [done|]. eapply Forall_impl; [done|]. intros [] ?; simpl in *; try done.
      by eexists.
    + apply not_Forall_Exists in Hsome; [|apply _]. apply Exists_exists in Hsome as (l & Hl & Hc).
      apply list_elem_of_lookup in Hl as [i Hi]. destruct l; simpl in Hc; [..|done].
      * by eapply Hstuck, (run_leave hd s i).
      * by eapply Hstuck, (run_idle hd s i).
      * by eapply Hstuck, (run_abandons hd s i).
  - by eapply Hstuck, run_timeout.
Qed.

(** A run ends while a handler still runs only by the end of the grace period. *)
Lemma run_grace s s' r :
  run_step hd s s' → rn_phase s' = Finished r → 0 < running s' → r = Some (ErrShutdownTimeout : error).
Proof.
  intros Hstep Hr Hn. destruct Hstep as [s d Hp Hd|s i Hat Hc|s i d Hat Hc|s i Hat|s i d Hat Hc|s i err Hat|s i Hat
    |s i h d Hat Hc|s i h Hat Ht|s i h Hat Hh|s i h Hat Hb|s h Hp Hh Hb|s Hp Hall|s Hp H0|s Hp]; simpl in Hr;
    try (destruct Hat as [Hp _]); try congruence; try (by destruct (Hp r)).
  exfalso. unfold running in *. simpl in Hn. lia.
Qed.
End Worker.

(** ** The application *)

(** The worker as a component: what its [Run] returns, whatever its handlers do, over every interleaving. *)
Definition worker_returns (concurrency : Z) (ctx : Ctx) (err : option error) : Prop :=
  ∃ hd s, run_reachable hd concurrency None s ∧ rn_ctx s = ctx ∧ rn_phase s = Finished err.

(** The scheduler as a component: [Run] returns the error of its context when that is done. *)
Definition scheduler_returns (ctx : Ctx) (err : option error) : Prop :=
  ∃ d, ctx = Some d ∧ err = Some (done_Err d).

(** The two components, in the order [App.Run] starts them. *)
Definition app_returns_of (concurrency : Z) (i : nat) : Ctx → option error → Prop :=
  match i with 0 => worker_returns concurrency | _ => scheduler_returns end.

Section App.
Context (concurrency : Z).

Record AppInv (s : AppState) : Prop := {
  app_two : length (ap_components s) = 2;
  app_follows : ∀ d, ap_ctx s = Some d → is_Some (ap_runCtx s);
  (** the scheduler ends with its context *)
  app_scheduler : ∀ err, ap_components s !! 1 = Some (Some err) →
    ∃ d, ap_runCtx s = Some d ∧ err = Some (done_Err d);
  (** the context that the caller left alone is cancelled by the error of a component *)
  app_cause : ∀ d, ap_ctx s = None → ap_runCtx s = Some d →
    done_Err d = ContextCanceled ∧ Some (Some (done_Cause d)) ∈ ap_components s ∧
    reported (Some (done_Cause d)) = true;
  app_finished : ∀ r, ap_result s = Some r → Forall is_Some (ap_components s) ∧
    r = run_result (ap_ctx s) (ap_runCtx s);
}.

Lemma AppInv_start : AppInv (app_start 2 None).
Proof. by split. Qed.

Lemma component_in i (err : option error) (l : list (option (option error))) :
  is_Some (l !! i) → Some err ∈ <[i := Some err]> l.
Proof.
  intros Hi. apply list_elem_of_lookup. exists i. apply list_lookup_insert_eq. by apply lookup_lt_is_Some.
Qed.

Lemma component_kept i (err : option error) x (l : list (option (option error))) :
  l !! i = Some None → Some x ∈ l → Some x ∈ <[i := Some err]> l.
Proof.
  intros Hi [j Hj]%list_elem_of_lookup. apply list_elem_of_lookup. exists j.
  rewrite list_lookup_insert_ne; [done|]. intros ->. congruence.
Qed.

(** A component returns: its error cancels the context if it is the first one and no cancellation. *)
Lemma AppInv_returns s i err :
  AppInv s → ap_components s !! i = Some None → app_returns_of concurrency i (ap_runCtx s) err →
  AppInv (mkAppState (ap_ctx s) (if reported err then ctx_cancel err (ap_runCtx s) else ap_runCtx s)
    (<[i := Some err]> (ap_components s)) None).
Proof.
  intros [H2 Hf Hs Hc _] Hi Hret. set (run' := if reported err then _ else _).
  assert (∀ d, ap_runCtx s = Some d → run' = Some d) as Hkeep.
  { intros d Hd. unfold run'. rewrite Hd. by destruct (reported err). }
  split; simpl; [by rewrite length_insert| | | |done].
  - intros d Hd. destruct (Hf d Hd) as [d' Hd']. by rewrite (Hkeep d' Hd').
  - intros err' Herr'. destruct (decide (i = 1)) as [->|Hne].
    + rewrite list_lookup_insert_eq in Herr' by lia. simplify_eq.
      destruct Hret as (d & Hd & ->). exists d. by rewrite (Hkeep d Hd).
    + rewrite list_lookup_insert_ne in Herr' by done. destruct (Hs _ Herr') as (d & Hd & ->). exists d.
      by rewrite (Hkeep d Hd).
  - intros d Hnone Hd. destruct (ap_runCtx s) as [d'|] eqn:Hrun.
    + rewrite (Hkeep d' eq_refl) in Hd. simplify_eq. destruct (Hc d Hnone eq_refl) as (H3 & H4 & H5).
      split_and!; [done|by apply component_kept|done].
    + unfold run' in Hd. destruct (reported err) eqn:Hrep; [|done]. destruct err as [e|]; [|done].
      simpl in Hd. simplify_eq. simpl. split_and!; [done|by apply component_in; eexists|done].
Qed.

Lemma AppInv_step s s' : AppInv s → app_step (app_returns_of concurrency) s s' → AppInv s'.
Proof.
  intros Hs Hstep. destruct Hstep as [s d Hres Hctx|s i err Hres Hi Hret|s Hres Hall].
  - destruct Hs as [H2 Hf Hs Hc _]. split; simpl; try done; [by destruct (ap_runCtx s)|].
    intros err Herr. destruct (Hs _ Herr) as (d' & -> & ->). by exists d'.
  - by apply AppInv_returns.
  - destruct Hs as [H2 Hf Hs Hc _]. split; simpl; try done. intros r [= <-]. by split.
Qed.

Lemma app_reachable_inv s :
  rtc (app_step (app_returns_of concurrency)) (app_start 2 None) s → AppInv s.
Proof.
  apply (rtc_ind_r AppInv); [apply AppInv_start|]. intros s1 s2 _ Hstep Hs. by eapply AppInv_step.
Qed.

(** The application has returned and the caller's context is alive: the worker failed, and the scheduler
    was stopped by that. *)
Lemma app_stopped_by_worker s r :
  AppInv s → ap_result s = Some r → ap_ctx s = None →
  ∃ e, r = Some e ∧ ap_components s = [Some (Some e); Some (Some (ContextCanceled : error))] ∧
    errors_Is e ContextCanceled = false ∧ ap_runCtx s = Some (mkDone ContextCanceled e).
Proof.
  intros Hs Hr Hx. destruct (app_finished _ Hs r Hr) as [Hall ->]. pose proof (app_two _ Hs) as H2.
  destruct (ap_components s) as [|c0 [|c1 [|]]] eqn:Hc; simplify_eq/=.
  apply Forall_cons in Hall as [[r0 ->] [[r1 ->] _]%Forall_cons].
  destruct (app_scheduler _ Hs r1) as (d & Hd & ->); [by rewrite Hc|].
  destruct (app_cause _ Hs d Hx Hd) as (He & Hin & Hrep). rewrite Hc in Hin. unfold run_result. rewrite Hx, Hd.
  exists (done_Cause d). destruct d as [e1 e2]. simpl in *. subst e1. split; [done|].
  assert (errors_Is e2 ContextCanceled = false) as Hgen by by apply negb_true_iff in Hrep.
  apply elem_of_cons in Hin as [Hin|Hin%list_elem_of_singleton]; [by simplify_eq|]. by simplify_eq.
Qed.
End App.

(** ** Life cycles *)

Section Hooks.
Context (hk : Hooks).

(** The messages that the run has sent and no stop has received. *)
Definition unread (l : Lifecycle) : list (option error) := from_option ch_buffer [] (lc_done l).

(** How a stop ends: before any start, with its own context, or after the run: with the report of the
    run, or, when an earlier stop has returned that, with the zero value of the closed channel. *)
Definition stop_outcome (l : Lifecycle) (r : option error) : Prop :=
  (lc_done l = None ∧ r = None) ∨ (∃ e, r = Some (hk_expired hk e)) ∨
  (∃ err, lc_returned l = Some err ∧
    (r = hk_receive hk (hk_send hk err) ∨
     hk_receive hk (hk_send hk err) ∈ lc_stops l ∧ hk_closes hk = true ∧ r = hk_receive hk None)).

Record LifecycleInv (l : Lifecycle) : Prop := {
  lifecycle_runs : lc_runs l = match lc_done l with Some _ => 1 | None => 0 end;
  lifecycle_silent : lc_returned l = None → unread l = [] ∧ from_option ch_closed false (lc_done l) = false;
  lifecycle_buffer : ∀ err, lc_returned l = Some err → 
    unread l = [] ∧ hk_receive hk (hk_send hk err) ∈ lc_stops l ∨ unread l = [hk_send hk err];
  lifecycle_closed : from_option ch_closed false (lc_done l) = true → hk_closes hk = true;
  lifecycle_idle : lc_done l = None → lc_returned l = None ∧ lc_waiting l = 0;
  lifecycle_cancels : 0 < lc_waiting l → lc_cancelled l = true;
  lifecycle_closes : is_Some (lc_returned l) → from_option ch_closed false (lc_done l) = hk_closes hk;
}.

Lemma LifecycleInv_new : LifecycleInv NewLifecycle.
Proof. split; simpl; try done; try lia; by intros [? ?]. Qed.

Lemma LifecycleInv_step l l' : LifecycleInv l → lifecycle_step hk l l' → LifecycleInv l'.
Proof.
  intros [Hr Hs Hb Hc Hi Hw Hcl] Hstep.
  destruct Hstep as [l l' Hst|l ch err Hd Hn|l Hd|l ch Hd|l ch n err ch' Hd Hn Hrec|l n e Hn].
  - unfold start in Hst. destruct (lc_done l) eqn:Hd; [done|]. simplify_eq. destruct (Hi eq_refl) as [H1 H2].
    split; simpl; try done; try lia; by intros [? ?].
  - unfold unread in *. rewrite Hd in *. destruct (Hs Hn) as [Hu Hf]. simpl in *.
    split; simpl; try done. intros err' [= <-]. rewrite Hu. by right.
  - unfold unread in *. rewrite Hd in *. split; try done. intros err Herr. by destruct (Hi eq_refl) as [? _]; simplify_eq/=.
  - unfold unread in *. rewrite Hd in *. by split.
  - unfold unread, receive in *. rewrite Hd in *. simpl in *. assert (lc_cancelled l = true) as Hca by (apply Hw; lia).
    destruct (ch_buffer ch) as [|m rest] eqn:Hbuf.
    + destruct (ch_closed ch) eqn:Hch; [|done]. simplify_eq. split; simpl; unfold unread; simpl; rewrite ?Hch, ?Hbuf; try done.
      intros err' Herr'. left. split; [done|]. destruct (Hb err' Herr') as [[_ ?]|[=]]. apply elem_of_app. by left.
    + simplify_eq. split; simpl; try done.
      * intros Hnone. by destruct (Hs Hnone).
      * intros err' Herr'. left. destruct (Hb err' Herr') as [[[=] _]|[= -> ->]]. split; [done|].
        apply elem_of_app. right. by left.
  - assert (lc_cancelled l = true) as Hca by (apply Hw; lia). split; simpl; try done.
    + intros err Herr. destruct (Hb err Herr) as [[? ?]|?]; [left|by right]. split; [done|].
      apply elem_of_app. by left.
    + intros Hd. destruct (Hi Hd). lia.
Qed.

Lemma lifecycle_reachable l : rtc (lifecycle_step hk) NewLifecycle l → LifecycleInv l.
Proof.
  apply (rtc_ind_r LifecycleInv); [apply LifecycleInv_new|]. intros l1 l2 _ Hstep Hl.
  by eapply LifecycleInv_step.
Qed.

Lemma stop_ends l l' r :
  LifecycleInv l → lifecycle_step hk l l' → lc_stops l' = lc_stops l ++ [r] → stop_outcome l r.
Proof.
  intros Hl Hstep Hr. destruct Hstep as [l l' Hst|l ch err Hd Hn|l Hd|l ch Hd|l ch n err ch' Hd Hn Hrec|l n e Hn];
    simpl in Hr.
  - unfold start in Hst. destruct (lc_done l); [done|]. simplify_eq. simpl in Hr.
    apply (f_equal length) in Hr. rewrite length_app in Hr. simpl in Hr. lia.
  - apply (f_equal length) in Hr. rewrite length_app in Hr. simpl in Hr. lia.
  - apply (inj (app _)) in Hr as [= <-]. by left.
  - apply (f_equal length) in Hr. rewrite length_app in Hr. simpl in Hr. lia.
  - apply (inj (app _)) in Hr as [= <-]. right. right. unfold receive in Hrec.
    destruct (lc_returned l) as [err'|] eqn:Hret.
    + exists err'. split; [done|]. destruct (lifecycle_buffer _ Hl err' Hret) as [[Hu Hsent]|Hu];
        unfold unread in Hu; rewrite Hd in Hu; simpl in Hu; rewrite Hu in Hrec.
      * right. destruct (ch_closed ch) eqn:Hch; [|done]. simplify_eq. split_and!; [done| |done].
        apply (lifecycle_closed _ Hl). by rewrite Hd.
      * simplify_eq. by left.
    + destruct (lifecycle_silent _ Hl Hret) as [Hu Hf]. unfold unread in Hu. rewrite Hd in Hu, Hf. simpl in Hu, Hf.
      by rewrite Hu, Hf in Hrec.
  - apply (inj (app _)) in Hr as [= <-]. right. left. by eexists.
Qed.

(** With a channel that is closed, every waiting stop can return once the run has. *)
Lemma stop_can_end l :
  LifecycleInv l → hk_closes hk = true → is_Some (lc_returned l) → 0 < lc_waiting l →
  ∃ l' err, lifecycle_step hk l l' ∧ lc_stops l' = lc_stops l ++ [hk_receive hk err].
Proof.
  intros Hl Hcl Hret Hw. destruct (lc_done l) as [ch|] eqn:Hd.
  2: { destruct (lifecycle_idle _ Hl Hd). lia. }
  destruct (lc_waiting l) as [|n] eqn:Hn; [lia|].
  pose proof (lifecycle_closes _ Hl Hret) as Hch. rewrite Hd, Hcl in Hch. simpl in Hch.
  destruct (receive ch) as [[err ch']|] eqn:Hrec.
  - eexists _, err. split; [by eapply lc_stopped|done].
  - unfold receive in Hrec. rewrite Hch in Hrec. by destruct (ch_buffer ch).
Qed.
End Hooks.

(** ** The properties *)

(** C36: [Worker.Run] returns only when every loop has returned, and never without an error: the shutdown
    timeout, or, when no handler runs any more, the error of the caller's context if that is done, and
    otherwise an error that a loop returned. *)
Theorem worker_run_result hd concurrency ctx s r :
  (0 < concurrency)%Z → run_reachable hd concurrency ctx s → rn_phase s = Finished r →
  Forall is_returned (rn_loops s) ∧ ∃ e, r = Some e ∧
    (e = ErrShutdownTimeout ∨ running s = 0 ∧
     match rn_ctx s with Some d => e = done_Err d | None => Returned (Some e) ∈ rn_loops s end).
Proof.
  intros Hpos Hs Hp. apply run_reachable_inv in Hs as [Hs Hlen].
  assert (Forall is_returned (rn_loops s)) as Hall by (apply (run_waits _ Hs); by rewrite Hp).
  split; [done|]. destruct (run_ends _ Hs r Hp) as [->|[Hh ->]]; [eexists; split; [done|by left]|].
  destruct (rn_loops s) as [|l ls] eqn:Hl; [simpl in Hlen; lia|].
  assert (is_Some (rn_runCtx s)) as [d Hd].
  { apply Forall_cons in Hall as [[err ->] _]. apply (run_left _ Hs err). rewrite Hl. by left. }
  unfold run_result. destruct (rn_ctx s) as [d'|] eqn:Hc; [eexists; split; [done|by right]|].
  rewrite Hd. eexists. split; [done|]. right. split; [done|]. rewrite <-Hl. by apply (run_cause _ Hs).
Qed.

(** C37: shutdown terminates whatever the handlers do, also when they ignore their context and never return,
    have no timeout and keep their lease: once the context of the loops is done, at most [run_cost] further
    steps are taken, and while [Run] has not returned some step of a loop, of [group.Wait] or of the grace
    period can be taken; a run that ends while a handler still runs has waited for the grace period.  The
    calls that the loops make of the store are taken to return, and heartbeats that the store accepts are
    not counted as steps. *)
Theorem worker_run_stops hd s :
  is_Some (rn_runCtx s) →
  ∀ k s', nsteps (run_step hd) k s s' →
    k ≤ run_cost s ∧ ((∀ s'', ¬ run_step hd s' s'') → ∃ r, rn_phase s' = Finished r) ∧
    (∀ s'' r, run_step hd s' s'' → rn_phase s'' = Finished r → 0 < running s'' →
      r = Some (ErrShutdownTimeout : error)).
Proof.
  intros Hd k s' Hsteps.
  assert (is_Some (rn_runCtx s') ∧ k + run_cost s' ≤ run_cost s) as [Hd' Hk].
  { revert Hd. induction Hsteps as [s|k s1 s2 s3 Hstep _ IH]; intros Hd; [by split|].
    destruct (run_cost_step _ _ _ Hd Hstep) as [Hd2 Hlt]. destruct (IH Hd2). split; [done|lia]. }
  split_and!; [lia|by apply run_progress|]. intros s'' r. by apply run_grace.
Qed.

(** C38: [App.Run] returns when the worker and the scheduler have, and never without an error: that of the
    caller's context if it is done, and otherwise the error of the worker, which is not a cancellation and
    has cancelled the context of both, so that the scheduler has returned with the cancellation.  (A worker
    whose error wraps a cancellation does not stop the application, which then returns only when the
    caller's context is done.) *)
Theorem app_run_result concurrency s r :
  rtc (app_step (app_returns_of concurrency)) (app_start 2 None) s → ap_result s = Some r →
  Forall is_Some (ap_components s) ∧ ∃ e, r = Some e ∧
    match ap_ctx s with
    | Some d => e = done_Err d
    | None => ap_components s = [Some (Some e); Some (Some (ContextCanceled : error))] ∧
        errors_Is e ContextCanceled = false ∧ ap_runCtx s = Some (mkDone ContextCanceled e)
    end.
Proof.
  intros Hs%app_reachable_inv Hr. destruct (app_finished _ Hs r Hr) as [Hall Hres]. split; [done|].
  destruct (ap_ctx s) as [d|] eqn:Hx; [by exists (done_Err d)|]. by apply app_stopped_by_worker.
Qed.

(** A worker whose only loop gives up with the error [err]. *)
Definition failed_run (err : error) : RunState :=
  mkRunState None (Some (mkDone ContextCanceled err)) [Returned (Some err)] [] (Finished (Some err)).

Lemma failed_run_reachable hd err : run_reachable hd 1 None (failed_run err).
Proof.
  unfold run_reachable. eapply rtc_l; [by apply (run_check _ _ 0)|].
  eapply rtc_l; [by apply (run_fails _ _ 0 err)|].
  eapply rtc_l; [apply run_waited; [done|repeat constructor; by eexists]|].
  eapply rtc_l; [by apply run_drained|]. apply rtc_refl.
Qed.

(** Handlers that ignore their context, have no timeout and keep their lease. *)
Definition deaf_handlers : Handlers := mkHandlers (λ _, false) (λ _, false) (λ _, false).

(** An application goes on without its worker when the error that stops the worker wraps a cancellation
    although the context is alive: the scheduler is not cancelled and nothing is reported. *)
Theorem app_survives_lost_worker :
  let err : error := fmtError "claim execution: %w" [] (Some (ContextCanceled : error)) [] in
  ∃ s, rtc (app_step (app_returns_of 1)) (app_start 2 None) s ∧
    ap_components s = [Some (Some err); None] ∧ ap_ctx s = None ∧ ap_runCtx s = None ∧ ap_result s = None.
Proof.
  intros err. exists (mkAppState None None [Some (Some err); None] None). split; [|done].
  eapply rtc_l; [|apply rtc_refl]. eapply (app_returns _ (app_start 2 None) 0 (Some err)); [done|done|].
  exists deaf_handlers, (failed_run err). split_and!; [apply failed_run_reachable|done|done].
Qed.

(** C39: a life cycle starts at most one background run, and a stop cancels it before it waits; a stop of a
    life cycle that was never started returns nil; any other returns when its own context is done, with an
    error, or after the run has returned: with the report of the run, or, with the worker's adapter, which
    closes its channel, with nil when an earlier stop has returned that report; with that adapter every
    waiting stop can return then. *)
Theorem lifecycle_sound hk l :
  rtc (lifecycle_step hk) NewLifecycle l →
  lc_runs l ≤ 1 ∧ (0 < lc_waiting l → lc_cancelled l = true) ∧
  (∀ l' r, lifecycle_step hk l l' → lc_stops l' = lc_stops l ++ [r] → stop_outcome hk l r) ∧
  (hk_closes hk = true → is_Some (lc_returned l) → 0 < lc_waiting l →
   ∃ l' err, lifecycle_step hk l l' ∧ lc_stops l' = lc_stops l ++ [hk_receive hk err]).
Proof.
  intros Hl%lifecycle_reachable. split_and!.
  - rewrite (lifecycle_runs _ _ Hl). destruct (lc_done l); lia.
  - apply (lifecycle_cancels _ _ Hl).
  - intros l' r. by apply stop_ends.
  - by apply stop_can_end.
Qed.

(** ** Examples *)

Lemma worker_run_result_witness :
  Returned (Some (errorString "down")) ∈ rn_loops (failed_run (errorString "down")).
Proof.
  destruct (worker_run_result deaf_handlers 1 None (failed_run (errorString "down")) (Some (errorString "down")))
    as (_ & e & [= <-] & [He|[_ He]]); [lia|apply failed_run_reachable|done|done|exact He].
Defined.

(** A loop that waits for a deaf handler when the caller cancels, and the end of the run. *)
Definition cancelled_run (loop : LoopState) (phase : RunPhase) : RunState :=
  let d := mkDone ContextCanceled ContextCanceled in mkRunState (Some d) (Some d) [loop] [false] phase.

Lemma worker_run_stops_witness :
  run_cost (cancelled_run (Executing 0) Looping) = 5 ∧ 4 ≤ run_cost (cancelled_run (Executing 0) Looping) ∧
  ∃ r, rn_phase (cancelled_run (Returned None) (Finished (Some (ErrShutdownTimeout : error)))) = Finished r.
Proof.
  split; [reflexivity|]. set (s := cancelled_run (Executing 0) Looping).
  destruct (worker_run_stops deaf_handlers s ltac:(by eexists) 4
    (cancelled_run (Returned None) (Finished (Some (ErrShutdownTimeout : error))))) as (Hk & Hend & _).
  - eapply nsteps_l; [by eapply (run_abandons _ s 0)|]. eapply nsteps_l; [by eapply (run_leave _ _ 0)|].
    eapply nsteps_l; [apply run_waited; [done|repeat constructor; by eexists]|].
    eapply nsteps_l; [by apply run_timeout|apply nsteps_O].
  - split; [exact Hk|]. apply Hend. intros s'' Hstep. inversion Hstep; unfold loop_at in *; simpl in *; naive_solver.
Defined.

(** The worker fails, and the scheduler is stopped. *)
Definition failed_app : AppState :=
  let err : error := errorString "down" in
  mkAppState None (Some (mkDone ContextCanceled err))
    [Some (Some err); Some (Some (ContextCanceled : error))] (Some (Some err)).

Lemma app_run_result_witness :
  rtc (app_step (app_returns_of 1)) (app_start 2 None) failed_app ∧
  errors_Is (errorString "down") ContextCanceled = false.
Proof.
  assert (rtc (app_step (app_returns_of 1)) (app_start 2 None) failed_app) as Hrun.
  { eapply rtc_l; [apply (app_returns _ _ 0 (Some (errorString "down"))); [done|done|]|].
    { exists deaf_handlers, (failed_run (errorString "down")). split_and!; [apply failed_run_reachable|done|done]. }
    eapply rtc_l; [apply (app_returns _ _ 1 (Some (ContextCanceled : error))); [done|done|by eexists]|].
    eapply rtc_l; [apply app_waited; [done|repeat constructor; by eexists]|]. apply rtc_refl. }
  split; [exact Hrun|].
  destruct (app_run_result 1 failed_app _ Hrun eq_refl) as (_ & e & [= <-] & _ & He & _). exact He.
Defined.

(** A worker that fails after it was started, and is stopped. *)
Definition stopping : Lifecycle :=
  mkLifecycle (Some (mkChannel [Some (errorString "down")] true)) true 1 (Some (Some (errorString "down"))) 1 [].

Lemma lifecycle_sound_witness :
  stop_outcome worker_hooks stopping
    (Some (fmtError "worker stopped: %w" [] (Some (errorString "down")) [])).
Proof.
  destruct (lifecycle_sound worker_hooks stopping) as (_ & _ & Hstop & _).
  - eapply rtc_l; [by apply lc_start|].
    eapply rtc_l; [by eapply (lc_run_returns _ _ _ (Some (errorString "down")))|].
    eapply rtc_l; [by eapply lc_stop|]. apply rtc_refl.
  - eapply Hstop; [by eapply (lc_stopped _ stopping)|done].
Defined.
