(* ===== verification/Observers.v ===== *)
(** * Observers (src/monitoring/prometheus/metrics.go, src/worker/zapobserver/observer.go)

    What the metrics and the log adapter make of the observations of a worker, and the collector of the
    persisted state.  The metrics library is represented by what the program tells it: increments of
    labelled counters, observations of a histogram, constant gauges. *)

From S2P Require Import Prelude GoLib Model Task TaskRegistry Worker.

Definition Operation_string (o : Operation) : string :=
  match o with
  | OperationClaim => "claim" | OperationReap => "reap" | OperationAdvance => "advance"
  | OperationReconcile => "reconcile" | OperationReload => "reload"
  end.

(** ** Metrics *)

Record Metrics := mkMetrics {
  mt_transitions : gmap (string * string) Z;
  mt_duration : gmap (string * string) (list Duration);
  mt_errors : gmap string Z;
  mt_infrastructureErrors : gmap string Z;
}.

Inductive Collector := CTransitions | CDuration | CErrors | CInfrastructureErrors | CStore.

(** The registerer and the store may be nil; [register] is the registerer's verdict on a collector. *)
Fixpoint register_all (register : Collector → option error) (l : list Collector) : option error :=
  match l with
  | [] => None
  | c :: l' => match register c with Some err => Some err | None => register_all register l' end
  end.

Definition NewMetrics (registerer : option (Collector → option error)) (store : bool) : error + Metrics :=
  match registerer with
  | None => inl (errorString "prometheus registerer is nil")
  | Some register =>
      if negb store then inl (errorString "prometheus execution store is nil") else
      match register_all register [CTransitions; CDuration; CErrors; CInfrastructureErrors; CStore] with
      | Some err => inl err
      | None => inr (mkMetrics ∅ ∅ ∅ ∅)
      end
  end.

(** [WithLabelValues(label).Inc()]. *)
Definition inc {K} `{Countable K} (label : K) (m : gmap K Z) : gmap K Z :=
  <[label := (default 0 (m !! label) + 1)%Z]> m.

(** [InfrastructureError] and [Transition]; [now] is the clock at the call. *)
Definition observe_metrics (now : Time) (m : Metrics) (o : Observation) : Metrics :=
  match o with
  | InfrastructureError operation _ =>
      mkMetrics (mt_transitions m) (mt_duration m) (mt_errors m)
        (inc (Operation_string operation) (mt_infrastructureErrors m))
  | Transition item status err =>
      let label := (e_TaskName item, Status_string status) in
      let errors := match err with Some _ => inc (e_TaskName item) (mt_errors m) | None => mt_errors m end in
      let duration :=
        if is_terminal status then
          let started := default (e_CreatedAt item) (e_StartedAt item) in
          let d := Z.max 0 (now - started) in
          <[label := default [] (mt_duration m !! label) ++ [d]]> (mt_duration m)
        else mt_duration m in
      mkMetrics (inc label (mt_transitions m)) duration errors (mt_infrastructureErrors m)
  end.

(** *** The collector of the persisted state *)

Class StatisticsReader (W : Type) := {
  stat_ExecutionCounts : M W (list ExecutionCount);
  stat_PipelineCounts : M W (list PipelineCount);
}.

Inductive Desc := DTaskExecutions | DPipelineRuns | DScrapeError.

Definition Desc_name (d : Desc) : string :=
  match d with
  | DTaskExecutions => "ody_store_task_executions"
  | DPipelineRuns => "ody_store_pipeline_runs"
  | DScrapeError => "ody_store_scrape_error"
  end.

(** A constant gauge with its label values. *)
Record Metric := mkMetric { mc_desc : Desc; mc_value : Z; mc_labels : list string }.

Definition Describe : list Desc := [DTaskExecutions; DPipelineRuns; DScrapeError].

(** Both counts are read, whatever the first returns. *)
Definition Collect {W} `{!StatisticsReader W} : M W (list Metric) :=
  tasks ← try stat_ExecutionCounts;
  runs ← try stat_PipelineCounts;
  match tasks, runs with
  | inr tasks, inr runs =>
      mret (mkMetric DScrapeError 0 [] ::
        ((λ item, mkMetric DTaskExecutions (ec_Count item) [ec_TaskName item; ec_Status item]) <$> tasks) ++
        ((λ run, mkMetric DPipelineRuns (pc_Count run) [pc_PipelineName run; pc_Status run]) <$> runs))
  | _, _ => mret [mkMetric DScrapeError 1 []]
  end.

(** ** Logging *)

Inductive LogField :=
  | LogID (id : UUID) | LogText (s : string) | LogInt (z : Z) | LogError (err : error).

(** The calls of the logger, with their key-value pairs. *)
Inductive LogCall :=
  | Infow (message : string) (fields : list (string * LogField))
  | Errorw (message : string) (fields : list (string * LogField)).

Definition log_observation (o : Observation) : LogCall :=
  match o with
  | Transition item status err =>
      let fields := [("execution_id", LogID (e_ID item)); ("task", LogText (e_TaskName item));
        ("task_version", LogInt (e_TaskVersion item)); ("attempt", LogInt (e_Attempt item));
        ("status", LogText (Status_string status))] in
      match err with
      | Some err => Errorw "task transition" (fields ++ [("error", LogError err)])
      | None => Infow "task transition" fields
      end
  | InfrastructureError operation err =>
      Errorw "worker infrastructure error"
        [("operation", LogText (Operation_string operation)); ("error", LogError err)]
  end.
