(* ===== verification/ObserversProps.v ===== *)
(** * Properties of the observers

    The counters count the observations of the worker, and a scrape reports the records of the store. *)

From S2P Require Import Prelude GoLib Model Memory MemoryInv MemoryCounts Task TaskRegistry Worker.
From S2P Require Import Demo Observers.

(** ** Counting observations *)

Section Counters.

(** The metrics after the observations, the [n]-th of which is made at the instant [clock n]. *)
Fixpoint metrics_after (clock : nat → Time) (n : nat) (m : Metrics) (obs : list Observation) : Metrics :=
  match obs with
  | [] => m
  | o :: obs' => metrics_after clock (S n) (observe_metrics (clock n) m o) obs'
  end.

Definition counted {K} `{Countable K} (m : gmap K Z) (k : K) : Z := default 0%Z (m !! k).

Lemma counted_inc {K} `{Countable K} (m : gmap K Z) k k' :
  counted (inc k m) k' = (counted m k' + if bool_decide (k' = k) then 1 else 0)%Z.
Proof.
  unfold counted, inc. case_bool_decide as Hk; [subst; by rewrite lookup_insert_eq|].
  rewrite lookup_insert_ne by done. lia.
Qed.

Definition matching (P : Observation → bool) (obs : list Observation) : Z :=
  Z.of_nat (length (List.filter P obs)).

(** The observations behind each metric. *)
Definition of_label (label : string * string) (o : Observation) : bool :=
  match o with
  | Transition item status _ => bool_decide (label = (e_TaskName item, Status_string status))
  | InfrastructureError _ _ => false
  end.
Definition of_error (task : string) (o : Observation) : bool :=
  match o with Transition item _ (Some _) => bool_decide (task = e_TaskName item) | _ => false end.
Definition of_operation (operation : string) (o : Observation) : bool :=
  match o with
  | InfrastructureError op _ => bool_decide (operation = Operation_string op)
  | Transition _ _ _ => false
  end.
Definition ended (label : string * string) (o : Observation) : bool :=
  of_label label o && match o with Transition _ status _ => is_terminal status | _ => false end.

Definition durations (m : Metrics) (label : string * string) : list Duration :=
  default [] (mt_duration m !! label).

Lemma matching_cons P o obs :
  matching P (o :: obs) = ((if P o then 1 else 0) + matching P obs)%Z.
Proof. unfold matching. simpl. destruct (P o); simpl; lia. Qed.

Lemma observe_counts now m o label task operation :
  counted (mt_transitions (observe_metrics now m o)) label
    = (counted (mt_transitions m) label + if of_label label o then 1 else 0)%Z ∧
  counted (mt_errors (observe_metrics now m o)) task
    = (counted (mt_errors m) task + if of_error task o then 1 else 0)%Z ∧
  counted (mt_infrastructureErrors (observe_metrics now m o)) operation
    = (counted (mt_infrastructureErrors m) operation + if of_operation operation o then 1 else 0)%Z.
Proof.
  destruct o as [item status err|op err]; simpl.
  - rewrite counted_inc. split_and!; [done| |lia]. destruct err; [by rewrite counted_inc|lia].
  - rewrite counted_inc. split_and!; [lia|lia|done].
Qed.

Lemma observe_durations now m o label :
  Forall (λ d, 0 ≤ d)%Z (durations m label) →
  Forall (λ d, 0 ≤ d)%Z (durations (observe_metrics now m o) label) ∧
  length (durations (observe_metrics now m o) label)
    = length (durations m label) + (if ended label o then 1 else 0).
Proof.
  intros Hpos. unfold durations, ended in *. destruct o as [item status err|op err]; simpl; [|by split; [|lia]].
  destruct (is_terminal status); simpl; [|rewrite andb_false_r; by split; [|lia]]. rewrite andb_true_r.
  case_bool_decide as Hl; [subst|rewrite lookup_insert_ne by congruence; by split; [|lia]].
  rewrite lookup_insert_eq. simpl. split; [|by rewrite length_app].
  apply Forall_app. split; [done|]. constructor; [lia|constructor].
Qed.

Lemma metrics_after_counts clock label task operation obs n m :
  Forall (λ d, 0 ≤ d)%Z (durations m label) →
  let m' := metrics_after clock n m obs in
  counted (mt_transitions m') label = (counted (mt_transitions m) label + matching (of_label label) obs)%Z ∧
  counted (mt_errors m') task = (counted (mt_errors m) task + matching (of_error task) obs)%Z ∧
  counted (mt_infrastructureErrors m') operation
    = (counted (mt_infrastructureErrors m) operation + matching (of_operation operation) obs)%Z ∧
  Forall (λ d, 0 ≤ d)%Z (durations m' label) ∧
  Z.of_nat (length (durations m' label))
    = (Z.of_nat (length (durations m label)) + matching (ended label) obs)%Z.
Proof.
  revert n m. induction obs as [|o obs IH]; intros n m Hpos; cbn [metrics_after].
  { unfold matching. simpl. split_and!; [lia|lia|lia|done|lia]. }
  destruct (observe_counts (clock n) m o label task operation) as (H1 & H2 & H3).
  destruct (observe_durations (clock n) m o label Hpos) as [H4 H5].
  destruct (IH (S n) _ H4) as (I1 & I2 & I3 & I4 & I5). rewrite !matching_cons.
  split_and!; [lia|lia|lia|done|]. rewrite I5, H5. destruct (ended label o); lia.
Qed.
End Counters.

(** ** Scrapes *)

#[export] Instance memory_statistics `{E : GoEnv} : StatisticsReader World := {|
  stat_ExecutionCounts := Memory.ExecutionCounts;
  stat_PipelineCounts := Memory.PipelineCounts;
|}.

Section Scrape.
Context `{E : GoEnv} {HE : GoEnvOk}.

(** The gauge of a pair of labels, if its records are counted. *)
Definition gauge (d : Desc) (keys : list (string * string)) (m : Metric) : Prop :=
  ∃ name status, m = mkMetric d (occurrences_of (name, status) keys) [name; status] ∧
    (0 < occurrences_of (name, status) keys)%Z.

(** The gauges of a report are those of the pairs in use. *)
Lemma report_gauges {R} (key : R → string * string) count d keys rows m :
  report key count keys rows →
  (∀ name status n, (0 < n)%Z → ∃ row, key row = (name, status) ∧ count row = n) →
  m ∈ ((λ row, mkMetric d (count row) [(key row).1; (key row).2]) <$> rows) ↔ gauge d keys m.
Proof.
  intros [Hrows _] Hmake. rewrite list_elem_of_fmap. split.
  - intros (row & -> & [Hpos Hc]%Hrows). destruct (key row) as [name status] eqn:Hk. simpl in *.
    exists name, status. rewrite <-Hc. done.
  - intros (name & status & -> & Hpos). destruct (Hmake name status _ Hpos) as (row & Hk & Hc). exists row.
    rewrite Hk, Hc. split; [done|]. apply Hrows. rewrite Hk. lia.
Qed.

Lemma Collect_gauges w :
  wp Collect (λ r w', mem w' = mem w ∧ ∃ tasks runs,
    r = inr (mkMetric DScrapeError 0 [] :: tasks ++ runs) ∧
    (∀ m, m ∈ tasks ↔ gauge DTaskExecutions (execution_key <$> (map_to_list (m_executions (mem w))).*2) m) ∧
    (∀ m, m ∈ runs ↔ gauge DPipelineRuns (run_key <$> (map_to_list (m_runs (mem w))).*2) m)) w.
Proof.
  unfold Collect. apply wp_bind. pose proof (ExecutionCounts_report w) as H1. unfold wp, try in *.
  cbn [stat_ExecutionCounts stat_PipelineCounts memory_statistics].
  destruct (Memory.ExecutionCounts w) as [r1 w1]. cbn [fst snd] in *. destruct H1 as (Hm1 & rows1 & -> & Hr1).
  apply wp_bind. pose proof (PipelineCounts_report w1) as H2. unfold wp in *.
  destruct (Memory.PipelineCounts w1) as [r2 w2]. cbn [fst snd] in *. destruct H2 as (Hm2 & rows2 & -> & Hr2).
  simpl. rewrite Hm1 in Hr2. split; [congruence|]. eexists _, _. split; [done|]. split; intros m.
  - apply (report_gauges (λ row, (ec_TaskName row, ec_Status row)) ec_Count); [done|].
    intros name status n _. by exists (mkExecutionCount name status n).
  - apply (report_gauges (λ row, (pc_PipelineName row, pc_Status row)) pc_Count); [done|].
    intros name status n _. by exists (mkPipelineCount name status n).
Qed.

(** The metrics are exact.  The counters of a worker's metrics are the numbers of its observations by
    label, every ended execution has one duration, which is not negative; a scrape of the in-memory store
    reports no error and one gauge for each task (pipeline) and status in use, with the number of its
    records. *)
Theorem metrics_exact clock obs label task operation w :
  (let m := metrics_after clock 0 (mkMetrics ∅ ∅ ∅ ∅) obs in
   counted (mt_transitions m) label = matching (of_label label) obs ∧
   counted (mt_errors m) task = matching (of_error task) obs ∧
   counted (mt_infrastructureErrors m) operation = matching (of_operation operation) obs ∧
   Forall (λ d, 0 ≤ d)%Z (durations m label) ∧
   Z.of_nat (length (durations m label)) = matching (ended label) obs) ∧
  wp Collect (λ r w', mem w' = mem w ∧ ∃ tasks runs,
    r = inr (mkMetric DScrapeError 0 [] :: tasks ++ runs) ∧
    (∀ m, m ∈ tasks ↔ gauge DTaskExecutions (execution_key <$> (map_to_list (m_executions (mem w))).*2) m) ∧
    (∀ m, m ∈ runs ↔ gauge DPipelineRuns (run_key <$> (map_to_list (m_runs (mem w))).*2) m)) w.
Proof.
  split; [|apply Collect_gauges].
  destruct (metrics_after_counts clock label task operation obs 0 (mkMetrics ∅ ∅ ∅ ∅)) as (H1 & H2 & H3 & H4 & H5);
    [constructor|].
  by split_and!.
Qed.
End Scrape.
