(* ===== verification/Monitoring.v ===== *)
(** * Monitoring (src/monitoring/service.go, src/monitoring/httpui/handler.go)

    The operational service over a store, and the HTTP interface over the service: routing, the
    parameters of a request, the status and the body of a response. *)

From S2P Require Import Prelude GoLib GoText Model Memory Task TaskRegistry Pipeline Engine.

(** ** The service *)

Record TaskDetails := mkTaskDetails { td_Execution : Execution; td_Events : list Event }.
Record PipelineDetails := mkPipelineDetails {
  pd_Run : PipelineRun;
  pd_Executions : list Execution;
}.

(** [monitoring.Persistence]: the execution and the pipeline repository. *)
Class MonitoringStore (W : Type) := {
  monitoring_persistence :: Persistence W;
  store_ListExecutions : ListFilter → M W (list Execution);
  store_Events : UUID → M W (list Event);
}.

(** The operations that the command line and the HTTP interface use. *)
Record API (W : Type) := mkAPI {
  api_ListTasks : ListFilter → M W (list Execution);
  api_Task : UUID → M W TaskDetails;
  api_ListPipelines : RunFilter → M W (list PipelineRun);
  api_Pipeline : UUID → M W PipelineDetails;
  api_RestartTask : UUID → M W Execution;
  api_CancelTask : UUID → string → M W unit;
}.
Arguments mkAPI {W} _ _ _ _ _ _.
Arguments api_ListTasks {W} _ _.
Arguments api_Task {W} _ _.
Arguments api_ListPipelines {W} _ _.
Arguments api_Pipeline {W} _ _.
Arguments api_RestartTask {W} _ _.
Arguments api_CancelTask {W} _ _ _.

(** A service is its restarter of pipeline nodes; its store is the one of the class. *)
Record Service (W : Type) := mkService { sv_pipelineRestarter : option (UUID → M W Execution) }.
Arguments mkService {W} _.
Arguments sv_pipelineRestarter {W} _.

Definition WithPipelineRestarter {W} (restarter : option (UUID → M W Execution))
    : Service W → Service W := λ _, mkService restarter.

Definition NewService {W} (store : option (MonitoringStore W)) (options : list (Service W → Service W))
    : error + Service W :=
  match store with
  | None => inl (errorString "monitoring store is nil")
  | Some _ => inr (foldl (λ service option, option service) (mkService None) options)
  end.

Section Service.
Context {W : Type} `{!MonitoringStore W}.

Definition ListTasks (s : Service W) (filter : ListFilter) : M W (list Execution) :=
  store_ListExecutions filter.

Definition Task (s : Service W) (id : UUID) : M W TaskDetails :=
  item ← GetExecution id;
  events ← store_Events id;
  mret (mkTaskDetails item events).

Definition ListPipelines (s : Service W) (filter : RunFilter) : M W (list PipelineRun) :=
  ListPipelineRuns filter.

Definition Pipeline_ (s : Service W) (id : UUID) : M W PipelineDetails :=
  run ← GetPipelineRun id;
  items ← ListRunExecutions id;
  mret (mkPipelineDetails run items).

Definition RestartTask (s : Service W) (id : UUID) : M W Execution :=
  item ← GetExecution id;
  match e_PipelineRunID item with
  | Some _ =>
      match sv_pipelineRestarter s with
      | None => throw ErrPipelineExecution
      | Some restart => restart id
      end
  | None => RestartExecution id 0
  end.

Definition CancelTask (s : Service W) (id : UUID) (reason : string) : M W unit :=
  CancelExecution id reason.

Definition service_API (s : Service W) : API W :=
  mkAPI (ListTasks s) (Task s) (ListPipelines s) (Pipeline_ s) (RestartTask s) (CancelTask s).
End Service.

(** ** HTTP *)

(** A request with a clean path, as its unescaped segments (none for "/"); for other paths the router
    answers with a redirection to the clean one. *)
Record Request := mkRequest {
  rq_Method : string;
  rq_Path : list string;
  rq_Query : gmap string (list string);
}.

(** [request.URL.Query().Get(key)]. *)
Definition Query_Get (request : Request) (key : string) : string :=
  match rq_Query request !! key with Some (value :: _) => value | _ => EmptyString end.

(** The body of a response: the embedded page, a plain text, or the value given to the JSON encoder. *)
Inductive Body :=
  | BIndex
  | BText (text : string)
  | BExecutions (items : list Execution)
  | BTask (details : TaskDetails)
  | BExecution (item : Execution)
  | BCancelled (cancelled : bool)
  | BRuns (runs : list PipelineRun)
  | BPipeline (details : PipelineDetails)
  | BError (message : string)
  | BMetrics (text : string).

Record Response := mkResponse { resp_Status : Z; resp_ContentType : string; resp_Body : Body }.

Definition StatusOK : Z := 200.
Definition StatusBadRequest : Z := 400.
Definition StatusNotFound : Z := 404.
Definition StatusMethodNotAllowed : Z := 405.
Definition StatusConflict : Z := 409.
Definition StatusInternalServerError : Z := 500.

Definition application_json : string := "application/json".
Definition text_plain : string := "text/plain; charset=utf-8".

(** [uuid.Parse]. *)
Class UUIDParser := { parse_uuid : string → error + UUID }.

Definition writeError (status : Z) (message : string) : Response :=
  mkResponse status application_json (BError message).

(** The parsers return a value or the response that ends the request. *)
Definition parseLimit (request : Request) : Response + Z :=
  let raw := Query_Get request "limit" in
  if is_empty raw then inr 100%Z else
  match ParseInt raw with
  | inr value =>
      if (value <? 1)%Z || (1000 <? value)%Z
      then inl (writeError StatusBadRequest "limit must be between 1 and 1000") else inr value
  | inl _ => inl (writeError StatusBadRequest "limit must be between 1 and 1000")
  end.

Section HTTP.
Context `{E : GoEnv} {UP : UUIDParser} {W : Type}.

Definition writeResult {A} (body : A → Body) (r : error + A) : Response :=
  match r with
  | inl err =>
      let status := if errors_Is err ErrNotFound then StatusNotFound
                    else if errors_Is err ErrActive then StatusConflict
                    else StatusInternalServerError in
      writeError status (error_Error err)
  | inr value => mkResponse StatusOK application_json (body value)
  end.

Definition parseCursor (request : Request) : Response + option Cursor :=
  let rawTime := Query_Get request "before_time" in
  let rawID := Query_Get request "before_id" in
  if is_empty rawTime && is_empty rawID then inr None else
  match time_Parse rawTime, parse_uuid rawID with
  | inr createdAt, inr id => inr (Some (mkCursor createdAt id))
  | _, _ => inl (writeError StatusBadRequest "before_time and before_id must form a valid cursor")
  end.

Definition parseID (id : string) : Response + UUID :=
  match parse_uuid id with
  | inl _ => inl (writeError StatusBadRequest "invalid id")
  | inr id => inr id
  end.

Record Handler := mkHandler { h_api : API W; h_metrics : option (Request → M W Response) }.

Definition NewHandler (api : option (API W)) (metrics : option (Request → M W Response))
    : error + Handler :=
  match api with
  | None => inl (errorString "monitoring api is nil")
  | Some api => inr (mkHandler api metrics)
  end.

(** A parsed value is used, or the response of the parser given. *)
Definition with_parsed {A} (r : Response + A) (k : A → M W Response) : M W Response :=
  match r with inl response => mret response | inr value => k value end.

(** The result of an operation of the service becomes the response. *)
Definition answer {A} (body : A → Body) (m : M W A) : M W Response :=
  r ← try m; mret (writeResult body r).

Definition index (h : Handler) (request : Request) : M W Response :=
  match rq_Path request with
  | [] => mret (mkResponse StatusOK "text/html; charset=utf-8" BIndex)
  | _ => mret (mkResponse StatusNotFound text_plain (BText "404 page not found"))
  end.

Definition tasks (h : Handler) (request : Request) : M W Response :=
  with_parsed (parseLimit request) (λ limit,
  with_parsed (parseCursor request) (λ cursor,
  answer BExecutions (api_ListTasks (h_api h)
    (mkListFilter (Query_Get request "task_name") (Query_Get request "status") None limit cursor)))).

Definition task (h : Handler) (id : string) : M W Response :=
  with_parsed (parseID id) (λ id, answer BTask (api_Task (h_api h) id)).

Definition restart (h : Handler) (id : string) : M W Response :=
  with_parsed (parseID id) (λ id, answer BExecution (api_RestartTask (h_api h) id)).

Definition cancel (h : Handler) (request : Request) (id : string) : M W Response :=
  with_parsed (parseID id) (λ id,
  let reason := TrimSpace (Query_Get request "reason") in
  let reason := if is_empty reason then "cancelled by operator" else reason in
  answer (λ _, BCancelled true) (api_CancelTask (h_api h) id reason)).

Definition pipelines (h : Handler) (request : Request) : M W Response :=
  with_parsed (parseLimit request) (λ limit,
  with_parsed (parseCursor request) (λ cursor,
  let statuses := List.filter (λ value, negb (is_empty value))
    (default [] (rq_Query request !! "status")) in
  answer BRuns (api_ListPipelines (h_api h) (mkRunFilter statuses limit cursor)))).

Definition pipeline (h : Handler) (id : string) : M W Response :=
  with_parsed (parseID id) (λ id, answer BPipeline (api_Pipeline (h_api h) id)).

(** The path "/api/<resource>..." *)
Definition api_path (a b resource : string) : bool := bool_decide (a = "api") && bool_decide (b = resource).

(** The patterns of the router.  A GET pattern also takes HEAD, a wildcard one segment that is not empty;
    "GET /" takes every path, so that any other request has the wrong method. *)
Definition ServeHTTP (h : Handler) (request : Request) : M W Response :=
  if bool_decide (rq_Method request = "GET") || bool_decide (rq_Method request = "HEAD") then
    match rq_Path request with
    | [a] => if bool_decide (a = "metrics")
             then match h_metrics h with Some metrics => metrics request | None => index h request end
             else index h request
    | [a; b] => if api_path a b "tasks" then tasks h request else
                if api_path a b "pipelines" then pipelines h request else index h request
    | [a; b; id] => if is_empty id then index h request else
                    if api_path a b "tasks" then task h id else
                    if api_path a b "pipelines" then pipeline h id else index h request
    | _ => index h request
    end
  else
    let refused := mret (mkResponse StatusMethodNotAllowed text_plain (BText "Method Not Allowed")) in
    if bool_decide (rq_Method request = "POST") then
      match rq_Path request with
      | [a; b; id; action] =>
          if negb (api_path a b "tasks") || is_empty id then refused else
          if bool_decide (action = "restart") then restart h id else
          if bool_decide (action = "cancel") then cancel h request id else refused
      | _ => refused
      end
    else refused.
End HTTP.
Arguments Handler : clear implicits.
