(* ===== verification/MonitoringProps.v ===== *)
(** * Properties of monitoring

    The HTTP interface over the service and the in-memory store: reads change nothing, actions answer
    with the status of their outcome, a client that follows the cursors sees every record. *)

From S2P Require Import Prelude GoLib GoText Model Memory MemoryInv StoreSpec MemoryOps MemoryLists.
From S2P Require Import Demo MemoryProps MemoryProps2 Task TaskRegistry Pipeline Engine StoreLaws Monitoring.

(** ** The in-memory store under the service *)

#[export] Instance memory_monitoring `{E : GoEnv} : MonitoringStore World := {|
  monitoring_persistence := memory_persistence;
  store_ListExecutions := Memory.ListExecutions;
  store_Events := Memory.Events;
|}.

(** What the program relies on of [uuid.Parse]. *)
Class UUIDParserOk `{E : GoEnv} {UP : UUIDParser} : Prop := {
  parse_uuid_String : ∀ u, parse_uuid (uuid_String u) = inr u;
}.

Section Reads.
Context `{E : GoEnv} {HE : GoEnvOk} {UP : UUIDParser}.

Lemma read_only_ret {A} (a : A) : read_only (mret a).
Proof. intros w. split; simpl; [done|lia]. Qed.

Lemma read_only_bind {A B} (m : M World A) (k : A → M World B) :
  read_only m → (∀ a, read_only (k a)) → read_only (m ≫= k).
Proof.
  intros Hm Hk w. unfold mbind, M_bind. destruct (Hm w) as [H1 H2]. destruct (m w) as [[e|a] w1]; [done|].
  destruct (Hk a w1) as [H3 H4]. simpl in *. split; [congruence|lia].
Qed.

Lemma read_only_try {A} (m : M World A) : read_only m → read_only (try m).
Proof. intros Hm w. unfold try. specialize (Hm w). by destruct (m w). Qed.

Lemma read_only_answer {A} (body : A → Body) m : read_only m → read_only (answer body m).
Proof. intros Hm. apply read_only_bind; [by apply read_only_try|]. intros r. apply read_only_ret. Qed.

Lemma read_only_parsed {A} (r : Response + A) k :
  (∀ a, read_only (k a)) → read_only (with_parsed r k).
Proof. intros Hk. destruct r; [apply read_only_ret|apply Hk]. Qed.

(** The requests that act on the store. *)
Definition is_action (request : Request) : bool :=
  bool_decide (rq_Method request = "POST")
  && match rq_Path request with
     | [a; b; _; action] => api_path a b "tasks" && (bool_decide (action = "restart") || bool_decide (action = "cancel"))
     | _ => false
     end.

Definition http (s : Service World) : Handler World := mkHandler (service_API s) None.

Lemma index_read s request : read_only (index (http s) request).
Proof. unfold index. case_match; apply read_only_ret. Qed.

Lemma tasks_read s request : read_only (tasks (http s) request).
Proof.
  apply read_only_parsed. intros limit. apply read_only_parsed. intros cursor.
  apply read_only_answer, ListExecutions_read.
Qed.

Lemma pipelines_read s request : read_only (pipelines (http s) request).
Proof.
  apply read_only_parsed. intros limit. apply read_only_parsed. intros cursor.
  apply read_only_answer, ListPipelineRuns_read.
Qed.

Lemma task_read s id : read_only (task (http s) id).
Proof.
  apply read_only_parsed. intros u. apply read_only_answer, read_only_bind; [apply GetExecution_read|].
  intros item. apply read_only_bind; [apply Events_read|]. intros evs. apply read_only_ret.
Qed.

Lemma pipeline_read s id : read_only (pipeline (http s) id).
Proof.
  apply read_only_parsed. intros u. apply read_only_answer, read_only_bind; [apply GetPipelineRun_read|].
  intros run. apply read_only_bind; [apply ListRunExecutions_read|]. intros items. apply read_only_ret.
Qed.

Lemma ServeHTTP_read s request :
  is_action request = false → read_only (ServeHTTP (http s) request).
Proof.
  unfold is_action, ServeHTTP. intros Hact. cbn [h_metrics http].
  destruct (bool_decide (rq_Method request = "GET") || _).
  - repeat first [apply index_read | apply tasks_read | apply pipelines_read | apply task_read
      | apply pipeline_read | case_match].
  - destruct (bool_decide (rq_Method request = "POST")); [|apply read_only_ret].
    cbn [andb] in Hact. destruct (rq_Path request) as [|a [|b [|id [|action []]]]]; try apply read_only_ret.
    destruct (api_path a b "tasks"); [|apply read_only_ret]. cbn [negb orb andb] in *.
    destruct (is_empty id), (bool_decide (action = "restart")), (bool_decide (action = "cancel")); try done;
      apply read_only_ret.
Qed.

(** A handler answers every request: the errors of the service become responses. *)
Definition answers {W} (m : M W Response) : Prop := ∀ w, ∃ response, (m w).1 = inr response.

Lemma answers_parsed {W A} (r : Response + A) (k : A → M W Response) :
  (∀ a, answers (k a)) → answers (with_parsed r k).
Proof. intros Hk w. destruct r as [response|a]; [by eexists|apply Hk]. Qed.

Lemma answers_answer {W A} (body : A → Body) (m : M W A) : answers (answer body m).
Proof. intros w. unfold answer, mbind, M_bind, try. destruct (m w). by eexists. Qed.

Lemma answers_index {W} (h : Handler W) request : answers (index h request).
Proof. intros w. unfold index. case_match; by eexists. Qed.

Lemma ServeHTTP_answers s request : answers (ServeHTTP (http s) request).
Proof.
  unfold ServeHTTP. cbn [h_metrics http].
  repeat first [apply answers_index | (intros ?; by eexists) | case_match];
    repeat (apply answers_parsed; intros ?); apply answers_answer.
Qed.
End Reads.

(** ** Actions *)

Section Actions.
Context `{E : GoEnv} {HE : GoEnvOk} {UP : UUIDParser}.

Definition action_request (raw action : string) (query : gmap string (list string)) : Request :=
  mkRequest "POST" ["api"; "tasks"; raw; action] query.

(** The reason that a cancellation records. *)
Definition cancel_reason (query : gmap string (list string)) : string :=
  let reason := TrimSpace (Query_Get (mkRequest "POST" [] query) "reason") in
  if is_empty reason then "cancelled by operator" else reason.

(** The status of the answer to a restart, by the stored execution; a service without a restarter of
    pipelines refuses pipeline nodes. *)
Definition restart_status (e : option Execution) : Z :=
  match e with
  | None => StatusNotFound
  | Some e => if bool_decide (is_Some (e_PipelineRunID e)) then StatusInternalServerError
              else if is_active (e_Status e) then StatusConflict else StatusOK
  end.

Definition cancel_status (e : option Execution) : Z :=
  match e with
  | None => StatusNotFound
  | Some e => if is_terminal (e_Status e) then StatusNotFound else StatusOK
  end.

Lemma ServeHTTP_restart h raw query :
  raw ≠ EmptyString → ServeHTTP (W := World) h (action_request raw "restart" query) = restart h raw.
Proof. intros Hraw. unfold ServeHTTP. simpl. by destruct raw. Qed.

Lemma ServeHTTP_cancel h raw query :
  raw ≠ EmptyString →
  ServeHTTP (W := World) h (action_request raw "cancel" query)
  = cancel h (action_request raw "cancel" query) raw.
Proof. intros Hraw. unfold ServeHTTP. simpl. by destruct raw. Qed.

(** The response to an action and what it does, from the operation on the store. *)
Definition action_outcome {A} (c : Call A) (status : Z) (body : A → Body) (w : World)
    (r : error + Response) (w' : World) : Prop :=
  ∃ response, r = inr response ∧ resp_Status response = status ∧
    ∃ outcome, call_step false c (env_now (tick w)) (mem w) outcome (mem w') ∧
      response = writeResult body outcome.

(** The restarter that the service calls for the stored execution, if any. *)
Definition restarter_of (s : Service World) (e : option Execution) : option (UUID → M World Execution) :=
  match e with
  | Some e => if bool_decide (is_Some (e_PipelineRunID e)) then sv_pipelineRestarter s else None
  | None => None
  end.

(** Without a restarter, the service restarts as the store does. *)
Lemma RestartTask_store s id w :
  RestartTask s id w = match restarter_of s (m_executions (mem w) !! id) with
                       | Some restarter => restarter id w
                       | None => Memory.RestartExecution id 0 w
                       end.
Proof.
  unfold RestartTask, mbind, M_bind. simpl. unfold Memory.GetExecution, mbind, M_bind. simpl.
  unfold restarter_of. destruct (m_executions (mem w) !! id) as [e|] eqn:He; simpl.
  - destruct (e_PipelineRunID e) eqn:Hr; simpl; [|done]. destruct (sv_pipelineRestarter s); [done|].
    unfold Memory.RestartExecution. rewrite bind_gets, He. simpl. by rewrite Hr.
  - unfold Memory.RestartExecution. by rewrite bind_gets, He.
Qed.

Lemma restart_answers s id w :
  Inv w → restarter_of s (m_executions (mem w) !! id) = None →
  wp (answer BExecution (RestartTask s id))
    (action_outcome (CRestart id 0) (restart_status (m_executions (mem w) !! id)) BExecution w) w.
Proof.
  intros Hinv Hnone. unfold answer, wp, mbind, M_bind, try. rewrite RestartTask_store, Hnone.
  pose proof (memory_call_step (CRestart id 0) w Hinv) as Hstep. unfold wp in Hstep.
  cbn [memory_call] in Hstep. destruct (Memory.RestartExecution id 0 w) as [r w']. cbn [fst snd] in *.
  eexists. split; [done|]. split; [|by exists r].
  unfold call_step, item_step in Hstep. cbn [call_id call_change call_result] in Hstep.
  unfold restart_status. destruct (m_executions (mem w) !! id) as [e|]; [|by destruct Hstep as [-> _]].
  unfold restart_change in Hstep. cbn [andb] in Hstep.
  destruct (bool_decide _); [by destruct Hstep as [-> _]|].
  destruct (is_active (e_Status e)); by destruct Hstep as [-> _].
Qed.

Lemma cancel_answers s id reason w :
  Inv w →
  wp (answer (λ _, BCancelled true) (CancelTask s id reason))
    (action_outcome (CCancel id reason) (cancel_status (m_executions (mem w) !! id))
      (λ _, BCancelled true) w) w.
Proof.
  intros Hinv. unfold answer, CancelTask, wp, mbind, M_bind, try.
  change (@CancelExecution World _ id reason) with (memory_call (CCancel id reason)).
  pose proof (memory_call_step (CCancel id reason) w Hinv) as Hstep. unfold wp in Hstep.
  destruct (memory_call (CCancel id reason) w) as [r w']. cbn [fst snd] in *.
  eexists. split; [done|]. split; [|by exists r].
  unfold call_step, item_step in Hstep. cbn [call_id call_change call_result] in Hstep.
  unfold cancel_status. destruct (m_executions (mem w) !! id) as [e|]; [|by destruct Hstep as [-> _]].
  unfold cancel_change in Hstep. destruct (is_terminal (e_Status e)); by destruct Hstep as [-> _].
Qed.
End Actions.

(** ** Pages *)

Section Pages.
Context `{E : GoEnv} {HE : GoEnvOk} {UP : UUIDParser} {HU : UUIDParserOk}.

Abbreviation Query := (gmap string (list string)).

(** The query for the records after [c]. *)
Definition next_query (query : Query) (c : Cursor) : Query :=
  <["before_time" := [format_RFC3339Nano (cu_CreatedAt c)]]>
    (<["before_id" := [uuid_String (cu_ID c)]]> query).

(** A client that asks for page after page of a listing, at most [fuel] of them: each request carries
    the instant and the identifier of the last record of the page before. *)
Fixpoint follow {A} (fuel : nat) (h : Handler World) (path : list string)
    (items : Body → option (list A)) (cursor : A → Cursor) (query : Query) : M World (list A) :=
  match fuel with
  | O => mret []
  | S fuel' =>
      response ← ServeHTTP h (mkRequest "GET" path query);
      match items (resp_Body response) with
      | None => throw (errorString "unexpected response")
      | Some page =>
          match last page with
          | None => mret []
          | Some c => rest ← follow fuel' h path items cursor (next_query query (cursor c));
                      mret (page ++ rest)
          end
      end
  end.

Definition executions_of (body : Body) : option (list Execution) :=
  match body with BExecutions items => Some items | _ => None end.
Definition runs_of (body : Body) : option (list PipelineRun) :=
  match body with BRuns runs => Some runs | _ => None end.

Definition execution_cursor (e : Execution) : Cursor := mkCursor (e_CreatedAt e) (e_ID e).
Definition run_cursor (r : PipelineRun) : Cursor := mkCursor (r_CreatedAt r) (r_ID r).

Abbreviation get path query := (mkRequest "GET" path query).

Lemma Query_Get_insert m p query key value :
  Query_Get (mkRequest m p (<[key := [value]]> query)) key = value.
Proof. unfold Query_Get. simpl. by rewrite lookup_insert_eq. Qed.

Lemma Query_Get_next m p query c key :
  key ≠ "before_time" → key ≠ "before_id" →
  Query_Get (mkRequest m p (next_query query c)) key = Query_Get (mkRequest m p query) key.
Proof. intros H1 H2. unfold Query_Get, next_query. simpl. by rewrite !lookup_insert_ne. Qed.

Lemma parseLimit_next m p query c :
  parseLimit (mkRequest m p (next_query query c)) = parseLimit (mkRequest m p query).
Proof. unfold parseLimit. by rewrite Query_Get_next. Qed.

Lemma parseLimit_path m p q query : parseLimit (mkRequest m p query) = parseLimit (mkRequest m q query).
Proof. done. Qed.

Lemma parseLimit_bounds request limit : parseLimit request = inr limit → (1 ≤ limit ≤ 1000)%Z.
Proof.
  unfold parseLimit. destruct (is_empty _); [intros [= <-]; lia|]. destruct (ParseInt _) as [|z]; [done|].
  destruct (_ || _) eqn:Hb; [done|]. intros [= <-]. apply orb_false_iff in Hb as [H1 H2].
  apply Z.ltb_ge in H1, H2. lia.
Qed.

(** The cursor that a client prints is the one that the handler reads. *)
Lemma parseCursor_next m p query c :
  time_ok (cu_CreatedAt c) → parseCursor (mkRequest m p (next_query query c)) = inr (Some c).
Proof.
  intros Ht. unfold parseCursor.
  assert (Query_Get (mkRequest m p (next_query query c)) "before_time"
          = format_RFC3339Nano (cu_CreatedAt c)) as -> by apply Query_Get_insert.
  assert (Query_Get (mkRequest m p (next_query query c)) "before_id" = uuid_String (cu_ID c)) as ->.
  { unfold Query_Get, next_query. simpl. rewrite lookup_insert_ne by done. by rewrite lookup_insert_eq. }
  pose proof (time_Parse_format _ Ht) as Hp.
  destruct (is_empty (format_RFC3339Nano (cu_CreatedAt c))) eqn:He.
  { destruct (format_RFC3339Nano (cu_CreatedAt c)); [discriminate Hp|discriminate He]. }
  cbn [andb]. rewrite Hp, parse_uuid_String. by destruct c.
Qed.

(** Following the cursors collects a listing, when every page is a limited prefix of what is left. *)
Lemma follow_all {A} path (items : Body → option (list A)) cursor h limit (ok : World → Prop)
    (good : Query → Prop) (listing : Query → World → list A) :
  (∀ query w, ok w → good query → wp (ServeHTTP h (get path query)) (λ r w',
     mem w' = mem w ∧ ok w' ∧ ∃ response, r = inr response ∧
     items (resp_Body response) = Some (limit_slice limit (listing query w))) w) →
  (∀ query w l1 c l2, ok w → good query → listing query w = l1 ++ c :: l2 →
     good (next_query query (cursor c)) ∧ listing (next_query query (cursor c)) w = l2) →
  (∀ query w w', mem w' = mem w → listing query w' = listing query w) →
  ∀ fuel query w, ok w → good query → length (listing query w) < fuel →
  (follow fuel h path items cursor query w).1 = inr (listing query w).
Proof.
  intros Hget Hnext Hmem. induction fuel as [|fuel IH]; intros query w Hinv Hgood Hlen; [lia|].
  cbn [follow]. unfold mbind, M_bind. specialize (Hget query w Hinv Hgood). unfold wp in Hget.
  destruct (ServeHTTP h (get path query) w) as [r w1]. cbn [fst snd] in Hget.
  destruct Hget as (Hm & Hinv1 & response & -> & Hpage). rewrite Hpage.
  destruct (limit_slice_split limit (listing query w)) as [[-> ->]|(l1 & c & l2 & -> & Hl)]; [done|].
  rewrite last_snoc. destruct (Hnext _ _ _ _ _ Hinv Hgood Hl) as [Hgood' Hrest].
  rewrite <-(Hmem _ _ _ Hm) in Hrest. specialize (IH _ w1 Hinv1 Hgood'). rewrite Hrest in IH.
  rewrite Hl in Hlen |- *. rewrite length_app in Hlen. simpl in Hlen. unfold mbind, M_bind.
  destruct (follow fuel h path items cursor _ w1) as [r2 w2]. simpl in IH.
  rewrite IH by lia. simpl. by rewrite <-app_assoc.
Qed.

(** The creation instants are in the years that the interface prints. *)
Definition dated (w : World) : Prop :=
  (∀ id e, m_executions (mem w) !! id = Some e → time_ok (e_CreatedAt e)) ∧
  (∀ id r, m_runs (mem w) !! id = Some r → time_ok (r_CreatedAt r)).

Definition cursor_of (request : Request) : option Cursor :=
  match parseCursor request with inr c => c | inl _ => None end.

(** The filters of the two listings. *)
Definition task_filter (limit : Z) (query : Query) : ListFilter :=
  let request := get ["api"; "tasks"] query in
  mkListFilter (Query_Get request "task_name") (Query_Get request "status") None limit (cursor_of request).

Definition run_filter (limit : Z) (query : Query) : RunFilter :=
  mkRunFilter (List.filter (λ value, negb (is_empty value)) (default [] (query !! "status"))) limit
    (cursor_of (get ["api"; "pipelines"] query)).

(** The parameters of a query for a listing are accepted. *)
Definition accepted (path : list string) (limit : Z) (query : Query) : Prop :=
  parseLimit (get path query) = inr limit ∧ ∃ c, parseCursor (get path query) = inr c.

Lemma accepted_next path limit query c :
  time_ok (cu_CreatedAt c) → accepted path limit query → accepted path limit (next_query query c).
Proof.
  intros Ht [Hl _]. split; [by rewrite parseLimit_next|]. exists (Some c). by apply parseCursor_next.
Qed.

Lemma task_filter_next limit query e :
  time_ok (e_CreatedAt e) →
  task_filter limit (next_query query (execution_cursor e)) = next_page (task_filter limit query) e.
Proof.
  intros Ht. unfold task_filter, next_page, cursor_of. rewrite parseCursor_next by done. simpl.
  by rewrite !Query_Get_next.
Qed.

Lemma run_filter_next limit query r :
  time_ok (r_CreatedAt r) →
  run_filter limit (next_query query (run_cursor r)) = next_run_page (run_filter limit query) r.
Proof.
  intros Ht. unfold run_filter, next_run_page, cursor_of. rewrite parseCursor_next by done. simpl.
  unfold next_query. by rewrite !lookup_insert_ne.
Qed.

Lemma tick_ok w : Inv w ∧ dated w → let w' := mkWorld (mem w) (S (tick w)) in Inv w' ∧ dated w'.
Proof. intros [Hi Hd]. split; [|done]. eapply (Inv_tick _ (tick w)); [lia|by destruct w]. Qed.

Lemma get_tasks_page s limit query w :
  Inv w ∧ dated w → accepted ["api"; "tasks"] limit query →
  wp (ServeHTTP (http s) (get ["api"; "tasks"] query)) (λ r w',
    mem w' = mem w ∧ (Inv w' ∧ dated w') ∧ ∃ response, r = inr response ∧
    executions_of (resp_Body response) = Some (limit_slice limit (listing (task_filter limit query) w))) w.
Proof.
  intros Hok [Hl [c Hc]]. unfold ServeHTTP. simpl. unfold tasks. rewrite Hl. cbn [with_parsed]. rewrite Hc.
  cbn [with_parsed]. unfold answer, wp, mbind, M_bind, try.
  cbn [http h_api service_API api_ListTasks]. unfold ListTasks. cbn [store_ListExecutions memory_monitoring]. rewrite ListExecutions_run by apply Hok. simpl. split; [done|]. split; [by apply tick_ok|].
  eexists. split; [done|]. simpl. unfold task_filter, cursor_of. by rewrite Hc.
Qed.

Lemma get_runs_page s limit query w :
  Inv w ∧ dated w → accepted ["api"; "pipelines"] limit query →
  wp (ServeHTTP (http s) (get ["api"; "pipelines"] query)) (λ r w',
    mem w' = mem w ∧ (Inv w' ∧ dated w') ∧ ∃ response, r = inr response ∧
    runs_of (resp_Body response) = Some (limit_slice limit (run_listing (run_filter limit query) w))) w.
Proof.
  intros Hok [Hl [c Hc]]. unfold ServeHTTP. simpl. unfold pipelines. rewrite Hl. cbn [with_parsed]. rewrite Hc.
  cbn [with_parsed]. unfold answer, wp, mbind, M_bind, try.
  cbn [http h_api service_API api_ListPipelines]. unfold ListPipelines.
  cbn [ListPipelineRuns monitoring_persistence memory_monitoring memory_persistence].
  rewrite ListPipelineRuns_run by apply Hok. simpl. split; [done|]. split; [by apply tick_ok|].
  eexists. split; [done|]. simpl. unfold run_filter, cursor_of. by rewrite Hc.
Qed.

Lemma follow_tasks s limit query fuel w :
  Inv w → dated w → accepted ["api"; "tasks"] limit query →
  length (listing (task_filter limit query) w) < fuel →
  (follow fuel (http s) ["api"; "tasks"] executions_of execution_cursor query w).1
  = inr (listing (task_filter limit query) w).
Proof.
  intros Hinv Hd Hq Hlen.
  apply (follow_all _ _ _ _ limit (λ w, Inv w ∧ dated w) (accepted ["api"; "tasks"] limit)
    (λ q w, listing (task_filter limit q) w)); [by intros; apply get_tasks_page|
    |intros ??? Hm; unfold listing; by rewrite Hm|done..].
  intros q w1 l1 c l2 [Hi1 Hd1] Hg Hl.
  assert (c ∈ listing (task_filter limit q) w1) as (id & c0 & Hc0 & _ & ->)%elem_of_listing
    by (rewrite Hl; set_solver).
  assert (time_ok (e_CreatedAt (cloneExecution c0))) as Ht by exact (proj1 Hd1 _ _ Hc0).
  split; [by apply accepted_next|]. rewrite task_filter_next by done. by eapply listing_next.
Qed.

Lemma follow_runs s limit query fuel w :
  Inv w → dated w → accepted ["api"; "pipelines"] limit query →
  length (run_listing (run_filter limit query) w) < fuel →
  (follow fuel (http s) ["api"; "pipelines"] runs_of run_cursor query w).1
  = inr (run_listing (run_filter limit query) w).
Proof.
  intros Hinv Hd Hq Hlen.
  apply (follow_all _ _ _ _ limit (λ w, Inv w ∧ dated w) (accepted ["api"; "pipelines"] limit)
    (λ q w, run_listing (run_filter limit q) w)); [by intros; apply get_runs_page|
    |intros ??? Hm; unfold run_listing; by rewrite Hm|done..].
  intros q w1 l1 c l2 [Hi1 Hd1] Hg Hl.
  assert (c ∈ run_listing (run_filter limit q) w1) as (id & c0 & Hc0 & _ & ->)%elem_of_run_listing
    by (rewrite Hl; set_solver).
  assert (time_ok (r_CreatedAt (cloneRun c0))) as Ht by exact (proj2 Hd1 _ _ Hc0).
  split; [by apply accepted_next|]. rewrite run_filter_next by done. by eapply run_listing_next.
Qed.
End Pages.

(** ** The properties *)

Section Properties.
Context `{E : GoEnv} {HE : GoEnvOk} {UP : UUIDParser}.

(** C27: reading is safe: a request that is not a POST to the restart or the cancellation of a task is
    answered without changing the store, whatever its method, path and parameters. *)
Theorem http_reads_safe s request w :
  is_action request = false →
  let '(r, w') := ServeHTTP (http s) request w in
  mem w' = mem w ∧ ∃ response, r = inr response.
Proof.
  intros Hact. pose proof (ServeHTTP_read s request Hact w) as [Hm _].
  pose proof (ServeHTTP_answers s request w) as Hr. destruct (ServeHTTP (http s) request w) as [r w'].
  done.
Qed.

(** C26: actions over HTTP on the in-memory store, for every stored execution and identifier and with or
    without a restarter of pipelines: a cancellation, and the restart of an execution that no restarter is
    called for, make the change of the store, or answer 400 for a malformed identifier, 404 for an unknown
    execution (and for a cancellation of a finished one), 409 for a restart of an active one and, in a
    service without a restarter, 500 for a restart of a pipeline node; a refused action changes nothing. In
    a service with a restarter the restart of a pipeline node is its call, answered with the status and body
    of its result. *)
Theorem http_actions_answer s raw query w :
  reachable w → raw ≠ EmptyString →
  let restart := action_request raw "restart" query in
  let cancel := action_request raw "cancel" query in
  let h := http s in
  match parse_uuid raw with
  | inl _ => ∀ request, request = restart ∨ request = cancel →
      ServeHTTP h request w = (inr (writeError StatusBadRequest "invalid id"), w)
  | inr id =>
      let e := m_executions (mem w) !! id in
      match restarter_of s e with
      | None => wp (ServeHTTP h restart) (action_outcome (CRestart id 0) (restart_status e) BExecution w) w
      | Some restarter =>
          ServeHTTP h restart w = (inr (writeResult BExecution (restarter id w).1), (restarter id w).2)
      end ∧
      wp (ServeHTTP h cancel) (action_outcome (CCancel id (cancel_reason query)) (cancel_status e)
        (λ _, BCancelled true) w) w
  end.
Proof.
  intros Hinv%reachable_Inv Hraw. cbv zeta.
  assert (∀ request, request = action_request raw "restart" query ∨ request = action_request raw "cancel" query →
    ∀ err, parse_uuid raw = inl err →
    ServeHTTP (http s) request w = (inr (writeError StatusBadRequest "invalid id"), w)) as Hbad.
  { intros request [-> | ->] err Herr; rewrite ?ServeHTTP_restart, ?ServeHTTP_cancel by done;
      unfold restart, cancel, parseID; by rewrite Herr. }
  destruct (parse_uuid raw) as [err|id] eqn:Hp; [by intros; eapply Hbad|].
  rewrite ServeHTTP_restart, ServeHTTP_cancel by done. unfold restart, cancel, parseID. rewrite Hp.
  split; [|by apply cancel_answers]. destruct (restarter_of s _) as [restarter|] eqn:Hr; [|by apply restart_answers].
  unfold with_parsed, answer, mbind, M_bind, try. cbn [api_RestartTask h_api http service_API].
  rewrite RestartTask_store, Hr. by destruct (restarter id w).
Qed.

Context {HU : UUIDParserOk}.

(** C25: a client of the HTTP interface that follows the cursors, page after page, sees every matching
    execution and run once, newest first, whatever page size it asks for: the instant and the identifier
    of the last record, as the interface prints them, select exactly the records after it. *)
Theorem http_paging_complete s limit query fuel w :
  reachable w → dated w →
  accepted ["api"; "tasks"] limit query → accepted ["api"; "pipelines"] limit query →
  length (listing (task_filter limit query) w) < fuel →
  length (run_listing (run_filter limit query) w) < fuel →
  (follow fuel (http s) ["api"; "tasks"] executions_of execution_cursor query w).1
    = inr (listing (task_filter limit query) w) ∧
  (follow fuel (http s) ["api"; "pipelines"] runs_of run_cursor query w).1
    = inr (run_listing (run_filter limit query) w) ∧ (1 ≤ limit ≤ 1000)%Z.
Proof.
  intros Hinv%reachable_Inv Hd Ht Hr ??. split_and!; [by apply follow_tasks|by apply follow_runs|..];
    destruct Ht as [Hl _]; apply parseLimit_bounds in Hl; lia.
Qed.
End Properties.

(** ** Examples *)

#[export] Instance demo_parser : UUIDParser := {| parse_uuid := demo_parse_uuid |}.
#[export] Instance demo_parser_ok : UUIDParserOk.
Proof. split. exact demo_parse_uuid_String. Qed.

Definition monitored : World :=
  run_ops [OpCreateExecution (demo_request "a"); OpCreateExecution (demo_request "b");
           OpCreatePipelineRun (mkCreatePipelineRun "p" 1 None "key")].

Lemma monitored_reachable : reachable monitored.
Proof. apply run_ops_reachable. repeat constructor; vm_compute; done. Qed.

Lemma http_reads_safe_witness :
  mem (ServeHTTP (http (mkService None)) (mkRequest "GET" ["api"; "tasks"] ∅) monitored).2 = mem monitored.
Proof.
  pose proof (http_reads_safe (mkService None) (mkRequest "GET" ["api"; "tasks"] ∅) monitored eq_refl) as H.
  destruct (ServeHTTP _ _ _) as [r w']. exact (proj1 H).
Defined.

(** A restart of a pending execution, and its cancellation without a reason. *)
Lemma http_actions_answer_witness :
  wp (ServeHTTP (http (mkService (Some (λ _, throw ErrConflict)))) (action_request "01" "restart" ∅))
    (action_outcome (CRestart 2%N 0) StatusConflict BExecution monitored) monitored ∧
  wp (ServeHTTP (http (mkService (Some (λ _, throw ErrConflict)))) (action_request "01" "cancel" ∅))
    (action_outcome (CCancel 2%N "cancelled by operator") StatusOK (λ _, BCancelled true) monitored) monitored.
Proof.
  exact (http_actions_answer (mkService (Some (λ _, throw ErrConflict))) "01" ∅ monitored monitored_reachable
    ltac:(done)).
Defined.

#[export] Instance time_ok_dec t : Decision (time_ok t).
Proof. unfold time_ok. apply _. Defined.

Lemma dated_check w :
  bool_decide (map_Forall (λ _ e, time_ok (e_CreatedAt e)) (m_executions (mem w))) = true →
  bool_decide (map_Forall (λ _ r, time_ok (r_CreatedAt r)) (m_runs (mem w))) = true → dated w.
Proof. intros H1%bool_decide_eq_true H2%bool_decide_eq_true. by split. Qed.

(** Pages of one record. *)
Lemma http_paging_complete_witness :
  let query := {["limit" := ["1"]]} in
  (follow 3 (http (mkService None)) ["api"; "tasks"] executions_of execution_cursor query monitored).1
  = inr (listing (task_filter 1 query) monitored).
Proof.
  intros query. apply (http_paging_complete (mkService None) 1 query 3 monitored).
  - exact monitored_reachable.
  - apply dated_check; vm_compute; reflexivity.
  - split; [vm_compute; reflexivity|]. exists None. vm_compute. reflexivity.
  - split; [vm_compute; reflexivity|]. exists None. vm_compute. reflexivity.
  - vm_compute. lia.
  - vm_compute. lia.
Defined.
