(* ===== verification/RedisKeys.v ===== *)
(** * The keyspace of the Redis store (src/execution/redis/keys.go)

    The names of the keys, and the proof that no two of them collide: an identifier is printed, a name
    chosen by a user is encoded, and the parts are joined by a separator that the encoding does not
    produce. *)

From S2P Require Import Prelude GoLib GoText Model Memory.

Section Keys.
Context `{E : GoEnv} (prefix : string).

Definition encodeKey (value : string) : string := base64_encode value.

Definition executionKey (id : UUID) : string := prefix +:+ "execution:" +:+ uuid_String id.
Definition eventsKey (id : UUID) : string := prefix +:+ "events:" +:+ uuid_String id.
Definition executionsKey : string := prefix +:+ "executions".
Definition leasesKey : string := prefix +:+ "leases".
Definition executionCountsKey : string := prefix +:+ "counts:executions".
Definition pipelineCountsKey : string := prefix +:+ "counts:pipelines".
Definition queueKey (name : string) : string := prefix +:+ "queue:" +:+ encodeKey name.
Definition taskIndexKey (name : string) : string := prefix +:+ "task:" +:+ encodeKey name.
Definition statusKey (status : string) : string := prefix +:+ "status:" +:+ status.
Definition idempotencyKey (taskName key : string) : string :=
  prefix +:+ "idempotency:" +:+ encodeKey (taskName +:+ NUL +:+ key).
Definition nodeKey (runID : UUID) (node : string) : string :=
  prefix +:+ "node:" +:+ uuid_String runID +:+ ":" +:+ encodeKey node.
Definition runExecutionsKey (id : UUID) : string := prefix +:+ "run-executions:" +:+ uuid_String id.
Definition pipelineKey (id : UUID) : string := prefix +:+ "pipeline:" +:+ uuid_String id.
Definition runsKey : string := prefix +:+ "pipelines".
Definition pipelineIdempotencyKey (name key : string) : string :=
  prefix +:+ "pipeline-idempotency:" +:+ encodeKey (name +:+ NUL +:+ key).
Definition runStatusKey (status : string) : string := prefix +:+ "pipeline-status:" +:+ status.

(** ** The keys by their role *)

(** [KIdempotency] and [KRunIdempotency] carry the joined pair of names. *)
Inductive Key :=
  | KExecution (id : UUID) | KEvents (id : UUID)
  | KExecutions | KLeases | KExecutionCounts | KPipelineCounts
  | KQueue (name : string) | KTask (name : string) | KStatus (status : string)
  | KIdempotency (joined : string) | KNode (run : UUID) (node : string)
  | KRunExecutions (run : UUID) | KRun (id : UUID) | KRuns
  | KRunIdempotency (joined : string) | KRunStatus (status : string).

#[global] Instance Key_eq_dec : EqDecision Key.
Proof. solve_decision. Defined.

Definition key_name (k : Key) : string :=
  match k with
  | KExecution id => executionKey id
  | KEvents id => eventsKey id
  | KExecutions => executionsKey
  | KLeases => leasesKey
  | KExecutionCounts => executionCountsKey
  | KPipelineCounts => pipelineCountsKey
  | KQueue name => queueKey name
  | KTask name => taskIndexKey name
  | KStatus status => statusKey status
  | KIdempotency joined => prefix +:+ "idempotency:" +:+ encodeKey joined
  | KNode run node => nodeKey run node
  | KRunExecutions run => runExecutionsKey run
  | KRun id => pipelineKey id
  | KRuns => runsKey
  | KRunIdempotency joined => prefix +:+ "pipeline-idempotency:" +:+ encodeKey joined
  | KRunStatus status => runStatusKey status
  end.

Context `{!GoEnvOk}.

Lemma key_suffix_inj (a b : string) : prefix +:+ a = prefix +:+ b → a = b.
Proof. induction prefix as [|c p IH]; [done|]. rewrite !append_cons. intros [= ?]. auto. Qed.

#[global] Instance key_name_inj : Inj (=) (=) key_name.
Proof.
  intros k k' Heq.
  destruct k, k'; cbn [key_name] in Heq; apply key_suffix_inj in Heq; simpl in Heq;
    try discriminate Heq; try injection Heq as Heq; rewrite ?append_nil in Heq;
    try done; try congruence;
    try (apply (inj uuid_String) in Heq; congruence);
    try (apply (inj base64_encode) in Heq; congruence).
  apply (app_sep_inj_r (Ascii.ascii_of_nat 58)) in Heq as [Hr Hn]; [|apply base64_no_colon..].
  apply (inj uuid_String) in Hr. apply (inj base64_encode) in Hn. congruence.
Qed.

(** The names the source builds are those of the roles. *)
Lemma idempotencyKey_role name key :
  idempotencyKey name key = key_name (KIdempotency (idempotent_key name key)).
Proof. done. Qed.

Lemma pipelineIdempotencyKey_role name key :
  pipelineIdempotencyKey name key = key_name (KRunIdempotency (idempotent_key name key)).
Proof. done. Qed.
End Keys.
