(* ===== verification/RedisServer.v ===== *)
(** * The Redis server and its client, as the store relies on them

    The server and the client library (go-redis) are not part of the program: their commands are the
    operations of a class, [RedisClient], and what the store relies on is the class [RedisLaws].  The laws
    describe the server from one client: between two commands of the client other clients may change the
    keyspace, a transaction started with WATCH is refused when a watched key was touched in between, a
    command may fail on the way, and a transaction that fails on the way may have been executed. *)

From S2P Require Import Prelude GoLib GoText Model RedisKeys.

(** ** Values and writing commands *)

(** A score is a float64; the store uses integers that a float64 represents exactly. *)
Inductive RValue :=
  | RString (text : string)
  | RList (items : list string)
  | RHash (fields : gmap string string)
  | RZSet (scores : gmap string Z).

Abbreviation Keyspace := (gmap string RValue).

(** The commands queued in a transaction, with the key they write; a DEL of several keys is listed per
    key. *)
Inductive Op :=
  | OSet (text : string) | OHIncrBy (field : string) (incr : Z) | OZAdd (score : Z) (member : string)
  | OZRem (member : string) | ORPush (text : string) | OHSet (fields : gmap string string) | ODel.

Record Cmd := mkCmd { cmd_key : string; cmd_op : Op }.

Definition SET (key text : string) : Cmd := mkCmd key (OSet text).
Definition HINCRBY (key field : string) (incr : Z) : Cmd := mkCmd key (OHIncrBy field incr).
Definition ZADD (key : string) (score : Z) (member : string) : Cmd := mkCmd key (OZAdd score member).
Definition ZREM (key member : string) : Cmd := mkCmd key (OZRem member).
Definition RPUSH (key text : string) : Cmd := mkCmd key (ORPush text).
Definition HSET (key : string) (fields : gmap string string) : Cmd := mkCmd key (OHSet fields).
Definition DEL (key : string) : Cmd := mkCmd key ODel.

Definition as_list (v : option RValue) : option (list string) :=
  match v with None => Some [] | Some (RList l) => Some l | _ => None end.
Definition as_hash (v : option RValue) : option (gmap string string) :=
  match v with None => Some ∅ | Some (RHash h) => Some h | _ => None end.
Definition as_zset (v : option RValue) : option (gmap string Z) :=
  match v with None => Some ∅ | Some (RZSet z) => Some z | _ => None end.

(** The integer of a field of a hash; a missing field counts as zero. *)
Definition hash_int (h : gmap string string) (field : string) : option Z :=
  match h !! field with
  | None => Some 0%Z
  | Some text => match ParseInt text with inr z => Some z | inl _ => None end
  end.

(** An empty collection is the absence of its key. *)
Definition zset_value (z : gmap string Z) : option RValue :=
  if decide (z = ∅) then None else Some (RZSet z).

(** What a command does to the value of its key; [None] when the server reports an error (a value of
    another type, an increment that overflows) or the score is not exact. *)
Definition op_value (o : Op) (v : option RValue) : option (option RValue) :=
  match o with
  | OSet text => Some (Some (RString text))
  | OHIncrBy field incr =>
      h ← as_hash v; n ← hash_int h field;
      if bool_decide (- 2 ^ 63 ≤ n + incr ≤ MaxInt64)%Z
      then Some (Some (RHash (<[field := pretty (n + incr)%Z]> h))) else None
  | OZAdd score member =>
      z ← as_zset v;
      if bool_decide (- 2 ^ 53 ≤ score ≤ 2 ^ 53)%Z
      then Some (Some (RZSet (<[member := score]> z))) else None
  | OZRem member => z ← as_zset v; Some (zset_value (delete member z))
  | ORPush text => l ← as_list v; Some (Some (RList (l ++ [text])))
  | OHSet fields => h ← as_hash v; Some (Some (RHash (fields ∪ h)))
  | ODel => Some None
  end.

Definition apply_cmd (c : Cmd) (ks : Keyspace) : option Keyspace :=
  v ← op_value (cmd_op c) (ks !! cmd_key c); Some (partial_alter (λ _, v) (cmd_key c) ks).

Fixpoint apply_all (cmds : list Cmd) (ks : Keyspace) : option Keyspace :=
  match cmds with
  | [] => Some ks
  | c :: cmds' => ks' ← apply_cmd c ks; apply_all cmds' ks'
  end.

(** ** Ordered reads of a sorted set *)

Definition score_less (a b : string * Z) : bool :=
  if (a.2 =? b.2)%Z then str_lt a.1 b.1 else (a.2 <? b.2)%Z.

Definition zset_entries (z : gmap string Z) : list (string * Z) :=
  sort_Slice score_less (map_to_list z).

Definition zrange (z : gmap string Z) : list string := (zset_entries z).*1.

(** ZRANGEBYSCORE -inf max LIMIT 0 count; no limit when [count] is zero. *)
Definition zrange_by_score (z : gmap string Z) (max count : Z) : list string :=
  let due := (List.filter (λ p, (p.2 <=? max)%Z) (zset_entries z)).*1 in
  if (count =? 0)%Z then due else take (Z.to_nat count) due.

(** ** The client *)

(** The calls on the client or on the transaction it hands out.  A result [redis.Nil] is the error
    [RedisNil], a refused transaction the error [RedisTxFailed].  [Watch keys body] runs [body] in a
    connection that watches [keys]; [tx_TxPipelined] sends MULTI, the commands and EXEC on that
    connection, [TxPipelined] on another one. *)
Class RedisClient (W : Type) := {
  redis_Time : M W Time;
  redis_Get : string → M W string;
  redis_HGetAll : string → M W (gmap string string);
  redis_LRange : string → M W (list string);
  redis_ZRange : string → M W (list string);
  redis_ZRevRange : string → M W (list string);
  redis_ZRangeByScore : string → Z → Z → M W (list string);
  redis_ZRem : string → string → M W unit;
  redis_Watch : ∀ A : Type, list string → M W A → M W A;
  tx_TxPipelined : list Cmd → M W unit;
  redis_TxPipelined : list Cmd → M W unit;
}.

(** The queries of the process that make no request: a random identifier, the order of a map
    iteration. *)
Class Process (W : Type) := {
  process_uuid : M W UUID;
  process_range : ∀ A : Type, list A → M W (list A);
}.

(** [uuid.Parse], and [json.Marshal] and [json.Unmarshal] at the types the store keeps. *)
Class Codec := {
  uuid_Parse : string → error + UUID;
  marshal_execution : Execution → error + string;
  unmarshal_execution : string → error + Execution;
  marshal_event : Event → error + string;
  unmarshal_event : string → error + Event;
  valid_json : string → Prop;
}.

(** ** The laws of the codecs *)

(** The texts that JSON keeps: a string in UTF-8, an instant of a year JSON can write, an [int], and a
    raw message in the form [json.Marshal] gives it ([valid_json]).  A nil raw message is written as
    [null] unless the field is omitted when empty. *)
Definition text_ok (s : string) : Prop := valid_utf8 s = true.
Definition int_ok (z : Z) : Prop := (- 2 ^ 63 ≤ z ≤ MaxInt64)%Z.
Definition optional {A} (P : A → Prop) (x : option A) : Prop :=
  match x with Some a => P a | None => True end.

Section CodecLaws.
Context `{!Codec}.

Record json_ok (e : Execution) : Prop := {
  json_name : text_ok (e_TaskName e);
  json_version : int_ok (e_TaskVersion e);
  json_input : ∃ s, e_Input e = Some s ∧ valid_json s;
  json_output : optional valid_json (e_Output e);
  json_attempt : int_ok (e_Attempt e);
  json_max : int_ok (e_MaxAttempts e);
  json_available : time_ok (e_AvailableAt e);
  json_owner : text_ok (e_LeaseOwner e);
  json_until : time_ok (e_LeaseUntil e);
  json_error : text_ok (e_LastError e);
  json_idempotency : text_ok (e_IdempotencyKey e);
  json_node : text_ok (e_NodeKey e);
  json_created : time_ok (e_CreatedAt e);
  json_started : optional time_ok (e_StartedAt e);
  json_finished : optional time_ok (e_FinishedAt e);
}.

Record event_ok (ev : Event) : Prop := {
  event_attempt_ok : int_ok (ev_Attempt ev);
  event_error_ok : text_ok (ev_Error ev);
  event_created_ok : time_ok (ev_CreatedAt ev);
}.

Class CodecOk `{E : GoEnv} : Prop := {
  uuid_Parse_String : ∀ u, uuid_Parse (uuid_String u) = inr u;
  execution_codec : ∀ e, json_ok e →
    ∃ text, marshal_execution e = inr text ∧ unmarshal_execution text = inr e;
  event_codec : ∀ ev, event_ok ev →
    ∃ text, marshal_event ev = inr text ∧ unmarshal_event text = inr ev;
  valid_json_nonempty : ∀ s, valid_json s → s ≠ EmptyString;
}.
End CodecLaws.

(** ** The laws of the server *)

(** What one client knows of the server: the keyspace; the keys it watches and whether one of them was
    touched since; the identifiers this process drew and did not yet write. *)
Record RState := mkRState {
  keyspace : Keyspace;
  watched : list string;
  dirty : bool;
  issued : gset UUID;
}.

Definition st_open (keys : list string) (s : RState) : RState :=
  mkRState (keyspace s) keys false (issued s).
Definition st_close (s : RState) : RState := mkRState (keyspace s) [] false (issued s).
(** After a write the identifiers may be known to others. *)
Definition st_write (ks : Keyspace) (s : RState) : RState := mkRState ks (watched s) (dirty s) ∅.
Definition st_issue (id : UUID) (s : RState) : RState :=
  mkRState (keyspace s) (watched s) (dirty s) ({[id]} ∪ issued s).

(** The clock of the server is away from the ends of the years that RFC 3339 can write by more than the
    longest duration. *)
Definition clock_ok (t : Time) : Prop := (2 ^ 63 ≤ t < 3652059 * 86400 * Second - 2 ^ 63)%Z.

Section Laws.
Context `{E : GoEnv} {W : Type} `{!RedisClient W} `{!Process W}.
Context (prefix : string) (st : W → RState).
(** [others ks T ks']: other clients touch the keys [T]. *)
Context (others : Keyspace → gset string → Keyspace → Prop).
(** The errors of the connection. *)
Context (transport : error → Prop).

(** The keys that record an identifier. *)
Definition names_id (id : UUID) (k : string) : Prop :=
  k = executionKey prefix id ∨ k = pipelineKey prefix id.

(** Other clients run for a while.  An identifier that only this process knows is not touched, and
    a server holds fewer than [2 ^ 62] keys. *)
Definition evolve (s s' : RState) : Prop :=
  ∃ touched, others (keyspace s) touched (keyspace s') ∧
    (∀ k, k ∉ touched → keyspace s' !! k = keyspace s !! k) ∧
    (∀ id k, id ∈ issued s → names_id id k → k ∉ touched) ∧
    watched s' = watched s ∧ issued s' = issued s ∧
    dirty s' = dirty s || bool_decide (Exists (λ k, k ∈ touched) (watched s)) ∧
    (Z.of_nat (size (keyspace s')) < 2 ^ 62)%Z.

Definition failed {A} (r : error + A) : Prop := ∃ e, r = inl e ∧ transport e.

(** A read returns what [f] finds in the keyspace, or fails on the way; [None] is a value of another
    type. *)
Definition reads {A} (m : M W A) (f : Keyspace → option (error + A)) : Prop :=
  ∀ w, wp m (λ r w', evolve (st w) (st w') ∧ (failed r ∨ ∀ r', f (keyspace (st w')) = Some r' → r = r')) w.

Class RedisLaws : Prop := {
  law_transport : ∀ e s, transport e → errors_Is e s = true →
    s = ContextCanceled ∨ s = ContextDeadlineExceeded;
  law_Time : ∀ w, wp redis_Time (λ r w', evolve (st w) (st w') ∧
    (failed r ∨ ∃ t, r = inr t ∧ clock_ok t)) w;
  law_Get : ∀ k, reads (redis_Get k) (λ ks,
    match ks !! k with
    | None => Some (inl (RedisNil : error))
    | Some (RString text) => Some (inr text)
    | _ => None
    end);
  law_HGetAll : ∀ k, reads (redis_HGetAll k) (λ ks, inr <$> as_hash (ks !! k));
  law_LRange : ∀ k, reads (redis_LRange k) (λ ks, inr <$> as_list (ks !! k));
  law_ZRange : ∀ k, reads (redis_ZRange k) (λ ks, inr ∘ zrange <$> as_zset (ks !! k));
  law_ZRevRange : ∀ k, reads (redis_ZRevRange k) (λ ks, inr ∘ reverse ∘ zrange <$> as_zset (ks !! k));
  law_ZRangeByScore : ∀ k max count, (0 ≤ count)%Z →
    reads (redis_ZRangeByScore k max count) (λ ks,
      (λ z, inr (zrange_by_score z max count)) <$> as_zset (ks !! k));
  law_ZRem : ∀ k member w, wp (redis_ZRem k member) (λ r w', ∃ s, evolve (st w) s ∧
    (st w' = s ∧ failed r ∨
     (∀ ks, apply_cmd (ZREM k member) (keyspace s) = Some ks →
        st w' = st_write ks s ∧ (r = inr tt ∨ failed r)))) w;
  law_Watch : ∀ A keys (body : M W A) (Q : error + A → W → Prop) w,
    (∀ s w', evolve (st w) s → st w' = st_open keys s →
       wp body (λ r w1, ∀ w2, st w2 = st_close (st w1) → Q r w2) w') →
    (∀ e w', transport e → evolve (st w) (st w') → Q (inl e) w') →
    wp (redis_Watch A keys body) Q w;
  law_tx : ∀ cmds w, wp (tx_TxPipelined cmds) (λ r w', ∃ s, evolve (st w) s ∧
    (st w' = st_close s ∧ failed r ∨
     st w' = st_close s ∧ dirty s = true ∧ r = inl (RedisTxFailed : error) ∨
     dirty s = false ∧ (∀ ks, apply_all cmds (keyspace s) = Some ks →
       st w' = st_close (st_write ks s) ∧ (r = inr tt ∨ failed r)))) w;
  law_TxPipelined : ∀ cmds w, wp (redis_TxPipelined cmds) (λ r w', ∃ s, evolve (st w) s ∧
    (st w' = s ∧ failed r ∨
     (∀ ks, apply_all cmds (keyspace s) = Some ks →
       st w' = st_write ks s ∧ (r = inr tt ∨ failed r)))) w;
  law_uuid : ∀ w, wp process_uuid (λ r w', ∃ id, r = inr id ∧ id ≠ uuid_Nil ∧
    (∀ k, names_id id k → keyspace (st w) !! k = None) ∧ st w' = st_issue id (st w)) w;
  law_range : ∀ A (l : list A) w, wp (process_range A l) (λ r w', ∃ l', r = inr l' ∧ l' ≡ₚ l ∧
    st w' = st w) w;
}.
End Laws.
