(* ===== verification/Redis.v ===== *)
(** * The Redis store (src/execution/redis)

    Every operation of [redis.Store], on the commands of [RedisServer]: source-of-truth records,
    derived indexes, optimistic transactions retried on contention.  The section variable [prefix] is
    the field [prefix] of the store; the client is the class [RedisClient]. *)

From S2P Require Import Prelude GoLib GoText Model Memory RedisKeys RedisServer.

(** ** Configuration *)

Record Options := mkRedisOptions { o_Prefix : string }.
Record Store (C : Type) := mkStore { s_client : C; s_prefix : string }.
Arguments mkStore {C} _ _.
Arguments s_client {C} _.
Arguments s_prefix {C} _.

Definition defaultPrefix : string := "ody:{execution}:".

(** [None] is the nil client. *)
Definition New {C : Type} (client : option C) (options : Options) : error + Store C :=
  match client with
  | None => inl (errorString "redis execution store client is nil")
  | Some c => inr (mkStore c (if is_empty (o_Prefix options) then defaultPrefix
                              else o_Prefix options))
  end.

(** ** Encoding (src/execution/redis/encoding.go) *)

Section Encoding.
Context `{E : GoEnv} `{!Codec}.

(** The arguments of HSET, as the client renders them. *)
Definition encodeRun (run : PipelineRun) : gmap string string :=
  let finished := match r_FinishedAt run with
                  | Some t => format_RFC3339Nano t
                  | None => EmptyString
                  end in
  list_to_map [("id", uuid_String (r_ID run)); ("pipeline_name", r_PipelineName run);
    ("pipeline_version", pretty (r_PipelineVersion run));
    ("input", default EmptyString (r_Input run)); ("status", RunStatus_string (r_Status run));
    ("error", r_Error run); ("idempotency_key", r_IdempotencyKey run);
    ("revision", pretty (r_Revision run));
    ("created_at", format_RFC3339Nano (r_CreatedAt run));
    ("updated_at", format_RFC3339Nano (r_UpdatedAt run)); ("finished_at", finished)].

(** The named states of a run; [RunStatus] has no value for another string. *)
Definition parse_RunStatus (s : string) : option RunStatus :=
  list_find (λ st, RunStatus_string st = s)
    [RunPending; RunRunning; RunSucceeded; RunFailed; RunCancelled] ≫= λ p, Some p.2.

Definition value_of (values : gmap string string) (field : string) : string :=
  default EmptyString (values !! field).

(** A conversion [execution.RunStatus(text)] of a text that names no state gives a run that the model
    cannot hold; it is reported as an error. *)
Definition decodeRun (values : gmap string string) : error + PipelineRun :=
  match uuid_Parse (value_of values "id") with inl e => inl e | inr id =>
  match Sscan_int (value_of values "pipeline_version") with inl e => inl e | inr version =>
  match (if is_empty (value_of values "revision") then inr 0%Z
         else Sscan_uint64 (value_of values "revision")) with inl e => inl e | inr revision =>
  match time_Parse (value_of values "created_at") with inl e => inl e | inr created =>
  match time_Parse (value_of values "updated_at") with inl e => inl e | inr updated =>
  match parse_RunStatus (value_of values "status") with
  | None => inl (fmt_Errorf "unknown run status %q" [value_of values "status"])
  | Some status =>
      let run finished := mkPipelineRun id (value_of values "pipeline_name") version
        (Some (value_of values "input")) status (value_of values "error")
        (value_of values "idempotency_key") revision created updated finished in
      if is_empty (value_of values "finished_at") then inr (run None) else
      match time_Parse (value_of values "finished_at") with
      | inl e => inl e
      | inr finished => inr (run (Some finished))
      end
  end end end end end end.

Definition clearLease (item : Execution) : Execution :=
  item <| e_LeaseOwner := EmptyString |> <| e_LeaseToken := uuid_Nil |> <| e_LeaseUntil := 0%Z |>.

(** [time.Time.UnixMilli]; the store's instants are exact as a float64. *)
Definition unix_epoch : Time := (62135596800 * Second)%Z.
Definition score (value : Time) : Z := ((value - unix_epoch) / Millisecond)%Z.

Definition countField (name status : string) : string := name +:+ NUL +:+ status.

(** [strings.SplitN(field, "\x00", 2)] with two parts. *)
Fixpoint cut_NUL (s : string) : option (string * string) :=
  match s with
  | EmptyString => None
  | String c s' => if bool_decide (c = Ascii.zero) then Some (EmptyString, s')
                   else '(a, b) ← cut_NUL s'; Some (String c a, b)
  end.

Definition parseCount (field rawCount : string) : error + (string * string * Z) :=
  match cut_NUL field with
  | None => inl (fmt_Errorf "invalid redis count field %q" [field])
  | Some (name, status) =>
      match ParseInt rawCount with
      | inl e => inl (fmtError "invalid redis count %q: %w" [rawCount] (Some e) [])
      | inr count => inr (name, status, count)
      end
  end.
End Encoding.

Section Operations.
Context `{E : GoEnv} `{!Codec} {W : Type} `{!RedisClient W} `{!Process W} (prefix : string).

Abbreviation MW := (M W).

(** ** Closures and retries *)

Definition lift {A} (r : error + A) : MW A := match r with inl e => throw e | inr a => mret a end.

(** A closure that receives the transaction, returns an error and assigns captured variables [V]: from
    their values to the returned error and their new values. *)
Abbreviation Closure V := (V → MW (option error * V)).

(** The returned error of [m]; the captured variables have the values [v]. *)
Definition returning {V} (m : MW unit) (v : V) : MW (option error * V) :=
  r ← try m; mret (match r with inl e => Some e | inr _ => None end, v).

(** The captured variable is assigned as the last statement of the closure. *)
Definition assigning {V} (m : MW V) : Closure V := λ v,
  r ← try m; mret (match r with inl e => (Some e, v) | inr v' => (None, v') end).

Definition contention : error := errorString "redis transaction contention limit exceeded".

Fixpoint watch_loop {V} (tries : nat) (keys : list string) (operation : Closure V) (v : V)
    : MW (option error * V) :=
  match tries with
  | O => mret (Some contention, v)
  | S tries' =>
      r ← try (redis_Watch _ keys (operation v));
      let '(err, v') := match r with inl e => (Some e, v) | inr p => p end in
      match err with
      | Some e => if errors_Is e RedisTxFailed then watch_loop tries' keys operation v'
                  else mret (Some e, v')
      | None => mret (None, v')
      end
  end.

Definition watch {V} (keys : list string) (operation : Closure V) (v : V) : MW (option error * V) :=
  watch_loop 16 keys operation v.

(** The call whose error is returned as it is, with the captured variable otherwise. *)
Definition watch_value {V} (keys : list string) (operation : Closure V) (v : V) : MW V :=
  '(err, v') ← watch keys operation v;
  match err with Some e => throw e | None => mret v' end.

Definition watch_unit (keys : list string) (m : MW unit) : MW unit :=
  watch_value keys (assigning m) tt.

Definition redis_now : MW Time := redis_Time.

Definition encodeEvent (item : Execution) (eventType : EventType) (errorText : string) (now : Time)
    : MW string :=
  id ← process_uuid;
  lift (marshal_event (mkEvent id (e_ID item) eventType (e_Attempt item) errorText now)).

Definition getExecutionTx (id : UUID) : MW Execution :=
  r ← try (redis_Get (executionKey prefix id));
  match r with
  | inl e => if errors_Is e RedisNil then throw ErrNotFound else throw e
  | inr value => lift (unmarshal_execution value)
  end.

(** ** Saving a transition *)

Definition saveTransition_cmds (item : Execution) (previous : Status) (encoded event : string)
    (keepInQueue : bool) : list Cmd :=
  let id := uuid_String (e_ID item) in
  [SET (executionKey prefix (e_ID item)) encoded] ++
  (if bool_decide (previous = e_Status item) then [] else
   [HINCRBY (executionCountsKey prefix) (countField (e_TaskName item) (Status_string previous)) (-1);
    HINCRBY (executionCountsKey prefix)
      (countField (e_TaskName item) (Status_string (e_Status item))) 1]) ++
  [ZREM (statusKey prefix (Status_string previous)) id;
   ZADD (statusKey prefix (Status_string (e_Status item))) (score (e_CreatedAt item)) id;
   ZREM (leasesKey prefix) id] ++
  (if keepInQueue then
     (if bool_decide (e_Status item = StatusRunning)
      then [ZADD (leasesKey prefix) (score (e_LeaseUntil item)) id] else []) ++
     [ZADD (queueKey prefix (e_TaskName item))
        (score (if bool_decide (e_Status item = StatusRunning) then e_LeaseUntil item
                else e_AvailableAt item)) id]
   else [ZREM (queueKey prefix (e_TaskName item)) id]) ++
  [RPUSH (eventsKey prefix (e_ID item)) event].

Definition saveTransition (item : Execution) (previous : Status) (eventType : EventType)
    (errorText : string) (now : Time) (keepInQueue : bool) : MW unit :=
  encoded ← lift (marshal_execution item);
  event ← encodeEvent item eventType errorText now;
  tx_TxPipelined (saveTransition_cmds item previous encoded event keepInQueue).

(** ** Creation and reads *)

Definition GetExecution (id : UUID) : MW Execution :=
  r ← try (redis_Get (executionKey prefix id));
  match r with
  | inl e => if errors_Is e RedisNil then throw ErrNotFound else throw e
  | inr value =>
      match unmarshal_execution value with
      | inl e => throw (fmtError "decode redis execution %s: %w" [uuid_String id] (Some e) [])
      | inr item => mret item
      end
  end.

(** The existing execution of the first reference that is set. *)
Fixpoint find_reference (refs : list string) : MW (option UUID) :=
  match refs with
  | [] => mret None
  | key :: refs' =>
      r ← try (redis_Get key);
      match r with
      | inr value =>
          match uuid_Parse value with
          | inl e => throw (fmtError "invalid redis execution reference %q: %w" [key] (Some e) [])
          | inr id => mret (Some id)
          end
      | inl e => if errors_Is e RedisNil then find_reference refs' else throw e
      end
  end.

Definition create_cmds (item : Execution) (refs : list string) (encoded event : string) : list Cmd :=
  let id := uuid_String (e_ID item) in
  [SET (executionKey prefix (e_ID item)) encoded;
   HINCRBY (executionCountsKey prefix)
     (countField (e_TaskName item) (Status_string (e_Status item))) 1;
   ZADD (executionsKey prefix) (score (e_CreatedAt item)) id;
   ZADD (taskIndexKey prefix (e_TaskName item)) (score (e_CreatedAt item)) id;
   ZADD (statusKey prefix (Status_string (e_Status item))) (score (e_CreatedAt item)) id;
   ZADD (queueKey prefix (e_TaskName item)) (score (e_AvailableAt item)) id;
   RPUSH (eventsKey prefix (e_ID item)) event] ++
  ((λ key, SET key id) <$> refs) ++
  match e_PipelineRunID item with
  | Some runID => [ZADD (runExecutionsKey prefix runID) (score (e_CreatedAt item)) id]
  | None => []
  end.

Definition create_refs (item : Execution) : list string :=
  (if is_empty (e_IdempotencyKey item) then []
   else [idempotencyKey prefix (e_TaskName item) (e_IdempotencyKey item)]) ++
  match e_PipelineRunID item with
  | Some runID => if is_empty (e_NodeKey item) then [] else [nodeKey prefix runID (e_NodeKey item)]
  | None => []
  end.

(** The closure of [CreateExecution]; the captured variable is [existing]. *)
Definition create_closure (item : Execution) (refs : list string) (now : Time) : Closure UUID :=
  λ existing,
  r ← try (find_reference refs);
  match r with
  | inl e => mret (Some e, existing)
  | inr (Some id) => mret (Some (ErrExisting : error), id)
  | inr None =>
      returning (encoded ← lift (marshal_execution item);
                 event ← encodeEvent item EventCreated EmptyString now;
                 tx_TxPipelined (create_cmds item refs encoded event)) existing
  end.

Definition CreateExecution (request : CreateExecutionRequest) : MW Execution :=
  if is_empty (c_TaskName request) then throw (errorString "task name is empty") else
  now ← redis_now;
  let availableAt := if IsZero (c_AvailableAt request) then now else c_AvailableAt request in
  let maxAttempts := if (c_MaxAttempts request <=? 0)%Z then 1%Z else c_MaxAttempts request in
  id ← process_uuid;
  let item := mkExecution id (c_TaskName request) (c_TaskVersion request)
    (cloneJSON (c_Input request)) None StatusPending 0 maxAttempts availableAt
    EmptyString uuid_Nil 0 EmptyString (c_IdempotencyKey request)
    (cloneUUID (c_PipelineRunID request)) (c_NodeKey request) now None None in
  let refs := create_refs item in
  '(err, existing) ← watch refs (create_closure item refs now) uuid_Nil;
  match err with
  | Some e => if errors_Is e ErrExisting then GetExecution existing else throw e
  | None => mret item
  end.

Definition executionIndexFor (filter : ListFilter) : string :=
  match f_PipelineRunID filter with
  | Some runID => runExecutionsKey prefix runID
  | None =>
      if negb (is_empty (f_TaskName filter)) then taskIndexKey prefix (f_TaskName filter)
      else if negb (is_empty (f_Status filter)) then statusKey prefix (f_Status filter)
      else executionsKey prefix
  end.

Definition before (createdAt : Time) (id : UUID) (cursor : Cursor) : bool :=
  Before createdAt (cu_CreatedAt cursor)
  || (Equal createdAt (cu_CreatedAt cursor)
      && str_lt (uuid_String id) (uuid_String (cu_ID cursor))).

Definition matchesExecutionFilter (item : Execution) (filter : ListFilter) : bool :=
  if negb (is_empty (f_TaskName filter))
     && negb (bool_decide (e_TaskName item = f_TaskName filter)) then false else
  if negb (is_empty (f_Status filter))
     && negb (bool_decide (Status_string (e_Status item) = f_Status filter)) then false else
  if match f_Before filter with
     | Some cursor => negb (before (e_CreatedAt item) (e_ID item) cursor)
     | None => false
     end then false else
  match f_PipelineRunID filter with
  | None => true
  | Some runID => bool_decide (e_PipelineRunID item = Some runID)
  end.

(** The loop of [ListExecutions]; [items] is the result so far. *)
Fixpoint list_loop (filter : ListFilter) (ids : list string) (items : list Execution)
    : MW (list Execution) :=
  match ids with
  | [] => mret items
  | value :: ids' =>
      id ← lift (uuid_Parse value);
      item ← GetExecution id;
      if negb (matchesExecutionFilter item filter) then list_loop filter ids' items else
      let items := items ++ [item] in
      if (0 <? f_Limit filter)%Z && (Z.of_nat (length items) =? f_Limit filter)%Z
      then mret items else list_loop filter ids' items
  end.

Definition ListExecutions (filter : ListFilter) : MW (list Execution) :=
  ids ← redis_ZRevRange (executionIndexFor filter); list_loop filter ids [].

Fixpoint get_all (ids : list string) (items : list Execution) : MW (list Execution) :=
  match ids with
  | [] => mret items
  | value :: ids' =>
      id ← lift (uuid_Parse value);
      item ← GetExecution id;
      get_all ids' (items ++ [item])
  end.

Definition ListRunExecutions (runID : UUID) : MW (list Execution) :=
  ids ← redis_ZRange (runExecutionsKey prefix runID); get_all ids [].

Fixpoint decode_events (values : list string) (items : list Event) : MW (list Event) :=
  match values with
  | [] => mret items
  | value :: values' =>
      match unmarshal_event value with
      | inl e => throw (fmtError "decode redis event: %w" [] (Some e) [])
      | inr item => decode_events values' (items ++ [item])
      end
  end.

Definition Events (id : UUID) : MW (list Event) :=
  _ ← GetExecution id;
  values ← redis_LRange (eventsKey prefix id);
  decode_events values [].

(** ** Delivery *)

Definition accepted_key (keys : list TaskKey) (item : Execution) : bool :=
  bool_decide (mkTaskKey (e_TaskName item) (e_TaskVersion item) ∈ keys).

(** The test of [claimCandidate] that is not an [errUnavailable]. *)
Definition can_claim (keys : list TaskKey) (now : Time) (item : Execution) : bool :=
  let claimable := bool_decide (e_Status item = StatusPending)
    || bool_decide (e_Status item = StatusRetry)
    || (bool_decide (e_Status item = StatusRunning) && negb (After (e_LeaseUntil item) now)) in
  negb (negb (accepted_key keys item) || negb claimable || After (e_AvailableAt item) now
        || (e_MaxAttempts item <=? e_Attempt item)%Z).

Definition claimCandidate (id : UUID) (owner : string) (keys : list TaskKey) (lease : Duration)
    (now : Time) : MW (option Execution) :=
  '(err, result) ← watch [executionKey prefix id] (assigning (
    item ← getExecutionTx id;
    if negb (can_claim keys now item) then throw ErrUnavailable else
    let previous := e_Status item in
    token ← process_uuid;
    let item := item <| e_Status := StatusRunning |>
      <| e_Attempt := int64 (e_Attempt item + 1) |> <| e_LeaseOwner := owner |>
      <| e_LeaseToken := token |> <| e_LeaseUntil := Add now lease |>
      <| e_StartedAt := match e_StartedAt item with None => Some now | started => started end |> in
    _ ← saveTransition item previous EventStarted EmptyString now true;
    mret item)) zeroExecution;
  match err with
  | Some e => if errors_Is e ErrUnavailable || errors_Is e ErrNotFound then mret None else throw e
  | None => mret (Some result)
  end.

(** The due heads of one queue; an entry without a record is removed, whatever the reply. *)
Fixpoint load_values (name : string) (values : list string) (candidates : gmap UUID Execution)
    : MW (gmap UUID Execution) :=
  match values with
  | [] => mret candidates
  | value :: values' =>
      id ← lift (uuid_Parse value);
      r ← try (GetExecution id);
      match r with
      | inl e =>
          if errors_Is e ErrNotFound then
            _ ← try (redis_ZRem (queueKey prefix name) value);
            load_values name values' candidates
          else throw e
      | inr item => load_values name values' (<[id := item]> candidates)
      end
  end.

Definition heads (limit : Z) : Z := Z.max (int64 (limit * 8)) 128.

Fixpoint load_names (names : list string) (limit : Z) (now : Time)
    (candidates : gmap UUID Execution) : MW (gmap UUID Execution) :=
  match names with
  | [] => mret candidates
  | name :: names' =>
      values ← redis_ZRangeByScore (queueKey prefix name) (score now) (heads limit);
      candidates ← load_values name values candidates;
      load_names names' limit now candidates
  end.

Definition loadDueCandidates (names : list string) (limit : Z) (now : Time)
    : MW (list Execution) :=
  candidates ← load_names names limit now ∅;
  entries ← process_range _ (map_to_list candidates);
  mret (sort_Slice claim_less (entries.*2)).

Fixpoint claim_loop (owner : string) (keys : list TaskKey) (lease : Duration) (now : Time)
    (limit : Z) (ordered claimed : list Execution) : MW (list Execution) :=
  match ordered with
  | [] => mret claimed
  | candidate :: ordered' =>
      if (Z.of_nat (length claimed) =? limit)%Z then mret claimed else
      result ← claimCandidate (e_ID candidate) owner keys lease now;
      claim_loop owner keys lease now limit ordered'
        (match result with Some item => claimed ++ [item] | None => claimed end)
  end.

(** The names of the keys, each once, in the order of their first occurrence. *)
Definition distinct_names (keys : list TaskKey) : list string :=
  foldl (λ names key, if decide (k_Name key ∈ names) then names else names ++ [k_Name key]) [] keys.

Definition Claim (owner : string) (keys : list TaskKey) (limit : Z) (lease : Duration)
    : MW (list Execution) :=
  let limit := if (limit <=? 0)%Z then 1%Z else limit in
  now ← redis_now;
  ordered ← loadDueCandidates (distinct_names keys) limit now;
  claim_loop owner keys lease now limit ordered [].

Definition removeLeaseIndex (id : UUID) : MW unit :=
  tx_TxPipelined [ZREM (leasesKey prefix) (uuid_String id)].

(** The captured variable [runID] is assigned before the transition is saved, and stays assigned when
    the transaction is refused and tried again. *)
Definition reap_closure (id : UUID) (now : Time) : Closure (option UUID) := λ runID,
  r ← try (getExecutionTx id);
  match r with
  | inl e => if errors_Is e ErrNotFound then returning (removeLeaseIndex id) runID
             else mret (Some e, runID)
  | inr item =>
      if negb (bool_decide (e_Status item = StatusRunning))
      then returning (removeLeaseIndex id) runID else
      if After (e_LeaseUntil item) now then mret (Some (ErrUnavailable : error), runID) else
      if (e_Attempt item <? e_MaxAttempts item)%Z
      then returning (removeLeaseIndex id) runID else
      let previous := e_Status item in
      let item := clearLease (item <| e_Status := StatusFailed |>
        <| e_LastError := lease_expired_text |> <| e_FinishedAt := Some now |>) in
      returning (saveTransition item previous EventFailed (e_LastError item) now false)
        (cloneUUID (e_PipelineRunID item))
  end.

Definition reapCandidate (id : UUID) (now : Time) : MW (option UUID) :=
  '(err, runID) ← watch [executionKey prefix id] (reap_closure id now) None;
  match err with
  | Some e => if errors_Is e ErrUnavailable then mret None else throw e
  | None => mret runID
  end.

Fixpoint reap_loop (values : list string) (now : Time) (runs : gset UUID) : MW (gset UUID) :=
  match values with
  | [] => mret runs
  | value :: values' =>
      id ← lift (uuid_Parse value);
      runID ← reapCandidate id now;
      reap_loop values' now (match runID with Some run => {[run]} ∪ runs | None => runs end)
  end.

Definition ReapExpired : MW (list UUID) :=
  now ← redis_now;
  values ← redis_ZRangeByScore (leasesKey prefix) (score now) 0;
  runs ← reap_loop values now ∅;
  process_range _ (elements runs).

(** The guard of the lease. *)
Definition lost (token : UUID) (item : Execution) : bool :=
  negb (bool_decide (e_Status item = StatusRunning)) || bool_decide (token = uuid_Nil)
  || negb (bool_decide (e_LeaseToken item = token)).

Definition heartbeat_cmds (id : UUID) (item : Execution) (encoded : string) : list Cmd :=
  [SET (executionKey prefix id) encoded;
   ZADD (queueKey prefix (e_TaskName item)) (score (e_LeaseUntil item)) (uuid_String id);
   ZADD (leasesKey prefix) (score (e_LeaseUntil item)) (uuid_String id)].

Definition Heartbeat (id token : UUID) (lease : Duration) : MW unit :=
  now ← redis_now;
  watch_unit [executionKey prefix id] (
    item ← getExecutionTx id;
    if lost token item then throw ErrLeaseLost else
    let item := item <| e_LeaseUntil := Add now lease |> in
    encoded ← lift (marshal_execution item);
    tx_TxPipelined (heartbeat_cmds id item encoded)).

(** [mutate] returns the changed execution, the event, its error text and whether it stays queued. *)
Definition transition (id token : UUID)
    (mutate : Execution → Time → Execution * EventType * string * bool) : MW unit :=
  now ← redis_now;
  watch_unit [executionKey prefix id] (
    item ← getExecutionTx id;
    if lost token item then throw ErrLeaseLost else
    let previous := e_Status item in
    let '(item, eventType, errorText, queued) := mutate item now in
    saveTransition item previous eventType errorText now queued).

Definition Succeed (id token : UUID) (output : RawMessage) : MW unit :=
  transition id token (λ item now,
    (clearLease (item <| e_Status := StatusSucceeded |> <| e_Output := cloneJSON output |>
       <| e_FinishedAt := Some now |>), EventSucceeded, EmptyString, false)).

Definition Retry (id token : UUID) (errorText : string) (delay : Duration) : MW unit :=
  transition id token (λ item now,
    let item := clearLease (item <| e_LastError := errorText |>) in
    if (e_MaxAttempts item <=? e_Attempt item)%Z
    then (item <| e_Status := StatusFailed |> <| e_FinishedAt := Some now |>,
          EventFailed, errorText, false)
    else (item <| e_Status := StatusRetry |> <| e_AvailableAt := Add now delay |>,
          EventRetried, errorText, true)).

Definition Fail (id token : UUID) (errorText : string) : MW unit :=
  transition id token (λ item now,
    (clearLease (item <| e_Status := StatusFailed |> <| e_LastError := errorText |>
       <| e_FinishedAt := Some now |>), EventFailed, errorText, false)).

(** ** Operator actions *)

Definition CancelExecution (id : UUID) (reason : string) : MW unit :=
  now ← redis_now;
  watch_unit [executionKey prefix id] (
    item ← getExecutionTx id;
    if bool_decide (e_Status item = StatusSucceeded) || bool_decide (e_Status item = StatusFailed)
       || bool_decide (e_Status item = StatusCancelled) then throw ErrNotFound else
    let previous := e_Status item in
    let item := clearLease (item <| e_Status := StatusCancelled |> <| e_LastError := reason |>
      <| e_FinishedAt := Some now |>) in
    saveTransition item previous EventCancelled reason now false).

Definition active (item : Execution) : bool :=
  bool_decide (e_Status item = StatusPending) || bool_decide (e_Status item = StatusRetry)
  || bool_decide (e_Status item = StatusRunning).

(** The assignments of a restart. *)
Definition restarted (status : Status) (availableAt : Time) (item : Execution) : Execution :=
  clearLease (item <| e_Status := status |> <| e_Attempt := 0%Z |>
    <| e_AvailableAt := availableAt |> <| e_Output := None |> <| e_LastError := EmptyString |>
    <| e_StartedAt := None |> <| e_FinishedAt := None |>).

Definition restart_cmds (id : UUID) (item : Execution) (previous : Status)
    (encoded event : string) : list Cmd :=
  [SET (executionKey prefix id) encoded;
   HINCRBY (executionCountsKey prefix) (countField (e_TaskName item) (Status_string previous)) (-1);
   HINCRBY (executionCountsKey prefix)
     (countField (e_TaskName item) (Status_string (e_Status item))) 1;
   ZREM (statusKey prefix (Status_string previous)) (uuid_String id);
   ZADD (statusKey prefix (Status_string (e_Status item))) (score (e_CreatedAt item))
     (uuid_String id);
   ZREM (leasesKey prefix) (uuid_String id);
   ZADD (queueKey prefix (e_TaskName item)) (score (e_AvailableAt item)) (uuid_String id);
   RPUSH (eventsKey prefix id) event].

Definition RestartExecution (id : UUID) (availableAt : Time) : MW Execution :=
  now ← redis_now;
  let availableAt := if IsZero availableAt then now else availableAt in
  watch_value [executionKey prefix id] (assigning (
    item ← getExecutionTx id;
    if active item then throw ErrActive else
    match e_PipelineRunID item with
    | Some _ => throw ErrPipelineExecution
    | None =>
        let previous := e_Status item in
        let item := restarted StatusPending availableAt item in
        encoded ← lift (marshal_execution item);
        event ← encodeEvent item EventRestarted EmptyString now;
        _ ← tx_TxPipelined (restart_cmds id item previous encoded event);
        mret item
    end)) zeroExecution.

(** The executions that the node references name, read before the transaction. *)
Fixpoint node_ids (runID : UUID) (nodeKeys : list string) (ids : list UUID) : MW (list UUID) :=
  match nodeKeys with
  | [] => mret ids
  | node :: nodeKeys' =>
      r ← try (redis_Get (nodeKey prefix runID node));
      match r with
      | inl e => if errors_Is e RedisNil then node_ids runID nodeKeys' ids else throw e
      | inr value => id ← lift (uuid_Parse value); node_ids runID nodeKeys' (ids ++ [id])
      end
  end.

Fixpoint inactive_items (ids : list UUID) (items : list Execution) : MW (list Execution) :=
  match ids with
  | [] => mret items
  | id :: ids' =>
      item ← getExecutionTx id;
      if active item then throw ErrActive else inactive_items ids' (items ++ [item])
  end.

Definition subgraph_item_cmds (item : Execution) (previous : Status) (encoded event : string)
    : list Cmd :=
  let id := uuid_String (e_ID item) in
  [SET (executionKey prefix (e_ID item)) encoded] ++
  (if bool_decide (previous = e_Status item) then [] else
   [HINCRBY (executionCountsKey prefix) (countField (e_TaskName item) (Status_string previous)) (-1);
    HINCRBY (executionCountsKey prefix)
      (countField (e_TaskName item) (Status_string (e_Status item))) 1]) ++
  [ZREM (statusKey prefix (Status_string previous)) id;
   ZADD (statusKey prefix (Status_string (e_Status item))) (score (e_CreatedAt item)) id;
   ZREM (leasesKey prefix) id;
   if bool_decide (e_Status item = StatusPending)
   then ZADD (queueKey prefix (e_TaskName item)) (score (e_AvailableAt item)) id
   else ZREM (queueKey prefix (e_TaskName item)) id;
   RPUSH (eventsKey prefix (e_ID item)) event].

(** The loop that queues the commands; the result is the commands, [foundRoot] and [root]. *)
Fixpoint subgraph_cmds (request : RestartSubgraph) (availableAt now : Time)
    (items : list Execution) (cmds : list Cmd) (root : option Execution)
    : MW (list Cmd * option Execution) :=
  match items with
  | [] => mret (cmds, root)
  | item :: items' =>
      let previous := e_Status item in
      let is_root := bool_decide (e_NodeKey item = rs_RootNodeKey request) in
      let item := restarted (if is_root then StatusPending else StatusBlocked) availableAt item in
      encoded ← lift (marshal_execution item);
      event ← encodeEvent item EventRestarted EmptyString now;
      subgraph_cmds request availableAt now items'
        (cmds ++ subgraph_item_cmds item previous encoded event)
        (if is_root then Some item else root)
  end.

(** The commands that move a run from one state to another. *)
Definition run_status_cmds (id : UUID) (run : PipelineRun) (previous : RunStatus) : list Cmd :=
  [HSET (pipelineKey prefix id) (encodeRun run)] ++
  (if bool_decide (previous = r_Status run) then [] else
   [HINCRBY (pipelineCountsKey prefix)
      (countField (r_PipelineName run) (RunStatus_string previous)) (-1);
    HINCRBY (pipelineCountsKey prefix)
      (countField (r_PipelineName run) (RunStatus_string (r_Status run))) 1]) ++
  [ZREM (runStatusKey prefix (RunStatus_string previous)) (uuid_String id);
   ZADD (runStatusKey prefix (RunStatus_string (r_Status run))) (score (r_CreatedAt run))
     (uuid_String id)].

Definition getRunTx (id : UUID) : MW PipelineRun :=
  values ← redis_HGetAll (pipelineKey prefix id);
  if decide (values = ∅) then throw ErrNotFound else lift (decodeRun values).

Definition RestartPipelineSubgraph (request : RestartSubgraph) : MW Execution :=
  now ← redis_now;
  let availableAt := if IsZero (rs_AvailableAt request) then now else rs_AvailableAt request in
  ids ← node_ids (rs_RunID request) (rs_RootNodeKey request :: rs_DescendantKeys request) [];
  let watchKeys := pipelineKey prefix (rs_RunID request) :: (executionKey prefix <$> ids) in
  watch_value watchKeys (assigning (
    run ← getRunTx (rs_RunID request);
    items ← inactive_items ids [];
    let previousRunStatus := r_Status run in
    let run := run <| r_Status := RunRunning |> <| r_Error := EmptyString |>
      <| r_UpdatedAt := now |> <| r_FinishedAt := None |>
      <| r_Revision := uint64 (r_Revision run + 1) |> in
    '(cmds, root) ← subgraph_cmds request availableAt now items [] None;
    match root with
    | None => throw ErrNotFound
    | Some root =>
        _ ← tx_TxPipelined (cmds ++ run_status_cmds (r_ID run) run previousRunStatus);
        mret root
    end)) zeroExecution.

Definition release_cmds (id : UUID) (item : Execution) (encoded : string) : list Cmd :=
  [SET (executionKey prefix id) encoded;
   HINCRBY (executionCountsKey prefix)
     (countField (e_TaskName item) (Status_string StatusBlocked)) (-1);
   HINCRBY (executionCountsKey prefix)
     (countField (e_TaskName item) (Status_string StatusPending)) 1;
   ZREM (statusKey prefix (Status_string StatusBlocked)) (uuid_String id);
   ZADD (statusKey prefix (Status_string StatusPending)) (score (e_CreatedAt item))
     (uuid_String id);
   ZADD (queueKey prefix (e_TaskName item)) (score (e_AvailableAt item)) (uuid_String id)].

Definition ReleaseExecution (id : UUID) (input : RawMessage) (availableAt : Time) : MW unit :=
  now ← redis_now;
  let availableAt := if IsZero availableAt then now else availableAt in
  watch_unit [executionKey prefix id] (
    item ← getExecutionTx id;
    if negb (bool_decide (e_Status item = StatusBlocked)) then throw ErrActive else
    let item := item <| e_Status := StatusPending |> <| e_Input := cloneJSON input |>
      <| e_AvailableAt := availableAt |> in
    encoded ← lift (marshal_execution item);
    tx_TxPipelined (release_cmds id item encoded)).
End Operations.
