(* ===== verification/RedisRuns.v ===== *)
(** * The Redis store: pipeline runs, statistics and retention

    [src/execution/redis/pipelines.go], and the counters and the purge of
    [src/execution/redis/store.go]. *)

From S2P Require Import Prelude GoLib GoText Model Memory RedisKeys RedisServer Redis.

Section Operations.
Context `{E : GoEnv} `{!Codec} {W : Type} `{!RedisClient W} `{!Process W} (prefix : string).

Abbreviation MW := (M W).

(** ** Pipeline runs *)

Definition create_run_cmds (run : PipelineRun) (refs : list string) : list Cmd :=
  [HSET (pipelineKey prefix (r_ID run)) (encodeRun run);
   HINCRBY (pipelineCountsKey prefix)
     (countField (r_PipelineName run) (RunStatus_string (r_Status run))) 1;
   ZADD (runsKey prefix) (score (r_CreatedAt run)) (uuid_String (r_ID run));
   ZADD (runStatusKey prefix (RunStatus_string (r_Status run))) (score (r_CreatedAt run))
     (uuid_String (r_ID run))] ++
  ((λ key, SET key (uuid_String (r_ID run))) <$> refs).

(** At most one key is watched; a reference that is not an identifier is returned as it is. *)
Definition find_run_reference (watchKeys : list string) : MW (option UUID) :=
  match watchKeys with
  | [] => mret None
  | key :: _ =>
      r ← try (redis_Get key);
      match r with
      | inr value => id ← lift (uuid_Parse value); mret (Some id)
      | inl e => if errors_Is e RedisNil then mret None else throw e
      end
  end.

Definition create_run_closure (run : PipelineRun) (watchKeys : list string)
    : UUID → MW (option error * UUID) := λ existing,
  r ← try (find_run_reference watchKeys);
  match r with
  | inl e => mret (Some e, existing)
  | inr (Some id) => mret (Some (ErrExisting : error), id)
  | inr None => returning (tx_TxPipelined (create_run_cmds run watchKeys)) existing
  end.

Definition GetPipelineRun (id : UUID) : MW PipelineRun :=
  values ← redis_HGetAll (pipelineKey prefix id);
  if decide (values = ∅) then throw ErrNotFound else lift (decodeRun values).

Definition CreatePipelineRun (request : CreatePipelineRunRequest) : MW PipelineRun :=
  now ← redis_now;
  id ← process_uuid;
  let run := mkPipelineRun id (cr_PipelineName request) (cr_PipelineVersion request)
    (cloneJSON (cr_Input request)) RunPending EmptyString (cr_IdempotencyKey request)
    0 now now None in
  let watchKeys := if is_empty (r_IdempotencyKey run) then []
    else [pipelineIdempotencyKey prefix (r_PipelineName run) (r_IdempotencyKey run)] in
  '(err, existing) ← watch watchKeys (create_run_closure run watchKeys) uuid_Nil;
  match err with
  | Some e => if errors_Is e ErrExisting then GetPipelineRun existing else throw e
  | None => mret run
  end.

Fixpoint union_ids (keys : list string) (ids : gset string) : MW (gset string) :=
  match keys with
  | [] => mret ids
  | key :: keys' =>
      values ← redis_ZRevRange key;
      union_ids keys' (list_to_set values ∪ ids)
  end.

Definition pipelineIDs (statuses : list string) : MW (gset string) :=
  let keys := match statuses with
              | [] => [runsKey prefix]
              | _ => runStatusKey prefix <$> statuses
              end in
  union_ids keys ∅.

Fixpoint run_loop (filter : RunFilter) (ids : list string) (items : list PipelineRun)
    : MW (list PipelineRun) :=
  match ids with
  | [] => mret items
  | value :: ids' =>
      id ← lift (uuid_Parse value);
      run ← GetPipelineRun id;
      run_loop filter ids'
        (if match rf_Before filter with
            | None => true
            | Some cursor => before (r_CreatedAt run) (r_ID run) cursor
            end then items ++ [run] else items)
  end.

Definition ListPipelineRuns (filter : RunFilter) : MW (list PipelineRun) :=
  ids ← pipelineIDs (rf_Statuses filter);
  ids ← process_range _ (elements ids);
  items ← run_loop filter ids [];
  mret (limit_slice (rf_Limit filter) (sort_Slice newer_run items)).

Definition SetPipelineRunStatus (id : UUID) (expectedRevision : Z) (status : RunStatus)
    (errorText : string) : MW unit :=
  now ← redis_now;
  watch_unit [pipelineKey prefix id] (
    run ← getRunTx prefix id;
    if negb (r_Revision run =? expectedRevision)%Z then throw ErrConflict else
    let previous := r_Status run in
    let run := run <| r_Status := status |> <| r_Error := errorText |> <| r_UpdatedAt := now |>
      <| r_Revision := uint64 (r_Revision run + 1) |> in
    let run := run <| r_FinishedAt :=
      if bool_decide (status = RunSucceeded) || bool_decide (status = RunFailed)
         || bool_decide (status = RunCancelled) then Some now else None |> in
    tx_TxPipelined (run_status_cmds prefix id run previous)).

(** ** Statistics *)

(** The loop over the fields of a hash of counters; a field that is zero is left out. *)
Fixpoint count_loop {A} (make : string → string → Z → A) (entries : list (string * string))
    (result : list A) : MW (list A) :=
  match entries with
  | [] => mret result
  | (field, rawCount) :: entries' =>
      '(name, status, count) ← lift (parseCount field rawCount);
      count_loop make entries'
        (if (0 <? count)%Z then result ++ [make name status count] else result)
  end.

Definition ExecutionCounts : MW (list ExecutionCount) :=
  values ← redis_HGetAll (executionCountsKey prefix);
  entries ← process_range _ (map_to_list values);
  result ← count_loop mkExecutionCount entries [];
  mret (sort_Slice (λ a b, pair_less (ec_TaskName a, ec_Status a) (ec_TaskName b, ec_Status b))
          result).

Definition PipelineCounts : MW (list PipelineCount) :=
  values ← redis_HGetAll (pipelineCountsKey prefix);
  entries ← process_range _ (map_to_list values);
  result ← count_loop mkPipelineCount entries [];
  mret (sort_Slice (λ a b, pair_less (pc_PipelineName a, pc_Status a)
                             (pc_PipelineName b, pc_Status b)) result).

(** ** Purge *)

(** A candidate is a finished run with its executions or a finished standalone execution. *)
Inductive purge_unit :=
  | PurgeRun (run : PipelineRun) (nodes : list Execution)
  | PurgeItem (item : Execution).

Record purge_entry := mkPurgeEntry { pe_finished : Time; pe_unit : purge_unit }.

Fixpoint run_entries (before : Time) (runs : list PipelineRun) (acc : list purge_entry)
    : MW (list purge_entry) :=
  match runs with
  | [] => mret acc
  | run :: runs' =>
      match finished_before (r_FinishedAt run) before with
      | Some finished =>
          nodes ← ListRunExecutions prefix (r_ID run);
          run_entries before runs' (acc ++ [mkPurgeEntry finished (PurgeRun run nodes)])
      | None => run_entries before runs' acc
      end
  end.

Definition item_entry (before : Time) (item : Execution) : option purge_entry :=
  match e_PipelineRunID item with
  | Some _ => None
  | None => finished ← finished_before (e_FinishedAt item) before;
            Some (mkPurgeEntry finished (PurgeItem item))
  end.

Fixpoint item_entries (before : Time) (statuses : list Status) (acc : list purge_entry)
    : MW (list purge_entry) :=
  match statuses with
  | [] => mret acc
  | status :: statuses' =>
      items ← ListExecutions prefix (mkListFilter EmptyString (Status_string status) None 0 None);
      item_entries before statuses' (acc ++ omap (item_entry before) items)
  end.

Definition purgeExecution (item : Execution) : list Cmd :=
  let id := uuid_String (e_ID item) in
  [DEL (executionKey prefix (e_ID item)); DEL (eventsKey prefix (e_ID item));
   ZREM (executionsKey prefix) id;
   ZREM (taskIndexKey prefix (e_TaskName item)) id;
   ZREM (statusKey prefix (Status_string (e_Status item))) id;
   ZREM (queueKey prefix (e_TaskName item)) id;
   ZREM (leasesKey prefix) id;
   HINCRBY (executionCountsKey prefix)
     (countField (e_TaskName item) (Status_string (e_Status item))) (-1)] ++
  (if is_empty (e_IdempotencyKey item) then []
   else [DEL (idempotencyKey prefix (e_TaskName item) (e_IdempotencyKey item))]) ++
  match e_PipelineRunID item with
  | Some runID => [DEL (nodeKey prefix runID (e_NodeKey item));
                   ZREM (runExecutionsKey prefix runID) id]
  | None => []
  end.

Definition purge_run_cmds (run : PipelineRun) : list Cmd :=
  [DEL (pipelineKey prefix (r_ID run));
   ZREM (runsKey prefix) (uuid_String (r_ID run));
   ZREM (runStatusKey prefix (RunStatus_string (r_Status run))) (uuid_String (r_ID run));
   HINCRBY (pipelineCountsKey prefix)
     (countField (r_PipelineName run) (RunStatus_string (r_Status run))) (-1)] ++
  (if is_empty (r_IdempotencyKey run) then []
   else [DEL (pipelineIdempotencyKey prefix (r_PipelineName run) (r_IdempotencyKey run))]).

Definition unit_cmds (u : purge_unit) : list Cmd :=
  match u with
  | PurgeItem item => purgeExecution item
  | PurgeRun run nodes => (nodes ≫= purgeExecution) ++ purge_run_cmds run
  end.

Definition count_unit (result : PurgeResult) (u : purge_unit) : PurgeResult :=
  match u with
  | PurgeItem _ => result <| pr_Executions := (pr_Executions result + 1)%Z |>
  | PurgeRun _ nodes =>
      result <| pr_Executions := (pr_Executions result + Z.of_nat (length nodes))%Z |>
             <| pr_PipelineRuns := (pr_PipelineRuns result + 1)%Z |>
  end.

Definition terminal_runs : RunFilter :=
  mkRunFilter [RunStatus_string RunSucceeded; RunStatus_string RunFailed;
    RunStatus_string RunCancelled] 0 None.

(** The units that [Purge] removes, oldest first; the sort is not stable. *)
Definition purge_selection (before : Time) (limit : Z) : MW (list purge_unit) :=
  runs ← ListPipelineRuns terminal_runs;
  candidates ← run_entries before runs [];
  candidates ← item_entries before [StatusSucceeded; StatusFailed; StatusCancelled] candidates;
  candidates ← process_range _ candidates;
  let candidates := sort_Slice (λ a b, Before (pe_finished a) (pe_finished b)) candidates in
  mret (pe_unit <$> (if (limit <? Z.of_nat (length candidates))%Z
                     then take (Z.to_nat limit) candidates else candidates)).

Definition Purge (before : Time) (limit : Z) : MW PurgeResult :=
  let limit := if (limit <=? 0)%Z then 1000%Z else limit in
  units ← purge_selection before limit;
  _ ← redis_TxPipelined (units ≫= unit_cmds);
  mret (foldl count_unit (mkPurgeResult 0 0) units).
End Operations.
