(* ===== verification/RedisOps.v ===== *)
(** * Reasoning about the commands of a transaction

    A transaction acts on every key separately, so what it does to the keyspace is known from the
    commands on each key.  The two kinds of derived data of the store get a lemma each: a sorted set
    whose members are the records that an index selects, and a hash that counts records. *)

From S2P Require Import Prelude GoLib GoText Model Memory RedisKeys RedisServer Redis.

(** ** Commands per key *)

Fixpoint run_ops (ops : list Op) (v : option RValue) : option (option RValue) :=
  match ops with
  | [] => Some v
  | o :: ops' => v' ← op_value o v; run_ops ops' v'
  end.

Definition ops_at (k : string) (cmds : list Cmd) : list Op :=
  cmd_op <$> filter (λ c, cmd_key c = k) cmds.

Lemma ops_at_cons_eq c cmds : ops_at (cmd_key c) (c :: cmds) = cmd_op c :: ops_at (cmd_key c) cmds.
Proof. unfold ops_at. by rewrite filter_cons_True. Qed.

Lemma ops_at_cons_ne k c cmds : cmd_key c ≠ k → ops_at k (c :: cmds) = ops_at k cmds.
Proof. intros. unfold ops_at. by rewrite filter_cons_False. Qed.

Lemma ops_at_app k cmds cmds' : ops_at k (cmds ++ cmds') = ops_at k cmds ++ ops_at k cmds'.
Proof. unfold ops_at. by rewrite filter_app, fmap_app. Qed.

(** A transaction succeeds when the commands of every key do, and its effect is theirs. *)
Lemma apply_all_spec cmds ks :
  (∀ k, is_Some (run_ops (ops_at k cmds) (ks !! k))) →
  ∃ ks', apply_all cmds ks = Some ks' ∧ ∀ k, run_ops (ops_at k cmds) (ks !! k) = Some (ks' !! k).
Proof.
  revert ks. induction cmds as [|c cmds IH]; intros ks Hk; simpl; [by exists ks|].
  destruct (op_value (cmd_op c) (ks !! cmd_key c)) as [v|] eqn:Hv.
  - unfold apply_cmd. rewrite Hv. cbn [mbind option_bind].
    assert (∀ k, run_ops (ops_at k (c :: cmds)) (ks !! k)
      = run_ops (ops_at k cmds) (partial_alter (λ _, v) (cmd_key c) ks !! k)) as Hstep.
    { intros k. destruct (decide (cmd_key c = k)) as [<-|Hne].
      - rewrite ops_at_cons_eq, lookup_partial_alter_eq. simpl. by rewrite Hv.
      - by rewrite ops_at_cons_ne, lookup_partial_alter_ne. }
    destruct (IH (partial_alter (λ _, v) (cmd_key c) ks)) as (ks' & Hks' & Hall).
    { intros k. rewrite <-Hstep. apply Hk. }
    exists ks'. split; [done|]. intros k. by rewrite Hstep.
  - exfalso. specialize (Hk (cmd_key c)). rewrite ops_at_cons_eq in Hk. simpl in Hk.
    rewrite Hv in Hk. by destruct Hk.
Qed.

Lemma apply_all_app cmds cmds' ks :
  apply_all (cmds ++ cmds') ks = ks' ← apply_all cmds ks; apply_all cmds' ks'.
Proof.
  revert ks. induction cmds as [|c cmds IH]; intros ks; simpl; [done|].
  destruct (apply_cmd c ks) as [ks'|]; simpl; [apply IH|done].
Qed.

(** ** Commands by the role of their key *)

Section Roles.
Context `{E : GoEnv} `{!GoEnvOk} (prefix : string).

Definition lower (p : Key * Op) : Cmd := mkCmd (key_name prefix p.1) p.2.

Fixpoint role_ops (k : Key) (l : list (Key * Op)) : list Op :=
  match l with
  | [] => []
  | (k', o) :: l' => if decide (k' = k) then o :: role_ops k l' else role_ops k l'
  end.

Lemma role_ops_app k l l' : role_ops k (l ++ l') = role_ops k l ++ role_ops k l'.
Proof. induction l as [|[k' o] l IH]; simpl; [done|]. rewrite IH. by case_decide. Qed.

Lemma ops_at_lower k l : ops_at (key_name prefix k) (lower <$> l) = role_ops k l.
Proof.
  induction l as [|[k' o] l IH]; [done|]. rewrite fmap_cons.
  cbn [role_ops]. case_decide as Hk; [subst k'|].
  - change (key_name prefix k) with (cmd_key (lower (k, o))). rewrite ops_at_cons_eq. simpl. by rewrite IH.
  - rewrite ops_at_cons_ne; [done|]. unfold lower. simpl. by intros ?%(inj (key_name prefix)).
Qed.

Lemma ops_at_other k l : (∀ r, k ≠ key_name prefix r) → ops_at k (lower <$> l) = [].
Proof.
  intros Hk. induction l as [|[k' o] l IH]; [done|]. rewrite fmap_cons, ops_at_cons_ne; [done|].
  unfold lower. simpl. intros Heq. by apply (Hk k').
Qed.

(** The commands change the value of every role as [P] describes. *)
Lemma apply_roles l ks (P : Key → option RValue → Prop) :
  (∀ k, ∃ v, run_ops (role_ops k l) (ks !! key_name prefix k) = Some v ∧ P k v) →
  ∃ ks', apply_all (lower <$> l) ks = Some ks' ∧ ∀ k, P k (ks' !! key_name prefix k).
Proof.
  intros Hk. destruct (apply_all_spec (lower <$> l) ks) as (ks' & Hks' & Hall).
  { intros k. destruct (decide (Exists (λ p, k = key_name prefix p.1) l)) as [Hex|Hno].
    - apply Exists_exists in Hex as ([r o] & _ & ->). rewrite ops_at_lower.
      destruct (Hk r) as (v & Hv & _). simpl in *. by rewrite Hv.
    - assert (ops_at k (lower <$> l) = []) as ->; [|done].
      clear Hk. induction l as [|[r o] l IH]; [done|]. rewrite fmap_cons, ops_at_cons_ne.
      + apply IH. intros Hex. apply Hno. by right.
      + unfold lower. simpl. intros Heq. apply Hno. by left. }
  exists ks'. split; [done|]. intros k. destruct (Hk k) as (v & Hv & HP).
  specialize (Hall (key_name prefix k)). rewrite ops_at_lower, Hv in Hall. congruence.
Qed.
End Roles.

(** ** Sorted sets *)

(** The net effect of commands on one member. *)
Fixpoint net (ops : list Op) (v : option Z) : option Z :=
  match ops with
  | [] => v
  | OZAdd score _ :: ops' => net ops' (Some score)
  | _ :: ops' => net ops' None
  end.

Definition on_member (m : string) (o : Op) : Prop :=
  match o with
  | OZAdd score m' => m' = m ∧ (- 2 ^ 53 ≤ score ≤ 2 ^ 53)%Z
  | OZRem m' => m' = m
  | _ => False
  end.

Lemma partial_alter_const {A} (x y : option A) k (m : gmap string A) :
  partial_alter (λ _, y) k (partial_alter (λ _, x) k m) = partial_alter (λ _, y) k m.
Proof.
  apply map_eq. intros j. destruct (decide (k = j)) as [<-|Hne].
  - by rewrite !lookup_partial_alter_eq.
  - by rewrite !lookup_partial_alter_ne.
Qed.

Lemma as_zset_value z : as_zset (zset_value z) = Some z.
Proof. unfold zset_value. by case_decide as H; [rewrite H|]. Qed.

Lemma run_zset_ops m ops z :
  Forall (on_member m) ops →
  run_ops ops (zset_value z) = Some (zset_value (partial_alter (λ _, net ops (z !! m)) m z)).
Proof.
  intros Hops. revert z. induction Hops as [|o ops Ho _ IH]; intros z; simpl.
  - do 2 f_equal. by rewrite partial_alter_self.
  - destruct o as [| |score m'|m'| | |]; simpl in Ho; try done.
    + destruct Ho as [-> Hs]. simpl. rewrite as_zset_value. cbn [mbind option_bind].
      rewrite bool_decide_eq_true_2 by done. cbn [mbind option_bind].
      assert (Some (RZSet (<[m:=score]> z)) = zset_value (<[m:=score]> z)) as ->.
      { unfold zset_value. rewrite decide_False; [done|]. apply insert_non_empty. }
      rewrite IH, lookup_insert_eq. do 2 f_equal. apply partial_alter_const.
    + subst m'. simpl. rewrite as_zset_value. cbn [mbind option_bind]. rewrite IH, lookup_delete_eq.
      do 2 f_equal. apply partial_alter_const.
Qed.

(** The members of an index: the records that [f] selects, with their scores. *)
Definition members `{GoEnv} {A} (f : A → option Z) (m : gmap UUID A) : gmap string Z :=
  kmap uuid_String (omap f m).

Section Members.
Context `{E : GoEnv} `{!GoEnvOk} {A : Type}.
Implicit Types (f : A → option Z) (m : gmap UUID A).

Lemma lookup_members f m id : members f m !! uuid_String id = m !! id ≫= f.
Proof. unfold members. by rewrite (lookup_kmap uuid_String), lookup_omap. Qed.

Lemma members_Some f m s z :
  members f m !! s = Some z ↔ ∃ id x, s = uuid_String id ∧ m !! id = Some x ∧ f x = Some z.
Proof.
  unfold members. rewrite (lookup_kmap_Some uuid_String). split.
  - intros (id & -> & Hz). rewrite lookup_omap in Hz. apply bind_Some in Hz as (x & ? & ?). eauto.
  - intros (id & x & -> & Hx & Hf). exists id. split; [done|]. by rewrite lookup_omap, Hx.
Qed.

Lemma members_alter f f' m id x :
  (∀ id' y, id' ≠ id → m !! id' = Some y → f' y = f y) →
  members f' (partial_alter (λ _, x) id m)
  = partial_alter (λ _, x ≫= f') (uuid_String id) (members f m).
Proof.
  intros Hf. apply map_eq. intros s. destruct (decide (s = uuid_String id)) as [->|Hs].
  - by rewrite lookup_members, !lookup_partial_alter_eq.
  - rewrite lookup_partial_alter_ne by done. apply option_eq. intros z. rewrite !members_Some.
    split; intros (id' & y & -> & Hy & Hz); exists id', y; (split; [done|]);
      (assert (id' ≠ id) by (intros ->; done)).
    + rewrite lookup_partial_alter_ne in Hy by done. split; [done|]. by rewrite <-(Hf id').
    + rewrite lookup_partial_alter_ne by done. split; [done|]. by rewrite (Hf id').
Qed.

(** Commands on one member keep the index of a map in which one record changes. *)
Lemma run_members_ops f f' m id x ops :
  Forall (on_member (uuid_String id)) ops →
  (∀ id' y, id' ≠ id → m !! id' = Some y → f' y = f y) →
  net ops (m !! id ≫= f) = x ≫= f' →
  run_ops ops (zset_value (members f m))
  = Some (zset_value (members f' (partial_alter (λ _, x) id m))).
Proof.
  intros Hops Hf Hnet. rewrite (run_zset_ops _ _ _ Hops), lookup_members, Hnet.
  by rewrite (members_alter f f').
Qed.
End Members.

(** ** Counters *)

(** The number of records with a name and a state. *)
Definition tally {A} (label : A → string * string) (m : gmap UUID A) (l : string * string) : Z :=
  Z.of_nat (size (filter (λ p, label p.2 = l) m)).

(** The hash of the counters [t]: a field for every label that ever occurred. *)
Record counters (t : string * string → Z) (h : gmap string string) : Prop := {
  counters_field : ∀ field text, h !! field = Some text → ∃ l, field = countField l.1 l.2 ∧
    no_byte Ascii.zero l.2 ∧ text = pretty (t l);
  counters_missing : ∀ l, no_byte Ascii.zero l.2 → h !! countField l.1 l.2 = None → t l = 0%Z;
}.

Lemma countField_inj (n s n' s' : string) :
  no_byte Ascii.zero s → no_byte Ascii.zero s' →
  countField n s = countField n' s' → n = n' ∧ s = s'.
Proof. intros Hs Hs'. by apply (app_sep_inj_r Ascii.zero). Qed.

Section Tally.
Context {A : Type} (label : A → string * string).
Implicit Types (m : gmap UUID A).

Definition hit (l : string * string) (x : A) : Z := if decide (label x = l) then 1%Z else 0%Z.

Lemma tally_empty l : tally label ∅ l = 0%Z.
Proof. unfold tally. by rewrite map_filter_empty, map_size_empty. Qed.

Lemma tally_insert m id x l :
  m !! id = None → tally label (<[id := x]> m) l = (tally label m l + hit l x)%Z.
Proof.
  intros Hid. unfold tally, hit. case_decide as Hx.
  - rewrite map_filter_insert_True by done. rewrite map_size_insert_None; [lia|].
    apply map_lookup_filter_None. by left.
  - rewrite map_filter_insert_not' by (rewrite ?Hid; naive_solver). lia.
Qed.

Lemma tally_delete m id x l :
  m !! id = Some x → tally label (delete id m) l = (tally label m l - hit l x)%Z.
Proof.
  intros Hid. rewrite <-(insert_delete_id m id x Hid) at 2.
  rewrite tally_insert by apply lookup_delete_eq. lia.
Qed.

Lemma tally_replace m id x y l :
  m !! id = Some x → tally label (<[id := y]> m) l = (tally label m l - hit l x + hit l y)%Z.
Proof.
  intros Hid. rewrite <-insert_delete_eq, tally_insert by apply lookup_delete_eq.
  by rewrite (tally_delete _ _ _ _ Hid).
Qed.

Lemma tally_bounds m l : (0 ≤ tally label m l ≤ Z.of_nat (size m))%Z.
Proof.
  unfold tally. split; [lia|]. apply inj_le, map_subseteq_size, map_filter_subseteq.
Qed.
End Tally.

(** An increment of one counter. *)
Definition bump (t : string * string → Z) (l : string * string) (d : Z) : string * string → Z :=
  λ l', if decide (l' = l) then (t l + d)%Z else t l'.

Lemma counters_ext t t' h : (∀ l, no_byte Ascii.zero l.2 → t l = t' l) → counters t h → counters t' h.
Proof.
  intros Heq [Hf Hm]. split.
  - intros field text H. destruct (Hf _ _ H) as (l & ? & ? & ->). exists l. by rewrite Heq.
  - intros l Hl H. rewrite <-Heq by done. by apply Hm.
Qed.

Lemma counters_hash_int t h l :
  counters t h → no_byte Ascii.zero l.2 → int_ok (t l) → hash_int h (countField l.1 l.2) = Some (t l).
Proof.
  intros [Hf Hm] Hl Hok. unfold hash_int. destruct (h !! countField l.1 l.2) as [text|] eqn:Hh.
  - destruct (Hf _ _ Hh) as (l' & Heq & Hl' & ->).
    apply countField_inj in Heq as [H1 H2]; [|done..]. destruct l, l'; simpl in *; subst.
    by rewrite ParseInt_pretty.
  - by rewrite (Hm l).
Qed.

Lemma run_incr t h v l d :
  as_hash v = Some h → counters t h → no_byte Ascii.zero l.2 → int_ok (t l) → int_ok (t l + d) →
  ∃ h', op_value (OHIncrBy (countField l.1 l.2) d) v = Some (Some (RHash h')) ∧
    counters (bump t l d) h'.
Proof.
  intros Hv Hc Hl Hok Hok'. simpl. rewrite Hv. cbn [mbind option_bind].
  rewrite (counters_hash_int t) by done. cbn [mbind option_bind].
  rewrite bool_decide_eq_true_2 by exact Hok'. eexists. split; [done|]. destruct Hc as [Hf Hm]. split.
  - intros field text. rewrite lookup_insert_Some. intros [[<- <-]|[Hne H]].
    + exists l. unfold bump. by rewrite decide_True.
    + destruct (Hf _ _ H) as (l' & -> & Hl' & ->). exists l'. unfold bump.
      rewrite decide_False by congruence. done.
  - intros l' Hl'. rewrite lookup_insert_None. intros [H Hne]. unfold bump.
    rewrite decide_False by congruence. by apply Hm.
Qed.

(** The two increments that move a record from one label to another. *)
Lemma run_move t h v l l' :
  as_hash v = Some h → counters t h → no_byte Ascii.zero l.2 → no_byte Ascii.zero l'.2 →
  (∀ l, 0 ≤ t l < 2 ^ 62)%Z →
  ∃ h', run_ops [OHIncrBy (countField l.1 l.2) (-1); OHIncrBy (countField l'.1 l'.2) 1] v
    = Some (Some (RHash h')) ∧ counters (bump (bump t l (-1)) l' 1) h'.
Proof.
  intros Hv Hc Hl Hl' Hb. pose proof (Hb l) as Hb1. pose proof (Hb l') as Hb2.
  destruct (run_incr t h v l (-1)) as (h1 & H1 & Hc1); [done|done|done|unfold int_ok, MaxInt64; lia..|].
  destruct (run_incr (bump t l (-1)) h1 (Some (RHash h1)) l' 1) as (h2 & H2 & Hc2);
    [done|done|done|unfold bump; case_decide; unfold int_ok, MaxInt64; lia..|].
  exists h2. split; [|done]. cbn [run_ops]. rewrite H1. cbn [mbind option_bind]. by rewrite H2.
Qed.
