(* ===== verification/RedisRep.v ===== *)
(** * What the keyspace of the Redis store represents

    The abstract state is that of the in-memory store, with the set of executions that the lease index
    lists.  [Rep] relates it to a keyspace, key by key: the record of every execution and run, the event
    lists, the references, and the derived indexes and counters, which are functions of the records.
    [AInv] is the invariant of the abstract state. *)

From S2P Require Import Prelude GoLib GoText Model Memory MemoryInv RedisKeys RedisServer Redis RedisOps.

Record RStore := mkRStore { base : MemoryStore; leased : gset UUID }.

Definition empty_store : RStore := mkRStore NewMemoryStore ∅.

Section Representation.
Context `{E : GoEnv} {C : Codec}.

Abbreviation execs a := (m_executions (base a)).
Abbreviation runs a := (m_runs (base a)).

(** ** The invariant *)

Record ItemOk (e : Execution) : Prop := {
  it_name : e_TaskName e ≠ EmptyString;
  it_max : (1 ≤ e_MaxAttempts e)%Z;
  it_attempt : (0 ≤ e_Attempt e ≤ e_MaxAttempts e)%Z;
  it_token : e_Status e = StatusRunning ↔ e_LeaseToken e ≠ uuid_Nil;
  it_lease : e_Status e ≠ StatusRunning → e_LeaseOwner e = EmptyString ∧ e_LeaseUntil e = 0%Z;
  it_started : e_Status e = StatusRunning → is_Some (e_StartedAt e);
  it_finished : is_terminal (e_Status e) = true ↔ is_Some (e_FinishedAt e);
  it_blocked : e_Status e = StatusBlocked → is_Some (e_PipelineRunID e);
  it_retry : e_Status e = StatusRetry → (e_Attempt e < e_MaxAttempts e)%Z;
  it_fresh : e_Status e = StatusPending ∨ e_Status e = StatusBlocked → e_Attempt e = 0%Z;
}.

Record RunItemOk (r : PipelineRun) : Prop := {
  ri_version : int_ok (r_PipelineVersion r);
  ri_input : ∃ s, r_Input r = Some s ∧ s ≠ EmptyString;
  ri_revision : (0 ≤ r_Revision r < 2 ^ 64)%Z;
  ri_created : time_ok (r_CreatedAt r);
  ri_updated : time_ok (r_UpdatedAt r);
  ri_finished : optional time_ok (r_FinishedAt r);
  ri_terminal : is_run_terminal (r_Status r) = true ↔ is_Some (r_FinishedAt r);
}.

(** Every final attempt that is running is in the lease index, so that it can be reaped. *)
Record AInv (a : RStore) : Prop := {
  a_item : ∀ id e, execs a !! id = Some e → e_ID e = id ∧ json_ok e ∧ ItemOk e;
  a_idem : ∀ k id, m_idempotent (base a) !! k = Some id ↔ idem_entry (base a) k id;
  a_node : ∀ k id, m_nodes (base a) !! k = Some id ↔ node_entry (base a) k id;
  a_log : ∀ id e, execs a !! id = Some e → log_ok (base a) id e;
  a_no_log : ∀ id, execs a !! id = None → m_events (base a) !! id = None;
  a_event : ∀ id evs, m_events (base a) !! id = Some evs → Forall event_ok evs;
  a_run : ∀ id r, runs a !! id = Some r → r_ID r = id ∧ RunItemOk r;
  a_run_idem : ∀ k id, m_runIdempotent (base a) !! k = Some id ↔ run_entry (base a) k id;
  a_leased : ∀ id, id ∈ leased a → ∃ e, execs a !! id = Some e ∧ e_Status e = StatusRunning;
  a_final : ∀ id e, execs a !! id = Some e → e_Status e = StatusRunning →
    (e_MaxAttempts e ≤ e_Attempt e)%Z → id ∈ leased a;
}.

(** ** The indexes *)

(** The deadline that orders an execution in the queue of its task. *)
Definition queue_score (e : Execution) : option Z :=
  match e_Status e with
  | StatusPending | StatusRetry => Some (score (e_AvailableAt e))
  | StatusRunning => Some (score (e_LeaseUntil e))
  | _ => None
  end.

Definition index (leased : gset UUID) (k : Key) (e : Execution) : option Z :=
  match k with
  | KExecutions => Some (score (e_CreatedAt e))
  | KLeases => if decide (e_ID e ∈ leased) then Some (score (e_LeaseUntil e)) else None
  | KQueue name => if decide (e_TaskName e = name) then queue_score e else None
  | KTask name => if decide (e_TaskName e = name) then Some (score (e_CreatedAt e)) else None
  | KStatus status =>
      if decide (Status_string (e_Status e) = status) then Some (score (e_CreatedAt e)) else None
  | KRunExecutions run =>
      if decide (e_PipelineRunID e = Some run) then Some (score (e_CreatedAt e)) else None
  | _ => None
  end.

Definition run_index (k : Key) (r : PipelineRun) : option Z :=
  match k with
  | KRuns => Some (score (r_CreatedAt r))
  | KRunStatus status =>
      if decide (RunStatus_string (r_Status r) = status) then Some (score (r_CreatedAt r)) else None
  | _ => None
  end.

Definition exec_label (e : Execution) : string * string := (e_TaskName e, Status_string (e_Status e)).
Definition run_label (r : PipelineRun) : string * string :=
  (r_PipelineName r, RunStatus_string (r_Status r)).

(** ** The representation *)

Definition reference (id : option UUID) : option RValue := RString ∘ uuid_String <$> id.

Definition represents (a : RStore) (k : Key) (v : option RValue) : Prop :=
  match k with
  | KExecution id =>
      match execs a !! id with
      | Some e => ∃ text, marshal_execution e = inr text ∧ v = Some (RString text)
      | None => v = None
      end
  | KEvents id =>
      match m_events (base a) !! id with
      | Some evs => ∃ texts, v = Some (RList texts) ∧
                      Forall2 (λ ev text, marshal_event ev = inr text) evs texts
      | None => v = None
      end
  | KExecutionCounts => ∃ h, as_hash v = Some h ∧ counters (tally exec_label (execs a)) h
  | KPipelineCounts => ∃ h, as_hash v = Some h ∧ counters (tally run_label (runs a)) h
  | KIdempotency joined => v = reference (m_idempotent (base a) !! joined)
  | KNode run node => v = reference (m_nodes (base a) !! node_key run node)
  | KRunIdempotency joined => v = reference (m_runIdempotent (base a) !! joined)
  | KRun id => v = RHash ∘ encodeRun <$> runs a !! id
  | KRuns | KRunStatus _ => v = zset_value (members (run_index k) (runs a))
  | _ => v = zset_value (members (index (leased a) k) (execs a))
  end.

Record Rep (prefix : string) (a : RStore) (ks : Keyspace) : Prop := {
  rep_inv : AInv a;
  rep_key : ∀ k, represents a k (ks !! key_name prefix k);
}.
End Representation.

Abbreviation execs a := (m_executions (base a)).
Abbreviation runs a := (m_runs (base a)).

(** ** Instants *)

Lemma score_exact t : time_ok t → (- 2 ^ 53 ≤ score t ≤ 2 ^ 53)%Z.
Proof.
  unfold time_ok, score, unix_epoch, Millisecond, Second. intros Ht.
  Z.to_euclidean_division_equations; lia.
Qed.

Lemma score_mono t u : (t ≤ u)%Z → (score t ≤ score u)%Z.
Proof. intros H. apply Z.div_le_mono; [done|]. lia. Qed.

Lemma clock_time_ok t d : clock_ok t → int_ok d → time_ok (Add t d).
Proof. unfold clock_ok, int_ok, time_ok, Add, MaxInt64, Second. lia. Qed.

Lemma clock_now_ok t : clock_ok t → time_ok t.
Proof. unfold clock_ok, time_ok, Second. lia. Qed.

(** ** Runs *)

Section RunCodec.
Context `{E : GoEnv} {C : Codec} {HC : CodecOk}.

Lemma parse_RunStatus_string s : parse_RunStatus (RunStatus_string s) = Some s.
Proof. by destruct s. Qed.

Lemma format_nonempty t : time_ok t → format_RFC3339Nano t ≠ EmptyString.
Proof. intros Ht Heq. pose proof (time_Parse_format t Ht) as H. by rewrite Heq in H. Qed.

Lemma pretty_Z_nonempty (z : Z) : pretty z ≠ EmptyString.
Proof. intros Heq. pose proof (signed_pretty z) as H. by rewrite Heq in H. Qed.

(** The fields of the hash of a run. *)
Ltac run_field := unfold value_of, encodeRun; cbn [list_to_map foldr fst snd];
  repeat first [rewrite lookup_insert_eq | rewrite lookup_insert_ne by discriminate]; done.

(** Decoding the hash of a run gives the run back. *)
Lemma decodeRun_encodeRun r : RunItemOk r → decodeRun (encodeRun r) = inr r.
Proof.
  intros [Hv (input & Hi & _) Hr Hc Hu Hf _]. unfold decodeRun.
  assert (value_of (encodeRun r) "id" = uuid_String (r_ID r)) as -> by run_field.
  assert (value_of (encodeRun r) "pipeline_version" = pretty (r_PipelineVersion r)) as -> by run_field.
  assert (value_of (encodeRun r) "revision" = pretty (r_Revision r)) as -> by run_field.
  assert (value_of (encodeRun r) "created_at" = format_RFC3339Nano (r_CreatedAt r)) as -> by run_field.
  assert (value_of (encodeRun r) "updated_at" = format_RFC3339Nano (r_UpdatedAt r)) as -> by run_field.
  assert (value_of (encodeRun r) "status" = RunStatus_string (r_Status r)) as -> by run_field.
  assert (value_of (encodeRun r) "pipeline_name" = r_PipelineName r) as -> by run_field.
  assert (value_of (encodeRun r) "input" = default EmptyString (r_Input r)) as -> by run_field.
  assert (value_of (encodeRun r) "error" = r_Error r) as -> by run_field.
  assert (value_of (encodeRun r) "idempotency_key" = r_IdempotencyKey r) as -> by run_field.
  assert (value_of (encodeRun r) "finished_at" =
    match r_FinishedAt r with Some t => format_RFC3339Nano t | None => EmptyString end) as -> by run_field.
  rewrite uuid_Parse_String, Sscan_int_pretty by done. unfold is_empty.
  rewrite bool_decide_eq_false_2 by apply pretty_Z_nonempty.
  rewrite Sscan_uint64_pretty, !time_Parse_format, parse_RunStatus_string by done.
  destruct r as [? ? ? i ? ? ? ? ? ? f]; simpl in *. subst i. destruct f as [t|]; [|done]. simpl in Hf.
  rewrite bool_decide_eq_false_2 by (by apply format_nonempty). by rewrite time_Parse_format.
Qed.

(** The hash of a changed run replaces all fields. *)
Lemma encodeRun_union r r' : encodeRun r' ∪ encodeRun r = encodeRun r'.
Proof.
  assert (dom (encodeRun r) ⊆ dom (encodeRun r')) as Hdom.
  { unfold encodeRun. rewrite !dom_list_to_map_L. done. }
  apply map_eq. intros f. apply option_eq. intros x. rewrite lookup_union_Some_raw. split.
  - intros [?|[Hn Hs]]; [done|]. apply not_elem_of_dom in Hn. exfalso. apply Hn, Hdom.
    by eapply elem_of_dom_2.
  - by left.
Qed.

Lemma encodeRun_nonempty r : encodeRun r ≠ ∅.
Proof. apply insert_non_empty. Qed.
End RunCodec.

Arguments encodeRun : simpl never.
