(* ===== verification/RedisCommit.v ===== *)
(** * The transactions of the Redis store, on the abstract state

    For every transaction of the store: the change of the abstract state it stands for, that the change
    keeps the invariant, and that the commands of the transaction lead from a keyspace that represents
    the state before to one that represents the state after. *)

From S2P Require Import Prelude GoLib GoText Model Memory MemoryInv.
From S2P Require Import RedisKeys RedisServer Redis RedisRuns RedisOps RedisRep.

(** ** One execution replaced *)

(** The execution [id] becomes [e], its log becomes [evs]; the lease index lists it when it runs. *)
Definition commit (a : RStore) (id : UUID) (e : Execution) (evs : list Event) : RStore :=
  mkRStore (with_execution (base a) id e evs)
    (if decide (e_Status e = StatusRunning) then {[id]} ∪ leased a else leased a ∖ {[id]}).

Section Commit.
Context `{E : GoEnv} {HE : GoEnvOk} {C : Codec} {HC : CodecOk}.

Lemma commit_leased a id e evs i :
  i ∈ leased (commit a id e evs) ↔
  (i = id ∧ e_Status e = StatusRunning) ∨ (i ≠ id ∧ i ∈ leased a).
Proof.
  unfold commit. cbn [leased]. case_decide.
  - rewrite elem_of_union, elem_of_singleton. destruct (decide (i = id)); naive_solver.
  - rewrite elem_of_difference, elem_of_singleton. naive_solver.
Qed.

Lemma commit_events a id e evs i :
  m_events (base (commit a id e evs)) !! i = if decide (i = id) then Some evs else m_events (base a) !! i.
Proof. simpl. case_decide; subst; by rewrite ?lookup_insert_eq, ?lookup_insert_ne. Qed.

Lemma AInv_commit a id e e' evs :
  AInv a → execs a !! id = Some e → same_identity e e' → json_ok e' → ItemOk e' →
  History (ev_Type <$> evs) (e_Status e') (e_Attempt e') →
  Forall (λ ev, ev_ExecutionID ev = id) evs → Forall event_ok evs →
  AInv (commit a id e' evs).
Proof.
  intros Ha He Hsame Hj Hok Hh Hids Hevs. split; simpl.
  - intros i x. rewrite lookup_insert_Some. intros [[<- <-]|[Hne Hx]]; [|by apply (a_item _ Ha)].
    split; [|done]. destruct Hsame as [-> _]. by apply (a_item _ Ha).
  - intros k i. rewrite (idem_entry_update _ _ e) by done. apply (a_idem _ Ha).
  - intros k i. rewrite (node_entry_update _ _ e) by done. apply (a_node _ Ha).
  - intros i x. rewrite lookup_insert_Some. unfold log_ok. simpl. intros [[<- <-]|[Hne Hx]].
    + exists evs. by rewrite lookup_insert_eq.
    + rewrite lookup_insert_ne by done. by apply (a_log _ Ha).
  - intros i. rewrite !lookup_insert_None. intros [Hi Hne]. split; [|done]. by apply (a_no_log _ Ha).
  - intros i x. rewrite lookup_insert_Some. intros [[<- <-]|[Hne Hx]]; [done|]. by eapply (a_event _ Ha).
  - apply (a_run _ Ha).
  - apply (a_run_idem _ Ha).
  - intros i Hi. apply (commit_leased a id e' evs) in Hi as [[-> Hr]|[Hne Hi]].
    + exists e'. by rewrite lookup_insert_eq.
    + rewrite lookup_insert_ne by done. by apply (a_leased _ Ha).
  - intros i x. rewrite lookup_insert_Some. intros Hx Hr Hm. apply (commit_leased a id e' evs).
    destruct Hx as [[<- <-]|[Hne Hx]]; [by left|]. right. split; [done|]. by eapply (a_final _ Ha).
Qed.

Lemma members_insert {A} (f f' : A → option Z) (m : gmap UUID A) id x ops :
  Forall (on_member (uuid_String id)) ops →
  (∀ id' y, id' ≠ id → m !! id' = Some y → f' y = f y) →
  net ops (m !! id ≫= f) = f' x →
  run_ops ops (zset_value (members f m)) = Some (zset_value (members f' (<[id := x]> m))).
Proof. intros Hops Hf Hnet. by apply (run_members_ops f f' m id (Some x)). Qed.

Lemma index_other a id e' evs k i y :
  AInv a → i ≠ id → execs a !! i = Some y →
  index (leased (commit a id e' evs)) k y = index (leased a) k y.
Proof.
  intros Ha Hne Hy. destruct k; try done. destruct (a_item _ Ha _ _ Hy) as [Hid _].
  cbn [index]. rewrite Hid. pose proof (commit_leased a id e' evs i).
  destruct (decide (i ∈ leased a)), (decide (i ∈ leased (commit a id e' evs))); naive_solver.
Qed.

(** The labels of the counters have no NUL in their second part. *)
Lemma exec_label_no_NUL e : no_byte Ascii.zero (exec_label e).2.
Proof. destruct e as [? ? ? ? ? []]; simpl; repeat split; discriminate. Qed.
Lemma run_label_no_NUL r : no_byte Ascii.zero (run_label r).2.
Proof. destruct r as [? ? ? ? []]; simpl; repeat split; discriminate. Qed.

Lemma tally_move {A} (label : A → string * string) (m : gmap UUID A) id x y l :
  m !! id = Some x →
  bump (bump (tally label m) (label x) (-1)) (label y) 1 l = tally label (<[id := y]> m) l.
Proof.
  intros Hx. rewrite (tally_replace label m id x y l Hx). unfold bump, hit.
  generalize (label x), (label y). intros lx ly. repeat case_decide; subst; try done; lia.
Qed.

Lemma tally_same {A} (label : A → string * string) (m : gmap UUID A) id x y l :
  m !! id = Some x → label y = label x → tally label (<[id := y]> m) l = tally label m l.
Proof.
  intros Hx Hl. rewrite (tally_replace label m id x y l Hx). unfold hit. rewrite Hl. lia.
Qed.

(** A number of records that the counters can hold. *)
Definition small (a : RStore) : Prop :=
  (Z.of_nat (size (execs a)) < 2 ^ 62)%Z ∧ (Z.of_nat (size (runs a)) < 2 ^ 62)%Z.

Lemma small_tally a :
  small a → (∀ l, 0 ≤ tally exec_label (execs a) l < 2 ^ 62)%Z ∧
  (∀ l, 0 ≤ tally run_label (runs a) l < 2 ^ 62)%Z.
Proof.
  intros [He Hr]. split; intros l.
  - pose proof (tally_bounds exec_label (execs a) l). lia.
  - pose proof (tally_bounds run_label (runs a) l). lia.
Qed.

(** A representation holds at most as many records as the keyspace has keys. *)
Lemma Rep_size prefix a ks : Rep prefix a ks → (Z.of_nat (size ks) < 2 ^ 62)%Z → small a.
Proof.
  intros [_ Hk] Hsize.
  assert (∀ {A} (m : gmap UUID A) (mk : UUID → Key), Inj (=) (=) mk →
    (∀ id, is_Some (m !! id) → is_Some (ks !! key_name prefix (mk id))) → size m ≤ size ks) as Hle.
  { intros A m mk Hmk Hin. rewrite <-!length_map_to_list.
    assert (length ((λ id, key_name prefix (mk id)) <$> (map_to_list m).*1)
      ≤ length (map_to_list ks).*1) as H; [|by rewrite !length_fmap in H].
    apply submseteq_length, NoDup_submseteq.
    - apply NoDup_fmap_2; [|apply NoDup_fst_map_to_list].
      intros i j Hij. by apply (inj mk), (inj (key_name prefix)).
    - intros k (id & -> & ([u x] & -> & Hx%elem_of_map_to_list)%list_elem_of_fmap)%list_elem_of_fmap.
      destruct (Hin _ (mk_is_Some _ _ Hx)) as [v Hv]. apply list_elem_of_fmap.
      exists (key_name prefix (mk u), v). split; [done|]. by apply elem_of_map_to_list. }
  split.
  - assert (size (execs a) ≤ size ks); [|lia]. apply (Hle _ _ KExecution); [by intros ?? [=]|].
    intros id [e He]. specialize (Hk (KExecution id)). simpl in Hk. rewrite He in Hk.
    destruct Hk as (text & _ & Hv). simpl. by rewrite Hv.
  - assert (size (runs a) ≤ size ks); [|lia]. apply (Hle _ _ KRun); [by intros ?? [=]|].
    intros id [r Hr]. specialize (Hk (KRun id)). simpl in *. by rewrite Hk, Hr.
Qed.

(** The keys of the indexes of executions, and those that concern runs or references. *)
Definition is_index (k : Key) : bool :=
  match k with
  | KExecutions | KLeases | KQueue _ | KTask _ | KStatus _ | KRunExecutions _ => true
  | _ => false
  end.
Definition is_foreign (k : Key) : bool :=
  match k with
  | KPipelineCounts | KIdempotency _ | KNode _ _ | KRun _ | KRuns | KRunIdempotency _
  | KRunStatus _ => true
  | _ => false
  end.

(** What the commands of a transaction that replaces [e] by [e'] must be, key by key. *)
Record item_cmds (a : RStore) (id : UUID) (e e' : Execution) (evs : list Event) (text : string)
    (events : list string) (l : list (Key * Op)) : Prop := {
  ic_exec : ∀ i, role_ops (KExecution i) l = if decide (i = id) then [OSet text] else [];
  ic_events : ∀ i, role_ops (KEvents i) l = if decide (i = id) then ORPush <$> events else [];
  ic_counts : role_ops KExecutionCounts l =
    if decide (e_Status e = e_Status e') then []
    else [OHIncrBy (countField (e_TaskName e') (Status_string (e_Status e))) (-1);
          OHIncrBy (countField (e_TaskName e') (Status_string (e_Status e'))) 1];
  ic_index : ∀ k, is_index k = true → Forall (on_member (uuid_String id)) (role_ops k l) ∧
    net (role_ops k l) (index (leased a) k e) = index (leased (commit a id e' evs)) k e';
  ic_foreign : ∀ k, is_foreign k = true → role_ops k l = [];
}.

Lemma History_nonempty evs s n : History evs s n → evs ≠ [].
Proof. induction 1 as [|[]|]; done. Qed.

Lemma run_pushes texts events :
  texts ≠ [] → run_ops (ORPush <$> events) (Some (RList texts)) = Some (Some (RList (texts ++ events))).
Proof.
  revert texts. induction events as [|x events IH]; intros texts Ht; simpl; [by rewrite app_nil_r|].
  rewrite IH by (by destruct texts). by rewrite <-(assoc_L (++)).
Qed.

Lemma Rep_commit prefix a ks id e e' evs evs' text texts l :
  Rep prefix a ks → small a →
  execs a !! id = Some e → same_identity e e' →
  m_events (base a) !! id = Some evs → AInv (commit a id e' (evs ++ evs')) →
  marshal_execution e' = inr text →
  Forall2 (λ ev text, marshal_event ev = inr text) evs' texts →
  item_cmds a id e e' (evs ++ evs') text texts l →
  ∃ ks', apply_all (lower prefix <$> l) ks = Some ks' ∧ Rep prefix (commit a id e' (evs ++ evs')) ks'.
Proof.
  intros Hrep Hsize He Hsame Hevs Ha' Htext Htexts [Hexec Hevents Hcounts Hindex Hforeign].
  pose proof (rep_inv _ _ _ Hrep) as Ha. destruct (small_tally _ Hsize) as [Hb _].
  destruct (apply_roles prefix l ks (represents (commit a id e' (evs ++ evs')))) as (ks' & Hks' & Hk');
    [|exists ks'; split; [done|by split]].
  intros k. pose proof (rep_key _ _ _ Hrep k) as Hk.
  destruct (is_index k) eqn:Hik; [|destruct (is_foreign k) eqn:Hfk].
  - destruct (Hindex k Hik) as [Hops Hnet]. eexists. split.
    + assert (ks !! key_name prefix k = zset_value (members (index (leased a) k) (execs a))) as ->
        by (by destruct k).
      apply (members_insert _ (index (leased (commit a id e' (evs ++ evs'))) k) _ id e'); [done| |].
      * intros i y Hne Hy. by eapply index_other.
      * rewrite He. exact Hnet.
    + by destruct k.
  - rewrite (Hforeign k Hfk). eexists. split; [done|]. by destruct k.
  - destruct k as [i|i| | | | | | | | | | | | | |]; try done.
    + rewrite Hexec. simpl in *. destruct (decide (i = id)) as [->|Hne].
      * eexists. split; [done|]. rewrite lookup_insert_eq. eauto.
      * eexists. split; [done|]. by rewrite lookup_insert_ne.
    + rewrite Hevents. simpl in *. destruct (decide (i = id)) as [->|Hne].
      * rewrite Hevs in Hk. destruct Hk as (ts & -> & Hts). rewrite run_pushes.
        -- eexists. split; [done|]. rewrite lookup_insert_eq. eexists. split; [done|]. by apply Forall2_app.
        -- destruct (a_log _ Ha _ _ He) as (evs1 & Hevs1 & Hh & _). rewrite Hevs in Hevs1.
           injection Hevs1 as <-. intros ->. apply Forall2_nil_inv_r in Hts as ->.
           by apply History_nonempty in Hh.
      * eexists. split; [done|]. by rewrite lookup_insert_ne.
    + rewrite Hcounts. cbn [represents] in *. destruct Hk as (h & Hh & Hc).
      destruct Hsame as (_ & Hn & _). destruct (decide (e_Status e = e_Status e')) as [Hst|Hst].
      * eexists. split; [done|]. exists h. split; [done|]. eapply counters_ext; [|exact Hc].
        intros l' _. symmetry. apply (tally_same _ _ _ e); [done|]. unfold exec_label. by rewrite Hn, Hst.
      * destruct (run_move _ h _ (exec_label e) (exec_label e') Hh Hc) as (h' & Hrun & Hc');
          [apply exec_label_no_NUL..|done|].
        eexists. split; [rewrite Hn; unfold exec_label in Hrun; simpl in Hrun; rewrite Hn in Hrun; exact Hrun|].
        exists h'. split; [done|]. eapply counters_ext; [|exact Hc'].
        intros l' _. eapply (tally_move exec_label). exact He.
Qed.
End Commit.
