(* ===== verification/RedisItems.v ===== *)
(** * The transactions on one execution

    The commands of every transaction that replaces one execution, by the role of their keys, and that
    they write exactly what the indexes of the changed execution require. *)

From S2P Require Import Prelude GoLib GoText Model Memory MemoryInv.
From S2P Require Import RedisKeys RedisServer Redis RedisRuns RedisOps RedisRep RedisCommit.

(** ** Tactics *)

(** Decide every comparison of keys. *)
Ltac roles := repeat (first [progress simplify_eq/= | case_decide]); try done.

(** Commands on the member of one execution, with exact scores. *)
Ltac on_members := repeat first [apply Forall_nil_2 | apply Forall_cons_2]; simpl; auto.

(** The goal of an index: the commands concern the execution, and their net effect is its score. *)
Ltac index_goal :=
  repeat (first [progress simplify_eq/= | case_decide]);
  try (exfalso; congruence); (split; [on_members|simpl; try congruence]); eauto.

(** ** Transactions *)

Section Items.
Context `{E : GoEnv} {HE : GoEnvOk} {C : Codec} {HC : CodecOk}.

Definition move_ops (item : Execution) (previous : Status) : list (Key * Op) :=
  [(KExecutionCounts, OHIncrBy (countField (e_TaskName item) (Status_string previous)) (-1));
   (KExecutionCounts, OHIncrBy (countField (e_TaskName item) (Status_string (e_Status item))) 1)].

Definition status_ops (item : Execution) (previous : Status) : list (Key * Op) :=
  [(KStatus (Status_string previous), OZRem (uuid_String (e_ID item)));
   (KStatus (Status_string (e_Status item)),
      OZAdd (score (e_CreatedAt item)) (uuid_String (e_ID item)))].

(** What the queue and the lease index need to list the execution or not. *)
Definition queue_ops (item : Execution) : list (Key * Op) :=
  match queue_score item with
  | Some z => [(KQueue (e_TaskName item), OZAdd z (uuid_String (e_ID item)))]
  | None => [(KQueue (e_TaskName item), OZRem (uuid_String (e_ID item)))]
  end.

Definition lease_ops (item : Execution) : list (Key * Op) :=
  if decide (e_Status item = StatusRunning)
  then [(KLeases, OZAdd (score (e_LeaseUntil item)) (uuid_String (e_ID item)))] else [].

Definition saveTransition_roles (item : Execution) (previous : Status) (encoded event : string)
    : list (Key * Op) :=
  [(KExecution (e_ID item), OSet encoded)] ++
  (if decide (previous = e_Status item) then [] else move_ops item previous) ++
  status_ops item previous ++ [(KLeases, OZRem (uuid_String (e_ID item)))] ++
  lease_ops item ++ queue_ops item ++ [(KEvents (e_ID item), ORPush event)].

Lemma saveTransition_lower prefix item previous encoded event keep :
  keep = is_active (e_Status item) →
  saveTransition_cmds prefix item previous encoded event keep
  = lower prefix <$> saveTransition_roles item previous encoded event.
Proof.
  intros ->.
  unfold saveTransition_cmds, saveTransition_roles, move_ops, lease_ops, queue_ops, queue_score.
  destruct (e_Status item) eqn:Hst; simpl; try rewrite Hst;
    repeat case_bool_decide; repeat case_decide; try done; congruence.
Qed.

(** The hypotheses about a replaced execution that every transaction shares. *)
Record replacement (a : RStore) (id : UUID) (e e' : Execution) : Prop := {
  rp_rep : AInv a;
  rp_old : execs a !! id = Some e;
  rp_same : same_identity e e';
  rp_json : json_ok e';
}.

Lemma replacement_id a id e e' : replacement a id e e' → e_ID e = id ∧ e_ID e' = id.
Proof.
  intros [Ha He Hs _]. destruct (a_item _ Ha _ _ He) as [Hid _]. destruct Hs as [Hs _].
  by rewrite Hs.
Qed.

Lemma old_lease_index a id e e' :
  replacement a id e e' → e_Status e ≠ StatusRunning → index (leased a) KLeases e = None.
Proof.
  intros Hrp Hst. destruct (replacement_id _ _ _ _ Hrp) as [Hid _]. destruct Hrp as [Ha He _ _].
  simpl. rewrite Hid. rewrite decide_False; [done|]. intros Hin.
  destruct (a_leased _ Ha _ Hin) as (e0 & He0 & ?). congruence.
Qed.

Lemma new_lease_index a id e e' evs :
  replacement a id e e' →
  index (leased (commit a id e' evs)) KLeases e' =
  if decide (e_Status e' = StatusRunning) then Some (score (e_LeaseUntil e')) else None.
Proof.
  intros Hrp. destruct (replacement_id _ _ _ _ Hrp) as [_ Hid]. cbn [index]. rewrite Hid.
  pose proof (commit_leased a id e' evs id) as Hl.
  destruct (decide (id ∈ leased (commit a id e' evs))), (decide (e_Status e' = StatusRunning));
    naive_solver.
Qed.

Lemma queue_score_exact e z : json_ok e → queue_score e = Some z → (- 2 ^ 53 ≤ z ≤ 2 ^ 53)%Z.
Proof.
  intros Hj. unfold queue_score. destruct (e_Status e); intros [= <-]; apply score_exact; by destruct Hj.
Qed.

Lemma saveTransition_item a id e e' evs encoded event :
  replacement a id e e' →
  item_cmds a id e e' evs encoded [event] (saveTransition_roles e' (e_Status e) encoded event).
Proof.
  intros Hrp. destruct (replacement_id _ _ _ _ Hrp) as [Hid Hid'].
  pose proof (new_lease_index _ _ _ _ evs Hrp) as Hnew.
  destruct Hrp as [Ha He Hs Hj]. pose proof Hs as (_ & Hname & _ & _ & Hrun & _ & Hcreated & _).
  pose proof (score_exact _ (json_created _ Hj)) as Hsc.
  pose proof (score_exact _ (json_until _ Hj)) as Hsl.
  pose proof (queue_score_exact e') as Hsq.
  unfold saveTransition_roles, move_ops, status_ops, queue_ops, lease_ops. rewrite Hid'.
  split.
  - intros i. destruct (queue_score e'); roles.
  - intros i. destruct (queue_score e'); roles.
  - destruct (queue_score e'); roles.
  - intros k Hk. destruct k; try done; clear Hk.
    + destruct (queue_score e'); index_goal.
    + rewrite Hnew. clear Hnew. destruct (queue_score e'); index_goal.
    + clear Hnew. simpl. destruct (queue_score e') eqn:Hq; index_goal.
    + clear Hnew. destruct (queue_score e'); index_goal.
    + clear Hnew. destruct (queue_score e'); index_goal.
    + clear Hnew. destruct (queue_score e'); index_goal.
  - intros k Hk. destruct k; try done; destruct (queue_score e'); roles.
Qed.

(** A restart writes what a transition does. *)
Lemma restart_lower prefix item previous encoded event :
  e_Status item = StatusPending → previous ≠ StatusPending →
  restart_cmds prefix (e_ID item) item previous encoded event
  = lower prefix <$> saveTransition_roles item previous encoded event.
Proof.
  intros Hst Hp. unfold restart_cmds, saveTransition_roles, move_ops, status_ops, lease_ops, queue_ops,
    queue_score. rewrite Hst. by rewrite decide_False.
Qed.

Lemma subgraph_lower prefix item previous encoded event :
  e_Status item = StatusPending ∨ e_Status item = StatusBlocked →
  subgraph_item_cmds prefix item previous encoded event
  = lower prefix <$> saveTransition_roles item previous encoded event.
Proof.
  unfold subgraph_item_cmds, saveTransition_roles, move_ops, status_ops, lease_ops, queue_ops,
    queue_score. intros [-> | ->]; case_bool_decide; case_decide; done.
Qed.

Definition heartbeat_roles (item : Execution) (encoded : string) : list (Key * Op) :=
  [(KExecution (e_ID item), OSet encoded);
   (KQueue (e_TaskName item), OZAdd (score (e_LeaseUntil item)) (uuid_String (e_ID item)));
   (KLeases, OZAdd (score (e_LeaseUntil item)) (uuid_String (e_ID item)))].

Lemma heartbeat_lower prefix item encoded :
  heartbeat_cmds prefix (e_ID item) item encoded = lower prefix <$> heartbeat_roles item encoded.
Proof. done. Qed.

Lemma heartbeat_item a id e e' evs encoded :
  replacement a id e e' → e_Status e = StatusRunning → e_Status e' = StatusRunning →
  item_cmds a id e e' evs encoded [] (heartbeat_roles e' encoded).
Proof.
  intros Hrp Hst Hst'. destruct (replacement_id _ _ _ _ Hrp) as [Hid Hid'].
  pose proof (new_lease_index _ _ _ _ evs Hrp) as Hnew. rewrite decide_True in Hnew by done.
  destruct Hrp as [Ha He Hs Hj]. pose proof Hs as (_ & Hname & _ & _ & Hrun & _ & Hcreated & _).
  pose proof (score_exact _ (json_until _ Hj)) as Hsl.
  unfold heartbeat_roles. rewrite Hid'. split.
  - intros i. roles.
  - intros i. roles.
  - roles. congruence.
  - intros k Hk. destruct k; try done; clear Hk.
    + index_goal.
    + rewrite Hnew. clear Hnew. index_goal.
    + clear Hnew. simpl. unfold queue_score. rewrite Hst, Hst'. index_goal.
    + clear Hnew. index_goal.
    + clear Hnew. simpl. rewrite Hst, Hst'. index_goal.
    + clear Hnew. index_goal.
  - intros k Hk. destruct k; try done; roles.
Qed.

Definition release_roles (item : Execution) (encoded : string) : list (Key * Op) :=
  [(KExecution (e_ID item), OSet encoded)] ++ move_ops item StatusBlocked ++
  status_ops item StatusBlocked ++ queue_ops item.

Lemma release_lower prefix item encoded :
  e_Status item = StatusPending →
  release_cmds prefix (e_ID item) item encoded = lower prefix <$> release_roles item encoded.
Proof.
  intros Hst. unfold release_cmds, release_roles, move_ops, status_ops, queue_ops, queue_score.
  by rewrite Hst.
Qed.

Lemma release_item a id e e' evs encoded :
  replacement a id e e' → e_Status e = StatusBlocked → e_Status e' = StatusPending →
  item_cmds a id e e' evs encoded [] (release_roles e' encoded).
Proof.
  intros Hrp Hst Hst'. destruct (replacement_id _ _ _ _ Hrp) as [Hid Hid'].
  pose proof (new_lease_index _ _ _ _ evs Hrp) as Hnew.
  assert (index (leased a) KLeases e = None) as Hold by (eapply old_lease_index; [done|congruence]).
  rewrite decide_False in Hnew by congruence.
  destruct Hrp as [Ha He Hs Hj]. pose proof Hs as (_ & Hname & _ & _ & Hrun & _ & Hcreated & _).
  pose proof (score_exact _ (json_created _ Hj)) as Hsc.
  pose proof (score_exact _ (json_available _ Hj)) as Hsa.
  unfold release_roles, move_ops, status_ops, queue_ops, queue_score. rewrite Hid', Hst'.
  split.
  - intros i. roles.
  - intros i. roles.
  - rewrite Hst, Hst'. roles.
  - intros k Hk. destruct k; try done; clear Hk.
    + index_goal.
    + rewrite Hnew, Hold. by split; [on_members|].
    + clear Hnew Hold. simpl. unfold queue_score. rewrite Hst'. index_goal.
    + clear Hnew Hold. index_goal.
    + clear Hnew Hold. simpl. rewrite Hst, Hst'. index_goal.
    + clear Hnew Hold. index_goal.
  - intros k Hk. destruct k; try done; roles.
Qed.
End Items.
