(* ===== verification/RedisRecords.v ===== *)
(** * The transactions that create and remove records

    Creation and removal of executions, creation, change and removal of runs, and the removal of an
    entry of the lease index: the abstract change, its invariant, the commands by role. *)

From S2P Require Import Prelude GoLib GoText Model Memory MemoryInv.
From S2P Require Import RedisKeys RedisServer Redis RedisRuns RedisOps RedisRep RedisCommit RedisItems.

Section Records.
Context `{E : GoEnv} {HE : GoEnvOk} {C : Codec} {HC : CodecOk}.

(** ** A new execution *)

Definition insert_store (a : RStore) (e : Execution) (ev : Event) : RStore :=
  mkRStore (inserted (base a) (e_ID e) e ev) (leased a).

(** A record that [CreateExecution] may store. *)
Record fresh_item (a : RStore) (e : Execution) (ev : Event) : Prop := {
  fi_id : execs a !! e_ID e = None;
  fi_json : json_ok e;
  fi_ok : ItemOk e;
  fi_status : e_Status e = StatusPending;
  fi_event : ev_Type ev = EventCreated ∧ ev_ExecutionID ev = e_ID e ∧ event_ok ev;
  fi_idem : e_IdempotencyKey e ≠ EmptyString →
    m_idempotent (base a) !! idempotent_key (e_TaskName e) (e_IdempotencyKey e) = None;
  fi_node : ∀ r, e_PipelineRunID e = Some r → e_NodeKey e ≠ EmptyString →
    m_nodes (base a) !! node_key r (e_NodeKey e) = None;
}.

Lemma AInv_insert a e ev : AInv a → fresh_item a e ev → AInv (insert_store a e ev).
Proof.
  intros Ha [Hid Hj Hok Hst (Ht & Hx & Hev) Hidem Hnode].
  assert (m_events (base a) !! e_ID e = None) as Hnl by (by apply (a_no_log _ Ha)). split; simpl.
  - intros i x. rewrite lookup_insert_Some. intros [[<- <-]|[Hne Hi]]; [done|]. by apply (a_item _ Ha).
  - intros k i. apply inserted_idem; [done..|]. apply (a_idem _ Ha).
  - intros k i. apply inserted_node; [done..|]. apply (a_node _ Ha).
  - intros i x. rewrite lookup_insert_Some. unfold log_ok. simpl. intros [[<- <-]|[Hne Hi]].
    + exists [ev]. rewrite lookup_insert_eq, Hnl. split_and!; [done| |by apply Forall_singleton].
      simpl. rewrite Ht, Hst, (it_fresh _ Hok) by auto. constructor.
    + rewrite lookup_insert_ne by done. by apply (a_log _ Ha).
  - intros i. rewrite !lookup_insert_None. intros [Hi Hne]. split; [|done]. by apply (a_no_log _ Ha).
  - intros i evs. rewrite lookup_insert_Some. intros [[<- <-]|[Hne Hi]]; [|by eapply (a_event _ Ha)].
    rewrite Hnl. by apply Forall_singleton.
  - apply (a_run _ Ha).
  - apply (a_run_idem _ Ha).
  - intros i Hi. destruct (a_leased _ Ha _ Hi) as (x & Hx' & ?). exists x. split; [|done].
    rewrite lookup_insert_ne; [done|]. by intros <-; rewrite Hid in Hx'.
  - intros i x. rewrite lookup_insert_Some. intros [[<- <-]|[Hne Hi]] Hr; [congruence|].
    by apply (a_final _ Ha).
Qed.

Definition idem_role (e : Execution) (o : Op) : list (Key * Op) :=
  if is_empty (e_IdempotencyKey e) then []
  else [(KIdempotency (idempotent_key (e_TaskName e) (e_IdempotencyKey e)), o)].

Definition node_role (e : Execution) (o : Op) : list (Key * Op) :=
  match e_PipelineRunID e with
  | Some r => if is_empty (e_NodeKey e) then [] else [(KNode r (e_NodeKey e), o)]
  | None => []
  end.

Definition create_roles (e : Execution) (text event : string) : list (Key * Op) :=
  let id := uuid_String (e_ID e) in
  let created := OZAdd (score (e_CreatedAt e)) id in
  [(KExecution (e_ID e), OSet text);
   (KExecutionCounts, OHIncrBy (countField (e_TaskName e) (Status_string (e_Status e))) 1);
   (KExecutions, created); (KTask (e_TaskName e), created);
   (KStatus (Status_string (e_Status e)), created);
   (KQueue (e_TaskName e), OZAdd (score (e_AvailableAt e)) id);
   (KEvents (e_ID e), ORPush event)] ++ idem_role e (OSet id) ++ node_role e (OSet id) ++
  match e_PipelineRunID e with Some r => [(KRunExecutions r, created)] | None => [] end.

Lemma create_lower prefix e text event :
  create_cmds prefix e (create_refs prefix e) text event = lower prefix <$> create_roles e text event.
Proof.
  unfold create_cmds, create_refs, create_roles, idem_role, node_role.
  destruct (is_empty (e_IdempotencyKey e)), (e_PipelineRunID e) as [r|], (is_empty (e_NodeKey e)); done.
Qed.

Lemma create_index a e text event k :
  AInv a → execs a !! e_ID e = None → json_ok e → e_Status e = StatusPending → is_index k = true →
  Forall (on_member (uuid_String (e_ID e))) (role_ops k (create_roles e text event)) ∧
  net (role_ops k (create_roles e text event)) None = index (leased a) k e.
Proof.
  intros Ha Hid Hj Hst Hk. pose proof (score_exact _ (json_created _ Hj)) as Hsc.
  pose proof (score_exact _ (json_available _ Hj)) as Hsa.
  unfold create_roles, idem_role, node_role.
  destruct k; try done; clear Hk; simpl;
    [| rewrite decide_False; [|intros Hin; destruct (a_leased _ Ha _ Hin) as (? & ? & _); congruence]
     | unfold queue_score; rewrite Hst |..];
    destruct (is_empty (e_IdempotencyKey e)), (e_PipelineRunID e) as [r|];
    try destruct (is_empty (e_NodeKey e)); index_goal.
Qed.

Lemma create_other e text event k :
  match k with
  | KExecution i => role_ops k (create_roles e text event) = if decide (i = e_ID e) then [OSet text] else []
  | KEvents i => role_ops k (create_roles e text event) = if decide (i = e_ID e) then [ORPush event] else []
  | KExecutionCounts => role_ops k (create_roles e text event)
      = [OHIncrBy (countField (exec_label e).1 (exec_label e).2) 1]
  | KIdempotency j => role_ops k (create_roles e text event) =
      if decide (e_IdempotencyKey e ≠ EmptyString ∧ j = idempotent_key (e_TaskName e) (e_IdempotencyKey e))
      then [OSet (uuid_String (e_ID e))] else []
  | KNode r n => role_ops k (create_roles e text event) =
      if decide (e_PipelineRunID e = Some r ∧ e_NodeKey e ≠ EmptyString ∧ n = e_NodeKey e)
      then [OSet (uuid_String (e_ID e))] else []
  | KPipelineCounts | KRun _ | KRuns | KRunIdempotency _ | KRunStatus _ =>
      role_ops k (create_roles e text event) = []
  | _ => True
  end.
Proof.
  unfold create_roles, idem_role, node_role.
  destruct (is_empty (e_IdempotencyKey e)) eqn:Hi;
    [apply is_empty_true in Hi|apply is_empty_false in Hi];
  destruct (is_empty (e_NodeKey e)) eqn:Hn;
    [apply is_empty_true in Hn|apply is_empty_false in Hn| apply is_empty_true in Hn
    |apply is_empty_false in Hn];
  destruct (e_PipelineRunID e) as [r|] eqn:Hr; destruct k; try done; roles; naive_solver.
Qed.

Lemma reference_insert (m : gmap string UUID) j j' id :
  reference (<[j' := id]> m !! j) = if decide (j = j') then Some (RString (uuid_String id)) else reference (m !! j).
Proof. case_decide as H; [rewrite H, lookup_insert_eq|rewrite lookup_insert_ne by done]; done. Qed.

Lemma Rep_insert prefix a ks e ev text event :
  Rep prefix a ks → small a → fresh_item a e ev →
  marshal_execution e = inr text → marshal_event ev = inr event →
  ∃ ks', apply_all (create_cmds prefix e (create_refs prefix e) text event) ks = Some ks' ∧
    Rep prefix (insert_store a e ev) ks'.
Proof.
  intros Hrep Hsize Hf Htext Hevent. pose proof (rep_inv _ _ _ Hrep) as Ha.
  destruct (small_tally _ Hsize) as [Hb _]. rewrite create_lower.
  destruct (apply_roles prefix (create_roles e text event) ks (represents (insert_store a e ev)))
    as (ks' & Hks' & Hk'); [|exists ks'; split; [done|by split; [apply AInv_insert|]]].
  destruct Hf as [Hid Hj Hok Hst _ Hidem Hnode].
  intros k. pose proof (rep_key _ _ _ Hrep k) as Hk. pose proof (create_other e text event k) as Ho.
  destruct (is_index k) eqn:Hik.
  - destruct (create_index a e text event k Ha Hid Hj Hst Hik) as [Hops Hnet]. eexists. split.
    + assert (ks !! key_name prefix k = zset_value (members (index (leased a) k) (execs a))) as ->
        by (by destruct k).
      apply (members_insert _ (index (leased a) k) _ (e_ID e) e); [done|done|]. by rewrite Hid.
    + by destruct k.
  - destruct k as [i|i| | | | | | | |j|r n| | | | |]; try done; rewrite Ho; cbn [represents] in *.
    + destruct (decide (i = e_ID e)) as [->|Hne]; (eexists; split; [done|]); simpl.
      * rewrite lookup_insert_eq. eauto.
      * by rewrite lookup_insert_ne.
    + destruct (decide (i = e_ID e)) as [->|Hne].
      * rewrite (a_no_log _ Ha _ Hid) in Hk. rewrite Hk. eexists. split; [done|]. simpl.
        rewrite lookup_insert_eq, (a_no_log _ Ha _ Hid). exists [event]. split; [done|].
        by apply Forall2_cons_2.
      * eexists. split; [done|]. simpl. by rewrite lookup_insert_ne.
    + destruct Hk as (h & Hh & Hc). pose proof (Hb (exec_label e)).
      destruct (run_incr _ h _ (exec_label e) 1 Hh Hc) as (h' & Hrun & Hc');
        [apply exec_label_no_NUL|unfold int_ok, MaxInt64; lia..|].
      eexists. split; [cbn [run_ops]; rewrite Hrun; done|]. exists h'. split; [done|].
      eapply counters_ext; [|exact Hc']. intros l _. simpl. rewrite tally_insert by done.
      unfold bump, hit. generalize (exec_label e). intros le. repeat case_decide; subst; try done; lia.
    + eexists. split; [done|]. done.
    + case_decide as Hd; (eexists; split; [done|]); simpl; destruct (is_empty (e_IdempotencyKey e)) eqn:He;
        rewrite ?reference_insert; try done.
      * apply is_empty_true in He. naive_solver.
      * by rewrite decide_True by apply Hd.
      * apply is_empty_false in He. rewrite decide_False; [done|]. naive_solver.
    + case_decide as Hd; (eexists; split; [done|]); simpl.
      * destruct Hd as (-> & Hn%is_empty_false & ->). rewrite Hn, reference_insert. by rewrite decide_True.
      * destruct (e_PipelineRunID e) as [r'|]; [|done]. destruct (is_empty (e_NodeKey e)) eqn:He; [done|].
        apply is_empty_false in He. rewrite reference_insert, decide_False; [done|].
        intros [-> ->]%node_key_inj. naive_solver.
    + eexists. split; [done|]. done.
    + eexists. split; [done|]. done.
    + eexists. split; [done|]. done.
    + eexists. split; [done|]. done.
Qed.

(** ** An execution removed *)

Definition delete_store (a : RStore) (e : Execution) : RStore :=
  mkRStore (deleteExecution (e_ID e) e (base a)) (leased a ∖ {[e_ID e]}).

Lemma AInv_delete a e : AInv a → execs a !! e_ID e = Some e → AInv (delete_store a e).
Proof.
  intros Ha He. destruct (deleteExecution_executions (e_ID e) e (base a)) as (H1 & H2 & H3 & H4).
  split; simpl.
  - intros i x. rewrite H1. intros [_ Hx]%lookup_delete_Some. by apply (a_item _ Ha).
  - intros k i. apply deleteExecution_idem; [done|]. apply (a_idem _ Ha).
  - intros k i. apply deleteExecution_node; [done|]. apply (a_node _ Ha).
  - intros i x. unfold log_ok. rewrite H1, H2. intros [Hne Hx]%lookup_delete_Some.
    rewrite lookup_delete_ne by done. by apply (a_log _ Ha).
  - intros i. rewrite H1, H2, !lookup_delete_None. intros [?|?]; [by left|right; by apply (a_no_log _ Ha)].
  - intros i evs. rewrite H2. intros [_ Hx]%lookup_delete_Some. by eapply (a_event _ Ha).
  - rewrite H3. apply (a_run _ Ha).
  - unfold run_entry. rewrite H3, H4. apply (a_run_idem _ Ha).
  - intros i. rewrite H1, elem_of_difference, elem_of_singleton. intros [Hi Hne].
    rewrite lookup_delete_ne by done. by apply (a_leased _ Ha).
  - intros i x. rewrite H1, lookup_delete_Some, elem_of_difference, elem_of_singleton.
    intros [Hne Hx] ? ?. split; [by eapply (a_final _ Ha)|done].
Qed.

Definition purge_roles (e : Execution) : list (Key * Op) :=
  let rem := OZRem (uuid_String (e_ID e)) in
  [(KExecution (e_ID e), ODel); (KEvents (e_ID e), ODel); (KExecutions, rem);
   (KTask (e_TaskName e), rem); (KStatus (Status_string (e_Status e)), rem);
   (KQueue (e_TaskName e), rem); (KLeases, rem);
   (KExecutionCounts, OHIncrBy (countField (e_TaskName e) (Status_string (e_Status e))) (-1))] ++
  idem_role e ODel ++
  match e_PipelineRunID e with
  | Some r => [(KNode r (e_NodeKey e), ODel); (KRunExecutions r, rem)]
  | None => []
  end.

Lemma purge_lower prefix e : purgeExecution prefix e = lower prefix <$> purge_roles e.
Proof.
  unfold purgeExecution, purge_roles, idem_role.
  destruct (is_empty (e_IdempotencyKey e)), (e_PipelineRunID e) as [r|]; done.
Qed.

Lemma purge_index a e k :
  is_index k = true →
  Forall (on_member (uuid_String (e_ID e))) (role_ops k (purge_roles e)) ∧
  net (role_ops k (purge_roles e)) (index (leased a) k e) = None.
Proof.
  intros Hk. unfold purge_roles, idem_role. destruct k; try done; clear Hk; simpl;
    destruct (is_empty (e_IdempotencyKey e)), (e_PipelineRunID e) as [r|]; index_goal.
Qed.

Lemma purge_other e k :
  match k with
  | KExecution i | KEvents i => role_ops k (purge_roles e) = if decide (i = e_ID e) then [ODel] else []
  | KExecutionCounts => role_ops k (purge_roles e)
      = [OHIncrBy (countField (exec_label e).1 (exec_label e).2) (-1)]
  | KIdempotency j => role_ops k (purge_roles e) =
      if decide (e_IdempotencyKey e ≠ EmptyString ∧ j = idempotent_key (e_TaskName e) (e_IdempotencyKey e))
      then [ODel] else []
  | KNode r n => role_ops k (purge_roles e) =
      if decide (e_PipelineRunID e = Some r ∧ n = e_NodeKey e) then [ODel] else []
  | KPipelineCounts | KRun _ | KRuns | KRunIdempotency _ | KRunStatus _ => role_ops k (purge_roles e) = []
  | _ => True
  end.
Proof.
  unfold purge_roles, idem_role.
  destruct (is_empty (e_IdempotencyKey e)) eqn:Hi;
    [apply is_empty_true in Hi|apply is_empty_false in Hi];
  destruct (e_PipelineRunID e) as [r|] eqn:Hr; destruct k; try done; roles; naive_solver.
Qed.

Lemma reference_delete (m : gmap string UUID) j j' :
  reference (delete j' m !! j) = if decide (j = j') then None else reference (m !! j).
Proof. case_decide as H; [rewrite H, lookup_delete_eq|rewrite lookup_delete_ne by done]; done. Qed.

Lemma deleteExecution_refs id e s :
  m_idempotent (deleteExecution id e s) =
    (if is_empty (e_IdempotencyKey e) then m_idempotent s
     else delete (idempotent_key (e_TaskName e) (e_IdempotencyKey e)) (m_idempotent s)) ∧
  m_nodes (deleteExecution id e s) =
    match e_PipelineRunID e with
    | Some r => delete (node_key r (e_NodeKey e)) (m_nodes s)
    | None => m_nodes s
    end.
Proof. unfold deleteExecution. by destruct (is_empty _), (e_PipelineRunID e). Qed.

Lemma delete_index a e k i y :
  AInv a → is_index k = true → i ≠ e_ID e → execs a !! i = Some y →
  index (leased (delete_store a e)) k y = index (leased a) k y.
Proof.
  intros Ha Hk Hne Hy. destruct (a_item _ Ha _ _ Hy) as [Hid _]. destruct k; try done.
  cbn [index]. rewrite Hid. unfold delete_store. cbn [leased].
  destruct (decide (i ∈ leased a)), (decide (i ∈ leased a ∖ {[e_ID e]})); try done; set_solver.
Qed.

Lemma Rep_delete prefix a ks e :
  Rep prefix a ks → small a → execs a !! e_ID e = Some e →
  ∃ ks', apply_all (purgeExecution prefix e) ks = Some ks' ∧ Rep prefix (delete_store a e) ks'.
Proof.
  intros Hrep Hsize He. pose proof (rep_inv _ _ _ Hrep) as Ha.
  destruct (small_tally _ Hsize) as [Hb _]. rewrite purge_lower.
  destruct (apply_roles prefix (purge_roles e) ks (represents (delete_store a e)))
    as (ks' & Hks' & Hk'); [|exists ks'; split; [done|by split; [apply AInv_delete|]]].
  destruct (deleteExecution_executions (e_ID e) e (base a)) as (H1 & H2 & H3 & H4).
  destruct (deleteExecution_refs (e_ID e) e (base a)) as [H5 H6].
  intros k. pose proof (rep_key _ _ _ Hrep k) as Hk. pose proof (purge_other e k) as Ho.
  destruct (is_index k) eqn:Hik.
  - destruct (purge_index a e k Hik) as [Hops Hnet]. eexists. split.
    + assert (ks !! key_name prefix k = zset_value (members (index (leased a) k) (execs a))) as ->
        by (by destruct k).
      apply (run_members_ops _ (index (leased (delete_store a e)) k) _ (e_ID e) None); [done| |].
      * intros i y Hne Hy. by eapply delete_index.
      * rewrite He. exact Hnet.
    + assert (execs (delete_store a e) = partial_alter (λ _, None) (e_ID e) (execs a)) as <- by exact H1.
      by destruct k.
  - destruct k as [i|i| | | | | | | |j|r n| | | | |]; try done; rewrite Ho; cbn [represents] in *;
      unfold delete_store; cbn [base].
    + rewrite H1. destruct (decide (i = e_ID e)) as [->|Hne]; (eexists; split; [done|]).
      * by rewrite lookup_delete_eq.
      * by rewrite lookup_delete_ne.
    + rewrite H2. destruct (decide (i = e_ID e)) as [->|Hne]; (eexists; split; [done|]).
      * by rewrite lookup_delete_eq.
      * by rewrite lookup_delete_ne.
    + rewrite H1. destruct Hk as (h & Hh & Hc). pose proof (Hb (exec_label e)).
      destruct (run_incr _ h _ (exec_label e) (-1) Hh Hc) as (h' & Hrun & Hc');
        [apply exec_label_no_NUL|unfold int_ok, MaxInt64; lia..|].
      eexists. split; [cbn [run_ops]; rewrite Hrun; done|]. exists h'. split; [done|].
      eapply counters_ext; [|exact Hc']. intros l _. rewrite (tally_delete _ _ _ e) by done.
      unfold bump, hit. generalize (exec_label e). intros le. repeat case_decide; subst; try done; lia.
    + rewrite H3. eexists. split; [done|]. done.
    + rewrite H5. case_decide as Hd; (eexists; split; [done|]);
        destruct (is_empty (e_IdempotencyKey e)) eqn:Hem; rewrite ?reference_delete; try done.
      * apply is_empty_true in Hem. naive_solver.
      * by rewrite decide_True by apply Hd.
      * apply is_empty_false in Hem. rewrite decide_False; [done|]. naive_solver.
    + rewrite H6. case_decide as Hd; (eexists; split; [done|]).
      * destruct Hd as (-> & ->). by rewrite reference_delete, decide_True.
      * destruct (e_PipelineRunID e) as [r'|]; [|done].
        rewrite reference_delete, decide_False; [done|]. intros [-> ->]%node_key_inj. naive_solver.
    + rewrite H3. eexists. split; [done|]. done.
    + rewrite H3. eexists. split; [done|]. done.
    + rewrite H4. eexists. split; [done|]. done.
    + rewrite H3. eexists. split; [done|]. done.
Qed.

(** ** The lease index alone *)

Definition unlease (a : RStore) (id : UUID) : RStore := mkRStore (base a) (leased a ∖ {[id]}).

(** An entry may go when the execution does not run or can be claimed again. *)
Definition recoverable (a : RStore) (id : UUID) : Prop :=
  ∀ e, execs a !! id = Some e → e_Status e = StatusRunning → (e_Attempt e < e_MaxAttempts e)%Z.

Lemma AInv_unlease a id : AInv a → recoverable a id → AInv (unlease a id).
Proof.
  intros Ha Hr. split; try apply Ha; simpl.
  - intros i. rewrite elem_of_difference. intros [Hi _]. by apply (a_leased _ Ha).
  - intros i e He Hst Hm. rewrite elem_of_difference, elem_of_singleton.
    split; [by eapply (a_final _ Ha)|]. intros ->. specialize (Hr _ He Hst). lia.
Qed.

Lemma Rep_unlease prefix a ks id :
  Rep prefix a ks → recoverable a id →
  ∃ ks', apply_all [ZREM (leasesKey prefix) (uuid_String id)] ks = Some ks' ∧ Rep prefix (unlease a id) ks'.
Proof.
  intros Hrep Hr. pose proof (rep_inv _ _ _ Hrep) as Ha.
  destruct (apply_roles prefix [(KLeases, OZRem (uuid_String id))] ks (represents (unlease a id)))
    as (ks' & Hks' & Hk'); [|exists ks'; split; [done|by split; [apply AInv_unlease|]]].
  intros k. pose proof (rep_key _ _ _ Hrep k) as Hk. cbn [role_ops].
  case_decide as Heq; [subst k|].
  - cbn [represents] in *. rewrite Hk. eexists. split; [|reflexivity].
    rewrite (run_members_ops _ (index (leased (unlease a id)) KLeases) _ id (execs a !! id)).
    + by rewrite partial_alter_self.
    + by apply Forall_singleton.
    + intros i y Hne Hy. destruct (a_item _ Ha _ _ Hy) as [Hid _]. cbn [index]. rewrite Hid.
      unfold unlease. cbn [leased]. destruct (decide (i ∈ leased a)), (decide (i ∈ leased a ∖ {[id]}));
        try done; set_solver.
    + simpl. destruct (execs a !! id) as [e|] eqn:He; [|done]. destruct (a_item _ Ha _ _ He) as [Hid _].
      simpl. rewrite Hid, decide_False; [done|]. set_solver.
  - eexists. split; [done|]. by destruct k.
Qed.
End Records.
