(* ===== verification/RedisRunItems.v ===== *)
(** * The transactions on a pipeline run

    Creation, change of state and removal of a run: the abstract change, its invariant, the commands by
    role. *)

From S2P Require Import Prelude GoLib GoText Model Memory MemoryInv.
From S2P Require Import RedisKeys RedisServer Redis RedisRuns RedisOps RedisRep RedisCommit RedisItems.
From S2P Require Import RedisRecords.

Section RunItems.
Context `{E : GoEnv} {HE : GoEnvOk} {C : Codec} {HC : CodecOk}.

(** The state with other runs and references to runs. *)
Definition with_runs (a : RStore) (runs : gmap UUID PipelineRun) (refs : gmap string UUID) : RStore :=
  mkRStore (mkMemoryStore (execs a) runs (m_events (base a)) (m_idempotent (base a))
    (m_nodes (base a)) refs) (leased a).

Lemma AInv_runs a rs refs :
  AInv a → (∀ id r, rs !! id = Some r → r_ID r = id ∧ RunItemOk r) →
  (∀ k id, refs !! k = Some id ↔ run_entry (base (with_runs a rs refs)) k id) →
  AInv (with_runs a rs refs).
Proof. intros Ha Hr Hrefs. split; try apply Ha; done. Qed.

Definition is_run_key (k : Key) : bool :=
  match k with
  | KPipelineCounts | KRun _ | KRuns | KRunIdempotency _ | KRunStatus _ => true
  | _ => false
  end.

(** What the commands of a transaction that assigns [x] to the run [id] must be, key by key. *)
Record run_cmds (a : RStore) (id : UUID) (x : option PipelineRun) (refs : gmap string UUID)
    (l : list (Key * Op)) : Prop := {
  rc_run : ∀ i, run_ops (role_ops (KRun i) l) (RHash ∘ encodeRun <$> runs a !! i)
    = Some (RHash ∘ encodeRun <$> partial_alter (λ _, x) id (runs a) !! i);
  rc_index : ∀ k, (k = KRuns ∨ ∃ s, k = KRunStatus s) →
    Forall (on_member (uuid_String id)) (role_ops k l) ∧
    net (role_ops k l) (runs a !! id ≫= run_index k) = x ≫= run_index k;
  rc_counts : ∀ v h, as_hash v = Some h → counters (tally run_label (runs a)) h →
    ∃ v' h', run_ops (role_ops KPipelineCounts l) v = Some v' ∧ as_hash v' = Some h' ∧
      counters (tally run_label (partial_alter (λ _, x) id (runs a))) h';
  rc_refs : ∀ j, run_ops (role_ops (KRunIdempotency j) l) (reference (m_runIdempotent (base a) !! j))
    = Some (reference (refs !! j));
  rc_other : ∀ k, is_run_key k = false → role_ops k l = [];
}.

Lemma Rep_runs prefix a ks id x refs l :
  Rep prefix a ks → AInv (with_runs a (partial_alter (λ _, x) id (runs a)) refs) →
  run_cmds a id x refs l →
  ∃ ks', apply_all (lower prefix <$> l) ks = Some ks' ∧
    Rep prefix (with_runs a (partial_alter (λ _, x) id (runs a)) refs) ks'.
Proof.
  intros Hrep Ha' [Hrun Hindex Hcounts Hrefs Hother].
  destruct (apply_roles prefix l ks (represents (with_runs a (partial_alter (λ _, x) id (runs a)) refs)))
    as (ks' & Hks' & Hk'); [|exists ks'; split; [done|by split]].
  intros k. pose proof (rep_key _ _ _ Hrep k) as Hk. destruct (is_run_key k) eqn:Hik.
  - assert ((k = KRuns ∨ ∃ s, k = KRunStatus s) → ∃ v, run_ops (role_ops k l) (ks !! key_name prefix k) = Some v
      ∧ represents (with_runs a (partial_alter (λ _, x) id (runs a)) refs) k v) as Hz.
    { intros Hz. destruct (Hindex k Hz) as [Hops Hnet]. eexists. split.
      - assert (ks !! key_name prefix k = zset_value (members (run_index k) (runs a))) as ->
          by (destruct Hz as [->|[? ->]]; done).
        by apply (run_members_ops _ (run_index k) _ id x).
      - destruct Hz as [->|[? ->]]; done. }
    destruct k; try done; cbn [represents] in *.
    + destruct Hk as (h & Hh & Hc). destruct (Hcounts _ h Hh Hc) as (v' & h' & Hv & Hh' & Hc').
      exists v'. split; [done|]. by exists h'.
    + rewrite Hk. eexists. split; [apply Hrun|done].
    + apply Hz. by left.
    + rewrite Hk. eexists. split; [apply Hrefs|done].
    + apply Hz. right. eauto.
  - rewrite (Hother k Hik). eexists. split; [done|]. by destruct k.
Qed.

Lemma run_index_ops_put r r' prev k :
  r_ID r' = r_ID r → r_CreatedAt r' = r_CreatedAt r → time_ok (r_CreatedAt r) → r_Status r = prev →
  k = KRuns ∨ (∃ s, k = KRunStatus s) →
  let l := [(KRunStatus (RunStatus_string prev), OZRem (uuid_String (r_ID r)));
            (KRunStatus (RunStatus_string (r_Status r')), OZAdd (score (r_CreatedAt r')) (uuid_String (r_ID r)))] in
  Forall (on_member (uuid_String (r_ID r))) (role_ops k l) ∧
  net (role_ops k l) (run_index k r) = run_index k r'.
Proof.
  intros Hid Hc Ht <- Hk. pose proof (score_exact _ Ht) as Hs. rewrite Hc.
  destruct Hk as [->|[s ->]]; simpl; index_goal.
Qed.

(** ** A run changes its state *)

Definition put_run_store (a : RStore) (id : UUID) (r : PipelineRun) : RStore :=
  with_runs a (<[id := r]> (runs a)) (m_runIdempotent (base a)).

Lemma AInv_put_run a id r r' :
  AInv a → runs a !! id = Some r → same_run r r' → RunItemOk r' → AInv (put_run_store a id r').
Proof.
  intros Ha Hr Hsame Hok. apply AInv_runs; [done|..].
  - intros i x. rewrite lookup_insert_Some. intros [[<- <-]|[Hne Hx]]; [|by apply (a_run _ Ha)].
    split; [|done]. destruct Hsame as [-> _]. by apply (a_run _ Ha).
  - apply (exact_refs_update _ _ _ r); [|done..]. exact (a_run_idem _ Ha).
Qed.

Definition run_status_roles (id : UUID) (r : PipelineRun) (previous : RunStatus) : list (Key * Op) :=
  [(KRun id, OHSet (encodeRun r))] ++
  (if decide (previous = r_Status r) then [] else
   [(KPipelineCounts, OHIncrBy (countField (r_PipelineName r) (RunStatus_string previous)) (-1));
    (KPipelineCounts, OHIncrBy (countField (r_PipelineName r) (RunStatus_string (r_Status r))) 1)]) ++
  [(KRunStatus (RunStatus_string previous), OZRem (uuid_String id));
   (KRunStatus (RunStatus_string (r_Status r)), OZAdd (score (r_CreatedAt r)) (uuid_String id))].

Lemma run_status_lower prefix id r previous :
  run_status_cmds prefix id r previous = lower prefix <$> run_status_roles id r previous.
Proof.
  unfold run_status_cmds, run_status_roles. case_bool_decide; case_decide; done.
Qed.

Lemma Rep_put_run prefix a ks id r r' :
  Rep prefix a ks → small a → runs a !! id = Some r → same_run r r' →
  RunItemOk r' →
  ∃ ks', apply_all (run_status_cmds prefix id r' (r_Status r)) ks = Some ks' ∧
    Rep prefix (put_run_store a id r') ks'.
Proof.
  intros Hrep Hsize Hr Hsame Hok. pose proof (rep_inv _ _ _ Hrep) as Ha.
  destruct (small_tally _ Hsize) as [_ Hb]. rewrite run_status_lower.
  apply (Rep_runs prefix a ks id (Some r')); [done|by apply (AInv_put_run _ _ r)|].
  destruct (a_run _ Ha _ _ Hr) as [Hid Hrok]. pose proof Hsame as (H1 & H2 & _ & _ & _ & H6).
  pose proof (ri_created _ Hrok) as Ht. unfold run_status_roles. subst id. split.
  - intros i. assert (role_ops (KRun i) (run_status_roles (r_ID r) r' (r_Status r)) =
      if decide (i = r_ID r) then [OHSet (encodeRun r')] else []) as Hro.
    { unfold run_status_roles. destruct (decide (r_Status r = r_Status r')); roles. }
    unfold run_status_roles in Hro. rewrite Hro. destruct (decide (i = r_ID r)) as [->|Hne].
    + rewrite Hr, lookup_partial_alter_eq. simpl. by rewrite encodeRun_union.
    + by rewrite lookup_partial_alter_ne.
  - intros k Hk. rewrite Hr. simpl.
    destruct (run_index_ops_put r r' (r_Status r) k H1 H6 Ht eq_refl Hk) as [Ho Hn].
    destruct Hk as [->|[s ->]]; destruct (decide (r_Status r = r_Status r')); exact (conj Ho Hn).
  - intros v h Hh Hc. assert (role_ops KPipelineCounts (run_status_roles (r_ID r) r' (r_Status r)) =
      if decide (r_Status r = r_Status r') then [] else
      [OHIncrBy (countField (run_label r).1 (run_label r).2) (-1);
       OHIncrBy (countField (run_label r').1 (run_label r').2) 1]) as Hro.
    { unfold run_status_roles. destruct (decide (r_Status r = r_Status r')); roles. by rewrite H2. }
    unfold run_status_roles in Hro. rewrite Hro. destruct (decide (r_Status r = r_Status r')) as [Hst|Hst].
    + exists v, h. split_and!; [done|done|]. eapply counters_ext; [|exact Hc]. intros l _. symmetry.
      apply (tally_same _ _ _ r); [done|]. unfold run_label. by rewrite H2, Hst.
    + destruct (run_move _ h v (run_label r) (run_label r') Hh Hc) as (h' & Hrun & Hc');
        [apply run_label_no_NUL..|done|].
      exists (Some (RHash h')), h'. split_and!; [done|done|]. eapply counters_ext; [|exact Hc'].
      intros l _. by apply tally_move.
  - intros j. by destruct (decide (r_Status r = r_Status r')).
  - intros k Hk. destruct k; try done; destruct (decide (r_Status r = r_Status r')); done.
Qed.

(** ** A new run *)

Definition insert_run_store (a : RStore) (r : PipelineRun) : RStore :=
  with_runs a (<[r_ID r := r]> (runs a))
    (if is_empty (r_IdempotencyKey r) then m_runIdempotent (base a)
     else <[idempotent_key (r_PipelineName r) (r_IdempotencyKey r) := r_ID r]> (m_runIdempotent (base a))).

Record fresh_run (a : RStore) (r : PipelineRun) : Prop := {
  fr_id : runs a !! r_ID r = None;
  fr_ok : RunItemOk r;
  fr_ref : r_IdempotencyKey r ≠ EmptyString →
    m_runIdempotent (base a) !! idempotent_key (r_PipelineName r) (r_IdempotencyKey r) = None;
}.

Lemma AInv_insert_run a r : AInv a → fresh_run a r → AInv (insert_run_store a r).
Proof.
  intros Ha [Hid Hok Href]. apply AInv_runs; [done|..].
  - intros i x. rewrite lookup_insert_Some. intros [[<- <-]|[Hne Hx]]; [done|by apply (a_run _ Ha)].
  - apply exact_refs_insert; [exact (a_run_idem _ Ha)|done..].
Qed.

Definition run_refs (prefix : string) (r : PipelineRun) : list string :=
  if is_empty (r_IdempotencyKey r) then []
  else [pipelineIdempotencyKey prefix (r_PipelineName r) (r_IdempotencyKey r)].

Definition run_ref_role (r : PipelineRun) (o : Op) : list (Key * Op) :=
  if is_empty (r_IdempotencyKey r) then []
  else [(KRunIdempotency (idempotent_key (r_PipelineName r) (r_IdempotencyKey r)), o)].

Definition create_run_roles (r : PipelineRun) : list (Key * Op) :=
  let created := OZAdd (score (r_CreatedAt r)) (uuid_String (r_ID r)) in
  [(KRun (r_ID r), OHSet (encodeRun r));
   (KPipelineCounts, OHIncrBy (countField (r_PipelineName r) (RunStatus_string (r_Status r))) 1);
   (KRuns, created); (KRunStatus (RunStatus_string (r_Status r)), created)] ++
  run_ref_role r (OSet (uuid_String (r_ID r))).

Lemma create_run_lower prefix r :
  create_run_cmds prefix r (run_refs prefix r) = lower prefix <$> create_run_roles r.
Proof.
  unfold create_run_cmds, run_refs, create_run_roles, run_ref_role.
  by destruct (is_empty (r_IdempotencyKey r)).
Qed.

Lemma Rep_insert_run prefix a ks r :
  Rep prefix a ks → small a → fresh_run a r →
  ∃ ks', apply_all (create_run_cmds prefix r (run_refs prefix r)) ks = Some ks' ∧
    Rep prefix (insert_run_store a r) ks'.
Proof.
  intros Hrep Hsize Hf. pose proof (rep_inv _ _ _ Hrep) as Ha.
  destruct (small_tally _ Hsize) as [_ Hb]. rewrite create_run_lower.
  apply (Rep_runs prefix a ks (r_ID r) (Some r)); [done|by apply AInv_insert_run|].
  destruct Hf as [Hid Hok Href]. pose proof (score_exact _ (ri_created _ Hok)) as Hs.
  unfold create_run_roles, run_ref_role.
  destruct (is_empty (r_IdempotencyKey r)) eqn:Hem;
    [apply is_empty_true in Hem|apply is_empty_false in Hem]; (split;
    [ intros i; destruct (decide (i = r_ID r)) as [->|Hne];
      [rewrite Hid, lookup_partial_alter_eq; simpl; rewrite decide_True by done; simpl;
       by rewrite (right_id_L ∅ (∪))
      |rewrite lookup_partial_alter_ne by done; simpl; by rewrite decide_False by congruence]
    | intros k Hk; rewrite Hid; simpl; destruct Hk as [->|[s ->]]; index_goal
    | intros v h Hh Hc; pose proof (Hb (run_label r));
      destruct (run_incr _ h v (run_label r) 1 Hh Hc) as (h' & Hrun & Hc');
        [apply run_label_no_NUL|unfold int_ok, MaxInt64; lia..|];
      exists (Some (RHash h')), h'; split_and!;
        [transitivity (run_ops [OHIncrBy (countField (run_label r).1 (run_label r).2) 1] v);
           [done|cbn [run_ops]; by rewrite Hrun]|done|];
      eapply counters_ext; [|exact Hc']; intros l _;
      change (partial_alter (λ _, Some r) (r_ID r) (runs a)) with (<[r_ID r := r]> (runs a));
      rewrite tally_insert by done; unfold bump, hit; generalize (run_label r); intros le;
      repeat case_decide; subst; try done; lia
    | intros j; simpl; roles; rewrite ?reference_insert, ?decide_True, ?decide_False by congruence; done
    | intros k Hk; destruct k; try done; roles ]).
Qed.

(** ** A run removed *)

Definition delete_run_store (a : RStore) (r : PipelineRun) : RStore :=
  with_runs a (delete (r_ID r) (runs a))
    (if is_empty (r_IdempotencyKey r) then m_runIdempotent (base a)
     else delete (idempotent_key (r_PipelineName r) (r_IdempotencyKey r)) (m_runIdempotent (base a))).

Lemma AInv_delete_run a r :
  AInv a → runs a !! r_ID r = Some r → AInv (delete_run_store a r).
Proof.
  intros Ha Hr. apply AInv_runs; [done|..].
  - intros i x [_ Hx]%lookup_delete_Some. by apply (a_run _ Ha).
  - apply exact_refs_delete; [exact (a_run_idem _ Ha)|done].
Qed.

Definition purge_run_roles (r : PipelineRun) : list (Key * Op) :=
  let rem := OZRem (uuid_String (r_ID r)) in
  [(KRun (r_ID r), ODel); (KRuns, rem); (KRunStatus (RunStatus_string (r_Status r)), rem);
   (KPipelineCounts, OHIncrBy (countField (r_PipelineName r) (RunStatus_string (r_Status r))) (-1))] ++
  run_ref_role r ODel.

Lemma purge_run_lower prefix r : purge_run_cmds prefix r = lower prefix <$> purge_run_roles r.
Proof.
  unfold purge_run_cmds, purge_run_roles, run_ref_role. by destruct (is_empty (r_IdempotencyKey r)).
Qed.

Lemma Rep_delete_run prefix a ks r :
  Rep prefix a ks → small a → runs a !! r_ID r = Some r →
  ∃ ks', apply_all (purge_run_cmds prefix r) ks = Some ks' ∧ Rep prefix (delete_run_store a r) ks'.
Proof.
  intros Hrep Hsize Hr. pose proof (rep_inv _ _ _ Hrep) as Ha.
  destruct (small_tally _ Hsize) as [_ Hb]. rewrite purge_run_lower.
  apply (Rep_runs prefix a ks (r_ID r) None); [done|by apply AInv_delete_run|].
  unfold purge_run_roles, run_ref_role.
  destruct (is_empty (r_IdempotencyKey r)) eqn:Hem;
    [apply is_empty_true in Hem|apply is_empty_false in Hem]; (split;
    [ intros i; destruct (decide (i = r_ID r)) as [->|Hne];
      [rewrite lookup_partial_alter_eq; simpl; by rewrite decide_True
      |rewrite lookup_partial_alter_ne by done; simpl; by rewrite decide_False by congruence]
    | intros k Hk; rewrite Hr; simpl; destruct Hk as [->|[s ->]]; index_goal
    | intros v h Hh Hc; pose proof (Hb (run_label r));
      destruct (run_incr _ h v (run_label r) (-1) Hh Hc) as (h' & Hrun & Hc');
        [apply run_label_no_NUL|unfold int_ok, MaxInt64; lia..|];
      exists (Some (RHash h')), h'; split_and!;
        [transitivity (run_ops [OHIncrBy (countField (run_label r).1 (run_label r).2) (-1)] v);
           [done|cbn [run_ops]; by rewrite Hrun]|done|];
      eapply counters_ext; [|exact Hc']; intros l _;
      change (partial_alter (λ _, None) (r_ID r) (runs a)) with (delete (r_ID r) (runs a));
      rewrite (tally_delete _ _ _ r) by done; unfold bump, hit; generalize (run_label r); intros le;
      repeat case_decide; subst; try done; lia
    | intros j; simpl; roles; rewrite ?reference_delete, ?decide_True, ?decide_False by congruence; done
    | intros k Hk; destruct k; try done; roles ]).
Qed.
End RunItems.
