(* ===== verification/RedisTx.v ===== *)
(** * Optimistic transactions under interference

    Other clients change the keyspace between any two commands, but only in ways that are steps of the
    abstract state ([rely]).  The lemmas of this file carry a representation through reads, through a
    WATCH transaction and through the bounded retry of the store: a transaction that is executed takes
    effect at one instant, at which the watched records are as they were read. *)

From S2P Require Import Prelude GoLib GoText Model Memory MemoryInv.
From S2P Require Import RedisKeys RedisServer Redis RedisRuns RedisOps RedisRep RedisCommit.

(** What other clients do is a step of the abstract state. *)
Class Interference `{E : GoEnv} {C : Codec} (prefix : string)
    (others : Keyspace → gset string → Keyspace → Prop) (rely : RStore → RStore → Prop) : Prop := {
  rely_refl : ∀ a, rely a a;
  rely_trans : ∀ a b c, rely a b → rely b c → rely a c;
  others_rely : ∀ a ks touched ks', Rep prefix a ks → others ks touched ks' →
    ∃ a', rely a a' ∧ Rep prefix a' ks';
}.

(** The server as one client sees it, and the steps of the other clients. *)
Class Server (W : Type) := {
  srv_prefix : string;
  srv_state : W → RState;
  srv_others : Keyspace → gset string → Keyspace → Prop;
  srv_transport : error → Prop;
  srv_rely : RStore → RStore → Prop;
}.

Class ServerOk `{E : GoEnv} {C : Codec} (W : Type) `{!RedisClient W} `{!Process W} `{!Server W} : Prop := {
  srv_laws :: RedisLaws srv_prefix srv_state srv_others srv_transport;
  srv_interference :: Interference srv_prefix srv_others srv_rely;
}.

Section Tx.
Context `{E : GoEnv} {HE : GoEnvOk} {C : Codec} {HC : CodecOk}.
Context {W : Type} `{!RedisClient W} `{!Process W} {SV : Server W} {HS : ServerOk W}.

Abbreviation prefix := (srv_prefix (W := W)).
Abbreviation st := (srv_state (W := W)).
Abbreviation others := (srv_others (W := W)).
Abbreviation transport := (srv_transport (W := W)).
Abbreviation rely := (srv_rely (W := W)).
Abbreviation Evolve := (evolve prefix others).
Abbreviation Failed := (failed transport).
Abbreviation KS w := (keyspace (st w)).

Lemma rely_same a : rely a a.
Proof. exact (rely_refl a). Qed.

Lemma rely_then a b c : rely a b → rely b c → rely a c.
Proof. exact (rely_trans a b c). Qed.

Lemma transport_not e s :
  transport e → s ≠ ContextCanceled → s ≠ ContextDeadlineExceeded → errors_Is e s = false.
Proof.
  intros He H1 H2. destruct (errors_Is e s) eqn:Hs; [|done].
  by destruct (law_transport _ _ _ _ e s He Hs).
Qed.

Lemma evolve_Rep a s s' :
  Rep prefix a (keyspace s) → Evolve s s' → ∃ a', rely a a' ∧ Rep prefix a' (keyspace s').
Proof. intros Ha (T & Ho & _). by apply (others_rely a (keyspace s) T). Qed.

Lemma evolve_size s s' : Evolve s s' → (Z.of_nat (size (keyspace s')) < 2 ^ 62)%Z.
Proof. intros (T & _ & _ & _ & _ & _ & _ & H). exact H. Qed.

(** The transaction is still valid only when no watched key has changed. *)
Definition clean (s s' : RState) : Prop :=
  dirty s' = false → dirty s = false ∧ ∀ k, k ∈ watched s → keyspace s' !! k = keyspace s !! k.

Lemma evolve_clean s s' : Evolve s s' → clean s s'.
Proof.
  intros (T & _ & Hf & _ & _ & _ & Hd & _) Hc. rewrite Hd in Hc. apply orb_false_iff in Hc as [Hs Hc].
  split; [done|]. intros k Hk. apply Hf. intros HT. apply bool_decide_eq_false in Hc.
  apply Hc, Exists_exists. eauto.
Qed.

Lemma evolve_watched s s' : Evolve s s' → watched s' = watched s.
Proof. by intros (T & _ & _ & _ & H & _). Qed.

(** The identifiers [ids] were drawn by this process and name no record. *)
Definition reserved (ids : gset UUID) (s : RState) : Prop :=
  ∀ id, id ∈ ids → id ∈ issued s ∧ ∀ k, names_id prefix id k → keyspace s !! k = None.

Lemma reserved_empty s : reserved ∅ s.
Proof. intros id. by rewrite elem_of_empty. Qed.

Lemma evolve_reserved ids s s' : Evolve s s' → reserved ids s → reserved ids s'.
Proof.
  intros (T & _ & Hf & Hn & _ & Hi & _) Hr id Hid. destruct (Hr id Hid) as [H1 H2].
  rewrite Hi. split; [done|]. intros k Hk. rewrite Hf; [by apply H2|]. by eapply Hn.
Qed.

Lemma reserved_same ids s s' :
  keyspace s' = keyspace s → issued s ⊆ issued s' → reserved ids s → reserved ids s'.
Proof.
  intros Hk Hi Hr id Hid. destruct (Hr id Hid) as [H1 H2]. rewrite Hk. split; [by apply Hi|done].
Qed.

Lemma reserved_exec a ids s id :
  Rep prefix a (keyspace s) → reserved ids s → id ∈ ids → execs a !! id = None ∧ runs a !! id = None.
Proof.
  intros Ha Hr Hid. destruct (Hr id Hid) as [_ Hk]. split.
  - pose proof (rep_key _ _ _ Ha (KExecution id)) as H. simpl in H. rewrite Hk in H by (by left).
    destruct (execs a !! id); [|done]. by destruct H as (? & _ & ?).
  - pose proof (rep_key _ _ _ Ha (KRun id)) as H. simpl in H. rewrite Hk in H by (by right).
    by destruct (runs a !! id).
Qed.

(** ** Reads of the records *)

Definition read_execution (a : RStore) (id : UUID) : error + Execution :=
  match execs a !! id with Some e => inr e | None => inl (ErrNotFound : error) end.

Definition read_run (a : RStore) (id : UUID) : error + PipelineRun :=
  match runs a !! id with Some r => inr r | None => inl (ErrNotFound : error) end.

Lemma Rep_text a ks id e :
  Rep prefix a ks → execs a !! id = Some e →
  ∃ text, ks !! executionKey prefix id = Some (RString text) ∧ unmarshal_execution text = inr e.
Proof.
  intros Ha He. pose proof (rep_key _ _ _ Ha (KExecution id)) as H. simpl in H. rewrite He in H.
  destruct H as (text & Ht & Hv). exists text. split; [done|].
  destruct (a_item _ (rep_inv _ _ _ Ha) _ _ He) as (_ & Hj & _).
  destruct (execution_codec e Hj) as (text' & Ht' & Hu). rewrite Ht in Ht'. by injection Ht' as <-.
Qed.

Lemma Rep_no_text a ks id :
  Rep prefix a ks → execs a !! id = None → ks !! executionKey prefix id = None.
Proof.
  intros Ha He. pose proof (rep_key _ _ _ Ha (KExecution id)) as H. simpl in H. by rewrite He in H.
Qed.

(** The same record in two keyspaces stands for the same execution. *)
Lemma Rep_exec_eq a ks a' ks' id :
  Rep prefix a ks → Rep prefix a' ks' → ks' !! executionKey prefix id = ks !! executionKey prefix id →
  execs a' !! id = execs a !! id.
Proof.
  intros Ha Ha' Heq. destruct (execs a !! id) as [e|] eqn:He, (execs a' !! id) as [e'|] eqn:He'; [..|done].
  - destruct (Rep_text _ _ _ _ Ha He) as (t & H1 & H2), (Rep_text _ _ _ _ Ha' He') as (t' & H1' & H2').
    rewrite Heq, H1 in H1'. simplify_eq. congruence.
  - destruct (Rep_text _ _ _ _ Ha He) as (t & H1 & _). by rewrite <-Heq, (Rep_no_text _ _ _ Ha' He') in H1.
  - destruct (Rep_text _ _ _ _ Ha' He') as (t & H1 & _). by rewrite Heq, (Rep_no_text _ _ _ Ha He) in H1.
Qed.

Lemma Rep_run_hash a ks id :
  Rep prefix a ks → ks !! pipelineKey prefix id = RHash ∘ encodeRun <$> runs a !! id.
Proof. intros Ha. exact (rep_key _ _ _ Ha (KRun id)). Qed.

Lemma Rep_run_eq a ks a' ks' id :
  Rep prefix a ks → Rep prefix a' ks' → ks' !! pipelineKey prefix id = ks !! pipelineKey prefix id →
  runs a' !! id = runs a !! id.
Proof.
  intros Ha Ha'. rewrite (Rep_run_hash _ _ _ Ha), (Rep_run_hash _ _ _ Ha').
  destruct (runs a !! id) as [r|] eqn:Hr, (runs a' !! id) as [r'|] eqn:Hr'; try done.
  cbn [fmap option_fmap option_map compose]. intros Heq.
  assert (encodeRun r' = encodeRun r) as Heq' by congruence. clear Heq. destruct (a_run _ (rep_inv _ _ _ Ha) _ _ Hr) as [_ H1].
  destruct (a_run _ (rep_inv _ _ _ Ha') _ _ Hr') as [_ H2].
  apply decodeRun_encodeRun in H1, H2. rewrite Heq' in H2. congruence.
Qed.

(** A read inside or outside a transaction: the state may move, what is watched stays watched. *)
Definition after_read (a : RStore) (w : W) (a' : RStore) (w' : W) : Prop :=
  rely a a' ∧ Rep prefix a' (KS w') ∧ watched (st w') = watched (st w) ∧
  (∀ ids, reserved ids (st w) → reserved ids (st w')) ∧ clean (st w) (st w').

Lemma evolve_after a w w' : Rep prefix a (KS w) → Evolve (st w) (st w') → ∃ a', after_read a w a' w'.
Proof.
  intros Ha He. destruct (evolve_Rep _ _ _ Ha He) as (a' & Hr & Ha'). exists a'.
  split_and!; [done|done|by apply evolve_watched| |by apply evolve_clean].
  intros ids. by apply evolve_reserved.
Qed.

Lemma wp_read {A} (m : M W A) f a w (Q : error + A → W → Prop) :
  reads prefix st others transport m f → Rep prefix a (KS w) →
  (∀ r w' a', after_read a w a' w' →
     (Failed r ∨ ∀ r', f (KS w') = Some r' → r = r') → Q r w') →
  wp m Q w.
Proof.
  intros Hm Ha HQ. eapply wp_mono; [apply Hm|]. simpl. intros r w' [He Hr].
  destruct (evolve_after _ _ _ Ha He) as (a' & Ha'). by eapply HQ.
Qed.

Lemma wp_Time a w (Q : error + Time → W → Prop) :
  Rep prefix a (KS w) →
  (∀ t w' a', after_read a w a' w' → clock_ok t → Q (inr t) w') →
  (∀ e w' a', after_read a w a' w' → transport e → Q (inl e) w') →
  wp redis_Time Q w.
Proof.
  intros Ha HQ1 HQ2. eapply wp_mono; [apply (law_Time prefix st others transport)|].
  intros r w' [He Hr]. destruct (evolve_after _ _ _ Ha He) as (a' & Ha').
  destruct Hr as [(e & -> & Ht)|(t & -> & Ht)]; eauto.
Qed.

Lemma wp_getExecutionTx id a w (Q : error + Execution → W → Prop) :
  Rep prefix a (KS w) →
  (∀ w' a', after_read a w a' w' → Q (read_execution a' id) w') →
  (∀ e w' a', after_read a w a' w' → transport e → Q (inl e) w') →
  wp (getExecutionTx prefix id) Q w.
Proof.
  intros Ha HQ1 HQ2. unfold getExecutionTx. apply wp_bind, wp_try.
  eapply (wp_read _ _ a); [apply law_Get; apply _|done|]. intros r w' a' Hp Hr. cbv beta iota zeta.
  destruct Hr as [(e & -> & Ht)|Hr].
  - rewrite transport_not by done. apply wp_throw. by eapply HQ2.
  - pose proof Hp as (_ & Ha' & _). specialize (HQ1 w' a' Hp). unfold read_execution in HQ1.
    destruct (execs a' !! id) as [e|] eqn:He.
    + destruct (Rep_text _ _ _ _ Ha' He) as (t & Hk & Hu). rewrite Hk in Hr.
      rewrite (Hr _ eq_refl). simpl. rewrite Hu. by apply wp_ret.
    + rewrite (Rep_no_text _ _ _ Ha' He) in Hr. rewrite (Hr _ eq_refl). by apply wp_throw.
Qed.

Lemma wp_GetExecution id a w (Q : error + Execution → W → Prop) :
  Rep prefix a (KS w) →
  (∀ w' a', after_read a w a' w' → Q (read_execution a' id) w') →
  (∀ e w' a', after_read a w a' w' → transport e → Q (inl e) w') →
  wp (GetExecution prefix id) Q w.
Proof.
  intros Ha HQ1 HQ2. unfold GetExecution. apply wp_bind, wp_try.
  eapply (wp_read _ _ a); [apply law_Get; apply _|done|]. intros r w' a' Hp Hr. cbv beta iota zeta.
  destruct Hr as [(e & -> & Ht)|Hr].
  - rewrite transport_not by done. apply wp_throw. by eapply HQ2.
  - pose proof Hp as (_ & Ha' & _). specialize (HQ1 w' a' Hp). unfold read_execution in HQ1.
    destruct (execs a' !! id) as [e|] eqn:He.
    + destruct (Rep_text _ _ _ _ Ha' He) as (t & Hk & Hu). rewrite Hk in Hr.
      rewrite (Hr _ eq_refl), Hu. by apply wp_ret.
    + rewrite (Rep_no_text _ _ _ Ha' He) in Hr. rewrite (Hr _ eq_refl). by apply wp_throw.
Qed.

Lemma wp_getRunTx id a w (Q : error + PipelineRun → W → Prop) :
  Rep prefix a (KS w) →
  (∀ w' a', after_read a w a' w' → Q (read_run a' id) w') →
  (∀ e w' a', after_read a w a' w' → transport e → Q (inl e) w') →
  wp (getRunTx prefix id) Q w.
Proof.
  intros Ha HQ1 HQ2. unfold getRunTx. apply wp_bind.
  eapply (wp_read _ _ a); [apply law_HGetAll; apply _|done|]. intros r w' a' Hp Hr.
  destruct Hr as [(e & -> & Ht)|Hr]; [by eapply HQ2|].
  pose proof Hp as (_ & Ha' & _). specialize (HQ1 w' a' Hp). unfold read_run in HQ1.
  rewrite (Rep_run_hash _ _ id Ha') in Hr. destruct (runs a' !! id) as [run|] eqn:He.
  - rewrite (Hr _ eq_refl). rewrite decide_False by apply encodeRun_nonempty.
    destruct (a_run _ (rep_inv _ _ _ Ha') _ _ He) as [_ Hok].
    rewrite decodeRun_encodeRun by done. by apply wp_ret.
  - rewrite (Hr _ eq_refl). rewrite decide_True by done. by apply wp_throw.
Qed.

Lemma wp_uuid a w (Q : error + UUID → W → Prop) :
  Rep prefix a (KS w) →
  (∀ id w', id ≠ uuid_Nil → st w' = st_issue id (st w) → reserved {[id]} (st w') → Q (inr id) w') →
  wp process_uuid Q w.
Proof.
  intros Ha HQ. eapply wp_mono; [apply (law_uuid prefix st others transport)|].
  intros r w' (id & -> & Hn & Hk & Hst). apply HQ; [done|done|]. rewrite Hst.
  intros i ->%elem_of_singleton. split; [set_solver|done].
Qed.

(** ** The execution of a transaction *)

(** [effect] relates the abstract states around the commands: they are executed on a keyspace in which
    the watched keys are as they were at [w]. *)
Definition commits (cmds : list Cmd) (w : W) (effect : RStore → RStore → Prop) : Prop :=
  ∀ a ks, Rep prefix a ks → small a →
    dirty (st w) = false → (∀ k, k ∈ watched (st w) → ks !! k = KS w !! k) →
    (∀ ids, reserved ids (st w) → ∀ id, id ∈ ids → execs a !! id = None ∧ runs a !! id = None) →
    ∃ ks' a', apply_all cmds ks = Some ks' ∧ Rep prefix a' ks' ∧ effect a a'.

Lemma wp_exec cmds a w effect (Q : error + unit → W → Prop) :
  Rep prefix a (KS w) → commits cmds w effect →
  (∀ r w' a', rely a a' → Rep prefix a' (KS w') → (∀ ids, reserved ids (st w) → reserved ids (st w')) →
     Failed r ∨ r = inl (RedisTxFailed : error) → Q r w') →
  (∀ r w' a1 a', rely a a1 → effect a1 a' → Rep prefix a' (KS w') → r = inr tt ∨ Failed r → Q r w') →
  wp (tx_TxPipelined cmds) Q w.
Proof.
  intros Ha Hc HQ1 HQ2. eapply wp_mono; [apply (law_tx prefix st others transport)|].
  intros r w' (s & He & Hout). destruct (evolve_Rep _ _ _ Ha He) as (a1 & Hr & Ha1).
  assert (∀ ids, reserved ids (st w) → reserved ids (st_close s)) as Hres.
  { intros ids Hres. eapply (reserved_same ids s); [done..|]. by eapply evolve_reserved. }
  destruct Hout as [[Hst Hf]|[(Hst & _ & ->)|[Hd Hok]]].
  - eapply HQ1; [done|by rewrite Hst|by rewrite Hst|by left].
  - eapply HQ1; [done|by rewrite Hst|by rewrite Hst|by right].
  - destruct (Hc a1 (keyspace s)) as (ks' & a' & Happly & Ha' & Heff); [done|eapply Rep_size; [done|by eapply evolve_size]| | | |].
    + by apply (evolve_clean _ _ He).
    + by apply (evolve_clean _ _ He).
    + intros ids Hi id Hid. eapply reserved_exec; [done|by eapply evolve_reserved|done].
    + destruct (Hok _ Happly) as [Hst Hrr]. eapply HQ2; [done|done| |done]. by rewrite Hst.
Qed.

(** ** WATCH and the bounded retry *)

(** The outcomes of an operation: its step took effect at one instant, or it did not and the error says
    so, or the reply was lost. *)
Inductive outcome {A} (step : RStore → error + A → RStore → Prop) (a : RStore) (r : error + A)
    (a' : RStore) : Prop :=
  | outcome_step a1 a2 : rely a a1 → step a1 r a2 → rely a2 a' → outcome step a r a'
  | outcome_contention : rely a a' → r = inl contention → outcome step a r a'
  | outcome_failed : rely a a' → Failed r → outcome step a r a'
  | outcome_lost a1 a2 x : rely a a1 → step a1 (inr x) a2 → rely a2 a' → Failed r → outcome step a r a'.

Lemma outcome_rely {A} (step : RStore → error + A → RStore → Prop) a0 a r a' :
  rely a0 a → outcome step a r a' → outcome step a0 r a'.
Proof.
  intros H0 [a1 a2 H1|H1|H1|a1 a2 x H1]; pose proof (rely_then _ _ _ H0 H1);
    [eapply outcome_step|eapply outcome_contention|eapply outcome_failed|eapply outcome_lost]; eauto.
Qed.

Lemma outcome_mono {A} (step step' : RStore → error + A → RStore → Prop) a r a' :
  (∀ a r a', step a r a' → step' a r a') → outcome step a r a' → outcome step' a r a'.
Proof.
  intros Hs []; [eapply outcome_step|eapply outcome_contention|eapply outcome_failed|eapply outcome_lost];
    eauto.
Qed.

Definition not_refused (err : option error) : Prop :=
  match err with Some e => errors_Is e RedisTxFailed = false | None => True end.

(** One try of an operation leads to a state in which [R] holds of what it returns, or was refused. *)
Definition tries {V} (ids : gset UUID) (J : RStore → V → Prop)
    (R : RStore → option error * V → RStore → Prop) (a : RStore) (r : error + (option error * V))
    (w : W) : Prop :=
  ∃ err v a', r = inr (err, v) ∧ Rep prefix a' (KS w) ∧
    ((err = Some (RedisTxFailed : error) ∧ rely a a' ∧ J a' v ∧ reserved ids (st w)) ∨
     (not_refused err ∧ R a (err, v) a')).

Lemma wp_watch {V} n keys (op : V → M W (option error * V)) (J : RStore → V → Prop) ids
    (R : RStore → option error * V → RStore → Prop) a v w :
  (∀ a a' v, rely a a' → J a v → J a' v) →
  (∀ a0 a x a', rely a0 a → R a x a' → R a0 x a') →
  (∀ a e v a', rely a a' → J a v → transport e ∨ e = contention → R a (Some e, v) a') →
  (∀ a v w, J a v → Rep prefix a (KS w) → watched (st w) = keys → reserved ids (st w) →
     wp (op v) (tries ids J R a) w) →
  J a v → Rep prefix a (KS w) → reserved ids (st w) →
  wp (watch_loop n keys op v) (λ r w', ∃ x a', r = inr x ∧ Rep prefix a' (KS w') ∧ R a x a') w.
Proof.
  intros HJ Hpre Herr Hop. revert a v w. induction n as [|n IH]; intros a v w Hv Ha Hres; simpl.
  { apply wp_ret. eexists _, a. split; [done|]. split; [done|]. apply Herr; eauto using rely_same. }
  apply wp_bind, wp_try. apply (law_Watch prefix st others transport).
  - intros s w1 He Hst. destruct (evolve_Rep _ _ _ Ha He) as (a1 & Hr1 & Ha1).
    eapply wp_mono; [apply (Hop a1 v w1)|].
    + by eapply HJ.
    + by rewrite Hst.
    + by rewrite Hst.
    + rewrite Hst. eapply (reserved_same ids s); [done..|]. by eapply evolve_reserved.
    + intros r w2 (err & v' & a' & -> & Ha' & Hcase) w3 Hst3. cbn beta iota zeta.
      assert (Rep prefix a' (KS w3)) as Ha3 by (by rewrite Hst3).
      destruct Hcase as [(-> & Hr & Hv' & Hres')|[Hnr HR]].
      * simpl. eapply wp_mono; [apply (IH a' v' w3 Hv' Ha3)|].
        -- rewrite Hst3. by eapply (reserved_same ids (st w2)).
        -- intros r w4 (x & a4 & -> & Ha4 & HR). eexists _, a4. split; [done|]. split; [done|].
           eapply Hpre; [|exact HR]. by eapply rely_then.
      * assert (∃ x a4, (inr (err, v') : error + (option error * V)) = inr x ∧ Rep prefix a4 (KS w3) ∧ R a x a4)
          as Hdone by (eexists _, a'; split; [done|]; split; [done|]; by eapply Hpre).
        destruct err as [e|]; [|by apply wp_ret]. simpl in Hnr. rewrite Hnr. by apply wp_ret.
  - intros e w1 Ht He. destruct (evolve_Rep _ _ _ Ha He) as (a1 & Hr1 & Ha1). cbn beta iota zeta.
    rewrite transport_not by done. apply wp_ret. eexists _, a1. split; [done|]. split; [done|].
    apply Herr; auto.
Qed.

(** The closure that assigns its captured variable last. *)
Definition attempt {V} (ids : gset UUID) (step : RStore → error + V → RStore → Prop) (a : RStore)
    (r : error + V) (w : W) : Prop :=
  ∃ a', Rep prefix a' (KS w) ∧
    ((r = inl (RedisTxFailed : error) ∧ rely a a' ∧ reserved ids (st w)) ∨
     (not_refused (match r with inl e => Some e | inr _ => None end) ∧ outcome step a r a')).

Lemma wp_watch_assigning_from {V} keys (body : M W V) ids (step : RStore → error + V → RStore → Prop) a v w :
  (∀ a1 w, rely a a1 → Rep prefix a1 (KS w) → watched (st w) = keys → reserved ids (st w) →
     wp body (attempt ids step a1) w) →
  Rep prefix a (KS w) → reserved ids (st w) →
  wp (watch keys (assigning body) v)
    (λ r w', ∃ x a', r = inr x ∧ Rep prefix a' (KS w') ∧
       outcome step a (match x.1 with Some e => inl e | None => inr x.2 end) a') w.
Proof.
  intros Hbody Ha Hres. unfold watch.
  eapply (wp_watch 16 keys (assigning body) (λ b _, rely a b) ids
    (λ a x a', outcome step a (match x.1 with Some e => inl e | None => inr x.2 end) a')); try done.
  - intros a1 a2 _ H1 H2. by eapply rely_then.
  - intros a0 a1 x a2 H0. by apply outcome_rely.
  - intros a1 e v1 a2 Hr _ [Ht| ->]; simpl; [apply outcome_failed; [done|by exists e]|by apply outcome_contention].
  - intros a1 v1 w1 Hr1 Ha1 Hw1 Hres1. unfold assigning. apply wp_bind, wp_try.
    eapply wp_mono; [by apply Hbody|]. intros r w2 (a' & Ha' & Hcase). apply wp_ret.
    destruct r as [e|x].
    + exists (Some e), v1, a'. split; [done|]. split; [done|].
      destruct Hcase as [([= ->] & ? & ?)|[? ?]]; [left|by right]. split_and!; [done|done|by eapply rely_then|done].
    + exists None, x, a'. split; [done|]. split; [done|].
      destruct Hcase as [([=] & _)|[? ?]]. by right.
  - apply rely_same.
Qed.

Lemma wp_watch_assigning {V} keys (body : M W V) ids (step : RStore → error + V → RStore → Prop) a v w :
  (∀ a w, Rep prefix a (KS w) → watched (st w) = keys → reserved ids (st w) →
     wp body (attempt ids step a) w) →
  Rep prefix a (KS w) → reserved ids (st w) →
  wp (watch keys (assigning body) v)
    (λ r w', ∃ x a', r = inr x ∧ Rep prefix a' (KS w') ∧
       outcome step a (match x.1 with Some e => inl e | None => inr x.2 end) a') w.
Proof. intros Hbody. apply wp_watch_assigning_from. intros a1 w1 _. apply Hbody. Qed.

Lemma wp_watch_value_from {V} keys (body : M W V) ids (step : RStore → error + V → RStore → Prop) a v w :
  (∀ a1 w, rely a a1 → Rep prefix a1 (KS w) → watched (st w) = keys → reserved ids (st w) →
     wp body (attempt ids step a1) w) →
  Rep prefix a (KS w) → reserved ids (st w) →
  wp (watch_value keys (assigning body) v)
    (λ r w', ∃ a', Rep prefix a' (KS w') ∧ outcome step a r a') w.
Proof.
  intros Hbody Ha Hres. unfold watch_value. apply wp_bind.
  eapply wp_mono; [by eapply wp_watch_assigning_from|].
  intros r w' ([err x] & a' & -> & Ha' & Hout). simpl in *.
  destruct err; [apply wp_throw|apply wp_ret]; eauto.
Qed.

Lemma wp_watch_value {V} keys (body : M W V) ids (step : RStore → error + V → RStore → Prop) a v w :
  (∀ a w, Rep prefix a (KS w) → watched (st w) = keys → reserved ids (st w) →
     wp body (attempt ids step a) w) →
  Rep prefix a (KS w) → reserved ids (st w) →
  wp (watch_value keys (assigning body) v)
    (λ r w', ∃ a', Rep prefix a' (KS w') ∧ outcome step a r a') w.
Proof. intros Hbody. apply wp_watch_value_from. intros a1 w1 _. apply Hbody. Qed.
End Tx.
