(* ===== verification/RedisSteps.v ===== *)
(** * The Redis store takes the steps of the specification

    Every operation on one execution, under interference: when it is executed it makes the change of
    [StoreSpec] at one instant, at which the execution is as the operation read it. *)

From S2P Require Import Prelude GoLib GoText Model Memory MemoryInv StoreSpec.
From S2P Require Import RedisKeys RedisServer Redis RedisRuns RedisOps RedisRep RedisCommit RedisItems.
From S2P Require Import RedisTx.

(** ** Valid changes *)

Section Valid.
Context `{E : GoEnv} {HE : GoEnvOk} {C : Codec} {HC : CodecOk}.

(** What a change of the execution [e] must satisfy to keep the invariant. *)
Record valid_change (e : Execution) (ch : Change) : Prop := {
  vc_same : same_identity e (ch_item ch);
  vc_json : json_ok (ch_item ch);
  vc_ok : ItemOk (ch_item ch);
  vc_event :
    match ch_event ch with
    | None => ∀ evs, History evs (e_Status e) (e_Attempt e) →
                History evs (e_Status (ch_item ch)) (e_Attempt (ch_item ch))
    | Some (type, text) =>
        Model.transition (e_Status e) type (e_Status (ch_item ch)) ∧
        e_Attempt (ch_item ch) = event_attempt type (e_Attempt e) ∧ text_ok text
    end;
}.

Definition log (a : RStore) (id : UUID) : list Event := default [] (m_events (base a) !! id).

Lemma AInv_change a id e ch evs :
  AInv a → execs a !! id = Some e → valid_change e ch → logs id ch evs → Forall event_ok evs →
  AInv (commit a id (ch_item ch) (log a id ++ evs)).
Proof.
  intros Ha He [Hs Hj Hok Hev] Hlogs Hevs.
  destruct (a_log _ Ha _ _ He) as (old & Hold & Hh & Hids). unfold log. rewrite Hold. simpl.
  pose proof (a_event _ Ha _ _ Hold) as Holdok. unfold logs in Hlogs.
  apply (AInv_commit _ _ e); try done.
  - destruct (ch_event ch) as [[type text]|].
    + destruct Hlogs as (u & t & ->). rewrite fmap_app. destruct Hev as (Htr & -> & _).
      by apply (history_event _ (e_Status e)).
    + subst evs. rewrite app_nil_r. by apply Hev.
  - destruct (ch_event ch) as [[type text]|].
    + destruct Hlogs as (u & t & ->). by apply Forall_app_2, Forall_singleton.
    + subst evs. by rewrite app_nil_r.
  - by apply Forall_app_2.
Qed.

(** *** The arguments of a call *)

Definition call_ok {A} (c : Call A) : Prop :=
  match c with
  | CHeartbeat _ _ lease => int_ok lease
  | CSucceed _ _ output => optional valid_json output
  | CRetry _ _ text delay => text_ok text ∧ int_ok delay
  | CFail _ _ text => text_ok text
  | CCancel _ reason => text_ok reason
  | CRelease _ input availableAt => (∃ s, input = Some s ∧ valid_json s) ∧ time_ok availableAt
  | CRestart _ availableAt => time_ok availableAt
  end.

Lemma cloneJSON_valid s : valid_json s → cloneJSON (Some s) = Some s.
Proof. intros Hs. destruct s; [|done]. by apply valid_json_nonempty in Hs. Qed.

Lemma cloneJSON_optional m : optional valid_json m → optional valid_json (cloneJSON m).
Proof. destruct m as [s|]; [|done]. intros Hs. by rewrite cloneJSON_valid. Qed.

Lemma cloneExecution_id e : json_ok e → cloneExecution e = e.
Proof.
  intros [_ _ (s & Hi & Hs) Ho]. unfold cloneExecution.
  assert (cloneJSON (e_Input e) = e_Input e) as -> by (rewrite Hi; by apply cloneJSON_valid).
  assert (cloneJSON (e_Output e) = e_Output e) as ->
    by (destruct (e_Output e); [by apply cloneJSON_valid|done]).
  by destruct e.
Qed.

Lemma owns_spec token e : owns token e = true → e_Status e = StatusRunning ∧ e_LeaseToken e = token ∧ token ≠ uuid_Nil.
Proof.
  unfold owns. rewrite !andb_true_iff, negb_true_iff, !bool_decide_eq_true, bool_decide_eq_false. naive_solver.
Qed.

Lemma text_ok_empty : text_ok EmptyString.
Proof. done. Qed.

Lemma time_ok_zero : time_ok 0.
Proof. unfold time_ok, Second. lia. Qed.

Lemma int_ok_small z : (0 ≤ z ≤ MaxInt64)%Z → int_ok z.
Proof. unfold int_ok. lia. Qed.
End Valid.

#[global] Hint Resolve text_ok_empty time_ok_zero clock_now_ok clock_time_ok : ody.

Section ValidCalls.
Context `{E : GoEnv} {HE : GoEnvOk} {C : Codec} {HC : CodecOk}.

(** Well-formedness of a changed execution, field by field. *)
Ltac fields H := destruct H; split; simpl in *;
  repeat match goal with Hst : e_Status _ = _ |- _ => rewrite Hst in * end; simpl in *;
  eauto with ody; try done; try lia; try naive_solver.

Lemma heartbeat_valid token lease t e ch :
  json_ok e → ItemOk e → clock_ok t → int_ok lease →
  heartbeat_change token lease t e = inr ch → valid_change e ch.
Proof.
  intros Hj Hok Ht Hl. unfold heartbeat_change, guarded. destruct (owns token e) eqn:Ho; [|done].
  apply owns_spec in Ho as (Hst & _). intros [= <-]. split; simpl; [by repeat split| | |done].
  - pose proof (clock_time_ok _ _ Ht Hl). fields Hj.
  - fields Hok.
Qed.

Lemma succeed_valid token output t e ch :
  json_ok e → ItemOk e → clock_ok t → optional valid_json output →
  succeed_change token output t e = inr ch → valid_change e ch.
Proof.
  intros Hj Hok Ht Hout. unfold succeed_change, guarded. destruct (owns token e) eqn:Ho; [|done].
  apply owns_spec in Ho as (Hst & _). intros [= <-]. apply cloneJSON_optional in Hout.
  split; simpl; [by repeat split| | |].
  - fields Hj.
  - fields Hok.
  - rewrite Hst. split; [constructor|done].
Qed.

Lemma fail_valid token text t e ch :
  json_ok e → ItemOk e → clock_ok t → text_ok text →
  fail_change token text t e = inr ch → valid_change e ch.
Proof.
  intros Hj Hok Ht Htext. unfold fail_change, guarded. destruct (owns token e) eqn:Ho; [|done].
  apply owns_spec in Ho as (Hst & _). intros [= <-]. split; simpl; [by repeat split| | |].
  - fields Hj.
  - fields Hok.
  - rewrite Hst. split; [constructor|done].
Qed.

Lemma retry_valid token text delay t e ch :
  json_ok e → ItemOk e → clock_ok t → text_ok text → int_ok delay →
  retry_change token text delay t e = inr ch → valid_change e ch.
Proof.
  intros Hj Hok Ht Htext Hd. unfold retry_change, guarded. destruct (owns token e) eqn:Ho; [|done].
  apply owns_spec in Ho as (Hst & _). pose proof (clock_time_ok _ _ Ht Hd).
  destruct (Z.leb_spec (e_MaxAttempts e) (e_Attempt e)); intros [= <-];
    (split; simpl; [by repeat split|fields Hj|fields Hok|rewrite Hst; split; [constructor|done]]).
Qed.

Lemma cancel_valid reason t e ch :
  json_ok e → ItemOk e → clock_ok t → text_ok reason → e_Status e ≠ StatusZero →
  cancel_change reason t e = inr ch → valid_change e ch.
Proof.
  intros Hj Hok Ht Htext Hz. unfold cancel_change. destruct (is_terminal (e_Status e)) eqn:Hterm; [done|].
  intros [= <-]. split; simpl; [by repeat split| | |].
  - fields Hj.
  - fields Hok.
  - split; [|done]. constructor. destruct (e_Status e); naive_solver.
Qed.

Lemma release_valid input available t e ch :
  json_ok e → ItemOk e → clock_ok t → (∃ s, input = Some s ∧ valid_json s) → time_ok available →
  release_change input available t e = inr ch → valid_change e ch.
Proof.
  intros Hj Hok Ht (s & -> & Hs) Hav. unfold release_change. rewrite cloneJSON_valid by done.
  case_bool_decide as Hst; [|done]. intros [= <-].
  assert (time_ok (if IsZero available then t else available)) by (destruct (IsZero available); eauto with ody).
  split; simpl; [by repeat split| | |].
  - fields Hj.
  - fields Hok.
  - rewrite Hst. intros evs Hh. by apply history_release.
Qed.

Lemma reset_valid status available e :
  json_ok e → ItemOk e → time_ok available →
  status = StatusPending ∨ status = StatusBlocked ∧ is_Some (e_PipelineRunID e) →
  is_active (e_Status e) = false → e_Status e ≠ StatusZero →
  valid_change e (mkChange (reset_item status available e) (Some (EventRestarted, EmptyString))).
Proof.
  intros Hj Hok Hav Hst Hact Hz. split; simpl; [by repeat split| | |].
  - fields Hj.
  - destruct Hst as [->|[-> ?]]; fields Hok.
  - split_and!; [|done|done]. constructor; [destruct (e_Status e); naive_solver|].
    destruct Hst as [->|[-> _]]; auto.
Qed.

Lemma call_valid {A} (c : Call A) order t e ch :
  call_ok c → clock_ok t → json_ok e → ItemOk e → e_Status e ≠ StatusZero →
  call_change order c t e = inr ch → valid_change e ch.
Proof.
  intros Hc Ht Hj Hok Hz Hch. destruct c; simpl in *.
  - by eapply heartbeat_valid.
  - by eapply succeed_valid.
  - destruct Hc. by eapply retry_valid.
  - by eapply fail_valid.
  - by eapply cancel_valid.
  - destruct Hc. by eapply release_valid.
  - unfold restart_change in Hch.
    destruct (order && is_active (e_Status e)); [done|]. case_bool_decide; [done|].
    destruct (is_active (e_Status e)) eqn:Hact; [done|]. injection Hch as <-.
    apply reset_valid; auto. destruct (IsZero availableAt); eauto with ody.
Qed.
End ValidCalls.
