(* ===== verification/RedisLin.v ===== *)
(** * Atomicity of the operations on one execution

    Under interference, an operation of the Redis store on one execution is atomic: it takes the step of
    its specification at one instant between its call and its return, or returns an error of the
    connection or of the retry limit. *)

From S2P Require Import Prelude GoLib GoText Model Memory MemoryInv StoreSpec.
From S2P Require Import RedisKeys RedisServer Redis RedisRuns RedisOps RedisRep RedisCommit RedisItems.
From S2P Require Import RedisTx RedisSteps.

Definition redis_call `{E : GoEnv} {C : Codec} {W : Type} `{!RedisClient W} `{!Process W}
    (prefix : string) {A} (c : Call A) : M W A :=
  match c with
  | CHeartbeat id token lease => Redis.Heartbeat prefix id token lease
  | CSucceed id token output => Redis.Succeed prefix id token output
  | CRetry id token text delay => Redis.Retry prefix id token text delay
  | CFail id token text => Redis.Fail prefix id token text
  | CCancel id reason => Redis.CancelExecution prefix id reason
  | CRelease id input availableAt => Redis.ReleaseExecution prefix id input availableAt
  | CRestart id availableAt => Redis.RestartExecution prefix id availableAt
  end.

Section Atomic.
Context `{E : GoEnv} {HE : GoEnvOk} {C : Codec} {HC : CodecOk}.
Context {W : Type} `{!RedisClient W} `{!Process W} {SV : Server W} {HS : ServerOk W}.

Abbreviation prefix := (srv_prefix (W := W)).
Abbreviation st := (srv_state (W := W)).
Abbreviation others := (srv_others (W := W)).
Abbreviation transport := (srv_transport (W := W)).
Abbreviation rely := (srv_rely (W := W)).

Abbreviation Failed := (failed transport).
Abbreviation outcome := (RedisTx.outcome (W := W)).
Abbreviation reserved := (RedisTx.reserved (W := W)).
Abbreviation KS w := (keyspace (st w)).

(** ** Outcomes of one try *)

Lemma rely_0 a : rely a a.
Proof. exact (rely_refl a). Qed.
Lemma rely_2 a b c : rely a b → rely b c → rely a c.
Proof. exact (rely_trans a b c). Qed.

Lemma attempt_rely {V} ids (step : RStore → error + V → RStore → Prop) a0 a r w :
  rely a0 a → attempt ids step a r w → attempt ids step a0 r w.
Proof.
  intros H0 (a' & Ha' & Hc). exists a'. split; [done|].
  destruct Hc as [(-> & Hr & Hres)|[Hn Ho]]; [left|right].
  - split_and!; [done| |done]. by eapply rely_2.
  - split; [done|]. by eapply outcome_rely.
Qed.

Lemma failed_not_refused {V} (r : error + V) :
  Failed r → not_refused (match r with inl e => Some e | inr _ => None end).
Proof. intros (e & -> & Ht). by apply transport_not. Qed.

Lemma attempt_failed {V} ids (step : RStore → error + V → RStore → Prop) a a' r w :
  rely a a' → Rep prefix a' (KS w) → Failed r → attempt ids step a r w.
Proof.
  intros Hr Ha' Hf. exists a'. split; [done|]. right. split; [by apply failed_not_refused|].
  by apply outcome_failed.
Qed.

Lemma attempt_refused {V} ids (step : RStore → error + V → RStore → Prop) a a' w :
  rely a a' → Rep prefix a' (KS w) → reserved ids (st w) →
  attempt ids step a (inl (RedisTxFailed : error)) w.
Proof. intros Hr Ha' Hres. exists a'. split; [done|]. by left. Qed.

(** An error of the specification, at the instant of the read. *)
Lemma attempt_error {V} ids (step : RStore → error + V → RStore → Prop) a e w :
  Rep prefix a (KS w) → step a (inl e) a → errors_Is e RedisTxFailed = false →
  attempt ids step a (inl e) w.
Proof.
  intros Ha Hs He. exists a. split; [done|]. right. split; [done|].
  eapply outcome_step; [|done|]; apply rely_0.
Qed.

Lemma attempt_done {V} ids (step : RStore → error + V → RStore → Prop) a a1 a' x r w :
  rely a a1 → step a1 (inr x) a' → Rep prefix a' (KS w) → r = inr x ∨ Failed r → attempt ids step a r w.
Proof.
  intros Hr Hs Ha' Hrr. exists a'. split; [done|]. right. destruct Hrr as [->|Hf].
  - split; [done|]. eapply outcome_step; [done|done|]. apply rely_0.
  - split; [by apply failed_not_refused|]. eapply outcome_lost; [done|done| |done].
    apply rely_0.
Qed.

(** ** The transaction of a change *)

Lemma wp_encodeEvent a w id e type text now (Q : error + string → W → Prop) :
  Rep prefix a (KS w) → json_ok e → e_ID e = id → text_ok text → time_ok now →
  (∀ ev event w', ev = mkEvent (ev_ID ev) id type (e_Attempt e) text now → event_ok ev →
     marshal_event ev = inr event → KS w' = KS w → watched (st w') = watched (st w) →
     (∀ ids, reserved ids (st w) → reserved ids (st w')) → dirty (st w') = dirty (st w) →
     Q (inr event) w') →
  wp (encodeEvent e type text now) Q w.
Proof.
  intros Ha Hj Hid Htext Hnow HQ. unfold encodeEvent. apply wp_bind.
  eapply wp_uuid; [done|]. intros u w' _ Hst _. cbv beta iota.
  set (ev := mkEvent u (e_ID e) type (e_Attempt e) text now).
  assert (event_ok ev) as Hev by (split; simpl; [by destruct Hj|done|done]).
  destruct (event_codec ev Hev) as (event & He & _). rewrite He. apply wp_ret.
  apply (HQ ev); [by rewrite <-Hid|done|done|by rewrite Hst|by rewrite Hst| |by rewrite Hst].
  intros ids. rewrite Hst. apply reserved_same; [done|]. simpl. set_solver.
Qed.

(** The commands of a change take effect when the execution is as it was read. *)
Lemma commits_change a w id e ch evs texts text cmds l :
  Rep prefix a (KS w) → executionKey prefix id ∈ watched (st w) → execs a !! id = Some e →
  valid_change e ch → marshal_execution (ch_item ch) = inr text → logs id ch evs →
  Forall event_ok evs → Forall2 (λ ev text, marshal_event ev = inr text) evs texts →
  cmds = lower prefix <$> l →
  (∀ a, AInv a → execs a !! id = Some e →
     item_cmds a id e (ch_item ch) (log a id ++ evs) text texts l) →
  commits cmds w (λ a1 a', execs a1 !! id = Some e ∧ a' = commit a1 id (ch_item ch) (log a1 id ++ evs)).
Proof.
  intros Ha Hw He Hv Htext Hlogs Hevs Htexts -> Hl a1 ks Ha1 Hsize _ Hks _.
  assert (execs a1 !! id = Some e) as He1.
  { rewrite <-He. eapply Rep_exec_eq; [exact Ha|exact Ha1|]. by apply Hks. }
  pose proof (rep_inv _ _ _ Ha1) as Hinv. destruct (a_log _ Hinv _ _ He1) as (old & Hold & _).
  destruct (Rep_commit prefix a1 ks id e (ch_item ch) old evs text texts l) as (ks' & Hks' & Ha');
    try done; try apply Hv.
  - pose proof (AInv_change a1 id e ch evs) as Hi. unfold log in Hi. rewrite Hold in Hi. by apply Hi.
  - specialize (Hl a1 Hinv He1). unfold log in Hl. by rewrite Hold in Hl.
  - exists ks', (commit a1 id (ch_item ch) (log a1 id ++ evs)).
    unfold log. rewrite Hold. done.
Qed.

Lemma wp_saveTransition a w id e e' type text now keep (Q : error + unit → W → Prop) :
  Rep prefix a (KS w) → executionKey prefix id ∈ watched (st w) → execs a !! id = Some e →
  valid_change e (mkChange e' (Some (type, text))) → time_ok now → keep = is_active (e_Status e') →
  (∀ r w' a', rely a a' → Rep prefix a' (KS w') →
     (∀ ids, reserved ids (st w) → reserved ids (st w')) →
     Failed r ∨ r = inl (RedisTxFailed : error) → Q r w') →
  (∀ r w' a1 evs, rely a a1 → execs a1 !! id = Some e → logs id (mkChange e' (Some (type, text))) evs →
     Rep prefix (commit a1 id e' (log a1 id ++ evs)) (KS w') → r = inr tt ∨ Failed r → Q r w') →
  wp (saveTransition prefix e' (e_Status e) type text now keep) Q w.
Proof.
  intros Ha Hw He Hv Hnow Hkeep HQ1 HQ2. unfold saveTransition.
  destruct (execution_codec e' (vc_json _ _ Hv)) as (enc & Henc & _). simpl in Henc. rewrite Henc.
  destruct (a_item _ (rep_inv _ _ _ Ha) _ _ He) as [Hid _].
  assert (e_ID e' = id) as Hid' by (rewrite <-Hid; apply Hv).
  apply wp_bind, wp_ret. apply wp_bind.
  eapply (wp_encodeEvent a w id); [done|apply Hv|done|by apply Hv|done|].
  intros ev event w1 Hev Hevok Hm Hks Hwt Hres _.
  assert (logs id (mkChange e' (Some (type, text))) [ev]) as Hlogs by (rewrite Hev; by do 2 eexists).
  eapply wp_exec; [by rewrite Hks|..].
  - eapply (commits_change a w1 id e (mkChange e' (Some (type, text))) [ev] [event]); [by rewrite Hks|..].
    + by rewrite Hwt.
    + done.
    + done.
    + done.
    + done.
    + by apply Forall_singleton.
    + by apply Forall2_cons_2.
    + by apply saveTransition_lower.
    + intros a1 Ha1 He1. apply saveTransition_item. split; [done|done|apply Hv|apply Hv].
  - intros r w' a' Hr Ha' Hres'. apply (HQ1 r w' a'); auto.
  - intros r w' a1 a' Hr [He1 ->] Ha'. by apply (HQ2 r w' a1 [ev]).
Qed.

(** ** The body of an operation *)

(** A specification step on the abstract state of the in-memory store. *)
Abbreviation on_base step := (λ a r a', step (base a) r (base a')).

Lemma wp_item_body {V} ids id (k : Execution → M W V) (step : RStore → error + V → RStore → Prop) a w :
  Rep prefix a (KS w) → watched (st w) = [executionKey prefix id] → reserved ids (st w) →
  (∀ a, execs a !! id = None → step a (inl (ErrNotFound : error)) a) →
  (∀ a1 w1 e, Rep prefix a1 (KS w1) → executionKey prefix id ∈ watched (st w1) →
     reserved ids (st w1) → execs a1 !! id = Some e → wp (k e) (attempt ids step a1) w1) →
  wp (getExecutionTx prefix id ≫= k) (attempt ids step a) w.
Proof.
  intros Ha Hw Hres Hnone Hk. apply wp_bind.
  eapply wp_getExecutionTx; [done|..].
  - intros w1 a1 (Hr & Ha1 & Hw1 & Hres1 & _). unfold read_execution.
    destruct (execs a1 !! id) as [e|] eqn:He.
    + eapply wp_mono; [apply (Hk a1 w1 e); [done| |by apply Hres1|done]|].
      * rewrite Hw1, Hw. left.
      * intros r w2. by apply attempt_rely.
    + eapply attempt_rely; [done|]. by apply attempt_error; [|apply Hnone|].
  - intros e w1 a1 (Hr & Ha1 & _) Ht. eapply attempt_failed; [done|done|]. by exists e.
Qed.

(** ** The calls *)

Definition step_of {A} (c : Call A) (t : Time) : RStore → error + A → RStore → Prop :=
  λ a r a', call_step true c t (base a) r (base a').

Lemma step_error {A} (c : Call A) t a e err :
  execs a !! call_id c = Some e → call_change true c t e = inl err → step_of c t a (inl err) a.
Proof. intros He Hc. unfold step_of, call_step, item_step. by rewrite He, Hc. Qed.

Lemma step_done {A} (c : Call A) t a e ch evs :
  execs a !! call_id c = Some e → call_change true c t e = inr ch → logs (call_id c) ch evs →
  step_of c t a (inr (call_result c (ch_item ch)))
    (commit a (call_id c) (ch_item ch) (log a (call_id c) ++ evs)).
Proof. intros He Hc Hl. unfold step_of, call_step, item_step. rewrite He, Hc. eauto. Qed.

Lemma not_found_step {A} (c : Call A) t a :
  execs a !! call_id c = None → step_of c t a (inl (ErrNotFound : error)) a.
Proof. intros He. unfold step_of, call_step, item_step. by rewrite He. Qed.

Lemma AInv_status a id e : AInv a → execs a !! id = Some e → e_Status e ≠ StatusZero.
Proof. intros Ha He. destruct (a_log _ Ha _ _ He) as (? & _ & Hh & _). by eapply History_status. Qed.

(** The clock is read before the transaction. *)
Lemma wp_timed {A} (k : Time → M W A) (step : Time → RStore → error + A → RStore → Prop) a w :
  Rep prefix a (KS w) →
  (∀ t a1 w1, clock_ok t → Rep prefix a1 (KS w1) →
     wp (k t) (λ r w', ∃ a', Rep prefix a' (KS w') ∧ outcome (step t) a1 r a') w1) →
  wp (redis_now ≫= k) (λ r w', ∃ t a', clock_ok t ∧ Rep prefix a' (KS w') ∧ outcome (step t) a r a') w.
Proof.
  intros Ha Hk. apply wp_bind. unfold redis_now. eapply wp_Time; [done|..].
  - intros t w1 a1 (Hr & Ha1 & _) Ht. eapply wp_mono; [by apply (Hk t a1 w1)|].
    intros r w' (a' & Ha' & Ho). exists t, a'. split_and!; [done|done|]. by eapply outcome_rely.
  - intros e w1 a1 (Hr & Ha1 & _) Ht. exists (2 ^ 63)%Z, a1.
    split_and!; [unfold clock_ok, Second; lia|done|]. apply outcome_failed; [done|by exists e].
Qed.

Lemma lost_owns token e : lost token e = negb (owns token e).
Proof. unfold lost, owns. by repeat case_bool_decide. Qed.

(** A transaction that saves a transition is a try of the call. *)
Lemma save_attempt (c : Call unit) t a w e e' type text keep :
  Rep prefix a (KS w) → executionKey prefix (call_id c) ∈ watched (st w) →
  execs a !! call_id c = Some e → call_ok c → clock_ok t →
  call_change true c t e = inr (mkChange e' (Some (type, text))) → call_result c e' = tt →
  keep = is_active (e_Status e') →
  wp (saveTransition prefix e' (e_Status e) type text t keep) (attempt ∅ (step_of c t) a) w.
Proof.
  intros Ha Hw He Hc Ht Hch Hres Hkeep. pose proof (rep_inv _ _ _ Ha) as Hinv.
  destruct (a_item _ Hinv _ _ He) as (_ & Hj & Hok).
  assert (valid_change e (mkChange e' (Some (type, text)))) as Hv
    by (eapply call_valid; [done|done|done|done|by eapply AInv_status|done]).
  eapply (wp_saveTransition a w (call_id c) e); [done|done|done|done|by apply clock_now_ok|done|..].
  - intros r w' a' Hr Ha' Hres' [Hf| ->]; [by eapply attempt_failed|].
    eapply attempt_refused; [done|done|apply reserved_empty].
  - intros r w' a1 evs Hr He1 Hl Ha' Hrr.
    pose proof (step_done c t a1 e _ evs He1 Hch Hl) as Hstep. simpl in Hstep. rewrite Hres in Hstep.
    by eapply attempt_done.
Qed.

(** The shape of an operation: read the clock, then in a transaction read the execution. *)
Lemma wp_call {A} (c : Call A) (k : Time → Execution → M W A) v a w :
  Rep prefix a (KS w) →
  (∀ t a1 w1 e, clock_ok t → Rep prefix a1 (KS w1) → executionKey prefix (call_id c) ∈ watched (st w1) →
     execs a1 !! call_id c = Some e → wp (k t e) (attempt ∅ (step_of c t) a1) w1) →
  wp (now ← redis_now; watch_value [executionKey prefix (call_id c)]
        (assigning (item ← getExecutionTx prefix (call_id c); k now item)) v)
    (λ r w', ∃ t a', clock_ok t ∧ Rep prefix a' (KS w') ∧ outcome (step_of c t) a r a') w.
Proof.
  intros Ha Hk. apply (wp_timed _ (step_of c)); [done|]. intros t a1 w1 Ht Ha1.
  apply (wp_watch_value _ _ ∅); [|done|apply reserved_empty]. intros a2 w2 Ha2 Hw2 _.
  apply wp_item_body; [done|done|apply reserved_empty|apply not_found_step|]. intros a3 w3 e ??? ?. by apply Hk.
Qed.

(** The error of the specification. *)
Lemma throw_attempt {A} (c : Call A) t a w e err :
  Rep prefix a (KS w) → execs a !! call_id c = Some e → call_change true c t e = inl err →
  errors_Is err RedisTxFailed = false → wp (throw err) (attempt ∅ (step_of c t) a) w.
Proof. intros. apply wp_throw, attempt_error; [done| |done]. by eapply step_error. Qed.

Lemma wp_transition (c : Call unit) token mutate a w :
  call_ok c → Rep prefix a (KS w) →
  (∀ t e, call_change true c t e = if owns token e then
     inr (mkChange (mutate e t).1.1.1 (Some ((mutate e t).1.1.2, (mutate e t).1.2))) else inl (ErrLeaseLost : error)) →
  (∀ t e, (mutate e t).2 = is_active (e_Status (mutate e t).1.1.1)) → (∀ e, call_result c e = tt) →
  wp (Redis.transition prefix (call_id c) token mutate)
    (λ r w', ∃ t a', clock_ok t ∧ Rep prefix a' (KS w') ∧ outcome (step_of c t) a r a') w.
Proof.
  intros Hc Ha Hm Hq Hres. apply wp_call; [done|]. intros t a1 w1 e Ht Ha1 Hw1 He1.
  rewrite lost_owns. specialize (Hm t e). specialize (Hq t e). destruct (owns token e); simpl.
  - destruct (mutate e t) as [[[e' type] text] keep]. simpl in *. by apply save_attempt.
  - by eapply throw_attempt.
Qed.

(** A transaction that records no event. *)
Lemma put_attempt (c : Call unit) t a w e e' cmds l :
  Rep prefix a (KS w) → executionKey prefix (call_id c) ∈ watched (st w) →
  execs a !! call_id c = Some e → call_ok c → clock_ok t →
  call_change true c t e = inr (mkChange e' None) → call_result c e' = tt →
  (∀ text, cmds text = lower prefix <$> l text) →
  (∀ a text, AInv a → execs a !! call_id c = Some e → same_identity e e' → json_ok e' →
     item_cmds a (call_id c) e e' (log a (call_id c) ++ []) text [] (l text)) →
  wp (encoded ← lift (marshal_execution e'); tx_TxPipelined (cmds encoded)) (attempt ∅ (step_of c t) a) w.
Proof.
  intros Ha Hw He Hc Ht Hch Hres Hl Hitem. pose proof (rep_inv _ _ _ Ha) as Hinv.
  destruct (a_item _ Hinv _ _ He) as (_ & Hj & Hok).
  assert (valid_change e (mkChange e' None)) as Hv
    by (eapply call_valid; [done|done|done|done|by eapply AInv_status|done]).
  destruct (execution_codec e' (vc_json _ _ Hv)) as (enc & Henc & _). rewrite Henc. apply wp_bind, wp_ret.
  eapply wp_exec; [done|..].
  - eapply (commits_change a w (call_id c) e (mkChange e' None) [] []); try done.
    intros a1 Ha1 He1. apply Hitem; [done|done|apply Hv|apply Hv].
  - intros r w' a' Hr Ha' Hres' [Hf| ->]; [by eapply attempt_failed|].
    eapply attempt_refused; [done|done|apply reserved_empty].
  - intros r w' a1 a' Hr [He1 ->] Ha' Hrr. cbn [ch_item] in *.
    pose proof (step_done c t a1 e (mkChange e' None) [] He1 Hch eq_refl) as Hstep.
    cbn [ch_item] in Hstep. rewrite Hres in Hstep. by eapply attempt_done.
Qed.

(** Every operation is a call. *)
Abbreviation is_atomic c m := (∀ a w, call_ok c → Rep prefix a (KS w) →
  wp m (λ r w', ∃ t a', clock_ok t ∧ Rep prefix a' (KS w') ∧ outcome (step_of c t) a r a') w).

Lemma Heartbeat_atomic id token lease :
  is_atomic (CHeartbeat id token lease) (Redis.Heartbeat prefix id token lease).
Proof.
  intros a w Hc Ha. set (c := CHeartbeat id token lease). apply (wp_call c); [done|].
  intros t a1 w1 e Ht Ha1 Hw1 He1. rewrite lost_owns. destruct (owns token e) eqn:Ho; simpl.
  - pose proof (owns_spec _ _ Ho) as (Hst & _).
    assert (e_ID e = id) as Hid by (by eapply a_item; [apply Ha1|]).
    set (e' := e <| e_LeaseUntil := Add t lease |>).
    eapply (put_attempt c t a1 w1 e e' _ (heartbeat_roles e')); try done.
    + unfold c. simpl. unfold heartbeat_change, guarded. by rewrite Ho.
    + intros text. rewrite <-Hid. apply (heartbeat_lower prefix e').
    + intros a2 text Ha2 He2 Hs Hj. by apply heartbeat_item.
  - eapply (throw_attempt c); [done..| |done]. unfold c. simpl. unfold heartbeat_change, guarded. by rewrite Ho.
Qed.

Lemma CancelExecution_atomic id reason :
  is_atomic (CCancel id reason) (Redis.CancelExecution prefix id reason).
Proof.
  intros a w Hc Ha. set (c := CCancel id reason). apply (wp_call c); [done|].
  intros t a1 w1 e Ht Ha1 Hw1 He1.
  assert (bool_decide (e_Status e = StatusSucceeded) || bool_decide (e_Status e = StatusFailed)
    || bool_decide (e_Status e = StatusCancelled) = is_terminal (e_Status e)) as -> by (by destruct (e_Status e)).
  destruct (is_terminal (e_Status e)) eqn:Hterm.
  - eapply (throw_attempt c); [done..| |done]. unfold c. simpl. unfold cancel_change. by rewrite Hterm.
  - eapply (save_attempt c t a1 w1 e); try done. unfold c. simpl. unfold cancel_change. by rewrite Hterm.
Qed.

Lemma ReleaseExecution_atomic id input available :
  is_atomic (CRelease id input available) (Redis.ReleaseExecution prefix id input available).
Proof.
  intros a w Hc Ha. set (c := CRelease id input available). apply (wp_call c); [done|].
  intros t a1 w1 e Ht Ha1 Hw1 He1.
  destruct (bool_decide (e_Status e = StatusBlocked)) eqn:Hb; cbn [negb].
  - assert (e_ID e = id) as Hid by (by eapply a_item; [apply Ha1|]).
    set (e' := e <| e_Status := StatusPending |> <| e_Input := cloneJSON input |>
      <| e_AvailableAt := if IsZero available then t else available |>).
    eapply (put_attempt c t a1 w1 e e' _ (release_roles e')); try done.
    + unfold c. simpl. unfold release_change. by rewrite Hb.
    + intros text. rewrite <-Hid. by apply (release_lower prefix e').
    + intros a2 text Ha2 He2 Hs Hj. apply bool_decide_eq_true in Hb. by apply release_item.
  - eapply (throw_attempt c); [done..| |done]. unfold c. simpl. unfold release_change. by rewrite Hb.
Qed.

Lemma restarted_reset status t e : restarted status t e = reset_item status t e.
Proof. destruct e. vm_compute. reflexivity. Qed.

Lemma RestartExecution_atomic id available :
  is_atomic (CRestart id available) (Redis.RestartExecution prefix id available).
Proof.
  intros a w Hc Ha. set (c := CRestart id available). apply (wp_call c); [done|].
  intros t a1 w1 e Ht Ha1 Hw1 He1. pose proof (rep_inv _ _ _ Ha1) as Hinv.
  assert (active e = is_active (e_Status e)) as -> by (unfold active; by destruct (e_Status e)).
  destruct (is_active (e_Status e)) eqn:Hact.
  { eapply (throw_attempt c); [done..| |done]. unfold c. simpl. unfold restart_change. by rewrite Hact. }
  destruct (e_PipelineRunID e) as [run|] eqn:Hrun.
  { eapply (throw_attempt c); [done..| |done]. unfold c. simpl. unfold restart_change. by rewrite Hact, Hrun. }
  set (e' := restarted StatusPending (if IsZero available then t else available) e).
  set (ch := mkChange e' (Some (EventRestarted, EmptyString))).
  assert (call_change true c t e = inr ch) as Hch.
  { unfold c, ch, e'. rewrite restarted_reset. cbn [call_change]. unfold restart_change.
    by rewrite Hact, Hrun. }
  destruct (a_item _ Hinv _ _ He1) as (Hid & Hj & Hok).
  assert (valid_change e ch) as Hv
    by (eapply call_valid; [done|done|done|done|by eapply AInv_status|done]).
  destruct (execution_codec e' (vc_json _ _ Hv)) as (enc & Henc & _). cbv zeta. fold e'. rewrite Henc.
  apply wp_bind, wp_ret. apply wp_bind.
  eapply (wp_encodeEvent a1 w1 id); [done|apply Hv|done|done|by apply clock_now_ok|].
  intros ev event w2 Hev Hevok Hm Hks Hwt _ _.
  assert (logs id ch [ev]) as Hlogs by (rewrite Hev; by do 2 eexists).
  apply wp_bind. eapply wp_exec; [by rewrite Hks|..].
  - eapply (commits_change a1 w2 id e ch [ev] [event]); [by rewrite Hks|by rewrite Hwt|done|done|done|done| | | |].
    + by apply Forall_singleton.
    + by apply Forall2_cons_2.
    + assert (e_ID e' = id) as <- by exact Hid. apply restart_lower; [done|].
      intros Heq. by rewrite Heq in Hact.
    + intros a2 Ha2 He2. apply saveTransition_item. split; [done|done|apply Hv|apply Hv].
  - intros r w' a' Hr Ha' Hres' [(x & -> & Hf)| ->].
    + eapply attempt_failed; [done|done|by exists x].
    + eapply attempt_refused; [done|done|apply reserved_empty].
  - intros r w' a2 a' Hr [He2 ->] Ha' Hrr.
    pose proof (step_done c t a2 e ch [ev] He2 Hch Hlogs) as Hstep.
    assert (call_result c (ch_item ch) = e') as Hret by (by apply cloneExecution_id, Hv).
    rewrite Hret in Hstep. destruct Hrr as [->|(x & -> & Hf)].
    + apply wp_ret. eapply attempt_done; [done|done|done|by left].
    + eapply attempt_done; [done|done|done|right; by exists x].
Qed.

(** Every operation on one execution is atomic. *)
Lemma redis_call_atomic {A} (c : Call A) : is_atomic c (redis_call prefix c).
Proof.
  destruct c as [id token lease|id token output|id token text delay|id token text|id reason
    |id input available|id available]; cbn [redis_call].
  - apply Heartbeat_atomic.
  - intros a w Hc Ha. by apply (wp_transition (CSucceed id token output)).
  - intros a w Hc Ha. apply (wp_transition (CRetry id token text delay)); try done; intros t e; simpl;
      unfold retry_change, guarded; by destruct (e_MaxAttempts e <=? e_Attempt e)%Z.
  - intros a w Hc Ha. by apply (wp_transition (CFail id token text)).
  - apply CancelExecution_atomic.
  - apply ReleaseExecution_atomic.
  - apply RestartExecution_atomic.
Qed.
End Atomic.
