(* ===== verification/RedisCreate.v ===== *)
(** * Atomicity of creation and of the state of a run

    [CreateExecution], [CreatePipelineRun], [GetPipelineRun] and [SetPipelineRunStatus] of the Redis
    store under interference. *)

From S2P Require Import Prelude GoLib GoText Model Memory MemoryInv StoreSpec.
From S2P Require Import RedisKeys RedisServer Redis RedisRuns RedisOps RedisRep RedisCommit RedisItems.
From S2P Require Import RedisRecords RedisRunItems RedisTx RedisSteps RedisLin.

Section Create.
Context `{E : GoEnv} {HE : GoEnvOk} {C : Codec} {HC : CodecOk}.
Context {W : Type} `{!RedisClient W} `{!Process W} {SV : Server W} {HS : ServerOk W}.

Abbreviation prefix := (srv_prefix (W := W)).
Abbreviation st := (srv_state (W := W)).
Abbreviation transport := (srv_transport (W := W)).
Abbreviation rely := (srv_rely (W := W)).
Abbreviation Failed := (failed transport).
Abbreviation outcome := (RedisTx.outcome (W := W)).
Abbreviation reserved := (RedisTx.reserved (W := W)).
Abbreviation KS w := (keyspace (st w)).

(** ** References *)

(** What a key that holds the identifier of a record refers to. *)
Definition refers (a : RStore) (k : Key) : option UUID :=
  match k with
  | KIdempotency j => m_idempotent (base a) !! j
  | KNode r n => m_nodes (base a) !! node_key r n
  | KRunIdempotency j => m_runIdempotent (base a) !! j
  | _ => None
  end.

Definition is_ref (k : Key) : bool :=
  match k with KIdempotency _ | KNode _ _ | KRunIdempotency _ => true | _ => false end.

Lemma Rep_ref a ks k : Rep prefix a ks → is_ref k = true → ks !! key_name prefix k = reference (refers a k).
Proof. intros Ha Hk. pose proof (rep_key _ _ _ Ha k) as H. by destruct k. Qed.

(** A reference read in a transaction. *)
Lemma wp_get_ref k a w (Q : error + string → W → Prop) :
  is_ref k = true → Rep prefix a (KS w) →
  (∀ w' a', after_read a w a' w' →
     Q (match refers a' k with Some id => inr (uuid_String id) | None => inl (RedisNil : error) end) w') →
  (∀ e w' a', after_read a w a' w' → transport e → Q (inl e) w') →
  wp (redis_Get (key_name prefix k)) Q w.
Proof.
  intros Hk Ha HQ1 HQ2. eapply (wp_read _ _ a); [apply law_Get; apply _|done|].
  intros r w' a' Hp [(e & -> & Ht)|Hr]; [by eapply HQ2|].
  pose proof Hp as (_ & Ha' & _). specialize (HQ1 w' a' Hp). rewrite (Rep_ref _ _ _ Ha' Hk) in Hr.
  destruct (refers a' k) as [id|]; by rewrite (Hr _ eq_refl).
Qed.

(** No reference is set, as long as the transaction is valid. *)
Definition unset (keys : list Key) (w : W) : Prop :=
  dirty (st w) = false → ∀ k, k ∈ keys → KS w !! key_name prefix k = None.

Definition watching (keys : list Key) (w : W) : Prop := watched (st w) = key_name prefix <$> keys.

Lemma unset_after keys all a w a' w' :
  after_read a w a' w' → watching all w → keys ⊆ all → unset keys w → unset keys w'.
Proof.
  intros (_ & _ & _ & _ & Hc) Hw Hsub Hu Hd k Hk. destruct (Hc Hd) as [Hd0 Heq].
  rewrite Heq; [by apply Hu|]. rewrite Hw. apply list_elem_of_fmap. exists k. split; [done|]. by apply Hsub.
Qed.

Lemma unset_none a k w : Rep prefix a (KS w) → is_ref k = true → refers a k = None → unset [k] w.
Proof.
  intros Ha Hk Hn _ k' ->%list_elem_of_singleton. by rewrite (Rep_ref _ _ _ Ha Hk), Hn.
Qed.

(** The loop that looks for an existing reference. *)
Lemma wp_find_reference seen keys a w (Q : error + option UUID → W → Prop) :
  Forall (λ k, is_ref k = true) keys → Rep prefix a (KS w) → watching (seen ++ keys) w → unset seen w →
  (∀ w' a', rely a a' → Rep prefix a' (KS w') → watching (seen ++ keys) w' →
     (∀ ids, reserved ids (st w) → reserved ids (st w')) → unset (seen ++ keys) w' → Q (inr None) w') →
  (∀ k id w' a', rely a a' → Rep prefix a' (KS w') → k ∈ keys → refers a' k = Some id → Q (inr (Some id)) w') →
  (∀ e w' a', rely a a' → Rep prefix a' (KS w') → transport e → Q (inl e) w') →
  wp (find_reference (key_name prefix <$> keys)) Q w.
Proof.
  intros Hk. revert seen a w. induction Hk as [|k keys Hk _ IH]; intros seen a w Ha Hw Hu HQ1 HQ2 HQ3.
  { simpl. apply wp_ret. rewrite app_nil_r in *. apply (HQ1 w a); [apply rely_0|done..]. }
  rewrite fmap_cons. cbn [find_reference]. apply wp_bind, wp_try. eapply wp_get_ref; [done|done|..].
  - intros w1 a1 Hp. pose proof Hp as (Hr & Ha1 & Hw1 & Hres & _).
    destruct (refers a1 k) as [id|] eqn:Href; cbn beta iota.
    + rewrite uuid_Parse_String. apply wp_ret. eapply HQ2; [done|done|left|done].
    + simpl errors_Is. cbv iota.
      assert (watching (seen ++ k :: keys) w1) as Hwt by (unfold watching; by rewrite Hw1).
      assert (unset (seen ++ [k]) w1) as Hu1.
      { intros Hd k' [Hin|Hin]%elem_of_app.
        - eapply (unset_after seen (seen ++ k :: keys)); [done|done| |done|done|done]. set_solver.
        - by eapply (unset_none a1 k). }
      rewrite cons_middle, (assoc_L (++)) in Hwt, HQ1.
      apply (IH (seen ++ [k]) a1 w1); [done|done|done| | |].
      * intros w2 a2 Hr2 Ha2 Hw2 Hres2 Hu2. eapply HQ1; [by eapply rely_2|done|done|by auto|done].
      * intros k' id w2 a2 Hr2 Ha2 Hin Hid. eapply HQ2; [by eapply rely_2|done|by right|done].
      * intros e w2 a2 Hr2 Ha2 Ht. eapply HQ3; [by eapply rely_2|done|done].
  - intros e w1 a1 (Hr & Ha1 & _) Ht. cbn beta iota. rewrite (transport_not e) by done.
    apply wp_throw. by eapply HQ3.
Qed.

(** ** [CreateExecution] *)

(** The requests whose record JSON keeps. *)
Record request_valid (request : CreateExecutionRequest) : Prop := {
  rq_named : c_TaskName request ≠ EmptyString;
  rq_name : text_ok (c_TaskName request);
  rq_version : int_ok (c_TaskVersion request);
  rq_input : ∃ s, c_Input request = Some s ∧ valid_json s;
  rq_max : int_ok (c_MaxAttempts request);
  rq_available : time_ok (c_AvailableAt request);
  rq_idempotency : text_ok (c_IdempotencyKey request);
  rq_node : text_ok (c_NodeKey request);
}.

Lemma new_execution_json request id t :
  request_valid request → clock_ok t → json_ok (new_execution request id t).
Proof.
  intros [Hn ? ? (s & Hi & Hs) Hm ? ? ?] Ht. pose proof (clock_now_ok _ Ht).
  split; simpl; try done.
  - exists s. rewrite Hi. split; [|done]. by apply cloneJSON_valid.
  - by destruct (_ <=? _)%Z.
  - by destruct (IsZero _).
Qed.

Lemma new_execution_item request id t : request_valid request → ItemOk (new_execution request id t).
Proof.
  intros [Hn ? ? ? Hm ? ? ?]. unfold int_ok, MaxInt64 in Hm.
  split; simpl; try done; try (by intros [?|?]); try (destruct (Z.leb_spec (c_MaxAttempts request) 0); lia).
Qed.

(** The references of a new execution. *)
Definition ref_keys (e : Execution) : list Key :=
  (if is_empty (e_IdempotencyKey e) then []
   else [KIdempotency (idempotent_key (e_TaskName e) (e_IdempotencyKey e))]) ++
  match e_PipelineRunID e with
  | Some r => if is_empty (e_NodeKey e) then [] else [KNode r (e_NodeKey e)]
  | None => []
  end.

Lemma create_refs_keys e : create_refs prefix e = key_name prefix <$> ref_keys e.
Proof.
  unfold create_refs, ref_keys.
  by destruct (is_empty (e_IdempotencyKey e)), (e_PipelineRunID e), (is_empty (e_NodeKey e)).
Qed.

Lemma ref_keys_ref e : Forall (λ k, is_ref k = true) (ref_keys e).
Proof.
  unfold ref_keys. apply Forall_app_2; [by destruct (is_empty _); [|apply Forall_singleton]|].
  destruct (e_PipelineRunID e); [|done]. by destruct (is_empty _); [|apply Forall_singleton].
Qed.

(** The state in which an execution is created, and the one in which a stored one is found. *)
Definition creation (request : CreateExecutionRequest) (t : Time) (a : RStore) (r : error + Execution)
    (a' : RStore) : Prop :=
  ∃ id ev, execs a !! id = None ∧ find_existing (base a) request = None ∧
    r = inr (new_execution request id t) ∧ ev_Type ev = EventCreated ∧
    a' = insert_store a (new_execution request id t) ev.

Definition found (request : CreateExecutionRequest) (a : RStore) (r : error + Execution) (a' : RStore)
    : Prop :=
  ∃ a1 a2 id e, rely a a1 ∧ execs a1 !! id = Some e ∧ duplicate request e ∧ rely a1 a2 ∧ rely a2 a' ∧
    (r = read_execution a2 id ∨ Failed r).

Lemma refers_duplicate a request id t k id' :
  AInv a → k ∈ ref_keys (new_execution request id t) → refers a k = Some id' →
  ∃ e, execs a !! id' = Some e ∧ duplicate request e.
Proof.
  intros Ha Hk Hr. unfold ref_keys in Hk. apply elem_of_app in Hk as [Hk|Hk]; simpl in Hk.
  - destruct (is_empty (c_IdempotencyKey request)) eqn:He; [by apply elem_of_nil in Hk|].
    apply list_elem_of_singleton in Hk as ->. apply is_empty_false in He. simpl in Hr.
    apply (a_idem _ Ha) in Hr as (e & Hx & Hne & Heq). exists e. split; [done|]. by left.
  - destruct (c_PipelineRunID request) as [run|] eqn:Hrun; [|by apply elem_of_nil in Hk].
    destruct (is_empty (c_NodeKey request)) eqn:He; [by apply elem_of_nil in Hk|].
    apply list_elem_of_singleton in Hk as ->. apply is_empty_false in He. simpl in Hr.
    apply (a_node _ Ha) in Hr as (e & run' & Hx & Hrun' & Hne & Heq).
    apply node_key_inj in Heq as [-> Heq]. exists e. split; [done|]. right. exists run'. by rewrite Heq.
Qed.

Lemma refers_none a request id t :
  (∀ k, k ∈ ref_keys (new_execution request id t) → refers a k = None) →
  find_existing (base a) request = None.
Proof.
  intros Hk. unfold find_existing, ref_keys in *. simpl in *.
  destruct (is_empty (c_IdempotencyKey request)).
  - destruct (c_PipelineRunID request) as [run|]; [|done]. destruct (is_empty (c_NodeKey request)); [done|].
    apply (Hk (KNode run (c_NodeKey request))). by left.
  - pose proof (Hk (KIdempotency (idempotent_key (c_TaskName request) (c_IdempotencyKey request)))) as Hi.
    simpl in Hi. rewrite Hi by (by left). destruct (c_PipelineRunID request) as [run|]; [|done]. destruct (is_empty (c_NodeKey request)); [done|].
    apply (Hk (KNode run (c_NodeKey request))). set_solver.
Qed.

(** What the closure of [CreateExecution] returns. *)
Definition create_result (request : CreateExecutionRequest) (id : UUID) (t : Time) (a : RStore)
    (x : option error * UUID) (a' : RStore) : Prop :=
  match x.1 with
  | Some e => e = ErrExisting ∧ (∃ a1 e1, rely a a1 ∧ rely a1 a' ∧ execs a1 !! x.2 = Some e1 ∧ duplicate request e1) ∨
      (transport e ∨ e = contention) ∧ outcome (creation request t) a (inl e) a'
  | None => outcome (creation request t) a (inr (new_execution request id t)) a'
  end.

Lemma create_result_rely request id t a0 a x a' :
  rely a0 a → create_result request id t a x a' → create_result request id t a0 x a'.
Proof.
  intros Hr. unfold create_result. destruct x as [[e|] v]; simpl; [|by apply outcome_rely].
  intros [[-> (a1 & e1 & H1 & H2)]|[He Ho]]; [left|right].
  - split; [done|]. exists a1, e1. split; [by eapply rely_2|done].
  - split; [done|]. by eapply outcome_rely.
Qed.

Lemma create_commits request id t a w text event ev :
  request_valid request → clock_ok t → Rep prefix a (KS w) → reserved {[id]} (st w) →
  watching (ref_keys (new_execution request id t)) w → unset (ref_keys (new_execution request id t)) w →
  ev = mkEvent (ev_ID ev) id EventCreated 0 EmptyString t → event_ok ev →
  marshal_execution (new_execution request id t) = inr text → marshal_event ev = inr event →
  commits (create_cmds prefix (new_execution request id t)
    (create_refs prefix (new_execution request id t)) text event) w
    (λ a1 a', creation request t a1 (inr (new_execution request id t)) a').
Proof.
  intros Hrq Ht Ha Hres Hw Hu Hev Hevok Htext Hevent a1 ks Ha1 Hsize Hd Hks Hnew.
  set (item := new_execution request id t) in *.
  assert (∀ k, k ∈ ref_keys item → refers a1 k = None) as Hnone.
  { intros k Hk. assert (is_ref k = true) as Hrk
      by (pose proof (ref_keys_ref item) as H; rewrite Forall_forall in H; by apply H).
    pose proof (Rep_ref _ _ _ Ha1 Hrk) as Href. rewrite Hks, (Hu Hd k Hk) in Href.
    - by destruct (refers a1 k).
    - rewrite Hw. apply list_elem_of_fmap. eauto. }
  assert (find_existing (base a1) request = None) as Hfind by (by eapply refers_none).
  destruct (Hnew _ Hres id) as [Hid _]; [set_solver|].
  destruct (find_existing_None _ _ Hfind) as [Hi Hn].
  destruct (Rep_insert prefix a1 ks item ev text event) as (ks' & Happly & Ha'); try done.
  { split; simpl; try done; [by apply new_execution_json|by apply new_execution_item|].
    split; [by rewrite Hev|]. split; [by rewrite Hev|done]. }
  exists ks', (insert_store a1 item ev). split_and!; [done|done|]. exists id, ev.
  split_and!; [done|done|done|by rewrite Hev|done].
Qed.

Lemma create_closure_try request id t a w existing :
  request_valid request → clock_ok t → Rep prefix a (KS w) →
  watched (st w) = create_refs prefix (new_execution request id t) → reserved {[id]} (st w) →
  wp (create_closure prefix (new_execution request id t) (create_refs prefix (new_execution request id t)) t existing)
    (tries {[id]} (λ _ _, True) (create_result request id t) a) w.
Proof.
  intros Hrq Ht Ha Hw Hres. set (item := new_execution request id t) in *.
  unfold create_closure. rewrite create_refs_keys in *. apply wp_bind, wp_try.
  apply (wp_find_reference [] (ref_keys item) a); [apply ref_keys_ref|done|done|by intros _ k ?%elem_of_nil|..].
  - intros w1 a1 Hr Ha1 Hw1 Hres1 Hu1. specialize (Hres1 _ Hres).
    unfold returning. apply wp_bind, wp_try.
    destruct (execution_codec item (new_execution_json _ _ _ Hrq Ht)) as (enc & Henc & _). rewrite Henc.
    apply wp_bind, wp_ret. apply wp_bind.
    eapply (wp_encodeEvent a1 w1 id); [done|by apply new_execution_json|done|done|by apply clock_now_ok|].
    intros ev event w2 Hev Hevok Hm Hks Hwt Hres2 Hdirty.
    eapply (wp_exec _ a1 _ (λ a1 a', creation request t a1 (inr item) a')); [by rewrite Hks| | |].
    + rewrite <-create_refs_keys. eapply (create_commits request id t a1 w2 enc event ev); try done.
      * by rewrite Hks.
      * by apply Hres2.
      * unfold watching. by rewrite Hwt.
      * unfold unset in *. by rewrite Hks, Hdirty.
    + intros r w' a' Hr' Ha' Hres' Hc. pose proof (rely_2 _ _ _ Hr Hr') as Hr2. apply wp_ret.
      destruct Hc as [(e & -> & He)| ->]; eexists _, existing, a'; (split; [done|]); (split; [done|]).
      * right. split; [by apply (transport_not e)|]. right. split; [by left|].
        apply outcome_failed; [done|by exists e].
      * left. split_and!; [done|done|done|]. by apply Hres', Hres2.
    + intros r w' a2 a' Hr' Hcr Ha' Hc. pose proof (rely_2 _ _ _ Hr Hr') as Hr2. apply wp_ret.
      destruct Hc as [->|(e & -> & He)]; eexists _, existing, a'; (split; [done|]); (split; [done|]); right.
      * split; [done|]. eapply outcome_step; [done|done|apply rely_0].
      * split; [by apply (transport_not e)|]. right. split; [by left|].
        eapply outcome_lost; [done|done|apply rely_0|by exists e].
  - intros k id' w1 a1 Hr Ha1 Hk Href. apply wp_ret.
    destruct (refers_duplicate a1 request id t k id' (rep_inv _ _ _ Ha1) Hk Href) as (e1 & He1 & Hdup).
    eexists _, id', a1. split; [done|]. split; [done|]. right. split; [done|]. left. split; [done|].
    exists a1, e1. split_and!; [done|apply rely_0|done|done].
  - intros e w1 a1 Hr Ha1 He. apply wp_ret. eexists _, existing, a1. split; [done|]. split; [done|]. right.
    split; [by apply (transport_not e)|]. right. split; [by left|]. apply outcome_failed; [done|by exists e].
Qed.

(** Creation is atomic: the execution is new at one instant, at which no reference of the request is set;
    or a stored execution with a reference of the request was found and then read. *)
Lemma CreateExecution_atomic request a w :
  request_valid request → Rep prefix a (KS w) →
  wp (Redis.CreateExecution prefix request) (λ r w', ∃ t a', clock_ok t ∧ Rep prefix a' (KS w') ∧
    (outcome (creation request t) a r a' ∨ found request a r a')) w.
Proof.
  intros Hrq Ha. unfold Redis.CreateExecution.
  rewrite (proj2 (is_empty_false (c_TaskName request))) by apply Hrq.
  apply wp_bind. unfold redis_now. eapply wp_Time; [done|..]; cycle 1.
  { intros e w1 a1 (Hr & Ha1 & _) He. exists (2 ^ 63)%Z, a1.
    split_and!; [unfold clock_ok, Second; lia|done|]. left. apply outcome_failed; [done|by exists e]. }
  intros t w1 a1 (Hr1 & Ha1 & _) Ht. cbv zeta. apply wp_bind. eapply wp_uuid; [done|].
  intros id w2 Hid Hst Hres. cbv beta iota.
  assert (Rep prefix a1 (KS w2)) as Ha2 by (by rewrite Hst). unfold cloneUUID.
  change (mkExecution id _ _ _ _ _ _ _ _ _ _ _ _ _ _ _ _ _ _) with (new_execution request id t).
  apply wp_bind. unfold watch. eapply wp_mono; [eapply (wp_watch 16 _ _ (λ _ _, True) {[id]}
    (create_result request id t) a1)|]; try done.
  - intros a3 a4 x a5. apply create_result_rely.
  - intros a3 e v a4 Hr _ Hc. right. split; [done|].
    destruct Hc as [Hc| ->]; [apply outcome_failed; [done|by exists e]|by apply outcome_contention].
  - intros a3 v w3 _ Ha3 Hw3 Hres3. by apply create_closure_try.
  - intros r w3 ([err existing] & a3 & -> & Ha3 & Hc). unfold create_result in Hc. simpl in Hc.
    destruct err as [e|]; cycle 1.
    { apply wp_ret. exists t, a3. split_and!; [done|done|]. left. by eapply outcome_rely. }
    destruct Hc as [[-> (a4 & e4 & H1 & H2 & H3 & H4)]|[He Ho]].
    + simpl errors_Is. cbv iota. assert (rely a a4) as H0 by (by eapply rely_2).
      eapply wp_GetExecution; [done|..].
      * intros w4 a5 (Hr5 & Ha5 & _). exists t, a5. split_and!; [done|done|]. right.
        exists a4, a5, existing, e4.
        split_and!; [done|done|done|by eapply rely_2|apply rely_0|by left].
      * intros e w4 a5 (Hr5 & Ha5 & _) He. exists t, a5. split_and!; [done|done|]. right.
        exists a4, a5, existing, e4.
        split_and!; [done|done|done|by eapply rely_2|apply rely_0|right; by exists e].
    + assert (errors_Is e ErrExisting = false) as -> by (destruct He as [He| ->]; [by apply (transport_not e)|done]).
      apply wp_throw. exists t, a3. split_and!; [done|done|]. left. by eapply outcome_rely.
Qed.

(** ** Pipeline runs *)

Lemma wp_GetPipelineRun id a w (Q : error + PipelineRun → W → Prop) :
  Rep prefix a (KS w) →
  (∀ w' a', after_read a w a' w' → Q (read_run a' id) w') →
  (∀ e w' a', after_read a w a' w' → transport e → Q (inl e) w') →
  wp (RedisRuns.GetPipelineRun prefix id) Q w.
Proof. exact (wp_getRunTx id a w Q). Qed.

(** The run that a change of state stores: a state that is not final has no end. *)
Definition moved_run (t : Time) (status : RunStatus) (text : string) (run : PipelineRun) : PipelineRun :=
  run <| r_Status := status |> <| r_Error := text |> <| r_UpdatedAt := t |>
      <| r_Revision := uint64 (r_Revision run + 1) |>
      <| r_FinishedAt := if is_run_terminal status then Some t else None |>.

Definition status_step (id : UUID) (revision : Z) (status : RunStatus) (text : string) (t : Time)
    (a : RStore) (r : error + unit) (a' : RStore) : Prop :=
  match runs a !! id with
  | None => r = inl (ErrNotFound : error) ∧ a' = a
  | Some run =>
      if (r_Revision run =? revision)%Z
      then r = inr tt ∧ a' = put_run_store a id (moved_run t status text run)
      else r = inl (ErrConflict : error) ∧ a' = a
  end.

Lemma moved_run_ok t status text run :
  clock_ok t → RunItemOk run → same_run run (moved_run t status text run) ∧
  RunItemOk (moved_run t status text run).
Proof.
  intros Ht [H1 H2 H3 H4 H5 H6 H7]. pose proof (clock_now_ok _ Ht). split; [by repeat split|].
  split; simpl; try done.
  - apply uint64_bounds.
  - by destruct (is_run_terminal status).
  - by destruct (is_run_terminal status).
Qed.

Lemma SetPipelineRunStatus_atomic id revision status text a w :
  Rep prefix a (KS w) →
  wp (RedisRuns.SetPipelineRunStatus prefix id revision status text) (λ r w', ∃ t a', clock_ok t ∧
    Rep prefix a' (KS w') ∧ outcome (status_step id revision status text t) a r a') w.
Proof.
  intros Ha. apply (wp_timed _ (status_step id revision status text)); [done|]. intros t a1 w1 Ht Ha1.
  apply (wp_watch_value _ _ ∅); [|done|apply reserved_empty]. intros a2 w2 Ha2 Hw2 _.
  apply wp_bind. eapply wp_getRunTx; [done|..].
  - intros w3 a3 (Hr & Ha3 & Hw3 & _ & _). unfold read_run.
    destruct (runs a3 !! id) as [run|] eqn:Hrun; cycle 1.
    { eapply attempt_rely; [done|]. apply attempt_error; [done| |done]. unfold status_step. by rewrite Hrun. }
    destruct (r_Revision run =? revision)%Z eqn:Hrev; cbn [negb].
    + assert (bool_decide (status = RunSucceeded) || bool_decide (status = RunFailed)
        || bool_decide (status = RunCancelled) = is_run_terminal status) as Hterm by (by destruct status).
      rewrite Hterm. clear Hterm. cbv zeta. fold (moved_run t status text run).
      destruct (a_run _ (rep_inv _ _ _ Ha3) _ _ Hrun) as [Hid Hok].
      destruct (moved_run_ok t status text run Ht Hok) as [Hsame Hok'].
      eapply (wp_exec _ a3 _ (λ b b', runs b !! id = Some run ∧ b' = put_run_store b id (moved_run t status text run)));
        [done|..].
      * intros b ks Hb Hsize _ Hks _. assert (runs b !! id = Some run) as Hrb.
        { rewrite <-Hrun. eapply (Rep_run_eq); [exact Ha3|exact Hb|]. apply Hks. rewrite Hw3, Hw2. left. }
        destruct (Rep_put_run prefix b ks id run (moved_run t status text run)) as (ks' & Happly & Hb');
          [done..|]. eauto 6.
      * intros r w' a' Hr' Ha' Hres [Hf| ->]; (eapply attempt_rely; [done|]).
        -- by eapply attempt_failed.
        -- eapply attempt_refused; [done|done|apply reserved_empty].
      * intros r w' b b' Hr' [Hrb ->] Hb' Hrr. eapply attempt_rely; [done|].
        eapply attempt_done; [done| |done|done]. unfold status_step. by rewrite Hrb, Hrev.
    + apply wp_throw. eapply attempt_rely; [done|]. apply attempt_error; [done| |done].
      unfold status_step. by rewrite Hrun, Hrev.
  - intros e w3 a3 (Hr & Ha3 & _) He. eapply attempt_failed; [done|done|by exists e].
Qed.

(** *** [CreatePipelineRun] *)

Record run_request_valid (request : CreatePipelineRunRequest) : Prop := {
  rr_version : int_ok (cr_PipelineVersion request);
  rr_input : ∃ s, cr_Input request = Some s ∧ s ≠ EmptyString;
}.

Definition run_creation (request : CreatePipelineRunRequest) (t : Time) (a : RStore)
    (r : error + PipelineRun) (a' : RStore) : Prop :=
  ∃ id, runs a !! id = None ∧ find_existing_run (base a) request = None ∧
    r = inr (new_run request id t) ∧ a' = insert_run_store a (new_run request id t).

(** A stored run with the idempotency key of the request was found and then read. *)
Definition run_found (request : CreatePipelineRunRequest) (a : RStore) (r : error + PipelineRun)
    (a' : RStore) : Prop :=
  ∃ a1 a2 id, rely a a1 ∧ find_existing_run (base a1) request = Some id ∧ rely a1 a2 ∧ rely a2 a' ∧
    (r = read_run a2 id ∨ Failed r).

Lemma new_run_ok request id t :
  run_request_valid request → clock_ok t → RunItemOk (new_run request id t).
Proof.
  intros [Hv (s & Hi & Hs)] Ht. pose proof (clock_now_ok _ Ht). split; simpl; try done.
  exists s. rewrite Hi. split; [by destruct s|done].
Qed.

Definition create_run_result (request : CreatePipelineRunRequest) (id : UUID) (t : Time) (a : RStore)
    (x : option error * UUID) (a' : RStore) : Prop :=
  match x.1 with
  | Some e => e = ErrExisting ∧
      (∃ a1, rely a a1 ∧ rely a1 a' ∧ find_existing_run (base a1) request = Some x.2) ∨
      (transport e ∨ e = contention) ∧ outcome (run_creation request t) a (inl e) a'
  | None => outcome (run_creation request t) a (inr (new_run request id t)) a'
  end.

Lemma create_run_result_rely request id t a0 a x a' :
  rely a0 a → create_run_result request id t a x a' → create_run_result request id t a0 x a'.
Proof.
  intros Hr. unfold create_run_result. destruct x as [[e|] v]; simpl; [|by apply outcome_rely].
  intros [[-> (a1 & H1 & H2)]|[He Ho]]; [left|right].
  - split; [done|]. exists a1. split; [by eapply rely_2|done].
  - split; [done|]. by eapply outcome_rely.
Qed.

Definition run_ref_keys (r : PipelineRun) : list Key :=
  if is_empty (r_IdempotencyKey r) then []
  else [KRunIdempotency (idempotent_key (r_PipelineName r) (r_IdempotencyKey r))].

Lemma run_refs_keys r : run_refs prefix r = key_name prefix <$> run_ref_keys r.
Proof. unfold run_refs, run_ref_keys. by destruct (is_empty (r_IdempotencyKey r)). Qed.

Lemma wp_find_run_reference keys a w (Q : error + option UUID → W → Prop) :
  Forall (λ k, is_ref k = true) keys → length keys ≤ 1 → Rep prefix a (KS w) → watching keys w →
  (∀ w' a', rely a a' → Rep prefix a' (KS w') → watching keys w' →
     (∀ ids, reserved ids (st w) → reserved ids (st w')) → unset keys w' → Q (inr None) w') →
  (∀ k id w' a', rely a a' → Rep prefix a' (KS w') → k ∈ keys → refers a' k = Some id → Q (inr (Some id)) w') →
  (∀ e w' a', rely a a' → Rep prefix a' (KS w') → transport e → Q (inl e) w') →
  wp (find_run_reference (key_name prefix <$> keys)) Q w.
Proof.
  intros Hk Hlen Ha Hw HQ1 HQ2 HQ3. destruct keys as [|k [|]]; simpl in Hlen; [|clear Hlen|lia].
  { apply wp_ret. apply (HQ1 w a); [apply rely_0|done..|by intros _ k ?%elem_of_nil]. }
  apply Forall_inv in Hk. cbv beta in Hk. rewrite list_fmap_singleton. cbn [find_run_reference]. apply wp_bind, wp_try.
  eapply wp_get_ref; [done|done|..].
  - intros w1 a1 Hp. pose proof Hp as (Hr & Ha1 & Hw1 & Hres & _).
    destruct (refers a1 k) as [id|] eqn:Href; cbn beta iota.
    + rewrite uuid_Parse_String. apply wp_bind, wp_ret, wp_ret. eapply HQ2; [done|done|left|done].
    + simpl errors_Is. cbv iota. apply wp_ret. eapply HQ1; [done|done| |done|by eapply unset_none].
      unfold watching. by rewrite Hw1.
  - intros e w1 a1 (Hr & Ha1 & _) Ht. cbn beta iota. rewrite (transport_not e) by done.
    apply wp_throw. by eapply HQ3.
Qed.

Lemma create_run_closure_try request id t a w existing :
  run_request_valid request → clock_ok t → Rep prefix a (KS w) →
  watched (st w) = run_refs prefix (new_run request id t) → reserved {[id]} (st w) →
  wp (create_run_closure prefix (new_run request id t) (run_refs prefix (new_run request id t)) existing)
    (tries {[id]} (λ _ _, True) (create_run_result request id t) a) w.
Proof.
  intros Hrq Ht Ha Hw Hres. set (run := new_run request id t) in *.
  unfold create_run_closure. rewrite run_refs_keys in *. apply wp_bind, wp_try.
  assert (∀ b k v, k ∈ run_ref_keys run → refers b k = v → find_existing_run (base b) request = v) as Hfind.
  { intros b k v. unfold run_ref_keys, find_existing_run. simpl.
    destruct (is_empty (cr_IdempotencyKey request)); [by intros ?%elem_of_nil|].
    by intros ->%list_elem_of_singleton. }
  assert (Forall (λ k, is_ref k = true) (run_ref_keys run) ∧ length (run_ref_keys run) ≤ 1) as [Hrk Hlen].
  { unfold run_ref_keys. destruct (is_empty _); [by split; [|simpl; lia]|]. split; [by apply Forall_singleton|simpl; lia]. }
  apply (wp_find_run_reference (run_ref_keys run) a); [done|done|done|done|..].
  - intros w1 a1 Hr Ha1 Hw1 Hres1 Hu1. specialize (Hres1 _ Hres). unfold returning. apply wp_bind, wp_try.
    eapply (wp_exec _ a1 _ (λ b b', run_creation request t b (inr run) b')); [done|..].
    + intros b ks Hb Hsize Hd Hks Hnew. rewrite <-run_refs_keys.
      assert (find_existing_run (base b) request = None) as Hnone.
      { destruct (run_ref_keys run) as [|k] eqn:Hrun.
        - unfold find_existing_run. unfold run_ref_keys in Hrun. simpl in Hrun.
          by destruct (is_empty (cr_IdempotencyKey request)).
        - apply (Hfind b k); [left|]. assert (k ∈ k :: l) as Hin by left.
          assert (is_ref k = true) as Hik by (rewrite Forall_forall in Hrk; by apply Hrk).
          pose proof (Rep_ref _ _ _ Hb Hik) as Href. rewrite Hks, (Hu1 Hd k Hin) in Href.
          + by destruct (refers b k).
          + rewrite Hw1. apply list_elem_of_fmap. eauto. }
      destruct (Hnew _ Hres1 id) as [_ Hid]; [set_solver|].
      destruct (Rep_insert_run prefix b ks run) as (ks' & Happly & Hb'); [done|done| |].
      { split; [done|by apply new_run_ok|]. intros Hne%is_empty_false. unfold find_existing_run in Hnone.
        simpl in Hne. by rewrite Hne in Hnone. }
      exists ks', (insert_run_store b run). split_and!; [done|done|]. by exists id.
    + intros r w' a' Hr' Ha' Hres' Hc. pose proof (rely_2 _ _ _ Hr Hr') as Hr2. apply wp_ret.
      destruct Hc as [(e & -> & He)| ->]; eexists _, existing, a'; (split; [done|]); (split; [done|]).
      * right. split; [by apply (transport_not e)|]. right. split; [by left|].
        apply outcome_failed; [done|by exists e].
      * left. split_and!; [done|done|done|]. by apply Hres'.
    + intros r w' a2 a' Hr' Hcr Ha' Hc. pose proof (rely_2 _ _ _ Hr Hr') as Hr2. apply wp_ret.
      destruct Hc as [->|(e & -> & He)]; eexists _, existing, a'; (split; [done|]); (split; [done|]); right.
      * split; [done|]. eapply outcome_step; [done|done|apply rely_0].
      * split; [by apply (transport_not e)|]. right. split; [by left|].
        eapply outcome_lost; [done|done|apply rely_0|by exists e].
  - intros k id' w1 a1 Hr Ha1 Hk Href. apply wp_ret.
    eexists _, id', a1. split; [done|]. split; [done|]. right. split; [done|]. left. split; [done|].
    exists a1. split_and!; [done|apply rely_0|by eapply Hfind].
  - intros e w1 a1 Hr Ha1 He. apply wp_ret. eexists _, existing, a1. split; [done|]. split; [done|]. right.
    split; [by apply (transport_not e)|]. right. split; [by left|]. apply outcome_failed; [done|by exists e].
Qed.

Lemma CreatePipelineRun_atomic request a w :
  run_request_valid request → Rep prefix a (KS w) →
  wp (RedisRuns.CreatePipelineRun prefix request) (λ r w', ∃ t a', clock_ok t ∧ Rep prefix a' (KS w') ∧
    (outcome (run_creation request t) a r a' ∨ run_found request a r a')) w.
Proof.
  intros Hrq Ha. unfold RedisRuns.CreatePipelineRun.
  apply wp_bind. unfold redis_now. eapply wp_Time; [done|..]; cycle 1.
  { intros e w1 a1 (Hr & Ha1 & _) He. exists (2 ^ 63)%Z, a1.
    split_and!; [unfold clock_ok, Second; lia|done|]. left. apply outcome_failed; [done|by exists e]. }
  intros t w1 a1 (Hr1 & Ha1 & _) Ht. cbv zeta. apply wp_bind. eapply wp_uuid; [done|].
  intros id w2 Hid Hst Hres. cbv beta iota.
  assert (Rep prefix a1 (KS w2)) as Ha2 by (by rewrite Hst).
  change (mkPipelineRun id _ _ _ _ _ _ _ _ _ _) with (new_run request id t).
  fold (run_refs prefix (new_run request id t)).
  apply wp_bind. unfold watch. eapply wp_mono; [eapply (wp_watch 16 _ _ (λ _ _, True) {[id]}
    (create_run_result request id t) a1)|]; try done.
  - intros a3 a4 x a5. apply create_run_result_rely.
  - intros a3 e v a4 Hr _ Hc. right. split; [done|].
    destruct Hc as [Hc| ->]; [apply outcome_failed; [done|by exists e]|by apply outcome_contention].
  - intros a3 v w3 _ Ha3 Hw3 Hres3. by apply create_run_closure_try.
  - intros r w3 ([err existing] & a3 & -> & Ha3 & Hc). unfold create_run_result in Hc. simpl in Hc.
    destruct err as [e|]; cycle 1.
    { apply wp_ret. exists t, a3. split_and!; [done|done|]. left. by eapply outcome_rely. }
    destruct Hc as [[-> (a4 & H1 & H2 & H3)]|[He Ho]].
    + simpl errors_Is. cbv iota. assert (rely a a4) as H0 by (by eapply rely_2).
      eapply wp_GetPipelineRun; [done|..].
      * intros w4 a5 (Hr5 & Ha5 & _). exists t, a5. split_and!; [done|done|]. right. exists a4, a5, existing.
        split_and!; [done|done|by eapply rely_2|apply rely_0|by left].
      * intros e w4 a5 (Hr5 & Ha5 & _) He. exists t, a5. split_and!; [done|done|]. right.
        exists a4, a5, existing.
        split_and!; [done|done|by eapply rely_2|apply rely_0|right; by exists e].
    + assert (errors_Is e ErrExisting = false) as -> by (destruct He as [He| ->]; [by apply (transport_not e)|done]).
      apply wp_throw. exists t, a3. split_and!; [done|done|]. left. by eapply outcome_rely.
Qed.
End Create.
