(* ===== verification/RedisDelivery.v ===== *)
(** * Delivery under interference

    [Claim] and [ReapExpired] of the Redis store: candidates are read from an index, then claimed or
    failed one at a time.  What happens between the two phases is the business of other clients: a
    candidate that was lost is skipped, and every execution that is returned was claimable at the instant
    it was claimed. *)

From S2P Require Import Prelude GoLib GoText Model Memory MemoryInv StoreSpec.
From S2P Require Import RedisKeys RedisServer Redis RedisRuns RedisOps RedisRep RedisCommit RedisItems.
From S2P Require Import RedisRecords RedisTx RedisSteps RedisLin.

(** Other clients neither remove a record nor change what identifies it. *)
Class Retention (W : Type) `{!Server W} : Prop := {
  rely_retains : ∀ a a' id e, srv_rely a a' → execs a !! id = Some e →
    ∃ e', execs a' !! id = Some e' ∧ same_identity e e';
  rely_retains_run : ∀ a a' id r, srv_rely a a' → runs a !! id = Some r →
    ∃ r', runs a' !! id = Some r' ∧ same_run r r';
}.

(** ** Reads of an index *)

Section Reads.
Context `{E : GoEnv} {HE : GoEnvOk}.

Lemma elem_of_zset_entries z p : p ∈ zset_entries z ↔ z !! p.1 = Some p.2.
Proof. unfold zset_entries. rewrite elem_of_sort_Slice. destruct p. apply elem_of_map_to_list. Qed.

Lemma elem_of_zrange z m : m ∈ zrange z ↔ is_Some (z !! m).
Proof.
  unfold zrange. rewrite list_elem_of_fmap. split.
  - intros ([m' s] & -> & Hp). apply elem_of_zset_entries in Hp. by eexists.
  - intros [s Hs]. exists (m, s). split; [done|]. by apply elem_of_zset_entries.
Qed.

Lemma zrange_by_score_due z max count m :
  m ∈ zrange_by_score z max count → ∃ s, z !! m = Some s ∧ (s ≤ max)%Z.
Proof.
  intros Hm. assert (m ∈ (List.filter (λ p : string * Z, (p.2 <=? max)%Z) (zset_entries z)).*1) as Hin.
  { unfold zrange_by_score in Hm. destruct (count =? 0)%Z; [done|].
    eapply (subseteq_take (Z.to_nat count)); done. }
  apply list_elem_of_fmap in Hin as ([m' s] & -> & Hp). apply list_elem_of_In, filter_In in Hp as [Hp Hs].
  apply list_elem_of_In, elem_of_zset_entries in Hp. exists s. split; [done|]. by apply Z.leb_le in Hs.
Qed.

Lemma NoDup_zrange z : NoDup (zrange z).
Proof.
  unfold zrange, zset_entries. rewrite sort_Slice_perm. apply NoDup_fst_map_to_list.
Qed.
End Reads.

Section Delivery.
Context `{E : GoEnv} {HE : GoEnvOk} {C : Codec} {HC : CodecOk}.
Context {W : Type} `{!RedisClient W} `{!Process W} {SV : Server W} {HS : ServerOk W}.

Abbreviation prefix := (srv_prefix (W := W)).
Abbreviation st := (srv_state (W := W)).
Abbreviation transport := (srv_transport (W := W)).
Abbreviation rely := (srv_rely (W := W)).
Abbreviation Failed := (failed transport).
Abbreviation outcome := (RedisTx.outcome (W := W)).
Abbreviation reserved := (RedisTx.reserved (W := W)).
Abbreviation KS w := (keyspace (st w)).

(** ** One candidate *)

Lemma can_claim_claimable keys t e : can_claim keys t e = claimable keys t e.
Proof.
  unfold can_claim, claimable, accepted_key.
  destruct (bool_decide (mkTaskKey _ _ ∈ keys)), (After (e_AvailableAt e) t),
    (e_MaxAttempts e <=? e_Attempt e)%Z, (After (e_LeaseUntil e) t), (e_Status e); done.
Qed.

Lemma claim_valid keys owner lease token t e ch :
  json_ok e → ItemOk e → clock_ok t → text_ok owner → int_ok lease → token ≠ uuid_Nil →
  claim_change keys owner lease token t e = inr ch → valid_change e ch.
Proof.
  intros Hj Hok Ht Ho Hl Htok. unfold claim_change. destruct (claimable keys t e) eqn:Hc; [|done].
  intros [= <-]. apply claimable_spec in Hc as (_ & _ & Hst & _ & Hatt).
  pose proof (clock_time_ok _ _ Ht Hl) as Huntil. pose proof (clock_now_ok _ Ht) as Hnow.
  assert (int64 (e_Attempt e + 1) = e_Attempt e + 1)%Z as Hint.
  { apply int64_id. destruct Hok, Hj. unfold int_ok, MaxInt64 in *. lia. }
  assert (is_active (e_Status e) = true) as Hact by (destruct (e_Status e); naive_solver).
  split; simpl; [by repeat split|..].
  - destruct Hj; split; simpl; try done.
    + rewrite Hint. destruct Hok. unfold int_ok, MaxInt64 in *. lia.
    + by destruct (e_StartedAt e).
  - pose proof (it_finished _ Hok) as [_ Hf]. destruct Hok; split; simpl; rewrite ?Hint; try done; try lia; try (by intros [?|?]).
    + by destruct (e_StartedAt e).
    + split; [done|]. intros Hx%Hf. by destruct (e_Status e).
  - split_and!; [by constructor|done|done].
Qed.

(** The execution [id] is claimed with a fresh token, or is not available. *)
Definition claim_step (keys : list TaskKey) (owner : string) (lease : Duration) (t : Time) (id : UUID)
    (a : RStore) (r : error + Execution) (a' : RStore) : Prop :=
  (∀ e, r = inl e → a' = a) ∧ (∀ e, r = inr e → e_ID e = id) ∧
  ∃ token, token ≠ uuid_Nil ∧
    item_step id (claim_change keys owner lease token t) (λ e, e) (base a) r (base a').

Lemma redis_claim_attempt keys owner lease t id a w :
  clock_ok t → text_ok owner → int_ok lease → Rep prefix a (KS w) →
  watched (st w) = [executionKey prefix id] →
  wp (item ← getExecutionTx prefix id;
      if negb (can_claim keys t item) then throw ErrUnavailable else
      let previous := e_Status item in
      token ← process_uuid;
      let item := item <| e_Status := StatusRunning |>
        <| e_Attempt := int64 (e_Attempt item + 1) |> <| e_LeaseOwner := owner |>
        <| e_LeaseToken := token |> <| e_LeaseUntil := Add t lease |>
        <| e_StartedAt := match e_StartedAt item with None => Some t | started => started end |> in
      _ ← saveTransition prefix item previous EventStarted EmptyString t true;
      mret item) (attempt ∅ (claim_step keys owner lease t id) a) w.
Proof.
  intros Ht Hown Hl Ha Hw. apply wp_item_body; [done|done|apply reserved_empty|..].
  { intros b Hb. split; [done|]. split; [done|]. exists 1%N. split; [done|]. unfold item_step. by rewrite Hb. }
  intros a1 w1 e Ha1 Hw1 _ He1. rewrite can_claim_claimable.
  destruct (claimable keys t e) eqn:Hc; cbn [negb]; cycle 1.
  { apply wp_throw, attempt_error; [done| |done]. split; [done|]. split; [done|]. exists 1%N. split; [done|].
    unfold item_step. rewrite He1. unfold claim_change. by rewrite Hc. }
  cbv zeta. apply wp_bind. eapply wp_uuid; [done|]. intros token w2 Htok Hst _. cbv beta iota.
  change (set_field e_StartedAt _ _) with (claimed_execution owner lease t token e).
  set (e' := claimed_execution owner lease t token e).
  set (ch := mkChange e' (Some (EventStarted, EmptyString))).
  assert (claim_change keys owner lease token t e = inr ch) as Hch by (unfold claim_change; by rewrite Hc).
  destruct (a_item _ (rep_inv _ _ _ Ha1) _ _ He1) as (_ & Hj & Hok).
  apply wp_bind. eapply (wp_saveTransition a1 w2 id e e'); [by rewrite Hst|by rewrite Hst|done| |by apply clock_now_ok|done|..].
  - by eapply (claim_valid keys owner lease token t).
  - intros r w' a' Hr Ha' _ [(x & -> & Hx)| ->].
    + eapply attempt_failed; [done|done|by exists x].
    + eapply attempt_refused; [done|done|apply reserved_empty].
  - intros r w' a2 evs Hr He2 Hlogs Ha' Hrr.
    assert (claim_step keys owner lease t id a2 (inr e') (commit a2 id e' (log a2 id ++ evs))) as Hstep.
    { split; [done|]. split; [intros x [= <-]; simpl; by apply (a_item _ (rep_inv _ _ _ Ha1))|].
      exists token. split; [done|]. unfold item_step. rewrite He2, Hch. eauto. }
    destruct Hrr as [->|(x & -> & Hx)]; [apply wp_ret|]; (eapply attempt_done; [done|done|done|]);
      [by left|right; by exists x].
Qed.

(** What [claimCandidate] did when it returned. *)
Definition claim_result (keys : list TaskKey) (owner : string) (lease : Duration) (t : Time) (id : UUID)
    (a : RStore) (r : error + option Execution) (a' : RStore) : Prop :=
  match r with
  | inr (Some e) => ∃ a1 a2, rely a a1 ∧ claim_step keys owner lease t id a1 (inr e) a2 ∧ rely a2 a'
  | inr None => rely a a'
  | inl e => (transport e ∨ e = contention) ∧
      (rely a a' ∨ ∃ a1 a2 x, rely a a1 ∧ claim_step keys owner lease t id a1 (inr x) a2 ∧ rely a2 a')
  end.

Lemma claim_step_error keys owner lease t id a e a' :
  claim_step keys owner lease t id a (inl e) a' →
  (e = ErrNotFound ∨ e = ErrUnavailable) ∧ a' = a.
Proof.
  intros (Heq & _ & token & _ & Hs). specialize (Heq _ eq_refl). unfold item_step in Hs. destruct (execs a !! id) as [x|]; [|naive_solver].
  unfold claim_change in Hs. destruct (claimable keys t x); [by destruct Hs|naive_solver].
Qed.

Lemma claimCandidate_atomic keys owner lease t id a w :
  clock_ok t → text_ok owner → int_ok lease → Rep prefix a (KS w) →
  wp (claimCandidate prefix id owner keys lease t)
    (λ r w', ∃ a', Rep prefix a' (KS w') ∧ claim_result keys owner lease t id a r a') w.
Proof.
  intros Ht Hown Hl Ha. unfold claimCandidate. apply wp_bind. eapply wp_mono.
  { eapply (wp_watch_assigning _ _ ∅ (claim_step keys owner lease t id)); [|done|apply reserved_empty].
    intros b w1 Hb Hw1 _. by apply redis_claim_attempt. }
  intros r w' ([err x] & a' & -> & Ha' & Ho). simpl in Ho. destruct err as [e|]; cycle 1.
  - apply wp_ret. exists a'. split; [done|]. destruct Ho as [a1 a2 H1 H2 H3|? [=]|? (? & [=] & _)|? ? ? ? ? ? (? & [=] & _)].
    by exists a1, a2.
  - destruct Ho as [a1 a2 H1 H2 H3|H1 [= ->]|H1 (? & [= <-] & He)|a1 a2 y H1 H2 H3 (? & [= <-] & He)].
    + apply claim_step_error in H2 as [Hcase ->].
      assert (errors_Is e ErrUnavailable || errors_Is e ErrNotFound = true) as -> by (by destruct Hcase as [-> | ->]).
      apply wp_ret. exists a'. split; [done|]. simpl. by eapply rely_2.
    + apply wp_throw. exists a'. split; [done|]. split; [by right|by left].
    + rewrite !(transport_not e) by done. apply wp_throw. exists a'. split; [done|]. split; [by left|by left].
    + rewrite !(transport_not e) by done. apply wp_throw. exists a'. split; [done|]. split; [by left|].
      right. by exists a1, a2, y.
Qed.

(** ** Candidates *)

(** A read of an index of executions. *)
Lemma wp_index {A} (m : M W A) k (f : gmap string Z → A) a w (Q : error + A → W → Prop) :
  is_index k = true →
  reads prefix st (srv_others (W := W)) transport m (λ ks, (λ z, inr (f z)) <$> as_zset (ks !! key_name prefix k)) →
  Rep prefix a (KS w) →
  (∀ w' a', after_read a w a' w' → Q (inr (f (members (index (leased a') k) (execs a')))) w') →
  (∀ e w' a', after_read a w a' w' → transport e → Q (inl e) w') →
  wp m Q w.
Proof.
  intros Hk Hm Ha HQ1 HQ2. eapply (wp_read _ _ a); [exact Hm|done|].
  intros r w' a' Hp [(e & -> & Ht)|Hr]; [by eapply HQ2|]. pose proof Hp as (_ & Ha' & _).
  assert (KS w' !! key_name prefix k = zset_value (members (index (leased a') k) (execs a'))) as Hz
    by (pose proof (rep_key _ _ _ Ha' k) as H; by destruct k).
  rewrite Hz, as_zset_value in Hr. rewrite (Hr _ eq_refl). by apply HQ1.
Qed.

(** Printed identifiers of stored executions. *)
Definition stored (a : RStore) (values : list string) : Prop :=
  Forall (λ v, ∃ id, v = uuid_String id ∧ is_Some (execs a !! id)) values.

Lemma stored_members a k (values : list string) :
  (∀ v, v ∈ values → is_Some (members (index (leased a) k) (execs a) !! v)) → stored a values.
Proof.
  intros Hv. apply Forall_forall. intros v Hin. destruct (Hv v Hin) as [z Hz].
  apply members_Some in Hz as (id & e & -> & He & _). exists id. split; [done|]. by exists e.
Qed.

(** ** Reaping one candidate *)

(** Failures of expired final attempts and removals of lease entries, one after the other. *)
Inductive reaps (t : Time) : RStore → list Execution → RStore → Prop :=
  | reaps_nil a a' : rely a a' → reaps t a [] a'
  | reaps_fail a a1 a' id e evs l :
      rely a a1 → execs a1 !! id = Some e → expired t e = true →
      logs id (mkChange (reaped_execution t e) (Some (EventFailed, lease_expired_text))) evs →
      reaps t (commit a1 id (reaped_execution t e) (log a1 id ++ evs)) l a' → reaps t a (e :: l) a'
  | reaps_unlease a a1 a' id l :
      rely a a1 → recoverable a1 id → reaps t (unlease a1 id) l a' → reaps t a l a'.

Lemma reaps_rely t a0 a l a' : rely a0 a → reaps t a l a' → reaps t a0 l a'.
Proof.
  intros Hr. destruct 1.
  - apply reaps_nil. by eapply rely_2.
  - eapply reaps_fail; [by eapply rely_2|done..].
  - eapply reaps_unlease; [by eapply rely_2|done..].
Qed.

Lemma reaps_app t a l a1 l' a' : reaps t a l a1 → reaps t a1 l' a' → reaps t a (l ++ l') a'.
Proof.
  intros H H'. induction H; simpl.
  - by eapply reaps_rely.
  - eapply reaps_fail; eauto.
  - eapply reaps_unlease; eauto.
Qed.

Lemma reap_valid t e :
  json_ok e → ItemOk e → clock_ok t → expired t e = true →
  valid_change e (mkChange (reaped_execution t e) (Some (EventFailed, lease_expired_text))).
Proof.
  intros Hj Hok Ht Hx. apply expired_spec in Hx as (Hst & _ & Hatt). pose proof (clock_now_ok _ Ht) as Hnow.
  pose proof (it_attempt _ Hok) as Hb.
  split; simpl; [by repeat split|..].
  - destruct Hj; split; simpl; try done; unfold int_ok, MaxInt64 in *; lia.
  - destruct Hok; split; simpl; try done; try (by intros [?|?]).
  - rewrite Hst. split_and!; [constructor|done|done].
Qed.

(** The captured pipeline run is that of an execution that was expired after [a0]. *)
Definition reap_var (t : Time) (id : UUID) (a0 a : RStore) (v : option UUID) : Prop :=
  rely a0 a ∧ (v = None ∨ ∃ b e, rely a0 b ∧ execs b !! id = Some e ∧ expired t e = true ∧
                 e_PipelineRunID e = v).

Definition reap_result (t : Time) (id : UUID) (a0 a : RStore) (x : option error * option UUID)
    (a' : RStore) : Prop :=
  ∃ l, reaps t a l a' ∧
    match x.1 with
    | None => reap_var t id a0 a0 x.2 ∧ ∀ e, e ∈ l → e_PipelineRunID e = x.2
    | Some e => e = ErrUnavailable ∧ l = [] ∨ transport e ∨ e = contention
    end.

(** The entry of the lease index is removed while the execution is as it was read. *)
Lemma wp_removeLeaseIndex t id a0 a w (v : option UUID) :
  Rep prefix a (KS w) → watched (st w) = [executionKey prefix id] → recoverable a id →
  reap_var t id a0 a v →
  wp (returning (removeLeaseIndex prefix id) v) (tries ∅ (reap_var t id a0) (reap_result t id a0) a) w.
Proof.
  intros Ha Hw Hrec Hv. unfold returning. apply wp_bind, wp_try.
  eapply (wp_exec _ a w (λ b b', recoverable b id ∧ b' = unlease b id)); [done|..].
  - intros b ks Hb Hsize _ Hks _. assert (recoverable b id) as Hrb.
    { assert (execs b !! id = execs a !! id) as Heq.
      { eapply Rep_exec_eq; [exact Ha|exact Hb|]. apply Hks. rewrite Hw. left. }
      intros e He. apply Hrec. by rewrite <-Heq. }
    destruct (Rep_unlease prefix b ks id) as (ks' & Happly & Hb'); [done|done|]. eauto 6.
  - intros r w' a' Hr Ha' Hres Hc. apply wp_ret.
    destruct Hc as [(e & -> & He)| ->]; eexists _, v, a'; (split; [done|]); (split; [done|]).
    + right. split; [by apply (transport_not e)|]. exists []. split; [by apply reaps_nil|]. right. by left.
    + left. split_and!; [done|done| |apply reserved_empty]. destruct Hv as [Hr0 Hv]. split; [by eapply rely_2|done].
  - intros r w' b a' Hr [Hrb ->] Ha' Hc. apply wp_ret.
    assert (reaps t a [] (unlease b id)) as Hreaps.
    { eapply reaps_unlease; [done|done|]. apply reaps_nil, rely_0. }
    destruct Hc as [->|(e & -> & He)]; eexists _, v, _; (split; [done|]); (split; [done|]); right.
    + split; [done|]. exists []. split; [done|]. split; [|by intros e ?%elem_of_nil].
      destruct Hv as [_ Hv]. split; [apply rely_0|done].
    + split; [by apply (transport_not e)|]. exists []. split; [done|]. right. by left.
Qed.

Lemma reap_closure_try t id a0 a w v :
  clock_ok t → Rep prefix a (KS w) → watched (st w) = [executionKey prefix id] → reap_var t id a0 a v →
  wp (reap_closure prefix id t v) (tries ∅ (reap_var t id a0) (reap_result t id a0) a) w.
Proof.
  intros Ht Ha Hw Hv. unfold reap_closure. apply wp_bind, wp_try. eapply wp_getExecutionTx; [done|..]; cycle 1.
  { intros e w1 a1 (Hr & Ha1 & _) He. cbn beta iota. rewrite (transport_not e) by done. apply wp_ret.
    eexists _, v, a1. split; [done|]. split; [done|]. right. split; [by apply (transport_not e)|].
    exists []. split; [by apply reaps_nil|]. right. by left. }
  intros w1 a1 (Hr & Ha1 & Hw1 & _ & _). rewrite Hw in Hw1.
  assert (reap_var t id a0 a1 v) as Hv1 by (destruct Hv as [? Hv]; split; [by eapply rely_2|done]).
  assert (∀ r w2, tries ∅ (reap_var t id a0) (reap_result t id a0) a1 r w2 →
    tries ∅ (reap_var t id a0) (reap_result t id a0) a r w2) as Hback.
  { intros r w2 (err & v' & a' & -> & Ha' & Hc). exists err, v', a'. split; [done|]. split; [done|].
    destruct Hc as [(-> & Hr' & Hc)|(Hn & l & Hl & Hc)]; [left|right].
    - split_and!; [done|by eapply rely_2|apply Hc|apply Hc].
    - split; [done|]. exists l. split; [by eapply reaps_rely|done]. }
  eapply wp_mono; [|exact Hback]. unfold read_execution.
  destruct (execs a1 !! id) as [e|] eqn:He; cbn beta iota; cycle 1.
  { simpl errors_Is. cbv iota. apply wp_removeLeaseIndex; [done|done| |done]. intros x Hx. congruence. }
  case_bool_decide as Hst; cbn [negb]; cycle 1.
  { apply wp_removeLeaseIndex; [done|done| |done]. intros x Hx. congruence. }
  destruct (After (e_LeaseUntil e) t) eqn:Hafter.
  { apply wp_ret. eexists _, v, a1. split; [done|]. split; [done|]. right. split; [done|].
    exists []. split; [apply reaps_nil, rely_0|]. left. done. }
  destruct (e_Attempt e <? e_MaxAttempts e)%Z eqn:Hatt.
  { apply wp_removeLeaseIndex; [done|done| |done]. intros x Hx _. apply Z.ltb_lt in Hatt. congruence. }
  assert (expired t e = true) as Hx.
  { unfold expired. rewrite bool_decide_eq_true_2, Hafter, Hatt by done. done. }
  cbv zeta. change (clearLease _) with (reaped_execution t e). unfold cloneUUID.
  change (e_PipelineRunID (reaped_execution t e)) with (e_PipelineRunID e).
  change (e_LastError (reaped_execution t e)) with lease_expired_text.
  destruct (a_item _ (rep_inv _ _ _ Ha1) _ _ He) as (_ & Hj & Hok).
  assert (rely a0 a1 ∧ reap_var t id a0 a0 (e_PipelineRunID e)) as [Hr01 Hvar].
  { destruct Hv1 as [Hr1 _]. split; [done|]. split; [apply rely_0|]. right. by exists a1, e. }
  unfold returning. apply wp_bind, wp_try.
  eapply (wp_saveTransition a1 w1 id e); [done|rewrite Hw1; left|done|by apply reap_valid|by apply clock_now_ok|done|..].
  - intros r w' a' Hr' Ha' _ Hc. apply wp_ret.
    destruct Hc as [(x & -> & Hx')| ->]; eexists _, _, a'; (split; [done|]); (split; [done|]).
    + right. split; [by apply (transport_not x)|]. exists []. split; [by apply reaps_nil|]. right. by left.
    + left. split_and!; [done|done| |apply reserved_empty]. destruct Hvar as [_ Hvar].
      split; [by eapply rely_2|done].
  - intros r w' a2 evs Hr' He2 Hlogs Ha' Hc. apply wp_ret.
    assert (reaps t a1 [e] (commit a2 id (reaped_execution t e) (log a2 id ++ evs))) as Hreaps.
    { eapply reaps_fail; [done|done|done|done|]. apply reaps_nil, rely_0. }
    destruct Hc as [->|(x & -> & Hx')]; eexists _, _, _; (split; [done|]); (split; [done|]); right.
    + split; [done|]. exists [e]. split; [done|]. split; [done|]. by intros y ->%list_elem_of_singleton.
    + split; [by apply (transport_not x)|]. exists [e]. split; [done|]. right. by left.
Qed.

(** A pipeline run to advance: that of an execution which was expired during the call. *)
Definition was_expired (t : Time) (a : RStore) (run : UUID) : Prop :=
  ∃ l b id e, reaps t a l b ∧ execs b !! id = Some e ∧ expired t e = true ∧ e_PipelineRunID e = Some run.

Lemma reapCandidate_atomic t id a w :
  clock_ok t → Rep prefix a (KS w) →
  wp (reapCandidate prefix id t) (λ r w', ∃ a' l, Rep prefix a' (KS w') ∧ reaps t a l a' ∧
    match r with
    | inr run => (∀ x, run = Some x → was_expired t a x) ∧ ∀ e, e ∈ l → e_PipelineRunID e = run
    | inl e => transport e ∨ e = contention
    end) w.
Proof.
  intros Ht Ha. unfold reapCandidate, watch. apply wp_bind. eapply wp_mono.
  { eapply (wp_watch 16 _ _ (reap_var t id a) ∅ (reap_result t id a) a); [..|done|apply reserved_empty].
    - intros b b' v Hr [Hr' Hv]. split; [by eapply rely_2|done].
    - intros b0 b x b' Hr (l & Hl & Hx). exists l. split; [by eapply reaps_rely|done].
    - intros b e v b' Hr _ He. exists []. split; [by apply reaps_nil|]. by right.
    - intros b v w1 Hv Hb Hw1 _. by apply reap_closure_try.
    - split; [apply rely_0|by left]. }
  intros r w' ([err run] & a' & -> & Ha' & (l & Hl & Hc)). simpl in Hc. destruct err as [e|].
  - assert (e = ErrUnavailable ∧ l = [] ∨ errors_Is e ErrUnavailable = false ∧ (transport e ∨ e = contention)) as Hcase.
    { destruct Hc as [Hc|[Hc| ->]]; [by left|right..].
      - split; [by apply (transport_not e)|by left].
      - split; [done|by right]. }
    destruct Hcase as [[-> ->]|[He Hc']].
    + simpl errors_Is. cbv iota. apply wp_ret. exists a', []. split_and!; [done|done|done|by intros e ?%elem_of_nil].
    + rewrite He. apply wp_throw. by exists a', l.
  - apply wp_ret. exists a', l. destruct Hc as [[_ Hv] He]. split_and!; [done|done| |done].
    intros x ->. destruct Hv as [[=]|(b & e & Hr & Hb & Hx & Hrun)]. exists [], b, id, e.
    split_and!; [by apply reaps_nil|done..].
Qed.

Lemma was_expired_reaps t a0 l a x : reaps t a0 l a → was_expired t a x → was_expired t a0 x.
Proof.
  intros Hl (l' & b & id & e & Hl' & Hb). exists (l ++ l'), b, id, e. split; [|done]. by eapply reaps_app.
Qed.

(** The pipeline runs returned are those of the executions that were failed, and each was expired. *)
Definition reap_post (t : Time) (a : RStore) (a' : RStore) (l : list Execution) (runs : gset UUID) : Prop :=
  reaps t a l a' ∧ (∀ e run, e ∈ l → e_PipelineRunID e = Some run → run ∈ runs) ∧
  ∀ run, run ∈ runs → was_expired t a run.

Lemma reap_loop_wp t ids runs a0 a l w :
  clock_ok t → Rep prefix a (KS w) → reap_post t a0 a l runs →
  wp (reap_loop prefix (uuid_String <$> ids) t runs) (λ r w', ∃ a' l', Rep prefix a' (KS w') ∧
    match r with
    | inr runs' => reap_post t a0 a' l' runs'
    | inl e => (transport e ∨ e = contention) ∧ reaps t a0 l' a'
    end) w.
Proof.
  intros Ht. revert runs a l w. induction ids as [|id ids IH]; intros runs a l w Ha (Hl & Hin & Hout).
  { apply wp_ret. by exists a, l. }
  rewrite fmap_cons. cbn [reap_loop]. rewrite uuid_Parse_String. apply wp_bind, wp_ret. apply wp_bind.
  eapply wp_mono; [by apply reapCandidate_atomic|]. intros r w1 (a1 & l1 & Ha1 & Hl1 & Hc).
  destruct r as [e|run].
  - exists a1, (l ++ l1). split; [done|]. split; [done|]. by eapply reaps_app.
  - destruct Hc as [Hrun He]. apply (IH _ a1 (l ++ l1) w1); [done|]. split_and!.
    + by eapply reaps_app.
    + intros e x [Hel|Hel]%elem_of_app Hx.
      * specialize (Hin e x Hel Hx). destruct run; set_solver.
      * rewrite (He e Hel) in Hx. subst run. set_solver.
    + intros x Hx. destruct run as [y|]; [|by apply Hout].
      apply elem_of_union in Hx as [->%elem_of_singleton|Hx]; [|by apply Hout].
      eapply was_expired_reaps; [done|]. by apply Hrun.
Qed.

Lemma ReapExpired_atomic a w :
  Rep prefix a (KS w) →
  wp (Redis.ReapExpired prefix) (λ r w', ∃ t a' l, clock_ok t ∧ Rep prefix a' (KS w') ∧
    match r with
    | inr runs => NoDup runs ∧ reap_post t a a' l (list_to_set runs)
    | inl e => (transport e ∨ e = contention) ∧ reaps t a l a'
    end) w.
Proof.
  intros Ha. unfold Redis.ReapExpired. apply wp_bind. unfold redis_now. eapply wp_Time; [done|..]; cycle 1.
  { intros e w1 a1 (Hr & Ha1 & _) He. exists (2 ^ 63)%Z, a1, [].
    split_and!; [unfold clock_ok, Second; lia|done|by left|by apply reaps_nil]. }
  intros t w1 a1 (Hr & Ha1 & _) Ht. apply wp_bind. eapply (wp_index _ KLeases); [done| |done|..].
  { apply law_ZRangeByScore; [apply _|lia]. }
  - intros w2 a2 (Hr2 & Ha2 & _).
    assert (∃ ids, zrange_by_score (members (index (leased a2) KLeases) (execs a2)) (score t) 0
      = uuid_String <$> ids) as [ids Hids].
    { assert (∀ vs : list string, (∀ v, v ∈ vs → ∃ id, v = uuid_String id) → ∃ ids, vs = uuid_String <$> ids) as Hall.
      { induction vs as [|v vs IH]; intros Hv; [by exists []|]. destruct (Hv v) as [id ->]; [left|].
        destruct IH as [ids ->]; [intros; apply Hv; by right|]. by exists (id :: ids). }
      apply Hall. intros v (s & Hs & _)%zrange_by_score_due. apply members_Some in Hs as (id & _ & -> & _). eauto. }
    cbn beta iota. rewrite Hids. apply wp_bind. eapply wp_mono.
    { apply (reap_loop_wp t ids ∅ a a2 []); [done|done|]. split_and!.
      - apply reaps_nil. by eapply rely_2.
      - by intros e run ?%elem_of_nil.
      - intros run. by rewrite elem_of_empty. }
    intros r w3 (a3 & l & Ha3 & Hc). destruct r as [e|runs'].
    + by exists t, a3, l.
    + eapply wp_mono; [apply (law_range prefix st (srv_others (W := W)) transport)|].
      intros r w4 (rs & -> & Hperm & Hst). exists t, a3, l. split_and!; [done|by rewrite Hst| |].
      * rewrite Hperm. apply NoDup_elements.
      * destruct Hc as (H1 & H2 & H3). split_and!; [done| |].
        -- intros e run He Hx. apply elem_of_list_to_set. rewrite Hperm. apply elem_of_elements. by eapply H2.
        -- intros run Hx. apply H3. apply elem_of_list_to_set in Hx. rewrite Hperm in Hx. by apply elem_of_elements.
  - intros e w2 a2 (Hr2 & Ha2 & _) He. exists t, a2, []. split_and!; [done|done|by left|].
    apply reaps_nil. by eapply rely_2.
Qed.

Context {HR : Retention W}.

Lemma stored_rely a a' values : rely a a' → stored a values → stored a' values.
Proof.
  intros Hr Hs. eapply Forall_impl; [exact Hs|]. intros v (id & -> & [e He]). exists id. split; [done|].
  destruct (rely_retains _ _ _ _ Hr He) as (e' & He' & _). by exists e'.
Qed.

(** The candidates are executions under their identifiers. *)
Definition by_id (m : gmap UUID Execution) : Prop := ∀ id e, m !! id = Some e → e_ID e = id.

Lemma wp_load_values name values candidates a w (Q : error + gmap UUID Execution → W → Prop) :
  Rep prefix a (KS w) → stored a values → by_id candidates →
  (∀ c w' a', rely a a' → Rep prefix a' (KS w') → by_id c → Q (inr c) w') →
  (∀ e w' a', rely a a' → Rep prefix a' (KS w') → transport e → Q (inl e) w') →
  wp (load_values prefix name values candidates) Q w.
Proof.
  revert candidates a w. induction values as [|v values IH]; intros candidates a w Ha Hs Hc HQ1 HQ2; simpl.
  { apply wp_ret. eapply HQ1; [apply rely_0|done|done]. }
  apply Forall_cons in Hs as [(id & -> & Hid) Hs]. rewrite uuid_Parse_String.
  apply wp_bind, wp_ret. apply wp_bind, wp_try. eapply wp_GetExecution; [done|..].
  - intros w1 a1 (Hr & Ha1 & _). destruct Hid as [e0 He0]. destruct (rely_retains _ _ _ _ Hr He0) as (e & He & _).
    unfold read_execution. rewrite He. cbn beta iota.
    apply (IH _ a1 w1); [done|by eapply stored_rely| | |].
    + intros i x. rewrite lookup_insert_Some. intros [[<- <-]|[_ Hx]]; [|by apply Hc].
      by apply (a_item _ (rep_inv _ _ _ Ha1)).
    + intros c w2 a2 Hr2 ??. eapply HQ1; [|done..]. by eapply rely_2.
    + intros x w2 a2 Hr2 ??. eapply HQ2; [|done..]. by eapply rely_2.
  - intros e w1 a1 (Hr & Ha1 & _) Ht. cbn beta iota. rewrite (transport_not e) by done. apply wp_throw.
    by eapply HQ2.
Qed.

Lemma heads_nonneg limit : (0 ≤ heads limit)%Z.
Proof. unfold heads. lia. Qed.

Lemma wp_load_names names limit t candidates a w (Q : error + gmap UUID Execution → W → Prop) :
  Rep prefix a (KS w) → by_id candidates →
  (∀ c w' a', rely a a' → Rep prefix a' (KS w') → by_id c → Q (inr c) w') →
  (∀ e w' a', rely a a' → Rep prefix a' (KS w') → transport e → Q (inl e) w') →
  wp (load_names prefix names limit t candidates) Q w.
Proof.
  revert candidates a w. induction names as [|name names IH]; intros candidates a w Ha Hc HQ1 HQ2; simpl.
  { apply wp_ret. eapply HQ1; [apply rely_0|done|done]. }
  apply wp_bind. eapply (wp_index _ (KQueue name)); [done| |done|..].
  { apply law_ZRangeByScore; [apply _|apply heads_nonneg]. }
  - intros w1 a1 (Hr & Ha1 & _). apply wp_bind.
    eapply wp_load_values; [done| |done|..].
    + apply (stored_members a1 (KQueue name)). intros v (s & Hv & _)%zrange_by_score_due. by exists s.
    + intros c w2 a2 Hr2 Ha2 Hc2. apply (IH c a2 w2); [done|done|..].
      * intros c' w3 a3 Hr3 ??. eapply HQ1; [|done..]. eapply rely_2; [done|]. by eapply rely_2.
      * intros e w3 a3 Hr3 ??. eapply HQ2; [|done..]. eapply rely_2; [done|]. by eapply rely_2.
    + intros e w2 a2 Hr2 ??. eapply HQ2; [|done..]. by eapply rely_2.
  - intros e w1 a1 (Hr & Ha1 & _) ?. by eapply HQ2.
Qed.

(** ** [Claim] *)

(** Claims that take effect one after the other, each on an execution that is claimable then. *)
Inductive claims (keys : list TaskKey) (owner : string) (lease : Duration) (t : Time)
    : RStore → list Execution → RStore → Prop :=
  | claims_nil a a' : rely a a' → claims keys owner lease t a [] a'
  | claims_cons a a1 a2 a' id e l :
      rely a a1 → claim_step keys owner lease t id a1 (inr e) a2 →
      claims keys owner lease t a2 l a' → claims keys owner lease t a (e :: l) a'.

Lemma claims_rely keys owner lease t a0 a l a' :
  rely a0 a → claims keys owner lease t a l a' → claims keys owner lease t a0 l a'.
Proof.
  intros Hr. destruct 1 as [a a' H|a a1 a2 a' id e l H].
  - apply claims_nil. by eapply rely_2.
  - eapply claims_cons; [by eapply rely_2|done|done].
Qed.

Lemma claims_app keys owner lease t a l a1 l' a' :
  claims keys owner lease t a l a1 → claims keys owner lease t a1 l' a' →
  claims keys owner lease t a (l ++ l') a'.
Proof.
  intros H H'. induction H as [a a1 Hr|a a2 a3 a1 id e l H1 H2 H3 H4 IH]; simpl.
  - by eapply claims_rely.
  - eapply claims_cons; eauto.
Qed.

(** What the claims of a call amount to. *)
Definition claim_post (keys : list TaskKey) (owner : string) (lease : Duration) (t : Time) (limit : Z)
    (a : RStore) (r : error + list Execution) (a' : RStore) : Prop :=
  match r with
  | inr items => claims keys owner lease t a items a' ∧ NoDup (e_ID <$> items) ∧
      (Z.of_nat (length items) ≤ limit)%Z
  | inl e => (transport e ∨ e = contention) ∧ ∃ items, claims keys owner lease t a items a'
  end.

Lemma claim_loop_wp keys owner lease t limit ordered claimed a0 a w :
  clock_ok t → text_ok owner → int_ok lease → Rep prefix a (KS w) →
  claims keys owner lease t a0 claimed a → NoDup ((e_ID <$> claimed) ++ (e_ID <$> ordered)) →
  (Z.of_nat (length claimed) ≤ limit)%Z →
  wp (Redis.claim_loop prefix owner keys lease t limit ordered claimed)
    (λ r w', ∃ a', Rep prefix a' (KS w') ∧ claim_post keys owner lease t limit a0 r a') w.
Proof.
  intros Ht Hown Hl. revert claimed a w. induction ordered as [|c ordered IH]; intros claimed a w Ha Hcl Hnd Hlen; simpl.
  { apply wp_ret. exists a. split; [done|]. split_and!; [done| |done]. by rewrite app_nil_r in Hnd. }
  destruct (Z.eqb_spec (Z.of_nat (length claimed)) limit) as [Heq|Hne].
  { apply wp_ret. exists a. split; [done|]. split_and!; [done| |done]. by apply NoDup_app in Hnd as [? _]. }
  apply wp_bind. eapply wp_mono; [by apply claimCandidate_atomic|]. intros r w1 (a1 & Ha1 & Hres).
  destruct r as [e|[item|]]; simpl in Hres.
  - exists a1. split; [done|]. destruct Hres as [He Hc]. split; [done|].
    destruct Hc as [Hr|(b & b' & x & H1 & H2 & H3)].
    + exists claimed. rewrite <-(app_nil_r claimed). eapply claims_app; [done|]. by apply claims_nil.
    + exists (claimed ++ [x]). eapply claims_app; [done|]. eapply claims_cons; [done|done|]. by apply claims_nil.
  - destruct Hres as (b & b' & H1 & H2 & H3). apply (IH (claimed ++ [item]) a1 w1); [done|..].
    + eapply claims_app; [done|]. eapply claims_cons; [done|done|]. by apply claims_nil.
    + destruct H2 as (_ & Hid & _). rewrite fmap_app, list_fmap_singleton, (Hid _ eq_refl).
      by rewrite <-(assoc_L (++)).
    + rewrite length_app. simpl. lia.
  - apply (IH claimed a1 w1); [done| | |done].
    + rewrite <-(app_nil_r claimed). eapply claims_app; [done|]. by apply claims_nil.
    + rewrite fmap_cons, cons_middle, (assoc_L (++)) in Hnd. apply NoDup_app in Hnd as (H1 & H2 & H3).
      apply NoDup_app in H1 as (H4 & _ & _). apply NoDup_app. split_and!; [done| |done].
      intros x Hx. apply H2. set_solver.
Qed.

Lemma by_id_NoDup (m : gmap UUID Execution) l :
  by_id m → l ≡ₚ map_to_list m → NoDup (e_ID <$> l.*2).
Proof.
  intros Hm Hl. assert (e_ID <$> (map_to_list m).*2 = (map_to_list m).*1) as Heq.
  { rewrite <-list_fmap_compose. apply list_fmap_ext. intros i [id e] Hi.
    apply list_elem_of_lookup_2, elem_of_map_to_list in Hi. by apply Hm. }
  rewrite Hl, Heq. apply NoDup_fst_map_to_list.
Qed.

Lemma Claim_atomic keys owner lease limit a w :
  text_ok owner → int_ok lease → Rep prefix a (KS w) →
  wp (Redis.Claim prefix owner keys limit lease) (λ r w', ∃ t a', clock_ok t ∧ Rep prefix a' (KS w') ∧
    claim_post keys owner lease t (if (limit <=? 0)%Z then 1%Z else limit) a r a') w.
Proof.
  intros Hown Hl Ha. unfold Redis.Claim. apply wp_bind. unfold redis_now. eapply wp_Time; [done|..]; cycle 1.
  { intros e w1 a1 (Hr & Ha1 & _) He. exists (2 ^ 63)%Z, a1.
    split_and!; [unfold clock_ok, Second; lia|done|]. split; [by left|]. exists []. by apply claims_nil. }
  intros t w1 a1 (Hr & Ha1 & _) Ht. apply wp_bind. unfold loadDueCandidates. apply wp_bind.
  eapply wp_load_names; [done|by intros ? ? ?%lookup_empty_Some|..].
  - intros c w2 a2 Hr2 Ha2 Hc. apply wp_bind.
    eapply wp_mono; [apply (law_range prefix st (srv_others (W := W)) transport)|].
    intros r w3 (entries & -> & Hperm & Hst). apply wp_ret.
    assert (rely a a2) as Hr3 by (by eapply rely_2). eapply wp_mono.
    + apply (claim_loop_wp _ _ _ _ _ _ [] a a2); [done|done|done|by rewrite Hst|by apply claims_nil| |].
      * simpl. rewrite sort_Slice_perm. by eapply by_id_NoDup.
      * simpl. destruct (Z.leb_spec limit 0); lia.
    + intros r w4 (a4 & Ha4 & Hpost). by exists t, a4.
  - intros e w2 a2 Hr2 Ha2 He. exists t, a2. split_and!; [done|done|]. split; [by left|].
    exists []. apply claims_nil. by eapply rely_2.
Qed.
End Delivery.
