(* ===== verification/RedisSubgraph.v ===== *)
(** * Restart of a part of a pipeline

    [RestartPipelineSubgraph] of the Redis store under interference: the executions of the requested
    nodes are found before the transaction, which then resets all of them and the run at one instant, or
    none. *)

From S2P Require Import Prelude GoLib GoText Model Memory MemoryInv StoreSpec.
From S2P Require Import RedisKeys RedisServer Redis RedisRuns RedisOps RedisRep RedisCommit RedisItems.
From S2P Require Import RedisRecords RedisRunItems RedisTx RedisSteps RedisLin RedisCreate RedisDelivery.

(** ** The step *)

(** The nodes of a request. *)
Definition subgraph_nodes (request : RestartSubgraph) : list string :=
  rs_RootNodeKey request :: rs_DescendantKeys request.

Definition root_node (request : RestartSubgraph) (e : Execution) : bool :=
  bool_decide (e_NodeKey e = rs_RootNodeKey request).

(** The root becomes due, the others wait for it. *)
Definition reset_node (request : RestartSubgraph) (available : Time) (e : Execution) : Execution :=
  reset_item (if root_node request e then StatusPending else StatusBlocked) available e.

Definition reset_change (request : RestartSubgraph) (available : Time) (e : Execution) : Change :=
  mkChange (reset_node request available e) (Some (EventRestarted, EmptyString)).

Definition restarted_run (t : Time) (run : PipelineRun) : PipelineRun :=
  run <| r_Status := RunRunning |> <| r_Error := EmptyString |> <| r_UpdatedAt := t |>
      <| r_FinishedAt := None |> <| r_Revision := uint64 (r_Revision run + 1) |>.

(** The executions are reset, each with its event. *)
Inductive resets (request : RestartSubgraph) (available : Time) : RStore → list UUID → RStore → Prop :=
  | resets_nil a : resets request available a [] a
  | resets_cons a id e evs ids a' :
      execs a !! id = Some e → is_active (e_Status e) = false →
      logs id (reset_change request available e) evs →
      resets request available (commit a id (reset_node request available e) (log a id ++ evs)) ids a' →
      resets request available a (id :: ids) a'.

Definition resolve (availableAt t : Time) : Time := if IsZero availableAt then t else availableAt.

(** The executions [ids] are those of different nodes of the request. *)
Definition targets (request : RestartSubgraph) (a : RStore) (ids : list UUID) : Prop :=
  NoDup ids ∧ Forall (λ id, ∃ e, execs a !! id = Some e ∧ e_PipelineRunID e = Some (rs_RunID request) ∧
    e_NodeKey e ∈ subgraph_nodes request) ids.

(** What the transaction does to the executions [ids]. *)
Definition subgraph_step (request : RestartSubgraph) (t : Time) (ids : list UUID) (a : RStore)
    (r : error + Execution) (a' : RStore) : Prop :=
  let available := resolve (rs_AvailableAt request) t in
  (r = inl (ErrActive : error) ∧ a' = a ∧
    ∃ id e, id ∈ ids ∧ execs a !! id = Some e ∧ is_active (e_Status e) = true) ∨
  (r = inl (ErrNotFound : error) ∧ a' = a ∧
    (runs a !! rs_RunID request = None ∨
     ∀ id e, id ∈ ids → execs a !! id = Some e → root_node request e = false)) ∨
  (∃ run id root a1, runs a !! rs_RunID request = Some run ∧
    id ∈ ids ∧ execs a !! id = Some root ∧ root_node request root = true ∧
    r = inr (reset_node request available root) ∧ resets request available a ids a1 ∧
    a' = put_run_store a1 (rs_RunID request) (restarted_run t run) ∧ targets request a ids).

Section Subgraph.
Context `{E : GoEnv} {HE : GoEnvOk} {C : Codec} {HC : CodecOk}.
Context {W : Type} `{!RedisClient W} `{!Process W} {SV : Server W} {HS : ServerOk W} {HR : Retention W}.

Abbreviation prefix := (srv_prefix (W := W)).
Abbreviation st := (srv_state (W := W)).
Abbreviation transport := (srv_transport (W := W)).
Abbreviation rely := (srv_rely (W := W)).
Abbreviation Failed := (failed transport).
Abbreviation outcome := (RedisTx.outcome (W := W)).
Abbreviation KS w := (keyspace (st w)).

(** ** The executions of the nodes *)

(** The executions [ids] are those of the nodes [ns] of a run. *)
Definition nodes_at (a : RStore) (run : UUID) (ns : list string) (ids : list UUID) : Prop :=
  Forall2 (λ n id, refers a (KNode run n) = Some id) ns ids.

Lemma refers_node a run n id :
  AInv a → refers a (KNode run n) = Some id ↔
  ∃ e, execs a !! id = Some e ∧ e_PipelineRunID e = Some run ∧ e_NodeKey e = n ∧ n ≠ EmptyString.
Proof.
  intros Ha. simpl. rewrite (a_node _ Ha). unfold node_entry. split.
  - intros (e & r & He & Hr & Hn & Hk). apply node_key_inj in Hk as [-> ->]. by exists e.
  - intros (e & He & Hr & <- & Hn). by exists e, run.
Qed.

Lemma refers_rely a ks a' ks' run n id :
  Rep prefix a ks → Rep prefix a' ks' → rely a a' →
  refers a (KNode run n) = Some id → refers a' (KNode run n) = Some id.
Proof.
  intros Ha Ha' Hr (e & He & Hrun & Hn & Hne)%(refers_node _ _ _ _ (rep_inv _ _ _ Ha)).
  destruct (rely_retains _ _ _ _ Hr He) as (e' & He' & Hs). apply (refers_node _ _ _ _ (rep_inv _ _ _ Ha')).
  exists e'. destruct Hs as (_ & _ & _ & _ & -> & -> & _). done.
Qed.

Lemma nodes_at_rely a ks a' ks' run ns ids :
  Rep prefix a ks → Rep prefix a' ks' → rely a a' → nodes_at a run ns ids → nodes_at a' run ns ids.
Proof. intros Ha Ha' Hr Hn. eapply Forall2_impl; [exact Hn|]. intros n id. by eapply refers_rely. Qed.

Lemma nodes_at_elem a run ns ids id :
  nodes_at a run ns ids → id ∈ ids → ∃ n, n ∈ ns ∧ refers a (KNode run n) = Some id.
Proof.
  intros Hn (i & Hi)%list_elem_of_lookup. destruct (Forall2_lookup_r _ _ _ _ _ Hn Hi) as (n & Hni & Hr).
  exists n. split; [|done]. by eapply list_elem_of_lookup_2.
Qed.

(** Different nodes have different executions. *)
Lemma nodes_at_NoDup a run ns ids : AInv a → nodes_at a run ns ids → NoDup ns → NoDup ids.
Proof.
  intros Ha Hn. induction Hn as [|n id ns ids Hid Hn IH]; [by constructor|].
  intros [Hni Hnd]%NoDup_cons. apply NoDup_cons. split; [|by apply IH]. intros Hin.
  destruct (nodes_at_elem _ _ _ _ _ Hn Hin) as (n' & Hin' & Hid').
  apply (refers_node _ _ _ _ Ha) in Hid as (e & He & _ & Hk & _).
  apply (refers_node _ _ _ _ Ha) in Hid' as (e' & He' & _ & Hk' & _). congruence.
Qed.

Lemma wp_node_ids run keys ids0 a w (Q : error + list UUID → W → Prop) :
  Rep prefix a (KS w) →
  (∀ ids ns w' a', rely a a' → Rep prefix a' (KS w') → ns `sublist_of` keys → nodes_at a' run ns ids →
     (∀ n id, n ∈ keys → refers a (KNode run n) = Some id → id ∈ ids) → Q (inr (ids0 ++ ids)) w') →
  (∀ e w' a', rely a a' → Rep prefix a' (KS w') → transport e → Q (inl e) w') →
  wp (node_ids prefix run keys ids0) Q w.
Proof.
  revert ids0 a w. induction keys as [|n keys IH]; intros ids0 a w Ha HQ1 HQ2; cbn [node_ids].
  { apply wp_ret. rewrite <-(app_nil_r ids0). eapply (HQ1 [] []); [apply rely_0|done|done|constructor|].
    by intros n id ?%elem_of_nil. }
  apply wp_bind, wp_try. change (nodeKey prefix run n) with (key_name prefix (KNode run n)).
  eapply wp_get_ref; [done|done|..].
  - intros w1 a1 (Hr & Ha1 & _). destruct (refers a1 (KNode run n)) as [id|] eqn:Hid; cbn beta iota.
    + rewrite uuid_Parse_String. apply wp_bind, wp_ret. apply (IH _ a1 w1); [done|..].
      * intros ids ns w2 a2 Hr2 Ha2 Hns Hat Hall. rewrite <-(assoc_L (++)).
        apply (HQ1 _ (n :: ns) w2 a2); [by eapply rely_2|done|by constructor| |].
        -- constructor; [|done]. by eapply (refers_rely a1).
        -- intros n' id' Hin Hid'. apply (refers_rely _ _ _ _ _ _ _ Ha Ha1 Hr) in Hid'.
           apply elem_of_cons in Hin as [->|Hin]; [|right; by eapply Hall].
           assert (id' = id) as -> by congruence. left.
      * intros e w2 a2 Hr2 Ha2 Ht. eapply HQ2; [by eapply rely_2|done..].
    + apply (IH _ a1 w1); [done|..].
      * intros ids ns w2 a2 Hr2 Ha2 Hns Hat Hall. apply (HQ1 _ ns w2 a2); [by eapply rely_2|done|by constructor|done|].
        intros n' id' Hin Hid'. apply (refers_rely _ _ _ _ _ _ _ Ha Ha1 Hr) in Hid'.
        apply elem_of_cons in Hin as [->|Hin]; [congruence|]. by eapply Hall.
      * intros e w2 a2 Hr2 Ha2 Ht. eapply HQ2; [by eapply rely_2|done..].
  - intros e w1 a1 (Hr & Ha1 & _) Ht. cbn beta iota. rewrite (transport_not e) by done. apply wp_throw.
    by eapply HQ2.
Qed.

(** ** The reads of the transaction *)

(** The executions are as they were read, as long as the transaction is valid. *)
Definition seen (a : RStore) (w : W) (items : list Execution) : Prop :=
  Forall (λ it, executionKey prefix (e_ID it) ∈ watched (st w) ∧
    ∃ e, execs a !! e_ID it = Some e ∧ same_identity it e) items ∧
  (dirty (st w) = false → Forall (λ it, execs a !! e_ID it = Some it) items).

Definition run_seen (a : RStore) (w : W) (id : UUID) (run : PipelineRun) : Prop :=
  pipelineKey prefix id ∈ watched (st w) ∧ (dirty (st w) = false → runs a !! id = Some run).

Lemma seen_after a w a' w' items :
  Rep prefix a (KS w) → after_read a w a' w' → seen a w items → seen a' w' items.
Proof.
  intros Ha (Hr & Ha' & Hw & _ & Hcl) [Hid Hsame]. split.
  - rewrite Hw. eapply Forall_impl; [exact Hid|]. intros it (Hk & e & He & Hs). split; [done|].
    destruct (rely_retains _ _ _ _ Hr He) as (e' & He' & Hs'). exists e'. split; [done|].
    by eapply same_identity_trans.
  - intros Hd. destruct (Hcl Hd) as [Hd0 Hkeys]. specialize (Hsame Hd0). apply Forall_forall. intros it Hit.
    rewrite Forall_forall in Hid, Hsame. destruct (Hid it Hit) as [Hk _]. rewrite <-(Hsame it Hit).
    eapply Rep_exec_eq; [exact Ha|exact Ha'|]. by apply Hkeys.
Qed.

Lemma run_seen_after a w a' w' id run :
  Rep prefix a (KS w) → after_read a w a' w' → run_seen a w id run → run_seen a' w' id run.
Proof.
  intros Ha (Hr & Ha' & Hw & _ & Hcl) [Hk Hrun]. split; [by rewrite Hw|]. intros Hd.
  destruct (Hcl Hd) as [Hd0 Hkeys]. rewrite <-(Hrun Hd0).
  eapply Rep_run_eq; [exact Ha|exact Ha'|]. by apply Hkeys.
Qed.

Lemma active_is_active e : active e = is_active (e_Status e).
Proof. unfold active. by destruct (e_Status e). Qed.

(** What is known of an execution that may be reset. *)
Definition resettable (it : Execution) : Prop :=
  is_active (e_Status it) = false ∧ json_ok it ∧ ItemOk it ∧ e_Status it ≠ StatusZero.

Lemma wp_inactive_items run_id run ids items a w (Q : error + list Execution → W → Prop) :
  Rep prefix a (KS w) → run_seen a w run_id run → seen a w items →
  Forall resettable items →
  Forall (λ id, executionKey prefix id ∈ watched (st w) ∧ is_Some (execs a !! id)) ids →
  (∀ items' w' a', rely a a' → Rep prefix a' (KS w') → watched (st w') = watched (st w) →
     run_seen a' w' run_id run → seen a' w' items' → e_ID <$> items' = (e_ID <$> items) ++ ids →
     Forall resettable items' →
     Q (inr items') w') →
  (∀ w' a' id e, rely a a' → Rep prefix a' (KS w') → id ∈ ids → execs a' !! id = Some e →
     is_active (e_Status e) = true → Q (inl (ErrActive : error)) w') →
  (∀ e w' a', rely a a' → Rep prefix a' (KS w') → transport e → Q (inl e) w') →
  wp (inactive_items prefix ids items) Q w.
Proof.
  revert items a w. induction ids as [|id ids IH]; intros items a w Ha Hrun Hseen Hres Hids HQ1 HQ2 HQ3;
    cbn [inactive_items].
  { apply wp_ret. eapply HQ1; [apply rely_0|done..| |done]. by rewrite app_nil_r. }
  apply Forall_cons in Hids as [(Hk & e0 & He0) Hids]. apply wp_bind. eapply wp_getExecutionTx; [done|..].
  - intros w1 a1 Haf. pose proof Haf as (Hr & Ha1 & Hw1 & _).
    destruct (rely_retains _ _ _ _ Hr He0) as (e & He & _). unfold read_execution. rewrite He.
    rewrite active_is_active. destruct (is_active (e_Status e)) eqn:Hact.
    { apply wp_throw. eapply (HQ2 w1 a1 id e); [done|done|left|done|done]. }
    destruct (a_item _ (rep_inv _ _ _ Ha1) _ _ He) as (Hid & Hj & Hok).
    pose proof (seen_after _ _ _ _ _ Ha Haf Hseen) as [Hs1 Hs2].
    apply (IH (items ++ [e]) a1 w1); [done|by apply (run_seen_after a w)|..].
    + split.
      * apply Forall_app_2; [done|]. apply Forall_singleton. rewrite Hid, Hw1. split; [done|].
        exists e. split; [done|by repeat split].
      * intros Hd. apply Forall_app_2; [by apply Hs2|]. apply Forall_singleton. by rewrite Hid.
    + apply Forall_app_2; [done|]. apply Forall_singleton. split_and!; [done|done|done|].
      eapply AInv_status; [apply Ha1|done].
    + eapply Forall_impl; [exact Hids|]. intros i (Hki & x & Hx). rewrite Hw1. split; [done|].
      destruct (rely_retains _ _ _ _ Hr Hx) as (x' & Hx' & _). by exists x'.
    + intros items' w' a' Hr' Ha' Hw' Hrun' Hseen' Hids' Hres'.
      eapply HQ1; [by eapply rely_2|done|by rewrite Hw'|done|done| |done].
      rewrite Hids', fmap_app, <-(assoc_L (++)). simpl. by rewrite Hid.
    + intros w' a' i x Hr' Ha' Hi Hx Hxa. eapply HQ2; [by eapply rely_2|done|by right|done|done].
    + intros x w' a' Hr' Ha' Ht. eapply HQ3; [by eapply rely_2|done|done].
  - intros x w1 a1 (Hr & Ha1 & _) Ht. by eapply HQ3.
Qed.

(** ** The commands *)

(** The commands [cs] reset the execution [it] with an event. *)
Definition planned (request : RestartSubgraph) (available : Time) (it : Execution) (cs : list Cmd) : Prop :=
  ∃ enc ev event, marshal_execution (reset_node request available it) = inr enc ∧ event_ok ev ∧
    logs (e_ID it) (reset_change request available it) [ev] ∧ marshal_event ev = inr event ∧
    cs = subgraph_item_cmds prefix (reset_node request available it) (e_Status it) enc event.

Lemma reset_node_valid request available it run :
  resettable it → time_ok available → e_PipelineRunID it = Some run →
  valid_change it (reset_change request available it).
Proof.
  intros (Hact & Hj & Hok & Hz) Hav Hrun. unfold reset_change, reset_node. apply reset_valid; try done.
  destruct (root_node request it); [by left|]. right. by rewrite Hrun.
Qed.

Definition last_root (request : RestartSubgraph) (available : Time) (items : list Execution)
    (root : option Execution) : option Execution :=
  foldl (λ r it, if root_node request it then Some (reset_node request available it) else r) root items.

Lemma wp_subgraph_cmds request available now run items cmds root a w
    (Q : error + (list Cmd * option Execution) → W → Prop) :
  Rep prefix a (KS w) → Forall resettable items → Forall (λ it, e_PipelineRunID it = Some run) items →
  time_ok available → time_ok now →
  (∀ css w', KS w' = KS w → watched (st w') = watched (st w) → dirty (st w') = dirty (st w) →
     Forall2 (planned request available) items css →
     Q (inr (cmds ++ mjoin css, last_root request available items root)) w') →
  wp (subgraph_cmds prefix request available now items cmds root) Q w.
Proof.
  intros Ha Hres Hrun Hav Hnow. revert cmds root w Ha.
  induction items as [|it items IH]; intros cmds root w Ha HQ; cbn [subgraph_cmds].
  { apply wp_ret. rewrite <-(app_nil_r cmds). by apply (HQ []). }
  apply Forall_cons in Hres as [Hit Hres], Hrun as [Hr Hrun].
  pose proof (reset_node_valid request available it run Hit Hav Hr) as Hv.
  fold (root_node request it). rewrite restarted_reset. fold (reset_node request available it).
  destruct (execution_codec _ (vc_json _ _ Hv)) as (enc & Henc & _). cbn [ch_item reset_change] in Henc.
  cbv zeta. rewrite Henc. apply wp_bind, wp_ret. apply wp_bind.
  eapply (wp_encodeEvent a w (e_ID it)); [done|apply Hv|done|done|done|].
  intros ev event w1 Hev Hevok Hm Hks Hwt _ Hd. apply (IH Hres Hrun); [by rewrite Hks|].
  intros css w2 Hks2 Hw2 Hd2 Hcss. rewrite <-(assoc_L (++)).
  apply (HQ (subgraph_item_cmds prefix (reset_node request available it) (e_Status it) enc event :: css) w2);
    [congruence..|]. constructor; [|done]. exists enc, ev, event. split_and!; [done|done| |done|done].
  rewrite Hev. by do 2 eexists.
Qed.

Lemma commit_small a id e evs : is_Some (execs a !! id) → small a → small (commit a id e evs).
Proof. intros Hi. unfold small. simpl. by rewrite (map_size_insert_Some _ _ _ Hi). Qed.

(** The commands of the executions, one after the other. *)
Lemma commit_items request available run items css a ks :
  Forall2 (planned request available) items css → Rep prefix a ks → small a → time_ok available →
  NoDup (e_ID <$> items) → Forall (λ it, execs a !! e_ID it = Some it) items →
  Forall resettable items → Forall (λ it, e_PipelineRunID it = Some run) items →
  ∃ ks' a', apply_all (mjoin css) ks = Some ks' ∧ Rep prefix a' ks' ∧ small a' ∧ runs a' = runs a ∧
    resets request available a (e_ID <$> items) a'.
Proof.
  intros Hcss Ha Hsm Hav. revert a ks Ha Hsm.
  induction Hcss as [|it cs items css (enc & ev & event & Henc & Hevok & Hlogs & Hm & ->) Hcss IH];
    intros a ks Ha Hsm Hnd Hits Hres Hrun.
  { exists ks, a. split_and!; [done..|constructor]. }
  rewrite fmap_cons in Hnd. apply NoDup_cons in Hnd as [Hni Hnd]. apply Forall_cons in Hits as [Hit Hits], Hres as [Hr Hres], Hrun as [Hru Hrun].
  pose proof (reset_node_valid request available it run Hr Hav Hru) as Hv.
  set (e' := reset_node request available it) in *.
  pose proof (rep_inv _ _ _ Ha) as Hinv. destruct (a_log _ Hinv _ _ Hit) as (old & Hold & _).
  assert (log a (e_ID it) = old) as Hlog by (unfold log; by rewrite Hold).
  destruct (Rep_commit prefix a ks (e_ID it) it e' old [ev] enc [event]
    (saveTransition_roles e' (e_Status it) enc event)) as (ks1 & Hks1 & Ha1); try done.
  - rewrite <-Hlog. apply (AInv_change a (e_ID it) it (reset_change request available it)); try done.
    by apply Forall_singleton.
  - by apply Forall2_cons_2.
  - apply saveTransition_item. split; [done|done|apply Hv|apply Hv].
  - destruct (IH (commit a (e_ID it) e' (old ++ [ev])) ks1) as (ks2 & a2 & Happ & Ha2 & Hs2 & Hr2 & Hrs); try done.
    + by apply commit_small.
    + apply Forall_forall. intros x Hx. rewrite Forall_forall in Hits. simpl.
      rewrite lookup_insert_ne; [by apply Hits|]. intros Heq. apply Hni. rewrite Heq. by apply list_elem_of_fmap_2.
    + exists ks2, a2. split_and!; [|done|done|by rewrite Hr2|].
      * cbn [mjoin list_join]. rewrite apply_all_app.
        rewrite subgraph_lower by (unfold e', reset_node; destruct (root_node request it); auto).
        by rewrite Hks1.
      * eapply (resets_cons _ _ a (e_ID it) it [ev]); [done|apply Hr|done|]. by rewrite Hlog.
Qed.

Lemma nodes_at_targets request ns a ids :
  AInv a → NoDup (subgraph_nodes request) → ns `sublist_of` subgraph_nodes request →
  nodes_at a (rs_RunID request) ns ids → targets request a ids.
Proof.
  intros Ha Hnd Hsub Hat. split.
  - eapply nodes_at_NoDup; [done|done|]. by eapply sublist_NoDup.
  - apply Forall_forall. intros id Hid. destruct (nodes_at_elem _ _ _ _ _ Hat Hid) as (n & Hn & Href).
    apply (refers_node _ _ _ _ Ha) in Href as (e & He & Hrun & <- & _). exists e. split_and!; [done|done|].
    by eapply sublist_subseteq.
Qed.

(** The executions of the nodes do not change while the transaction runs. *)
Lemma targets_rely request a a' ids : rely a a' → targets request a ids → targets request a' ids.
Proof.
  intros Hr [Hnd Hall]. split; [done|]. eapply Forall_impl; [exact Hall|]. intros id (e & He & Hrun & Hn).
  destruct (rely_retains _ _ _ _ Hr He) as (e' & He' & Hs). exists e'.
  destruct Hs as (_ & _ & _ & _ & -> & -> & _). done.
Qed.

Lemma last_root_Some request available items root x :
  last_root request available items root = Some x →
  root = Some x ∨ ∃ it, it ∈ items ∧ root_node request it = true ∧ x = reset_node request available it.
Proof.
  revert root. induction items as [|it items IH]; intros root Hx; [by left|].
  apply IH in Hx as [Hx|(i & Hi & Hr & ->)].
  - destruct (root_node request it) eqn:Hr; [|by left]. right. exists it. injection Hx as <-.
    split_and!; [left|done|done].
  - right. exists i. split_and!; [by right|done|done].
Qed.

Lemma last_root_None request available items root :
  last_root request available items root = None → root = None ∧ Forall (λ it, root_node request it = false) items.
Proof.
  revert root. induction items as [|it items IH]; intros root Hx; [done|].
  apply IH in Hx as [Hx Hall]. destruct (root_node request it) eqn:Hr; [done|]. split; [done|]. by constructor.
Qed.

Lemma restarted_run_ok t run :
  clock_ok t → RunItemOk run → same_run run (restarted_run t run) ∧ RunItemOk (restarted_run t run).
Proof.
  intros Ht [H1 H2 H3 H4 H5 H6 H7]. pose proof (clock_now_ok _ Ht). split; [by repeat split|].
  split; simpl; try done. apply uint64_bounds.
Qed.

(** The commands of the transaction, when what was read is still stored. *)
Lemma subgraph_commits request t run items css a w :
  let available := resolve (rs_AvailableAt request) t in
  Rep prefix a (KS w) → clock_ok t → time_ok available → RunItemOk run → r_ID run = rs_RunID request →
  run_seen a w (rs_RunID request) run → seen a w items → Forall resettable items →
  Forall (λ it, e_PipelineRunID it = Some (rs_RunID request)) items → NoDup (e_ID <$> items) →
  Forall2 (planned request available) items css →
  commits (mjoin css ++ run_status_cmds prefix (r_ID run) (restarted_run t run) (r_Status run)) w
    (λ b b', runs b !! rs_RunID request = Some run ∧ Forall (λ it, execs b !! e_ID it = Some it) items ∧
       ∃ b1, resets request available b (e_ID <$> items) b1 ∧
         b' = put_run_store b1 (rs_RunID request) (restarted_run t run)).
Proof.
  intros available Ha Ht Hav Hrok Hrid [Hrk Hrun] [Hk Hsame] Hres Hruns Hnd Hcss b ks Hb Hsm Hd Hks _.
  assert (runs b !! rs_RunID request = Some run) as Hrb.
  { rewrite <-(Hrun Hd). eapply Rep_run_eq; [exact Ha|exact Hb|]. by apply Hks. }
  assert (Forall (λ it, execs b !! e_ID it = Some it) items) as Hits.
  { apply Forall_forall. intros it Hit. specialize (Hsame Hd). rewrite Forall_forall in Hk, Hsame.
    destruct (Hk it Hit) as [Hki _]. rewrite <-(Hsame it Hit).
    eapply Rep_exec_eq; [exact Ha|exact Hb|]. by apply Hks. }
  destruct (commit_items request available _ items css b ks Hcss Hb Hsm Hav Hnd Hits Hres Hruns)
    as (ks1 & b1 & Happ & Hb1 & Hsm1 & Hr1 & Hrs).
  destruct (restarted_run_ok t run Ht Hrok) as [Hsr Hok'].
  destruct (Rep_put_run prefix b1 ks1 (rs_RunID request) run (restarted_run t run)) as (ks2 & Happ2 & Hb2);
    [done|done|by rewrite Hr1|done|done|].
  exists ks2, (put_run_store b1 (rs_RunID request) (restarted_run t run)). split_and!; [|done|done|done|by exists b1].
  rewrite apply_all_app, Happ. simpl. by rewrite Hrid.
Qed.

(** The body of the transaction. *)
Lemma subgraph_attempt request t ids a w :
  clock_ok t → time_ok (rs_AvailableAt request) → Rep prefix a (KS w) → targets request a ids →
  watched (st w) = pipelineKey prefix (rs_RunID request) :: (executionKey prefix <$> ids) →
  wp (run ← getRunTx prefix (rs_RunID request);
      items ← inactive_items prefix ids [];
      let previousRunStatus := r_Status run in
      let run := run <| r_Status := RunRunning |> <| r_Error := EmptyString |>
        <| r_UpdatedAt := t |> <| r_FinishedAt := None |>
        <| r_Revision := uint64 (r_Revision run + 1) |> in
      '(cmds, root) ← subgraph_cmds prefix request (resolve (rs_AvailableAt request) t) t items [] None;
      match root with
      | None => throw ErrNotFound
      | Some root =>
          _ ← tx_TxPipelined (cmds ++ run_status_cmds prefix (r_ID run) run previousRunStatus);
          mret root
      end) (attempt ∅ (subgraph_step request t ids) a) w.
Proof.
  intros Ht Hav Ha Htg Hw. apply wp_bind. eapply wp_getRunTx; [done|..]; cycle 1.
  { intros e w1 a1 (Hr & Ha1 & _) He. eapply attempt_failed; [done|done|by exists e]. }
  intros w1 a1 (Hr1 & Ha1 & Hw1 & _). unfold read_run.
  destruct (runs a1 !! rs_RunID request) as [run|] eqn:Hrun; cycle 1.
  { eapply attempt_rely; [done|]. apply attempt_error; [done| |done]. right. left.
    split_and!; [done|done|by left]. }
  destruct (a_run _ (rep_inv _ _ _ Ha1) _ _ Hrun) as [Hrid Hrok].
  pose proof (targets_rely _ _ _ _ Hr1 Htg) as [Hnd Htg1].
  eapply wp_mono; [|intros r w'; by apply (attempt_rely _ _ a a1)].
  assert (time_ok (resolve (rs_AvailableAt request) t)) as Hres
    by (unfold resolve; destruct (IsZero _); [by apply clock_now_ok|done]).
  apply wp_bind. eapply (wp_inactive_items (rs_RunID request) run); [done|..].
  { split; [rewrite Hw1, Hw; left|done]. }
  { split; [constructor|]. by constructor. }
  { constructor. }
  { apply Forall_forall. intros id Hid. rewrite Forall_forall in Htg1. destruct (Htg1 id Hid) as (e & He & _).
    split; [|by exists e]. rewrite Hw1, Hw. right. by apply list_elem_of_fmap_2. }
  - intros items w2 a2 Hr2 Ha2 Hw2 Hrs Hseen Hids Hall. simpl in Hids.
    pose proof (targets_rely request _ _ _ Hr2 (conj Hnd Htg1)) as Htg2.
    assert (∀ it, it ∈ items → e_ID it ∈ ids ∧ ∃ e, execs a2 !! e_ID it = Some e ∧ same_identity it e ∧
      e_PipelineRunID e = Some (rs_RunID request)) as Hitems.
    { intros it Hit. destruct Hseen as [Hs _]. rewrite Forall_forall in Hs.
      destruct (Hs it Hit) as (_ & e & He & Hsi).
      assert (e_ID it ∈ ids) as Hin by (rewrite <-Hids; by apply list_elem_of_fmap_2).
      split; [done|]. exists e. split_and!; [done|done|]. destruct Htg2 as [_ Hf].
      rewrite Forall_forall in Hf. destruct (Hf _ Hin) as (e' & He' & Hru & _). congruence. }
    assert (Forall (λ it, e_PipelineRunID it = Some (rs_RunID request)) items) as Hruns.
    { apply Forall_forall. intros it Hit. destruct (Hitems it Hit) as (_ & e & _ & Hsi & Hru).
      rewrite <-Hru. symmetry. apply Hsi. }
    cbv zeta. apply wp_bind. eapply (wp_subgraph_cmds request _ t (rs_RunID request) items [] None a2 w2);
      [done|done|done|done|by apply clock_now_ok|].
    intros css w3 Hks3 Hw3 Hd3 Hcss. cbn beta iota. rewrite app_nil_l.
    fold (restarted_run t run).
    destruct (last_root request _ items None) as [root|] eqn:Hroot; cycle 1.
    { apply last_root_None in Hroot as [_ Hroot]. eapply attempt_rely; [exact Hr2|]. apply wp_throw.
      apply attempt_error; [by rewrite Hks3| |done]. right. left. split_and!; [done|done|]. right.
      intros id e Hid He. rewrite <-Hids in Hid. apply list_elem_of_fmap in Hid as (it & -> & Hit).
      destruct (Hitems it Hit) as (_ & e' & He' & Hsi & _). rewrite Forall_forall in Hroot.
      assert (e' = e) as -> by congruence. specialize (Hroot it Hit). unfold root_node in *.
      destruct Hsi as (_ & _ & _ & _ & _ & -> & _). done. }
    apply last_root_Some in Hroot as [[=]|(it & Hit & Hir & ->)].
    eapply wp_mono; [|intros r w'; by apply (attempt_rely _ _ a1 a2)].
    apply wp_bind. eapply (wp_exec _ a2 w3); [by rewrite Hks3| |..].
    + eapply (subgraph_commits request t run items css a2 w3); try done.
      * by rewrite Hks3.
      * destruct Hrs as [H1 H2]. split; [by rewrite Hw3|by rewrite Hd3].
      * destruct Hseen as [H1 H2]. split; [by rewrite Hw3|by rewrite Hd3].
      * by rewrite Hids.
    + intros r w' a' Hr Ha' Hres' [(x & -> & Hf)| ->].
      * eapply attempt_failed; [done|done|by exists x].
      * eapply attempt_refused; [done|done|apply reserved_empty].
    + intros r w' b b' Hrb (Hrunb & Hitb & b1 & Hrsb & ->) Hb' Hrr. rewrite Hids in Hrsb.
      assert (subgraph_step request t ids b (inr (reset_node request (resolve (rs_AvailableAt request) t) it))
        (put_run_store b1 (rs_RunID request) (restarted_run t run))) as Hstep.
      { right. right. exists run, (e_ID it), it, b1. rewrite Forall_forall in Hitb.
        split_and!; [done|by apply Hitems|by apply Hitb|done|done|done|done|].
        by eapply targets_rely. }
      destruct Hrr as [->|(x & -> & Hx)]; [apply wp_ret|]; (eapply attempt_done; [done|exact Hstep|done|]);
        [by left|right; by exists x].
  - intros w2 a2 id e Hr2 Ha2 Hid He Hact. eapply attempt_rely; [exact Hr2|].
    apply attempt_error; [done| |done]. left. split_and!; [done|done|]. by exists id, e.
  - intros e w2 a2 Hr2 Ha2 He. eapply attempt_failed; [done|done|by exists e].
Qed.

(** Every execution of a requested node that is stored when the call starts is among the executions the
    transaction resets. *)
Lemma RestartPipelineSubgraph_atomic request a w :
  NoDup (subgraph_nodes request) → time_ok (rs_AvailableAt request) → Rep prefix a (KS w) →
  wp (Redis.RestartPipelineSubgraph prefix request) (λ r w', ∃ t ids a', clock_ok t ∧
    Rep prefix a' (KS w') ∧ (Failed r ∧ rely a a' ∨
      (∀ n id, n ∈ subgraph_nodes request → refers a (KNode (rs_RunID request) n) = Some id → id ∈ ids) ∧
      outcome (subgraph_step request t ids) a r a')) w.
Proof.
  intros Hnd Hav Ha. unfold Redis.RestartPipelineSubgraph. apply wp_bind. unfold redis_now.
  eapply wp_Time; [done|..]; cycle 1.
  { intros e w1 a1 (Hr & Ha1 & _) He. exists (2 ^ 63)%Z, [], a1.
    split_and!; [unfold clock_ok, Second; lia|done|]. left. split; [by exists e|done]. }
  intros t w1 a1 (Hr1 & Ha1 & _) Ht. cbv zeta. fold (resolve (rs_AvailableAt request) t).
  apply wp_bind. eapply wp_node_ids; [done|..]; cycle 1.
  { intros e w2 a2 Hr2 Ha2 He. exists t, [], a2. split_and!; [done|done|]. left.
    split; [by exists e|by eapply rely_2]. }
  intros ids ns w2 a2 Hr2 Ha2 Hsub Hat Hall. simpl app.
  pose proof (nodes_at_targets request ns a2 ids (rep_inv _ _ _ Ha2) Hnd Hsub Hat) as Htg.
  eapply wp_mono; [eapply (wp_watch_value_from _ _ ∅ (subgraph_step request t ids) a2); [|done|apply reserved_empty]|].
  { intros b w3 Hrb Hb Hw3 _. apply subgraph_attempt; [done|done|done|by eapply targets_rely|done]. }
  intros r w3 (a3 & Ha3 & Ho). exists t, ids, a3. split_and!; [done|done|]. right. split.
  - intros n id Hn Href. eapply Hall; [done|]. by eapply (refers_rely a).
  - eapply outcome_rely; [|exact Ho]. by eapply rely_2.
Qed.
End Subgraph.
