(* ===== verification/RedisCounts.v ===== *)
(** * The statistics of the Redis store

    [ExecutionCounts] and [PipelineCounts] are read from counters that every transaction maintains.  They
    report what counting the records would: at one instant of the call, the rows are those of the
    in-memory store on the same records. *)

From S2P Require Import Prelude GoLib GoText Model Memory MemoryInv MemoryCounts.
From S2P Require Import RedisKeys RedisServer Redis RedisRuns RedisOps RedisRep RedisCommit.
From S2P Require Import RedisTx RedisLin RedisDelivery.

(** ** The fields of the counters *)

Section Fields.
Context `{E : GoEnv} {HE : GoEnvOk}.

Lemma cut_countField (name status : string) :
  no_byte Ascii.zero name → cut_NUL (countField name status) = Some (name, status).
Proof.
  unfold countField. induction name as [|c name IH]; intros Hn; simpl; [done|].
  destruct Hn as [Hc Hn]. rewrite bool_decide_eq_false_2 by done. by rewrite IH.
Qed.

Lemma cut_NUL_some (name status : string) : is_Some (cut_NUL (countField name status)).
Proof.
  unfold countField. induction name as [|c name IH]; simpl; [by eexists|].
  case_bool_decide; [by eexists|]. destruct IH as [[a b] ->]. by eexists.
Qed.

Lemma parseCount_ok name status z :
  int_ok z → ∃ n s, parseCount (countField name status) (pretty z) = inr (n, s, z) ∧
    (no_byte Ascii.zero name → n = name ∧ s = status).
Proof.
  intros Hz. unfold parseCount. destruct (cut_NUL_some name status) as [[n s] Hc].
  exists n, s. rewrite Hc, ParseInt_pretty by done. split; [done|]. intros Hn.
  rewrite cut_countField in Hc by done. by injection Hc as <- <-.
Qed.
End Fields.

(** The number of records with a label, counted in a list. *)
Lemma tally_occurrences {A} (label : A → string * string) (m : gmap UUID A) l :
  tally label m l = occurrences_of l (label <$> (map_to_list m).*2).
Proof.
  induction m as [|id x m Hid IH] using map_ind.
  - by rewrite tally_empty, map_to_list_empty.
  - rewrite (tally_insert label m id x l Hid), IH.
    assert (label <$> (map_to_list (<[id:=x]> m)).*2 ≡ₚ label x :: (label <$> (map_to_list m).*2)) as Hp
      by (rewrite (map_to_list_insert m id x Hid); done).
    rewrite (occurrences_of_perm _ _ _ Hp). unfold occurrences_of, hit. simpl.
    case_bool_decide; case_decide; simpl; try congruence; lia.
Qed.

Lemma tally_pos {A} (label : A → string * string) (m : gmap UUID A) l :
  (0 < tally label m l)%Z → ∃ id x, m !! id = Some x ∧ label x = l.
Proof.
  unfold tally. intros Hpos. destruct (map_choose (filter (λ p, label p.2 = l) m)) as (id & x & Hx).
  - intros Hem. rewrite Hem, map_size_empty in Hpos. lia.
  - apply map_lookup_filter_Some in Hx as [Hx Hl]. eauto.
Qed.

(** ** The rows *)

Section Rows.
Context `{E : GoEnv} {HE : GoEnvOk}.
Context {R : Type} (make : string → string → Z → R) (key : R → string * string) (count : R → Z).
Context (key_mk : ∀ a b n, key (make a b n) = (a, b)) (count_mk : ∀ a b n, count (make a b n) = n)
  (mk_eta : ∀ r, make (key r).1 (key r).2 (count r) = r).

Abbreviation row_less := (λ a b, pair_less (key a) (key b)).

Definition row (entry : string * string) : option R :=
  match parseCount entry.1 entry.2 with
  | inr (name, status, z) => if (0 <? z)%Z then Some (make name status z) else None
  | inl _ => None
  end.

Lemma count_loop_rows {W} entries result (w : W) :
  Forall (λ p, ∃ x, parseCount p.1 p.2 = inr x) entries →
  count_loop make entries result w = (inr (result ++ omap row entries), w).
Proof.
  revert result. induction entries as [|[f t] entries IH]; intros result Hall; simpl.
  { by rewrite app_nil_r. }
  apply Forall_cons in Hall as [[[[n s] z] Hp] Hall]. simpl in Hp. unfold row at 1. simpl. rewrite Hp.
  unfold mbind, M_bind, lift. simpl. rewrite IH by done. destruct (0 <? z)%Z; [|done].
  by rewrite <-(assoc_L (++)).
Qed.

Context {A : Type} (label : A → string * string) (m : gmap UUID A) (h : gmap string string).
Context (Hh : counters (tally label m) h) (Hsmall : (Z.of_nat (size m) < 2 ^ 62)%Z).
Context (Hstatus : ∀ x, no_byte Ascii.zero (label x).2).

Lemma tally_int l : int_ok (tally label m l).
Proof using Hsmall. pose proof (tally_bounds label m l). unfold int_ok, MaxInt64. lia. Qed.

Lemma entries_parse entries :
  entries ≡ₚ map_to_list h → Forall (λ p, ∃ x, parseCount p.1 p.2 = inr x) entries.
Proof using HE Hh Hsmall.
  intros Hentries. apply Forall_forall. intros [f t] Hin. rewrite Hentries, elem_of_map_to_list in Hin.
  destruct (counters_field _ _ Hh f t Hin) as (l & -> & Hl & ->).
  destruct (parseCount_ok l.1 l.2 _ (tally_int l)) as (n & s & Hp & _). eauto.
Qed.

(** No name in use holds a NUL. *)
Context (Hname : ∀ id x, m !! id = Some x → no_byte Ascii.zero (label x).1).

Lemma entry_parse f t :
  h !! f = Some t → ∃ n s l, parseCount f t = inr (n, s, tally label m l) ∧ f = countField l.1 l.2 ∧
    no_byte Ascii.zero l.2 ∧ ((0 < tally label m l)%Z → l = (n, s)).
Proof using All.
  intros Hf. destruct (counters_field _ _ Hh f t Hf) as (l & -> & Hl & ->).
  destruct (parseCount_ok l.1 l.2 _ (tally_int l)) as (n & s & Hp & Hns). exists n, s, l.
  split_and!; [done|done|done|]. intros (id & x & Hx & <-)%tally_pos.
  destruct (Hns (Hname id x Hx)) as [-> ->]. by destruct (label x).
Qed.

Lemma row_spec f t r :
  h !! f = Some t → row (f, t) = Some r →
  f = countField (key r).1 (key r).2 ∧ no_byte Ascii.zero (key r).2 ∧
  count r = tally label m (key r) ∧ (0 < count r)%Z.
Proof using All.
  intros Hf. destruct (entry_parse f t Hf) as (n & s & l & Hp & -> & Hl & Hpos). unfold row. simpl.
  rewrite Hp. destruct (Z.ltb_spec 0 (tally label m l)) as [Hlt|]; [|done].
  intros [= <-]. specialize (Hpos Hlt) as ->. rewrite key_mk, count_mk. by split_and!.
Qed.

(** The sorted rows of the counters are the report on the records. *)
Lemma count_rows_report entries :
  entries ≡ₚ map_to_list h →
  report key count (label <$> (map_to_list m).*2) (sort_Slice row_less (omap row entries)).
Proof using All.
  intros Hentries. assert (∀ f t, (f, t) ∈ entries ↔ h !! f = Some t) as Hin.
  { intros f t. by rewrite Hentries, elem_of_map_to_list. }
  split.
  - intros r. rewrite elem_of_sort_Slice, list_elem_of_omap, <-tally_occurrences. split.
    + intros ([f t] & Hft & Hr). apply Hin in Hft. destruct (row_spec f t r Hft Hr) as (_ & _ & H1 & H2). done.
    + intros [Hpos Hc]. destruct (h !! countField (key r).1 (key r).2) as [t|] eqn:Hf.
      * exists (countField (key r).1 (key r).2, t). split; [by apply Hin|].
        destruct (entry_parse _ _ Hf) as (n & s & l & Hp & Heq & Hl & Hl').
        assert (l = key r) as ->.
        { rewrite Hc in Hpos. apply tally_pos in Hpos as (id & x & _ & Hx). specialize (Hstatus x).
          rewrite Hx in Hstatus. apply countField_inj in Heq as [H1 H2]; [|done..]. destruct l, (key r). simpl in *. congruence. }
        unfold row. simpl. rewrite Hp, <-Hc. destruct (Z.ltb_spec 0 (count r)); [|lia].
        rewrite Hc in Hpos. specialize (Hl' Hpos). rewrite <-(mk_eta r) at 2. by rewrite Hl'.
      * exfalso. pose proof Hpos as Hpos'. rewrite Hc in Hpos. apply tally_pos in Hpos as (id & x & _ & Hx).
        rewrite (counters_missing _ _ Hh) in Hc; [lia|by rewrite <-Hx|done].
  - apply strictly_sorted.
    + rewrite sort_Slice_perm. assert (NoDup entries.*1) as Hnd
        by (rewrite Hentries; apply NoDup_fst_map_to_list).
      assert (∀ f t, (f, t) ∈ entries → h !! f = Some t) as Hin' by naive_solver. clear Hin Hentries.
      induction entries as [|[f t] entries IH]; simpl; [constructor|].
      apply NoDup_cons in Hnd as [Hni Hnd]. assert (∀ f t, (f, t) ∈ entries → h !! f = Some t) as Hin''
        by (intros; apply Hin'; by right).
      destruct (row (f, t)) as [r|] eqn:Hr; [|by apply IH]. simpl. apply NoDup_cons. split; [|by apply IH].
      intros (r' & Hk & Hr')%list_elem_of_fmap. apply list_elem_of_omap in Hr' as ([f' t'] & Hft & Hr').
      apply Hni. destruct (row_spec f t r) as (-> & _); [apply Hin'; left|done|].
      destruct (row_spec f' t' r') as (Hf' & _); [by apply Hin''|done|]. rewrite Hk, <-Hf'.
      by apply (list_elem_of_fmap_2 fst) in Hft.
    + apply sort_Slice_sorted.
      * intros a b. apply pair_less_asym.
      * intros a b c. apply pair_geq_trans.
Qed.
End Rows.

(** A report determines its rows. *)
Lemma report_unique {R} (key : R → string * string) (count : R → Z) keys rows rows' :
  (∀ r r', key r = key r' → count r = count r' → r = r') →
  report key count keys rows → report key count keys rows' → rows = rows'.
Proof.
  intros Heta [Hin Hs] [Hin' Hs']. apply (StronglySorted_perm_eq (λ a b, pair_less (key a) (key b) = true));
    [|done|done|].
  - intros x y _ _ Hxy Hyx. pose proof (pair_less_asym _ _ Hxy). congruence.
  - apply NoDup_Permutation.
    + clear - Hs. induction Hs as [|x l Hl IH Hx]; constructor; [|done]. intros Hin.
      rewrite Forall_forall in Hx. specialize (Hx x Hin). by rewrite pair_less_irrefl in Hx.
    + clear - Hs'. induction Hs' as [|x l Hl IH Hx]; constructor; [|done]. intros Hin.
      rewrite Forall_forall in Hx. specialize (Hx x Hin). by rewrite pair_less_irrefl in Hx.
    + intros r. by rewrite Hin, Hin'.
Qed.

(** ** The two reports *)

Section Counts.
Context `{E : GoEnv} {HE : GoEnvOk} {C : Codec} {HC : CodecOk}.
Context {W : Type} `{!RedisClient W} `{!Process W} {SV : Server W} {HS : ServerOk W}.

Abbreviation prefix := (srv_prefix (W := W)).
Abbreviation st := (srv_state (W := W)).
Abbreviation transport := (srv_transport (W := W)).
Abbreviation rely := (srv_rely (W := W)).
Abbreviation Failed := (failed transport).
Abbreviation KS w := (keyspace (st w)).

(** The names of the tasks and pipelines in use hold no NUL. *)
Definition plain_names (a : RStore) : Prop :=
  (∀ id e, execs a !! id = Some e → no_byte Ascii.zero (e_TaskName e)) ∧
  (∀ id r, runs a !! id = Some r → no_byte Ascii.zero (r_PipelineName r)).

(** A hash of counters is read at one instant. *)
Lemma wp_counts {A R} (mk : string → string → Z → R) (sort : list R → list R)
    (label : A → string * string) (m : RStore → gmap UUID A) k a w (Q : error + list R → W → Prop) :
  (∀ a ks, Rep prefix a ks → ∃ h, as_hash (ks !! k) = Some h ∧ counters (tally label (m a)) h) →
  (∀ a, small a → Z.of_nat (size (m a)) < 2 ^ 62)%Z →
  Rep prefix a (KS w) →
  (∀ a' w' h entries, rely a a' → Rep prefix a' (KS w') → small a' → counters (tally label (m a')) h →
     entries ≡ₚ map_to_list h →
     wp (result ← count_loop mk entries []; mret (sort result)) Q w') →
  (∀ e w' a', rely a a' → Rep prefix a' (KS w') → transport e → Q (inl e) w') →
  wp (values ← redis_HGetAll k; entries ← process_range _ (map_to_list values);
      result ← count_loop mk entries []; mret (sort result)) Q w.
Proof.
  intros Hk Hm Ha HQ1 HQ2. apply wp_bind.
  eapply wp_mono; [apply (law_HGetAll prefix st srv_others transport)|]. intros r w1 [He Hr].
  destruct (evolve_Rep _ _ _ Ha He) as (a1 & Hr1 & Ha1).
  assert (small a1) as Hsm by (eapply Rep_size; [done|by eapply evolve_size]).
  destruct Hr as [(e & -> & Ht)|Hr]; [by eapply HQ2|]. destruct (Hk _ _ Ha1) as (h & Hh & Hc).
  rewrite Hh in Hr. rewrite (Hr _ eq_refl). apply wp_bind.
  eapply wp_mono; [apply (law_range prefix st srv_others transport)|].
  intros r' w2 (entries & -> & Hp & Hst). eapply HQ1; [done|by rewrite Hst|done|done|done].
Qed.

Lemma redis_ExecutionCounts a w :
  Rep prefix a (KS w) →
  wp (RedisRuns.ExecutionCounts prefix) (λ r w', ∃ a', rely a a' ∧ Rep prefix a' (KS w') ∧
    (Failed r ∨ (plain_names a' → ∃ rows, r = inr rows ∧
       report (λ row, (ec_TaskName row, ec_Status row)) ec_Count
         (execution_key <$> (map_to_list (execs a')).*2) rows))) w.
Proof.
  intros Ha. eapply (wp_counts _ (sort_Slice _) exec_label (λ a, execs a)); [|intros b Hb; exact (proj1 Hb)|done|..].
  - intros b ks Hb. exact (rep_key _ _ _ Hb KExecutionCounts).
  - intros a1 w1 h entries Hr Ha1 [Hsm _] Hh Hent.
    eapply wp_run; [unfold mbind, M_bind; rewrite count_loop_rows by (by eapply entries_parse); done|].
    exists a1. split_and!; [done|done|]. right. intros [Hn _]. eexists. split; [done|].
    apply (count_rows_report mkExecutionCount (λ row, (ec_TaskName row, ec_Status row)) ec_Count
      (λ _ _ _, eq_refl) (λ _ _ _, eq_refl) ltac:(by intros [])
      exec_label (execs a1) h Hh Hsm exec_label_no_NUL Hn). done.
  - intros e w1 a1 Hr Ha1 He. exists a1. split_and!; [done|done|]. left. by exists e.
Qed.

Lemma redis_PipelineCounts a w :
  Rep prefix a (KS w) →
  wp (RedisRuns.PipelineCounts prefix) (λ r w', ∃ a', rely a a' ∧ Rep prefix a' (KS w') ∧
    (Failed r ∨ (plain_names a' → ∃ rows, r = inr rows ∧
       report (λ row, (pc_PipelineName row, pc_Status row)) pc_Count
         (run_key <$> (map_to_list (runs a')).*2) rows))) w.
Proof.
  intros Ha. eapply (wp_counts _ (sort_Slice _) run_label (λ a, runs a)); [|intros b Hb; exact (proj2 Hb)|done|..].
  - intros b ks Hb. exact (rep_key _ _ _ Hb KPipelineCounts).
  - intros a1 w1 h entries Hr Ha1 [_ Hsm] Hh Hent.
    eapply wp_run; [unfold mbind, M_bind; rewrite count_loop_rows by (by eapply entries_parse); done|].
    exists a1. split_and!; [done|done|]. right. intros [_ Hn]. eexists. split; [done|].
    apply (count_rows_report mkPipelineCount (λ row, (pc_PipelineName row, pc_Status row)) pc_Count
      (λ _ _ _, eq_refl) (λ _ _ _, eq_refl) ltac:(by intros [])
      run_label (runs a1) h Hh Hsm run_label_no_NUL Hn). done.
  - intros e w1 a1 Hr Ha1 He. exists a1. split_and!; [done|done|]. left. by exists e.
Qed.
End Counts.
