(* ===== verification/RedisReads.v ===== *)
(** * The listings of the Redis store

    A listing reads an index at one instant and then every record it names.  Under interference each
    record is returned as it was when it was read; in a store that nobody changes meanwhile, a listing is
    the one of the in-memory store. *)

From S2P Require Import Prelude GoLib GoText Model Memory MemoryInv MemoryLists.
From S2P Require Import RedisKeys RedisServer Redis RedisRuns RedisOps RedisRep RedisCommit.
From S2P Require Import RedisTx RedisSteps RedisLin RedisCreate RedisDelivery.

(** ** The order of an index *)

Section Order.
Context `{E : GoEnv} {HE : GoEnvOk}.

Lemma score_less_spec a b :
  score_less a b = true ↔ (a.2 < b.2)%Z ∨ a.2 = b.2 ∧ str_lt a.1 b.1 = true.
Proof.
  unfold score_less. destruct (Z.eqb_spec a.2 b.2) as [->|Hne]; [|rewrite Z.ltb_lt]; split; naive_solver lia.
Qed.

Lemma score_less_asym a b : score_less a b = true → score_less b a = false.
Proof.
  intros Hab. destruct (score_less b a) eqn:Hba; [|done]. exfalso.
  apply score_less_spec in Hab, Hba. destruct Hab as [?|[? Hab]], Hba as [?|[? Hba]]; try lia.
  pose proof (str_lt_trans _ _ _ Hab Hba) as Hlt. by rewrite str_lt_irrefl in Hlt.
Qed.

Lemma score_less_total a b : score_less a b = true ∨ a = b ∨ score_less b a = true.
Proof.
  rewrite !score_less_spec. destruct a as [a1 a2], b as [b1 b2]; simpl.
  destruct (Z.lt_trichotomy a2 b2) as [?|[->|?]]; [auto| |auto].
  destruct (str_lt_total a1 b1) as [?|[->|?]]; auto.
Qed.

Lemma score_less_trans a b c : score_less a b = true → score_less b c = true → score_less a c = true.
Proof.
  rewrite !score_less_spec. intros [?|[-> ?]] [?|[<- ?]]; [left; lia|by left|by left|].
  right. split; [done|]. by eapply str_lt_trans.
Qed.

Lemma not_score_less_trans a b c :
  score_less b a = false → score_less c b = false → score_less c a = false.
Proof.
  intros Hba Hcb. destruct (score_less c a) eqn:Hca; [|done].
  destruct (score_less_total a b) as [Hab|[->|?]]; [|congruence..].
  pose proof (score_less_trans _ _ _ Hca Hab). congruence.
Qed.

(** The identifiers of an index, in its order: by score, then by the printed identifier. *)
Definition precedes {A} (f : A → option Z) (m : gmap UUID A) (i j : UUID) : Prop :=
  ∃ x y s t, m !! i = Some x ∧ f x = Some s ∧ m !! j = Some y ∧ f y = Some t ∧
    score_less (uuid_String i, s) (uuid_String j, t) = true.

Record enumerates {A} (f : A → option Z) (m : gmap UUID A) (ids : list UUID) : Prop := {
  en_nodup : NoDup ids;
  en_elem : ∀ id, id ∈ ids ↔ ∃ x, m !! id = Some x ∧ is_Some (f x);
  en_sorted : StronglySorted (precedes f m) ids;
}.

Lemma zset_entries_sorted z : StronglySorted (λ a b, score_less a b = true) (zset_entries z).
Proof.
  pose proof (sort_Slice_sorted score_less score_less_asym not_score_less_trans (map_to_list z)) as Hs.
  assert (NoDup (zset_entries z)) as Hnd
    by (unfold zset_entries; rewrite sort_Slice_perm; apply NoDup_map_to_list).
  unfold zset_entries in *. induction Hs as [|a l Hl IH Ha]; [constructor|].
  apply NoDup_cons in Hnd as [Hni Hnd]. constructor; [by apply IH|]. rewrite Forall_forall in Ha |- *.
  intros b Hb. destruct (score_less_total a b) as [?|[->|Hba]]; [done|done|].
  specialize (Ha b Hb). congruence.
Qed.

Lemma zrange_members {A} (f : A → option Z) (m : gmap UUID A) :
  ∃ ids, zrange (members f m) = uuid_String <$> ids ∧ enumerates f m ids.
Proof.
  assert (∀ l, StronglySorted (λ a b, score_less a b = true) l →
    (∀ p, p ∈ l → members f m !! p.1 = Some p.2) →
    ∃ ids, l.*1 = uuid_String <$> ids ∧ StronglySorted (precedes f m) ids ∧
      Forall2 (λ p id, p.1 = uuid_String id ∧ ∃ x, m !! id = Some x ∧ f x = Some p.2) l ids) as Hl.
  { induction 1 as [|p l Hl IH Hp]; intros Hin; [exists []; split_and!; by constructor|].
    destruct IH as (ids & Hids & Hs & Hf); [intros; apply Hin; by right|].
    destruct p as [v z]. destruct (members_Some f m v z) as [Hv _].
    destruct (Hv (Hin (v, z) ltac:(left))) as (id & x & -> & Hx & Hfx).
    exists (id :: ids). rewrite !fmap_cons, Hids. split_and!; [done| |].
    - constructor; [done|]. apply Forall_forall. intros j (i & Hj)%list_elem_of_lookup.
      destruct (Forall2_lookup_r _ _ _ _ _ Hf Hj) as ([v' z'] & Hi & Hv' & y & Hy & Hfy).
      simpl in Hv', Hfy. subst v'.
      exists x, y, z, z'. split_and!; try done. rewrite Forall_forall in Hp.
      apply (Hp (uuid_String j, z')). by eapply list_elem_of_lookup_2.
    - constructor; [|done]. split; [done|]. by exists x. }
  destruct (Hl (zset_entries (members f m))) as (ids & Hids & Hs & Hf).
  { apply zset_entries_sorted. }
  { intros p Hp. by apply elem_of_zset_entries. }
  exists ids. split; [exact Hids|]. split; [| |done].
  - apply (NoDup_fmap_1 uuid_String). rewrite <-Hids. apply NoDup_zrange.
  - intros id. trans (uuid_String id ∈ zrange (members f m)).
    + unfold zrange. rewrite Hids. rewrite list_elem_of_fmap_inj by apply _. done.
    + rewrite elem_of_zrange, lookup_members. split.
      * intros [z Hz]. destruct (m !! id) as [x|]; [|done]. exists x. by split; [|exists z].
      * intros (x & -> & Hx). exact Hx.
Qed.
End Order.

Lemma distinct_filter {A} (uid : A → UUID) (P : A → bool) l :
  NoDup (uid <$> l) → distinct uid (List.filter P l).
Proof.
  unfold distinct. induction l as [|x l IH]; [constructor|]. rewrite fmap_cons.
  intros [Hni Hnd]%NoDup_cons. simpl. destruct (P x); [|by apply IH]. rewrite fmap_cons.
  constructor; [|by apply IH]. intros (y & Heq & [Hy _]%elem_of_filter_In)%list_elem_of_fmap. apply Hni.
  rewrite Heq. by apply list_elem_of_fmap_2.
Qed.

(** The indexes of runs. *)
Definition is_run_index (k : Key) : bool :=
  match k with KRuns | KRunStatus _ => true | _ => false end.

(** ** The filter *)

Section Filter.
Context `{E : GoEnv} {HE : GoEnvOk}.

(** The index that a filter selects. *)
Definition filter_index (filter : ListFilter) : Key :=
  match f_PipelineRunID filter with
  | Some runID => KRunExecutions runID
  | None =>
      if negb (is_empty (f_TaskName filter)) then KTask (f_TaskName filter)
      else if negb (is_empty (f_Status filter)) then KStatus (f_Status filter)
      else KExecutions
  end.

Lemma executionIndexFor_key prefix filter :
  executionIndexFor prefix filter = key_name prefix (filter_index filter).
Proof.
  unfold executionIndexFor, filter_index. destruct (f_PipelineRunID filter); [done|].
  destruct (is_empty (f_TaskName filter)), (is_empty (f_Status filter)); done.
Qed.

Lemma filter_index_is_index filter : is_index (filter_index filter) = true.
Proof.
  unfold filter_index. destruct (f_PipelineRunID filter); [done|].
  destruct (is_empty (f_TaskName filter)), (is_empty (f_Status filter)); done.
Qed.

(** The filter of the Redis store is that of the in-memory store. *)
Lemma matches_same filter e : matchesExecutionFilter e filter = matches_filter filter e.
Proof.
  unfold matchesExecutionFilter, matches_filter, in_page, before, beforeCursor.
  destruct (is_empty (f_TaskName filter)), (bool_decide (e_TaskName e = f_TaskName filter)),
    (is_empty (f_Status filter)), (bool_decide (Status_string (e_Status e) = f_Status filter)); simpl;
    try done; destruct (f_Before filter), (f_PipelineRunID filter); simpl; try done;
    try match goal with |- context [negb (?x || ?y)] => destruct (x || y) end; simpl;
    by rewrite ?andb_true_r, ?andb_false_r.
Qed.

(** Every execution that matches is in the index, with the score of its creation. *)
Lemma filter_index_complete filter leased e :
  matches_filter filter e = true →
  index leased (filter_index filter) e = Some (score (e_CreatedAt e)).
Proof.
  unfold matches_filter, filter_index. rewrite !andb_true_iff, !orb_true_iff, !bool_decide_eq_true.
  intros [[[Hn Hs] Hr] _]. destruct (f_PipelineRunID filter) as [run|].
  { apply bool_decide_eq_true in Hr. simpl. by rewrite decide_True. }
  destruct (is_empty (f_TaskName filter)); simpl.
  - destruct (is_empty (f_Status filter)); simpl; [done|]. rewrite decide_True; [done|naive_solver].
  - rewrite decide_True; [done|naive_solver].
Qed.

Lemma filter_index_score filter leased e s :
  index leased (filter_index filter) e = Some s → s = score (e_CreatedAt e).
Proof.
  unfold filter_index. destruct (f_PipelineRunID filter) as [run|]; simpl; [case_decide; congruence|].
  destruct (is_empty (f_TaskName filter)), (is_empty (f_Status filter)); simpl; try case_decide; congruence.
Qed.

(** The loop of [ListExecutions], on the executions that it reads. *)
Fixpoint list_pure (filter : ListFilter) (its items : list Execution) : list Execution :=
  match its with
  | [] => items
  | it :: its' =>
      if negb (matchesExecutionFilter it filter) then list_pure filter its' items else
      if (0 <? f_Limit filter)%Z && (Z.of_nat (length (items ++ [it])) =? f_Limit filter)%Z
      then items ++ [it] else list_pure filter its' (items ++ [it])
  end.

Lemma list_pure_limit filter its items :
  ((0 < f_Limit filter) → Z.of_nat (length items) < f_Limit filter)%Z →
  list_pure filter its items
  = limit_slice (f_Limit filter) (items ++ List.filter (λ e, matchesExecutionFilter e filter) its).
Proof.
  revert items. induction its as [|it its IH]; intros items Hlen; simpl.
  { unfold limit_slice. rewrite app_nil_r. destruct (Z.ltb_spec 0 (f_Limit filter)); [|done]. simpl.
    destruct (Z.ltb_spec (f_Limit filter) (Z.of_nat (length items))); [lia|done]. }
  destruct (matchesExecutionFilter it filter); simpl; [|by apply IH].
  set (rest := List.filter _ its) in *.
  assert (items ++ it :: rest = (items ++ [it]) ++ rest) as -> by (by rewrite <-(assoc_L (++))).
  rewrite length_app. simpl length.
  destruct (Z.ltb_spec 0 (f_Limit filter)) as [Hpos|]; simpl;
    [|apply IH; rewrite length_app; simpl; lia].
  destruct (Z.eqb_spec (Z.of_nat (length items + 1)) (f_Limit filter)) as [Heq|Hne].
  - unfold limit_slice. rewrite (proj2 (Z.ltb_lt _ _) Hpos). simpl. rewrite !length_app. simpl.
    destruct (Z.ltb_spec (f_Limit filter) (Z.of_nat (length items + 1 + length rest))).
    + assert (Z.to_nat (f_Limit filter) = length (items ++ [it])) as -> by (rewrite length_app; simpl; lia).
      by rewrite take_app_length.
    + assert (length rest = 0) as ->%nil_length_inv by lia. by rewrite app_nil_r.
  - apply IH. rewrite length_app. simpl. lia.
Qed.
End Filter.

(** ** Reads of records *)

Section Reads.
Context `{E : GoEnv} {HE : GoEnvOk} {C : Codec} {HC : CodecOk}.
Context {W : Type} `{!RedisClient W} `{!Process W} {SV : Server W} {HS : ServerOk W} {HR : Retention W}.

Abbreviation prefix := (srv_prefix (W := W)).
Abbreviation st := (srv_state (W := W)).
Abbreviation transport := (srv_transport (W := W)).
Abbreviation rely := (srv_rely (W := W)).
Abbreviation Failed := (failed transport).
Abbreviation KS w := (keyspace (st w)).

(** The execution [it] is a later version of the execution [id]. *)
Definition version (a : RStore) (id : UUID) (it : Execution) : Prop :=
  ∃ b, rely a b ∧ execs b !! id = Some it.

Lemma version_rely a a' id it : rely a a' → version a' id it → version a id it.
Proof. intros Hr (b & Hb & Hit). exists b. split; [by eapply rely_2|done]. Qed.

Definition known (a : RStore) (ids : list UUID) : Prop := Forall (λ id, is_Some (execs a !! id)) ids.

Lemma known_rely a a' ids : rely a a' → known a ids → known a' ids.
Proof.
  intros Hr Hk. eapply Forall_impl; [exact Hk|]. intros id [e He].
  destruct (rely_retains _ _ _ _ Hr He) as (e' & He' & _). by exists e'.
Qed.

Lemma known_versions a ids : known a ids → ∃ its, Forall2 (version a) ids its.
Proof.
  induction 1 as [|id ids [e He] Hk (its & IH)]; [by exists []|]. exists (e :: its).
  constructor; [|done]. exists a. split; [apply rely_0|done].
Qed.

Lemma wp_read_version id a w (Q : error + Execution → W → Prop) :
  Rep prefix a (KS w) → is_Some (execs a !! id) →
  (∀ it w' a', rely a a' → Rep prefix a' (KS w') → execs a' !! id = Some it → Q (inr it) w') →
  (∀ e w' a', rely a a' → Rep prefix a' (KS w') → transport e → Q (inl e) w') →
  wp (GetExecution prefix id) Q w.
Proof.
  intros Ha [e He] HQ1 HQ2. eapply wp_GetExecution; [done|..].
  - intros w1 a1 (Hr & Ha1 & _). destruct (rely_retains _ _ _ _ Hr He) as (it & Hit & _).
    unfold read_execution. rewrite Hit. by eapply HQ1.
  - intros x w1 a1 (Hr & Ha1 & _) Ht. by eapply HQ2.
Qed.

Lemma wp_get_all ids items a w (Q : error + list Execution → W → Prop) :
  Rep prefix a (KS w) → known a ids →
  (∀ its w' a', rely a a' → Rep prefix a' (KS w') → Forall2 (version a) ids its → Q (inr (items ++ its)) w') →
  (∀ e w' a', rely a a' → Rep prefix a' (KS w') → transport e → Q (inl e) w') →
  wp (get_all prefix (uuid_String <$> ids) items) Q w.
Proof.
  revert items a w. induction ids as [|id ids IH]; intros items a w Ha Hk HQ1 HQ2.
  { apply wp_ret. rewrite <-(app_nil_r items). eapply HQ1; [apply rely_0|done|constructor]. }
  apply Forall_cons in Hk as [Hid Hk]. rewrite fmap_cons. cbn [get_all]. rewrite uuid_Parse_String.
  apply wp_bind, wp_ret. apply wp_bind. eapply wp_read_version; [done|done|..].
  - intros it w1 a1 Hr Ha1 Hit. apply (IH _ a1 w1); [done|by eapply known_rely|..].
    + intros its w2 a2 Hr2 Ha2 Hits. rewrite <-(assoc_L (++)). eapply HQ1; [by eapply rely_2|done|].
      constructor; [by exists a1|]. eapply Forall2_impl; [exact Hits|]. intros i x. by apply version_rely.
    + intros e w2 a2 Hr2 Ha2 Ht. eapply HQ2; [by eapply rely_2|done|done].
  - intros e w1 a1 Hr Ha1 Ht. by eapply HQ2.
Qed.

Lemma wp_list_loop filter ids items a w (Q : error + list Execution → W → Prop) :
  Rep prefix a (KS w) → known a ids →
  (∀ its w' a', rely a a' → Rep prefix a' (KS w') → Forall2 (version a) ids its →
     Q (inr (list_pure filter its items)) w') →
  (∀ e w' a', rely a a' → Rep prefix a' (KS w') → transport e → Q (inl e) w') →
  wp (list_loop prefix filter (uuid_String <$> ids) items) Q w.
Proof.
  revert items a w. induction ids as [|id ids IH]; intros items a w Ha Hk HQ1 HQ2.
  { apply wp_ret. eapply (HQ1 []); [apply rely_0|done|constructor]. }
  apply Forall_cons in Hk as [Hid Hk]. rewrite fmap_cons. cbn [list_loop]. rewrite uuid_Parse_String.
  apply wp_bind, wp_ret. apply wp_bind. eapply wp_read_version; [done|done|..].
  - intros it w1 a1 Hr Ha1 Hit. cbv zeta.
    assert (∀ items', (∀ its, list_pure filter (it :: its) items = list_pure filter its items') →
      wp (list_loop prefix filter (uuid_String <$> ids) items') Q w1) as Hnext.
    { intros items' Heq. apply (IH items' a1 w1); [done|by eapply known_rely|..].
      - intros its w2 a2 Hr2 Ha2 Hits. rewrite <-Heq. eapply HQ1; [by eapply rely_2|done|].
        constructor; [by exists a1|]. eapply Forall2_impl; [exact Hits|]. intros i x. by apply version_rely.
      - intros e w2 a2 Hr2 Ha2 Ht. eapply HQ2; [by eapply rely_2|done|done]. }
    destruct (negb (matchesExecutionFilter it filter)) eqn:Hm.
    + apply Hnext. intros its. simpl. by rewrite Hm.
    + destruct ((0 <? f_Limit filter)%Z && _) eqn:Hlim.
      * apply wp_ret. destruct (known_versions a ids Hk) as (its & Hits).
        assert (list_pure filter (it :: its) items = items ++ [it]) as <- by (simpl; by rewrite Hm, Hlim).
        eapply HQ1; [done|done|]. constructor; [by exists a1|done].
      * apply Hnext. intros its. simpl. by rewrite Hm, Hlim.
  - intros e w1 a1 Hr Ha1 Ht. by eapply HQ2.
Qed.

Lemma enumerates_known k a ids : enumerates (index (leased a) k) (execs a) ids → known a ids.
Proof.
  intros [_ He _]. apply Forall_forall. intros id Hid. apply He in Hid as (x & Hx & _). by exists x.
Qed.

Lemma known_reverse a ids : known a ids → known a (reverse ids).
Proof. unfold known. by rewrite Forall_reverse. Qed.

(** [ListExecutions] returns the executions of an index, newest first, as they were when they were read,
    filtered and cut. *)
Lemma redis_ListExecutions filter a w :
  Rep prefix a (KS w) →
  wp (Redis.ListExecutions prefix filter) (λ r w', ∃ a1 a', rely a a1 ∧ rely a1 a' ∧ Rep prefix a' (KS w') ∧
    (Failed r ∨ ∃ ids its, enumerates (index (leased a1) (filter_index filter)) (execs a1) ids ∧
       Forall2 (version a1) (reverse ids) its ∧
       r = inr (limit_slice (f_Limit filter) (List.filter (matches_filter filter) its)))) w.
Proof.
  intros Ha. unfold Redis.ListExecutions. rewrite executionIndexFor_key. apply wp_bind.
  eapply (wp_index _ (filter_index filter) (reverse ∘ zrange)); [apply filter_index_is_index| |done|..].
  { eapply law_ZRevRange; apply _. }
  - intros w1 a1 (Hr1 & Ha1 & _). cbn [compose].
    destruct (zrange_members (index (leased a1) (filter_index filter)) (execs a1)) as (ids & -> & Hen).
    rewrite <-fmap_reverse. eapply wp_list_loop; [done|by eapply known_reverse, enumerates_known|..].
    + intros its w2 a2 Hr2 Ha2 Hits. exists a1, a2. split_and!; [done|done|done|]. right.
      exists ids, its. split_and!; [done|done|]. rewrite list_pure_limit by (simpl; lia). simpl.
      do 2 f_equal. apply List.filter_ext. intros e. apply matches_same.
    + intros e w2 a2 Hr2 Ha2 Ht. exists a1, a2. split_and!; [done|done|done|]. left. by exists e.
  - intros e w1 a1 (Hr1 & Ha1 & _) Ht. exists a1, a1. split_and!; [done|apply rely_0|done|]. left. by exists e.
Qed.

Lemma redis_ListRunExecutions run a w :
  Rep prefix a (KS w) →
  wp (Redis.ListRunExecutions prefix run) (λ r w', ∃ a1 a', rely a a1 ∧ rely a1 a' ∧ Rep prefix a' (KS w') ∧
    (Failed r ∨ ∃ ids its, enumerates (index (leased a1) (KRunExecutions run)) (execs a1) ids ∧
       Forall2 (version a1) ids its ∧ r = inr its)) w.
Proof.
  intros Ha. unfold Redis.ListRunExecutions. apply wp_bind.
  eapply (wp_index _ (KRunExecutions run) zrange); [done| |done|..].
  { eapply law_ZRange; apply _. }
  - intros w1 a1 (Hr1 & Ha1 & _).
    destruct (zrange_members (index (leased a1) (KRunExecutions run)) (execs a1)) as (ids & -> & Hen).
    eapply wp_get_all; [done|by eapply enumerates_known|..].
    + intros its w2 a2 Hr2 Ha2 Hits. exists a1, a2. split_and!; [done|done|done|]. right. by exists ids, its.
    + intros e w2 a2 Hr2 Ha2 Ht. exists a1, a2. split_and!; [done|done|done|]. left. by exists e.
  - intros e w1 a1 (Hr1 & Ha1 & _) Ht. exists a1, a1. split_and!; [done|apply rely_0|done|]. left. by exists e.
Qed.

(** *** Events *)

Lemma decode_texts evs texts items (w : W) :
  Forall2 (λ ev text, marshal_event ev = inr text) evs texts → Forall event_ok evs →
  decode_events texts items w = (inr (items ++ evs), w).
Proof.
  intros Ht. revert items. induction Ht as [|ev text evs texts Hm Ht IH]; intros items Hok.
  { simpl. by rewrite app_nil_r. }
  apply Forall_cons in Hok as [Hev Hok]. destruct (event_codec ev Hev) as (text' & Hm' & Hu).
  assert (text' = text) as -> by congruence. simpl. rewrite Hu, IH by done. by rewrite <-(assoc_L (++)).
Qed.

(** [Events] returns the log of the execution at the instant it is read. *)
Lemma redis_Events id a w :
  Rep prefix a (KS w) →
  wp (Redis.Events prefix id) (λ r w', ∃ a1 a', rely a a1 ∧ rely a1 a' ∧ Rep prefix a' (KS w') ∧
    (Failed r ∨ (execs a1 !! id = None ∧ r = inl (ErrNotFound : error)) ∨
     ∃ evs, m_events (base a') !! id = Some evs ∧ r = inr evs)) w.
Proof.
  intros Ha. unfold Redis.Events. apply wp_bind. eapply wp_GetExecution; [done|..]; cycle 1.
  { intros e w1 a1 (Hr & Ha1 & _) Ht. exists a1, a1. split_and!; [done|apply rely_0|done|]. left. by exists e. }
  intros w1 a1 (Hr & Ha1 & _). unfold read_execution. destruct (execs a1 !! id) as [e|] eqn:He; cycle 1.
  { exists a1, a1. split_and!; [done|apply rely_0|done|]. right. by left. }
  apply wp_bind. eapply (wp_read _ _ a1); [apply law_LRange; apply _|done|].
  intros r w2 a2 (Hr2 & Ha2 & _) [(x & -> & Hx)|Hread].
  { exists a1, a2. split_and!; [done|done|done|]. left. by exists x. }
  destruct (rely_retains _ _ _ _ Hr2 He) as (e' & He' & _).
  destruct (a_log _ (rep_inv _ _ _ Ha2) _ _ He') as (evs & Hevs & _).
  pose proof (rep_key _ _ _ Ha2 (KEvents id)) as Hk. simpl in Hk. rewrite Hevs in Hk.
  destruct Hk as (texts & Hv & Htexts). rewrite Hv in Hread. rewrite (Hread _ eq_refl).
  eapply wp_run; [apply (decode_texts evs); [done|by eapply a_event; [apply Ha2|]]|].
  exists a1, a2. split_and!; [done|done|done|]. right. right. by exists evs.
Qed.

(** ** A store that nobody else changes *)

Section Calm.
Context (calm : ∀ a b, rely a b → b = a).

Lemma versions_calm a ids its :
  Forall2 (version a) ids its → Forall2 (λ id it, execs a !! id = Some it) ids its.
Proof using calm.
  intros Hv. eapply Forall2_impl; [exact Hv|]. intros id it (b & Hb & Hit). by rewrite (calm _ _ Hb) in Hit.
Qed.

(** *** Executions *)

(** Creation instants that the index keeps exactly. *)
Definition whole_milliseconds (a : RStore) : Prop :=
  ∀ id e, execs a !! id = Some e → (e_CreatedAt e mod Millisecond = 0)%Z.

Lemma score_lt t u :
  (t mod Millisecond = 0)%Z → (u mod Millisecond = 0)%Z → (score t < score u ↔ t < u)%Z.
Proof.
  unfold score, unix_epoch, Second, Millisecond. intros Ht Hu. Z.to_euclidean_division_equations; lia.
Qed.

Lemma score_eq t u :
  (t mod Millisecond = 0)%Z → (u mod Millisecond = 0)%Z → (score t = score u ↔ t = u)%Z.
Proof.
  unfold score, unix_epoch, Second, Millisecond. intros Ht Hu. Z.to_euclidean_division_equations; lia.
Qed.

Lemma listed_sorted k a ids its :
  AInv a → whole_milliseconds a → (∀ e s, index (leased a) k e = Some s → s = score (e_CreatedAt e)) →
  enumerates (index (leased a) k) (execs a) ids → Forall2 (λ id it, execs a !! id = Some it) (reverse ids) its →
  StronglySorted (λ x y, newer_execution x y = true) its.
Proof.
  intros Ha Hms Hscore [_ _ Hs] Hits.
  assert (StronglySorted (λ i j, precedes (index (leased a) k) (execs a) j i) (reverse ids)) as Hrev.
  { clear Hits. induction Hs as [|i l Hl IH Hi]; [constructor|]. rewrite reverse_cons.
    apply StronglySorted_app_1; [done|by repeat constructor|].
    intros x y Hx ->%list_elem_of_singleton. rewrite Forall_forall in Hi. apply Hi. by apply elem_of_reverse. }
  clear Hs. revert its Hits. induction Hrev as [|i l Hl IH Hi]; intros its Hits.
  { apply Forall2_nil_inv_l in Hits as ->. constructor. }
  apply Forall2_cons_inv_l in Hits as (x & its' & Hx & Hits & ->). constructor; [by apply IH|].
  apply Forall_forall. intros y (n & Hy)%list_elem_of_lookup.
  destruct (Forall2_lookup_r _ _ _ _ _ Hits Hy) as (j & Hj & Hyj). rewrite Forall_forall in Hi.
  destruct (Hi j) as (y' & x' & t & s & Hy' & Ht & Hx' & Hs & Hless); [by eapply list_elem_of_lookup_2|].
  assert (y' = y) as -> by congruence. assert (x' = x) as -> by congruence.
  apply Hscore in Ht, Hs. subst s t. apply score_less_spec in Hless. simpl in Hless.
  destruct (a_item _ Ha _ _ Hx) as [Hxid _], (a_item _ Ha _ _ Hyj) as [Hyid _].
  unfold newer_execution. apply newer_spec. rewrite Hxid, Hyid.
  rewrite score_lt, score_eq in Hless by (by eapply Hms). naive_solver.
Qed.

(** The executions of an index. *)
Lemma elem_of_listed k a ids its e :
  AInv a → enumerates (index (leased a) k) (execs a) ids → Forall2 (λ id it, execs a !! id = Some it) ids its →
  e ∈ its ↔ execs a !! e_ID e = Some e ∧ is_Some (index (leased a) k e).
Proof.
  intros Ha [_ Hen _] Hits. split.
  - intros (n & Hn)%list_elem_of_lookup. destruct (Forall2_lookup_r _ _ _ _ _ Hits Hn) as (id & Hid & He).
    destruct (a_item _ Ha _ _ He) as [-> _]. split; [done|].
    apply list_elem_of_lookup_2, Hen in Hid as (x & Hx & Hix). by simplify_eq.
  - intros [He Hi]. assert (e_ID e ∈ ids) as (n & Hn)%list_elem_of_lookup by (apply Hen; eauto).
    destruct (Forall2_lookup_l _ _ _ _ _ Hits Hn) as (x & Hx & Hxe). simplify_eq.
    by eapply list_elem_of_lookup_2.
Qed.

Lemma listed_ids a ids its :
  AInv a → Forall2 (λ id it, execs a !! id = Some it) ids its → e_ID <$> its = ids.
Proof.
  intros Ha. induction 1 as [|id it ids its Hit Hits IH]; [done|]. rewrite fmap_cons, IH. f_equal.
  by apply (a_item _ Ha).
Qed.

Lemma listing_calm filter a ids its :
  AInv a → whole_milliseconds a →
  enumerates (index (leased a) (filter_index filter)) (execs a) ids →
  Forall2 (λ id it, execs a !! id = Some it) (reverse ids) its →
  List.filter (matches_filter filter) its = listing filter (mkWorld (base a) 0).
Proof using HC HE.
  intros Ha Hms Hen Hits.
  assert (NoDup (e_ID <$> its)) as Hnd.
  { rewrite (listed_ids a _ _ Ha Hits). rewrite reverse_Permutation. apply Hen. }
  assert (∀ P, distinct e_ID (List.filter P its)) as Hdist by (intros P; by apply distinct_filter).
  apply (sorted_unique e_CreatedAt e_ID); [done| |apply (sort_newer_sorted e_CreatedAt e_ID)|].
  - pose proof (listed_sorted _ a ids its Ha Hms (filter_index_score filter (leased a)) Hen Hits) as Hs.
    apply (StronglySorted_filter _ (matches_filter filter)) in Hs.
    clear -Hs. induction Hs as [|x l Hl IH Hx]; constructor; [done|].
    eapply Forall_impl; [exact Hx|]. intros y. apply newer_asym.
  - apply NoDup_Permutation.
    + eapply (NoDup_fmap_1 e_ID), Hdist.
    + unfold listing. rewrite sort_Slice_perm. apply (NoDup_fmap_1 e_ID). rewrite <-list_fmap_compose.
      apply NoDup_values. intros i x Hx. by apply (a_item _ Ha).
    + intros e. rewrite elem_of_filter_In, elem_of_listing.
      assert (e ∈ its ↔ execs a !! e_ID e = Some e ∧ is_Some (index (leased a) (filter_index filter) e)) as ->.
      { rewrite <-(elem_of_reverse e). eapply (elem_of_listed _ a ids (reverse its)); [done|done|].
        rewrite <-(reverse_involutive ids). by apply Forall2_reverse. }
      simpl. split.
      * intros [[He _] Hm]. exists (e_ID e), e. split_and!; [done|done|]. symmetry.
        apply cloneExecution_id. by apply (a_item _ Ha _ _ He).
      * intros (id & e0 & He0 & Hm & ->). destruct (a_item _ Ha _ _ He0) as (Hid & Hj & _).
        rewrite (cloneExecution_id e0 Hj), Hid. split_and!; [done| |done].
        rewrite (filter_index_complete filter) by done. eauto.
Qed.

(** The listing is the one of the in-memory store on the same records. *)
Lemma ListExecutions_calm filter a w :
  Rep prefix a (KS w) → whole_milliseconds a →
  wp (Redis.ListExecutions prefix filter) (λ r w', Rep prefix a (KS w') ∧
    (Failed r ∨ r = inr (limit_slice (f_Limit filter) (listing filter (mkWorld (base a) 0))))) w.
Proof using All.
  intros Ha Hms. eapply wp_mono; [by apply redis_ListExecutions|].
  intros r w' (a1 & a2 & H1 & H2 & Ha2 & Hr). apply calm in H1, H2. subst a1 a2. split; [done|].
  destruct Hr as [Hf|(ids & its & Hen & Hits & ->)]; [by left|]. right. do 2 f_equal.
  apply (listing_calm filter a ids); [apply Ha2|done|done|by apply versions_calm].
Qed.

(** The executions of a run, in the order of their creation. *)
Lemma ListRunExecutions_calm run a w :
  Rep prefix a (KS w) →
  wp (Redis.ListRunExecutions prefix run) (λ r w', Rep prefix a (KS w') ∧
    (Failed r ∨ ∃ its, r = inr its ∧ NoDup (e_ID <$> its) ∧
       (∀ e, e ∈ its ↔ execs a !! e_ID e = Some e ∧ e_PipelineRunID e = Some run) ∧
       StronglySorted (λ x y, score (e_CreatedAt x) ≤ score (e_CreatedAt y))%Z its)) w.
Proof using All.
  intros Ha. eapply wp_mono; [by apply redis_ListRunExecutions|].
  intros r w' (a1 & a2 & H1 & H2 & Ha2 & Hr). apply calm in H1, H2. subst a1 a2. split; [done|].
  destruct Hr as [Hf|(ids & its & Hen & Hits & ->)]; [by left|]. right. exists its.
  apply versions_calm in Hits. pose proof (rep_inv _ _ _ Ha2) as Hinv. split_and!; [done| | |].
  - rewrite (listed_ids a _ _ Hinv Hits). apply Hen.
  - intros e. rewrite (elem_of_listed _ a ids its e Hinv Hen Hits). simpl.
    split; intros [H1 H2]; (split; [done|]); destruct (decide (e_PipelineRunID e = Some run)); try done;
      by destruct H2.
  - destruct Hen as [_ _ Hs]. clear Ha2. revert its Hits. induction Hs as [|i l Hl IH Hi]; intros its Hits.
    { apply Forall2_nil_inv_l in Hits as ->. constructor. }
    apply Forall2_cons_inv_l in Hits as (x & its' & Hx & Hits & ->). constructor; [by apply IH|].
    apply Forall_forall. intros y (n & Hy)%list_elem_of_lookup.
    destruct (Forall2_lookup_r _ _ _ _ _ Hits Hy) as (j & Hj & Hyj). rewrite Forall_forall in Hi.
    destruct (Hi j) as (x' & y' & s & t & Hx' & Hs & Hy' & Ht & Hless); [by eapply list_elem_of_lookup_2|].
    simplify_eq. simpl in Hs, Ht. case_decide; [|done]. case_decide; [|done]. simplify_eq.
    apply score_less_spec in Hless. simpl in Hless. lia.
Qed.

(** *** Runs *)

Lemma wp_run_index {A} (m : M W A) k (f : gmap string Z → A) a w (Q : error + A → W → Prop) :
  is_run_index k = true →
  reads prefix st srv_others transport m (λ ks, (λ z, inr (f z)) <$> as_zset (ks !! key_name prefix k)) →
  Rep prefix a (KS w) →
  (∀ w', Rep prefix a (KS w') → Q (inr (f (members (run_index k) (runs a)))) w') →
  (∀ e w', Rep prefix a (KS w') → transport e → Q (inl e) w') →
  wp m Q w.
Proof using All.
  intros Hk Hm Ha HQ1 HQ2. eapply (wp_read _ _ a); [exact Hm|done|].
  intros r w' a' (Hr & Ha' & _). apply calm in Hr. subst a'. intros [(e & -> & Ht)|Hread]; [by eapply HQ2|].
  assert (KS w' !! key_name prefix k = zset_value (members (run_index k) (runs a))) as Hz
    by (pose proof (rep_key _ _ _ Ha' k) as H; by destruct k).
  rewrite Hz, as_zset_value in Hread. rewrite (Hread _ eq_refl). by apply HQ1.
Qed.

Lemma wp_union_ids keys ids a w (Q : error + gset string → W → Prop) :
  Forall (λ k, is_run_index k = true) keys → Rep prefix a (KS w) →
  (∀ result w', Rep prefix a (KS w') →
     (∀ s, s ∈ result ↔ s ∈ ids ∨ ∃ k, k ∈ keys ∧ is_Some (members (run_index k) (runs a) !! s)) →
     Q (inr result) w') →
  (∀ e w', Rep prefix a (KS w') → transport e → Q (inl e) w') →
  wp (union_ids (key_name prefix <$> keys) ids) Q w.
Proof using All.
  revert ids w. induction keys as [|k keys IH]; intros ids w Hk Ha HQ1 HQ2.
  { apply wp_ret. apply HQ1; [done|]. intros s. split; [by left|]. intros [?|(k & ?%elem_of_nil & _)]; done. }
  apply Forall_cons in Hk as [Hik Hk]. rewrite fmap_cons. cbn [union_ids]. apply wp_bind.
  eapply (wp_run_index _ k (reverse ∘ zrange)); [done| |done|..].
  { eapply law_ZRevRange; apply _. }
  - intros w1 Ha1. apply IH; [done|done| |done]. intros result w2 Ha2 Hres. apply HQ1; [done|].
    intros s. rewrite Hres, elem_of_union, elem_of_list_to_set. cbn [compose].
    rewrite elem_of_reverse, elem_of_zrange. split.
    + intros [[?|?]|(k' & ? & ?)]; [right; exists k; split; [left|done]|by left|].
      right. exists k'. split; [by right|done].
    + intros [?|(k' & [->|?]%elem_of_cons & ?)]; [left; by right|left; by left|]. right. eauto.
  - intros e w1 Ha1 He. by apply HQ2.
Qed.

(** The runs that a list of states selects. *)
Definition selects (statuses : list string) (r : PipelineRun) : Prop :=
  statuses = [] ∨ RunStatus_string (r_Status r) ∈ statuses.

Lemma wp_pipelineIDs statuses a w (Q : error + gset string → W → Prop) :
  Rep prefix a (KS w) →
  (∀ result w', Rep prefix a (KS w') →
     (∀ s, s ∈ result ↔ ∃ id r, s = uuid_String id ∧ runs a !! id = Some r ∧ selects statuses r) →
     Q (inr result) w') →
  (∀ e w', Rep prefix a (KS w') → transport e → Q (inl e) w') →
  wp (pipelineIDs prefix statuses) Q w.
Proof using All.
  intros Ha HQ1 HQ2. unfold pipelineIDs.
  set (keys := match statuses with [] => [KRuns] | _ => KRunStatus <$> statuses end).
  assert (match statuses with [] => [runsKey prefix] | _ => runStatusKey prefix <$> statuses end
    = key_name prefix <$> keys) as ->.
  { unfold keys. destruct statuses; [done|]. by rewrite <-list_fmap_compose. }
  apply (wp_union_ids _ _ a); [|done| |done].
  { unfold keys. destruct statuses; [by repeat constructor|]. apply Forall_fmap, Forall_true. done. }
  intros result w' Ha' Hres. apply HQ1; [done|]. intros s. rewrite Hres, elem_of_empty. split.
  - intros [[]|(k & Hk & z & Hz)]. apply members_Some in Hz as (id & r & -> & Hr & Hf). exists id, r.
    split_and!; [done|done|]. unfold keys in Hk. destruct statuses as [|s0 statuses]; [by left|]. right.
    apply list_elem_of_fmap in Hk as (st0 & -> & Hst). simpl in Hf. by case_decide; subst.
  - intros (id & r & -> & Hr & Hsel). right. destruct statuses as [|s0 statuses].
    + exists KRuns. split; [left|]. rewrite lookup_members, Hr. by eexists.
    + exists (KRunStatus (RunStatus_string (r_Status r))). destruct Hsel as [[=]|Hsel]. split.
      * unfold keys. by apply list_elem_of_fmap_2.
      * rewrite lookup_members, Hr. simpl. rewrite decide_True by done. by eexists.
Qed.

Lemma wp_run_loop filter ids rs items a w (Q : error + list PipelineRun → W → Prop) :
  Forall2 (λ id r, runs a !! id = Some r) ids rs → Rep prefix a (KS w) →
  (∀ w', Rep prefix a (KS w') →
     Q (inr (items ++ List.filter (λ r, in_page (r_CreatedAt r) (r_ID r) (rf_Before filter)) rs)) w') →
  (∀ e w', Rep prefix a (KS w') → transport e → Q (inl e) w') →
  wp (run_loop prefix filter (uuid_String <$> ids) items) Q w.
Proof using All.
  intros Hrs. revert items w. induction Hrs as [|id r ids rs Hr Hrs IH]; intros items w Ha HQ1 HQ2.
  { apply wp_ret. simpl in HQ1. specialize (HQ1 w Ha). by rewrite app_nil_r in HQ1. }
  rewrite fmap_cons. cbn [run_loop]. rewrite uuid_Parse_String. apply wp_bind, wp_ret. apply wp_bind.
  eapply wp_GetPipelineRun; [done|..].
  - intros w1 a1 (Hrel & Ha1 & _). apply calm in Hrel. subst a1. unfold read_run. rewrite Hr.
    apply IH; [done| |done]. intros w2 Ha2. specialize (HQ1 w2 Ha2). simpl in HQ1.
    unfold in_page at 1 in HQ1. destruct (rf_Before filter) as [c|]; simpl in *.
    + change (beforeCursor (r_CreatedAt r) (r_ID r) c) with (before (r_CreatedAt r) (r_ID r) c) in HQ1.
      destruct (before (r_CreatedAt r) (r_ID r) c); [|done]. by rewrite <-(assoc_L (++)).
    + by rewrite <-(assoc_L (++)).
  - intros e w1 a1 (Hrel & Ha1 & _) Ht. apply calm in Hrel. subst a1. by apply HQ2.
Qed.

Lemma cloneRun_id r : RunItemOk r → cloneRun r = r.
Proof.
  intros [_ (s & Hs & Hne) _]. unfold cloneRun. rewrite Hs. destruct r. simpl in *. subst.
  by destruct s.
Qed.

(** The identifiers that were selected name runs. *)
Lemma selected_runs a S vs :
  AInv a → (∀ v, v ∈ S → ∃ id r, v = uuid_String id ∧ runs a !! id = Some r) →
  vs ≡ₚ elements (C := gset string) S →
  ∃ ids rs, vs = uuid_String <$> ids ∧ Forall2 (λ id r, runs a !! id = Some r) ids rs ∧ NoDup (r_ID <$> rs).
Proof.
  intros Ha HS1 Hperm. assert (NoDup vs) as Hnd by (rewrite Hperm; apply NoDup_elements).
  assert (∀ v, v ∈ vs → v ∈ S) as Hin by (intros v; rewrite Hperm; apply elem_of_elements).
  clear Hperm. induction Hnd as [|v l Hni Hnd IH]; [exists [], []; split_and!; by constructor|].
  destruct IH as (ids & rs & -> & Hf & Hn); [intros; apply Hin; by right|].
  destruct (HS1 v) as (id & r & -> & Hr); [apply Hin; left|].
  exists (id :: ids), (r :: rs). split_and!; [done|by constructor|]. rewrite fmap_cons. constructor; [|done].
  intros (r' & Hid & (n & Hr')%list_elem_of_lookup)%list_elem_of_fmap. apply Hni.
  destruct (Forall2_lookup_r _ _ _ _ _ Hf Hr') as (id' & Hid' & Hr1).
  destruct (a_run _ Ha _ _ Hr) as [H1 _], (a_run _ Ha _ _ Hr1) as [H2 _].
  apply list_elem_of_fmap_2. assert (id = id') as -> by congruence. by eapply list_elem_of_lookup_2.
Qed.

(** The runs that were read and pass the cursor are the runs that match. *)
Lemma selected_matching filter a ids rs :
  AInv a → Forall2 (λ id r, runs a !! id = Some r) ids rs → NoDup (r_ID <$> rs) →
  (∀ id, id ∈ ids ↔ ∃ r, runs a !! id = Some r ∧ selects (rf_Statuses filter) r) →
  List.filter (λ r, in_page (r_CreatedAt r) (r_ID r) (rf_Before filter)) rs
  ≡ₚ cloneRun <$> List.filter (matches_run_filter filter) (map_to_list (runs a)).*2.
Proof.
  intros Hinv Hrs Hnd Hids. apply NoDup_Permutation.
  - apply NoDup_ListNoDup, List.NoDup_filter, NoDup_ListNoDup. by eapply (NoDup_fmap_1 r_ID).
  - apply (NoDup_fmap_1 r_ID). rewrite <-list_fmap_compose. apply NoDup_values.
    intros i x Hx. by apply (a_run _ Hinv).
  - intros x. rewrite elem_of_filter_In, list_elem_of_fmap. split.
    + intros [(n & Hn)%list_elem_of_lookup Hp].
      destruct (Forall2_lookup_r _ _ _ _ _ Hrs Hn) as (id & Hid & Hx). exists x.
      destruct (a_run _ Hinv _ _ Hx) as [_ Hok]. split; [by rewrite cloneRun_id|]. apply elem_of_filter_In.
      split; [apply elem_of_values; by exists id|]. unfold matches_run_filter. rewrite Hp, andb_true_r.
      apply list_elem_of_lookup_2, Hids in Hid as (r & Hr & Hsel). simplify_eq.
      apply orb_true_iff. rewrite !bool_decide_eq_true. exact Hsel.
    + intros (y & -> & [(id & Hy)%elem_of_values Hm]%elem_of_filter_In).
      destruct (a_run _ Hinv _ _ Hy) as [_ Hok]. rewrite cloneRun_id by done.
      unfold matches_run_filter in Hm. apply andb_true_iff in Hm as [Hsel Hp]. split; [|done].
      apply orb_true_iff in Hsel. rewrite !bool_decide_eq_true in Hsel.
      assert (id ∈ ids) as (n & Hn)%list_elem_of_lookup by (apply Hids; by exists y).
      destruct (Forall2_lookup_l _ _ _ _ _ Hrs Hn) as (x & Hx & Hxe). simplify_eq.
      by eapply list_elem_of_lookup_2.
Qed.

(** The listing of the runs is the one of the in-memory store. *)
Lemma ListPipelineRuns_calm filter a w :
  Rep prefix a (KS w) →
  wp (RedisRuns.ListPipelineRuns prefix filter) (λ r w', Rep prefix a (KS w') ∧
    (Failed r ∨ r = inr (limit_slice (rf_Limit filter) (run_listing filter (mkWorld (base a) 0))))) w.
Proof using All.
  intros Ha. unfold RedisRuns.ListPipelineRuns. pose proof (rep_inv _ _ _ Ha) as Hinv.
  apply wp_bind. eapply wp_pipelineIDs; [done|..]; cycle 1.
  { intros e w1 Ha1 He. split; [done|]. left. by exists e. }
  intros S w1 Ha1 HS1. apply wp_bind. eapply wp_mono; [apply (law_range prefix st srv_others transport)|].
  intros r w2 (vs & -> & Hperm & Hst). rewrite <-Hst in Ha1. clear Hst w1.
  destruct (selected_runs a S vs) as (ids & rs & -> & Hrs & Hnd); [done| |done|].
  { intros v (id & r & -> & Hr & _)%HS1. eauto. }
  apply wp_bind. eapply wp_run_loop; [done|done|..]; cycle 1.
  { intros e w3 Ha3 He. split; [done|]. left. by exists e. }
  intros w3 Ha3. apply wp_ret. split; [done|]. right. do 2 f_equal. rewrite app_nil_l.
  apply (sort_newer_perm r_CreatedAt r_ID); [by apply distinct_filter|].
  apply (selected_matching filter a ids); [done|done|done|]. intros id.
  rewrite <-(list_elem_of_fmap_inj uuid_String), Hperm, elem_of_elements, HS1. split.
  - intros (id' & r & <-%(inj uuid_String) & Hr). eauto.
  - intros (r & Hr). eauto.
Qed.
End Calm.
End Reads.
