(* ===== verification/RedisPurge.v ===== *)
(** * Retention in the Redis store

    [Purge] selects the oldest finished records and removes them with their indexes in one transaction.
    It does not watch what it read, so its behaviour is stated for a store that nobody else changes
    meanwhile. *)

From S2P Require Import Prelude GoLib GoText Model Memory MemoryInv MemoryLists.
From S2P Require Import RedisKeys RedisServer Redis RedisRuns RedisOps RedisRep RedisCommit.
From S2P Require Import RedisRecords RedisRunItems RedisTx RedisSteps RedisLin RedisCreate RedisDelivery RedisReads.

(** ** The removed records *)

(** The executions and the run of a unit. *)
Definition unit_items (u : purge_unit) : list Execution :=
  match u with PurgeRun _ nodes => nodes | PurgeItem item => [item] end.
Definition unit_run (u : purge_unit) : option PipelineRun :=
  match u with PurgeRun run _ => Some run | PurgeItem _ => None end.

Definition delete_all `{E : GoEnv} (a : RStore) (items : list Execution) : RStore := foldl delete_store a items.
Definition remove_unit `{E : GoEnv} (a : RStore) (u : purge_unit) : RStore :=
  match u with
  | PurgeRun run nodes => delete_run_store (delete_all a nodes) run
  | PurgeItem item => delete_store a item
  end.
Definition remove_units `{E : GoEnv} (a : RStore) (units : list purge_unit) : RStore := foldl remove_unit a units.

Section Removal.
Context `{E : GoEnv} {HE : GoEnvOk} {C : Codec} {HC : CodecOk} (prefix : string).

Lemma delete_small a e : small a → small (delete_store a e).
Proof.
  destruct (deleteExecution_executions (e_ID e) e (base a)) as (H1 & _ & H3 & _). unfold small, delete_store.
  cbn [base]. rewrite H1, H3. intros [He Hr]. split; [|done].
  pose proof (map_subseteq_size _ _ (delete_subseteq (execs a) (e_ID e))). lia.
Qed.

Lemma delete_execs a e : execs (delete_store a e) = delete (e_ID e) (execs a).
Proof. by destruct (deleteExecution_executions (e_ID e) e (base a)) as (H1 & _). Qed.

Lemma delete_runs a e : runs (delete_store a e) = runs a.
Proof. by destruct (deleteExecution_executions (e_ID e) e (base a)) as (_ & _ & H3 & _). Qed.

Lemma delete_all_runs a items : runs (delete_all a items) = runs a.
Proof.
  revert a. induction items as [|e items IH]; intros a; [done|]. unfold delete_all in *. simpl.
  by rewrite IH, delete_runs.
Qed.

Lemma delete_all_execs a items id :
  id ∉ e_ID <$> items → execs (delete_all a items) !! id = execs a !! id.
Proof.
  revert a. induction items as [|e items IH]; intros a Hid; [done|]. unfold delete_all in *. simpl.
  rewrite fmap_cons, not_elem_of_cons in Hid. destruct Hid as [Hne Hid].
  rewrite IH by done. by rewrite delete_execs, lookup_delete_ne.
Qed.

(** The commands remove the executions one after the other. *)
Lemma Rep_delete_all items a ks :
  Rep prefix a ks → small a → NoDup (e_ID <$> items) → Forall (λ e, execs a !! e_ID e = Some e) items →
  ∃ ks', apply_all (items ≫= purgeExecution prefix) ks = Some ks' ∧ Rep prefix (delete_all a items) ks' ∧
    small (delete_all a items).
Proof.
  revert a ks. induction items as [|e items IH]; intros a ks Ha Hsm Hnd Hits; [by exists ks|].
  rewrite fmap_cons in Hnd. apply NoDup_cons in Hnd as [Hni Hnd]. apply Forall_cons in Hits as [He Hits].
  destruct (Rep_delete prefix a ks e Ha Hsm He) as (ks1 & H1 & Ha1).
  destruct (IH (delete_store a e) ks1 Ha1 (delete_small _ _ Hsm) Hnd) as (ks2 & H2 & Ha2 & Hs2).
  - apply Forall_forall. intros x Hx. rewrite Forall_forall in Hits. rewrite delete_execs, lookup_delete_ne; [by apply Hits|].
    intros Heq. apply Hni. rewrite Heq. by apply list_elem_of_fmap_2.
  - exists ks2. split; [|done]. rewrite bind_cons, apply_all_app, H1. exact H2.
Qed.

(** The records of the units are stored, each once. *)
Record units_stored (a : RStore) (units : list purge_unit) : Prop := {
  us_items : Forall (λ e, execs a !! e_ID e = Some e) (units ≫= unit_items);
  us_runs : Forall (λ r, runs a !! r_ID r = Some r) (omap unit_run units);
  us_items_nodup : NoDup (e_ID <$> (units ≫= unit_items));
  us_runs_nodup : NoDup (r_ID <$> omap unit_run units);
}.

Lemma bind_single u : [u] ≫= unit_items = unit_items u.
Proof. cbn. apply app_nil_r. Qed.

Lemma Rep_remove_unit u a ks :
  Rep prefix a ks → small a → units_stored a [u] →
  ∃ ks', apply_all (unit_cmds prefix u) ks = Some ks' ∧ Rep prefix (remove_unit a u) ks' ∧
    small (remove_unit a u).
Proof.
  intros Ha Hsm [Hits Hruns Hnd _]. rewrite bind_single in Hits, Hnd.
  destruct u as [run nodes|item]; cbn [unit_items unit_cmds remove_unit] in *.
  - destruct (Rep_delete_all nodes a ks Ha Hsm Hnd Hits) as (ks1 & H1 & Ha1 & Hs1).
    apply Forall_inv in Hruns. destruct (Rep_delete_run prefix _ ks1 run Ha1 Hs1) as (ks2 & H2 & Ha2).
    { by rewrite delete_all_runs. }
    exists ks2. split_and!; [by rewrite apply_all_app, H1|done|]. destruct Hs1 as [He Hr]. split; [done|].
    unfold delete_run_store, with_runs. cbn [base m_runs].
    pose proof (map_subseteq_size _ _ (delete_subseteq (runs (delete_all a nodes)) (r_ID run))). simpl in *. lia.
  - apply Forall_inv in Hits. destruct (Rep_delete prefix a ks item Ha Hsm Hits) as (ks1 & H1 & Ha1).
    exists ks1. split_and!; [done|done|by apply delete_small].
Qed.

Lemma remove_unit_execs a u id :
  id ∉ e_ID <$> unit_items u → execs (remove_unit a u) !! id = execs a !! id.
Proof.
  destruct u as [run nodes|item]; cbn [unit_items remove_unit]; intros Hid.
  - by apply delete_all_execs.
  - rewrite delete_execs, lookup_delete_ne; [done|]. intros Heq. apply Hid. rewrite <-Heq. left.
Qed.

Lemma remove_unit_runs a u id :
  (∀ r, unit_run u = Some r → r_ID r ≠ id) → runs (remove_unit a u) !! id = runs a !! id.
Proof.
  destruct u as [run nodes|item]; cbn [unit_run remove_unit]; intros Hid.
  - unfold delete_run_store, with_runs. cbn [base m_runs]. simpl.
    rewrite lookup_delete_ne by (by apply Hid). by rewrite delete_all_runs.
  - by rewrite delete_runs.
Qed.

Lemma Rep_remove_units units a ks :
  Rep prefix a ks → small a → units_stored a units →
  ∃ ks', apply_all (units ≫= unit_cmds prefix) ks = Some ks' ∧ Rep prefix (remove_units a units) ks'.
Proof.
  revert a ks. induction units as [|u units IH]; intros a ks Ha Hsm Hst; [by exists ks|].
  destruct Hst as [Hits Hruns Hnd Hrnd]. rewrite bind_cons in Hits, Hnd. rewrite fmap_app in Hnd.
  apply Forall_app in Hits as [Hit Hits]. apply NoDup_app in Hnd as (Hnd1 & Hdisj & Hnd2).
  assert (units_stored a [u] ∧ Forall (λ r, runs a !! r_ID r = Some r) (omap unit_run units) ∧
    NoDup (r_ID <$> omap unit_run units) ∧
    ∀ r, unit_run u = Some r → r_ID r ∉ r_ID <$> omap unit_run units) as (Hu & Hruns' & Hrnd' & Hrdisj).
  { simpl in Hruns, Hrnd. destruct (unit_run u) as [r|] eqn:Hr.
    - apply Forall_cons in Hruns as [Hr1 Hruns]. rewrite fmap_cons in Hrnd. apply NoDup_cons in Hrnd as [Hn Hrnd].
      split_and!; [|done|done|by intros ? [= <-]].
      split; rewrite ?bind_single; try done; simpl; rewrite Hr;
        [by apply Forall_singleton|apply NoDup_singleton].
    - split_and!; [|done|done|done].
      split; rewrite ?bind_single; try done; simpl; rewrite Hr; constructor. }
  destruct (Rep_remove_unit u a ks Ha Hsm Hu) as (ks1 & H1 & Ha1 & Hs1).
  destruct (IH (remove_unit a u) ks1 Ha1 Hs1) as (ks2 & H2 & Ha2).
  - split; [| |done|done].
    + apply Forall_forall. intros e He. rewrite Forall_forall in Hits. rewrite remove_unit_execs; [by apply Hits|].
      intros Hin. apply (Hdisj _ Hin). by apply list_elem_of_fmap_2.
    + apply Forall_forall. intros r Hr. rewrite Forall_forall in Hruns'. rewrite remove_unit_runs; [by apply Hruns'|].
      intros r' Hr' Heq. apply (Hrdisj r' Hr'). rewrite Heq. by apply list_elem_of_fmap_2.
  - exists ks2. split; [|done]. rewrite bind_cons, apply_all_app, H1. exact H2.
Qed.
End Removal.

(** ** The selection *)

(** What identifies a unit: a run, or an execution that belongs to none. *)
Definition unit_key (u : purge_unit) : bool * UUID :=
  match u with PurgeRun run _ => (true, r_ID run) | PurgeItem e => (false, e_ID e) end.

(** The entry is a finished unit of the store. *)
Definition entry_ok (a : RStore) (before : Time) (en : purge_entry) : Prop :=
  match pe_unit en with
  | PurgeRun run nodes => runs a !! r_ID run = Some run ∧
      finished_before (r_FinishedAt run) before = Some (pe_finished en) ∧ NoDup (e_ID <$> nodes) ∧
      ∀ e, e ∈ nodes ↔ execs a !! e_ID e = Some e ∧ e_PipelineRunID e = Some (r_ID run)
  | PurgeItem e => execs a !! e_ID e = Some e ∧ e_PipelineRunID e = None ∧
      finished_before (e_FinishedAt e) before = Some (pe_finished en)
  end.

Abbreviation entry_keys l := (unit_key ∘ pe_unit <$> l).

(** The units that were removed: the first of all finished units, oldest first. *)
Definition purge_choice (a : RStore) (before : Time) (limit : Z) (units : list purge_unit) : Prop :=
  ∃ all, Forall (entry_ok a before) all ∧ NoDup (entry_keys all) ∧
    (∀ run, runs a !! r_ID run = Some run → is_Some (finished_before (r_FinishedAt run) before) →
       (true, r_ID run) ∈ entry_keys all) ∧
    (∀ e, execs a !! e_ID e = Some e → e_PipelineRunID e = None →
       is_Some (finished_before (e_FinishedAt e) before) → (false, e_ID e) ∈ entry_keys all) ∧
    StronglySorted (λ x y, Before (pe_finished y) (pe_finished x) = false) all ∧
    units = pe_unit <$> take (Z.to_nat limit) all.

(** Different units have different records. *)
Lemma entry_item a before en e :
  entry_ok a before en → e ∈ unit_items (pe_unit en) →
  execs a !! e_ID e = Some e ∧
  unit_key (pe_unit en) = match e_PipelineRunID e with Some run => (true, run) | None => (false, e_ID e) end.
Proof.
  unfold entry_ok. destruct (pe_unit en) as [run nodes|x]; simpl.
  - intros (_ & _ & _ & Hn) [He Hr]%Hn. by rewrite Hr.
  - intros (Hx & Hr & _) ->%list_elem_of_singleton. by rewrite Hr.
Qed.

Lemma entries_stored a before l :
  Forall (entry_ok a before) l → NoDup (entry_keys l) → units_stored a (pe_unit <$> l).
Proof.
  induction 1 as [|en l Hen Hl IH]; [split; constructor|]. rewrite fmap_cons. intros [Hni Hnd]%NoDup_cons.
  destruct (IH Hnd) as [Hi Hr Hin Hrn]. rewrite fmap_cons. split; rewrite ?bind_cons.
  - apply Forall_app_2; [|done]. apply Forall_forall. intros e He. by apply (entry_item a before en).
  - simpl. unfold entry_ok in Hen. destruct (pe_unit en); simpl; [|done]. constructor; [apply Hen|done].
  - rewrite fmap_app. apply NoDup_app. split_and!; [| |done].
    + unfold entry_ok in Hen. destruct (pe_unit en); [apply Hen|apply NoDup_singleton].
    + intros id (e & -> & He)%list_elem_of_fmap (e' & Heq & He')%list_elem_of_fmap.
      apply list_elem_of_bind in He' as (u & Hu & Hue). apply list_elem_of_fmap in Hue as (en' & -> & Hen').
      rewrite Forall_forall in Hl. specialize (Hl en' Hen').
      destruct (entry_item _ _ _ _ Hen He) as [H1 H2], (entry_item _ _ _ _ Hl Hu) as [H3 H4].
      assert (e' = e) as -> by congruence. apply Hni. apply list_elem_of_fmap. exists en'. split; [|done].
      simpl. congruence.
  - simpl. destruct (unit_run (pe_unit en)) as [r|] eqn:Hru; [|done]. rewrite fmap_cons. constructor; [|done].
    intros (r' & Heq & (u & Hu & Hur)%list_elem_of_omap)%list_elem_of_fmap. apply Hni.
    apply list_elem_of_fmap in Hu as (en' & -> & Hen'). apply list_elem_of_fmap. exists en'. split; [|done]. simpl.
    destruct (pe_unit en); [|done]. destruct (pe_unit en'); [|done]. simpl in *. congruence.
Qed.

Lemma count_units units n m :
  foldl count_unit (mkPurgeResult n m) units =
  mkPurgeResult (n + Z.of_nat (length (units ≫= unit_items))) (m + Z.of_nat (length (omap unit_run units))).
Proof.
  revert n m. induction units as [|u units IH]; intros n m; [simpl; f_equal; lia|].
  rewrite bind_cons, length_app. cbn [foldl].
  assert (count_unit (mkPurgeResult n m) u = mkPurgeResult (n + Z.of_nat (length (unit_items u)))
    (m + match unit_run u with Some _ => 1 | None => 0 end)) as ->
    by (destruct u; cbn; unfold set_pr_Executions, set_pr_PipelineRuns; cbn; f_equal; lia).
  rewrite IH. f_equal; [lia|]. destruct u; cbn [unit_run omap list_omap length]; lia.
Qed.

Section Selection.
Context `{E : GoEnv} {HE : GoEnvOk} {C : Codec} {HC : CodecOk}.
Context {W : Type} `{!RedisClient W} `{!Process W} {SV : Server W} {HS : ServerOk W} {HR : Retention W}.

Abbreviation prefix := (srv_prefix (W := W)).
Abbreviation st := (srv_state (W := W)).
Abbreviation transport := (srv_transport (W := W)).
Abbreviation rely := (srv_rely (W := W)).
Abbreviation Failed := (failed transport).
Abbreviation KS w := (keyspace (st w)).

Context (calm : ∀ a b, rely a b → b = a).

(** The finished runs with their executions. *)
Lemma wp_run_entries before rs acc a w (Q : error + list purge_entry → W → Prop) :
  Rep prefix a (KS w) → Forall (λ r, runs a !! r_ID r = Some r) rs →
  (∀ l w', Rep prefix a (KS w') → Forall (entry_ok a before) l →
     entry_keys l = (λ r, (true, r_ID r)) <$>
       List.filter (λ r, bool_decide (is_Some (finished_before (r_FinishedAt r) before))) rs →
     Q (inr (acc ++ l)) w') →
  (∀ e w', Rep prefix a (KS w') → transport e → Q (inl e) w') →
  wp (run_entries prefix before rs acc) Q w.
Proof using All.
  revert acc w. induction rs as [|r rs IH]; intros acc w Ha Hrs HQ1 HQ2; simpl.
  { apply wp_ret. rewrite <-(app_nil_r acc). by apply HQ1. }
  apply Forall_cons in Hrs as [Hr Hrs].
  destruct (finished_before (r_FinishedAt r) before) as [f|] eqn:Hf; cycle 1.
  { apply IH; [done|done| |done]. intros l w' Ha' Hl Hk. apply HQ1; [done|done|]. rewrite Hk. simpl.
    by rewrite Hf, bool_decide_eq_false_2 by (by intros []). }
  apply wp_bind. eapply wp_mono; [by apply (ListRunExecutions_calm calm)|].
  intros res w1 [Ha1 [(e & -> & He)|(its & -> & Hnd & Hin & _)]]; [by apply HQ2|].
  apply IH; [done|done| |done]. intros l w' Ha' Hl Hk. rewrite <-(assoc_L (++)). apply HQ1; [done|..].
  - constructor; [|done]. by split_and!.
  - rewrite fmap_app, Hk. simpl. rewrite Hf. by rewrite bool_decide_eq_true_2 by (by eexists).
Qed.

Lemma item_entry_key before e en : item_entry before e = Some en → unit_key (pe_unit en) = (false, e_ID e).
Proof.
  unfold item_entry. destruct (e_PipelineRunID e); [done|]. destruct (finished_before _ _); [|done].
  by intros [= <-].
Qed.

(** The executions of one state. *)
Lemma wp_list_status status a w (Q : error + list Execution → W → Prop) :
  Rep prefix a (KS w) →
  (∀ items w', Rep prefix a (KS w') → NoDup (e_ID <$> items) →
     (∀ e, e ∈ items ↔ execs a !! e_ID e = Some e ∧ Status_string (e_Status e) = Status_string status) →
     Q (inr items) w') →
  (∀ e w', Rep prefix a (KS w') → transport e → Q (inl e) w') → status ≠ StatusZero →
  wp (ListExecutions prefix (mkListFilter EmptyString (Status_string status) None 0 None)) Q w.
Proof using All.
  intros Ha HQ1 HQ2 Hz. set (filter := mkListFilter _ _ _ _ _).
  eapply wp_mono; [by apply redis_ListExecutions|].
  intros r w' (a1 & a2 & H1 & H2 & Ha2 & Hr). apply calm in H1, H2. subst a1 a2.
  destruct Hr as [(e & -> & He)|(ids & its & Hen & Hits & ->)]; [by apply HQ2|].
  apply (versions_calm calm) in Hits. pose proof (rep_inv _ _ _ Ha2) as Hinv.
  assert (Forall2 (λ id it, execs a !! id = Some it) ids (reverse its)) as Hits'
    by (rewrite <-(reverse_involutive ids); by apply Forall2_reverse).
  apply HQ1; [done|..]; unfold limit_slice; simpl.
  - apply distinct_filter. rewrite (listed_ids a _ _ Hinv Hits), reverse_Permutation. apply Hen.
  - intros e. rewrite elem_of_filter_In.
    rewrite <-(elem_of_reverse e its), (elem_of_listed _ a ids (reverse its) e Hinv Hen Hits').
    assert (matches_filter filter e = bool_decide (Status_string (e_Status e) = Status_string status)) as ->.
    { unfold matches_filter. simpl. rewrite !andb_true_r.
      assert (is_empty (Status_string status) = false) as -> by (by destruct status). done. }
    rewrite bool_decide_eq_true. split; [naive_solver|]. intros [He Hst]. split_and!; [done| |done].
    rewrite (filter_index_complete filter); [by eexists|]. unfold matches_filter. simpl. rewrite !andb_true_r.
    rewrite (bool_decide_eq_true_2 (Status_string _ = _)) by done. by rewrite orb_true_r.
Qed.

(** The keys of the executions of one state. *)
Lemma item_entries_keys before a items status :
  NoDup (e_ID <$> items) →
  (∀ e, e ∈ items ↔ execs a !! e_ID e = Some e ∧ Status_string (e_Status e) = Status_string status) →
  Forall (entry_ok a before) (omap (item_entry before) items) ∧
  NoDup (entry_keys (omap (item_entry before) items)) ∧
  (∀ k, k ∈ entry_keys (omap (item_entry before) items) ↔ ∃ e, k = (false, e_ID e) ∧
     execs a !! e_ID e = Some e ∧ Status_string (e_Status e) = Status_string status ∧
     is_Some (item_entry before e)).
Proof using.
  intros Hnd Hin. split_and!.
  - apply Forall_forall. intros en (e & He & Hen)%list_elem_of_omap. apply Hin in He as [He _].
    unfold item_entry in Hen. destruct (e_PipelineRunID e) eqn:Hr; [done|].
    destruct (finished_before _ _) eqn:Hf; [|done]. injection Hen as <-. by split_and!.
  - clear Hin. induction items as [|e items IH]; [constructor|]. rewrite fmap_cons in Hnd.
    apply NoDup_cons in Hnd as [Hni Hnd]. simpl. destruct (item_entry before e) as [en|] eqn:Hen; [|by apply IH].
    rewrite fmap_cons. constructor; [|by apply IH]. simpl. rewrite (item_entry_key _ _ _ Hen).
    intros (en' & Heq & (e' & He' & Hen')%list_elem_of_omap)%list_elem_of_fmap. simpl in Heq.
    rewrite (item_entry_key _ _ _ Hen') in Heq. injection Heq as Heq. apply Hni. rewrite Heq.
    by apply list_elem_of_fmap_2.
  - intros k. rewrite list_elem_of_fmap. split.
    + intros (en & -> & (e & He & Hen)%list_elem_of_omap). exists e. apply Hin in He as [He Hst].
      split_and!; [by apply item_entry_key in Hen|done|done|by exists en].
    + intros (e & -> & He & Hst & en & Hen). exists en. split; [symmetry; by apply item_entry_key in Hen|].
      apply list_elem_of_omap. exists e. split; [by apply Hin|done].
Qed.

Lemma Status_string_inj s s' : Status_string s = Status_string s' → s = s'.
Proof. by destruct s, s'. Qed.

Lemma wp_item_entries before statuses acc a w (Q : error + list purge_entry → W → Prop) :
  Rep prefix a (KS w) → StatusZero ∉ statuses → NoDup statuses →
  (∀ l w', Rep prefix a (KS w') → Forall (entry_ok a before) l → NoDup (entry_keys l) →
     (∀ k, k ∈ entry_keys l ↔ ∃ e, k = (false, e_ID e) ∧ execs a !! e_ID e = Some e ∧
        e_Status e ∈ statuses ∧ is_Some (item_entry before e)) →
     Q (inr (acc ++ l)) w') →
  (∀ e w', Rep prefix a (KS w') → transport e → Q (inl e) w') →
  wp (item_entries prefix before statuses acc) Q w.
Proof using All.
  revert acc w. induction statuses as [|s statuses IH]; intros acc w Ha Hz Hnd HQ1 HQ2; simpl.
  { apply wp_ret. rewrite <-(app_nil_r acc). apply HQ1; [done|done|constructor|]. intros k.
    split; [by intros ?%elem_of_nil|]. by intros (e & _ & _ & ?%elem_of_nil & _). }
  apply not_elem_of_cons in Hz as [Hsz Hz]. apply NoDup_cons in Hnd as [Hni Hnd].
  apply wp_bind. apply (wp_list_status s a); [done| |by apply HQ2|done]. intros items w1 Ha1 Hitems Hin.
  destruct (item_entries_keys before a items s Hitems Hin) as (Hok & Hkn & Hkeys).
  apply IH; [done|done|done| |done]. intros l w2 Ha2 Hl Hlk Hlkeys. rewrite <-(assoc_L (++)).
  apply HQ1; [done|by apply Forall_app_2|..].
  - rewrite fmap_app. apply NoDup_app. split_and!; [done| |done]. intros k Hk1 Hk2.
    apply Hkeys in Hk1 as (e & -> & He & Hst & _). apply Hlkeys in Hk2 as (e' & [= Heq] & He' & Hst' & _).
    assert (e' = e) as -> by congruence. apply Status_string_inj in Hst. by rewrite Hst in Hst'.
  - intros k. rewrite fmap_app, elem_of_app, Hkeys, Hlkeys. split.
    + intros [(e & -> & He & Hst & Hen)|(e & -> & He & Hst & Hen)]; exists e;
        (split_and!; [done|done| |done]); [apply Status_string_inj in Hst as ->; left|by right].
    + intros (e & -> & He & [Hst|Hst]%elem_of_cons & Hen); [left|right]; exists e; by rewrite ?Hst.
Qed.

Lemma entries_perm_choice a before limit l l' :
  AInv a → Forall (entry_ok a before) l → NoDup (entry_keys l) →
  (∀ run, runs a !! r_ID run = Some run → is_Some (finished_before (r_FinishedAt run) before) →
     (true, r_ID run) ∈ entry_keys l) →
  (∀ e, execs a !! e_ID e = Some e → e_PipelineRunID e = None →
     is_Some (finished_before (e_FinishedAt e) before) → (false, e_ID e) ∈ entry_keys l) →
  l' ≡ₚ l → (0 < limit)%Z →
  let sorted := sort_Slice (λ x y, Before (pe_finished x) (pe_finished y)) l' in
  purge_choice a before limit (pe_unit <$> (if (limit <? Z.of_nat (length sorted))%Z
                                            then take (Z.to_nat limit) sorted else sorted)).
Proof using.
  intros Ha Hok Hnd Hruns Hitems Hp Hlim sorted. assert (sorted ≡ₚ l) as Hs.
  { unfold sorted. by rewrite sort_Slice_perm. }
  exists sorted. split_and!; [by rewrite Hs|by rewrite Hs|..].
  - intros run Hr Hf. rewrite Hs. by apply Hruns.
  - intros e He Hn Hf. rewrite Hs. by apply Hitems.
  - apply sort_Slice_sorted.
    + intros x y. unfold Before. rewrite Z.ltb_lt, Z.ltb_ge. lia.
    + intros x y z. unfold Before. rewrite !Z.ltb_ge. lia.
  - destruct (Z.ltb_spec limit (Z.of_nat (length sorted))); [done|]. rewrite take_ge by lia. done.
Qed.

Lemma wp_purge_selection before limit a w (Q : error + list purge_unit → W → Prop) :
  Rep prefix a (KS w) → (0 < limit)%Z →
  (∀ units w', Rep prefix a (KS w') → purge_choice a before limit units → Q (inr units) w') →
  (∀ e w', Rep prefix a (KS w') → transport e → Q (inl e) w') →
  wp (purge_selection prefix before limit) Q w.
Proof using All.
  intros Ha Hlim HQ1 HQ2. pose proof (rep_inv _ _ _ Ha) as Hinv. unfold purge_selection. apply wp_bind.
  eapply wp_mono; [by apply (ListPipelineRuns_calm calm)|]. intros r w1 [Ha1 [(e & -> & He)| ->]]; [by apply HQ2|].
  change (limit_slice (rf_Limit terminal_runs) ?l) with l. set (rs := run_listing terminal_runs (mkWorld (base a) 0)).
  assert (∀ r, r ∈ rs ↔ runs a !! r_ID r = Some r ∧ is_run_terminal (r_Status r) = true) as Hrs.
  { intros r. unfold rs. rewrite elem_of_run_listing. simpl. unfold matches_run_filter. simpl. split.
    - intros (id & r0 & Hr0 & Hm & ->). destruct (a_run _ Hinv _ _ Hr0) as [Hid Hok].
      rewrite (cloneRun_id r0 Hok), Hid. split; [done|]. rewrite andb_true_r in Hm. by destruct (r_Status r0).
    - intros [Hr Hterm]. exists (r_ID r), r. destruct (a_run _ Hinv _ _ Hr) as [_ Hok].
      split_and!; [done| |by rewrite cloneRun_id]. by destruct (r_Status r). }
  assert (NoDup (r_ID <$> rs)) as Hrsn.
  { unfold rs, run_listing. rewrite sort_Slice_perm, <-list_fmap_compose. apply NoDup_values.
    intros i x Hx. by apply (a_run _ Hinv). }
  apply wp_bind. apply (wp_run_entries before rs [] a); [done| | |by apply HQ2].
  { apply Forall_forall. intros r Hr. by apply Hrs. }
  intros l1 w2 Ha2 Hl1 Hk1. rewrite app_nil_l. apply wp_bind. apply (wp_item_entries before _ _ a); [done| | | |by apply HQ2].
  { rewrite !not_elem_of_cons. split_and!; try done. apply not_elem_of_nil. }
  { apply (bool_decide_eq_true_1 (NoDup _)). reflexivity. }
  intros l2 w3 Ha3 Hl2 Hkn2 Hk2. apply wp_bind.
  eapply wp_mono; [apply (law_range prefix st srv_others transport)|].
  intros r w4 (l' & -> & Hp & Hst). apply wp_ret. apply HQ1; [by rewrite Hst|].
  apply (entries_perm_choice a before limit (l1 ++ l2)); [done|by apply Forall_app_2|..|done|done].
  - rewrite fmap_app. apply NoDup_app. split_and!; [| |done].
    + rewrite Hk1. change (λ r, (true, r_ID r)) with (pair true ∘ r_ID). rewrite list_fmap_compose.
      apply NoDup_fmap_2; [by intros x y [= ?]|]. by apply distinct_filter.
    + intros k Hin1 Hin2. rewrite Hk1 in Hin1. apply list_elem_of_fmap in Hin1 as (r & -> & _).
      apply Hk2 in Hin2 as (e & [=] & _).
  - intros run Hr Hf. rewrite fmap_app. apply elem_of_app. left. rewrite Hk1.
    apply (list_elem_of_fmap_2 (λ r, (true, r_ID r))). apply elem_of_filter_In.
    rewrite bool_decide_eq_true. split; [|done]. apply Hrs. split; [done|].
    destruct (a_run _ Hinv _ _ Hr) as [_ Hok]. apply (ri_terminal _ Hok). destruct (r_FinishedAt run); [done|by destruct Hf].
  - intros e He Hn Hf. rewrite fmap_app. apply elem_of_app. right. apply Hk2. exists e.
    destruct (a_item _ Hinv _ _ He) as (_ & _ & Hok).
    assert (is_terminal (e_Status e) = true) as Hterm
      by (apply (it_finished _ Hok); destruct (e_FinishedAt e); [done|by destruct Hf]).
    split_and!; [done|done|by destruct (e_Status e); try done; rewrite !elem_of_cons; auto|].
    unfold item_entry. rewrite Hn. by destruct Hf as [f ->].
Qed.

(** The purge removes the oldest finished units, with everything that is stored about them, and reports
    their numbers. *)
Lemma Purge_calm before limit a w :
  Rep prefix a (KS w) →
  wp (RedisRuns.Purge prefix before limit) (λ r w', Failed r ∧ Rep prefix a (KS w') ∨
    ∃ units, purge_choice a before (if (limit <=? 0)%Z then 1000%Z else limit) units ∧
      Rep prefix (remove_units a units) (KS w') ∧
      (Failed r ∨ r = inr (mkPurgeResult (Z.of_nat (length (units ≫= unit_items)))
                             (Z.of_nat (length (omap unit_run units)))))) w.
Proof using All.
  intros Ha. unfold RedisRuns.Purge. cbv zeta. set (n := if (limit <=? 0)%Z then 1000%Z else limit).
  assert (0 < n)%Z as Hn by (unfold n; destruct (Z.leb_spec limit 0); lia). apply wp_bind.
  apply (wp_purge_selection before n a); [done|done| |]; cycle 1.
  { intros e w1 Ha1 He. left. split; [by exists e|done]. }
  intros units w1 Ha1 Hch. apply wp_bind.
  eapply wp_mono; [apply (law_TxPipelined prefix st srv_others transport)|].
  intros r w2 (s & He & Hout). destruct (evolve_Rep _ _ _ Ha1 He) as (a2 & Hr2 & Ha2).
  apply calm in Hr2. subst a2.
  destruct Hout as [[Hst (e & -> & Hf)]|Happ]; [left; split; [by exists e|by rewrite Hst]|].
  assert (small a) as Hsm by (eapply Rep_size; [done|by eapply evolve_size]).
  assert (units_stored a units) as Hus.
  { destruct Hch as (all & Hok & Hnd & _ & _ & _ & ->). rewrite <-(take_drop (Z.to_nat n) all) in Hok, Hnd.
    rewrite fmap_app in Hnd. apply NoDup_app in Hnd as (Hnd & _). apply Forall_app in Hok as [Hok _].
    by eapply entries_stored. }
  destruct (Rep_remove_units prefix units a _ Ha2 Hsm Hus) as (ks & Hks & Hrep).
  destruct (Happ ks Hks) as [Hst2 Hr].
  destruct Hr as [->|(e & -> & Hf)]; [apply wp_ret|]; right; exists units; (split_and!; [done|by rewrite Hst2|]).
  - right. f_equal. apply count_units.
  - left. by exists e.
Qed.
End Selection.
