(* ===== verification/RedisClients.v ===== *)
(** * The clients of one Redis server guarantee what they rely on

    [client_step] is what an operation of the store may do to the abstract state at one instant.  Every
    operation but [Purge] keeps the representation and amounts to client steps, so that the assumption
    each client makes about the others, that they only take client steps, is the one they all satisfy. *)

From S2P Require Import Prelude GoLib GoText Model Memory MemoryInv MemoryOps StoreSpec.
From S2P Require Import RedisKeys RedisServer Redis RedisRuns RedisOps RedisRep RedisCommit RedisItems.
From S2P Require Import RedisRecords RedisRunItems RedisTx RedisSteps RedisLin RedisCreate RedisDelivery.
From S2P Require Import RedisSubgraph.

(** ** Client steps *)

Section Steps.
Context `{E : GoEnv} {C : Codec}.

Inductive client_step (a a' : RStore) : Prop :=
  | step_call A (c : Call A) t r :
      call_step true c t (base a) r (base a') → client_step a a'
  | step_claim keys owner lease t id r : claim_step keys owner lease t id a r a' → client_step a a'
  | step_reap t id e evs :
      execs a !! id = Some e → expired t e = true →
      a' = commit a id (reaped_execution t e) (log a id ++ evs) → client_step a a'
  | step_unlease id : a' = unlease a id → client_step a a'
  | step_create request t r : creation request t a r a' → client_step a a'
  | step_create_run request t r : run_creation request t a r a' → client_step a a'
  | step_status id revision status text t r :
      status_step id revision status text t a r a' → client_step a a'
  | step_subgraph request t ids r : subgraph_step request t ids a r a' → client_step a a'.

(** The other clients run for a while. *)
Definition clients : RStore → RStore → Prop := rtc client_step.

(** ** Client steps keep the records *)

Definition keeps (a a' : RStore) : Prop :=
  (∀ id e, execs a !! id = Some e → ∃ e', execs a' !! id = Some e' ∧ same_identity e e') ∧
  (∀ id r, runs a !! id = Some r → ∃ r', runs a' !! id = Some r' ∧ same_run r r').

Lemma keeps_refl a : keeps a a.
Proof. split; intros id x Hx; exists x; (split; [done|by repeat split]). Qed.

Lemma keeps_trans a b c : keeps a b → keeps b c → keeps a c.
Proof.
  intros [H1 H2] [H3 H4]. split; intros id x Hx.
  - destruct (H1 _ _ Hx) as (y & Hy & Hxy). destruct (H3 _ _ Hy) as (z & Hz & Hyz).
    exists z. split; [done|]. by eapply same_identity_trans.
  - destruct (H2 _ _ Hx) as (y & Hy & Hxy). destruct (H4 _ _ Hy) as (z & Hz & Hyz).
    exists z. split; [done|]. unfold same_run in *. intuition congruence.
Qed.

Lemma keeps_base a a' : base a' = base a → keeps a a'.
Proof. intros Heq. unfold keeps. rewrite Heq. apply keeps_refl. Qed.

(** An execution is replaced by one with the same identity. *)
Lemma keeps_execution a a' id e e' evs :
  execs a !! id = Some e → same_identity e e' → base a' = with_execution (base a) id e' evs → keeps a a'.
Proof.
  intros He Hs Heq. unfold keeps. rewrite Heq. split; simpl.
  - intros i x Hx. destruct (decide (i = id)) as [->|Hne].
    + rewrite lookup_insert_eq. exists e'. by simplify_eq.
    + rewrite lookup_insert_ne by done. exists x. split; [done|apply same_identity_refl].
  - intros i r Hr. exists r. split; [done|apply same_run_refl].
Qed.

Lemma keeps_item {A} id change (ret : Execution → A) a r a' :
  (∀ e ch, change e = inr ch → same_identity e (ch_item ch)) →
  item_step id change ret (base a) r (base a') → keeps a a'.
Proof.
  intros Hch. unfold item_step. destruct (execs a !! id) as [e|] eqn:He; cycle 1.
  { intros [_ Heq]. by apply keeps_base. }
  destruct (change e) as [err|ch] eqn:Hc.
  - intros [_ Heq]. by apply keeps_base.
  - intros (_ & evs & _ & Heq). eapply keeps_execution; [done|by apply Hch|done].
Qed.

Lemma resets_keeps request available a ids a' : resets request available a ids a' → keeps a a'.
Proof.
  induction 1 as [|a id e evs ids a' He _ _ _ IH]; [apply keeps_refl|].
  eapply keeps_trans; [|exact IH]. eapply (keeps_execution a _ id e); [done| |done]. by repeat split.
Qed.

Lemma keeps_runs a id r r' :
  runs a !! id = Some r → same_run r r' → keeps a (put_run_store a id r').
Proof.
  intros Hr Hs. split; simpl.
  - intros i e He. exists e. split; [done|apply same_identity_refl].
  - intros i x Hx. destruct (decide (i = id)) as [->|Hne].
    + rewrite lookup_insert_eq. exists r'. by simplify_eq.
    + rewrite lookup_insert_ne by done. exists x. split; [done|apply same_run_refl].
Qed.

Lemma client_step_keeps a a' : client_step a a' → keeps a a'.
Proof.
  destruct 1 as [A c t r Hs|keys owner lease t id r (_ & _ & token & _ & Hs)|t id e evs He _ ->|id ->
    |request t r (id & ev & Hid & _ & _ & _ & ->)|request t r (id & Hid & _ & _ & ->)
    |id revision status text t r Hs|request t ids r Hs].
  - eapply keeps_item; [|exact Hs]. intros e ch. apply call_identity.
  - eapply keeps_item; [|exact Hs]. intros e ch. unfold claim_change. case_match; [|done].
    intros [= <-]. by repeat split.
  - eapply (keeps_execution a _ id e); [done| |done]. by repeat split.
  - by apply keeps_base.
  - split; simpl.
    + intros i e He. rewrite lookup_insert_ne by congruence. exists e. split; [done|apply same_identity_refl].
    + intros i x Hx. exists x. split; [done|apply same_run_refl].
  - split; simpl.
    + intros i e He. exists e. split; [done|apply same_identity_refl].
    + intros i x Hx. rewrite lookup_insert_ne by congruence. exists x. split; [done|apply same_run_refl].
  - unfold status_step in Hs. destruct (runs a !! id) as [run|] eqn:Hr; [|by destruct Hs as [_ ->]; apply keeps_refl].
    destruct (_ =? _)%Z; destruct Hs as [_ ->]; [|apply keeps_refl]. eapply keeps_runs; [done|by repeat split].
  - destruct Hs as [(_ & -> & _)|[(_ & -> & _)|(run & id & root & a1 & Hr & _ & _ & _ & _ & Hrs & -> & _)]];
      [apply keeps_refl..|].
    eapply keeps_trans; [by eapply resets_keeps|]. destruct (resets_keeps _ _ _ _ _ Hrs) as [_ H].
    destruct (H _ _ Hr) as (run1 & Hr1 & Hs1). eapply keeps_runs; [done|].
    destruct Hs1 as (H1 & H2 & H3 & H4 & H5 & H6). repeat split; simpl; congruence.
Qed.

Lemma clients_keep a a' : clients a a' → keeps a a'.
Proof.
  induction 1 as [a|a b c Hs _ IH]; [apply keeps_refl|]. eapply keeps_trans; [|exact IH].
  by apply client_step_keeps.
Qed.
End Steps.

(** The steps of a client are among those the others allow for. *)
Class Guarantee `{E : GoEnv} (W : Type) `{!Server W} : Prop :=
  rely_client : ∀ a a', client_step a a' → srv_rely a a'.

(** ** The operations *)

Inductive RedisOp : Type → Type :=
  | RCall {A} (c : Call A) : RedisOp A
  | RCreateExecution (request : CreateExecutionRequest) : RedisOp Execution
  | RCreatePipelineRun (request : CreatePipelineRunRequest) : RedisOp PipelineRun
  | RSetPipelineRunStatus (id : UUID) (revision : Z) (status : RunStatus) (text : string) : RedisOp unit
  | RClaim (owner : string) (keys : list TaskKey) (limit : Z) (lease : Duration) : RedisOp (list Execution)
  | RReapExpired : RedisOp (list UUID)
  | RRestartPipelineSubgraph (request : RestartSubgraph) : RedisOp Execution
  | RGetExecution (id : UUID) : RedisOp Execution
  | RListExecutions (filter : ListFilter) : RedisOp (list Execution)
  | RListRunExecutions (run : UUID) : RedisOp (list Execution)
  | REvents (id : UUID) : RedisOp (list Event)
  | RGetPipelineRun (id : UUID) : RedisOp PipelineRun
  | RListPipelineRuns (filter : RunFilter) : RedisOp (list PipelineRun)
  | RExecutionCounts : RedisOp (list ExecutionCount)
  | RPipelineCounts : RedisOp (list PipelineCount).

Definition redis_run `{E : GoEnv} {C : Codec} {W : Type} `{!RedisClient W} `{!Process W}
    (prefix : string) {A} (o : RedisOp A) : M W A :=
  match o with
  | RCall c => redis_call prefix c
  | RCreateExecution request => Redis.CreateExecution prefix request
  | RCreatePipelineRun request => RedisRuns.CreatePipelineRun prefix request
  | RSetPipelineRunStatus id revision status text =>
      RedisRuns.SetPipelineRunStatus prefix id revision status text
  | RClaim owner keys limit lease => Redis.Claim prefix owner keys limit lease
  | RReapExpired => Redis.ReapExpired prefix
  | RRestartPipelineSubgraph request => Redis.RestartPipelineSubgraph prefix request
  | RGetExecution id => Redis.GetExecution prefix id
  | RListExecutions filter => Redis.ListExecutions prefix filter
  | RListRunExecutions run => Redis.ListRunExecutions prefix run
  | REvents id => Redis.Events prefix id
  | RGetPipelineRun id => RedisRuns.GetPipelineRun prefix id
  | RListPipelineRuns filter => RedisRuns.ListPipelineRuns prefix filter
  | RExecutionCounts => RedisRuns.ExecutionCounts prefix
  | RPipelineCounts => RedisRuns.PipelineCounts prefix
  end.

(** The arguments that the records can hold. *)
Definition redis_op_ok `{E : GoEnv} {C : Codec} {A} (o : RedisOp A) : Prop :=
  match o with
  | RCall c => call_ok c
  | RCreateExecution request => request_valid request
  | RCreatePipelineRun request => run_request_valid request
  | RClaim owner _ _ lease => text_ok owner ∧ int_ok lease
  | RRestartPipelineSubgraph request =>
      NoDup (subgraph_nodes request) ∧ time_ok (rs_AvailableAt request)
  | _ => True
  end.

Section Closure.
Context `{E : GoEnv} {HE : GoEnvOk} {C : Codec} {HC : CodecOk}.
Context {W : Type} `{!RedisClient W} `{!Process W} {SV : Server W} {HS : ServerOk W} {HR : Retention W}.

Abbreviation prefix := (srv_prefix (W := W)).
Abbreviation st := (srv_state (W := W)).
Abbreviation others := (srv_others (W := W)).
Abbreviation transport := (srv_transport (W := W)).
Abbreviation rely := (srv_rely (W := W)).
Abbreviation Failed := (failed transport).
Abbreviation outcome := (RedisTx.outcome (W := W)).
Abbreviation KS w := (keyspace (st w)).

(** *** Operations that only read *)

(** The state after [m] represents a state that the other clients may have reached. *)
Definition quiet {A} (m : M W A) : Prop :=
  ∀ a w, Rep prefix a (KS w) → wp m (λ _ w', ∃ a', rely a a' ∧ Rep prefix a' (KS w')) w.

Lemma quiet_ret {A} (x : A) : quiet (mret x).
Proof. intros a w Ha. apply wp_ret. exists a. split; [apply rely_0|done]. Qed.

Lemma quiet_throw {A} e : quiet (throw (A := A) e).
Proof. intros a w Ha. apply wp_throw. exists a. split; [apply rely_0|done]. Qed.

Lemma quiet_lift {A} (r : error + A) : quiet (lift r).
Proof. destruct r; [apply quiet_throw|apply quiet_ret]. Qed.

Lemma quiet_bind {A B} (m : M W A) (k : A → M W B) : quiet m → (∀ x, quiet (k x)) → quiet (m ≫= k).
Proof.
  intros Hm Hk a w Ha. apply wp_bind. eapply wp_mono; [by apply Hm|]. intros r w1 (a1 & Hr1 & Ha1).
  destruct r as [e|x]; [by exists a1|]. eapply wp_mono; [by apply Hk|]. intros r w2 (a2 & Hr2 & Ha2).
  exists a2. split; [by eapply rely_2|done].
Qed.

Lemma quiet_try {A} (m : M W A) : quiet m → quiet (try m).
Proof. intros Hm a w Ha. apply wp_try. by apply Hm. Qed.

Lemma quiet_reads {A} (m : M W A) f : reads prefix st others transport m f → quiet m.
Proof.
  intros Hm a w Ha. eapply (wp_read _ _ a); [exact Hm|done|]. intros r w' a' (Hr & Ha' & _) _. by exists a'.
Qed.

Lemma quiet_range {A} (l : list A) : quiet (process_range _ l).
Proof.
  intros a w Ha. eapply wp_mono; [apply (law_range prefix st others transport)|].
  intros r w' (l' & _ & _ & Hst). exists a. split; [apply rely_0|by rewrite Hst].
Qed.

Lemma quiet_GetExecution id : quiet (Redis.GetExecution prefix id).
Proof.
  intros a w Ha. eapply wp_GetExecution; [done|..].
  - intros w' a' (Hr & Ha' & _). by exists a'.
  - intros e w' a' (Hr & Ha' & _) _. by exists a'.
Qed.

Lemma quiet_GetPipelineRun id : quiet (RedisRuns.GetPipelineRun prefix id).
Proof.
  intros a w Ha. eapply wp_GetPipelineRun; [done|..].
  - intros w' a' (Hr & Ha' & _). by exists a'.
  - intros e w' a' (Hr & Ha' & _) _. by exists a'.
Qed.

Lemma quiet_list_loop filter ids items : quiet (list_loop prefix filter ids items).
Proof.
  revert items. induction ids as [|v ids IH]; intros items; simpl; [apply quiet_ret|].
  apply quiet_bind; [apply quiet_lift|intros id]. apply quiet_bind; [apply quiet_GetExecution|intros it].
  destruct (negb _); [apply IH|]. destruct (_ && _); [apply quiet_ret|apply IH].
Qed.

Lemma quiet_get_all ids items : quiet (get_all prefix ids items).
Proof.
  revert items. induction ids as [|v ids IH]; intros items; simpl; [apply quiet_ret|].
  apply quiet_bind; [apply quiet_lift|intros id]. by apply quiet_bind; [apply quiet_GetExecution|intros it].
Qed.

Lemma quiet_decode values items : quiet (decode_events values items).
Proof.
  revert items. induction values as [|v values IH]; intros items; simpl; [apply quiet_ret|].
  destruct (unmarshal_event v); [apply quiet_throw|apply IH].
Qed.

Lemma quiet_union_ids keys ids : quiet (union_ids keys ids).
Proof.
  revert ids. induction keys as [|k keys IH]; intros ids; simpl; [apply quiet_ret|].
  apply quiet_bind; [eapply quiet_reads, law_ZRevRange; apply _|intros v; apply IH].
Qed.

Lemma quiet_run_loop filter ids items : quiet (run_loop prefix filter ids items).
Proof.
  revert items. induction ids as [|v ids IH]; intros items; simpl; [apply quiet_ret|].
  apply quiet_bind; [apply quiet_lift|intros id]. apply quiet_bind; [apply quiet_GetPipelineRun|intros it].
  apply IH.
Qed.

Lemma quiet_count_loop {R} (mk : string → string → Z → R) entries result : quiet (count_loop mk entries result).
Proof.
  revert result. induction entries as [|[f t] entries IH]; intros result; simpl; [apply quiet_ret|].
  apply quiet_bind; [apply quiet_lift|intros [[n s] c]]. apply IH.
Qed.

Definition is_read {A} (o : RedisOp A) : bool :=
  match o with
  | RGetExecution _ | RListExecutions _ | RListRunExecutions _ | REvents _ | RGetPipelineRun _
  | RListPipelineRuns _ | RExecutionCounts | RPipelineCounts => true
  | _ => false
  end.

Lemma read_quiet {A} (o : RedisOp A) : is_read o = true → quiet (redis_run prefix o).
Proof.
  destruct o as [| | | | | | |id|filter|run|id|id|filter| |]; try done; intros _; cbn [redis_run].
  - apply quiet_GetExecution.
  - apply quiet_bind; [eapply quiet_reads, law_ZRevRange; apply _|intros ids; apply quiet_list_loop].
  - apply quiet_bind; [eapply quiet_reads, law_ZRange; apply _|intros ids; apply quiet_get_all].
  - apply quiet_bind; [apply quiet_GetExecution|intros _].
    apply quiet_bind; [eapply quiet_reads, law_LRange; apply _|intros vs; apply quiet_decode].
  - apply quiet_GetPipelineRun.
  - apply quiet_bind; [apply quiet_union_ids|intros ids]. apply quiet_bind; [apply quiet_range|intros vs].
    apply quiet_bind; [apply quiet_run_loop|intros items; apply quiet_ret].
  - apply quiet_bind; [eapply quiet_reads, law_HGetAll; apply _|intros values].
    apply quiet_bind; [apply quiet_range|intros vs]. apply quiet_bind; [apply quiet_count_loop|intros; apply quiet_ret].
  - apply quiet_bind; [eapply quiet_reads, law_HGetAll; apply _|intros values].
    apply quiet_bind; [apply quiet_range|intros vs]. apply quiet_bind; [apply quiet_count_loop|intros; apply quiet_ret].
Qed.

(** *** Operations that write *)

Context {HG : Guarantee W}.

Lemma outcome_guarantee {A} (step : RStore → error + A → RStore → Prop) a r a' :
  (∀ a r a', step a r a' → rely a a') → outcome step a r a' → rely a a'.
Proof.
  intros Hs [a1 a2 H1 H2 H3|H1|H1|a1 a2 x H1 H2 H3]; [|done|done|];
    (eapply rely_2; [exact H1|]; eapply rely_2; [by eapply Hs|done]).
Qed.

Lemma claims_guarantee keys owner lease t a l a' : claims keys owner lease t a l a' → rely a a'.
Proof.
  induction 1 as [a a' Hr|a a1 a2 a' id e l H1 H2 H3 IH]; [done|].
  eapply rely_2; [exact H1|]. eapply rely_2; [|exact IH]. by eapply rely_client, step_claim.
Qed.

Lemma reaps_guarantee t a l a' : reaps t a l a' → rely a a'.
Proof.
  induction 1 as [a a' Hr|a a1 a' id e evs l H1 H2 H3 H4 H5 IH|a a1 a' id l H1 H2 H3 IH]; [done|..].
  - eapply rely_2; [exact H1|]. eapply rely_2; [|exact IH]. by eapply rely_client, step_reap.
  - eapply rely_2; [exact H1|]. eapply rely_2; [|exact IH]. by eapply rely_client, step_unlease.
Qed.

(** Every operation keeps the representation and takes client steps only. *)
Lemma redis_run_guarantee {A} (o : RedisOp A) : redis_op_ok o → quiet (redis_run prefix o).
Proof.
  intros Hok. destruct (is_read o) eqn:Hrd; [by apply read_quiet|]. intros a w Ha.
  destruct o as [A c|request|request|id revision status text|owner keys limit lease| |request| | | | | | | |];
    try done; cbn [redis_run redis_op_ok] in *.
  - eapply wp_mono; [by apply redis_call_atomic|]. intros r w' (t & a' & _ & Ha' & Ho). exists a'. split; [|done].
    eapply outcome_guarantee; [|exact Ho]. intros b x b' Hs. by eapply rely_client, step_call.
  - eapply wp_mono; [by apply CreateExecution_atomic|]. intros r w' (t & a' & _ & Ha' & Ho). exists a'. split; [|done].
    destruct Ho as [Ho|(a1 & a2 & id & e & H1 & _ & _ & H2 & H3 & _)].
    + eapply outcome_guarantee; [|exact Ho]. intros b x b' Hs. by eapply rely_client, step_create.
    + eapply rely_2; [exact H1|]. by eapply rely_2.
  - eapply wp_mono; [by apply CreatePipelineRun_atomic|]. intros r w' (t & a' & _ & Ha' & Ho). exists a'. split; [|done].
    destruct Ho as [Ho|(a1 & a2 & id & H1 & _ & H2 & H3 & _)].
    + eapply outcome_guarantee; [|exact Ho]. intros b x b' Hs. by eapply rely_client, step_create_run.
    + eapply rely_2; [exact H1|]. by eapply rely_2.
  - eapply wp_mono; [by apply SetPipelineRunStatus_atomic|]. intros r w' (t & a' & _ & Ha' & Ho). exists a'.
    split; [|done]. eapply outcome_guarantee; [|exact Ho]. intros b x b' Hs. by eapply rely_client, step_status.
  - destruct Hok. eapply wp_mono; [by apply Claim_atomic|]. intros r w' (t & a' & _ & Ha' & Hp). exists a'.
    split; [|done]. destruct r as [e|items]; [destruct Hp as (_ & items & Hcl)|destruct Hp as [Hcl _]];
      by eapply claims_guarantee.
  - eapply wp_mono; [by apply ReapExpired_atomic|]. intros r w' (t & a' & l & _ & Ha' & Hp). exists a'.
    split; [|done]. destruct r as [e|rs]; [destruct Hp as [_ Hl]|destruct Hp as [_ [Hl _]]];
      by eapply reaps_guarantee.
  - destruct Hok. eapply wp_mono; [by apply RestartPipelineSubgraph_atomic|].
    intros r w' (t & ids & a' & _ & Ha' & [[_ Hr]|[_ Ho]]); exists a'; (split; [|done]); [done|].
    eapply outcome_guarantee; [|exact Ho]. intros b x b' Hs. by eapply rely_client, step_subgraph.
Qed.
End Closure.
