(* ===== verification/RedisDemo.v ===== *)
(** * A concrete Redis server

    A server that answers every command of the client from a keyspace in memory, with a JSON codec and a
    generator of identifiers.  It satisfies the hypotheses of the Redis theorems and makes the operations
    of the store executable: the examples run them. *)

From S2P Require Import Prelude GoLib GoText Model Memory MemoryInv Demo.
From S2P Require Import RedisKeys RedisServer Redis RedisOps RedisRep RedisTx RedisDelivery RedisClients.

(** ** Codecs *)

(** A record is the list of its encoded fields, printed in binary. *)
Definition print_fields (l : list positive) : string := positive_digits (encode l).

Definition parse_fields (s : string) : option (list positive) := p ← parse_digits s; decode p.

Lemma parse_print_fields l : parse_fields (print_fields l) = Some l.
Proof. unfold parse_fields, print_fields. rewrite parse_positive_digits. simpl. apply decode_encode. Qed.

#[global] Instance Status_countable : Countable Status.
Proof.
  refine (inj_countable Status_string (λ s, snd <$> list_find (λ st, Status_string st = s)
    [StatusZero; StatusPending; StatusBlocked; StatusRunning; StatusRetry; StatusSucceeded;
     StatusFailed; StatusCancelled]) _). by intros [].
Defined.

Definition EventType_code (t : EventType) : nat :=
  match t with
  | EventCreated => 0 | EventStarted => 1 | EventRetried => 2 | EventSucceeded => 3
  | EventFailed => 4 | EventCancelled => 5 | EventRestarted => 6
  end.

#[global] Instance EventType_countable : Countable EventType.
Proof.
  refine (inj_countable EventType_code (λ n, snd <$> list_find (λ t, EventType_code t = n)
    [EventCreated; EventStarted; EventRetried; EventSucceeded; EventFailed; EventCancelled;
     EventRestarted]) _). by intros [].
Defined.

Definition fields_of_execution (e : Execution) : list positive :=
  [encode (e_ID e); encode (e_TaskName e); encode (e_TaskVersion e); encode (e_Input e);
   encode (e_Output e); encode (e_Status e); encode (e_Attempt e); encode (e_MaxAttempts e);
   encode (e_AvailableAt e); encode (e_LeaseOwner e); encode (e_LeaseToken e);
   encode (e_LeaseUntil e); encode (e_LastError e); encode (e_IdempotencyKey e);
   encode (e_PipelineRunID e); encode (e_NodeKey e); encode (e_CreatedAt e);
   encode (e_StartedAt e); encode (e_FinishedAt e)].

Definition execution_of_fields (l : list positive) : option Execution :=
  match l with
  | [p1; p2; p3; p4; p5; p6; p7; p8; p9; p10; p11; p12; p13; p14; p15; p16; p17; p18; p19] =>
      f1 ← decode p1; f2 ← decode p2; f3 ← decode p3; f4 ← decode p4; f5 ← decode p5;
      f6 ← decode p6; f7 ← decode p7; f8 ← decode p8; f9 ← decode p9; f10 ← decode p10;
      f11 ← decode p11; f12 ← decode p12; f13 ← decode p13; f14 ← decode p14; f15 ← decode p15;
      f16 ← decode p16; f17 ← decode p17; f18 ← decode p18; f19 ← decode p19;
      Some (mkExecution f1 f2 f3 f4 f5 f6 f7 f8 f9 f10 f11 f12 f13 f14 f15 f16 f17 f18 f19)
  | _ => None
  end.

Definition fields_of_event (ev : Event) : list positive :=
  [encode (ev_ID ev); encode (ev_ExecutionID ev); encode (ev_Type ev); encode (ev_Attempt ev);
   encode (ev_Error ev); encode (ev_CreatedAt ev)].

Definition event_of_fields (l : list positive) : option Event :=
  match l with
  | [p1; p2; p3; p4; p5; p6] =>
      f1 ← decode p1; f2 ← decode p2; f3 ← decode p3; f4 ← decode p4; f5 ← decode p5; f6 ← decode p6;
      Some (mkEvent f1 f2 f3 f4 f5 f6)
  | _ => None
  end.

#[export] Instance redis_codec : RedisServer.Codec := {|
  uuid_Parse := demo_parse_uuid;
  marshal_execution e := inr (print_fields (fields_of_execution e));
  unmarshal_execution s := or_error (parse_fields s ≫= execution_of_fields);
  marshal_event ev := inr (print_fields (fields_of_event ev));
  unmarshal_event s := or_error (parse_fields s ≫= event_of_fields);
  valid_json s := s ≠ EmptyString;
|}.

#[export] Instance redis_codec_ok : RedisServer.CodecOk.
Proof.
  split.
  - exact demo_parse_uuid_String.
  - intros e _. eexists. split; [done|]. cbn [unmarshal_execution redis_codec].
    rewrite parse_print_fields. cbn [mbind option_bind execution_of_fields fields_of_execution].
    rewrite !decode_encode. by destruct e.
  - intros ev _. eexists. split; [done|]. cbn [unmarshal_event redis_codec].
    rewrite parse_print_fields. cbn [mbind option_bind event_of_fields fields_of_event].
    rewrite !decode_encode. by destruct ev.
  - done.
Qed.

(** ** The server *)

Record RWorld := mkRWorld {
  rw_keys : Keyspace; rw_watched : list string; rw_issued : gset UUID; rw_tick : nat }.

(** The server holds fewer keys than its limit. *)
Definition fits (ks : Keyspace) : bool := bool_decide (Z.of_nat (size ks) < 2 ^ 62)%Z.
Definition held (ks : Keyspace) : Keyspace := if fits ks then ks else ∅.

Definition rw_state (w : RWorld) : RState :=
  mkRState (held (rw_keys w)) (rw_watched w) false (rw_issued w).
Definition rw_set (s : RState) (w : RWorld) : RWorld :=
  mkRWorld (keyspace s) (watched s) (issued s) (rw_tick w).

Definition out_of_memory : error := errorString "OOM command not allowed".
Definition wrong_type : error := errorString "WRONGTYPE".

Definition rw_read {A} (f : Keyspace → option (error + A)) : M RWorld A := λ w,
  (default (inl wrong_type) (f (keyspace (rw_state w))), w).

(** Runs the commands, or refuses them all. *)
Definition rw_write (cmds : list Cmd) (finish : RState → RState) : M RWorld unit := λ w,
  let s := rw_state w in
  match apply_all cmds (keyspace s) with
  | Some ks => if fits ks then (inr tt, rw_set (finish (st_write ks s)) w)
               else (inl out_of_memory, rw_set (finish s) w)
  | None => (inl out_of_memory, rw_set (finish s) w)
  end.

(** A year of the first millennium. *)
Definition rw_now (w : RWorld) : Time := (10 ^ 19 + (Z.of_nat (rw_tick w) mod 2 ^ 30) * Second)%Z.

(** An identifier longer than every key. *)
Definition longest (ks : Keyspace) : nat := map_fold (λ k _ n, max (String.length k) n) 0 ks.
Definition rw_fresh (ks : Keyspace) : UUID := Npos (Nat.iter (longest ks) xO xH).

#[export] Instance redis_client : RedisClient RWorld := {|
  redis_Time w := (inr (rw_now w), mkRWorld (rw_keys w) (rw_watched w) (rw_issued w) (S (rw_tick w)));
  redis_Get k := rw_read (λ ks,
    match ks !! k with
    | None => Some (inl (RedisNil : error))
    | Some (RString text) => Some (inr text)
    | _ => None
    end);
  redis_HGetAll k := rw_read (λ ks, inr <$> as_hash (ks !! k));
  redis_LRange k := rw_read (λ ks, inr <$> as_list (ks !! k));
  redis_ZRange k := rw_read (λ ks, inr ∘ zrange <$> as_zset (ks !! k));
  redis_ZRevRange k := rw_read (λ ks, inr ∘ reverse ∘ zrange <$> as_zset (ks !! k));
  redis_ZRangeByScore k max count := rw_read (λ ks,
    (λ z, inr (zrange_by_score z max count)) <$> as_zset (ks !! k));
  redis_ZRem k member := rw_write [ZREM k member] id;
  redis_Watch A keys body w :=
    let '(r, w1) := body (rw_set (st_open keys (rw_state w)) w) in
    (r, rw_set (st_close (rw_state w1)) w1);
  tx_TxPipelined cmds := rw_write cmds st_close;
  redis_TxPipelined cmds := rw_write cmds id;
|}.

#[export] Instance redis_process : Process RWorld := {|
  process_uuid w := let id := rw_fresh (keyspace (rw_state w)) in
    (inr id, rw_set (st_issue id (rw_state w)) w);
  process_range A l w := (inr l, w);
|}.

(** ** The laws *)

Lemma held_fits ks : fits (held ks) = true.
Proof. unfold held. by destruct (fits ks) eqn:Hf. Qed.

Lemma held_id ks : fits ks = true → held ks = ks.
Proof. unfold held. by intros ->. Qed.

Lemma rw_state_fits w : fits (keyspace (rw_state w)) = true.
Proof. apply held_fits. Qed.

Lemma rw_set_state s w : fits (keyspace s) = true → dirty s = false → rw_state (rw_set s w) = s.
Proof. intros Hf Hd. unfold rw_state, rw_set. simpl. rewrite held_id by done. destruct s. simpl in *. by subst. Qed.

Definition rw_transport (e : error) : Prop := e = out_of_memory.

Section Laws.
(** The other clients may do nothing. *)
Context (others : Keyspace → gset string → Keyspace → Prop) (others_refl : ∀ ks, others ks ∅ ks).

Abbreviation rw_evolve := (evolve defaultPrefix others).

Lemma rw_still w : rw_evolve (rw_state w) (rw_state w).
Proof.
  exists ∅. split_and!; [|done| |done|done| |].
  - apply others_refl.
  - intros id k _ _ Hk. by apply elem_of_empty in Hk.
  - simpl. symmetry. apply bool_decide_eq_false. rewrite Exists_exists. intros (k & _ & Hk). by apply elem_of_empty in Hk.
  - apply (bool_decide_eq_true_1 _), rw_state_fits.
Qed.

Lemma rw_read_reads {A} (f : Keyspace → option (error + A)) :
  reads defaultPrefix rw_state others rw_transport (rw_read f) f.
Proof.
  intros w. split; [apply rw_still|]. right. intros r Hr. unfold wp, rw_read. simpl.
  simpl in Hr. by rewrite Hr.
Qed.

Lemma longest_ge ks k v : ks !! k = Some v → String.length k ≤ longest ks.
Proof.
  unfold longest. revert k v.
  refine (map_fold_weak_ind (λ n ks, ∀ k v, ks !! k = Some v → String.length k ≤ n) _ 0 _ _ ks).
  - intros k v Hk. by rewrite lookup_empty in Hk.
  - intros k v ks' n Hk IH k' v'. rewrite lookup_insert_Some. intros [[<- <-]|[_ Hk']]; [lia|].
    specialize (IH _ _ Hk'). lia.
Qed.

Lemma fresh_digits n : String.length (positive_digits (Nat.iter n xO xH)) = S n.
Proof. induction n as [|n IH]; [done|]. simpl. by rewrite IH. Qed.

Lemma rw_fresh_absent ks prefix k : names_id prefix (rw_fresh ks) k → ks !! k = None.
Proof.
  intros Hk. destruct (ks !! k) as [v|] eqn:Hv; [|done]. apply longest_ge in Hv.
  assert (S (longest ks) ≤ String.length k) as Hlen; [|lia].
  rewrite <-(fresh_digits (longest ks)).
  destruct Hk as [->| ->]; unfold executionKey, pipelineKey; rewrite !length_append; simpl; lia.
Qed.

Lemma rw_write_law cmds finish w :
  (∀ s, keyspace (finish s) = keyspace s) → (∀ s, dirty s = false → dirty (finish s) = false) →
  let '(r, w') := rw_write cmds finish w in
  rw_state w' = finish (rw_state w) ∧ failed rw_transport r ∨
  (∀ ks, apply_all cmds (keyspace (rw_state w)) = Some ks →
     rw_state w' = finish (st_write ks (rw_state w)) ∧ r = inr tt).
Proof.
  intros Hk Hd. unfold rw_write.
  assert (rw_state (rw_set (finish (rw_state w)) w) = finish (rw_state w)) as Hsame.
  { apply rw_set_state; [rewrite Hk; apply rw_state_fits|by apply Hd]. }
  destruct (apply_all cmds (keyspace (rw_state w))) as [ks|] eqn:Ha.
  - destruct (fits ks) eqn:Hf.
    + right. intros ks' [= <-]. split; [|done]. apply rw_set_state; [by rewrite Hk|by apply Hd].
    + left. split; [done|]. by eexists.
  - left. split; [done|]. by eexists.
Qed.

Lemma rw_laws : RedisLaws defaultPrefix rw_state others rw_transport.
Proof.
  split.
  - intros e s ->. done.
  - intros w. split; [exact (rw_still w)|]. right. eexists. split; [done|]. unfold rw_now, clock_ok, Second.
    pose proof (Z.mod_pos_bound (Z.of_nat (rw_tick w)) (2 ^ 30)). lia.
  - intros k. apply (rw_read_reads (λ ks, match ks !! k with
      | None => Some (inl (RedisNil : error)) | Some (RString text) => Some (inr text) | _ => None end)).
  - intros k. apply (rw_read_reads (λ ks, inr <$> as_hash (ks !! k))).
  - intros k. apply (rw_read_reads (λ ks, inr <$> as_list (ks !! k))).
  - intros k. apply (rw_read_reads (λ ks, inr ∘ zrange <$> as_zset (ks !! k))).
  - intros k. apply (rw_read_reads (λ ks, inr ∘ reverse ∘ zrange <$> as_zset (ks !! k))).
  - intros k max count _. apply (rw_read_reads (λ ks, (λ z, inr (zrange_by_score z max count)) <$> as_zset (ks !! k))).
  - intros k member w. pose proof (rw_write_law [ZREM k member] id w) as H. unfold wp. simpl redis_ZRem.
    destruct (rw_write [ZREM k member] id w) as [r w']. simpl. exists (rw_state w). split; [apply rw_still|].
    destruct H as [H|H]; [done|done|by left|]. right. intros ks Hks. destruct (H ks) as [Hst ->].
    { simpl. simpl in Hks. by rewrite Hks. }
    split; [done|by left].
  - intros A keys body Q w Hbody _. unfold wp. simpl redis_Watch.
    set (w1 := rw_set (st_open keys (rw_state w)) w).
    assert (rw_state w1 = st_open keys (rw_state w)) as Hw1 by (apply rw_set_state; [apply rw_state_fits|done]).
    specialize (Hbody (rw_state w) w1 (rw_still w) Hw1). unfold wp in Hbody.
    destruct (body w1) as [r w2]. simpl in *. apply Hbody. apply rw_set_state; [apply rw_state_fits|done].
  - intros cmds w. pose proof (rw_write_law cmds st_close w) as H. unfold wp. simpl tx_TxPipelined.
    destruct (rw_write cmds st_close w) as [r w']. simpl. exists (rw_state w). split; [apply rw_still|].
    destruct H as [H|H]; [done|done|by left|]. right. right. split; [done|]. intros ks Hks.
    destruct (H ks Hks) as [Hst ->]. split; [done|by left].
  - intros cmds w. pose proof (rw_write_law cmds id w) as H. unfold wp. simpl redis_TxPipelined.
    destruct (rw_write cmds id w) as [r w']. simpl. exists (rw_state w). split; [apply rw_still|].
    destruct H as [H|H]; [done|done|by left|]. right. intros ks Hks.
    destruct (H ks Hks) as [Hst ->]. split; [done|by left].
  - intros w. eexists. split; [done|]. split_and!; [done|by apply rw_fresh_absent|].
    apply rw_set_state; [apply rw_state_fits|done].
  - intros A l w. exists l. done.
Qed.

End Laws.

(** ** Servers *)

(** The other clients take client steps. *)
#[export] Instance redis_server : Server RWorld := {|
  srv_prefix := defaultPrefix;
  srv_state := rw_state;
  srv_others ks _ ks' := ∀ a, Rep defaultPrefix a ks → ∃ a', clients a a' ∧ Rep defaultPrefix a' ks';
  srv_transport := rw_transport;
  srv_rely := clients;
|}.

#[export] Instance redis_server_ok : ServerOk RWorld.
Proof.
  split.
  - apply rw_laws. intros ks a Ha. exists a. split; [apply rtc_refl|done].
  - split; [apply rtc_refl|intros a b c; apply rtc_trans|]. intros a ks T ks' Ha Ho. by apply Ho.
Qed.

#[export] Instance redis_retention : Retention RWorld.
Proof. split; intros a a' id x Hr%clients_keep Hx; by apply Hr. Qed.

#[export] Instance redis_guarantee : Guarantee RWorld.
Proof. intros a a' Hs. by apply rtc_once. Qed.

(** A server with one client. *)
Definition redis_alone : Server RWorld := {|
  srv_prefix := defaultPrefix;
  srv_state := rw_state;
  srv_others ks _ ks' := ks' = ks;
  srv_transport := rw_transport;
  srv_rely a a' := a' = a;
|}.

Lemma redis_alone_ok : ServerOk RWorld (Server0 := redis_alone).
Proof.
  split; [by apply rw_laws|]. split; simpl; [done|by intros a b c -> ->|].
  intros a ks T ks' Ha ->. by exists a.
Qed.

Lemma redis_alone_retention : Retention RWorld (Server0 := redis_alone).
Proof. split; intros a a' id x -> Hx; exists x; (split; [done|by repeat split]). Qed.

(** ** Worlds *)

Definition rw_empty : RWorld := mkRWorld ∅ [] ∅ 0.

Lemma AInv_empty : AInv empty_store.
Proof.
  split; cbn; unfold idem_entry, node_entry, run_entry; cbn; try (intros *; by rewrite ?lookup_empty).
  - intros k id. rewrite lookup_empty. split; [done|]. by intros (e & ?%lookup_empty_Some & _).
  - intros k id. rewrite lookup_empty. split; [done|]. by intros (e & r & ?%lookup_empty_Some & _).
  - intros k id. rewrite lookup_empty. split; [done|]. by intros (r & ?%lookup_empty_Some & _).
Qed.

(** The empty keyspace is the empty store. *)
Lemma Rep_empty : Rep defaultPrefix empty_store (keyspace (rw_state rw_empty)).
Proof.
  split; [apply AInv_empty|]. intros k. change (keyspace (rw_state rw_empty)) with (∅ : Keyspace).
  rewrite lookup_empty. destruct k; simpl; rewrite ?lookup_empty; try done.
  - exists ∅. split; [done|]. split; [by intros ?? ?%lookup_empty_Some|]. intros l _ _. apply tally_empty.
  - exists ∅. split; [done|]. split; [by intros ?? ?%lookup_empty_Some|]. intros l _ _. apply tally_empty.
Qed.
