(* ===== verification/RedisProps.v ===== *)
(** * The Redis store implements the contract of a store

    The properties of the Redis store under interference: between any two commands of a call other
    clients may change the keyspace, in ways that are client steps. *)

From S2P Require Import Prelude GoLib GoText Model Memory MemoryInv StoreSpec Demo.
From S2P Require Import RedisKeys RedisServer Redis RedisRuns RedisOps RedisRep RedisCommit.
From S2P Require Import RedisRecords RedisRunItems RedisTx RedisSteps RedisLin RedisCreate RedisDelivery.
From S2P Require Import RedisSubgraph RedisClients RedisDemo.

(** ** The Redis store *)

Section Redis.
Context `{E : GoEnv} {HE : GoEnvOk} {C : RedisServer.Codec} {HC : RedisServer.CodecOk}.
Context {W : Type} `{!RedisClient W} `{!Process W} {SV : Server W} {HS : ServerOk W}.

Abbreviation prefix := (srv_prefix (W := W)).
Abbreviation rely := (srv_rely (W := W)).
Abbreviation Failed := (failed (srv_transport (W := W))).
Abbreviation KS w := (keyspace (srv_state (W := W) w)).

(** C2: every operation of the Redis store on one execution is atomic: for arguments that the records can
    hold (valid text and JSON, instants of RFC 3339) and whatever other clients do between its commands, it
    makes the change of the specification at one instant of the call, or reports that the connection failed
    or that the transaction was refused 16 times; a change whose reply was lost was made entirely. *)
Theorem redis_refines_spec {A} (c : Call A) a w :
  call_ok c → Rep prefix a (KS w) →
  wp (redis_call prefix c) (λ r w', ∃ t a', clock_ok t ∧ Rep prefix a' (KS w') ∧
    outcome (λ a1 r a2, call_step true c t (base a1) r (base a2)) a r a') w.
Proof. exact (redis_call_atomic c a w). Qed.

(** C18: creation is atomic and idempotent.  A new execution or run is stored at one instant, at which no
    stored record has its idempotency key (nor, for an execution, its node); otherwise the record that
    has it is read and returned. *)
Theorem redis_create_idempotent request run_request a w :
  request_valid request → run_request_valid run_request → Rep prefix a (KS w) →
  wp (Redis.CreateExecution prefix request) (λ r w', ∃ t a', clock_ok t ∧ Rep prefix a' (KS w') ∧
    (outcome (creation request t) a r a' ∨ found request a r a')) w ∧
  wp (RedisRuns.CreatePipelineRun prefix run_request) (λ r w', ∃ t a', clock_ok t ∧ Rep prefix a' (KS w') ∧
    (outcome (run_creation run_request t) a r a' ∨ run_found run_request a r a')) w.
Proof.
  intros Hrq Hrr Ha. split; [by apply CreateExecution_atomic|by apply CreatePipelineRun_atomic].
Qed.

(** The status of a run is compare-and-set: the update is made at one instant, at which the stored
    revision is the expected one, which it increments; a run with another revision is left as it was. *)
Theorem redis_run_compare_and_set id revision status text a w :
  Rep prefix a (KS w) →
  wp (RedisRuns.SetPipelineRunStatus prefix id revision status text) (λ r w', ∃ t a', clock_ok t ∧
    Rep prefix a' (KS w') ∧ outcome (status_step id revision status text t) a r a') w.
Proof. apply SetPipelineRunStatus_atomic. Qed.

(** The reaper fails expired final attempts and nothing else: each execution it fails is, at that
    instant, running with its lease expired and its attempts used up; the runs it returns, each once,
    include those of all executions it failed, and each had an expired final attempt. *)
Theorem redis_reaper_exact a w :
  Rep prefix a (KS w) →
  wp (Redis.ReapExpired prefix) (λ r w', ∃ t a' l, clock_ok t ∧ Rep prefix a' (KS w') ∧
    match r with
    | inr runs => NoDup runs ∧ reap_post t a a' l (list_to_set runs)
    | inl e => (srv_transport e ∨ e = contention) ∧ reaps t a l a'
    end) w.
Proof. apply ReapExpired_atomic. Qed.

Context {HR : Retention W}.

(** C6: a claim is exclusive: the executions it returns, at most [limit] and each once, were each claimed
    at one instant, at which it was due, not leased to anybody and within its attempts, under a token that
    is not nil; whatever other workers do meanwhile. *)
Theorem redis_claim_exclusive keys owner lease limit a w :
  text_ok owner → int_ok lease → Rep prefix a (KS w) →
  wp (Redis.Claim prefix owner keys limit lease) (λ r w', ∃ t a', clock_ok t ∧ Rep prefix a' (KS w') ∧
    claim_post keys owner lease t (if (limit <=? 0)%Z then 1%Z else limit) a r a') w.
Proof. apply Claim_atomic. Qed.

(** C15: the restart of a part of a pipeline is all or nothing: at one instant the root becomes pending, the
    other nodes blocked and the run running again under the next revision, none of the nodes being active
    then; every requested node that was stored when the call started is among them. The request names no
    node twice, as those of the engine. *)
Theorem redis_restart_subgraph_atomic request a w :
  NoDup (subgraph_nodes request) → time_ok (rs_AvailableAt request) → Rep prefix a (KS w) →
  wp (Redis.RestartPipelineSubgraph prefix request) (λ r w', ∃ t ids a', clock_ok t ∧
    Rep prefix a' (KS w') ∧ (Failed r ∧ rely a a' ∨
      (∀ n id, n ∈ subgraph_nodes request → refers a (KNode (rs_RunID request) n) = Some id → id ∈ ids) ∧
      outcome (subgraph_step request t ids) a r a')) w.
Proof. apply RestartPipelineSubgraph_atomic. Qed.

Context {HG : Guarantee W}.

(** C11: what clients rely on is what they guarantee: every operation but the purge, called while other
    clients take client steps, keeps the keyspace consistent (records, references, indexes, counters and
    event lists agree) and amounts to client steps itself. The arguments are ones that the records can hold,
    and a restart of a part of a pipeline names no node twice. *)
Theorem redis_clients_compose {A} (o : RedisOp A) a w :
  redis_op_ok o → Rep prefix a (KS w) →
  wp (redis_run prefix o) (λ _ w', ∃ a', rely a a' ∧ Rep prefix a' (KS w')) w.
Proof. intros Hok. by apply redis_run_guarantee. Qed.
End Redis.
