(* ===== verification/RedisProps2.v ===== *)
(** * The Redis store: reads, retention and encoding

    The Redis store reports what the in-memory store would on the same records; retention removes the
    oldest finished records; the keys of the store do not collide and keep their types; the records of
    runs survive their encoding. *)

From S2P Require Import Prelude GoLib GoText Model Memory MemoryInv MemoryLists MemoryCounts.
From S2P Require Import RedisKeys RedisServer Redis RedisRuns RedisOps RedisRep RedisCommit RedisTx.
From S2P Require Import RedisDelivery RedisReads RedisCounts RedisPurge RedisClients.

(** ** Types of values *)

Inductive RType := TString | TList | THash | TZSet.

Definition type_of (v : RValue) : RType :=
  match v with RString _ => TString | RList _ => TList | RHash _ => THash | RZSet _ => TZSet end.

(** The type of the value under a key of the store. *)
Definition key_type (k : Key) : RType :=
  match k with
  | KExecution _ | KIdempotency _ | KNode _ _ | KRunIdempotency _ => TString
  | KEvents _ => TList
  | KExecutionCounts | KPipelineCounts | KRun _ => THash
  | KExecutions | KLeases | KQueue _ | KTask _ | KStatus _ | KRunExecutions _ | KRuns
  | KRunStatus _ => TZSet
  end.

Definition well_typed `{E : GoEnv} (prefix : string) (ks : Keyspace) : Prop :=
  ∀ k v, ks !! key_name prefix k = Some v → type_of v = key_type k.

Lemma zset_value_type z v : zset_value z = Some v → type_of v = TZSet.
Proof. unfold zset_value. case_decide; [done|]. by intros [= <-]. Qed.

Lemma as_hash_type v h : as_hash (Some v) = Some h → type_of v = THash.
Proof. by destruct v. Qed.

Lemma Rep_typed `{E : GoEnv} {C : Codec} prefix a ks : Rep prefix a ks → well_typed prefix ks.
Proof.
  intros Ha k v Hv. pose proof (rep_key _ _ _ Ha k) as Hk. rewrite Hv in Hk.
  destruct k; cbn [represents key_type] in *; try (symmetry in Hk; by apply zset_value_type in Hk).
  - destruct (execs a !! id); [|done]. destruct Hk as (text & _ & [= ->]). done.
  - destruct (m_events (base a) !! id); [|done]. destruct Hk as (texts & [= ->] & _). done.
  - destruct Hk as (h & Hh & _). by eapply as_hash_type.
  - destruct Hk as (h & Hh & _). by eapply as_hash_type.
  - unfold reference in Hk. by destruct (m_idempotent (base a) !! joined); simplify_eq/=.
  - unfold reference in Hk. by destruct (m_nodes (base a) !! _); simplify_eq/=.
  - by destruct (runs a !! id); simplify_eq/=.
  - unfold reference in Hk. by destruct (m_runIdempotent (base a) !! joined); simplify_eq/=.
Qed.

Section Props.
Context `{E : GoEnv} {HE : GoEnvOk} {C : Codec} {HC : CodecOk}.
Context {W : Type} `{!RedisClient W} `{!Process W} {SV : Server W} {HS : ServerOk W}.

Abbreviation prefix := (srv_prefix (W := W)).
Abbreviation rely := (srv_rely (W := W)).
Abbreviation Failed := (failed (srv_transport (W := W))).
Abbreviation KS w := (keyspace (srv_state (W := W) w)).

(** The statistics agree with the in-memory store: read from counters that the transactions maintain,
    they are the rows that counting the records gives, at the instant the counters are read; provided no
    task or pipeline in use has a NUL in its name. *)
Theorem redis_counts_agree n a w :
  Rep prefix a (KS w) →
  wp (RedisRuns.ExecutionCounts prefix) (λ r w', ∃ a', rely a a' ∧ Rep prefix a' (KS w') ∧
    (Failed r ∨ (plain_names a' → r = (Memory.ExecutionCounts (mkWorld (base a') n)).1))) w ∧
  wp (RedisRuns.PipelineCounts prefix) (λ r w', ∃ a', rely a a' ∧ Rep prefix a' (KS w') ∧
    (Failed r ∨ (plain_names a' → r = (Memory.PipelineCounts (mkWorld (base a') n)).1))) w.
Proof.
  intros Ha. split.
  - eapply wp_mono; [by apply redis_ExecutionCounts|]. intros r w' (a' & Hr & Ha' & Hc). exists a'.
    split_and!; [done|done|]. destruct Hc as [Hf|Hc]; [by left|]. right. intros Hn.
    destruct (Hc Hn) as (rows & -> & Hrep).
    destruct (ExecutionCounts_report (mkWorld (base a') n)) as (_ & rows' & Heq & Hrep'). rewrite Heq. f_equal.
    eapply report_unique; [|exact Hrep|exact Hrep']. intros [] []; simpl; congruence.
  - eapply wp_mono; [by apply redis_PipelineCounts|]. intros r w' (a' & Hr & Ha' & Hc). exists a'.
    split_and!; [done|done|]. destruct Hc as [Hf|Hc]; [by left|]. right. intros Hn.
    destruct (Hc Hn) as (rows & -> & Hrep).
    destruct (PipelineCounts_report (mkWorld (base a') n)) as (_ & rows' & Heq & Hrep'). rewrite Heq. f_equal.
    eapply report_unique; [|exact Hrep|exact Hrep']. intros [] []; simpl; congruence.
Qed.

Context {HR : Retention W}.

(** The listings agree with the in-memory store: when no other client writes meanwhile, a listing of
    executions or of runs is the one that the in-memory store gives on the same records, for every
    filter, cursor and limit; for executions, provided their creation instants are whole milliseconds,
    the precision of the index. *)
Theorem redis_listings_agree filter run_filter n a w :
  (∀ b b', rely b b' → b' = b) → whole_milliseconds a → Rep prefix a (KS w) →
  wp (Redis.ListExecutions prefix filter) (λ r w', Rep prefix a (KS w') ∧
    (Failed r ∨ r = (Memory.ListExecutions filter (mkWorld (base a) n)).1)) w ∧
  wp (RedisRuns.ListPipelineRuns prefix run_filter) (λ r w', Rep prefix a (KS w') ∧
    (Failed r ∨ r = (Memory.ListPipelineRuns run_filter (mkWorld (base a) n)).1)) w.
Proof.
  intros Hcalm Hms Ha. assert (keyed (mkWorld (base a) n)) as Hk.
  { split; [intros id e He; by apply (a_item _ (rep_inv _ _ _ Ha))
           |intros id r Hr; by apply (a_run _ (rep_inv _ _ _ Ha))]. }
  rewrite ListExecutions_keyed, ListPipelineRuns_keyed by done. split.
  - by apply (ListExecutions_calm Hcalm).
  - by apply (ListPipelineRuns_calm Hcalm).
Qed.

(** A purge, when no other client writes meanwhile, removes the oldest finished runs (with all their
    nodes) and standalone executions that ended before the cutoff, at most [limit] of them (1000 by
    default), with their events, references, index entries and counts, in one transaction, and reports
    how many records it removed; if the transaction fails, everything or nothing was removed. *)
Theorem redis_purge_exact before limit a w :
  (∀ b b', rely b b' → b' = b) → Rep prefix a (KS w) →
  wp (RedisRuns.Purge prefix before limit) (λ r w', Failed r ∧ Rep prefix a (KS w') ∨
    ∃ units, purge_choice a before (if (limit <=? 0)%Z then 1000%Z else limit) units ∧
      Rep prefix (remove_units a units) (KS w') ∧
      (Failed r ∨ r = inr (mkPurgeResult (Z.of_nat (length (units ≫= unit_items)))
                             (Z.of_nat (length (omap unit_run units)))))) w.
Proof. intros Hcalm Ha. by apply (Purge_calm Hcalm). Qed.

Context {HG : Guarantee W}.

(** C33: the keys of the store are typed: different roles have different keys, whatever the names and
    identifiers in them (the role of an idempotency reference carries the name and key joined by a NUL
    byte), and after every operation each key holds a value of the type of its role, so that no command of
    the store is refused for a value of another type. *)
Theorem redis_keys_typed {A} (o : RedisOp A) a w :
  redis_op_ok o → Rep prefix a (KS w) →
  (∀ k k', key_name prefix k = key_name prefix k' → k = k') ∧
  wp (redis_run prefix o) (λ _ w', well_typed prefix (KS w')) w.
Proof.
  intros Hok Ha. split; [intros k k'; apply (inj (key_name prefix))|].
  eapply wp_mono; [by apply redis_run_guarantee|]. intros r w' (a' & _ & Ha'). by eapply Rep_typed.
Qed.
End Props.

(** ** Encoding *)

Section Encoding.
Context `{E : GoEnv} {HE : GoEnvOk} {C : Codec} {HC : CodecOk}.

(** The hash of a run can be read back: decoding the encoded fields of a valid run gives the run,
    with its instants to the nanosecond and its 64-bit revision. *)
Theorem redis_run_round_trip r : RunItemOk r → decodeRun (encodeRun r) = inr r.
Proof. apply decodeRun_encodeRun. Qed.
End Encoding.
