(* ===== verification/RedisWitness.v ===== *)
(** * The Redis store's properties on a concrete server *)

From S2P Require Import Prelude GoLib GoText Model Memory MemoryInv StoreSpec Demo.
From S2P Require Import RedisKeys RedisServer Redis RedisRuns RedisOps RedisRep RedisRecords RedisTx.
From S2P Require Import RedisSteps RedisLin RedisCreate RedisDelivery RedisSubgraph RedisReads RedisCounts RedisPurge.
From S2P Require Import RedisClients RedisDemo RedisProps RedisProps2.

Abbreviation run_op o w := (redis_run defaultPrefix o w).
Abbreviation keys_of w := (keyspace (rw_state w)).

Definition represented (w : RWorld) : Prop := ∃ a, Rep defaultPrefix a (keys_of w).

(** An operation of the demonstration server keeps the representation. *)
Lemma represented_run {A} (o : RedisOp A) w :
  redis_op_ok o → represented w → represented (run_op o w).2.
Proof.
  intros Hok [a Ha]. destruct (redis_run_guarantee (SV := redis_server) o Hok a w Ha) as (a' & _ & Ha'). by exists a'.
Qed.

(** A stored record is stored in what the keyspace represents. *)
Lemma represented_exec a w id :
  Rep defaultPrefix a (keys_of w) → bool_decide (is_Some (keys_of w !! executionKey defaultPrefix id)) = true →
  is_Some (execs a !! id).
Proof.
  intros Ha Hk%bool_decide_eq_true_1. pose proof (rep_key _ _ _ Ha (KExecution id)) as H. cbn [represents key_name] in H.
  destruct (execs a !! id); [done|]. rewrite H in Hk. by destruct Hk.
Qed.

(** ** The scenario *)

(** An execution is created and claimed. *)
Definition op_create : RedisOp Execution := RCreateExecution (demo_request "k").
Definition op_claim : RedisOp (list Execution) := RClaim "w" [demo_key] 3 1000.
Definition rw_created : RWorld := (run_op op_create rw_empty).2.
Definition rw_claimed : RWorld := (run_op op_claim rw_created).2.
Definition token_of (w : RWorld) (id : UUID) : UUID :=
  match (run_op (RGetExecution id) w).1 with inr e => e_LeaseToken e | inl _ => 0%N end.

(** A run with two nodes. *)
Definition op_run : RedisOp PipelineRun := RCreatePipelineRun (mkCreatePipelineRun "p" 1 (Some "{}") "r").
Definition rw_run : RWorld := (run_op op_run rw_empty).2.
Definition run_id : UUID := 1%N.
Definition rw_first : RWorld := (run_op (RCreateExecution (demo_node run_id "first")) rw_run).2.
Definition rw_nodes : RWorld := (run_op (RCreateExecution (demo_node run_id "second")) rw_first).2.

Ltac valid := split; simpl; try (by vm_compute); try (unfold int_ok, MaxInt64, time_ok, Second; lia);
  try (eexists; split; [done|by vm_compute]).

Lemma demo_request_valid key : text_ok key → request_valid (demo_request key).
Proof. intros Hk. valid. Qed.

Lemma demo_node_valid node : text_ok node → request_valid (demo_node run_id node).
Proof. intros Hn. valid. Qed.

Lemma op_run_valid : run_request_valid (mkCreatePipelineRun "p" 1 (Some "{}") "r").
Proof. valid. Qed.

Lemma rw_created_rep : represented rw_created.
Proof. apply (represented_run op_create); [by apply demo_request_valid|exists empty_store; apply Rep_empty]. Qed.

Lemma op_claim_valid : redis_op_ok op_claim.
Proof. split; [done|]. unfold int_ok, MaxInt64. lia. Qed.

Lemma rw_claimed_rep : represented rw_claimed.
Proof. apply (represented_run op_claim); [apply op_claim_valid|apply rw_created_rep]. Qed.

Lemma rw_nodes_rep : represented rw_nodes.
Proof.
  apply (represented_run (RCreateExecution (demo_node run_id "second"))); [by apply demo_node_valid|].
  apply (represented_run (RCreateExecution (demo_node run_id "first"))); [by apply demo_node_valid|].
  apply (represented_run op_run); [apply op_run_valid|]. exists empty_store. apply Rep_empty.
Qed.

(** ** Witnesses *)

(** The owner of the lease reports a success. *)
Lemma redis_refines_spec_witness :
  ∃ a, Rep defaultPrefix a (keys_of rw_claimed) ∧ is_Some (execs a !! 1%N) ∧
    let c := CSucceed 1%N (token_of rw_claimed 1%N) (Some "1") in
    (redis_call defaultPrefix c rw_claimed).1 = inr tt ∧
    ∃ t a', clock_ok t ∧ Rep defaultPrefix a' (keys_of (redis_call defaultPrefix c rw_claimed).2) ∧
      outcome (W := RWorld) (λ a1 r a2, call_step true c t (base a1) r (base a2)) a (inr tt) a'.
Proof.
  destruct rw_claimed_rep as [a Ha]. exists a. split; [done|]. split.
  { apply (represented_exec a rw_claimed); [done|]. vm_compute. reflexivity. }
  cbv zeta. set (c := CSucceed 1%N (token_of rw_claimed 1%N) (Some "1")).
  assert ((redis_call defaultPrefix c rw_claimed).1 = inr tt) as Hr by (vm_compute; reflexivity).
  split; [exact Hr|].
  assert (call_ok c) as Hc by (vm_compute; done).
  destruct (redis_refines_spec (SV := redis_server) c a rw_claimed Hc Ha) as (t & a' & Ht & Ha' & Ho).
  exists t, a'. split; [done|]. split; [done|]. rewrite <-Hr. exact Ho.
Defined.

(** A second creation with the same idempotency key. *)
Lemma redis_create_idempotent_witness :
  (run_op op_create rw_created).1 = (run_op op_create rw_empty).1 ∧
  ∃ a, Rep defaultPrefix a (keys_of rw_created) ∧
    (∃ t a', clock_ok t ∧ Rep defaultPrefix a' (keys_of (run_op op_create rw_created).2) ∧
      (outcome (W := RWorld) (creation (demo_request "k") t) a (run_op op_create rw_created).1 a' ∨
       found (W := RWorld) (demo_request "k") a (run_op op_create rw_created).1 a')).
Proof.
  split; [vm_compute; reflexivity|]. destruct rw_created_rep as [a Ha]. exists a. split; [done|].
  assert (request_valid (demo_request "k")) as Hrq by (by apply demo_request_valid).
  destruct (redis_create_idempotent (SV := redis_server) _ _ a rw_created Hrq op_run_valid Ha) as [H _].
  exact H.
Defined.

Lemma rw_run_rep : represented rw_run.
Proof. apply (represented_run op_run); [apply op_run_valid|exists empty_store; apply Rep_empty]. Qed.

(** The second of two updates from the same revision is refused. *)
Lemma redis_run_compare_and_set_witness :
  let op := RSetPipelineRunStatus run_id 0 RunRunning "" in
  (run_op op rw_run).1 = inr tt ∧ (run_op op (run_op op rw_run).2).1 = inl (ErrConflict : error) ∧
  ∃ a, Rep defaultPrefix a (keys_of rw_run) ∧ ∃ t a', clock_ok t ∧
    Rep defaultPrefix a' (keys_of (run_op op rw_run).2) ∧
    outcome (W := RWorld) (status_step run_id 0 RunRunning "" t) a (run_op op rw_run).1 a'.
Proof.
  cbv zeta. split; [vm_compute; reflexivity|]. split; [vm_compute; reflexivity|].
  destruct rw_run_rep as [a Ha]. exists a. split; [done|].
  exact (redis_run_compare_and_set (SV := redis_server) run_id 0 RunRunning "" a rw_run Ha).
Defined.

(** An execution whose last attempt was claimed with a lease that has expired. *)
Definition rw_last : RWorld :=
  (run_op (RClaim "w" [demo_key] 1 0) (run_op (RCreateExecution (demo_node run_id "only")) rw_run).2).2.

Lemma rw_last_rep : represented rw_last.
Proof.
  apply (represented_run (RClaim "w" [demo_key] 1 0)); [split; [done|unfold int_ok, MaxInt64; lia]|].
  apply (represented_run (RCreateExecution (demo_node run_id "only"))); [by apply demo_node_valid|apply rw_run_rep].
Qed.

Lemma redis_reaper_exact_witness :
  (run_op RReapExpired rw_last).1 = inr [run_id] ∧
  ∃ a, Rep defaultPrefix a (keys_of rw_last) ∧ ∃ t a' l, clock_ok t ∧
    Rep defaultPrefix a' (keys_of (run_op RReapExpired rw_last).2) ∧
    match (run_op RReapExpired rw_last).1 with
    | inr runs => NoDup runs ∧ reap_post (W := RWorld) t a a' l (list_to_set runs)
    | inl e => (rw_transport e ∨ e = contention) ∧ reaps (W := RWorld) t a l a'
    end.
Proof.
  split; [vm_compute; reflexivity|]. destruct rw_last_rep as [a Ha]. exists a. split; [done|].
  exact (redis_reaper_exact (SV := redis_server) a rw_last Ha).
Defined.

Lemma redis_claim_exclusive_witness :
  e_ID <$> default [] (match (run_op op_claim rw_created).1 with inr l => Some l | inl _ => None end) = [1%N] ∧
  ∃ a, Rep defaultPrefix a (keys_of rw_created) ∧ ∃ t a', clock_ok t ∧
    Rep defaultPrefix a' (keys_of rw_claimed) ∧
    claim_post (W := RWorld) [demo_key] "w" 1000 t 3 a (run_op op_claim rw_created).1 a'.
Proof.
  split; [vm_compute; reflexivity|]. destruct rw_created_rep as [a Ha]. exists a. split; [done|].
  destruct op_claim_valid as [Hown Hl].
  exact (redis_claim_exclusive (SV := redis_server) [demo_key] "w" 1000 3 a rw_created Hown Hl Ha).
Defined.

(** The nodes of a run, one of which has failed, are restarted. *)
Definition first_id : UUID :=
  match (run_op (RCreateExecution (demo_node run_id "first")) rw_run).1 with inr e => e_ID e | inl _ => 0%N end.
Definition op_cancel (id : UUID) : RedisOp unit := RCall (CCancel id "stop").
Definition second_id : UUID :=
  match (run_op (RCreateExecution (demo_node run_id "second")) rw_first).1 with inr e => e_ID e | inl _ => 0%N end.
Definition rw_cancelled : RWorld := (run_op (op_cancel second_id) (run_op (op_cancel first_id) rw_nodes).2).2.
Definition demo_subgraph : RestartSubgraph := mkRestartSubgraph run_id "first" ["second"] 0.

Lemma rw_cancelled_rep : represented rw_cancelled.
Proof.
  apply (represented_run (op_cancel second_id)); [done|].
  apply (represented_run (op_cancel first_id)); [done|apply rw_nodes_rep].
Qed.

Definition status_of (w : RWorld) (id : UUID) : Status :=
  match (run_op (RGetExecution id) w).1 with inr e => e_Status e | inl _ => StatusZero end.

Lemma redis_restart_subgraph_atomic_witness :
  let w := (run_op (RRestartPipelineSubgraph demo_subgraph) rw_cancelled).2 in
  status_of w first_id = StatusPending ∧ status_of w second_id = StatusBlocked ∧
  ∃ a, Rep defaultPrefix a (keys_of rw_cancelled) ∧ ∃ t ids a', clock_ok t ∧ Rep defaultPrefix a' (keys_of w) ∧
    (failed rw_transport (run_op (RRestartPipelineSubgraph demo_subgraph) rw_cancelled).1 ∧ clients a a' ∨
     (∀ n id, n ∈ subgraph_nodes demo_subgraph → refers a (KNode run_id n) = Some id → id ∈ ids) ∧
     outcome (W := RWorld) (subgraph_step demo_subgraph t ids) a
       (run_op (RRestartPipelineSubgraph demo_subgraph) rw_cancelled).1 a').
Proof.
  cbv zeta. split; [vm_compute; reflexivity|]. split; [vm_compute; reflexivity|].
  destruct rw_cancelled_rep as [a Ha]. exists a. split; [done|].
  assert (NoDup (subgraph_nodes demo_subgraph)) as Hnd by (apply (bool_decide_eq_true_1 _); vm_compute; reflexivity).
  assert (time_ok (rs_AvailableAt demo_subgraph)) as Ht by (apply time_ok_zero).
  exact (redis_restart_subgraph_atomic (SV := redis_server) demo_subgraph a rw_cancelled Hnd Ht Ha).
Defined.

Lemma redis_clients_compose_witness :
  ∃ a, Rep defaultPrefix a (keys_of rw_created) ∧ ∃ a', clients a a' ∧ Rep defaultPrefix a' (keys_of rw_claimed).
Proof.
  destruct rw_created_rep as [a Ha]. exists a. split; [done|].
  exact (redis_clients_compose (SV := redis_server) op_claim a rw_created op_claim_valid Ha).
Defined.

(** *** Reads, retention and encoding *)

Lemma redis_counts_agree_witness :
  ∃ a, Rep defaultPrefix a (keys_of rw_created) ∧ ∃ a', clients a a' ∧
    Rep defaultPrefix a' (keys_of (run_op RExecutionCounts rw_created).2) ∧
    (failed rw_transport (run_op RExecutionCounts rw_created).1 ∨
     (plain_names a' → inr [mkExecutionCount "mail" "pending" 1] =
        (Memory.ExecutionCounts (mkWorld (base a') 0)).1)).
Proof.
  destruct rw_created_rep as [a Ha]. exists a. split; [done|].
  destruct (redis_counts_agree (SV := redis_server) 0 a rw_created Ha) as [H _].
  destruct H as (a' & Hr & Ha' & Hc). exists a'. split; [done|]. split; [done|].
  replace (inr [mkExecutionCount "mail" "pending" 1]) with (run_op RExecutionCounts rw_created).1
    by (vm_compute; reflexivity). exact Hc.
Defined.

(** The execution of the scenario, and the store that holds it alone. *)
Definition created_item : Execution :=
  match (run_op op_create rw_empty).1 with inr e => e | inl _ => zeroExecution end.

Lemma creation_alone request item :
  request_valid request → (Redis.CreateExecution defaultPrefix request rw_empty).1 = inr item →
  ∃ ev, Rep defaultPrefix (insert_store empty_store item ev)
    (keys_of (Redis.CreateExecution defaultPrefix request rw_empty).2).
Proof.
  intros Hrq Hr.
  destruct (CreateExecution_atomic (SV := redis_alone) (HS := redis_alone_ok) request empty_store rw_empty)
    as (t & a' & _ & Ha' & Ho); [done|apply Rep_empty|].
  change (srv_prefix (Server := redis_alone)) with defaultPrefix in *.
  rewrite Hr in Ho. destruct Ho as [Ho|(a1 & a2 & id & e & H1 & He & _)].
  - destruct Ho as [a1 a2 H1 (id & ev & _ & _ & Heq & _ & ->) H3|? [=]|? (? & [=] & _)|? ? ? ? ? ? (? & [=] & _)].
    injection Heq as ->. cbn [srv_rely redis_alone] in H1, H3. subst. by exists ev.
  - cbn [srv_rely redis_alone] in H1. subst a1. cbn in He. by rewrite lookup_empty in He.
Qed.

Lemma rw_created_alone :
  ∃ ev, Rep defaultPrefix (insert_store empty_store created_item ev) (keys_of rw_created).
Proof.
  apply (creation_alone (demo_request "k")); [by apply demo_request_valid|]. vm_compute. reflexivity.
Qed.

Definition all_executions : ListFilter := mkListFilter EmptyString EmptyString None 0 None.
Definition all_runs : RunFilter := mkRunFilter [] 0 None.

Lemma redis_listings_agree_witness :
  (run_op (RListExecutions all_executions) rw_created).1 = inr [created_item] ∧
  ∃ a, Rep defaultPrefix a (keys_of rw_created) ∧
    (Rep defaultPrefix a (keys_of (run_op (RListExecutions all_executions) rw_created).2) ∧
     (failed rw_transport (run_op (RListExecutions all_executions) rw_created).1 ∨
      (run_op (RListExecutions all_executions) rw_created).1 =
        (Memory.ListExecutions all_executions (mkWorld (base a) 0)).1)).
Proof.
  split; [vm_compute; reflexivity|]. destruct rw_created_alone as [ev Ha].
  exists (insert_store empty_store created_item ev). split; [done|].
  assert (whole_milliseconds (insert_store empty_store created_item ev)) as Hms.
  { intros id e. simpl. rewrite lookup_insert_Some. intros [[_ <-]|[_ He]]; [vm_compute; reflexivity|].
    by apply lookup_empty_Some in He. }
  destruct (redis_listings_agree (SV := redis_alone) (HS := redis_alone_ok) (HR := redis_alone_retention)
    all_executions all_runs 0 (insert_store empty_store created_item ev) rw_created) as [H _];
    [by intros b b'|exact Hms|exact Ha|]. exact H.
Defined.

(** A cancelled execution is purged. *)
Definition rw_stopped : RWorld := (run_op (op_cancel 1%N) rw_created).2.

Lemma rw_stopped_rep : represented rw_stopped.
Proof. apply (represented_run (op_cancel 1%N)); [done|apply rw_created_rep]. Qed.

Definition far : Time := (2 ^ 64)%Z.

Lemma redis_purge_exact_witness :
  let p := RedisRuns.Purge defaultPrefix far 10 rw_stopped in
  p.1 = inr (mkPurgeResult 1 0) ∧
  ∃ a, Rep defaultPrefix a (keys_of rw_stopped) ∧
    (failed rw_transport p.1 ∧ Rep defaultPrefix a (keys_of p.2) ∨
     ∃ units, purge_choice a far 10 units ∧ Rep defaultPrefix (remove_units a units) (keys_of p.2) ∧
       (failed rw_transport p.1 ∨ p.1 = inr (mkPurgeResult (Z.of_nat (length (units ≫= unit_items)))
                                               (Z.of_nat (length (omap unit_run units)))))).
Proof.
  cbv zeta. split; [vm_compute; reflexivity|]. destruct rw_stopped_rep as [a Ha]. exists a. split; [done|].
  refine (redis_purge_exact (SV := redis_alone) (HS := redis_alone_ok) (HR := redis_alone_retention)
    far 10 a rw_stopped _ Ha). by intros b b'.
Defined.

Lemma redis_keys_typed_witness :
  (∀ k k', key_name defaultPrefix k = key_name defaultPrefix k' → k = k') ∧
  well_typed defaultPrefix (keys_of rw_claimed).
Proof.
  destruct rw_created_rep as [a Ha].
  exact (redis_keys_typed (SV := redis_server) op_claim a rw_created op_claim_valid Ha).
Defined.

(** A finished run with instants of different precisions. *)
Definition demo_finished : PipelineRun :=
  mkPipelineRun 5%N "p" 2 (Some "{}") RunSucceeded "" "key" (2 ^ 64 - 1)
    (2 ^ 63 + 1) (2 ^ 63 + 120000000) (Some (2 ^ 63))%Z.

Lemma redis_run_round_trip_witness : decodeRun (encodeRun demo_finished) = inr demo_finished.
Proof.
  apply redis_run_round_trip. split; cbn; try (unfold int_ok, MaxInt64, time_ok, Second; lia).
  - exists "{}". by split.
  - split; [by eexists|done].
Defined.
