(* ===== verification/PgTables.v ===== *)
(** * The tables of the Postgres store (src/execution/postgres/schema.sql and the statements of store.go)

    The rows, the constraints of the schema, and what each SQL statement of the store does to a database
    that it sees in one committed state.  A column that may be NULL is an option; a timestamp has
    microseconds; a JSONB value is the text the server prints for it. *)

From S2P Require Import Prelude GoLib GoText Model Memory.

(** ** Rows *)

Record TaskRow := mkTaskRow {
  tr_id : UUID;
  tr_task_name : string;
  tr_task_version : Z;
  tr_input : string;
  tr_output : option string;
  tr_status : Status;
  tr_attempt : Z;
  tr_max_attempts : Z;
  tr_available_at : Time;
  tr_lease_owner : string;
  tr_lease_token : option UUID;
  tr_lease_until : option Time;
  tr_last_error : string;
  tr_idempotency_key : option string;
  tr_pipeline_run_id : option UUID;
  tr_node_key : string;
  tr_created_at : Time;
  tr_started_at : option Time;
  tr_finished_at : option Time;
}.

#[global] Instance set_tr_input : Settable tr_input := λ v x,
  mkTaskRow (tr_id x) (tr_task_name x) (tr_task_version x) v (tr_output x) (tr_status x)
    (tr_attempt x) (tr_max_attempts x) (tr_available_at x) (tr_lease_owner x) (tr_lease_token x)
    (tr_lease_until x) (tr_last_error x) (tr_idempotency_key x) (tr_pipeline_run_id x)
    (tr_node_key x) (tr_created_at x) (tr_started_at x) (tr_finished_at x).
#[global] Instance set_tr_output : Settable tr_output := λ v x,
  mkTaskRow (tr_id x) (tr_task_name x) (tr_task_version x) (tr_input x) v (tr_status x)
    (tr_attempt x) (tr_max_attempts x) (tr_available_at x) (tr_lease_owner x) (tr_lease_token x)
    (tr_lease_until x) (tr_last_error x) (tr_idempotency_key x) (tr_pipeline_run_id x)
    (tr_node_key x) (tr_created_at x) (tr_started_at x) (tr_finished_at x).
#[global] Instance set_tr_status : Settable tr_status := λ v x,
  mkTaskRow (tr_id x) (tr_task_name x) (tr_task_version x) (tr_input x) (tr_output x) v
    (tr_attempt x) (tr_max_attempts x) (tr_available_at x) (tr_lease_owner x) (tr_lease_token x)
    (tr_lease_until x) (tr_last_error x) (tr_idempotency_key x) (tr_pipeline_run_id x)
    (tr_node_key x) (tr_created_at x) (tr_started_at x) (tr_finished_at x).
#[global] Instance set_tr_attempt : Settable tr_attempt := λ v x,
  mkTaskRow (tr_id x) (tr_task_name x) (tr_task_version x) (tr_input x) (tr_output x) (tr_status x)
    v (tr_max_attempts x) (tr_available_at x) (tr_lease_owner x) (tr_lease_token x)
    (tr_lease_until x) (tr_last_error x) (tr_idempotency_key x) (tr_pipeline_run_id x)
    (tr_node_key x) (tr_created_at x) (tr_started_at x) (tr_finished_at x).
#[global] Instance set_tr_available_at : Settable tr_available_at := λ v x,
  mkTaskRow (tr_id x) (tr_task_name x) (tr_task_version x) (tr_input x) (tr_output x) (tr_status x)
    (tr_attempt x) (tr_max_attempts x) v (tr_lease_owner x) (tr_lease_token x) (tr_lease_until x)
    (tr_last_error x) (tr_idempotency_key x) (tr_pipeline_run_id x) (tr_node_key x)
    (tr_created_at x) (tr_started_at x) (tr_finished_at x).
#[global] Instance set_tr_lease_owner : Settable tr_lease_owner := λ v x,
  mkTaskRow (tr_id x) (tr_task_name x) (tr_task_version x) (tr_input x) (tr_output x) (tr_status x)
    (tr_attempt x) (tr_max_attempts x) (tr_available_at x) v (tr_lease_token x) (tr_lease_until x)
    (tr_last_error x) (tr_idempotency_key x) (tr_pipeline_run_id x) (tr_node_key x)
    (tr_created_at x) (tr_started_at x) (tr_finished_at x).
#[global] Instance set_tr_lease_token : Settable tr_lease_token := λ v x,
  mkTaskRow (tr_id x) (tr_task_name x) (tr_task_version x) (tr_input x) (tr_output x) (tr_status x)
    (tr_attempt x) (tr_max_attempts x) (tr_available_at x) (tr_lease_owner x) v (tr_lease_until x)
    (tr_last_error x) (tr_idempotency_key x) (tr_pipeline_run_id x) (tr_node_key x)
    (tr_created_at x) (tr_started_at x) (tr_finished_at x).
#[global] Instance set_tr_lease_until : Settable tr_lease_until := λ v x,
  mkTaskRow (tr_id x) (tr_task_name x) (tr_task_version x) (tr_input x) (tr_output x) (tr_status x)
    (tr_attempt x) (tr_max_attempts x) (tr_available_at x) (tr_lease_owner x) (tr_lease_token x) v
    (tr_last_error x) (tr_idempotency_key x) (tr_pipeline_run_id x) (tr_node_key x)
    (tr_created_at x) (tr_started_at x) (tr_finished_at x).
#[global] Instance set_tr_last_error : Settable tr_last_error := λ v x,
  mkTaskRow (tr_id x) (tr_task_name x) (tr_task_version x) (tr_input x) (tr_output x) (tr_status x)
    (tr_attempt x) (tr_max_attempts x) (tr_available_at x) (tr_lease_owner x) (tr_lease_token x)
    (tr_lease_until x) v (tr_idempotency_key x) (tr_pipeline_run_id x) (tr_node_key x)
    (tr_created_at x) (tr_started_at x) (tr_finished_at x).
#[global] Instance set_tr_started_at : Settable tr_started_at := λ v x,
  mkTaskRow (tr_id x) (tr_task_name x) (tr_task_version x) (tr_input x) (tr_output x) (tr_status x)
    (tr_attempt x) (tr_max_attempts x) (tr_available_at x) (tr_lease_owner x) (tr_lease_token x)
    (tr_lease_until x) (tr_last_error x) (tr_idempotency_key x) (tr_pipeline_run_id x)
    (tr_node_key x) (tr_created_at x) v (tr_finished_at x).
#[global] Instance set_tr_finished_at : Settable tr_finished_at := λ v x,
  mkTaskRow (tr_id x) (tr_task_name x) (tr_task_version x) (tr_input x) (tr_output x) (tr_status x)
    (tr_attempt x) (tr_max_attempts x) (tr_available_at x) (tr_lease_owner x) (tr_lease_token x)
    (tr_lease_until x) (tr_last_error x) (tr_idempotency_key x) (tr_pipeline_run_id x)
    (tr_node_key x) (tr_created_at x) (tr_started_at x) v.

Record RunRow := mkRunRow {
  rr_id : UUID;
  rr_pipeline_name : string;
  rr_pipeline_version : Z;
  rr_input : string;
  rr_status : RunStatus;
  rr_error : string;
  rr_idempotency_key : option string;
  rr_revision : Z;
  rr_created_at : Time;
  rr_updated_at : Time;
  rr_finished_at : option Time;
}.

#[global] Instance set_rr_status : Settable rr_status := λ v x,
  mkRunRow (rr_id x) (rr_pipeline_name x) (rr_pipeline_version x) (rr_input x) v (rr_error x)
    (rr_idempotency_key x) (rr_revision x) (rr_created_at x) (rr_updated_at x) (rr_finished_at x).
#[global] Instance set_rr_error : Settable rr_error := λ v x,
  mkRunRow (rr_id x) (rr_pipeline_name x) (rr_pipeline_version x) (rr_input x) (rr_status x) v
    (rr_idempotency_key x) (rr_revision x) (rr_created_at x) (rr_updated_at x) (rr_finished_at x).
#[global] Instance set_rr_revision : Settable rr_revision := λ v x,
  mkRunRow (rr_id x) (rr_pipeline_name x) (rr_pipeline_version x) (rr_input x) (rr_status x)
    (rr_error x) (rr_idempotency_key x) v (rr_created_at x) (rr_updated_at x) (rr_finished_at x).
#[global] Instance set_rr_updated_at : Settable rr_updated_at := λ v x,
  mkRunRow (rr_id x) (rr_pipeline_name x) (rr_pipeline_version x) (rr_input x) (rr_status x)
    (rr_error x) (rr_idempotency_key x) (rr_revision x) (rr_created_at x) v (rr_finished_at x).
#[global] Instance set_rr_finished_at : Settable rr_finished_at := λ v x,
  mkRunRow (rr_id x) (rr_pipeline_name x) (rr_pipeline_version x) (rr_input x) (rr_status x)
    (rr_error x) (rr_idempotency_key x) (rr_revision x) (rr_created_at x) (rr_updated_at x) v.

#[global] Instance TaskRow_eq_dec : EqDecision TaskRow.
Proof. solve_decision. Defined.
#[global] Instance RunRow_eq_dec : EqDecision RunRow.
Proof. solve_decision. Defined.
#[global] Instance Event_eq_dec : EqDecision Event.
Proof. solve_decision. Defined.

Record DB := mkDB {
  db_tasks : gmap UUID TaskRow;
  db_runs : gmap UUID RunRow;
  db_events : gmap UUID Event;
}.

(** [scanExecution] and [scanPipelineRun]. *)
Definition scanExecution (r : TaskRow) : Execution :=
  mkExecution (tr_id r) (tr_task_name r) (tr_task_version r) (Some (tr_input r)) (tr_output r)
    (tr_status r) (tr_attempt r) (tr_max_attempts r) (tr_available_at r) (tr_lease_owner r)
    (default uuid_Nil (tr_lease_token r)) (default 0%Z (tr_lease_until r)) (tr_last_error r)
    (default EmptyString (tr_idempotency_key r)) (tr_pipeline_run_id r) (tr_node_key r)
    (tr_created_at r) (tr_started_at r) (tr_finished_at r).

Definition scanPipelineRun (r : RunRow) : PipelineRun :=
  mkPipelineRun (rr_id r) (rr_pipeline_name r) (rr_pipeline_version r) (Some (rr_input r))
    (rr_status r) (rr_error r) (default EmptyString (rr_idempotency_key r)) (rr_revision r)
    (rr_created_at r) (rr_updated_at r) (rr_finished_at r).

(** ** Statements *)

(** What a statement takes from its surroundings: the start of the transaction, [gen_random_uuid] for a
    row, the rows that other transactions have locked, and the order in which rows are met. *)
Record SqlEnv := mkSqlEnv {
  sql_now : Time;
  sql_token : UUID → UUID;
  sql_locked : UUID → bool;
  sql_scan : ∀ A : Type, list A → list A;
}.

(** The result of a statement, the database after it, and the rows of the two tables that it locks. *)
Record Outcome (A : Type) := mkOutcome {
  out_value : A;
  out_db : DB;
  out_tasks : gset UUID;
  out_runs : gset UUID;
}.
Arguments mkOutcome {A} _ _ _ _.
Arguments out_value {A} _.
Arguments out_db {A} _.
Arguments out_tasks {A} _.
Arguments out_runs {A} _.

Definition Stmt (A : Type) : Type := SqlEnv → DB → error + Outcome A.

(** The errors of the server, without their texts. *)
Definition sql_error (what : string) : error := errorString what.

(** The text that the server prints for a JSONB value, [None] for a text that is not JSON. *)
Class Jsonb := { jsonb : string → option string }.

(** *** Arguments *)

Fixpoint has_NUL (s : string) : bool :=
  match s with EmptyString => false | String c s' => bool_decide (c = Ascii.zero) || has_NUL s' end.

(** A text argument, an INT argument, and a timestamp in microseconds. *)
Definition text_arg (s : string) : bool := valid_utf8 s && negb (has_NUL s).
Definition int_arg (z : Z) : bool := (- 2 ^ 31 <=? z)%Z && (z <? 2 ^ 31)%Z.
Definition micro (t : Time) : Time := (t - t mod 1000)%Z.

(** A statement whose arguments the driver or the server refuses. *)
Definition checked {A} (ok : bool) (what : string) (s : Stmt A) : Stmt A :=
  if ok then s else λ _ _, inl (sql_error what).

(** A statement that only reads. *)
Definition query {A} (f : SqlEnv → DB → A) : Stmt A := λ env db, inr (mkOutcome (f env db) db ∅ ∅).

Definition task_values (db : DB) : list TaskRow := (map_to_list (db_tasks db)).*2.
Definition run_values (db : DB) : list RunRow := (map_to_list (db_runs db)).*2.

(** The rows of a table that a condition selects, as they are met. *)
Definition tasks_where (env : SqlEnv) (P : TaskRow → bool) (db : DB) : list TaskRow :=
  List.filter P (sql_scan env _ (task_values db)).
Definition runs_where (env : SqlEnv) (P : RunRow → bool) (db : DB) : list RunRow :=
  List.filter P (sql_scan env _ (run_values db)).

Definition task_ids (l : list TaskRow) : gset UUID := list_to_set (tr_id <$> l).
Definition run_ids (l : list RunRow) : gset UUID := list_to_set (rr_id <$> l).

(** UPDATE task_executions SET ... WHERE ... RETURNING. *)
Definition update_tasks (P : TaskRow → bool) (f : SqlEnv → TaskRow → TaskRow) : Stmt (list TaskRow) :=
  λ env db,
  let rows := tasks_where env P db in
  inr (mkOutcome (f env <$> rows)
    (mkDB ((λ r, if P r then f env r else r) <$> db_tasks db) (db_runs db) (db_events db))
    (task_ids rows) ∅).

(** DELETE FROM task_executions WHERE ...; the events of the rows go with them. *)
Definition delete_tasks (P : TaskRow → bool) : Stmt Z := λ env db,
  let rows := tasks_where env P db in
  let ids := task_ids rows in
  inr (mkOutcome (Z.of_nat (length rows))
    (mkDB (filter (λ p, p.1 ∉ ids) (db_tasks db)) (db_runs db)
      (filter (λ p, ev_ExecutionID p.2 ∉ ids) (db_events db)))
    ids ∅).

Section Statements.
Context `{E : GoEnv} {J : Jsonb}.

(** *** Executions *)

(** The unique indexes of task_executions. *)
Definition same_key (a b : TaskRow) : bool :=
  match tr_idempotency_key a, tr_idempotency_key b with
  | Some k, Some k' => bool_decide (k = k') && bool_decide (tr_task_name a = tr_task_name b)
  | _, _ => false
  end.
Definition same_node (a b : TaskRow) : bool :=
  match tr_pipeline_run_id a, tr_pipeline_run_id b with
  | Some r, Some r' => bool_decide (r = r') && bool_decide (tr_node_key a = tr_node_key b)
  | _, _ => false
  end.

(** A row that the new one conflicts with. *)
Definition task_conflict (row r : TaskRow) : bool :=
  bool_decide (tr_id r = tr_id row) || same_key row r || same_node row r.

Definition not_null {A B} (x : option A) (k : A → Stmt B) : Stmt B :=
  match x with Some a => k a | None => λ _ _, inl (sql_error "null value in column") end.

Definition json_arg {B} (x : RawMessage) (k : option string → Stmt B) : Stmt B :=
  match x with
  | None => k None
  | Some text => match jsonb text with
                 | Some value => k (Some value)
                 | None => λ _ _, inl (sql_error "invalid input syntax for type json")
                 end
  end.

(** INSERT INTO task_executions ... ON CONFLICT DO NOTHING RETURNING. *)
Definition insert_task (id : UUID) (name : string) (version : Z) (input : RawMessage) (status : Status)
    (maxAttempts : Z) (availableAt : Time) (idem : option string) (runID : option UUID)
    (nodeKey : string) (now : Time) : Stmt (option TaskRow) :=
  checked (text_arg name && int_arg version && int_arg maxAttempts
           && match idem with Some k => text_arg k | None => true end && text_arg nodeKey)
    "invalid argument"
    (json_arg input (λ input, not_null input (λ input, λ env db,
      let row := mkTaskRow id name version input None status 0 maxAttempts (micro availableAt)
        EmptyString None None EmptyString idem runID nodeKey (micro now) None None in
      if existsb (task_conflict row) (task_values db) then inr (mkOutcome None db ∅ ∅) else
      if match runID with Some run => bool_decide (is_Some (db_runs db !! run)) | None => true end
      then inr (mkOutcome (Some row) (mkDB (<[id := row]> (db_tasks db)) (db_runs db) (db_events db))
                  {[id]} ∅)
      else inl (sql_error "violates foreign key constraint")))).

(** INSERT INTO execution_events. *)
Definition insert_event (ev : Event) : Stmt unit :=
  checked (int_arg (ev_Attempt ev) && text_arg (ev_Error ev)) "invalid argument" (λ env db,
    let ev := mkEvent (ev_ID ev) (ev_ExecutionID ev) (ev_Type ev) (ev_Attempt ev) (ev_Error ev)
      (micro (ev_CreatedAt ev)) in
    if bool_decide (is_Some (db_events db !! ev_ID ev)) then inl (sql_error "duplicate key value") else
    if bool_decide (is_Some (db_tasks db !! ev_ExecutionID ev))
    then inr (mkOutcome tt (mkDB (db_tasks db) (db_runs db) (<[ev_ID ev := ev]> (db_events db))) ∅ ∅)
    else inl (sql_error "violates foreign key constraint")).

(** SELECT ... WHERE (task_name=.. AND idempotency_key=..) OR (pipeline_run_id=.. AND node_key=..)
    LIMIT 1. *)
Definition select_existing (key : option (string * string)) (node : option (UUID * string))
    : Stmt (option TaskRow) :=
  query (λ env db, head (tasks_where env (λ r,
    match key with
    | Some (name, k) => bool_decide (tr_task_name r = name)
                        && bool_decide (tr_idempotency_key r = Some k)
    | None => false
    end ||
    match node with
    | Some (run, n) => bool_decide (tr_pipeline_run_id r = Some run) && bool_decide (tr_node_key r = n)
    | None => false
    end) db)).

Definition select_task (id : UUID) : Stmt (option TaskRow) := query (λ env db, db_tasks db !! id).

(** (created_at,id) < (t,u). *)
Definition row_before (createdAt : Time) (id : UUID) (c : Cursor) : bool :=
  Before createdAt (micro (cu_CreatedAt c))
  || (Equal createdAt (micro (cu_CreatedAt c)) && str_lt (uuid_String id) (uuid_String (cu_ID c))).

(** LIMIT, when positive. *)
Definition list_tasks (filter : ListFilter) : Stmt (list TaskRow) :=
  checked (text_arg (f_TaskName filter) && text_arg (f_Status filter)) "invalid argument"
    (query (λ env db, limit_slice (f_Limit filter) (sort_Slice
      (λ a b, newer (tr_created_at a) (tr_id a) (tr_created_at b) (tr_id b))
      (tasks_where env (λ r,
        (is_empty (f_TaskName filter) || bool_decide (tr_task_name r = f_TaskName filter)) &&
        (is_empty (f_Status filter) || bool_decide (Status_string (tr_status r) = f_Status filter)) &&
        match f_PipelineRunID filter with
        | Some run => bool_decide (tr_pipeline_run_id r = Some run)
        | None => true
        end &&
        match f_Before filter with
        | Some c => row_before (tr_created_at r) (tr_id r) c
        | None => true
        end) db)))).

(** ORDER BY created_at,id. *)
Definition list_run_tasks (runID : UUID) : Stmt (list TaskRow) :=
  query (λ env db, sort_Slice (λ a b, newer (tr_created_at b) (tr_id b) (tr_created_at a) (tr_id a))
    (tasks_where env (λ r, bool_decide (tr_pipeline_run_id r = Some runID)) db)).

(** *** Delivery *)

Definition due (r : TaskRow) (now : Time) : bool :=
  negb (After (tr_available_at r) now) &&
  (bool_decide (tr_status r = StatusPending) || bool_decide (tr_status r = StatusRetry) ||
   (bool_decide (tr_status r = StatusRunning) &&
    match tr_lease_until r with Some t => negb (After t now) | None => false end)) &&
  (tr_attempt r <? tr_max_attempts r)%Z.

Definition routed (keys : list TaskKey) (r : TaskRow) : bool :=
  existsb (λ k, bool_decide (tr_task_name r = k_Name k) && bool_decide (tr_task_version r = k_Version k))
    keys.

(** The locking subquery: ORDER BY available_at,created_at FOR UPDATE SKIP LOCKED LIMIT, on one committed
    state.  (At the level READ COMMITTED the server checks a row again that was updated since its snapshot,
    and returns it in the place of its old version.) *)
Definition claim_candidates (keys : list TaskKey) (limit : Z) (env : SqlEnv) (db : DB) : list TaskRow :=
  take (Z.to_nat limit) (sort_Slice
    (λ a b, Before (tr_available_at a) (tr_available_at b)
      || (Equal (tr_available_at a) (tr_available_at b) && Before (tr_created_at a) (tr_created_at b)))
    (tasks_where env (λ r, routed keys r && due r (sql_now env) && negb (sql_locked env (tr_id r))) db)).

Definition claimed_row (owner : string) (ms : Z) (env : SqlEnv) (r : TaskRow) : TaskRow :=
  r <| tr_status := StatusRunning |> <| tr_attempt := (tr_attempt r + 1)%Z |> <| tr_lease_owner := owner |>
    <| tr_lease_token := Some (sql_token env (tr_id r)) |>
    <| tr_lease_until := Some (sql_now env + ms * Millisecond)%Z |>
    <| tr_started_at := Some (default (sql_now env) (tr_started_at r)) |>.

Definition claim_tasks (keys : list TaskKey) (limit : Z) (owner : string) (ms : Z) : Stmt (list TaskRow) :=
  checked (forallb (λ k, text_arg (k_Name k) && int_arg (k_Version k)) keys && text_arg owner)
    "invalid argument" (λ env db,
    let ids := task_ids (claim_candidates keys limit env db) in
    update_tasks (λ r, bool_decide (tr_id r ∈ ids)) (claimed_row owner ms) env db).

Definition lapsed (r : TaskRow) (now : Time) : bool :=
  bool_decide (tr_status r = StatusRunning) &&
  match tr_lease_until r with Some t => negb (After t now) | None => false end &&
  (tr_max_attempts r <=? tr_attempt r)%Z.

(** SELECT ... FOR UPDATE SKIP LOCKED. *)
Definition select_lapsed : Stmt (list TaskRow) := λ env db,
  let rows := tasks_where env (λ r, lapsed r (sql_now env) && negb (sql_locked env (tr_id r))) db in
  inr (mkOutcome rows db (task_ids rows) ∅).

Definition unleased (r : TaskRow) : TaskRow :=
  r <| tr_lease_owner := EmptyString |> <| tr_lease_token := None |> <| tr_lease_until := None |>.

Definition fail_lapsed (id : UUID) (text : string) : Stmt (list TaskRow) :=
  checked (text_arg text) "invalid argument"
    (update_tasks (λ r, bool_decide (tr_id r = id)) (λ env r,
      unleased (r <| tr_status := StatusFailed |> <| tr_last_error := text |>
        <| tr_finished_at := Some (sql_now env) |>))).

Definition owned_by (id token : UUID) (r : TaskRow) : bool :=
  bool_decide (tr_id r = id) && bool_decide (tr_lease_token r = Some token)
  && bool_decide (tr_status r = StatusRunning).

Definition extend_lease (id token : UUID) (ms : Z) : Stmt (list TaskRow) :=
  update_tasks (owned_by id token) (λ env r,
    r <| tr_lease_until := Some (sql_now env + ms * Millisecond)%Z |>).

Definition select_now : Stmt Time := query (λ env _, sql_now env).

Definition is_final (status : Status) : bool :=
  bool_decide (status = StatusSucceeded) || bool_decide (status = StatusFailed)
  || bool_decide (status = StatusCancelled).

Definition transition_row (status : Status) (text : string) (output : option string)
    (available : option Time) (env : SqlEnv) (r : TaskRow) : TaskRow :=
  unleased (r <| tr_status := status |> <| tr_last_error := text |>
    <| tr_output := match output with Some o => Some o | None => tr_output r end |>
    <| tr_finished_at := if is_final status then Some (sql_now env) else None |>
    <| tr_available_at := if bool_decide (status = StatusRetry) then default 0%Z (micro <$> available)
                          else tr_available_at r |>).

(** A retry without an instant would store NULL. *)
Definition transition_task (id token : UUID) (status : Status) (text : string) (output : RawMessage)
    (available : option Time) : Stmt (list TaskRow) :=
  checked (text_arg text && (negb (bool_decide (status = StatusRetry)) || bool_decide (is_Some available)))
    "invalid argument"
    (json_arg output (λ output, update_tasks (owned_by id token) (transition_row status text output available))).

Definition fail_exhausted (id : UUID) : Stmt (list TaskRow) :=
  update_tasks (λ r, bool_decide (tr_id r = id)) (λ env r,
    r <| tr_status := StatusFailed |> <| tr_finished_at := Some (sql_now env) |>).

(** *** Operator actions *)

Definition cancel_task (id : UUID) (reason : string) : Stmt (list TaskRow) :=
  checked (text_arg reason) "invalid argument"
    (update_tasks (λ r, bool_decide (tr_id r = id) && negb (is_final (tr_status r))) (λ env r,
      unleased (r <| tr_status := StatusCancelled |> <| tr_last_error := reason |>
        <| tr_finished_at := Some (sql_now env) |>))).

Definition restarted_row (status : Status) (availableAt : Time) (r : TaskRow) : TaskRow :=
  unleased (r <| tr_status := status |> <| tr_attempt := 0%Z |> <| tr_available_at := micro availableAt |>
    <| tr_output := None |> <| tr_last_error := EmptyString |> <| tr_started_at := None |>
    <| tr_finished_at := None |>).

Definition restart_task (id : UUID) (availableAt : Time) : Stmt (list TaskRow) :=
  update_tasks (λ r, bool_decide (tr_id r = id) && bool_decide (tr_pipeline_run_id r = None)
                     && is_final (tr_status r))
    (λ _, restarted_row StatusPending availableAt).

Definition select_kind (id : UUID) : Stmt (option (Status * option UUID)) :=
  query (λ _ db, (λ r, (tr_status r, tr_pipeline_run_id r)) <$> db_tasks db !! id).

Definition in_nodes (runID : UUID) (nodes : list string) (r : TaskRow) : bool :=
  bool_decide (tr_pipeline_run_id r = Some runID) && bool_decide (tr_node_key r ∈ nodes).

(** SELECT ... FOR UPDATE. *)
Definition select_nodes (runID : UUID) (nodes : list string) : Stmt (list TaskRow) :=
  checked (forallb text_arg nodes) "invalid argument" (λ env db,
    let rows := tasks_where env (in_nodes runID nodes) db in
    inr (mkOutcome rows db (task_ids rows) ∅)).

Definition restart_nodes (runID : UUID) (root : string) (nodes : list string) (availableAt : Time)
    : Stmt (list TaskRow) :=
  checked (forallb text_arg nodes) "invalid argument"
    (update_tasks (in_nodes runID nodes) (λ _ r,
      restarted_row (if bool_decide (tr_node_key r = root) then StatusPending else StatusBlocked)
        availableAt r)).

Definition release_task (id : UUID) (input : RawMessage) (availableAt : Time) : Stmt (list TaskRow) :=
  json_arg input (λ input, not_null input (λ input,
    update_tasks (λ r, bool_decide (tr_id r = id) && bool_decide (tr_status r = StatusBlocked))
      (λ _ r, r <| tr_status := StatusPending |> <| tr_input := input |>
                <| tr_available_at := micro availableAt |>))).

(** ORDER BY created_at,id. *)
Definition select_events (id : UUID) : Stmt (list Event) :=
  query (λ env db, sort_Slice
    (λ a b, newer (ev_CreatedAt b) (ev_ID b) (ev_CreatedAt a) (ev_ID a))
    (List.filter (λ ev, bool_decide (ev_ExecutionID ev = id))
      (sql_scan env _ (map_to_list (db_events db)).*2))).

(** *** Runs *)

Definition run_conflict (row r : RunRow) : bool :=
  bool_decide (rr_id r = rr_id row) ||
  match rr_idempotency_key row, rr_idempotency_key r with
  | Some k, Some k' => bool_decide (k = k') && bool_decide (rr_pipeline_name row = rr_pipeline_name r)
  | _, _ => false
  end.

(** INSERT INTO pipeline_runs ... ON CONFLICT DO NOTHING; the number of rows. *)
Definition insert_run (id : UUID) (name : string) (version : Z) (input : RawMessage) (status : RunStatus)
    (idem : option string) (now : Time) : Stmt Z :=
  checked (text_arg name && int_arg version && match idem with Some k => text_arg k | None => true end)
    "invalid argument"
    (json_arg input (λ input, not_null input (λ input, λ env db,
      let row := mkRunRow id name version input status EmptyString idem 0 (micro now) (micro now) None in
      if existsb (run_conflict row) (run_values db) then inr (mkOutcome 0%Z db ∅ ∅)
      else inr (mkOutcome 1%Z (mkDB (db_tasks db) (<[id := row]> (db_runs db)) (db_events db)) ∅ {[id]})))).

Definition select_run_key (name key : string) : Stmt (option RunRow) :=
  checked (text_arg name && text_arg key) "invalid argument"
    (query (λ env db, head (runs_where env (λ r,
      bool_decide (rr_pipeline_name r = name) && bool_decide (rr_idempotency_key r = Some key)) db))).

Definition select_run (id : UUID) : Stmt (option RunRow) := query (λ _ db, db_runs db !! id).

Definition list_runs (filter : RunFilter) : Stmt (list RunRow) :=
  checked (forallb text_arg (rf_Statuses filter)) "invalid argument"
    (query (λ env db, limit_slice (rf_Limit filter) (sort_Slice
      (λ a b, newer (rr_created_at a) (rr_id a) (rr_created_at b) (rr_id b))
      (runs_where env (λ r,
        (bool_decide (rf_Statuses filter = []) ||
         bool_decide (RunStatus_string (rr_status r) ∈ rf_Statuses filter)) &&
        match rf_Before filter with
        | Some c => row_before (rr_created_at r) (rr_id r) c
        | None => true
        end) db)))).

(** UPDATE pipeline_runs SET ... WHERE ...; revision+1 does not fit after the last BIGINT. *)
Definition update_runs (P : RunRow → bool) (f : SqlEnv → RunRow → RunRow) : Stmt Z := λ env db,
  let rows := runs_where env P db in
  if forallb (λ r, (rr_revision r <? MaxInt64)%Z) rows
  then inr (mkOutcome (Z.of_nat (length rows))
         (mkDB (db_tasks db) ((λ r, if P r then f env r else r) <$> db_runs db) (db_events db))
         ∅ (run_ids rows))
  else inl (sql_error "bigint out of range").

Definition is_run_final (status : RunStatus) : bool :=
  bool_decide (status = RunSucceeded) || bool_decide (status = RunFailed)
  || bool_decide (status = RunCancelled).

(** The revision is a uint64, which must fit the BIGINT. *)
Definition set_run_status (id : UUID) (revision : Z) (status : RunStatus) (text : string) : Stmt Z :=
  checked ((revision <=? MaxInt64)%Z && text_arg text) "invalid argument"
    (update_runs (λ r, bool_decide (rr_id r = id) && (rr_revision r =? revision)%Z) (λ env r,
      r <| rr_status := status |> <| rr_error := text |> <| rr_updated_at := sql_now env |>
        <| rr_revision := (rr_revision r + 1)%Z |>
        <| rr_finished_at := if is_run_final status then Some (sql_now env) else None |>)).

Definition reopen_run (id : UUID) : Stmt Z :=
  update_runs (λ r, bool_decide (rr_id r = id)) (λ env r,
    r <| rr_status := RunRunning |> <| rr_error := EmptyString |> <| rr_updated_at := sql_now env |>
      <| rr_finished_at := None |> <| rr_revision := (rr_revision r + 1)%Z |>).

Definition run_exists (id : UUID) : Stmt bool := query (λ _ db, bool_decide (is_Some (db_runs db !! id))).

(** *** Statistics and retention *)

(** GROUP BY and count, in the order of the server's collation. *)
Definition count_groups (keys : list (string * string)) (env : SqlEnv) : list (string * string * Z) :=
  (λ k, (k, Z.of_nat (length (List.filter (λ k', bool_decide (k' = k)) keys))))
    <$> sql_scan env _ (remove_dups keys).

Definition count_tasks : Stmt (list (string * string * Z)) :=
  query (λ env db, count_groups ((λ r, (tr_task_name r, Status_string (tr_status r))) <$> task_values db) env).

Definition count_runs : Stmt (list (string * string * Z)) :=
  query (λ env db, count_groups ((λ r, (rr_pipeline_name r, RunStatus_string (rr_status r))) <$> run_values db) env).

Definition finished_less (a : option Time) (aid : UUID) (b : option Time) (bid : UUID) : bool :=
  newer (default 0%Z b) bid (default 0%Z a) aid.

(** ORDER BY finished_at,id LIMIT FOR UPDATE SKIP LOCKED. *)
Definition select_finished_runs (before : Time) (limit : Z) : Stmt (list UUID) := λ env db,
  let rows := take (Z.to_nat limit) (sort_Slice
    (λ a b, finished_less (rr_finished_at a) (rr_id a) (rr_finished_at b) (rr_id b))
    (runs_where env (λ r, match rr_finished_at r with Some t => Before t (micro before) | None => false end
                          && negb (sql_locked env (rr_id r))) db)) in
  inr (mkOutcome (rr_id <$> rows) db ∅ (run_ids rows)).

Definition delete_run_tasks (ids : list UUID) : Stmt Z :=
  delete_tasks (λ r, match tr_pipeline_run_id r with Some run => bool_decide (run ∈ ids) | None => false end).

Definition delete_runs (ids : list UUID) : Stmt Z := λ env db,
  let rows := runs_where env (λ r, bool_decide (rr_id r ∈ ids)) db in
  if existsb (λ t, match tr_pipeline_run_id t with Some run => bool_decide (run ∈ run_ids rows) | None => false end)
       (task_values db)
  then inl (sql_error "violates foreign key constraint")
  else inr (mkOutcome (Z.of_nat (length rows))
         (mkDB (db_tasks db) (filter (λ p, p.1 ∉ run_ids rows) (db_runs db)) (db_events db)) ∅ (run_ids rows)).

(** DELETE ... WHERE id IN (SELECT ... ORDER BY finished_at,id LIMIT FOR UPDATE SKIP LOCKED). *)
Definition delete_finished_tasks (before : Time) (limit : Z) : Stmt Z := λ env db,
  let rows := take (Z.to_nat limit) (sort_Slice
    (λ a b, finished_less (tr_finished_at a) (tr_id a) (tr_finished_at b) (tr_id b))
    (tasks_where env (λ r, bool_decide (tr_pipeline_run_id r = None) &&
       match tr_finished_at r with Some t => Before t (micro before) | None => false end
       && negb (sql_locked env (tr_id r))) db)) in
  delete_tasks (λ r, bool_decide (tr_id r ∈ task_ids rows)) env db.

(** The embedded schema, whose statements leave an existing schema and its rows as they are. *)
Definition migrate_schema : Stmt unit := query (λ _ _, tt).
End Statements.
