(* ===== verification/Postgres.v ===== *)
(** * The Postgres store (src/execution/postgres/store.go)

    Every operation of [postgres.Store] over the calls of [database/sql]: statements on the pool, which
    commit by themselves, and transactions with their deferred rollback. *)

From S2P Require Import Prelude GoLib GoText Model Memory PgTables.

(** The calls on the pool and on the one open transaction, and the queries of the process: its clock,
    random identifiers and the order of a map iteration.  A query without a row is [None]. *)
Class PgClient (W : Type) := {
  db_Query : ∀ A : Type, Stmt A → M W A;
  db_BeginTx : M W unit;
  tx_Query : ∀ A : Type, Stmt A → M W A;
  tx_Commit : M W unit;
  tx_Rollback : M W unit;
  process_Now : M W Time;
  process_UUID : M W UUID;
  process_Range : ∀ A : Type, list A → M W (list A);
}.
Arguments db_Query {W _ A} _.
Arguments tx_Query {W _ A} _.
Arguments process_Range {W _ A} _.

(** [None] is the nil pool. *)
Definition NewStore {C : Type} (db : option C) : error + C :=
  match db with
  | None => inl (errorString "postgres execution store db is nil")
  | Some db => inr db
  end.

Section Operations.
Context `{E : GoEnv} {J : Jsonb} {W : Type} `{!PgClient W}.

Abbreviation MW := (M W).

Definition Migrate : MW unit := db_Query migrate_schema.

(** [defer tx.Rollback()] around the rest of a function. *)
Definition deferring {A} (body : MW A) : MW A :=
  r ← try body;
  _ ← try tx_Rollback;
  match r with inl e => throw e | inr a => mret a end.

Definition transaction {A} (body : MW A) : MW A := _ ← db_BeginTx; deferring body.

(** [sql.ErrNoRows]. *)
Definition ErrNoRows : error := errorString "sql: no rows in result set".

(** [QueryRow]: the first row of a statement that returns rows. *)
Definition first_row {A B} (rows : list A) (none : MW B) (k : A → MW B) : MW B :=
  match rows with [] => none | row :: _ => k row end.

Definition insertEvent (item : Execution) (event : EventType) (text : string) : MW unit :=
  id ← process_UUID;
  now ← process_Now;
  tx_Query (insert_event (mkEvent id (e_ID item) event (e_Attempt item) text now)).

(** ** Creation and reads *)

Definition key_arg (key : string) : option string := if is_empty key then None else Some key.

Definition CreateExecution (request : CreateExecutionRequest) : MW Execution :=
  now ← process_Now;
  let availableAt := if IsZero (c_AvailableAt request) then now else c_AvailableAt request in
  let maxAttempts := if (c_MaxAttempts request <=? 0)%Z then 1%Z else c_MaxAttempts request in
  id ← process_UUID;
  let idem := key_arg (c_IdempotencyKey request) in
  transaction (
    row ← tx_Query (insert_task id (c_TaskName request) (c_TaskVersion request) (c_Input request)
      StatusPending maxAttempts availableAt idem (c_PipelineRunID request) (c_NodeKey request) now);
    match row with
    | Some row =>
        let item := scanExecution row in
        _ ← insertEvent item EventCreated EmptyString;
        _ ← tx_Commit;
        mret item
    | None =>
        _ ← tx_Rollback;
        let key := (λ k, (c_TaskName request, k)) <$> idem in
        let node := match c_PipelineRunID request with
                    | Some run => if is_empty (c_NodeKey request) then None
                                  else Some (run, c_NodeKey request)
                    | None => None
                    end in
        match key, node with
        | None, None => throw (errorString "execution insert conflicted without an idempotency key")
        | _, _ =>
            row ← db_Query (select_existing key node);
            match row with Some row => mret (scanExecution row) | None => throw ErrNoRows end
        end
    end).

(** [translateNotFound] of a row that is missing. *)
Definition GetExecution (id : UUID) : MW Execution :=
  row ← db_Query (select_task id);
  match row with Some row => mret (scanExecution row) | None => throw ErrNotFound end.

Definition ListExecutions (filter : ListFilter) : MW (list Execution) :=
  rows ← db_Query (list_tasks filter);
  mret (scanExecution <$> rows).

Definition ListRunExecutions (runID : UUID) : MW (list Execution) :=
  rows ← db_Query (list_run_tasks runID);
  mret (scanExecution <$> rows).

Definition Events (id : UUID) : MW (list Event) := db_Query (select_events id).

(** ** Delivery *)

(** [lease.Milliseconds()]. *)
Definition Milliseconds (d : Duration) : Z := Z.quot d Millisecond.

Definition Claim (owner : string) (keys : list TaskKey) (limit : Z) (lease : Duration)
    : MW (list Execution) :=
  let limit := if (limit <=? 0)%Z then 1%Z else limit in
  match keys with
  | [] => mret []
  | _ =>
      transaction (
        rows ← tx_Query (claim_tasks keys limit owner (Milliseconds lease));
        let items := scanExecution <$> rows in
        _ ← forM_ items (λ item, insertEvent item EventStarted EmptyString);
        _ ← tx_Commit;
        mret items)
  end.

Fixpoint reap_loop (items : list Execution) (runs : gset UUID) : MW (gset UUID) :=
  match items with
  | [] => mret runs
  | item :: items' =>
      let item := item <| e_LastError := lease_expired_text |> in
      _ ← tx_Query (fail_lapsed (e_ID item) (e_LastError item));
      _ ← insertEvent item EventFailed (e_LastError item);
      reap_loop items' (match e_PipelineRunID item with Some run => {[run]} ∪ runs | None => runs end)
  end.

Definition ReapExpired : MW (list UUID) :=
  runs ← transaction (
    rows ← tx_Query select_lapsed;
    runs ← reap_loop (scanExecution <$> rows) ∅;
    _ ← tx_Commit;
    mret runs);
  process_Range (elements runs).

(** [ownedResult]. *)
Definition ownedResult (rows : list TaskRow) : MW unit :=
  match rows with [] => throw ErrLeaseLost | _ => mret tt end.

Definition Heartbeat (id token : UUID) (lease : Duration) : MW unit :=
  rows ← db_Query (extend_lease id token (Milliseconds lease));
  ownedResult rows.

Definition transition (id token : UUID) (status : Status) (event : EventType) (text : string)
    (output : RawMessage) (available : Time) : MW unit :=
  transaction (
    let availableArg := if IsZero available then None else Some available in
    rows ← tx_Query (transition_task id token status text output availableArg);
    first_row rows (throw ErrLeaseLost) (λ row,
      let item := scanExecution row in
      if (e_MaxAttempts item <=? e_Attempt item)%Z && bool_decide (status = StatusRetry) then
        rows ← tx_Query (fail_exhausted id);
        first_row rows (throw ErrNoRows) (λ row,
          _ ← insertEvent (scanExecution row) EventFailed text;
          tx_Commit)
      else
        _ ← insertEvent item event text;
        tx_Commit)).

Definition Succeed (id token : UUID) (output : RawMessage) : MW unit :=
  transition id token StatusSucceeded EventSucceeded EmptyString output 0.

Definition Retry (id token : UUID) (text : string) (delay : Duration) : MW unit :=
  databaseNow ← db_Query select_now;
  transition id token StatusRetry EventRetried text None (Add databaseNow delay).

Definition Fail (id token : UUID) (text : string) : MW unit :=
  transition id token StatusFailed EventFailed text None 0.

(** ** Operator actions *)

Definition CancelExecution (id : UUID) (reason : string) : MW unit :=
  transaction (
    rows ← tx_Query (cancel_task id reason);
    first_row rows (throw ErrNotFound) (λ row,
      _ ← insertEvent (scanExecution row) EventCancelled reason;
      tx_Commit)).

Definition RestartExecution (id : UUID) (availableAt : Time) : MW Execution :=
  availableAt ← (if IsZero availableAt then process_Now else mret availableAt);
  transaction (
    rows ← tx_Query (restart_task id availableAt);
    first_row rows
      (kind ← tx_Query (select_kind id);
       match kind with
       | None => throw ErrNotFound
       | Some (_, Some _) => throw ErrPipelineExecution
       | Some (_, None) => throw ErrActive
       end)
      (λ row,
        let item := scanExecution row in
        _ ← insertEvent item EventRestarted EmptyString;
        _ ← tx_Commit;
        mret item)).

Definition active (item : Execution) : bool :=
  bool_decide (e_Status item = StatusPending) || bool_decide (e_Status item = StatusRetry)
  || bool_decide (e_Status item = StatusRunning).

Definition is_node (key : string) (item : Execution) : bool := bool_decide (e_NodeKey item = key).

(** Both row iterations end without a look at [rows.Err]: an iteration that breaks off, of which the code
    takes the rows met so far for all, is not represented; the call fails here instead. *)
Definition RestartPipelineSubgraph (request : RestartSubgraph) : MW Execution :=
  availableAt ← (if IsZero (rs_AvailableAt request) then process_Now else mret (rs_AvailableAt request));
  let keys := rs_RootNodeKey request :: rs_DescendantKeys request in
  transaction (
    rows ← tx_Query (select_nodes (rs_RunID request) keys);
    let items := scanExecution <$> rows in
    if existsb active items then throw ErrActive else
    match last (List.filter (is_node (rs_RootNodeKey request)) items) with
    | None => throw ErrNotFound
    | Some root =>
        rows ← tx_Query (restart_nodes (rs_RunID request) (rs_RootNodeKey request) keys availableAt);
        let updated := scanExecution <$> rows in
        let root := default root (last (List.filter (is_node (rs_RootNodeKey request)) updated)) in
        _ ← forM_ updated (λ item, insertEvent item EventRestarted EmptyString);
        affected ← tx_Query (reopen_run (rs_RunID request));
        if (affected =? 0)%Z then throw ErrNotFound else
        _ ← tx_Commit;
        mret root
    end).

Definition ReleaseExecution (id : UUID) (input : RawMessage) (availableAt : Time) : MW unit :=
  availableAt ← (if IsZero availableAt then process_Now else mret availableAt);
  rows ← db_Query (release_task id input availableAt);
  match rows with [] => throw ErrActive | _ => mret tt end.

(** ** Runs *)

Definition CreatePipelineRun (request : CreatePipelineRunRequest) : MW PipelineRun :=
  now ← process_Now;
  id ← process_UUID;
  let run := mkPipelineRun id (cr_PipelineName request) (cr_PipelineVersion request) (cr_Input request)
    RunPending EmptyString (cr_IdempotencyKey request) 0 now now None in
  affected ← db_Query (insert_run (r_ID run) (r_PipelineName run) (r_PipelineVersion run) (r_Input run)
    (r_Status run) (key_arg (cr_IdempotencyKey request)) now);
  if (0 <? affected)%Z then mret run else
  if is_empty (cr_IdempotencyKey request)
  then throw (errorString "pipeline insert conflicted without an idempotency key") else
  row ← db_Query (select_run_key (cr_PipelineName request) (cr_IdempotencyKey request));
  match row with Some row => mret (scanPipelineRun row) | None => throw ErrNoRows end.

Definition GetPipelineRun (id : UUID) : MW PipelineRun :=
  row ← db_Query (select_run id);
  match row with Some row => mret (scanPipelineRun row) | None => throw ErrNotFound end.

Definition ListPipelineRuns (filter : RunFilter) : MW (list PipelineRun) :=
  rows ← db_Query (list_runs filter);
  mret (scanPipelineRun <$> rows).

Definition SetPipelineRunStatus (id : UUID) (expectedRevision : Z) (status : RunStatus) (text : string)
    : MW unit :=
  affected ← db_Query (set_run_status id expectedRevision status text);
  if (0 <? affected)%Z then mret tt else
  exists_ ← db_Query (run_exists id);
  if exists_ : bool then throw ErrConflict else throw ErrNotFound.

(** ** Statistics and retention *)

Definition ExecutionCounts : MW (list ExecutionCount) :=
  rows ← db_Query count_tasks;
  mret ((λ row, mkExecutionCount row.1.1 row.1.2 row.2) <$> rows).

Definition PipelineCounts : MW (list PipelineCount) :=
  rows ← db_Query count_runs;
  mret ((λ row, mkPipelineCount row.1.1 row.1.2 row.2) <$> rows).

Definition Purge (before : Time) (limit : Z) : MW PurgeResult :=
  let limit := if (limit <=? 0)%Z then 1000%Z else limit in
  transaction (
    runIDs ← tx_Query (select_finished_runs before limit);
    executions ← match runIDs with
                 | [] => mret 0%Z
                 | _ => deleted ← tx_Query (delete_run_tasks runIDs);
                        _ ← tx_Query (delete_runs runIDs);
                        mret deleted
                 end;
    let remaining := (limit - Z.of_nat (length runIDs))%Z in
    count ← (if (0 <? remaining)%Z then tx_Query (delete_finished_tasks before remaining) else mret 0%Z);
    _ ← tx_Commit;
    mret (mkPurgeResult (executions + count)%Z (Z.of_nat (length runIDs)))).
End Operations.
