(* ===== verification/PgServer.v ===== *)
(** * The Postgres server, as the store relies on it

    The server and the driver are not part of the program.  What the store relies on is the class
    [PgLaws], which describes the server from one client: a statement sees one committed state of the
    tables together with what the open transaction has written; other transactions commit between any two
    calls, but neither touch a row that the open transaction has locked nor break a constraint of the
    schema together with its rows; a commit publishes all writes of the transaction or none; any call may
    fail on the way, and a commit that fails may have been executed. *)

From S2P Require Import Prelude GoLib GoText Model Memory PgTables Postgres.

(** ** The constraints of the tables *)

(** The checks of the schema on a row, and what the statements of the store keep: only a running execution
    has a lease, only a final one a finish time, only a node of a pipeline is blocked, and no more attempts were made than allowed. *)
Record row_ok (r : TaskRow) : Prop := {
  row_status : tr_status r ≠ StatusZero;
  row_attempt : (0 ≤ tr_attempt r ≤ tr_max_attempts r)%Z;
  row_max : (0 < tr_max_attempts r < 2 ^ 31)%Z;
  row_token : tr_lease_token r ≠ Some uuid_Nil;
  row_key : tr_idempotency_key r ≠ Some EmptyString;
  row_lease : tr_status r = StatusRunning → is_Some (tr_lease_token r) ∧ is_Some (tr_lease_until r);
  row_free : tr_status r ≠ StatusRunning →
    tr_lease_owner r = EmptyString ∧ tr_lease_token r = None ∧ tr_lease_until r = None;
  row_finished : is_Some (tr_finished_at r) ↔ is_final (tr_status r) = true;
  row_blocked : tr_status r = StatusBlocked → is_Some (tr_pipeline_run_id r);
}.

Record run_row_ok (r : RunRow) : Prop := {
  run_revision : (0 ≤ rr_revision r ≤ MaxInt64)%Z;
  run_key : rr_idempotency_key r ≠ Some EmptyString;
  run_finished : is_Some (rr_finished_at r) ↔ is_run_final (rr_status r) = true;
}.

Record db_ok (db : DB) : Prop := {
  ok_task : ∀ id r, db_tasks db !! id = Some r → tr_id r = id ∧ row_ok r;
  ok_run : ∀ id r, db_runs db !! id = Some r → rr_id r = id ∧ run_row_ok r;
  ok_event : ∀ id ev, db_events db !! id = Some ev → ev_ID ev = id ∧ is_Some (db_tasks db !! ev_ExecutionID ev);
  ok_unique : ∀ i j a b, db_tasks db !! i = Some a → db_tasks db !! j = Some b →
    same_key a b || same_node a b = true → i = j;
  ok_run_unique : ∀ i j a b, db_runs db !! i = Some a → db_runs db !! j = Some b →
    run_conflict a b = true → i = j;
  ok_task_run : ∀ id r run, db_tasks db !! id = Some r → tr_pipeline_run_id r = Some run →
    is_Some (db_runs db !! run);
}.

(** ** Open transactions *)

(** The rows a transaction has written ([None] for a deleted one), the rows it has locked, its start. *)
Record Tx := mkTx {
  tx_tasks : gmap UUID (option TaskRow);
  tx_runs : gmap UUID (option RunRow);
  tx_events : gmap UUID (option Event);
  tx_task_locks : gset UUID;
  tx_run_locks : gset UUID;
  tx_now : Time;
}.

Definition empty_tx (now : Time) : Tx := mkTx ∅ ∅ ∅ ∅ ∅ now.

Definition overlay {A} (d : gmap UUID (option A)) (m : gmap UUID A) : gmap UUID A :=
  merge (λ x y, match x with Some v => v | None => y end) d m.

Definition diff {A} `{EqDecision A} (m m' : gmap UUID A) : gmap UUID (option A) :=
  merge (λ x y, if decide (x = y) then None else Some y) m m'.

(** What the transaction sees of a committed state. *)
Definition view (tx : Tx) (db : DB) : DB :=
  mkDB (overlay (tx_tasks tx) (db_tasks db)) (overlay (tx_runs tx) (db_runs db))
    (overlay (tx_events tx) (db_events db)).

(** The transaction after a statement that turned the view [v] into the outcome [o]. *)
Definition tx_write {A} (tx : Tx) (v : DB) (o : Outcome A) : Tx :=
  mkTx (diff (db_tasks v) (db_tasks (out_db o)) ∪ tx_tasks tx)
    (diff (db_runs v) (db_runs (out_db o)) ∪ tx_runs tx)
    (diff (db_events v) (db_events (out_db o)) ∪ tx_events tx)
    (out_tasks o ∪ tx_task_locks tx) (out_runs o ∪ tx_run_locks tx) (tx_now tx).

(** What a client knows of the server: the committed tables, its open transaction, and the identifiers
    that its process drew and did not publish yet. *)
Record PgState := mkPgState { pg_db : DB; pg_tx : option Tx; pg_issued : gset UUID }.

Definition pending (s : PgState) : DB :=
  match pg_tx s with Some tx => view tx (pg_db s) | None => pg_db s end.

Definition st_publish (db : DB) (s : PgState) : PgState := mkPgState db None ∅.
Definition st_tx (tx : option Tx) (s : PgState) : PgState := mkPgState (pg_db s) tx (pg_issued s).
Definition st_issue (id : UUID) (s : PgState) : PgState :=
  mkPgState (pg_db s) (pg_tx s) ({[id]} ∪ pg_issued s).

Definition unused (id : UUID) (db : DB) : Prop :=
  db_tasks db !! id = None ∧ db_runs db !! id = None ∧ db_events db !! id = None.

(** Committed rows that the transaction holds stay as they are. *)
Record holds (tx : Tx) (db db' : DB) : Prop := {
  holds_tasks : ∀ id, id ∈ tx_task_locks tx → db_tasks db' !! id = db_tasks db !! id;
  holds_runs : ∀ id, id ∈ tx_run_locks tx → db_runs db' !! id = db_runs db !! id;
  holds_events : ∀ id, is_Some (tx_events tx !! id) → db_events db' !! id = db_events db !! id;
}.

(** The clock of the server has microseconds and is away from the zero instant by more than the longest
    duration. *)
Definition pg_clock (t : Time) : Prop := (2 ^ 63 < t)%Z ∧ micro t = t.

(** A new token for every row. *)
Record env_ok (env : SqlEnv) (db : DB) : Prop := {
  env_clock : pg_clock (sql_now env);
  env_scan : ∀ A (l : list A), sql_scan env A l ≡ₚ l;
  env_token : ∀ id, sql_token env id ≠ uuid_Nil;
  env_token_new : ∀ id i r, db_tasks db !! i = Some r → tr_lease_token r ≠ Some (sql_token env id);
  env_token_inj : ∀ id id', sql_token env id = sql_token env id' → id = id';
}.

(** ** The laws *)

(** The state of the server for this client; what other clients may commit; the rows that other open
    transactions may hold while the committed tables are those; the errors of a lost connection. *)
Class PgServer (W : Type) := {
  pg_state : W → PgState;
  pg_rely : DB → DB → Prop;
  pg_held : DB → UUID → Prop;
  pg_transport : error → Prop;
}.

Section Laws.
Context `{E : GoEnv} {W : Type} `{!PgClient W} `{!PgServer W}.

(** Other transactions commit. *)
Record evolve (s s' : PgState) : Prop := {
  ev_rely : pg_rely (pg_db s) (pg_db s');
  ev_tx : pg_tx s' = pg_tx s;
  ev_issued : pg_issued s' = pg_issued s;
  ev_holds : ∀ tx, pg_tx s = Some tx → holds tx (pg_db s) (pg_db s');
  ev_unused : ∀ id, id ∈ pg_issued s → unused id (pg_db s) → unused id (pg_db s');
  ev_committed : db_ok (pg_db s) → db_ok (pg_db s');
  ev_pending : db_ok (pending s) → db_ok (pending s');
}.

Definition failed {A} (r : error + A) : Prop := ∃ e, r = inl e ∧ pg_transport e.

Class PgLaws : Prop := {
  rely_refl : ∀ db, pg_rely db db;
  rely_trans : ∀ a b c, pg_rely a b → pg_rely b c → pg_rely a c;
  (** A statement on the pool is a transaction of its own. *)
  law_query : ∀ A (s : Stmt A) w, pg_tx (pg_state w) = None →
    wp (db_Query s) (λ r w', ∃ s1, evolve (pg_state w) s1 ∧
      (pg_state w' = s1 ∧ failed r ∨
       ∃ env, env_ok env (pg_db s1) ∧
         match s env (pg_db s1) with
         | inl e => r = inl e ∧ pg_state w' = s1
         | inr o => pg_state w' = st_publish (out_db o) s1 ∧ (r = inr (out_value o) ∨ failed r)
         end)) w;
  law_begin : ∀ w, pg_tx (pg_state w) = None →
    wp db_BeginTx (λ r w', ∃ s1, evolve (pg_state w) s1 ∧
      (pg_state w' = s1 ∧ failed r ∨
       ∃ now, pg_clock now ∧ r = inr tt ∧ pg_state w' = st_tx (Some (empty_tx now)) s1)) w;
  (** A statement that fails ends the transaction, whose writes are lost.  SKIP LOCKED passes over no other
      rows than those that another transaction holds. *)
  law_tx_query : ∀ A (s : Stmt A) w tx, pg_tx (pg_state w) = Some tx →
    wp (tx_Query s) (λ r w', ∃ s1, evolve (pg_state w) s1 ∧
      (pg_state w' = st_tx None s1 ∧ failed r ∨
       ∃ env, env_ok env (pending s1) ∧ sql_now env = tx_now tx ∧
         (∀ id, sql_locked env id = true → pg_held (pg_db s1) id) ∧
         match s env (view tx (pg_db s1)) with
         | inl e => r = inl e ∧ pg_state w' = st_tx None s1
         | inr o => r = inr (out_value o) ∧
             pg_state w' = st_tx (Some (tx_write tx (view tx (pg_db s1)) o)) s1
         end)) w;
  law_commit : ∀ w tx, pg_tx (pg_state w) = Some tx →
    wp tx_Commit (λ r w', ∃ s1, evolve (pg_state w) s1 ∧
      (pg_state w' = st_tx None s1 ∧ failed r ∨
       pg_state w' = st_publish (view tx (pg_db s1)) s1 ∧ (r = inr tt ∨ failed r))) w;
  (** A rollback of a transaction that has ended reports so. *)
  law_rollback : ∀ w, wp tx_Rollback (λ r w', ∃ s1, evolve (pg_state w) s1 ∧
      pg_state w' = st_tx None s1 ∧ (r = inr tt ∨ failed r ∨ pg_tx (pg_state w) = None)) w;
  law_now : ∀ w, wp process_Now (λ r w', (∃ t, r = inr t ∧ (0 < t)%Z) ∧ pg_state w' = pg_state w) w;
  law_uuid : ∀ w, wp process_UUID (λ r w', ∃ id, r = inr id ∧ id ≠ uuid_Nil ∧
      unused id (pg_db (pg_state w)) ∧ unused id (pending (pg_state w)) ∧ id ∉ pg_issued (pg_state w) ∧
      pg_state w' = st_issue id (pg_state w)) w;
  law_range : ∀ A (l : list A) w, wp (process_Range l) (λ r w', (∃ l', r = inr l' ∧ l' ≡ₚ l) ∧
      pg_state w' = pg_state w) w;
}.
End Laws.
