(* ===== verification/PgTx.v ===== *)
(** * Transactions under interference

    What a transaction has read under a lock and written is still so when it commits: the view of a
    transaction is, on the rows it holds, what its last statement left there, and elsewhere the committed
    state.  The lemmas of this file carry this through the calls of a client. *)

From S2P Require Import Prelude GoLib GoText Model Memory PgTables Postgres PgServer.

(** ** Views *)

Lemma lookup_overlay {A} (d : gmap UUID (option A)) m i :
  overlay d m !! i = match d !! i with Some v => v | None => m !! i end.
Proof. unfold overlay. rewrite lookup_merge. unfold diag_None. by destruct (d !! i), (m !! i). Qed.

Lemma overlay_empty {A} (m : gmap UUID A) : overlay ∅ m = m.
Proof. apply map_eq. intros i. by rewrite lookup_overlay, lookup_empty. Qed.

Lemma lookup_diff {A} `{EqDecision A} (m m' : gmap UUID A) i :
  diff m m' !! i = if decide (m !! i = m' !! i) then None else Some (m' !! i).
Proof. unfold diff. rewrite lookup_merge. unfold diag_None. by destruct (m !! i), (m' !! i). Qed.

Lemma overlay_diff {A} `{EqDecision A} (d : gmap UUID (option A)) m m' :
  overlay (diff (overlay d m) m' ∪ d) m = m'.
Proof.
  apply map_eq. intros i. rewrite lookup_overlay, lookup_union, lookup_diff, lookup_overlay.
  case_decide as Hc.
  - rewrite (left_id_L None _). by destruct (d !! i).
  - by destruct (d !! i).
Qed.

Lemma view_empty now db : view (empty_tx now) db = db.
Proof. unfold view. simpl. rewrite !overlay_empty. by destruct db. Qed.

Lemma view_write {A} tx db (o : Outcome A) : view (tx_write tx (view tx db) o) db = out_db o.
Proof. unfold view, tx_write. simpl. rewrite !overlay_diff. by destruct (out_db o). Qed.

(** A transaction has written only rows that it holds. *)
Record framed (tx : Tx) : Prop := {
  framed_tasks : ∀ id, id ∉ tx_task_locks tx → tx_tasks tx !! id = None;
  framed_runs : ∀ id, id ∉ tx_run_locks tx → tx_runs tx !! id = None;
}.

(** A statement keeps the constraints and changes only rows that it locks. *)
Record kept {A} (db : DB) (o : Outcome A) : Prop := {
  kept_ok : db_ok (out_db o);
  kept_tasks : ∀ id, id ∉ out_tasks o → db_tasks (out_db o) !! id = db_tasks db !! id;
  kept_runs : ∀ id, id ∉ out_runs o → db_runs (out_db o) !! id = db_runs db !! id;
}.

(** ... on the tables that satisfy [I]. *)
Definition stmt_on {A} (I : DB → Prop) (s : Stmt A) : Prop :=
  ∀ env db o, env_ok env db → db_ok db → I db → s env db = inr o → kept db o.

Definition stmt_ok {A} (s : Stmt A) : Prop := stmt_on (λ _, True) s.

Lemma framed_empty now : framed (empty_tx now).
Proof. by split. Qed.

Lemma framed_write {A} tx db (o : Outcome A) :
  framed tx →
  (∀ id, id ∉ out_tasks o → db_tasks (out_db o) !! id = db_tasks (view tx db) !! id) →
  (∀ id, id ∉ out_runs o → db_runs (out_db o) !! id = db_runs (view tx db) !! id) →
  framed (tx_write tx (view tx db) o).
Proof.
  intros [Ht Hr] H1 H2. split; cbn [tx_write tx_tasks tx_runs tx_task_locks tx_run_locks];
    intros id [Hn Hn']%not_elem_of_union; rewrite lookup_union, lookup_diff;
    (rewrite decide_True by (symmetry; auto)); rewrite (left_id_L None _); auto.
Qed.

Lemma view_tasks tx db db' id :
  framed tx → holds tx db db' →
  db_tasks (view tx db') !! id =
    if decide (id ∈ tx_task_locks tx) then db_tasks (view tx db) !! id else db_tasks db' !! id.
Proof.
  intros Hf Hh. cbn [view db_tasks]. rewrite !lookup_overlay. case_decide as Hl.
  - by rewrite (holds_tasks _ _ _ Hh).
  - by rewrite (framed_tasks _ Hf).
Qed.

Lemma view_runs tx db db' id :
  framed tx → holds tx db db' →
  db_runs (view tx db') !! id =
    if decide (id ∈ tx_run_locks tx) then db_runs (view tx db) !! id else db_runs db' !! id.
Proof.
  intros Hf Hh. cbn [view db_runs]. rewrite !lookup_overlay. case_decide as Hl.
  - by rewrite (holds_runs _ _ _ Hh).
  - by rewrite (framed_runs _ Hf).
Qed.

Lemma holds_refl tx db : holds tx db db.
Proof. done. Qed.

(** ** Events *)

(** What the log of an execution says of an event. *)
Definition entry_of (ev : Event) : UUID * EventType * Z * string :=
  (ev_ExecutionID ev, ev_Type ev, ev_Attempt ev, ev_Error ev).

Abbreviation Entry := (UUID * EventType * Z * string)%type.

(** The events [evs] are new and say what [log] says. *)
Definition new_events (db : DB) (evs : gmap UUID Event) (log : list Entry) : Prop :=
  evs ##ₘ db_events db ∧ entry_of <$> (map_to_list evs).*2 ≡ₚ log.

Definition recorded (tx : Tx) (db : DB) (log : list Entry) : Prop :=
  ∃ evs, tx_events tx = Some <$> evs ∧ new_events db evs log.

(** The tables after a change of rows that is recorded by events. *)
Record effect (db : DB) (tasks : gmap UUID TaskRow) (runs : gmap UUID RunRow) (log : list Entry) (db' : DB)
    : Prop := {
  eff_tasks : db_tasks db' = tasks;
  eff_runs : db_runs db' = runs;
  eff_events : ∃ evs, new_events db evs log ∧ db_events db' = evs ∪ db_events db;
}.

Lemma recorded_empty now db : recorded (empty_tx now) db [].
Proof. exists ∅. split; [by rewrite fmap_empty|]. split; [apply map_disjoint_empty_l|done]. Qed.

Lemma recorded_holds tx db db' log : holds tx db db' → recorded tx db log → recorded tx db' log.
Proof.
  intros Hh (evs & He & Hd & Hp). exists evs. split; [done|]. split; [|done].
  apply map_disjoint_spec. intros id ev ev' H1 H2. rewrite (holds_events _ _ _ Hh) in H2.
  - by eapply map_disjoint_spec.
  - rewrite He, lookup_fmap, H1. by eexists.
Qed.

Lemma recorded_effect tx db log :
  recorded tx db log → effect db (db_tasks (view tx db)) (db_runs (view tx db)) log (view tx db).
Proof.
  intros (evs & He & Hn). split; [done|done|]. exists evs. split; [done|]. cbn [view db_events].
  apply map_eq. intros id. rewrite lookup_overlay, He, lookup_fmap, lookup_union.
  destruct (evs !! id) as [ev|], (db_events db !! id); done.
Qed.

(** ** The calls *)

Section Calls.
Context `{E : GoEnv} {W : Type} `{!PgClient W} {SV : PgServer W} {HL : PgLaws (W := W)}.

Abbreviation st := (pg_state (W := W)).
Abbreviation DBof w := (pg_db (pg_state (W := W) w)).
Abbreviation rely := (pg_rely (W := W)).
Abbreviation transport := (pg_transport (W := W)).
Abbreviation Failed := (failed (W := W)).
Abbreviation evolve := (PgServer.evolve (W := W)).

(** No transaction is open. *)
Definition idle (w : W) : Prop := pg_tx (st w) = None ∧ db_ok (DBof w).

(** The transaction [tx] is open. *)
Record open (tx : Tx) (w : W) : Prop := {
  open_tx : pg_tx (st w) = Some tx;
  open_ok : db_ok (DBof w);
  open_view : db_ok (view tx (DBof w));
  open_framed : framed tx;
}.

(** The identifiers [ids] are known to this process only. *)
Definition reserved (id : UUID) (w : W) : Prop :=
  id ∈ pg_issued (st w) ∧ unused id (DBof w) ∧ unused id (pending (st w)).

(** Other transactions committed while [tx] was open. *)
Definition moved (tx : Tx) (w w' : W) : Prop :=
  rely (DBof w) (DBof w') ∧ holds tx (DBof w) (DBof w').

Lemma pg_rely_same db : rely db db.
Proof. exact (rely_refl db). Qed.

Lemma pg_rely_then a b c : rely a b → rely b c → rely a c.
Proof. exact (rely_trans a b c). Qed.

Lemma unused_view id tx db db' :
  unused id db → unused id (view tx db) → unused id db' → unused id (view tx db').
Proof.
  unfold unused. cbn [view db_tasks db_runs db_events]. rewrite !lookup_overlay.
  intros (H1 & H2 & H3) (H4 & H5 & H6) (H7 & H8 & H9). split_and!;
    [destruct (tx_tasks tx !! id)|destruct (tx_runs tx !! id)|destruct (tx_events tx !! id)]; done.
Qed.

Lemma pg_evolve_reserved id s s' :
  evolve s s' → id ∈ pg_issued s → unused id (pg_db s) → unused id (pending s) →
  id ∈ pg_issued s' ∧ unused id (pg_db s') ∧ unused id (pending s').
Proof.
  intros He Hi Hu Hp. rewrite (ev_issued _ _ He). pose proof (ev_unused _ _ He id Hi Hu) as Hu'.
  split; [done|]. split; [done|]. unfold pending in *. rewrite (ev_tx _ _ He).
  destruct (pg_tx s); [|done]. exact (unused_view _ _ _ _ Hu Hp Hu').
Qed.

(** ** Outcomes *)

(** An operation took its step at one instant between its call and its return, or it did nothing and the
    error of the connection says so, or it took its step and the reply was lost. *)
Inductive outcome {A} (step : DB → error + A → DB → Prop) (db : DB) (r : error + A) (db' : DB) : Prop :=
  | outcome_step db1 db2 : rely db db1 → step db1 r db2 → rely db2 db' → outcome step db r db'
  | outcome_failed : rely db db' → Failed r → outcome step db r db'
  | outcome_lost db1 db2 x : rely db db1 → step db1 (inr x) db2 → rely db2 db' → Failed r →
      outcome step db r db'.

Lemma outcome_pre {A} (step : DB → error + A → DB → Prop) db0 db r db' :
  rely db0 db → outcome step db r db' → outcome step db0 r db'.
Proof.
  intros H0 [db1 db2 H1 H2 H3|H1 H2|db1 db2 x H1 H2 H3 H4];
    pose proof (pg_rely_then _ _ _ H0 H1);
    [by eapply outcome_step|by eapply outcome_failed|by eapply outcome_lost].
Qed.

Lemma outcome_post {A} (step : DB → error + A → DB → Prop) db r db1 db' :
  rely db1 db' → outcome step db r db1 → outcome step db r db'.
Proof.
  intros H0 [d1 d2 H1 H2 H3|H1 H2|d1 d2 x H1 H2 H3 H4];
    [pose proof (pg_rely_then _ _ _ H3 H0)|pose proof (pg_rely_then _ _ _ H1 H0)
    |pose proof (pg_rely_then _ _ _ H3 H0)];
    [by eapply outcome_step|by eapply outcome_failed|by eapply outcome_lost].
Qed.

Lemma pg_outcome_mono {A} (step step' : DB → error + A → DB → Prop) db r db' :
  (∀ a x b, step a x b → step' a x b) → outcome step db r db' → outcome step' db r db'.
Proof.
  intros Hs []; [eapply outcome_step|eapply outcome_failed|eapply outcome_lost]; eauto.
Qed.

(** What the body of a transaction leaves: the tables are in order and the outcome is one of the above. *)
Definition settled {A} (step : DB → error + A → DB → Prop) (db : DB) (r : error + A) (w : W) : Prop :=
  db_ok (DBof w) ∧ outcome step db r (DBof w).

Lemma settled_pre {A} (step : DB → error + A → DB → Prop) db0 db r w :
  rely db0 db → settled step db r w → settled step db0 r w.
Proof. intros H [H1 H2]. split; [done|by eapply outcome_pre]. Qed.

(** ** Rules *)

Lemma wp_process_Now (Q : error + Time → W → Prop) w :
  (∀ t w', (0 < t)%Z → st w' = st w → Q (inr t) w') → wp process_Now Q w.
Proof. intros HQ. eapply wp_mono; [apply law_now|]. intros r w' [(t & -> & Ht) Hst]. by apply HQ. Qed.

Lemma wp_process_UUID (Q : error + UUID → W → Prop) w :
  (∀ id w', id ≠ uuid_Nil → st w' = st_issue id (st w) → reserved id w' → Q (inr id) w') →
  wp process_UUID Q w.
Proof.
  intros HQ. eapply wp_mono; [apply law_uuid|]. intros r w' (id & -> & Hn & Hu & Hp & _ & Hst).
  apply HQ; [done|done|]. unfold reserved. rewrite Hst. unfold st_issue, pending in *. simpl.
  split; [set_solver|done].
Qed.

Lemma idle_same w w' : pg_db (st w') = pg_db (st w) → pg_tx (st w') = pg_tx (st w) → idle w → idle w'.
Proof. unfold idle. by intros -> ->. Qed.

(** A statement on the pool. *)
Lemma wp_query {A} (s : Stmt A) w (Q : error + A → W → Prop) :
  idle w → stmt_ok s →
  (∀ e w', idle w' → rely (DBof w) (DBof w') → transport e → Q (inl e) w') →
  (∀ db env w' r, db_ok db → rely (DBof w) db → env_ok env db → idle w' →
     (∀ id, reserved id w → unused id db) →
     match s env db with
     | inl e => DBof w' = db → Q (inl e) w'
     | inr o => DBof w' = out_db o → r = inr (out_value o) ∨ Failed r → Q r w'
     end) →
  wp (db_Query s) Q w.
Proof.
  intros [Htx Hok] Hs HQ1 HQ2. eapply wp_mono; [by apply law_query|]. intros r w' (s1 & He & Hr).
  pose proof (ev_committed _ _ He Hok) as Hok1. pose proof (ev_rely _ _ He) as Hrel.
  assert (∀ id, reserved id w → unused id (pg_db s1)) as Hres.
  { intros id (H1 & H2 & H3). by apply (pg_evolve_reserved _ _ _ He H1 H2 H3). }
  assert (pg_tx s1 = None) as Htx1 by (by rewrite (ev_tx _ _ He)).
  destruct Hr as [[Hst (e & -> & Ht)]|(env & Henv & Hr)].
  { apply HQ1; [split; by rewrite Hst|by rewrite Hst|done]. }
  specialize (HQ2 (pg_db s1) env w'). destruct (s env (pg_db s1)) as [e|o] eqn:Hs1.
  - destruct Hr as [-> Hst]. apply (HQ2 (inl e)); [done..|split; by rewrite Hst|done|by rewrite Hst].
  - destruct Hr as [Hst Hr]. destruct (Hs _ _ _ Henv Hok1 I Hs1) as [Hok2 _ _].
    apply (HQ2 r); [done..|split; by rewrite Hst|done|by rewrite Hst|done].
Qed.

(** A statement of the open transaction, which passes over rows that others hold. *)
Lemma wp_tx_query_skip {A} (I : DB → Prop) (s : Stmt A) tx w (Q : error + A → W → Prop) :
  open tx w → stmt_on I s → (∀ w', moved tx w w' → I (view tx (DBof w'))) →
  (∀ e w', db_ok (DBof w') → rely (DBof w) (DBof w') → transport e → Q (inl e) w') →
  (∀ env w', env_ok env (view tx (DBof w')) → sql_now env = tx_now tx →
     (∀ id, sql_locked env id = true → pg_held (DBof w') id) → moved tx w w' →
     db_ok (DBof w') → db_ok (view tx (DBof w')) →
     (∀ id, reserved id w → unused id (DBof w') ∧ unused id (view tx (DBof w'))) →
     match s env (view tx (DBof w')) with
     | inl e => Q (inl e) w'
     | inr o => open (tx_write tx (view tx (DBof w')) o) w' → Q (inr (out_value o)) w'
     end) →
  wp (tx_Query s) Q w.
Proof.
  intros [Htx Hok Hv Hf] Hs HI HQ1 HQ2. eapply wp_mono; [by apply law_tx_query|]. intros r w' (s1 & He & Hr).
  pose proof (ev_committed _ _ He Hok) as Hok1. pose proof (ev_rely _ _ He) as Hrel.
  assert (pg_tx s1 = Some tx) as Htx1 by (by rewrite (ev_tx _ _ He)).
  assert (pending s1 = view tx (pg_db s1)) as Hp by (unfold pending; by rewrite Htx1).
  assert (db_ok (view tx (pg_db s1))) as Hv1.
  { rewrite <-Hp. apply (ev_pending _ _ He). unfold pending. by rewrite Htx. }
  destruct Hr as [[Hst (e & -> & Ht)]|(env & Henv & Hnow & Hheld & Hr)].
  { apply HQ1; [by rewrite Hst|by rewrite Hst|done]. }
  assert (DBof w' = pg_db s1) as Hdb by (destruct (s env _); destruct Hr as [_ ->]; done).
  assert (moved tx w w') as Hm by (split; rewrite Hdb; [done|by apply (ev_holds _ _ He)]).
  specialize (HI _ Hm). specialize (HQ2 env w'). rewrite Hdb in HQ2, HI. rewrite Hp in Henv.
  assert (∀ id, reserved id w → unused id (pg_db s1) ∧ unused id (view tx (pg_db s1))) as Hres.
  { intros id (H1 & H2 & H3). rewrite <-Hp. by apply (pg_evolve_reserved _ _ _ He). }
  specialize (HQ2 Henv Hnow Hheld Hm Hok1 Hv1 Hres).
  destruct (s env (view tx (pg_db s1))) as [e|o] eqn:Hs1; [by destruct Hr as [-> _]|].
  destruct Hr as [-> Hst]. destruct (Hs _ _ _ Henv Hv1 HI Hs1) as [Hok2 Ht Hr]. apply HQ2.
  split; rewrite ?Hst; cbn [st_tx pg_tx pg_db]; [done|done|by rewrite view_write|by apply framed_write].
Qed.

Lemma wp_tx_query_on {A} (I : DB → Prop) (s : Stmt A) tx w (Q : error + A → W → Prop) :
  open tx w → stmt_on I s → (∀ w', moved tx w w' → I (view tx (DBof w'))) →
  (∀ e w', db_ok (DBof w') → rely (DBof w) (DBof w') → transport e → Q (inl e) w') →
  (∀ env w', env_ok env (view tx (DBof w')) → sql_now env = tx_now tx → moved tx w w' →
     db_ok (DBof w') → db_ok (view tx (DBof w')) →
     (∀ id, reserved id w → unused id (DBof w') ∧ unused id (view tx (DBof w'))) →
     match s env (view tx (DBof w')) with
     | inl e => Q (inl e) w'
     | inr o => open (tx_write tx (view tx (DBof w')) o) w' → Q (inr (out_value o)) w'
     end) →
  wp (tx_Query s) Q w.
Proof.
  intros Ho Hs HI HQ1 HQ2. eapply (wp_tx_query_skip I); [done..|]. intros env w' Henv Hnow _. by apply HQ2.
Qed.

Lemma wp_tx_query {A} (s : Stmt A) tx w (Q : error + A → W → Prop) :
  open tx w → stmt_ok s →
  (∀ e w', db_ok (DBof w') → rely (DBof w) (DBof w') → transport e → Q (inl e) w') →
  (∀ env w', env_ok env (view tx (DBof w')) → sql_now env = tx_now tx → moved tx w w' →
     db_ok (DBof w') → db_ok (view tx (DBof w')) →
     (∀ id, reserved id w → unused id (DBof w') ∧ unused id (view tx (DBof w'))) →
     match s env (view tx (DBof w')) with
     | inl e => Q (inl e) w'
     | inr o => open (tx_write tx (view tx (DBof w')) o) w' → Q (inr (out_value o)) w'
     end) →
  wp (tx_Query s) Q w.
Proof. intros Ho Hs. by apply (wp_tx_query_on (λ _, True)). Qed.

Lemma wp_begin w (Q : error + unit → W → Prop) :
  idle w →
  (∀ e w', idle w' → rely (DBof w) (DBof w') → transport e → Q (inl e) w') →
  (∀ now w', pg_clock now → open (empty_tx now) w' → rely (DBof w) (DBof w') →
     (∀ id, reserved id w → reserved id w') → Q (inr tt) w') →
  wp db_BeginTx Q w.
Proof.
  intros [Htx Hok] HQ1 HQ2. eapply wp_mono; [by apply law_begin|]. intros r w' (s1 & He & Hr).
  pose proof (ev_committed _ _ He Hok) as Hok1. pose proof (ev_rely _ _ He) as Hrel.
  assert (pg_tx s1 = None) as Htx1 by (by rewrite (ev_tx _ _ He)).
  destruct Hr as [[Hst (e & -> & Ht)]|(now & Hc & -> & Hst)].
  { apply HQ1; [split; by rewrite Hst|by rewrite Hst|done]. }
  apply (HQ2 now); [done| |by rewrite Hst|].
  - split; rewrite ?Hst; cbn [st_tx pg_tx pg_db]; [done|done|by rewrite view_empty|apply framed_empty].
  - intros id (H1 & H2 & H3). destruct (pg_evolve_reserved _ _ _ He H1 H2 H3) as (H4 & H5 & _).
    unfold reserved, pending. rewrite Hst. cbn [st_tx pg_tx pg_db pg_issued]. by rewrite view_empty.
Qed.

(** At the commit the view of the transaction becomes the committed state. *)
Lemma wp_commit tx w (Q : error + unit → W → Prop) :
  open tx w →
  (∀ e w', db_ok (DBof w') → rely (DBof w) (DBof w') → transport e → Q (inl e) w') →
  (∀ db w' r, rely (DBof w) db → holds tx (DBof w) db → db_ok db → db_ok (view tx db) →
     DBof w' = view tx db → r = inr tt ∨ Failed r → Q r w') →
  wp tx_Commit Q w.
Proof.
  intros [Htx Hok Hv Hf] HQ1 HQ2. eapply wp_mono; [by apply law_commit|]. intros r w' (s1 & He & Hr).
  pose proof (ev_committed _ _ He Hok) as Hok1. pose proof (ev_rely _ _ He) as Hrel.
  assert (db_ok (view tx (pg_db s1))) as Hv1.
  { pose proof (ev_pending _ _ He) as H. unfold pending in H. rewrite (ev_tx _ _ He), Htx in H. by apply H. }
  destruct Hr as [[Hst (e & -> & Ht)]|[Hst Hr]].
  - apply HQ1; [by rewrite Hst|by rewrite Hst|done].
  - apply (HQ2 (pg_db s1)); [done|by apply (ev_holds _ _ He)|done|done|by rewrite Hst|done].
Qed.

(** The rollback, explicit or deferred. *)
Lemma wp_rollback w (Q : error + unit → W → Prop) :
  db_ok (DBof w) →
  (∀ r w', idle w' → rely (DBof w) (DBof w') →
     r = inr tt ∨ Failed r ∨ pg_tx (st w) = None → Q r w') →
  wp tx_Rollback Q w.
Proof.
  intros Hok HQ. eapply wp_mono; [by apply law_rollback|]. intros r w' (s1 & He & Hst & Hr).
  pose proof (ev_committed _ _ He Hok) as Hok1. apply HQ; [split; by rewrite Hst| |done].
  rewrite Hst. apply (ev_rely _ _ He).
Qed.

Lemma wp_deferring {A} (body : M W A) (step : DB → error + A → DB → Prop) db w :
  wp body (settled step db) w →
  wp (deferring body) (λ r w', idle w' ∧ outcome step db r (DBof w')) w.
Proof.
  intros Hb. unfold deferring. apply wp_bind, wp_try. eapply wp_mono; [exact Hb|]. intros r w1 [Hok Ho].
  apply wp_bind, wp_try. apply wp_rollback; [done|]. intros r' w2 Hi Hrel _.
  destruct r as [e|x]; [apply wp_throw|apply wp_ret]; (split; [done|by eapply outcome_post]).
Qed.

Lemma wp_transaction {A} (body : M W A) (step : DB → error + A → DB → Prop) w :
  idle w →
  (∀ now w', pg_clock now → open (empty_tx now) w' → rely (DBof w) (DBof w') →
     (∀ id, reserved id w → reserved id w') → wp body (settled step (DBof w')) w') →
  wp (transaction body) (λ r w', idle w' ∧ outcome step (DBof w) r (DBof w')) w.
Proof.
  intros Hi Hb. unfold transaction. apply wp_bind. apply wp_begin; [done|..].
  - intros e w' Hi' Hr Ht. split; [done|]. eapply outcome_failed; [done|by exists e].
  - intros now w' Hc Ho Hr Hres. eapply wp_mono; [by eapply wp_deferring, Hb|].
    intros r w2 [Hi2 Ho2]. split; [done|by eapply outcome_pre].
Qed.

(** The ends of a body: a lost connection, an error that reports a state, the commit. *)
Lemma settled_failed {A} (step : DB → error + A → DB → Prop) db e w :
  db_ok (DBof w) → rely db (DBof w) → transport e → settled step db (inl e) w.
Proof. intros Hok Hr Ht. split; [done|]. eapply outcome_failed; [done|by exists e]. Qed.

Lemma settled_error {A} (step : DB → error + A → DB → Prop) db e w :
  db_ok (DBof w) → rely db (DBof w) → step (DBof w) (inl e) (DBof w) → settled step db (inl e) w.
Proof. intros Hok Hr Hs. split; [done|]. by eapply outcome_step; [..|apply pg_rely_same]. Qed.

Lemma settled_done {A} (step : DB → error + A → DB → Prop) db db1 r x w :
  db_ok (DBof w) → rely db db1 → step db1 (inr x) (DBof w) → r = inr x ∨ Failed r → settled step db r w.
Proof.
  intros Hok Hr Hs [->|Hf]; (split; [done|]);
    [by eapply outcome_step; [..|apply pg_rely_same]|by eapply outcome_lost; [..|apply pg_rely_same|]].
Qed.

Lemma wp_commit_settled tx w db {A} (step : DB → error + A → DB → Prop) (x : A) :
  open tx w → rely db (DBof w) →
  (∀ db', rely (DBof w) db' → holds tx (DBof w) db' → db_ok db' → db_ok (view tx db') →
     step db' (inr x) (view tx db')) →
  wp (_ ← tx_Commit; mret x) (settled step db) w.
Proof.
  intros Ho Hr Hs. apply wp_bind, (wp_commit tx); [done|..].
  - intros e w' Hok Hr' Ht. apply settled_failed; [done|by eapply pg_rely_then|done].
  - intros db' w' r Hr' Hh Hok Hv Hdb Hrr.
    assert (settled step db (match r with inl e => inl e | inr _ => inr x end) w') as Hset.
    { eapply (settled_done _ _ db'); [by rewrite Hdb|by eapply pg_rely_then|rewrite Hdb; by apply Hs|].
      destruct Hrr as [->|(e & -> & He)]; [by left|right; by exists e]. }
    destruct r as [e|[]]; [done|by apply wp_ret].
Qed.
End Calls.
