(* ===== verification/PgStmts.v ===== *)
(** * The statements of the Postgres store

    Every statement keeps the constraints of the tables and changes only rows that it locks ([stmt_ok]);
    an UPDATE that selects by identifier changes that row or nothing. *)

From S2P Require Import Prelude GoLib GoText Model Memory PgTables Postgres PgServer PgTx.

(** ** The rows a condition selects *)

(** A table whose rows are stored under their identifiers, met in any order. *)
Section Table.
Context {A : Type} (key : A → UUID) (m : gmap UUID A) (scan : list A → list A).

Definition rows_of : list A := (map_to_list m).*2.

Lemma elem_of_rows r : r ∈ rows_of ↔ ∃ id, m !! id = Some r.
Proof.
  unfold rows_of. rewrite list_elem_of_fmap. split.
  - intros ([id r'] & -> & H). apply elem_of_map_to_list in H. by exists id.
  - intros [id H]. exists (id, r). split; [done|]. by apply elem_of_map_to_list.
Qed.

Lemma existsb_rows (P : A → bool) :
  existsb P rows_of = false ↔ ∀ id r, m !! id = Some r → P r = false.
Proof.
  rewrite <-not_true_iff_false, existsb_exists. split.
  - intros H id r Hr. destruct (P r) eqn:HP; [|done]. destruct H. exists r. split; [|done].
    apply list_elem_of_In, elem_of_rows. by exists id.
  - intros H (r & Hr & HP). apply list_elem_of_In, elem_of_rows in Hr as [id Hr].
    by rewrite (H _ _ Hr) in HP.
Qed.

Context (Hkey : ∀ id r, m !! id = Some r → key r = id) (Hscan : ∀ l, scan l ≡ₚ l).

Abbreviation selected P := (List.filter P (scan rows_of)).

Lemma elem_of_selected P r : r ∈ selected P ↔ m !! key r = Some r ∧ P r = true.
Proof using Hkey Hscan.
  rewrite elem_of_filter_In, Hscan, elem_of_rows. split; intros [H HP]; (split; [|done]); [|by eexists].
  destruct H as [id H]. by rewrite (Hkey _ _ H).
Qed.

Lemma selected_ids P id :
  (∃ r, r ∈ selected P ∧ key r = id) ↔ ∃ r, m !! id = Some r ∧ P r = true.
Proof using Hkey Hscan.
  split.
  - intros (r & [H HP]%elem_of_selected & <-). eauto.
  - intros (r & H & HP). exists r. rewrite elem_of_selected. by rewrite (Hkey _ _ H).
Qed.

Lemma NoDup_rows : NoDup (key <$> scan rows_of).
Proof using Hkey Hscan.
  rewrite Hscan. assert (key <$> rows_of = (map_to_list m).*1) as ->; [|apply NoDup_fst_map_to_list].
  unfold rows_of. rewrite <-list_fmap_compose. apply list_fmap_ext. intros i [id r] Hi.
  apply list_elem_of_lookup_2, elem_of_map_to_list in Hi. by apply Hkey.
Qed.

Lemma NoDup_selected P : NoDup (key <$> selected P).
Proof using Hkey Hscan.
  pose proof NoDup_rows as Hn. revert Hn. induction (scan rows_of) as [|r l IH]; [done|].
  rewrite fmap_cons. intros [Hr Hn]%NoDup_cons. simpl. destruct (P r); [|by apply IH].
  rewrite fmap_cons. apply NoDup_cons. split; [|by apply IH]. intros Hin. destruct Hr.
  apply list_elem_of_fmap in Hin as (r' & -> & Hin). apply list_elem_of_fmap_2.
  by apply elem_of_filter_In in Hin as [? _].
Qed.

Lemma selected_one P id :
  (∀ r, P r = true → key r = id) →
  selected P = match m !! id with Some r => if P r then [r] else [] | None => [] end.
Proof using Hkey Hscan.
  intros HP. destruct (selected P) as [|r l] eqn:Hl.
  - destruct (m !! id) as [r|] eqn:Hr; [|done]. destruct (P r) eqn:HPr; [|done].
    assert (r ∈ selected P) as Hin by (apply elem_of_selected; by rewrite (Hkey _ _ Hr)).
    rewrite Hl in Hin. by apply elem_of_nil in Hin.
  - assert (r ∈ selected P) as Hin by (rewrite Hl; left).
    apply elem_of_selected in Hin as [Hr HPr]. pose proof (HP _ HPr) as Hid. rewrite Hid in Hr.
    rewrite Hr, HPr. f_equal. destruct l as [|r' l]; [done|]. pose proof (NoDup_selected P) as Hn.
    rewrite Hl in Hn. assert (r' ∈ selected P) as Hin' by (rewrite Hl; right; left).
    apply elem_of_selected in Hin' as [_ HPr']. apply HP in HPr'.
    rewrite !fmap_cons, Hid, HPr' in Hn. apply NoDup_cons in Hn as [Hn _]. destruct Hn. left.
Qed.
End Table.

Lemma existsb_tasks db P :
  existsb P (task_values db) = false ↔ ∀ id r, db_tasks db !! id = Some r → P r = false.
Proof. exact (existsb_rows (db_tasks db) P). Qed.

Lemma existsb_runs db P :
  existsb P (run_values db) = false ↔ ∀ id r, db_runs db !! id = Some r → P r = false.
Proof. exact (existsb_rows (db_runs db) P). Qed.

Section Selection.
Context (env : SqlEnv) (db : DB) (Henv : env_ok env db) (Hok : db_ok db).

Lemma task_key id r : db_tasks db !! id = Some r → tr_id r = id.
Proof using Hok. intros H. by apply (ok_task _ Hok). Qed.

Lemma run_row_key id r : db_runs db !! id = Some r → rr_id r = id.
Proof using Hok. intros H. by apply (ok_run _ Hok). Qed.

Lemma elem_of_tasks_where P r :
  r ∈ tasks_where env P db ↔ db_tasks db !! tr_id r = Some r ∧ P r = true.
Proof using Henv Hok. apply (elem_of_selected tr_id _ _ task_key (env_scan _ _ Henv _)). Qed.

Lemma elem_of_runs_where P r :
  r ∈ runs_where env P db ↔ db_runs db !! rr_id r = Some r ∧ P r = true.
Proof using Henv Hok. apply (elem_of_selected rr_id _ _ run_row_key (env_scan _ _ Henv _)). Qed.

Lemma elem_of_task_ids l id : id ∈ task_ids l ↔ ∃ r, r ∈ l ∧ tr_id r = id.
Proof. unfold task_ids. rewrite elem_of_list_to_set, list_elem_of_fmap. naive_solver. Qed.

Lemma elem_of_run_ids l id : id ∈ run_ids l ↔ ∃ r, r ∈ l ∧ rr_id r = id.
Proof. unfold run_ids. rewrite elem_of_list_to_set, list_elem_of_fmap. naive_solver. Qed.

Lemma elem_of_where_ids P id :
  id ∈ task_ids (tasks_where env P db) ↔ ∃ r, db_tasks db !! id = Some r ∧ P r = true.
Proof using Henv Hok.
  rewrite elem_of_task_ids. apply (selected_ids tr_id _ _ task_key (env_scan _ _ Henv _)).
Qed.

Lemma elem_of_where_run_ids P id :
  id ∈ run_ids (runs_where env P db) ↔ ∃ r, db_runs db !! id = Some r ∧ P r = true.
Proof using Henv Hok.
  rewrite elem_of_run_ids. apply (selected_ids rr_id _ _ run_row_key (env_scan _ _ Henv _)).
Qed.

Lemma NoDup_tasks_where P : NoDup (tr_id <$> tasks_where env P db).
Proof using Henv Hok. apply (NoDup_selected tr_id _ _ task_key (env_scan _ _ Henv _)). Qed.

Lemma NoDup_runs_where P : NoDup (rr_id <$> runs_where env P db).
Proof using Henv Hok. apply (NoDup_selected rr_id _ _ run_row_key (env_scan _ _ Henv _)). Qed.

Lemma tasks_where_one P id :
  (∀ r, P r = true → tr_id r = id) →
  tasks_where env P db = match db_tasks db !! id with Some r => if P r then [r] else [] | None => [] end.
Proof using Henv Hok. apply (selected_one tr_id _ _ task_key (env_scan _ _ Henv _)). Qed.

Lemma runs_where_one P id :
  (∀ r, P r = true → rr_id r = id) →
  runs_where env P db = match db_runs db !! id with Some r => if P r then [r] else [] | None => [] end.
Proof using Henv Hok. apply (selected_one rr_id _ _ run_row_key (env_scan _ _ Henv _)). Qed.
End Selection.

(** ** Statements in general *)

Lemma stmt_ok_query {A} (f : SqlEnv → DB → A) : stmt_ok (query f).
Proof. intros env db o _ Hok _ Ho. unfold query in Ho. injection Ho as <-. by split. Qed.

Lemma stmt_ok_checked {A} b what (s : Stmt A) : stmt_ok s → stmt_ok (checked b what s).
Proof. intros Hs. destruct b; [done|]. by intros env db o _ _ _ [=]. Qed.

Lemma stmt_ok_json {J : Jsonb} {B} x (k : option string → Stmt B) : (∀ v, stmt_ok (k v)) → stmt_ok (json_arg x k).
Proof.
  intros Hk. destruct x as [text|]; simpl; [|apply Hk]. destruct (jsonb text); [apply Hk|].
  by intros env db o _ _ _ [=].
Qed.

Lemma stmt_ok_not_null {A B} x (k : A → Stmt B) : (∀ v, stmt_ok (k v)) → stmt_ok (not_null x k).
Proof. intros Hk. destruct x as [a|]; [exact (Hk a)|]. by intros env db o _ _ _ [=]. Qed.

(** *** Updates *)

(** An update changes neither the identifier of a row nor the columns under a constraint. *)
Definition same_columns (r r' : TaskRow) : Prop :=
  tr_id r' = tr_id r ∧ tr_task_name r' = tr_task_name r ∧ tr_idempotency_key r' = tr_idempotency_key r ∧
  tr_pipeline_run_id r' = tr_pipeline_run_id r ∧ tr_node_key r' = tr_node_key r.

Definition same_run_columns (r r' : RunRow) : Prop :=
  rr_id r' = rr_id r ∧ rr_pipeline_name r' = rr_pipeline_name r ∧ rr_idempotency_key r' = rr_idempotency_key r.

Lemma same_columns_conflict a b a' b' :
  same_columns a a' → same_columns b b' → same_key a' b' || same_node a' b' = same_key a b || same_node a b.
Proof.
  intros (_ & H1 & H2 & H3 & H4) (_ & H5 & H6 & H7 & H8). unfold same_key, same_node.
  by rewrite H1, H2, H3, H4, H5, H6, H7, H8.
Qed.

Lemma same_columns_refl r : same_columns r r.
Proof. done. Qed.

(** Replacing rows by rows with the same columns keeps the constraints. *)
Lemma db_ok_tasks db (g : TaskRow → TaskRow) :
  db_ok db → (∀ id r, db_tasks db !! id = Some r → row_ok (g r) ∧ same_columns r (g r)) →
  db_ok (mkDB (g <$> db_tasks db) (db_runs db) (db_events db)).
Proof.
  intros [H1 H2 H3 H4 H5 H6] Hg. split; cbn [db_tasks db_runs db_events]; try done.
  - intros id r'. rewrite lookup_fmap. intros (r & Hr & ->)%fmap_Some. destruct (H1 _ _ Hr) as [<- Hr'].
    destruct (Hg _ _ Hr) as [? [? _]]. done.
  - intros id ev Hev. destruct (H3 _ _ Hev) as [? Hs]. split; [done|]. by rewrite lookup_fmap, fmap_is_Some.
  - intros i j a' b'. rewrite !lookup_fmap. intros (a & Ha & ->)%fmap_Some (b & Hb & ->)%fmap_Some.
    rewrite (same_columns_conflict a b) by (by eapply Hg). by apply H4.
  - intros id r' run. rewrite lookup_fmap. intros (r & Hr & ->)%fmap_Some.
    destruct (Hg _ _ Hr) as [_ (_ & _ & _ & -> & _)]. by eapply H6.
Qed.

Lemma db_ok_runs db (g : RunRow → RunRow) :
  db_ok db → (∀ id r, db_runs db !! id = Some r → run_row_ok (g r) ∧ same_run_columns r (g r)) →
  db_ok (mkDB (db_tasks db) (g <$> db_runs db) (db_events db)).
Proof.
  intros [H1 H2 H3 H4 H5 H6] Hg. split; cbn [db_tasks db_runs db_events]; try done.
  - intros id r'. rewrite lookup_fmap. intros (r & Hr & ->)%fmap_Some. destruct (H2 _ _ Hr) as [<- Hr'].
    destruct (Hg _ _ Hr) as [? [? _]]. done.
  - intros i j a' b'. rewrite !lookup_fmap. intros (a & Ha & ->)%fmap_Some (b & Hb & ->)%fmap_Some Hc.
    eapply (H5 i j a b); [done|done|]. rewrite <-Hc.
    destruct (Hg _ _ Ha) as [_ (E1 & E2 & E3)], (Hg _ _ Hb) as [_ (E4 & E5 & E6)].
    unfold run_conflict. by rewrite E1, E2, E3, E4, E5, E6.
  - intros id r run Hr Hrun. rewrite lookup_fmap, fmap_is_Some. by eapply H6.
Qed.

Lemma update_kept P f env db o :
  env_ok env db → db_ok db →
  (∀ id r, db_tasks db !! id = Some r → P r = true → row_ok (f env r) ∧ same_columns r (f env r)) →
  update_tasks P f env db = inr o → kept db o.
Proof.
  intros Henv Hok Hf Ho. unfold update_tasks in Ho. injection Ho as <-. split; cbn [out_db out_tasks out_runs]; [..|done].
  - apply db_ok_tasks; [done|]. intros id r Hr. destruct (P r) eqn:HP; [by eapply Hf|].
    split; [by apply (ok_task _ Hok _ _ Hr)|done].
  - intros id Hid. cbn [db_tasks]. rewrite lookup_fmap. destruct (db_tasks db !! id) as [r|] eqn:Hr; [|done].
    simpl. destruct (P r) eqn:HP; [|done]. destruct Hid. apply elem_of_where_ids; [done..|]. eauto.
Qed.

Lemma stmt_ok_update P f :
  (∀ env r, row_ok r → P r = true → row_ok (f env r) ∧ same_columns r (f env r)) →
  stmt_ok (update_tasks P f).
Proof.
  intros Hf env db o Henv Hok _. apply update_kept; [done|done|]. intros id r Hr. apply Hf.
  by apply (ok_task _ Hok _ _ Hr).
Qed.

(** An update by identifier. *)
Definition put_task (db : DB) (id : UUID) (r : TaskRow) : DB :=
  mkDB (<[id := r]> (db_tasks db)) (db_runs db) (db_events db).

Lemma update_one env db P f id :
  env_ok env db → db_ok db → (∀ r, P r = true → tr_id r = id) →
  update_tasks P f env db =
    match db_tasks db !! id with
    | Some r => if P r then inr (mkOutcome [f env r] (put_task db id (f env r)) {[id]} ∅)
                else inr (mkOutcome [] db ∅ ∅)
    | None => inr (mkOutcome [] db ∅ ∅)
    end.
Proof.
  intros Henv Hok HP. unfold update_tasks. rewrite (tasks_where_one env db Henv Hok P id) by done.
  assert ((∀ r, db_tasks db !! id = Some r → P r = false) →
    inr (mkOutcome [] (mkDB ((λ r, if P r then f env r else r) <$> db_tasks db) (db_runs db) (db_events db))
      (task_ids []) ∅) = inr (A := error) (mkOutcome (A := list TaskRow) [] db ∅ ∅)) as Hsame.
  { intros Hc. f_equal. f_equal. destruct db as [tasks runs evs]. cbn [db_tasks] in *. f_equal.
    rewrite <-(map_fmap_id tasks) at 2. apply map_fmap_ext. intros i r Hr.
    destruct (P r) eqn:HPr; [|done]. pose proof (HP _ HPr) as Hid.
    rewrite (task_key _ Hok _ _ Hr) in Hid. subst i. by rewrite (Hc _ Hr) in HPr. }
  destruct (db_tasks db !! id) as [r|] eqn:Hr.
  - destruct (P r) eqn:HPr.
    + f_equal. assert (tr_id r = id) as Hid by (by apply (ok_task _ Hok)). unfold put_task, task_ids.
      rewrite fmap_cons, fmap_nil. simpl. rewrite Hid. f_equal; [|set_solver]. f_equal.
      apply map_eq. intros i. rewrite lookup_fmap. destruct (decide (i = id)) as [->|Hne].
      * rewrite lookup_insert_eq, Hr. simpl. by rewrite HPr.
      * rewrite lookup_insert_ne by done. destruct (db_tasks db !! i) as [r'|] eqn:Hr'; [|done]. simpl.
        destruct (P r') eqn:HPr'; [|done]. apply HP in HPr'. rewrite (task_key _ Hok _ _ Hr') in HPr'. done.
    + apply Hsame. by intros r' [= <-].
  - by apply Hsame.
Qed.

Definition put_run (db : DB) (id : UUID) (r : RunRow) : DB :=
  mkDB (db_tasks db) (<[id := r]> (db_runs db)) (db_events db).

Lemma update_run_one env db P f id :
  env_ok env db → db_ok db → (∀ r, P r = true → rr_id r = id) →
  update_runs P f env db =
    match db_runs db !! id with
    | Some r =>
        if P r then
          if (rr_revision r <? MaxInt64)%Z then inr (mkOutcome 1%Z (put_run db id (f env r)) ∅ {[id]})
          else inl (sql_error "bigint out of range")
        else inr (mkOutcome 0%Z db ∅ ∅)
    | None => inr (mkOutcome 0%Z db ∅ ∅)
    end.
Proof.
  intros Henv Hok HP. unfold update_runs. rewrite (runs_where_one env db Henv Hok P id HP).
  assert (∀ i r, db_runs db !! i = Some r → i ≠ id → P r = false) as Hother.
  { intros i r Hr Hne. apply not_true_is_false. intros HPr. apply HP in HPr.
    by rewrite (run_row_key _ Hok _ _ Hr) in HPr. }
  assert ((∀ r, db_runs db !! id = Some r → P r = false) →
    mkDB (db_tasks db) ((λ r, if P r then f env r else r) <$> db_runs db) (db_events db) = db) as Hsame.
  { intros Hn. destruct db as [tasks runs evs]. cbn [db_runs] in *. f_equal.
    rewrite <-(map_fmap_id runs) at 2. apply map_fmap_ext. intros i r Hr.
    destruct (decide (i = id)) as [->|Hne]; [by rewrite (Hn _ Hr)|by rewrite (Hother _ _ Hr)]. }
  destruct (db_runs db !! id) as [row|] eqn:Hrow; cycle 1.
  { cbn [forallb length]. by rewrite Hsame. }
  destruct (P row) eqn:HPr; cycle 1.
  { cbn [forallb length]. rewrite Hsame; [done|]. by intros r [= <-]. }
  cbn [forallb]. rewrite andb_true_r. destruct (rr_revision row <? MaxInt64)%Z; [|done]. f_equal.
  unfold run_ids, put_run. cbn. rewrite (run_row_key _ Hok _ _ Hrow). f_equal; [|set_solver]. f_equal.
  apply map_eq. intros i. rewrite lookup_fmap. destruct (decide (i = id)) as [->|Hne].
  - rewrite lookup_insert_eq, Hrow. cbn. by rewrite HPr.
  - rewrite lookup_insert_ne by done. destruct (db_runs db !! i) as [r|] eqn:Hri; [|done]. cbn. by rewrite (Hother _ _ Hri).
Qed.

(** *** The updates of the store *)

Section Updates.
Context `{E : GoEnv} {J : Jsonb}.

(** The columns of an updated row. *)
Ltac row_update := intros env r [Hst Hat Hmax Htok Hkey Hl Hf Hfin Hblk] HP; split; [split; simpl; try done|done].

Lemma stmt_ok_fail_lapsed id text : stmt_ok (fail_lapsed id text).
Proof. apply stmt_ok_checked, stmt_ok_update. by row_update. Qed.

Lemma stmt_ok_extend_lease id token ms : stmt_ok (extend_lease id token ms).
Proof.
  apply stmt_ok_update. row_update; unfold owned_by in HP; reflect_bool.
  - intros _. split; [by apply Hl|done].
  - done.
Qed.

Lemma stmt_ok_transition id token status text output available :
  status ≠ StatusZero → status ≠ StatusRunning → status ≠ StatusBlocked →
  stmt_ok (transition_task id token status text output available).
Proof.
  intros Hz Hr Hb. apply stmt_ok_checked, stmt_ok_json. intros v. apply stmt_ok_update. row_update.
  destruct (is_final status); simpl; [done|]. split; [by intros [? ?]|done].
Qed.

(** The second statement of a retry, on a row that is not leased any more. *)
Lemma stmt_on_fail_exhausted id :
  stmt_on (λ db, ∀ r, db_tasks db !! id = Some r → tr_status r ≠ StatusRunning) (fail_exhausted id).
Proof.
  intros env db o Henv Hok Hr. apply update_kept; [done|done|]. intros i r Hi HP. reflect_bool.
  destruct (ok_task _ Hok _ _ Hi) as [<- [Hst Hat Hmax Htok Hkey Hl Hf Hfin Hblk]].
  split; [split; simpl; try done|done]. intros _. apply Hf, Hr. by rewrite <-HP.
Qed.

Lemma stmt_ok_cancel id reason : stmt_ok (cancel_task id reason).
Proof. apply stmt_ok_checked, stmt_ok_update. by row_update. Qed.

Lemma restarted_row_ok status available r :
  status = StatusPending ∨ status = StatusBlocked ∧ is_Some (tr_pipeline_run_id r) → row_ok r →
  row_ok (restarted_row status available r) ∧ same_columns r (restarted_row status available r).
Proof.
  intros Hs [Hst Hat Hmax Htok Hkey Hl Hf Hfin Hblk]. split; [split; simpl; try done|done].
  - by destruct Hs as [->|[-> _]].
  - lia.
  - by destruct Hs as [->|[-> _]].
  - split; [by intros [? ?]|by destruct Hs as [->|[-> _]]].
  - by destruct Hs as [->|[-> ?]].
Qed.

Lemma stmt_ok_restart id available : stmt_ok (restart_task id available).
Proof. apply stmt_ok_update. intros env r Hr _. apply restarted_row_ok; [by left|done]. Qed.

Lemma stmt_ok_restart_nodes run root nodes available : stmt_ok (restart_nodes run root nodes available).
Proof.
  apply stmt_ok_checked, stmt_ok_update. intros env r Hr HP. apply restarted_row_ok; [|done].
  unfold in_nodes in HP. reflect_bool. case_bool_decide; [by left|]. right. split; [done|]. by rewrite H.
Qed.

Lemma stmt_ok_release id input available : stmt_ok (release_task id input available).
Proof.
  apply stmt_ok_json. intros v. apply stmt_ok_not_null. intros x. apply stmt_ok_update.
  row_update; reflect_bool.
  - intros _. apply Hf. by rewrite H0.
  - rewrite Hfin, H0. done.
Qed.

(** *** Claims and locking reads *)

Lemma elem_of_candidates keys limit env db r :
  env_ok env db → db_ok db → r ∈ claim_candidates keys limit env db →
  db_tasks db !! tr_id r = Some r ∧ routed keys r = true ∧ due r (sql_now env) = true.
Proof.
  intros Henv Hok Hr. unfold claim_candidates in Hr. apply (subseteq_take (Z.to_nat limit)) in Hr.
  apply elem_of_sort_Slice, elem_of_tasks_where in Hr as [Hr HP]; [|done..].
  reflect_bool. done.
Qed.

Lemma due_attempts r now : due r now = true → (tr_attempt r < tr_max_attempts r)%Z ∧ is_final (tr_status r) = false.
Proof.
  unfold due. intros H. reflect_bool. split; [done|]. by destruct (tr_status r).
Qed.

Lemma claimed_row_ok owner ms env db r :
  env_ok env db → row_ok r → due r (sql_now env) = true →
  row_ok (claimed_row owner ms env r) ∧ same_columns r (claimed_row owner ms env r).
Proof.
  intros Henv [Hst Hat Hmax Htok Hkey Hl Hf Hfin Hblk] [Hd1 Hd2]%due_attempts.
  split; [split; simpl; try done|done].
  - lia.
  - intros [= Heq]. by eapply env_token.
  - rewrite Hfin, Hd2. done.
Qed.

Lemma stmt_ok_claim keys limit owner ms : stmt_ok (claim_tasks keys limit owner ms).
Proof.
  apply stmt_ok_checked. intros env db o Henv Hok _. apply update_kept; [done|done|].
  intros id r Hr HP. reflect_bool. apply elem_of_task_ids in HP as (r' & Hr' & Hid).
  apply elem_of_candidates in Hr' as (Hr' & _ & Hd); [|done..].
  destruct (ok_task _ Hok _ _ Hr) as [<- Hrok]. rewrite Hid, Hr in Hr'. simplify_eq. by eapply claimed_row_ok.
Qed.

Lemma stmt_ok_lapsed : stmt_ok select_lapsed.
Proof. intros env db o _ Hok _ Ho. unfold select_lapsed in Ho. injection Ho as <-. by split. Qed.

Lemma stmt_ok_select_nodes run nodes : stmt_ok (select_nodes run nodes).
Proof. apply stmt_ok_checked. intros env db o _ Hok _ [= <-]. by split. Qed.

Lemma stmt_ok_finished_runs before limit : stmt_ok (select_finished_runs before limit).
Proof. intros env db o _ Hok _ Ho. unfold select_finished_runs in Ho. injection Ho as <-. by split. Qed.
End Updates.

(** *** Insertions *)

Section Inserts.
Context `{E : GoEnv} {J : Jsonb}.

Lemma same_key_sym a b : same_key a b = same_key b a.
Proof.
  unfold same_key. destruct (tr_idempotency_key a), (tr_idempotency_key b); try done.
  by rewrite (bool_decide_ext (_ = _) (_ = _) (symmetry_iff (=) _ _)),
    (bool_decide_ext (tr_task_name a = _) (_ = _) (symmetry_iff (=) _ _)).
Qed.

Lemma same_node_sym a b : same_node a b = same_node b a.
Proof.
  unfold same_node. destruct (tr_pipeline_run_id a), (tr_pipeline_run_id b); try done.
  by rewrite (bool_decide_ext (_ = _) (_ = _) (symmetry_iff (=) _ _)),
    (bool_decide_ext (tr_node_key a = _) (_ = _) (symmetry_iff (=) _ _)).
Qed.

Lemma run_conflict_sym a b : run_conflict a b = run_conflict b a.
Proof.
  unfold run_conflict. rewrite (bool_decide_ext (rr_id b = _) (_ = _) (symmetry_iff (=) _ _)). f_equal.
  destruct (rr_idempotency_key a), (rr_idempotency_key b); try done.
  by rewrite (bool_decide_ext (_ = _) (_ = _) (symmetry_iff (=) _ _)),
    (bool_decide_ext (rr_pipeline_name a = _) (_ = _) (symmetry_iff (=) _ _)).
Qed.

(** The row of a new execution. *)
Lemma db_ok_insert_task db row :
  db_ok db → row_ok row → (∀ id r, db_tasks db !! id = Some r → task_conflict row r = false) →
  (∀ run, tr_pipeline_run_id row = Some run → is_Some (db_runs db !! run)) →
  db_ok (put_task db (tr_id row) row).
Proof.
  intros [H1 H2 H3 H4 H5 H6] Hrow Hc Hrun.
  assert (∀ i r, db_tasks db !! i = Some r → same_key row r || same_node row r = false) as Hc'.
  { intros i r Hr. apply Hc in Hr. unfold task_conflict in Hr. by destruct (bool_decide _), (same_key _ _), (same_node _ _). }
  split; cbn [put_task db_tasks db_runs db_events]; try done.
  - intros id r [[<- <-]|[_ Hr]]%lookup_insert_Some; [done|by apply H1].
  - intros id ev Hev. destruct (H3 _ _ Hev) as [? Hs]. split; [done|]. apply lookup_insert_is_Some'. by right.
  - intros i j a b [[<- <-]|[_ Ha]]%lookup_insert_Some [[<- <-]|[_ Hb]]%lookup_insert_Some Hab; [done|..].
    + by rewrite (Hc' _ _ Hb) in Hab.
    + rewrite same_key_sym, same_node_sym in Hab. by rewrite (Hc' _ _ Ha) in Hab.
    + by eapply H4.
  - intros id r run [[<- <-]|[_ Hr]]%lookup_insert_Some; [by apply Hrun|by eapply H6].
Qed.

Definition new_row (id : UUID) (name : string) (version : Z) (input : string) (maxAttempts : Z)
    (availableAt : Time) (idem : option string) (runID : option UUID) (nodeKey : string) (now : Time) : TaskRow :=
  mkTaskRow id name version input None StatusPending 0 maxAttempts (micro availableAt) EmptyString None None
    EmptyString idem runID nodeKey (micro now) None None.

Lemma stmt_ok_insert_task id name version input maxAttempts availableAt idem runID nodeKey now :
  (0 < maxAttempts)%Z → idem ≠ Some EmptyString →
  stmt_ok (insert_task id name version input StatusPending maxAttempts availableAt idem runID nodeKey now).
Proof.
  intros Hmax Hidem. unfold insert_task. destruct (_ && text_arg nodeKey) eqn:Hargs; simpl; [|by intros env db o _ _ _ [=]].
  reflect_bool. apply stmt_ok_json. intros v. apply stmt_ok_not_null. intros value env db o Henv Hok _.
  set (row := mkTaskRow _ _ _ _ _ _ _ _ _ _ _ _ _ _ _ _ _ _ _).
  destruct (existsb _ _) eqn:Hc; [by intros [= <-]|].
  destruct (match runID with Some _ => _ | None => true end) eqn:Hrun; [|done]. intros [= <-].
  pose proof (proj1 (existsb_tasks db _) Hc) as Hc'. split; cbn [out_db out_tasks out_runs]; [..|done].
  - apply (db_ok_insert_task db row); [done| |done|].
    + unfold int_arg in *. split; simpl; try done; try (split; lia); try lia.
    + intros run [= ->]. by reflect_bool.
  - intros i Hi%not_elem_of_singleton. cbn [db_tasks]. by rewrite lookup_insert_ne.
Qed.

Lemma stmt_ok_insert_event ev : stmt_ok (insert_event ev).
Proof.
  apply stmt_ok_checked. intros env db o Henv Hok _. cbn [ev_ID ev_ExecutionID].
  case_bool_decide as Hd; [done|]. case_bool_decide as Hr; [|done]. intros [= <-].
  split; cbn [out_db]; [|done|done]. destruct Hok as [H1 H2 H3 H4 H5 H6].
  split; cbn [db_tasks db_runs db_events]; try done.
  intros id ev' [[<- <-]|[_ Hev]]%lookup_insert_Some; [done|by apply H3].
Qed.

Lemma stmt_ok_insert_run id name version input idem now :
  idem ≠ Some EmptyString → stmt_ok (insert_run id name version input RunPending idem now).
Proof.
  intros Hidem. apply stmt_ok_checked, stmt_ok_json. intros v. apply stmt_ok_not_null.
  intros value env db o Henv Hok _. cbv zeta. set (row := mkRunRow _ _ _ _ _ _ _ _ _ _ _).
  destruct (existsb (run_conflict row) (run_values db)) eqn:Hc; [by intros [= <-]|]. intros [= <-]. pose proof (proj1 (existsb_runs db _) Hc) as Hc'.
  split; cbn [out_db out_tasks out_runs]; [|done|].
  - destruct Hok as [H1 H2 H3 H4 H5 H6]. split; cbn [db_tasks db_runs db_events]; try done.
    + intros i r [[<- <-]|[_ Hr]]%lookup_insert_Some; [|by apply H2]. split; [done|].
      split; simpl; [unfold MaxInt64; lia|done|]. by split; [intros [? ?]|].
    + intros i j a b [[<- <-]|[_ Ha]]%lookup_insert_Some [[<- <-]|[_ Hb]]%lookup_insert_Some Hab; [done|..].
      * by rewrite (Hc' _ _ Hb) in Hab.
      * rewrite run_conflict_sym in Hab. by rewrite (Hc' _ _ Ha) in Hab.
      * by eapply H5.
    + intros i r run Hr Hrun. apply lookup_insert_is_Some'. right. by eapply H6.
  - intros i Hi%not_elem_of_singleton. cbn [db_runs]. by rewrite lookup_insert_ne.
Qed.

(** *** Runs *)

Lemma stmt_ok_update_runs P f :
  (∀ env r, run_row_ok r → P r = true → (rr_revision r < MaxInt64)%Z →
     run_row_ok (f env r) ∧ same_run_columns r (f env r)) →
  stmt_ok (update_runs P f).
Proof.
  intros Hf env db o Henv Hok _ Ho. unfold update_runs in Ho.
  destruct (forallb _ _) eqn:Hb; [|done]. injection Ho as <-. rewrite forallb_forall in Hb.
  split; cbn [out_db out_tasks out_runs]; [|done|].
  - apply db_ok_runs; [done|]. intros id r Hr. destruct (ok_run _ Hok _ _ Hr) as [Hid Hrok].
    destruct (P r) eqn:HP; [|done]. apply Hf; [done|done|]. apply Z.ltb_lt, Hb, list_elem_of_In.
    apply elem_of_runs_where; [done..|]. by rewrite Hid.
  - intros id Hid. cbn [db_runs]. rewrite lookup_fmap. destruct (db_runs db !! id) as [r|] eqn:Hr; [|done].
    simpl. destruct (P r) eqn:HP; [|done]. destruct Hid. apply elem_of_where_run_ids; [done..|]. eauto.
Qed.

Lemma stmt_ok_set_run_status id revision status text : stmt_ok (set_run_status id revision status text).
Proof.
  apply stmt_ok_checked, stmt_ok_update_runs. intros env r [Hrev Hkey Hfin] _ Hlt.
  split; [split; simpl; [lia|done|]|done]. destruct (is_run_final status); [done|]. by split; [intros [? ?]|].
Qed.

Lemma stmt_ok_reopen id : stmt_ok (reopen_run id).
Proof.
  apply stmt_ok_update_runs. intros env r [Hrev Hkey Hfin] _ Hlt.
  split; [split; simpl; [lia|done|]|done]. by split; [intros [? ?]|].
Qed.

(** *** Deletions *)

Lemma delete_kept P env db o :
  env_ok env db → db_ok db → delete_tasks P env db = inr o → kept db o.
Proof.
  intros Henv Hok Ho. unfold delete_tasks in Ho. injection Ho as <-. split; cbn [out_db out_tasks out_runs]; [..|done].
  - destruct Hok as [H1 H2 H3 H4 H5 H6]. split; cbn [db_tasks db_runs db_events]; try done.
    + intros id r [Hr _]%map_lookup_filter_Some. by apply H1.
    + intros id ev [Hev Hn]%map_lookup_filter_Some. destruct (H3 _ _ Hev) as [? [r Hr]]. split; [done|].
      exists r. by apply map_lookup_filter_Some.
    + intros i j a b [Ha _]%map_lookup_filter_Some [Hb _]%map_lookup_filter_Some. by apply H4.
    + intros id r run [Hr _]%map_lookup_filter_Some. by eapply H6.
  - intros id Hid. cbn [db_tasks]. rewrite map_lookup_filter.
    destruct (db_tasks db !! id) as [r|]; [|done]. simpl. by rewrite option_guard_True.
Qed.

Lemma stmt_ok_delete_run_tasks ids : stmt_ok (delete_run_tasks ids).
Proof. intros env db o Henv Hok _. by apply delete_kept. Qed.

Lemma stmt_ok_delete_finished before limit : stmt_ok (delete_finished_tasks before limit).
Proof. intros env db o Henv Hok _. by apply delete_kept. Qed.

Lemma stmt_ok_delete_runs ids : stmt_ok (delete_runs ids).
Proof.
  intros env db o Henv Hok _ Ho. unfold delete_runs in Ho. destruct (existsb _ _) eqn:Hb; [done|].
  injection Ho as <-. pose proof (proj1 (existsb_tasks db _) Hb) as Hc. split; cbn [out_db out_tasks out_runs]; [|done|].
  - destruct Hok as [H1 H2 H3 H4 H5 H6]. split; cbn [db_tasks db_runs db_events]; try done.
    + intros id r [Hr _]%map_lookup_filter_Some. by apply H2.
    + intros i j a b [Ha _]%map_lookup_filter_Some [Hb' _]%map_lookup_filter_Some. by apply H5.
    + intros id r run Hr Hrun. destruct (H6 _ _ _ Hr Hrun) as [x Hx]. exists x.
      apply map_lookup_filter_Some. split; [done|]. simpl. intros Hin. pose proof (Hc _ _ Hr) as Hn.
      cbv beta in Hn. rewrite Hrun in Hn. by apply bool_decide_eq_false in Hn.
  - intros id Hid. cbn [db_runs]. rewrite map_lookup_filter.
    destruct (db_runs db !! id) as [r|]; [|done]. simpl. by rewrite option_guard_True.
Qed.
End Inserts.
