(* ===== verification/PgRows.v ===== *)
(** * The rows and the events of a transaction

    [insertEvent] and its loop: the rows of the transaction stay as they are, and the events it will publish
    say what was done.  A transaction that changes several rows holds a set of executions and of runs and has
    changed each by a function of its row; at the commit these are the changes of the committed tables,
    whatever else happened to them. *)

From S2P Require Import Prelude GoLib GoText Model Memory PgTables Postgres PgServer PgTx PgStmts.

(** Two stages of a transaction between which only events were added. *)
Record same_rows (tx tx' : Tx) : Prop := {
  sr_tasks : tx_tasks tx' = tx_tasks tx;
  sr_runs : tx_runs tx' = tx_runs tx;
  sr_task_locks : tx_task_locks tx' = tx_task_locks tx;
  sr_run_locks : tx_run_locks tx' = tx_run_locks tx;
  sr_now : tx_now tx' = tx_now tx;
  sr_events : ∀ id, is_Some (tx_events tx !! id) → is_Some (tx_events tx' !! id);
}.

Lemma same_rows_refl tx : same_rows tx tx.
Proof. done. Qed.

Lemma same_rows_trans a b c : same_rows a b → same_rows b c → same_rows a c.
Proof. intros [] []. split; [congruence..|]. eauto. Qed.

Lemma same_rows_view tx tx' db :
  same_rows tx tx' → db_tasks (view tx' db) = db_tasks (view tx db) ∧ db_runs (view tx' db) = db_runs (view tx db).
Proof. intros []. cbn [view db_tasks db_runs]. by rewrite sr_tasks0, sr_runs0. Qed.

Lemma same_rows_framed tx tx' : same_rows tx tx' → framed tx → framed tx'.
Proof. intros [E1 E2 E3 E4 _ _] [H1 H2]. split; [by rewrite E1, E3|by rewrite E2, E4]. Qed.

Lemma same_rows_holds tx tx' db db' : same_rows tx tx' → holds tx' db db' → holds tx db db'.
Proof. intros [E1 E2 E3 E4 _ E5] [H1 H2 H3]. split; [by rewrite <-E3|by rewrite <-E4|auto]. Qed.

Lemma holds_trans tx a b c : holds tx a b → holds tx b c → holds tx a c.
Proof.
  intros [H1 H2 H3] [H4 H5 H6]. split; intros id Hid;
    [rewrite H4 by done|rewrite H5 by done|rewrite H6 by done]; auto.
Qed.

Lemma diff_same {A} `{EqDecision A} (m : gmap UUID A) : diff m m = ∅.
Proof. apply map_eq. intros i. rewrite lookup_diff, lookup_empty. by rewrite decide_True. Qed.

Lemma diff_insert {A} `{EqDecision A} (m : gmap UUID A) i x :
  m !! i = None → diff m (<[i := x]> m) = {[i := Some x]}.
Proof.
  intros Hi. apply map_eq. intros j. rewrite lookup_diff. destruct (decide (j = i)) as [->|Hne].
  - rewrite lookup_insert_eq, lookup_singleton_eq, Hi. by rewrite decide_False.
  - rewrite lookup_insert_ne, lookup_singleton_ne by done. by rewrite decide_True.
Qed.

Lemma new_events_insert db evs log u ev :
  new_events db evs log → evs !! u = None → db_events db !! u = None →
  new_events db (<[u := ev]> evs) (log ++ [entry_of ev]).
Proof.
  intros [Hd Hp] He Hu. split.
  - apply map_disjoint_insert_l. done.
  - rewrite map_to_list_insert by done. rewrite !fmap_cons. simpl. rewrite Hp. apply Permutation_cons_append.
Qed.

Section Events.
Context `{E : GoEnv} {W : Type} `{!PgClient W} {SV : PgServer W} {HL : PgLaws (W := W)}.

Abbreviation st := (pg_state (W := W)).
Abbreviation DBof w := (pg_db (pg_state (W := W) w)).
Abbreviation rely := (pg_rely (W := W)).
Abbreviation transport := (pg_transport (W := W)).
Abbreviation moved := (PgTx.moved (W := W)).
Abbreviation open := (PgTx.open (W := W)).

Lemma moved_trans tx tx' w w1 w2 : same_rows tx tx' → moved tx w w1 → moved tx' w1 w2 → moved tx w w2.
Proof.
  intros Hs [H1 H2] [H3 H4]. split; [by eapply pg_rely_then|].
  eapply holds_trans; [done|by eapply same_rows_holds].
Qed.

Lemma moved_refl tx w : moved tx w w.
Proof. split; [apply pg_rely_same|apply holds_refl]. Qed.

(** The execution of an event is a row that the transaction holds. *)
Definition loggable (tx : Tx) (w : W) (item : Execution) : Prop :=
  e_ID item ∈ tx_task_locks tx ∧ is_Some (db_tasks (view tx (DBof w)) !! e_ID item) ∧
  (0 ≤ e_Attempt item < 2 ^ 31)%Z.

Lemma loggable_moved tx tx' w w' item :
  framed tx → same_rows tx tx' → moved tx w w' → loggable tx w item → loggable tx' w' item.
Proof.
  intros Hf Hs [_ Hh] (Hl & Hr & Ha). pose proof Hs as [_ _ E3 _ _ _]. split_and!; [by rewrite E3| |lia..].
  destruct (same_rows_view _ _ (DBof w') Hs) as [-> _]. rewrite (view_tasks tx (DBof w)) by done.
  by rewrite decide_True.
Qed.

Lemma wp_insertEvent item event text tx w log (Q : error + unit → W → Prop) :
  open tx w → recorded tx (DBof w) log → loggable tx w item → text_arg text = true →
  (∀ e w', db_ok (DBof w') → rely (DBof w) (DBof w') → transport e → Q (inl e) w') →
  (∀ tx' w', open tx' w' → same_rows tx tx' → moved tx w w' →
     recorded tx' (DBof w') (log ++ [(e_ID item, event, e_Attempt item, text)]) → Q (inr tt) w') →
  wp (insertEvent item event text) Q w.
Proof.
  intros Ho Hrec Hlog Htext HQ1 HQ2. unfold insertEvent. apply wp_bind, wp_process_UUID.
  intros u w1 _ Hst1 Hres1. apply wp_bind, wp_process_Now. intros now w2 _ Hst2.
  assert (reserved u w2) as Hres by (unfold reserved; by rewrite Hst2).
  assert (DBof w2 = DBof w) as Hdb by (by rewrite Hst2, Hst1).
  assert (open tx w2) as Ho2 by (destruct Ho; split; rewrite ?Hdb, ?Hst2, ?Hst1; done).
  apply (wp_tx_query _ tx); [done|apply stmt_ok_insert_event|..].
  { intros e w3 Hok Hr Ht. apply HQ1; [done|by rewrite <-Hdb|done]. }
  intros env w3 Henv _ Hm Hok Hv Hu. destruct (Hu u Hres) as [(_ & _ & Hu1) (_ & _ & Hu2)].
  assert (moved tx w w3) as Hm3 by (unfold PgTx.moved in *; by rewrite <-Hdb).
  destruct (loggable_moved tx tx w w3 item) as (_ & Hrow & Hatt); [by destruct Ho|done..|].
  assert (int_arg (e_Attempt item) = true) as Hint by (unfold int_arg; lia).
  unfold insert_event, checked. cbn [ev_Attempt ev_Error]. rewrite Hint, Htext. cbn [andb ev_ID ev_ExecutionID].
  rewrite bool_decide_false by (rewrite Hu2; by intros [? [=]]). rewrite bool_decide_true by done.
  set (ev := mkEvent _ _ _ _ _ _). set (o := mkOutcome _ _ _ _). intros Hopen.
  assert (tx_write tx (view tx (DBof w3)) o = mkTx (tx_tasks tx) (tx_runs tx) (<[u := Some ev]> (tx_events tx))
            (tx_task_locks tx) (tx_run_locks tx) (tx_now tx)) as Heq.
  { unfold tx_write. subst o. cbn [out_db out_tasks out_runs db_tasks db_runs db_events].
    rewrite !diff_same, diff_insert by done. f_equal; [apply (left_id_L ∅ _)|apply (left_id_L ∅ _)| |set_solver|set_solver].
    by rewrite insert_union_singleton_l. }
  rewrite Heq in Hopen. apply (HQ2 _ _ Hopen); [|done|].
  - split; try done. cbn [tx_events]. intros i Hi. apply lookup_insert_is_Some'. by right.
  - destruct (recorded_holds tx (DBof w) (DBof w3) log) as (evs & Hevs & Hnew); [by destruct Hm3|done|].
    exists (<[u := ev]> evs). cbn [tx_events]. rewrite Hevs, fmap_insert. split; [done|].
    apply (new_events_insert _ _ _ u ev); [done| |done].
    cbn [view db_events] in Hu2. rewrite lookup_overlay, Hevs, lookup_fmap in Hu2. by destruct (evs !! u).
Qed.

Lemma wp_insertEvents items event tx w log (Q : error + unit → W → Prop) :
  open tx w → recorded tx (DBof w) log → Forall (loggable tx w) items →
  (∀ e w', db_ok (DBof w') → rely (DBof w) (DBof w') → transport e → Q (inl e) w') →
  (∀ tx' w', open tx' w' → same_rows tx tx' → moved tx w w' →
     recorded tx' (DBof w') (log ++ ((λ item, (e_ID item, event, e_Attempt item, EmptyString)) <$> items)) →
     Q (inr tt) w') →
  wp (forM_ items (λ item, insertEvent item event EmptyString)) Q w.
Proof.
  revert tx w log.
  induction items as [|item items IH]; intros tx w log Ho Hrec Hall HQ1 HQ2; simpl.
  { apply wp_ret. apply (HQ2 tx); [done|done|apply moved_refl|]. by rewrite app_nil_r. }
  inversion_clear Hall as [|?? Hitem Hitems]. apply wp_bind.
  apply (wp_insertEvent _ _ _ tx _ log); [done..|].
  intros tx1 w1 Ho1 Hs1 Hm1 Hrec1. apply (IH tx1 _ _ Ho1 Hrec1).
  - eapply Forall_impl; [exact Hitems|]. intros x. apply loggable_moved; [by destruct Ho|done..].
  - intros e w2 Hok Hr Ht. apply HQ1; [done|eapply pg_rely_then; [apply Hm1|done]|done].
  - intros tx2 w2 Ho2 Hs2 Hm2 Hrec2. apply (HQ2 tx2); [done|by eapply same_rows_trans|by eapply moved_trans|].
    by rewrite <-app_assoc in Hrec2.
Qed.
End Events.

(** ** Several rows *)

Definition map_tasks (ids : gset UUID) (f : TaskRow → TaskRow) (m : gmap UUID TaskRow) : gmap UUID TaskRow :=
  (λ r, if bool_decide (tr_id r ∈ ids) then f r else r) <$> m.
Definition map_runs (ids : gset UUID) (g : RunRow → RunRow) (m : gmap UUID RunRow) : gmap UUID RunRow :=
  (λ r, if bool_decide (rr_id r ∈ ids) then g r else r) <$> m.

Lemma map_runs_none g m : map_runs ∅ g m = m.
Proof.
  unfold map_runs. rewrite <-(map_fmap_id m) at 2. apply map_fmap_ext. intros i r _.
  by rewrite bool_decide_false by set_solver.
Qed.

Section Rows.
Context `{E : GoEnv} {J : Jsonb} {W : Type} `{!PgClient W} {SV : PgServer W} {HL : PgLaws (W := W)}.

Abbreviation DBof w := (pg_db (pg_state (W := W) w)).
Abbreviation rely := (pg_rely (W := W)).
Abbreviation transport := (pg_transport (W := W)).
Abbreviation moved := (PgTx.moved (W := W)).
Abbreviation open := (PgTx.open (W := W)).
Abbreviation settled := (PgTx.settled (W := W)).

(** The transaction has changed the executions [ids] by [f] and the runs [rids] by [g], and will publish
    [log]. *)
Record changes (tx : Tx) (w : W) (ids : gset UUID) (f : TaskRow → TaskRow) (rids : gset UUID)
    (g : RunRow → RunRow) (log : list Entry) : Prop := {
  cs_open : open tx w;
  cs_tasks : tx_task_locks tx = ids;
  cs_runs : tx_run_locks tx = rids;
  cs_task : ∀ id, id ∈ ids → ∃ r, db_tasks (DBof w) !! id = Some r ∧ db_tasks (view tx (DBof w)) !! id = Some (f r);
  cs_run : ∀ id, id ∈ rids → ∃ r, db_runs (DBof w) !! id = Some r ∧ db_runs (view tx (DBof w)) !! id = Some (g r);
  cs_log : recorded tx (DBof w) log;
}.

Lemma changes_view tx w w' ids f rids g log :
  changes tx w ids f rids g log → moved tx w w' →
  (∀ id, id ∈ ids → ∃ r, db_tasks (DBof w) !! id = Some r ∧ db_tasks (DBof w') !! id = Some r ∧
     db_tasks (view tx (DBof w')) !! id = Some (f r)) ∧
  (∀ id, id ∈ rids → ∃ r, db_runs (DBof w) !! id = Some r ∧ db_runs (DBof w') !! id = Some r ∧
     db_runs (view tx (DBof w')) !! id = Some (g r)).
Proof.
  intros [Ho Hl Hlr Ht Hr _] [_ Hh]. split; intros id Hid.
  - destruct (Ht _ Hid) as (r & Hr1 & Hr2). exists r. split; [done|]. subst ids.
    rewrite (holds_tasks _ _ _ Hh), (view_tasks tx (DBof w)) by (done || by destruct Ho). by rewrite decide_True.
  - destruct (Hr _ Hid) as (r & Hr1 & Hr2). exists r. split; [done|]. subst rids.
    rewrite (holds_runs _ _ _ Hh), (view_runs tx (DBof w)) by (done || by destruct Ho). by rewrite decide_True.
Qed.

Lemma changes_moved tx tx' w w' ids f rids g log log' :
  changes tx w ids f rids g log → open tx' w' → same_rows tx tx' → moved tx w w' →
  recorded tx' (DBof w') log' → changes tx' w' ids f rids g log'.
Proof.
  intros Hc Ho' Hs Hm Hrec. destruct (changes_view _ _ _ _ _ _ _ _ Hc Hm) as [Ht Hr].
  destruct (same_rows_view _ _ (DBof w') Hs) as [Hv1 Hv2]. destruct Hc as [_ Hl Hlr _ _ _].
  split; [done|by rewrite (sr_task_locks _ _ Hs)|by rewrite (sr_run_locks _ _ Hs)|..|done].
  - intros id Hid. destruct (Ht _ Hid) as (r & _ & H1 & H2). exists r. by rewrite Hv1.
  - intros id Hid. destruct (Hr _ Hid) as (r & _ & H1 & H2). exists r. by rewrite Hv2.
Qed.

Lemma changes_effect tx w ids f rids g log db :
  changes tx w ids f rids g log → db_ok db → holds tx (DBof w) db →
  (∀ id, id ∈ ids → db_tasks db !! id = db_tasks (DBof w) !! id) ∧
  (∀ id, id ∈ rids → db_runs db !! id = db_runs (DBof w) !! id) ∧
  effect db (map_tasks ids f (db_tasks db)) (map_runs rids g (db_runs db)) log (view tx db).
Proof.
  intros [Ho Hl Hlr Ht Hr Hlog] Hok Hh. pose proof (open_framed _ _ Ho) as Hf.
  assert (∀ id, id ∈ ids → db_tasks db !! id = db_tasks (DBof w) !! id) as Hsame.
  { intros id Hid. subst ids. by apply (holds_tasks _ _ _ Hh). }
  assert (∀ id, id ∈ rids → db_runs db !! id = db_runs (DBof w) !! id) as Hsame'.
  { intros id Hid. subst rids. by apply (holds_runs _ _ _ Hh). }
  split; [done|]. split; [done|].
  destruct (recorded_effect tx db log) as [_ _ Hev]; [by eapply recorded_holds|]. split; [..|done].
  - apply map_eq. intros i. unfold map_tasks. rewrite (view_tasks tx (DBof w)), lookup_fmap, Hl by done.
    case_decide as Hi.
    + destruct (Ht _ Hi) as (r & Hr1 & ->). rewrite Hsame, Hr1 by done. simpl.
      rewrite bool_decide_true; [done|].
      destruct (ok_task _ Hok i r) as [-> _]; [|done]. by rewrite Hsame, Hr1 by done.
    + destruct (db_tasks db !! i) as [r|] eqn:Hri; [|done]. simpl.
      destruct (ok_task _ Hok _ _ Hri) as [-> _]. by rewrite bool_decide_false.
  - apply map_eq. intros i. unfold map_runs. rewrite (view_runs tx (DBof w)), lookup_fmap, Hlr by done.
    case_decide as Hi.
    + destruct (Hr _ Hi) as (r & Hr1 & ->). rewrite Hsame', Hr1 by done. simpl.
      rewrite bool_decide_true; [done|].
      destruct (ok_run _ Hok i r) as [-> _]; [|done]. by rewrite Hsame', Hr1 by done.
    + destruct (db_runs db !! i) as [r|] eqn:Hri; [|done]. simpl.
      destruct (ok_run _ Hok _ _ Hri) as [-> _]. by rewrite bool_decide_false.
Qed.

(** The events of the changed executions, one each. *)
Lemma wp_changes_events items event tx w ids f rids g log (Q : error + unit → W → Prop) :
  changes tx w ids f rids g log →
  Forall (λ item, e_ID item ∈ ids ∧ (0 ≤ e_Attempt item < 2 ^ 31)%Z) items →
  (∀ e w', db_ok (DBof w') → rely (DBof w) (DBof w') → transport e → Q (inl e) w') →
  (∀ tx' w', moved tx w w' → tx_now tx' = tx_now tx →
     changes tx' w' ids f rids g
       (log ++ ((λ item, (e_ID item, event, e_Attempt item, EmptyString)) <$> items)) → Q (inr tt) w') →
  wp (forM_ items (λ item, insertEvent item event EmptyString)) Q w.
Proof.
  intros Hc Hitems HQ1 HQ2. pose proof Hc as [Ho Hl _ Ht _ Hlog].
  eapply (wp_insertEvents _ _ tx); [done|done| |done|].
  - eapply Forall_impl; [exact Hitems|]. intros item [Hid Ha]. unfold loggable. rewrite Hl.
    destruct (Ht _ Hid) as (r & _ & ->). split_and!; [done|by eexists|lia..].
  - intros tx' w' Ho' Hs Hm Hrec. apply (HQ2 tx'); [done|by destruct Hs|]. by eapply changes_moved.
Qed.

(** The commit of the changes. *)
Lemma wp_changes_commit {A} tx w ids f rids g log db (step : DB → error + A → DB → Prop) (x : A) :
  changes tx w ids f rids g log → rely db (DBof w) →
  (∀ db' db2, rely (DBof w) db' → db_ok db' →
     (∀ id, id ∈ ids → db_tasks db' !! id = db_tasks (DBof w) !! id) →
     (∀ id, id ∈ rids → db_runs db' !! id = db_runs (DBof w) !! id) →
     effect db' (map_tasks ids f (db_tasks db')) (map_runs rids g (db_runs db')) log db2 →
     step db' (inr x) db2) →
  wp (_ ← tx_Commit; mret x) (settled step db) w.
Proof.
  intros Hc Hr Hstep. eapply (wp_commit_settled tx); [by destruct Hc|done|].
  intros db' Hr' Hh Hok _. destruct (changes_effect _ _ _ _ _ _ _ _ Hc Hok Hh) as (H1 & H2 & H3). by eapply Hstep.
Qed.

(** An UPDATE as the first statement. *)
Lemma changes_update P f env now w o g :
  env_ok env (DBof w) → db_ok (DBof w) → update_tasks P f env (DBof w) = inr o →
  open (tx_write (empty_tx now) (DBof w) o) w →
  changes (tx_write (empty_tx now) (DBof w) o) w (task_ids (tasks_where env P (DBof w))) (f env) ∅ g [].
Proof.
  intros Henv Hok Ho Hopen. unfold update_tasks in Ho. injection Ho as <-.
  split; [done|cbn; set_solver|cbn; set_solver| |set_solver|].
  - intros id (r & Hr & HP)%elem_of_where_ids; [|done..]. exists r. split; [done|].
    rewrite <-(view_empty now (DBof w)) at 1. rewrite view_write. cbn [out_db db_tasks].
    rewrite lookup_fmap, Hr. simpl. by rewrite HP.
  - exists ∅. split; [|split; [apply map_disjoint_empty_l|done]]. cbn. rewrite diff_same, fmap_empty.
    apply (left_id_L ∅ _).
Qed.

(** A locking read as the first statement. *)
Lemma changes_locked {A} rows now w (x : A) g :
  (∀ row, row ∈ rows → db_tasks (DBof w) !! tr_id row = Some row) →
  open (tx_write (empty_tx now) (DBof w) (mkOutcome x (DBof w) (task_ids rows) ∅)) w →
  changes (tx_write (empty_tx now) (DBof w) (mkOutcome x (DBof w) (task_ids rows) ∅)) w (task_ids rows) (λ r, r) ∅ g [].
Proof.
  intros Hrows Hopen. split; [done|cbn; set_solver|cbn; set_solver| |set_solver|].
  - intros id (row & Hrow & <-)%elem_of_task_ids. exists row. split; [by apply Hrows|].
    rewrite <-(view_empty now (DBof w)) at 1. rewrite view_write. by apply Hrows.
  - exists ∅. split; [|split; [apply map_disjoint_empty_l|done]]. cbn. rewrite diff_same, fmap_empty.
    apply (left_id_L ∅ _).
Qed.

(** A further statement on one of the rows. *)
Lemma changes_write {A} tx w w' ids f f' rids g log id r (x : A) (o : Outcome A) :
  changes tx w ids f rids g log → moved tx w w' → id ∈ ids → db_tasks (DBof w) !! id = Some r →
  (∀ i r', i ≠ id → db_tasks (DBof w) !! i = Some r' → f' r' = f r') →
  o = mkOutcome x (put_task (view tx (DBof w')) id (f' r)) {[id]} ∅ →
  open (tx_write tx (view tx (DBof w')) o) w' →
  changes (tx_write tx (view tx (DBof w')) o) w' ids f' rids g log.
Proof.
  intros Hc Hm Hid Hr Hf -> Hopen. destruct (changes_view _ _ _ _ _ _ _ _ Hc Hm) as [Ht Hrr].
  destruct Hc as [_ Hl Hlr _ _ Hlog]. split; [done|..].
  - cbn [tx_write tx_task_locks out_tasks]. rewrite Hl. set_solver.
  - cbn [tx_write tx_run_locks out_runs]. rewrite Hlr. set_solver.
  - intros i Hi. destruct (Ht _ Hi) as (ri & H1 & H2 & H3). exists ri. split; [done|]. rewrite view_write.
    cbn [out_db put_task db_tasks]. destruct (decide (i = id)) as [->|Hne].
    + rewrite lookup_insert_eq. congruence.
    + rewrite lookup_insert_ne by done. by rewrite (Hf i).
  - intros i Hi. destruct (Hrr _ Hi) as (ri & H1 & H2 & H3). exists ri. split; [done|]. by rewrite view_write.
  - destruct (recorded_holds _ _ _ _ (proj2 Hm) Hlog) as (evs & He & Hn). exists evs. split; [|done].
    cbn [tx_write tx_events out_db put_task db_events]. by rewrite diff_same, (left_id_L ∅ _).
Qed.

(** The event of one of the rows. *)
Lemma wp_changes_event item event text tx w ids f rids g log (Q : error + unit → W → Prop) :
  changes tx w ids f rids g log → e_ID item ∈ ids → (0 ≤ e_Attempt item < 2 ^ 31)%Z → text_arg text = true →
  (∀ e w', db_ok (DBof w') → rely (DBof w) (DBof w') → transport e → Q (inl e) w') →
  (∀ tx' w', moved tx w w' → tx_now tx' = tx_now tx →
     changes tx' w' ids f rids g (log ++ [(e_ID item, event, e_Attempt item, text)]) → Q (inr tt) w') →
  wp (insertEvent item event text) Q w.
Proof.
  intros Hc Hid Ha Htext HQ1 HQ2. pose proof Hc as [Ho Hl _ Ht _ Hlog].
  eapply (wp_insertEvent _ _ _ tx); [done|done| |done|done|].
  - unfold loggable. rewrite Hl. destruct (Ht _ Hid) as (r & _ & ->). split_and!; [done|by eexists|lia..].
  - intros tx' w' Ho' Hs Hm Hrec. apply (HQ2 tx'); [done|by destruct Hs|]. by eapply changes_moved.
Qed.
End Rows.
