(* ===== verification/PgSpec.v ===== *)
(** * The contract of the Postgres store on one execution

    The changes of StoreSpec, with what this store does differently: the precision of stored values, the
    error for a missing execution, and three columns. *)

From S2P Require Import Prelude GoLib GoText Model Memory MemoryInv StoreSpec.
From S2P Require Import PgTables Postgres PgServer PgTx PgStmts.

Section Spec.
Context `{E : GoEnv} {J : Jsonb}.

(** A JSON argument as the server prints it. *)
Definition stored_json (x : RawMessage) : RawMessage := x ≫= jsonb.

(** Microseconds; the zero instant stands for the clock [t0] of the process. *)
Definition stored_time (t0 t : Time) : Time := micro (if IsZero t then t0 else t).

(** The execution that the contract asks for ([e'], from [e] at [t]), as this store keeps it: a lease of
    whole milliseconds; the normalised input and output; an output that is nil leaves the old one; success
    clears the last error; a retry sets the instant of its next delivery, computed from an earlier reading
    [t0] of the clock, even when there is none because the attempts are used up. *)
Definition pg_adjust {A} (c : Call A) (t0 t : Time) (e e' : Execution) : Execution :=
  match c with
  | CHeartbeat _ _ lease => e' <| e_LeaseUntil := Add t (Milliseconds lease * Millisecond) |>
  | CSucceed _ _ output =>
      e' <| e_LastError := EmptyString |>
         <| e_Output := match output with Some _ => stored_json output | None => e_Output e end |>
  | CRetry _ _ _ delay => e' <| e_AvailableAt := micro (Add t0 delay) |>
  | CFail _ _ _ | CCancel _ _ => e'
  | CRelease _ input availableAt =>
      e' <| e_Input := stored_json input |> <| e_AvailableAt := stored_time t0 availableAt |>
  | CRestart _ availableAt => e' <| e_AvailableAt := stored_time t0 availableAt |>
  end.

Definition pg_change {A} (c : Call A) (t0 t : Time) (e : Execution) : error + Change :=
  match call_change false c t e with
  | inl err => inl err
  | inr ch => inr (mkChange (pg_adjust c t0 t e (ch_item ch)) (ch_event ch))
  end.

(** The error for an execution that is not stored. *)
Definition pg_missing {A} (c : Call A) : error :=
  match c with
  | CHeartbeat _ _ _ | CSucceed _ _ _ | CRetry _ _ _ _ | CFail _ _ _ => ErrLeaseLost
  | CRelease _ _ _ => ErrActive
  | CCancel _ _ | CRestart _ _ => ErrNotFound
  end.

Definition pg_result {A} (c : Call A) : Execution → A :=
  match c with CRestart _ _ => λ e, e | _ => λ _, tt end.

Definition entries (id : UUID) (ch : Change) : list Entry :=
  match ch_event ch with None => [] | Some (type, text) => [(id, type, e_Attempt (ch_item ch), text)] end.

(** The step of a call: [t] is the clock of the server. *)
Definition pg_call_step {A} (c : Call A) (t0 t : Time) (db : DB) (r : error + A) (db' : DB) : Prop :=
  let id := call_id c in
  match db_tasks db !! id with
  | None => r = inl (pg_missing c) ∧ db' = db
  | Some row =>
      match pg_change c t0 t (scanExecution row) with
      | inl err => r = inl err ∧ db' = db
      | inr ch => r = inr (pg_result c (ch_item ch)) ∧ ∃ row', scanExecution row' = ch_item ch ∧
          effect db (<[id := row']> (db_tasks db)) (db_runs db) (entries id ch) db'
      end
  end.

Definition restartable (id : UUID) (r : TaskRow) : bool :=
  bool_decide (tr_id r = id) && bool_decide (tr_pipeline_run_id r = None) && is_final (tr_status r).

(** The arguments that the server accepts. *)
Definition pg_call_ok {A} (c : Call A) : Prop :=
  match c with
  | CSucceed _ _ output => match output with Some text => is_Some (jsonb text) | None => True end
  | CRetry _ _ text delay => text_arg text = true ∧ (- 2 ^ 63 ≤ delay)%Z
  | CFail _ _ text => text_arg text = true
  | CCancel _ reason => text_arg reason = true
  | CRelease _ input _ => ∃ text, input = Some text ∧ is_Some (jsonb text)
  | CHeartbeat _ _ _ | CRestart _ _ => True
  end.

Definition pg_call {W} `{!PgClient W} {A} (c : Call A) : M W A :=
  match c with
  | CHeartbeat id token lease => Postgres.Heartbeat id token lease
  | CSucceed id token output => Postgres.Succeed id token output
  | CRetry id token text delay => Postgres.Retry id token text delay
  | CFail id token text => Postgres.Fail id token text
  | CCancel id reason => Postgres.CancelExecution id reason
  | CRelease id input availableAt => Postgres.ReleaseExecution id input availableAt
  | CRestart id availableAt => Postgres.RestartExecution id availableAt
  end.

(** ** Rows and executions *)

Lemma owned_by_owns id token r :
  row_ok r → tr_id r = id → owned_by id token r = owns token (scanExecution r).
Proof.
  intros Hr Hid. unfold owned_by, owns. cbn [scanExecution e_Status e_LeaseToken].
  rewrite (bool_decide_true (tr_id r = id)) by done. simpl.
  destruct (decide (tr_status r = StatusRunning)) as [Hs|Hs].
  - destruct (row_lease _ Hr Hs) as [[tok Htok] _]. pose proof (row_token _ Hr) as Hn. rewrite Htok in *.
    rewrite (bool_decide_true (tr_status r = _)) by done. simpl. rewrite andb_true_r.
    repeat case_bool_decide; simplify_eq/=; done.
  - rewrite (bool_decide_false (tr_status r = _)) by done. by rewrite andb_false_r.
Qed.

Lemma is_final_terminal s : is_final s = is_terminal s.
Proof. by destruct s. Qed.

(** Arguments that are accepted. *)
Lemma json_arg_ok {B} x (k : option string → Stmt B) :
  match x with Some text => is_Some (jsonb text) | None => True end → json_arg x k = k (stored_json x).
Proof. destruct x as [text|]; [|done]. intros [v Hv]. unfold json_arg, stored_json. simpl. by rewrite Hv. Qed.
End Spec.
