(* ===== verification/PgCalls.v ===== *)
(** * The operations on one execution are atomic

    Whatever other transactions do meanwhile, an operation of the Postgres store on one execution takes
    the step of its contract at one instant of the call, or reports a lost connection. *)

From S2P Require Import Prelude GoLib GoText Model Memory MemoryInv StoreSpec.
From S2P Require Import PgTables Postgres PgServer PgTx PgStmts PgRows PgSpec.

Section Calls.
Context `{E : GoEnv} {J : Jsonb} {W : Type} `{!PgClient W} {SV : PgServer W} {HL : PgLaws (W := W)}.

Abbreviation st := (pg_state (W := W)).
Abbreviation DBof w := (pg_db (pg_state (W := W) w)).
Abbreviation rely := (pg_rely (W := W)).
Abbreviation transport := (pg_transport (W := W)).
Abbreviation Failed := (failed (W := W)).
Abbreviation moved := (PgTx.moved (W := W)).
Abbreviation open := (PgTx.open (W := W)).
Abbreviation outcome := (PgTx.outcome (W := W)).
Abbreviation settled := (PgTx.settled (W := W)).

(** ** A transaction that changes one row *)

(** The transaction has turned the row [old], if there is one, into [r'] and will publish [log]. *)
Record changed (tx : Tx) (w : W) (id : UUID) (old : option TaskRow) (r' : TaskRow) (log : list Entry) : Prop := {
  chg_open : open tx w;
  chg_locks : tx_task_locks tx = {[id]};
  chg_runs : tx_runs tx = ∅;
  chg_row : db_tasks (DBof w) !! id = old;
  chg_view : db_tasks (view tx (DBof w)) !! id = Some r';
  chg_log : recorded tx (DBof w) log;
}.

Lemma changed_moved tx tx' w w' id r r' log log' :
  changed tx w id r r' log → open tx' w' → same_rows tx tx' → moved tx w w' →
  recorded tx' (DBof w') log' → changed tx' w' id r r' log'.
Proof.
  intros [Ho Hl Hr Hrow Hview _] Ho' Hs [_ Hh] Hrec. split; [done|..|done].
  - by rewrite (sr_task_locks _ _ Hs).
  - by rewrite (sr_runs _ _ Hs).
  - rewrite (holds_tasks _ _ _ Hh); [done|]. rewrite Hl. set_solver.
  - destruct (same_rows_view _ _ (DBof w') Hs) as [-> _].
    rewrite (view_tasks tx (DBof w)) by (done || by destruct Ho). rewrite decide_True; [done|]. rewrite Hl. set_solver.
Qed.

Lemma changed_effect tx w id r r' log db :
  changed tx w id r r' log → holds tx (DBof w) db →
  db_tasks db !! id = r ∧ effect db (<[id := r']> (db_tasks db)) (db_runs db) log (view tx db).
Proof.
  intros [Ho Hl Hr Hrow Hview Hlog] Hh. split.
  { rewrite (holds_tasks _ _ _ Hh); [done|]. rewrite Hl. set_solver. }
  destruct (recorded_effect tx db log) as [_ _ Hev]; [by eapply recorded_holds|]. split; [..|done].
  - apply map_eq. intros i. rewrite (view_tasks tx (DBof w)) by (done || by destruct Ho). rewrite Hl.
    destruct (decide (i = id)) as [->|Hne].
    + rewrite lookup_insert_eq, decide_True by set_solver. done.
    + rewrite lookup_insert_ne, decide_False by set_solver. done.
  - cbn [view db_runs]. rewrite Hr. apply overlay_empty.
Qed.

(** A statement that changed and locked nothing. *)
Lemma write_nothing {A} now db (x : A) : tx_write (empty_tx now) db (mkOutcome x db ∅ ∅) = empty_tx now.
Proof. unfold tx_write, empty_tx. cbn. rewrite !diff_same. by rewrite !(left_id_L ∅ _). Qed.

(** The first statement of such a transaction. *)
Lemma wp_update_row P f id now w (Q : error + list TaskRow → W → Prop) :
  open (empty_tx now) w → stmt_ok (update_tasks P f) → (∀ r, P r = true → tr_id r = id) →
  (∀ e w', db_ok (DBof w') → rely (DBof w) (DBof w') → transport e → Q (inl e) w') →
  (∀ w', open (empty_tx now) w' → rely (DBof w) (DBof w') →
     (∀ r, db_tasks (DBof w') !! id = Some r → P r = false) → Q (inr []) w') →
  (∀ env tx w' r, env_ok env (DBof w') → sql_now env = now → rely (DBof w) (DBof w') → P r = true →
     row_ok r → tx_now tx = now → changed tx w' id (Some r) (f env r) [] → Q (inr [f env r]) w') →
  wp (tx_Query (update_tasks P f)) Q w.
Proof.
  intros Ho Hs HP HQ1 HQ2 HQ3. apply (wp_tx_query _ (empty_tx now)); [done|done|exact HQ1|].
  intros env w' Henv Hnow [Hrel _] Hok _ _. rewrite !view_empty in *. cbn [tx_now] in Hnow.
  rewrite (update_one env (DBof w') P f id) by done.
  destruct (db_tasks (DBof w') !! id) as [r|] eqn:Hr; [destruct (P r) eqn:HPr|].
  - set (o := mkOutcome [f env r] _ _ _). intros Hopen. set (tx := tx_write (empty_tx now) (DBof w') o) in *.
    assert (view tx (DBof w') = out_db o) as Hv.
    { pose proof (view_write (empty_tx now) (DBof w') o) as H. by rewrite view_empty in H. }
    apply (HQ3 env tx w' r); [done|done|done|done|by apply (ok_task _ Hok _ _ Hr)|done|].
    split; [exact Hopen|cbn; set_solver| |done|rewrite Hv; apply lookup_insert_eq|].
    + cbn. rewrite diff_same. apply (left_id_L ∅ _).
    + exists ∅. split; [|split; [apply map_disjoint_empty_l|done]]. cbn. rewrite diff_same, fmap_empty.
      apply (left_id_L ∅ _).
  - rewrite write_nothing. intros Hopen. apply HQ2; [done|done|]. intros r'. rewrite Hr. by intros [= <-].
  - rewrite write_nothing. intros Hopen. apply HQ2; [done|done|]. intros r'. by rewrite Hr.
Qed.

(** The event and the commit that follow. *)
Lemma wp_record_commit {A} item event text tx w id r r' log (step : DB → error + A → DB → Prop) db (x : A) (k : M W A) :
  changed tx w id r r' log → rely db (DBof w) → e_ID item = id → (0 ≤ e_Attempt item < 2 ^ 31)%Z →
  text_arg text = true →
  (∀ db', db_ok db' → db_tasks db' !! id = r → ∀ db2, db_ok db2 →
     effect db' (<[id := r']> (db_tasks db')) (db_runs db') (log ++ [(id, event, e_Attempt item, text)]) db2 →
     step db' (inr x) db2) →
  (∀ w, k w = (_ ← tx_Commit; mret x) w) →
  wp (_ ← insertEvent item event text; k) (settled step db) w.
Proof.
  intros Hc Hrel Hid Hatt Htext Hstep Hk. apply wp_bind.
  eapply (wp_insertEvent _ _ _ tx); [by destruct Hc|by destruct Hc| |done|..].
  - destruct Hc as [_ Hl _ _ Hv _]. unfold loggable. rewrite Hid, Hl, Hv. split; [set_solver|]. split; [by eexists|lia].
  - intros e w' Hok Hr Ht. apply settled_failed; [done|by eapply pg_rely_then|done].
  - intros tx' w' Ho' Hs Hm Hrec. pose proof (changed_moved _ _ _ _ _ _ _ _ _ Hc Ho' Hs Hm Hrec) as Hc'.
    unfold wp. rewrite Hk. eapply (wp_commit_settled tx'); [done|eapply pg_rely_then; [exact Hrel|apply Hm]|].
    intros db' Hr' Hh Hok Hv. destruct (changed_effect _ _ _ _ _ _ _ Hc' Hh) as [Hrow Heff].
    eapply Hstep; [done|done|done|]. rewrite Hid in Heff. exact Heff.
Qed.

Lemma commit_unit w : (tx_Commit : M W unit) w = (_ ← tx_Commit; mret tt) w.
Proof. unfold mbind, M_bind. by destruct (tx_Commit w) as [[e|[]] w']. Qed.

(** ** The calls *)

(** A step of a call, with the clocks it uses. *)
Definition pg_step {A} (c : Call A) (db : DB) (r : error + A) (db' : DB) : Prop :=
  ∃ t0 t, (0 < t0)%Z ∧ pg_clock t ∧ pg_call_step c t0 t db r db'.

Lemma pg_clock_pos t : pg_clock t → (0 < t)%Z.
Proof. intros [H _]. lia. Qed.

(** A report under a token that does not own the execution. *)
Definition lease_call {A} (c : Call A) (id token : UUID) : Prop :=
  call_id c = id ∧ pg_missing c = ErrLeaseLost ∧
  ∀ t0 t e, owns token e = false → pg_change c t0 t e = inl (ErrLeaseLost : error).

Lemma lease_lost {A} (c : Call A) id token t0 t db :
  lease_call c id token → (0 < t0)%Z → pg_clock t → db_ok db →
  (∀ r, db_tasks db !! id = Some r → owned_by id token r = false) →
  pg_step c db (inl (ErrLeaseLost : error)) db.
Proof.
  intros (Hid & Hmiss & Hlost) Ht0 Ht Hok Hrow. exists t0, t. split; [done|]. split; [done|].
  unfold pg_call_step. rewrite Hid. destruct (db_tasks db !! id) as [r|] eqn:Hr; [|by rewrite Hmiss].
  destruct (ok_task _ Hok _ _ Hr) as [Hi Hrok]. rewrite Hlost; [done|].
  rewrite <-(owned_by_owns id) by done. by apply Hrow.
Qed.

Lemma owned_by_id id token r : owned_by id token r = true → tr_id r = id.
Proof. unfold owned_by. intros H. by reflect_bool. Qed.

Lemma unit_result (c : Call unit) e : pg_result c e = tt.
Proof. by destruct (pg_result c e). Qed.

(** The step that a committed change of one row is. *)
Lemma changed_step {A} (c : Call A) id t0 t db r r' ch db2 :
  call_id c = id → (0 < t0)%Z → pg_clock t → db_tasks db !! id = Some r →
  pg_change c t0 t (scanExecution r) = inr ch → scanExecution r' = ch_item ch →
  effect db (<[id := r']> (db_tasks db)) (db_runs db) (entries id ch) db2 →
  pg_step c db (inr (pg_result c (ch_item ch))) db2.
Proof.
  intros Hid Ht0 Ht Hr Hch Hr' Heff. exists t0, t. split; [done|]. split; [done|].
  unfold pg_call_step. rewrite Hid, Hr, Hch. split; [done|]. by exists r'.
Qed.

(** A report with a final status. *)
Lemma transition_final (c : Call unit) id token status event text output w :
  status = StatusSucceeded ∨ status = StatusFailed → text_arg text = true →
  match output with Some x => is_Some (jsonb x) | None => True end → lease_call c id token →
  (∀ env r, row_ok r → tr_id r = id → owns token (scanExecution r) = true →
     pg_change c (sql_now env) (sql_now env) (scanExecution r) =
       inr (mkChange (scanExecution (transition_row status text (stored_json output) None env r))
             (Some (event, text)))) →
  idle w →
  wp (transition id token status event text output 0) (λ r w', idle w' ∧ outcome (pg_step c) (DBof w) r (DBof w')) w.
Proof.
  intros Hst Htext Hout Hc Hspec Hi. unfold transition. cbv zeta. cbn [IsZero Z.eqb].
  assert (status ≠ StatusRetry ∧ status ≠ StatusZero ∧ status ≠ StatusRunning ∧ status ≠ StatusBlocked)
    as (H1 & H2 & H3 & H4) by (destruct Hst as [-> | ->]; done).
  apply wp_transaction; [done|]. intros now w1 Hclk Ho Hrel1 _. apply wp_bind.
  assert (stmt_ok (transition_task id token status text output None)) as Hs by (by apply stmt_ok_transition).
  unfold transition_task in *. rewrite Htext, (bool_decide_false (status = StatusRetry)) in * by done.
  cbn [checked negb andb orb] in *. rewrite json_arg_ok in * by done.
  apply (wp_update_row _ _ id now); [done|done|apply owned_by_id|..].
  - intros e w2 Hok Hr Ht. by apply settled_failed.
  - intros w2 Ho2 Hr Hrow. cbn [first_row]. apply wp_throw.
    apply settled_error; [by destruct Ho2|done|]. pose proof (pg_clock_pos _ Hclk).
    eapply (lease_lost c id token now now); [done..|by destruct Ho2|done].
  - intros env tx w2 r Henv Hnow Hr HP Hrok _ Hchg. cbn [first_row]. cbv zeta.
    rewrite andb_false_r.
    pose proof (owned_by_id _ _ _ HP) as Hid. rewrite (owned_by_owns id) in HP by done.
    eapply (wp_record_commit _ _ _ tx _ id (Some r) _ [] _ _ tt);
      [done|done|done|destruct Hrok; simpl; lia|done| |apply commit_unit].
    intros db' Hok' Hrow db2 _ Heff. subst now.
    set (r' := transition_row _ _ _ _ env r) in *.
    rewrite <-(unit_result c (scanExecution r')).
    eapply (changed_step c id (sql_now env) (sql_now env) _ r r' (mkChange (scanExecution r') (Some (event, text))));
      [apply Hc|by apply pg_clock_pos|done|done|by apply Hspec|done|exact Heff].
Qed.

Lemma pg_Succeed_atomic id token output w :
  pg_call_ok (CSucceed id token output) → idle w →
  wp (Postgres.Succeed id token output)
    (λ r w', idle w' ∧ outcome (pg_step (CSucceed id token output)) (DBof w) r (DBof w')) w.
Proof.
  intros Hok. apply transition_final; [by left|done|done|..].
  - split_and!; [done|done|]. intros t0 t e He. unfold pg_change. cbn. unfold succeed_change, guarded. by rewrite He.
  - intros env r Hr Hid Ho. unfold pg_change. cbn. unfold succeed_change, guarded. rewrite Ho.
    destruct output as [text|]; [|done]. unfold stored_json. simpl. by destruct Hok as [v ->].
Qed.

Lemma pg_Fail_atomic id token text w :
  pg_call_ok (CFail id token text) → idle w →
  wp (Postgres.Fail id token text)
    (λ r w', idle w' ∧ outcome (pg_step (CFail id token text)) (DBof w) r (DBof w')) w.
Proof.
  intros Hok. apply transition_final; [by right|done|done|..].
  - split_and!; [done|done|]. intros t0 t e He. unfold pg_change. cbn. unfold fail_change, guarded. by rewrite He.
  - intros env r Hr Hid Ho. unfold pg_change. cbn. unfold fail_change, guarded. by rewrite Ho.
Qed.

(** A further statement on the same row. *)
Lemma changed_write {A} tx w w' id r r1 r2 log (x : A) (o : Outcome A) :
  changed tx w id r r1 log → moved tx w w' →
  o = mkOutcome x (put_task (view tx (DBof w')) id r2) {[id]} ∅ →
  open (tx_write tx (view tx (DBof w')) o) w' →
  changed (tx_write tx (view tx (DBof w')) o) w' id r r2 log.
Proof.
  intros [Ho Hl Hr Hrow Hview Hlog] [_ Hh] -> Hopen. split; [done|..].
  - cbn [tx_write tx_task_locks out_tasks]. rewrite Hl. set_solver.
  - cbn [tx_write tx_runs out_db put_task db_runs]. rewrite diff_same, Hr. apply (left_id_L ∅ _).
  - rewrite (holds_tasks _ _ _ Hh); [done|]. rewrite Hl. set_solver.
  - rewrite view_write. apply lookup_insert_eq.
  - destruct (recorded_holds _ _ _ _ Hh Hlog) as (evs & He & Hn). exists evs. split; [|done].
    cbn [tx_write tx_events out_db put_task db_events]. by rewrite diff_same, (left_id_L ∅ _).
Qed.

Lemma changed_view tx w w' id r r' log :
  changed tx w id r r' log → moved tx w w' → db_tasks (view tx (DBof w')) !! id = Some r'.
Proof.
  intros [Ho Hl _ _ Hview _] [_ Hh]. rewrite (view_tasks tx (DBof w)) by (done || by destruct Ho).
  rewrite decide_True; [done|]. rewrite Hl. set_solver.
Qed.

(** The row that a retry writes, and the change it stands for. *)
Lemma row_unfinished r : row_ok r → tr_status r = StatusRunning → tr_finished_at r = None.
Proof.
  intros Hr Hrun. destruct (tr_finished_at r) eqn:Hf; [|done]. pose proof (proj1 (row_finished _ Hr)) as H.
  rewrite Hf, Hrun in H. by specialize (H (mk_is_Some _ _ eq_refl)).
Qed.

Lemma owns_running token e : owns token e = true → e_Status e = StatusRunning.
Proof. unfold owns. intros H. by reflect_bool. Qed.

Abbreviation retried text t0 delay := (transition_row StatusRetry text None (Some (Add t0 delay))).
Abbreviation exhausted now r := (r <| tr_status := StatusFailed |> <| tr_finished_at := Some now |>).

Lemma retried_change id token text delay t0 env r :
  row_ok r → owns token (scanExecution r) = true → (tr_max_attempts r <=? tr_attempt r)%Z = false →
  pg_change (CRetry id token text delay) t0 (sql_now env) (scanExecution r) =
    inr (mkChange (scanExecution (retried text t0 delay env r)) (Some (EventRetried, text))).
Proof.
  intros Hr Ho Hex. pose proof (row_unfinished r Hr (owns_running _ _ Ho)) as Hf.
  unfold pg_change, call_change, retry_change, guarded. rewrite Ho.
  change (e_MaxAttempts (scanExecution r)) with (tr_max_attempts r).
  change (e_Attempt (scanExecution r)) with (tr_attempt r). rewrite Hex.
  unfold scanExecution, transition_row. destruct r. simpl in *. by subst.
Qed.

Lemma exhausted_change id token text delay t0 env r :
  row_ok r → owns token (scanExecution r) = true → (tr_max_attempts r <=? tr_attempt r)%Z = true →
  pg_change (CRetry id token text delay) t0 (sql_now env) (scanExecution r) =
    inr (mkChange (scanExecution (exhausted (sql_now env) (retried text t0 delay env r))) (Some (EventFailed, text))).
Proof.
  intros Hr Ho Hex. unfold pg_change, call_change, retry_change, guarded. rewrite Ho.
  change (e_MaxAttempts (scanExecution r)) with (tr_max_attempts r).
  change (e_Attempt (scanExecution r)) with (tr_attempt r). rewrite Hex.
  unfold scanExecution, transition_row. by destruct r.
Qed.

(** After the first statement of a retry. *)
Lemma wp_retried id token text delay t0 env tx r w :
  text_arg text = true → (0 < t0)%Z → pg_clock (sql_now env) → owned_by id token r = true → row_ok r →
  tx_now tx = sql_now env → changed tx w id (Some r) (retried text t0 delay env r) [] →
  wp (let item := scanExecution (retried text t0 delay env r) in
      if (e_MaxAttempts item <=? e_Attempt item)%Z && bool_decide (StatusRetry = StatusRetry) then
        rows ← tx_Query (fail_exhausted id);
        first_row rows (throw ErrNoRows) (λ row,
          _ ← insertEvent (scanExecution row) EventFailed text;
          tx_Commit)
      else
        _ ← insertEvent item EventRetried text;
        tx_Commit) (settled (pg_step (CRetry id token text delay)) (DBof w)) w.
Proof.
  intros Htext Ht0 Hclk HP Hrok Htx Hchg. pose proof (owned_by_id _ _ _ HP) as Hid.
  rewrite (owned_by_owns id) in HP by done. set (c := CRetry id token text delay). cbv zeta.
  rewrite (bool_decide_true (StatusRetry = StatusRetry)), andb_true_r by done.
  set (r1 := transition_row _ _ _ _ env r) in *.
  change (e_MaxAttempts (scanExecution r1)) with (tr_max_attempts r).
  change (e_Attempt (scanExecution r1)) with (tr_attempt r).
  assert (0 ≤ e_Attempt (scanExecution r1) < 2 ^ 31)%Z as Hatt.
  { change (e_Attempt (scanExecution r1)) with (tr_attempt r). destruct Hrok. lia. }
  destruct (tr_max_attempts r <=? tr_attempt r)%Z eqn:Hex; cycle 1.
  { eapply (wp_record_commit _ _ _ tx _ id (Some r) r1 [] _ _ tt); [done|apply pg_rely_same|done|done|done| |apply commit_unit].
    intros db' Hok' Hrow db2 _ Heff. rewrite <-(unit_result c (scanExecution r1)).
    by eapply (changed_step c id t0 (sql_now env) _ r r1); [..|by apply retried_change|done|exact Heff]. }
  apply wp_bind. eapply (wp_tx_query_on _ _ tx); [by destruct Hchg|apply stmt_on_fail_exhausted|..].
  { intros w4 Hm r' Hr'. rewrite (changed_view _ _ _ _ _ _ _ Hchg Hm) in Hr'. by simplify_eq. }
  { intros e w4 Hok Hr' Ht. by apply settled_failed. }
  intros env4 w4 Henv4 Hnow4 Hm Hok4 Hv4 _. unfold fail_exhausted.
  rewrite (update_one env4 _ _ _ id) by (done || by intros x Hx; reflect_bool).
  rewrite (changed_view _ _ _ _ _ _ _ Hchg Hm), (bool_decide_true (tr_id r1 = id)), Hnow4, Htx by done.
  set (r2 := exhausted (sql_now env) r1). intros Hopen. cbn [out_value first_row].
  eapply (wp_record_commit _ _ _ _ _ id (Some r) r2 [] _ _ tt);
    [by eapply changed_write|apply Hm|done|done|done| |apply commit_unit].
  intros db' Hok' Hrow db2 _ Heff. rewrite <-(unit_result c (scanExecution r2)).
  by eapply (changed_step c id t0 (sql_now env) _ r r2); [..|by apply exhausted_change|done|exact Heff].
Qed.

Lemma pg_Retry_atomic id token text delay w :
  pg_call_ok (CRetry id token text delay) → idle w →
  wp (Postgres.Retry id token text delay)
    (λ r w', idle w' ∧ outcome (pg_step (CRetry id token text delay)) (DBof w) r (DBof w')) w.
Proof.
  intros [Htext Hdelay] Hi. unfold Postgres.Retry. set (c := CRetry id token text delay).
  apply wp_bind. apply wp_query; [done|apply stmt_ok_query|..].
  { intros e w1 Hi1 Hr Ht. split; [done|]. eapply outcome_failed; [done|by exists e]. }
  intros db env0 w1 r0 Hok0 Hr0 Henv0 Hi1 _. unfold select_now, query. cbn [out_db out_value].
  intros Hdb1 Hr. subst db. destruct Hr as [->|(e & -> & Ht)]; cycle 1.
  { split; [done|]. eapply outcome_failed; [done|by exists e]. }
  pose proof (env_clock _ _ Henv0) as [Hclk0 _]. revert Hclk0. generalize (sql_now env0) as t0. intros t0 Hclk0.
  assert (IsZero (Add t0 delay) = false) as Hz by (unfold IsZero, Add; lia). assert (0 < t0)%Z as Ht0 by lia.
  clear Hdelay Hclk0.
  apply (wp_mono _ (λ r w', idle w' ∧ outcome (pg_step c) (DBof w1) r (DBof w'))); cycle 1.
  { intros r w' [Hi' Ho']. split; [done|exact (outcome_pre _ _ _ _ _ Hr0 Ho')]. }
  unfold transition. cbv zeta. rewrite Hz. apply wp_transaction; [done|]. intros now w2 Hclk Ho Hrel _.
  apply wp_bind.
  assert (stmt_ok (transition_task id token StatusRetry text None (Some (Add t0 delay)))) as Hs
    by (by apply stmt_ok_transition).
  unfold transition_task in *. rewrite Htext, (bool_decide_true (is_Some _)) in * by done.
  cbn [checked json_arg andb] in *. rewrite orb_true_r in *.
  apply (wp_update_row _ _ id now); [done|done|apply owned_by_id|..].
  - intros e w3 Hok Hr Ht. by apply settled_failed.
  - intros w3 Ho3 Hr Hrow. cbn [first_row]. apply wp_throw. apply settled_error; [by destruct Ho3|done|].
    eapply (lease_lost c id token t0 now); [|done|done|by destruct Ho3|done].
    split_and!; [done|done|]. intros x t e He. unfold pg_change, call_change, c, retry_change, guarded. by rewrite He.
  - intros env tx w3 r Henv Hnow Hr HP Hrok Htx Hchg. cbn [first_row]. subst now.
    eapply wp_mono; [by eapply wp_retried|]. intros r' w'. by apply settled_pre.
Qed.

(** ** Calls of one statement *)

Lemma put_effect db id r : effect db (<[id := r]> (db_tasks db)) (db_runs db) [] (put_task db id r).
Proof.
  split; [done|done|]. exists ∅. split; [split; [apply map_disjoint_empty_l|done]|].
  by rewrite (left_id_L ∅ _).
Qed.

Lemma wp_row_query (c : Call unit) id P f err t0 w :
  call_id c = id → (0 < t0)%Z → stmt_ok (update_tasks P f) → (∀ r, P r = true → tr_id r = id) →
  (∀ t db, pg_clock t → db_ok db → (∀ r, db_tasks db !! id = Some r → P r = false) → pg_step c db (inl err) db) →
  (∀ env r, row_ok r → P r = true →
     pg_change c t0 (sql_now env) (scanExecution r) = inr (mkChange (scanExecution (f env r)) None)) →
  idle w →
  wp (rows ← db_Query (update_tasks P f); match rows with [] => throw err | _ => mret tt end)
    (λ r w', idle w' ∧ outcome (pg_step c) (DBof w) r (DBof w')) w.
Proof.
  intros Hid Ht0 Hs HP Hmiss Hhit Hi. apply wp_bind. apply wp_query; [done|done|..].
  { intros e w' Hi' Hr Ht. split; [done|]. eapply outcome_failed; [done|by exists e]. }
  intros db env w' r0 Hok Hr Henv Hi' _. rewrite (update_one env db P f id) by done.
  assert ((∀ r, db_tasks db !! id = Some r → P r = false) → DBof w' = db → r0 = inr [] ∨ Failed r0 →
    match r0 with
    | inl e => idle w' ∧ outcome (pg_step c) (DBof w) (inl e) (DBof w')
    | inr a => wp (match a with [] => throw err | _ => mret tt end)
                 (λ r w2, idle w2 ∧ outcome (pg_step c) (DBof w) r (DBof w2)) w'
    end) as Hnone.
  { intros Hn Hdb [->|(e & -> & He)].
    - apply wp_throw. split; [done|]. rewrite Hdb. eapply outcome_step; [done| |apply pg_rely_same].
      eapply Hmiss; [by eapply env_clock|done|done].
    - split; [done|]. eapply outcome_failed; [by rewrite Hdb|by exists e]. }
  destruct (db_tasks db !! id) as [r|] eqn:Hrow; [|by apply Hnone].
  destruct (P r) eqn:HPr; [|apply Hnone; by intros ? [= <-]]. cbn [out_db out_value]. intros Hdb Hr0.
  assert (pg_step c db (inr tt) (DBof w')) as Hstep.
  { rewrite Hdb, <-(unit_result c (scanExecution (f env r))).
    eapply (changed_step c id t0 (sql_now env) _ r (f env r) (mkChange (scanExecution (f env r)) None));
      [done|done|by eapply env_clock|done| |done|].
    - apply Hhit; [by apply (ok_task _ Hok _ _ Hrow)|done].
    - apply put_effect. }
  destruct Hr0 as [->|(e & -> & He)].
  - apply wp_ret. split; [done|]. by eapply outcome_step; [..|apply pg_rely_same].
  - split; [done|]. eapply outcome_lost; [done|done|apply pg_rely_same|by exists e].
Qed.

Lemma pg_Heartbeat_atomic id token lease w :
  idle w →
  wp (Postgres.Heartbeat id token lease)
    (λ r w', idle w' ∧ outcome (pg_step (CHeartbeat id token lease)) (DBof w) r (DBof w')) w.
Proof.
  intros Hi. apply (wp_row_query _ id _ _ _ 1%Z); [done|done|apply stmt_ok_extend_lease|apply owned_by_id|..|done].
  - intros t db Ht Hok Hrow. eapply (lease_lost _ id token 1 t); [|done..].
    split_and!; [done|done|]. intros t1 t2 e He. unfold pg_change, call_change, heartbeat_change, guarded. by rewrite He.
  - intros env r Hr HP. pose proof (owned_by_id _ _ _ HP) as Hid. rewrite (owned_by_owns id) in HP by done.
    unfold pg_change, call_change, heartbeat_change, guarded. rewrite HP. by destruct r.
Qed.

Lemma wp_availableAt availableAt w (Q : error + Time → W → Prop) :
  idle w →
  (∀ t0 w', (0 < t0)%Z → idle w' → DBof w' = DBof w → Q (inr (if IsZero availableAt then t0 else availableAt)) w') →
  wp (if IsZero availableAt then process_Now else mret availableAt) Q w.
Proof.
  intros Hi HQ. destruct (IsZero availableAt); [|by apply wp_ret, (HQ 1%Z)].
  apply wp_process_Now. intros t w' Ht Hst. apply HQ; [done|by apply (idle_same w); rewrite ?Hst|by rewrite Hst].
Qed.

Lemma pg_Release_atomic id input available w :
  pg_call_ok (CRelease id input available) → idle w →
  wp (Postgres.ReleaseExecution id input available)
    (λ r w', idle w' ∧ outcome (pg_step (CRelease id input available)) (DBof w) r (DBof w')) w.
Proof.
  intros (text & -> & [v Hv]) Hi. unfold Postgres.ReleaseExecution. set (c := CRelease id (Some text) available).
  apply wp_bind, wp_availableAt; [done|]. intros t0 w1 Ht0 Hi1 Hdb. rewrite <-Hdb.
  pose proof (stmt_ok_release id (Some text) (if IsZero available then t0 else available)) as Hs.
  unfold release_task, json_arg in *. rewrite Hv in *. cbn [not_null] in *.
  apply (wp_row_query c id _ _ _ t0); [done|done|done|by intros r Hr; reflect_bool|..|done].
  - intros t db Ht Hok Hrow. exists t0, t. split; [done|]. split; [done|]. unfold pg_call_step. subst c. cbn [call_id].
    destruct (db_tasks db !! id) as [r|] eqn:Hr; [|done]. specialize (Hrow _ eq_refl).
    rewrite (bool_decide_true (tr_id r = id)) in Hrow by (by apply (ok_task _ Hok)). simpl in Hrow.
    unfold pg_change, call_change, release_change. cbn [scanExecution e_Status]. by rewrite Hrow.
  - intros env r Hr HP. reflect_bool. unfold pg_change, call_change, c, release_change.
    cbn [scanExecution e_Status]. rewrite bool_decide_true by done. unfold pg_adjust, stored_json, stored_time.
    simpl. rewrite Hv. by destruct r.
Qed.

Lemma pg_Cancel_atomic id reason w :
  pg_call_ok (CCancel id reason) → idle w →
  wp (Postgres.CancelExecution id reason)
    (λ r w', idle w' ∧ outcome (pg_step (CCancel id reason)) (DBof w) r (DBof w')) w.
Proof.
  intros Htext Hi. simpl in Htext. unfold Postgres.CancelExecution. set (c := CCancel id reason).
  apply wp_transaction; [done|]. intros now w1 Hclk Ho Hrel _. apply wp_bind. pose proof (pg_clock_pos _ Hclk) as Hpos.
  pose proof (stmt_ok_cancel id reason) as Hs. unfold cancel_task in *. rewrite Htext in *. cbn [checked] in *.
  apply (wp_update_row _ _ id now); [done|done|by intros r Hr; reflect_bool|..].
  - intros e w2 Hok Hr Ht. by apply settled_failed.
  - intros w2 Ho2 Hr Hrow. cbn [first_row]. apply wp_throw. pose proof (open_ok _ _ Ho2) as Hok.
    apply settled_error; [done|done|]. exists now, now. split; [done|]. split; [done|].
    unfold pg_call_step. subst c. cbn [call_id].
    destruct (db_tasks (DBof w2) !! id) as [r|] eqn:Hr2; [|done]. specialize (Hrow _ eq_refl).
    rewrite (bool_decide_true (tr_id r = id)) in Hrow by (by apply (ok_task _ Hok)). simpl in Hrow.
    apply negb_false_iff in Hrow. rewrite is_final_terminal in Hrow.
    unfold pg_change, call_change, cancel_change. cbn [scanExecution e_Status]. by rewrite Hrow.
  - intros env tx w2 r Henv Hnow Hr HP Hrok _ Hchg. cbn [first_row]. subst now. reflect_bool.
    set (r' := unleased _) in *.
    eapply (wp_record_commit _ _ _ tx _ id (Some r) r' [] _ _ tt);
      [done|done|done|destruct Hrok; simpl; lia|done| |apply commit_unit].
    intros db' Hok' Hrow db2 _ Heff. rewrite <-(unit_result c (scanExecution r')).
    eapply (changed_step c id (sql_now env) (sql_now env) _ r r' (mkChange (scanExecution r') (Some (EventCancelled, reason))));
      [done|done|done|done| |done|exact Heff].
    unfold pg_change, call_change, c, cancel_change. cbn [scanExecution e_Status].
    rewrite <-is_final_terminal, H0. by destruct r.
Qed.

(** ** Restarts *)

(** A restart is refused as active when the execution could not be restarted at one instant of the call
    and is stored, outside any pipeline, at a later one. *)
Definition refused {A} (c : Call A) (db0 db : DB) (r : error + A) (db' : DB) : Prop :=
  match c with
  | CRestart id _ => r = inl (ErrActive : error) ∧ db' = db ∧ ∃ db1 row, rely db0 db1 ∧ rely db1 db ∧
      (∀ row1, db_tasks db1 !! id = Some row1 → restartable id row1 = false) ∧
      db_tasks db !! id = Some row ∧ tr_pipeline_run_id row = None
  | _ => False
  end.

(** The step of a call that started in [db0]. *)
Definition pg_steps {A} (c : Call A) (db0 db : DB) (r : error + A) (db' : DB) : Prop :=
  pg_step c db r db' ∨ refused c db0 db r db'.

(** After the first statement of a restart, when it found nothing to restart. *)
Lemma wp_not_restarted id available now w w1 :
  open (empty_tx now) w1 → rely (DBof w) (DBof w1) → pg_clock now →
  (∀ r, db_tasks (DBof w1) !! id = Some r → restartable id r = false) →
  wp (kind ← tx_Query (select_kind id);
      match kind with
      | None => throw ErrNotFound
      | Some (_, Some _) => throw ErrPipelineExecution
      | Some (_, None) => throw ErrActive
      end) (settled (pg_steps (CRestart id available) (DBof w)) (DBof w)) w1.
Proof.
  intros Ho Hrel Hclk Hrow. pose proof (pg_clock_pos _ Hclk) as Hpos.
  apply wp_bind. apply (wp_tx_query _ (empty_tx now)); [done|apply stmt_ok_query|..].
  { intros e w2 Hok Hr Ht. apply settled_failed; [done|by eapply pg_rely_then|done]. }
  intros env w2 Henv Hnow Hm Hok _ _. unfold select_kind, query. rewrite view_empty. cbn [out_value]. intros _.
  assert (rely (DBof w) (DBof w2)) as Hrel2 by (eapply pg_rely_then; [done|apply Hm]).
  destruct (db_tasks (DBof w2) !! id) as [row|] eqn:Hr; cycle 1.
  { apply wp_throw, settled_error; [done|done|]. left. exists now, now. split_and!; [done|done|].
    unfold pg_call_step. cbn [call_id]. by rewrite Hr. }
  cbn [fmap option_fmap option_map]. destruct (tr_pipeline_run_id row) as [run|] eqn:Hrun.
  - apply wp_throw, settled_error; [done|done|]. left. exists now, now. split_and!; [done|done|].
    unfold pg_call_step. cbn [call_id]. rewrite Hr. unfold pg_change, call_change, restart_change.
    cbn [scanExecution e_PipelineRunID e_Status andb]. by rewrite Hrun.
  - apply wp_throw, settled_error; [done|done|]. right. split_and!; [done|done|]. exists (DBof w1), row.
    split_and!; [done|apply Hm|done|done|done].
Qed.

Lemma pg_Restart_atomic id availableAt w :
  idle w →
  wp (Postgres.RestartExecution id availableAt)
    (λ r w', idle w' ∧ outcome (pg_steps (CRestart id availableAt) (DBof w)) (DBof w) r (DBof w')) w.
Proof.
  intros Hi. unfold Postgres.RestartExecution. set (c := CRestart id availableAt).
  apply wp_bind, wp_availableAt; [done|]. intros t0 w0 Ht0 Hi0 Hdb0. rewrite <-Hdb0.
  apply wp_transaction; [done|]. intros now w1 Hclk Ho Hrel _. apply wp_bind.
  eapply (wp_update_row _ _ id now); [done|apply stmt_ok_restart|by intros r Hr; reflect_bool|..].
  - intros e w2 Hok Hr Ht. by apply settled_failed.
  - intros w2 Ho2 Hr Hrow. cbn [first_row]. eapply wp_mono; [eapply (wp_not_restarted _ _ _ w1); done|].
    intros r w' [Hok Hout]. split; [done|]. eapply pg_outcome_mono; [|exact Hout].
    intros a x b [Hs|(-> & -> & db1 & row & Hr1 & Hr2)]; [by left|right]. split_and!; [done|done|].
    exists db1, row. split; [|done]. by eapply pg_rely_then.
  - intros env tx w2 r Henv Hnow Hr HP Hrok _ Hchg. cbn [first_row]. cbv zeta. subst now. reflect_bool.
    set (r' := restarted_row _ _ r) in *.
    eapply (wp_record_commit _ _ _ tx _ id (Some r) r' [] _ _ (scanExecution r'));
      [done|done|done|destruct Hrok; simpl; lia|done| |done].
    intros db' Hok' Hrow db2 _ Heff. left.
    eapply (changed_step c id t0 (sql_now env) _ r r' (mkChange (scanExecution r') (Some (EventRestarted, EmptyString))));
      [done|done|done|done| |done|exact Heff].
    unfold pg_change, call_change, c, restart_change. cbn [scanExecution e_PipelineRunID e_Status andb].
    rewrite H1. assert (is_active (tr_status r) = false) as -> by (destruct (tr_status r); done).
    by destruct r.
Qed.

(** Every call. *)
Lemma pg_call_atomic {A} (c : Call A) w :
  pg_call_ok c → idle w →
  wp (pg_call c) (λ r w', idle w' ∧ outcome (pg_steps c (DBof w)) (DBof w) r (DBof w')) w.
Proof.
  intros Hok Hi.
  assert (∀ m : M W A, wp m (λ r w', idle w' ∧ outcome (pg_step c) (DBof w) r (DBof w')) w →
    wp m (λ r w', idle w' ∧ outcome (pg_steps c (DBof w)) (DBof w) r (DBof w')) w) as Hleft.
  { intros m Hm. eapply wp_mono; [exact Hm|]. intros r w' [Hi' Ho]. split; [done|].
    eapply pg_outcome_mono; [|exact Ho]. intros a x b Hs. by left. }
  destruct c; cbn [pg_call]; [apply Hleft..|].
  - by apply pg_Heartbeat_atomic.
  - by apply pg_Succeed_atomic.
  - by apply pg_Retry_atomic.
  - by apply pg_Fail_atomic.
  - by apply pg_Cancel_atomic.
  - by apply pg_Release_atomic.
  - by apply pg_Restart_atomic.
Qed.
End Calls.
