(* ===== verification/PgDelivery.v ===== *)
(** * Delivery on Postgres

    [Claim] and [ReapExpired]: one statement selects and locks the rows that nobody else holds, and the
    whole call takes effect at its commit. *)

From S2P Require Import Prelude GoLib GoText Model Memory MemoryInv StoreSpec MemoryProps.
From S2P Require Import PgTables Postgres PgServer PgTx PgStmts PgSpec PgRows.

(** ** Rows that are due *)

Lemma routed_keys keys r :
  routed keys r = bool_decide (mkTaskKey (tr_task_name r) (tr_task_version r) ∈ keys).
Proof.
  apply eq_true_iff_eq. rewrite bool_decide_eq_true. unfold routed. rewrite existsb_exists. split.
  - intros (k & Hk%list_elem_of_In & Heq). reflect_bool. destruct k; simpl in *; by subst.
  - intros Hk. eexists. split; [by apply list_elem_of_In|]. simpl. by rewrite !bool_decide_true.
Qed.

Lemma due_claimable keys r now :
  row_ok r → routed keys r && due r now = claimable keys now (scanExecution r).
Proof.
  intros Hr. rewrite routed_keys. unfold due, claimable. cbn [scanExecution e_TaskName e_TaskVersion e_AvailableAt e_Status e_LeaseUntil e_MaxAttempts e_Attempt].
  destruct (bool_decide (mkTaskKey _ _ ∈ keys)); [|done]. cbn [andb].
  destruct (After (tr_available_at r) now); [done|]. cbn [negb andb].
  replace (negb (tr_max_attempts r <=? tr_attempt r)%Z) with (tr_attempt r <? tr_max_attempts r)%Z
    by (destruct (Z.ltb_spec (tr_attempt r) (tr_max_attempts r)), (Z.leb_spec (tr_max_attempts r) (tr_attempt r)); lia || done).
  f_equal. pose proof (row_lease _ Hr) as Hl. destruct (tr_status r) eqn:Hs; try done.
  destruct (Hl eq_refl) as [_ [u ->]]. done.
Qed.

Lemma row_less_claim a b :
  Before (tr_available_at a) (tr_available_at b)
    || (Equal (tr_available_at a) (tr_available_at b) && Before (tr_created_at a) (tr_created_at b))
  = claim_less (scanExecution a) (scanExecution b).
Proof.
  unfold claim_less. cbn [scanExecution e_AvailableAt e_CreatedAt]. unfold Before, Equal.
  destruct (Z.eqb_spec (tr_available_at a) (tr_available_at b)) as [->|]; [|by rewrite orb_false_r].
  by rewrite Z.ltb_irrefl.
Qed.

Definition sorted_rows (l : list TaskRow) : list TaskRow :=
  sort_Slice (λ a b, Before (tr_available_at a) (tr_available_at b)
      || (Equal (tr_available_at a) (tr_available_at b) && Before (tr_created_at a) (tr_created_at b))) l.

Lemma sorted_rows_due l :
  StronglySorted (λ a b, due_before (scanExecution a) (scanExecution b)) (sorted_rows l).
Proof.
  unfold sorted_rows. set (less := λ a b : TaskRow, _ || _).
  assert (∀ a b, less b a = false ↔ due_before (scanExecution a) (scanExecution b)) as Hless.
  { intros a b. unfold less. cbv beta. rewrite row_less_claim. apply claim_less_due. }
  assert (StronglySorted (λ a b, less b a = false) (sort_Slice less l)) as Hs.
  { apply sort_Slice_sorted.
    - intros a b. rewrite <-not_false_iff_true, !Hless. unfold due_before. lia.
    - intros a b c. rewrite !Hless. unfold due_before. lia. }
  induction Hs as [|a k Hk IH Ha]; constructor; [done|]. eapply Forall_impl; [exact Ha|]. intros b. apply Hless.
Qed.

Section Candidates.
Context (keys : list TaskKey) (limit : Z) (env : SqlEnv) (db : DB) (Henv : env_ok env db) (Hok : db_ok db).

Abbreviation candidates := (claim_candidates keys limit env db).
Abbreviation free r := (sql_locked env (tr_id r) = false).

Lemma elem_of_due r P :
  r ∈ tasks_where env (λ r, routed keys r && due r (sql_now env) && P r) db ↔
  db_tasks db !! tr_id r = Some r ∧ claimable keys (sql_now env) (scanExecution r) = true ∧ P r = true.
Proof using Henv Hok.
  rewrite elem_of_tasks_where by done. rewrite andb_true_iff. split; intros [Hr HP];
    (assert (row_ok r) as Hrok by (by apply (ok_task _ Hok _ _ Hr))); rewrite due_claimable in * by done; done.
Qed.

Lemma NoDup_candidates : NoDup (tr_id <$> candidates).
Proof using Henv Hok.
  unfold claim_candidates. set (l := sort_Slice _ _).
  assert (NoDup (tr_id <$> l)) as Hn.
  { unfold l. rewrite (fmap_Permutation tr_id _ _ (sort_Slice_perm _ _)). by apply NoDup_tasks_where. }
  rewrite <-(take_drop (Z.to_nat limit) l), fmap_app in Hn. by apply NoDup_app in Hn as [Hn _].
Qed.

(** A due row that nobody holds is taken, or as many rows as asked for come before it. *)
Lemma candidates_first r :
  (0 ≤ limit)%Z → db_tasks db !! tr_id r = Some r →
  claimable keys (sql_now env) (scanExecution r) = true → free r →
  r ∈ candidates ∨ Z.of_nat (length candidates) = limit ∧
    ∀ x, x ∈ candidates → due_before (scanExecution x) (scanExecution r).
Proof using Henv Hok.
  intros Hl Hr Hc Hf. unfold claim_candidates. set (l := tasks_where _ _ _).
  assert (r ∈ l) as Hin by (apply elem_of_due; split_and!; [done|done|by rewrite Hf]).
  change (sort_Slice _ l) with (sorted_rows l).
  assert (r ∈ sorted_rows l) as Hin' by (unfold sorted_rows; by rewrite elem_of_sort_Slice).
  rewrite <-(take_drop (Z.to_nat limit) (sorted_rows l)) in Hin'. apply elem_of_app in Hin' as [Hin'|Hin']; [by left|].
  right. split.
  - rewrite length_take. assert (length (sorted_rows l) - Z.to_nat limit ≠ 0)%nat as Hlen; [|lia].
    rewrite <-length_drop. by destruct (drop _ _); [apply elem_of_nil in Hin'|].
  - intros x Hx. pose proof (sorted_rows_due l) as Hs. rewrite <-(take_drop (Z.to_nat limit) (sorted_rows l)) in Hs.
    by apply StronglySorted_app_2 in Hs as (_ & _ & Hs); apply Hs.
Qed.

Lemma length_candidates : (0 ≤ limit)%Z → (Z.of_nat (length candidates) ≤ limit)%Z.
Proof using. intros Hl. unfold claim_candidates. rewrite length_take. lia. Qed.

(** The rows that the UPDATE returns. *)
Definition claimed_rows : list TaskRow :=
  tasks_where env (λ r, bool_decide (tr_id r ∈ task_ids candidates)) db.

Lemma claimed_rows_perm : claimed_rows ≡ₚ candidates.
Proof using Henv Hok.
  apply NoDup_Permutation.
  - apply (NoDup_fmap_1 tr_id), NoDup_tasks_where; done.
  - apply (NoDup_fmap_1 tr_id), NoDup_candidates.
  - intros r. unfold claimed_rows. rewrite elem_of_tasks_where, bool_decide_eq_true, elem_of_task_ids by done. split.
    + intros [Hr (r' & Hr' & Hid)]. pose proof Hr' as (Hr2 & _)%elem_of_candidates; [|done..].
      rewrite Hid, Hr in Hr2. by simplify_eq.
    + intros Hr. split; [by eapply elem_of_candidates|]. by exists r.
Qed.
End Candidates.

(** ** Claims *)

Section Delivery.
Context `{E : GoEnv} {J : Jsonb} {W : Type} `{!PgClient W} {SV : PgServer W} {HL : PgLaws (W := W)}.

Abbreviation DBof w := (pg_db (pg_state (W := W) w)).
Abbreviation rely := (pg_rely (W := W)).
Abbreviation held := (pg_held (W := W)).
Abbreviation transport := (pg_transport (W := W)).
Abbreviation moved := (PgTx.moved (W := W)).
Abbreviation outcome := (PgTx.outcome (W := W)).
Abbreviation settled := (PgTx.settled (W := W)).

(** What a claim selects at the instant [t], at which the tables are [db] and other transactions may hold
    the rows [held]: rows that are due, at most [limit], and among those that nobody holds the ones due
    first; each gets a new token. *)
Record selection (keys : list TaskKey) (limit : Z) (t : Time) (token : UUID → UUID) (held : UUID → Prop)
    (db : DB) (rows : list TaskRow) : Prop := {
  sel_clock : pg_clock t;
  sel_distinct : NoDup (tr_id <$> rows);
  sel_limit : (Z.of_nat (length rows) ≤ limit)%Z;
  sel_due : ∀ row, row ∈ rows → db_tasks db !! tr_id row = Some row ∧
    claimable keys t (scanExecution row) = true;
  sel_first : ∀ row, db_tasks db !! tr_id row = Some row → claimable keys t (scanExecution row) = true →
    ¬ held (tr_id row) →
    row ∈ rows ∨ Z.of_nat (length rows) = limit ∧
      ∀ x, x ∈ rows → due_before (scanExecution x) (scanExecution row);
  sel_token : ∀ id, token id ≠ uuid_Nil;
  sel_new : ∀ id i row, db_tasks db !! i = Some row → tr_lease_token row ≠ Some (token id);
  sel_inj : ∀ id id', token id = token id' → id = id';
}.

Definition claim_of (owner : string) (lease : Duration) (t : Time) (token : UUID → UUID) (row : TaskRow)
    : Execution :=
  claimed_execution owner (Milliseconds lease * Millisecond) t (token (tr_id row)) (scanExecution row).

(** The step of a claim that started in [db0]: the rows selected at an instant [db1] of the call are still
    the same when it takes effect, in [db]. *)
Definition claim_step (keys : list TaskKey) (owner : string) (limit : Z) (lease : Duration) (db0 db : DB)
    (r : error + list Execution) (db' : DB) : Prop :=
  ∃ t token rows f db1, rely db0 db1 ∧ rely db1 db ∧ selection keys limit t token (held db1) db1 rows ∧
    (∀ row, row ∈ rows → db_tasks db !! tr_id row = Some row ∧
       scanExecution (f row) = claim_of owner lease t token row) ∧
    (∀ row, same_identity (scanExecution row) (scanExecution (f row))) ∧
    r = inr (claim_of owner lease t token <$> rows) ∧
    effect db (map_tasks (task_ids rows) f (db_tasks db)) (db_runs db)
      ((λ row, (tr_id row, EventStarted, tr_attempt row + 1, EmptyString)%Z) <$> rows) db'.

Definition claim_ok (keys : list TaskKey) (owner : string) : Prop :=
  forallb (λ k, text_arg (k_Name k) && int_arg (k_Version k)) keys && text_arg owner = true.

Lemma scan_claimed owner ms env r :
  row_ok r → due r (sql_now env) = true →
  scanExecution (claimed_row owner ms env r) =
    claimed_execution owner (ms * Millisecond) (sql_now env) (sql_token env (tr_id r)) (scanExecution r).
Proof.
  intros Hr [Hd _]%due_attempts. unfold claimed_execution.
  assert (int64 (e_Attempt (scanExecution r) + 1) = tr_attempt r + 1)%Z as ->.
  { apply int64_id. cbn. unfold MaxInt64. destruct Hr. lia. }
  unfold scanExecution, claimed_row. cbn. f_equal. by destruct (tr_started_at r).
Qed.

Lemma claimed_row_identity owner ms env r :
  same_identity (scanExecution r) (scanExecution (claimed_row owner ms env r)).
Proof. by destruct r. Qed.

Lemma claimed_rows_due keys limit env db row :
  env_ok env db → db_ok db → row ∈ claimed_rows keys limit env db →
  db_tasks db !! tr_id row = Some row ∧ row_ok row ∧
  claimable keys (sql_now env) (scanExecution row) = true ∧ due row (sql_now env) = true.
Proof.
  intros Henv Hok Hrow. rewrite claimed_rows_perm in Hrow by done.
  apply elem_of_candidates in Hrow as (H1 & H2 & H3); [|done..].
  assert (row_ok row) as Hrok by (by apply (ok_task _ Hok _ _ H1)). split_and!; [done|done| |done].
  by rewrite <-due_claimable, H2, H3.
Qed.

Lemma free_unheld env (others : UUID → Prop) id :
  (∀ id, sql_locked env id = true → others id) → ¬ others id → sql_locked env id = false.
Proof. intros Hheld Hid. destruct (sql_locked env id) eqn:Hl; [by destruct Hid; apply Hheld|done]. Qed.

Lemma claimed_selection keys limit env (others : UUID → Prop) db :
  (0 ≤ limit)%Z → env_ok env db → db_ok db → (∀ id, sql_locked env id = true → others id) →
  selection keys limit (sql_now env) (sql_token env) others db (claimed_rows keys limit env db).
Proof.
  intros Hlim Henv Hok Hheld. pose proof (claimed_rows_perm keys limit env db Henv Hok) as Hperm.
  split; [apply Henv|by apply NoDup_tasks_where| | | |apply Henv|by eapply env_token_new|by eapply env_token_inj].
  - rewrite Hperm. by apply length_candidates.
  - intros row Hrow. by destruct (claimed_rows_due _ _ _ _ _ Henv Hok Hrow) as (H1 & _ & H2 & _).
  - intros row H1 H2 H3%(free_unheld env others (tr_id row) Hheld). rewrite Hperm.
    destruct (candidates_first keys limit env db Henv Hok row) as [?|[H4 H5]]; [done..|by left|right]. split; [done|]. intros x. rewrite Hperm. apply H5.
Qed.

Lemma pg_Claim_atomic owner keys limit lease w :
  claim_ok keys owner → idle w →
  wp (Postgres.Claim owner keys limit lease) (λ r w', idle w' ∧
    (keys = [] ∧ r = inr [] ∧ DBof w' = DBof w ∨
     outcome (claim_step keys owner (if (limit <=? 0)%Z then 1%Z else limit) lease (DBof w)) (DBof w) r (DBof w'))) w.
Proof.
  intros Hargs Hi. unfold Postgres.Claim. cbv zeta. set (lim := if (limit <=? 0)%Z then 1%Z else limit).
  assert (0 ≤ lim)%Z as Hlim by (unfold lim; destruct (Z.leb_spec limit 0); lia).
  destruct keys as [|k0 ks]; [apply wp_ret; split; [done|by left]|]. set (keys := k0 :: ks) in *.
  set (step := claim_step keys owner lim lease (DBof w)).
  apply (wp_mono _ (λ r w', idle w' ∧ outcome step (DBof w) r (DBof w'))); cycle 1.
  { intros r w' [Hi' Ho']. split; [done|by right]. }
  apply wp_transaction; [done|]. intros now w1 Hclk Ho Hrel _. apply wp_bind.
  eapply (wp_tx_query_skip (λ _, True) _ (empty_tx now)); [done|apply stmt_ok_claim|done|..].
  { intros e w2 Hok Hr Ht. by apply settled_failed. }
  intros env w2 Henv Hnow Hheld [Hrel2 _] Hok _ _. rewrite view_empty in *. cbn [empty_tx tx_now] in Hnow. subst now.
  unfold claim_tasks, checked. unfold claim_ok in Hargs. rewrite Hargs.
  set (ms := Milliseconds lease). set (f := claimed_row owner ms).
  set (P := λ r, bool_decide (tr_id r ∈ task_ids (claim_candidates keys lim env (DBof w2)))).
  destruct (update_tasks P f env (DBof w2)) as [e|o] eqn:Hup; [done|]. intros Hopen.
  pose proof (changes_update P f env (sql_now env) w2 o id Henv Hok Hup Hopen) as Hc.
  set (rows := claimed_rows keys lim env (DBof w2)) in *. change (tasks_where env P (DBof w2)) with rows in Hc.
  assert (out_value o = f env <$> rows) as -> by (unfold update_tasks in Hup; by injection Hup as <-).
  pose proof (λ row, claimed_rows_due keys lim env (DBof w2) row Henv Hok) as Hrows. fold rows in Hrows.
  apply wp_bind. eapply (wp_changes_events _ _ _ _ _ _ _ _ [] _ Hc).
  - rewrite !Forall_fmap, Forall_forall. intros row Hrow. cbn. destruct (Hrows _ Hrow) as (H1 & [] & _ & [Hd _]%due_attempts).
    split; [|lia]. apply elem_of_task_ids. by exists row.
  - intros e w3 Hok3 Hr3 Ht3. apply settled_failed; [done|by eapply pg_rely_then|done].
  - intros tx3 w3 [Hrel3 Hh3] _ Hc3. eapply (wp_changes_commit tx3); [done|by eapply pg_rely_then; [|done]|].
    intros db' db2 Hrel' Hok' Hsame _ Heff.
    exists (sql_now env), (sql_token env), rows, (f env), (DBof w2).
    split; [by eapply pg_rely_then|]. split; [by eapply pg_rely_then|].
    assert (scanExecution <$> (f env <$> rows) = claim_of owner lease (sql_now env) (sql_token env) <$> rows) as Hres.
    { rewrite <-list_fmap_compose. apply list_fmap_ext. intros i row Hrow%list_elem_of_lookup_2.
      destruct (Hrows _ Hrow) as (_ & H1 & _ & H2). by apply scan_claimed. }
    split; [by apply claimed_selection|split; [|split; [|split]]].
    + intros row Hrow. destruct (Hrows _ Hrow) as (H1 & H2 & _ & H3). split; [|by apply scan_claimed].
      assert (tr_id row ∈ task_ids rows) as Hin by (apply elem_of_task_ids; by exists row).
      rewrite (Hsame _ Hin). rewrite (holds_tasks _ _ _ Hh3); [done|]. by rewrite (cs_tasks _ _ _ _ _ _ _ Hc).
    + intros row. apply claimed_row_identity.
    + by rewrite Hres.
    + rewrite map_runs_none in Heff. rewrite app_nil_l, <-!list_fmap_compose in Heff. exact Heff.
Qed.

(** ** The reaper *)

Lemma lapsed_expired r now : row_ok r → lapsed r now = expired now (scanExecution r).
Proof.
  intros Hr. unfold lapsed, expired. cbn [scanExecution e_Status e_LeaseUntil e_Attempt e_MaxAttempts].
  replace (negb (tr_attempt r <? tr_max_attempts r)%Z) with (tr_max_attempts r <=? tr_attempt r)%Z
    by (destruct (Z.ltb_spec (tr_attempt r) (tr_max_attempts r)), (Z.leb_spec (tr_max_attempts r) (tr_attempt r)); lia || done).
  f_equal. case_bool_decide as Hs; [|done]. by destruct (row_lease _ Hr Hs) as [_ [u ->]].
Qed.

Definition reaped_row (now : Time) (r : TaskRow) : TaskRow :=
  unleased (r <| tr_status := StatusFailed |> <| tr_last_error := lease_expired_text |>
    <| tr_finished_at := Some now |>).

Lemma scan_reaped now r : scanExecution (reaped_row now r) = reaped_execution now (scanExecution r).
Proof. by destruct r. Qed.

Definition runs_of (rows : list TaskRow) : gset UUID := list_to_set (omap tr_pipeline_run_id rows).

(** The step of the reaper: the rows it fails were, at an instant [db1] of the call, running with an expired
    lease and no attempt left, and every such row that no other transaction held is among them. *)
Definition reap_step (db0 db : DB) (r : error + gset UUID) (db' : DB) : Prop :=
  ∃ t rows db1, pg_clock t ∧ rely db0 db1 ∧ rely db1 db ∧ NoDup (tr_id <$> rows) ∧
    (∀ row, row ∈ rows → db_tasks db1 !! tr_id row = Some row ∧ expired t (scanExecution row) = true) ∧
    (∀ row, db_tasks db1 !! tr_id row = Some row → expired t (scanExecution row) = true →
       ¬ held db1 (tr_id row) → row ∈ rows) ∧
    (∀ row, row ∈ rows → db_tasks db !! tr_id row = Some row) ∧
    r = inr (runs_of rows) ∧
    effect db (map_tasks (task_ids rows) (reaped_row t) (db_tasks db)) (db_runs db)
      ((λ row, (tr_id row, EventFailed, tr_attempt row, lease_expired_text)) <$> rows) db'.

(** The rows of which the identifier is among [ids] are failed. *)
Definition reaped_among (ids : list UUID) (t : Time) (r : TaskRow) : TaskRow :=
  if bool_decide (tr_id r ∈ ids) then reaped_row t r else r.

Lemma reaped_among_not ids t r : tr_id r ∉ ids → reaped_among ids t r = r.
Proof. intros H. unfold reaped_among. by rewrite bool_decide_false. Qed.

Lemma reaped_among_in ids t r : tr_id r ∈ ids → reaped_among ids t r = reaped_row t r.
Proof. intros H. unfold reaped_among. by rewrite bool_decide_true. Qed.

Lemma reaped_among_other ids i t r : tr_id r ≠ i → reaped_among (ids ++ [i]) t r = reaped_among ids t r.
Proof. intros H. unfold reaped_among. rewrite (bool_decide_ext _ (tr_id r ∈ ids)); [done|]. set_solver. Qed.

(** What the loop does about one row. *)
Lemma wp_reap_one {A} now ids fails row tx w log (k : M W A) (Q : error + A → W → Prop) :
  let item := scanExecution row <| e_LastError := lease_expired_text |> in
  changes tx w ids (reaped_among fails now) ∅ id log → tr_id row ∈ ids → tr_id row ∉ fails →
  db_tasks (DBof w) !! tr_id row = Some row → row_ok row → tx_now tx = now →
  (∀ e w', db_ok (DBof w') → rely (DBof w) (DBof w') → transport e → Q (inl e) w') →
  (∀ tx' w', moved tx w w' → tx_now tx' = now →
     changes tx' w' ids (reaped_among (fails ++ [tr_id row]) now) ∅ id
       (log ++ [(tr_id row, EventFailed, tr_attempt row, lease_expired_text)]) → wp k Q w') →
  wp (_ ← tx_Query (fail_lapsed (e_ID item) (e_LastError item));
      _ ← insertEvent item EventFailed (e_LastError item); k) Q w.
Proof.
  intros item Hc Hid Hnot Hdbrow Hrok Hnow HQ1 HQ2. apply wp_bind.
  eapply (wp_tx_query _ tx); [by destruct Hc|apply stmt_ok_fail_lapsed|done|].
  intros env w1 Henv Hnow1 Hm Hok1 Hv1 _.
  change (fail_lapsed _ _) with (update_tasks (λ r, bool_decide (tr_id r = tr_id row)) (λ env r, reaped_row (sql_now env) r)).
  rewrite (update_one env _ _ _ (tr_id row)) by (done || by intros x Hx; reflect_bool).
  destruct (changes_view _ _ _ _ _ _ _ _ Hc Hm) as [Ht _]. destruct (Ht _ Hid) as (r & Hr1 & Hr2 & Hr3).
  assert (r = row) as -> by (rewrite Hdbrow in Hr1; by injection Hr1).
  rewrite Hr3, reaped_among_not, bool_decide_true, Hnow1, Hnow by done. set (o := mkOutcome _ _ _ _). intros Hopen.
  assert (changes (tx_write tx (view tx (DBof w1)) o) w1 ids (reaped_among (fails ++ [tr_id row]) now) ∅ id log) as Hc1.
  { eapply (changes_write tx w w1 ids (reaped_among fails now) _ _ _ _ (tr_id row) row); [done..| | |exact Hopen].
    - intros i r' Hne Hr'. apply (ok_task _ (open_ok _ _ (cs_open _ _ _ _ _ _ _ Hc))) in Hr' as [<- _].
      by apply reaped_among_other.
    - by rewrite reaped_among_in by set_solver. }
  cbn [out_value]. apply wp_bind.
  eapply (wp_changes_event item _ _ _ _ _ _ _ _ _ _ Hc1); [done|destruct Hrok; cbn; lia|done|..].
  - intros e w2 Hok Hr Ht2. apply HQ1; [done|eapply pg_rely_then; [apply Hm|done]|done].
  - intros tx2 w2 Hm2 Hnow2 Hc2. apply (HQ2 tx2); [|by rewrite Hnow2|done].
    split; [eapply pg_rely_then; [apply Hm|apply Hm2]|]. eapply holds_trans; [apply Hm|].
    destruct Hm2 as [_ [H1 H2 H3]]. split.
    + intros i Hi. apply H1. by apply elem_of_union_r.
    + intros i Hi. apply H2. by apply elem_of_union_r.
    + intros i Hi. apply H3. unfold o. cbn [tx_write tx_events out_db put_task db_events].
      by rewrite diff_same, (left_id_L ∅ _).
Qed.

Lemma wp_reap_loop now ids db (Q : error + gset UUID → W → Prop) : ∀ todo fails runs tx w log,
  NoDup (tr_id <$> todo) → (∀ row, row ∈ todo → tr_id row ∈ ids ∧ tr_id row ∉ fails ∧
    db_tasks db !! tr_id row = Some row ∧ row_ok row) → tx_now tx = now →
  changes tx w ids (reaped_among fails now) ∅ id log → rely db (DBof w) →
  (∀ i, i ∈ ids → db_tasks (DBof w) !! i = db_tasks db !! i) →
  (∀ e w', db_ok (DBof w') → rely db (DBof w') → transport e → Q (inl e) w') →
  (∀ tx' w', rely db (DBof w') → (∀ i, i ∈ ids → db_tasks (DBof w') !! i = db_tasks db !! i) →
     changes tx' w' ids (reaped_among (fails ++ (tr_id <$> todo)) now) ∅ id
       (log ++ ((λ row, (tr_id row, EventFailed, tr_attempt row, lease_expired_text)) <$> todo)) →
     Q (inr (runs_of todo ∪ runs)) w') →
  wp (reap_loop (scanExecution <$> todo) runs) Q w.
Proof.
  induction todo as [|row todo IH]; intros fails runs tx w log Hn Htodo Hnow Hc Hrel Hsame HQ1 HQ2.
  { cbn [reap_loop fmap list_fmap]. apply wp_ret. replace runs with (runs_of [] ∪ runs) by set_solver.
    apply (HQ2 tx); [done|done|]. by rewrite !app_nil_r. }
  rewrite fmap_cons in Hn. apply NoDup_cons in Hn as [Hni Hn].
  destruct (Htodo row) as (Hid & Hnot & Hdbrow & Hrok); [left|].
  rewrite fmap_cons. cbn [reap_loop]. cbv zeta.
  eapply (wp_reap_one now ids fails row tx); [done..|by rewrite Hsame|done|done| |].
  { intros e w1 Hok Hr Ht. apply HQ1; [done|by eapply pg_rely_then|done]. }
  intros tx1 w1 Hm Hnow1 Hc1. assert (rely db (DBof w1)) as Hrel1 by (eapply pg_rely_then; [done|apply Hm]).
  eapply (IH (fails ++ [tr_id row]) _ tx1 w1 _ Hn); [|done|exact Hc1|done| |done|].
  - intros row' Hrow'. destruct (Htodo row') as (H1 & H2 & H3 & H4); [by right|]. split_and!; [done| |done|done].
    intros [?|Heq%list_elem_of_singleton]%elem_of_app; [done|]. apply Hni. rewrite <-Heq. by apply list_elem_of_fmap_2.
  - intros i Hi. rewrite (holds_tasks _ _ _ (proj2 Hm)) by (rewrite (cs_tasks _ _ _ _ _ _ _ Hc); done). by apply Hsame.
  - intros tx' w' Hr' Hs' Hc'.
    assert (runs_of todo ∪ match tr_pipeline_run_id row with Some run => {[run]} ∪ runs | None => runs end
      = runs_of (row :: todo) ∪ runs) as Hruns.
    { unfold runs_of. cbn [omap list_omap]. destruct (tr_pipeline_run_id row); set_solver. }
    cbn [e_PipelineRunID scanExecution set_field]. change (e_PipelineRunID _) with (tr_pipeline_run_id row). rewrite Hruns.
    apply (HQ2 tx'); [done|done|]. by rewrite <-!app_assoc in Hc'.
Qed.

Lemma pg_ReapExpired_atomic w :
  idle w →
  wp Postgres.ReapExpired (λ r w', idle w' ∧ ∃ ro, outcome (reap_step (DBof w)) (DBof w) ro (DBof w') ∧
    match ro with inl e => r = inl e | inr runs => ∃ l, r = inr l ∧ l ≡ₚ elements runs end) w.
Proof.
  intros Hi. unfold Postgres.ReapExpired. apply wp_bind.
  apply (wp_mono _ (λ r w', idle w' ∧ outcome (reap_step (DBof w)) (DBof w) r (DBof w'))); cycle 1.
  { intros ro w1 [Hi1 Ho1]. destruct ro as [e|runs].
    - split; [done|]. by exists (inl e).
    - eapply wp_mono; [apply law_range|]. intros r w' [(l & -> & Hl) Hst].
      split; [by apply (idle_same w1); rewrite ?Hst|]. exists (inr runs). rewrite Hst. split; [done|]. by exists l. }
  apply wp_transaction; [done|]. intros now w1 Hclk Ho Hrel _. apply wp_bind.
  eapply (wp_tx_query_skip (λ _, True) _ (empty_tx now)); [done|apply stmt_ok_lapsed|done|..].
  { intros e w2 Hok Hr Ht. by apply settled_failed. }
  intros env w2 Henv Hnow Hheld [Hrel2 _] Hok _ _. rewrite view_empty in *. cbn [empty_tx tx_now] in Hnow. subst now.
  unfold select_lapsed. set (rows := tasks_where _ _ _). intros Hopen. cbn [out_value].
  assert (∀ row, row ∈ rows ↔ db_tasks (DBof w2) !! tr_id row = Some row ∧
    expired (sql_now env) (scanExecution row) = true ∧ sql_locked env (tr_id row) = false) as Hrows.
  { intros row. unfold rows. rewrite elem_of_tasks_where, andb_true_iff, negb_true_iff by done.
    split; intros (Hr & H1 & H2); (assert (row_ok row) by (by apply (ok_task _ Hok _ _ Hr)));
      rewrite lapsed_expired in *; done. }
  pose proof (NoDup_tasks_where env (DBof w2) Henv Hok _ : NoDup (tr_id <$> rows)) as Hn.
  set (tx := tx_write _ _ _) in Hopen.
  assert (changes tx w2 (task_ids rows) (reaped_among [] (sql_now env)) ∅ id []) as Hc.
  { apply (changes_locked rows (sql_now env) w2 rows id); [|done]. intros row Hrow. by apply Hrows. }
  apply wp_bind. apply (wp_reap_loop (sql_now env) (task_ids rows) (DBof w2) _ rows [] ∅ tx w2 []); [done| |done|done|apply pg_rely_same|done|..].
  - intros row Hrow. pose proof (proj1 (Hrows row) Hrow) as [H1 _]. split_and!; [|set_solver|done|by apply (ok_task _ Hok _ _ H1)].
    apply elem_of_task_ids. by exists row.
  - intros e w3 Hok3 Hr3 Ht3. apply settled_failed; [done|by eapply pg_rely_then|done].
  - intros tx3 w3 Hrel3 Hsame Hc3. rewrite app_nil_l in Hc3. rewrite (right_id_L ∅ _).
    eapply (wp_changes_commit tx3); [done|by eapply pg_rely_then|].
    intros db' db2 Hrel' Hok' Hsame' _ Heff.
    exists (sql_now env), rows, (DBof w2).
    assert (∀ row, row ∈ rows → db_tasks db' !! tr_id row = Some row) as Hstill.
    { intros row Hrow. assert (tr_id row ∈ task_ids rows) as Hin by (apply elem_of_task_ids; by exists row).
      rewrite Hsame', Hsame by done. by apply Hrows. }
    split_and!; [done|by eapply pg_rely_then|by eapply pg_rely_then|done| | |done|done|].
    { intros row Hrow. by apply Hrows in Hrow as (? & ? & _). }
    { intros row H1 H2 H3. apply Hrows. split_and!; [done|done|]. by eapply free_unheld. }
    rewrite map_runs_none, app_nil_l in Heff.
    replace (map_tasks (task_ids rows) (reaped_row (sql_now env)) (db_tasks db'))
      with (map_tasks (task_ids rows) (reaped_among (tr_id <$> rows) (sql_now env)) (db_tasks db')); [done|].
    apply map_fmap_ext. intros i row Hrow. case_bool_decide as Hin; [|done]. apply reaped_among_in.
    unfold task_ids in Hin. by rewrite elem_of_list_to_set in Hin.
Qed.
End Delivery.
