(* ===== verification/PgCreate.v ===== *)
(** * Creation on Postgres

    [CreateExecution], [CreatePipelineRun] and [SetPipelineRunStatus]: the unique indexes of the schema
    decide which of several concurrent creations stores its record; the others find it. *)

From S2P Require Import Prelude GoLib GoText Model Memory MemoryInv StoreSpec.
From S2P Require Import PgTables Postgres PgServer PgTx PgStmts PgRows PgSpec PgCalls.

Section Create.
Context `{E : GoEnv} {J : Jsonb} {W : Type} `{!PgClient W} {SV : PgServer W} {HL : PgLaws (W := W)}.

Abbreviation DBof w := (pg_db (pg_state (W := W) w)).
Abbreviation rely := (pg_rely (W := W)).
Abbreviation transport := (pg_transport (W := W)).
Abbreviation Failed := (failed (W := W)).
Abbreviation moved := (PgTx.moved (W := W)).
Abbreviation open := (PgTx.open (W := W)).
Abbreviation outcome := (PgTx.outcome (W := W)).
Abbreviation settled := (PgTx.settled (W := W)).

(** ** Executions *)

(** The row of a request, made at the instant [now] of the process. *)
Definition request_row (request : CreateExecutionRequest) (id : UUID) (input : string) (now : Time) : TaskRow :=
  new_row id (c_TaskName request) (c_TaskVersion request) input
    (if (c_MaxAttempts request <=? 0)%Z then 1%Z else c_MaxAttempts request)
    (if IsZero (c_AvailableAt request) then now else c_AvailableAt request)
    (key_arg (c_IdempotencyKey request)) (c_PipelineRunID request) (c_NodeKey request) now.

(** The stored row stands for the request, by its idempotency key or as the node of its run. *)
Definition names_row (request : CreateExecutionRequest) (r : TaskRow) : Prop :=
  (c_IdempotencyKey request ≠ EmptyString ∧ tr_task_name r = c_TaskName request ∧
   tr_idempotency_key r = Some (c_IdempotencyKey request)) ∨
  (c_NodeKey request ≠ EmptyString ∧ is_Some (c_PipelineRunID request) ∧
   tr_pipeline_run_id r = c_PipelineRunID request ∧ tr_node_key r = c_NodeKey request).

(** ... or prevents its insertion; the index of nodes has the empty node key too. *)
Definition bars_row (request : CreateExecutionRequest) (r : TaskRow) : Prop :=
  names_row request r ∨
  (is_Some (c_PipelineRunID request) ∧ tr_pipeline_run_id r = c_PipelineRunID request ∧
   tr_node_key r = c_NodeKey request).

Definition searchable (request : CreateExecutionRequest) : bool :=
  negb (is_empty (c_IdempotencyKey request))
  || (bool_decide (is_Some (c_PipelineRunID request)) && negb (is_empty (c_NodeKey request))).

(** A new execution is stored when no stored one bars it. *)
Definition creation (request : CreateExecutionRequest) (db : DB) (r : error + Execution) (db' : DB) : Prop :=
  ∃ id now input, c_Input request ≫= jsonb = Some input ∧ db_tasks db !! id = None ∧
    let row := request_row request id input now in
    (∀ i x, db_tasks db !! i = Some x → ¬ bars_row request x) ∧
    r = inr (scanExecution row) ∧
    effect db (<[id := row]> (db_tasks db)) (db_runs db) [(id, EventCreated, 0%Z, EmptyString)] db'.

(** A request for a run that is not stored is refused. *)
Definition orphan (request : CreateExecutionRequest) (db : DB) (r : error + Execution) (db' : DB) : Prop :=
  r = inl (sql_error "violates foreign key constraint") ∧ db' = db ∧
  ∃ run, c_PipelineRunID request = Some run ∧ db_runs db !! run = None.

(** A request that was barred at an instant [db1] of the call is answered by the execution that stands
    for it at the instant [db]. *)
Definition existing (request : CreateExecutionRequest) (db0 db : DB) (r : error + Execution) (db' : DB) : Prop :=
  db' = db ∧ (∃ db1 i x, rely db0 db1 ∧ rely db1 db ∧ db_tasks db1 !! i = Some x ∧ bars_row request x) ∧
  if searchable request
  then (∃ i x, db_tasks db !! i = Some x ∧ names_row request x ∧ r = inr (scanExecution x)) ∨
       ((∀ i x, db_tasks db !! i = Some x → ¬ names_row request x) ∧ r = inl ErrNoRows)
  else r = inl (errorString "execution insert conflicted without an idempotency key").

Definition create_step (request : CreateExecutionRequest) (db0 db : DB) (r : error + Execution) (db' : DB) : Prop :=
  creation request db r db' ∨ orphan request db r db' ∨ existing request db0 db r db'.

(** The arguments that the server accepts. *)
Record request_ok (request : CreateExecutionRequest) : Prop := {
  rq_name : text_arg (c_TaskName request) = true;
  rq_version : int_arg (c_TaskVersion request) = true;
  rq_attempts : (c_MaxAttempts request < 2 ^ 31)%Z;
  rq_key : text_arg (c_IdempotencyKey request) = true;
  rq_node : text_arg (c_NodeKey request) = true;
  rq_input : is_Some (c_Input request ≫= jsonb);
}.

Lemma key_arg_some key k : key_arg key = Some k ↔ k = key ∧ key ≠ EmptyString.
Proof. unfold key_arg, is_empty. case_bool_decide; naive_solver. Qed.

Lemma conflict_bars request id input now r :
  tr_id r ≠ id → task_conflict (request_row request id input now) r = true ↔ bars_row request r.
Proof.
  intros Hne. unfold task_conflict, same_key, same_node, bars_row, names_row. cbn [request_row new_row tr_id tr_idempotency_key tr_task_name tr_pipeline_run_id tr_node_key].
  rewrite bool_decide_false by done. cbn [orb]. rewrite orb_true_iff. split.
  - intros [H|H].
    + destruct (key_arg _) as [k|] eqn:Hk; [|done]. apply key_arg_some in Hk as [-> Hk].
      destruct (tr_idempotency_key r) as [k'|] eqn:Hk'; [|done]. reflect_bool. subst. left. left. by rewrite H0.
    + destruct (c_PipelineRunID request) as [run|]; [|done]. destruct (tr_pipeline_run_id r) as [run'|]; [|done].
      reflect_bool. subst. right. split_and!; [by eexists|done|done].
  - intros [[(H1 & H2 & H3)|(H1 & [run H2] & H3 & H4)]|([run H2] & H3 & H4)].
    + left. assert (key_arg (c_IdempotencyKey request) = Some (c_IdempotencyKey request)) as -> by (by apply key_arg_some).
      rewrite H3. by rewrite !bool_decide_true.
    + right. rewrite H3, H2. by rewrite !bool_decide_true.
    + right. rewrite H3, H2. by rewrite !bool_decide_true.
Qed.

Lemma attempts_ok request :
  (c_MaxAttempts request < 2 ^ 31)%Z →
  let max := if (c_MaxAttempts request <=? 0)%Z then 1%Z else c_MaxAttempts request in
  (0 < max)%Z ∧ int_arg max = true.
Proof. intros H. unfold int_arg. destruct (Z.leb_spec (c_MaxAttempts request) 0); lia. Qed.

(** What the insertion does, when its arguments are accepted. *)
Lemma insert_task_eval request id now env db :
  request_ok request →
  ∃ input, c_Input request ≫= jsonb = Some input ∧
  insert_task id (c_TaskName request) (c_TaskVersion request) (c_Input request) StatusPending
    (if (c_MaxAttempts request <=? 0)%Z then 1%Z else c_MaxAttempts request)
    (if IsZero (c_AvailableAt request) then now else c_AvailableAt request)
    (key_arg (c_IdempotencyKey request)) (c_PipelineRunID request) (c_NodeKey request) now env db =
  let row := request_row request id input now in
  if existsb (task_conflict row) (task_values db) then inr (mkOutcome None db ∅ ∅) else
  if match c_PipelineRunID request with Some run => bool_decide (is_Some (db_runs db !! run)) | None => true end
  then inr (mkOutcome (Some row) (put_task db id row) {[id]} ∅)
  else inl (sql_error "violates foreign key constraint").
Proof.
  intros [H1 H2 H3 H4 H5 [input H6]]. exists input. split; [done|]. unfold insert_task.
  destruct (attempts_ok request H3) as [_ Hmax]. rewrite H1, H2, Hmax, H5.
  assert (match key_arg (c_IdempotencyKey request) with Some k => text_arg k | None => true end = true) as ->.
  { unfold key_arg. by destruct (is_empty _). }
  cbn [andb checked]. destruct (c_Input request) as [text|]; [|done]. cbn in H6. unfold json_arg. rewrite H6. done.
Qed.

(** The search for the execution that stands for a request. *)
Lemma select_existing_eval request env db key node :
  env_ok env db → db_ok db →
  key = ((λ k, (c_TaskName request, k)) <$> key_arg (c_IdempotencyKey request)) →
  node = match c_PipelineRunID request with
         | Some run => if is_empty (c_NodeKey request) then None else Some (run, c_NodeKey request)
         | None => None
         end →
  ∃ row, select_existing key node env db = inr (mkOutcome row db ∅ ∅) ∧
    match row with
    | Some x => db_tasks db !! tr_id x = Some x ∧ names_row request x
    | None => ∀ i x, db_tasks db !! i = Some x → ¬ names_row request x
    end.
Proof.
  intros Henv Hok Hkey Hnode. unfold select_existing, query. set (P := λ r : TaskRow, _ || _).
  assert (∀ x, P x = true ↔ names_row request x) as HP.
  { intros x. unfold P, names_row. rewrite orb_true_iff, Hkey, Hnode. apply Morphisms_Prop.or_iff_morphism.
    - unfold key_arg, is_empty. case_bool_decide as He; cbn [fmap option_fmap option_map]; [naive_solver|].
      rewrite andb_true_iff, !bool_decide_eq_true. naive_solver.
    - unfold is_empty. destruct (c_PipelineRunID request) as [run|]; [|split; [done|by intros (_ & [? ?] & _)]].
      case_bool_decide as He; [naive_solver|]. rewrite andb_true_iff, !bool_decide_eq_true. naive_solver. }
  exists (head (tasks_where env P db)). split; [done|]. destruct (tasks_where env P db) as [|x l] eqn:Hl; cbn [head].
  - intros i x Hx Hn. assert (x ∈ tasks_where env P db) as Hin.
    { apply elem_of_tasks_where; [done..|]. destruct (ok_task _ Hok _ _ Hx) as [-> _]. by rewrite HP. }
    rewrite Hl in Hin. by apply elem_of_nil in Hin.
  - assert (x ∈ tasks_where env P db) as Hin by (rewrite Hl; left).
    apply elem_of_tasks_where in Hin as [H1 H2]; [|done..]. by rewrite HP in H2.
Qed.

(** The search after a refused insertion. *)
Lemma wp_search request db0 dbs w1 :
  idle w1 → rely dbs (DBof w1) →
  (∃ db1 i x, rely db0 db1 ∧ rely db1 (DBof w1) ∧ db_tasks db1 !! i = Some x ∧ bars_row request x) →
  let idem := key_arg (c_IdempotencyKey request) in
  wp (let key := (λ k, (c_TaskName request, k)) <$> idem in
      let node := match c_PipelineRunID request with
                  | Some run => if is_empty (c_NodeKey request) then None
                                else Some (run, c_NodeKey request)
                  | None => None
                  end in
      match key, node with
      | None, None => throw (errorString "execution insert conflicted without an idempotency key")
      | _, _ =>
          row ← db_Query (select_existing key node);
          match row with Some row => mret (scanExecution row) | None => throw ErrNoRows end
      end) (settled (create_step request db0) dbs) w1.
Proof.
  intros Hi Hrel (db1 & i & x & H1 & H2 & H3 & H4) idem. cbv zeta. set (key := _ <$> idem).
  set (node := match c_PipelineRunID request with
               | Some run => if is_empty (c_NodeKey request) then None else Some (run, c_NodeKey request)
               | None => None
               end).
  assert (searchable request = match key, node with None, None => false | _, _ => true end) as Hs.
  { unfold searchable, key, node, idem, key_arg, is_empty. destruct (c_PipelineRunID request); 
      repeat case_bool_decide; cbn; try done; try (exfalso; by eauto). }
  destruct (match key, node with None, None => false | _, _ => true end) eqn:Hkn; cycle 1.
  { destruct key eqn:Hk, node eqn:Hn; try done. apply wp_throw, settled_error; [apply Hi|done|]. right. right. split; [done|].
    split; [by exists db1, i, x|]. by rewrite Hs. }
  assert (∀ m m' : M W Execution, wp m' (settled (create_step request db0) dbs) w1 →
    wp (match key, node with None, None => m | _, _ => m' end) (settled (create_step request db0) dbs) w1) as Hm
    by (intros m m' Hm'; clear Hs; clearbody key node; by destruct key, node).
  apply Hm. apply wp_bind. apply wp_query; [done|apply stmt_ok_query|..].
  { intros e w2 Hi2 Hr Ht. apply settled_failed; [apply Hi2|exact (pg_rely_then _ _ _ Hrel Hr)|done]. }
  intros db env w2 r Hok Hr Henv Hi2 _.
  destruct (select_existing_eval request env db key node Henv Hok eq_refl eq_refl) as (row & -> & Hrow).
  cbn [out_db out_value]. intros Hdb Hrr. assert (rely dbs (DBof w2)) as Hrel2 by (rewrite Hdb; exact (pg_rely_then _ _ _ Hrel Hr)).
  destruct Hrr as [->|(e & -> & He)]; [|apply settled_failed; [apply Hi2|done|done]].
  assert (∀ r, (∃ i x, db_tasks db !! i = Some x ∧ names_row request x ∧ r = inr (scanExecution x)) ∨
       ((∀ i x, db_tasks db !! i = Some x → ¬ names_row request x) ∧ r = inl ErrNoRows) →
     create_step request db0 (DBof w2) r (DBof w2)) as Hstep.
  { intros r Hr'. right. right. rewrite Hdb. split; [done|]. split; [|by rewrite Hs].
    exists db1, i, x. split_and!; [done|exact (pg_rely_then _ _ _ H2 Hr)|done|done]. }
  destruct row as [row|].
  - apply wp_ret. split; [apply Hi2|]. eapply outcome_step; [exact Hrel2| |apply pg_rely_same]. apply Hstep. left.
    exists (tr_id row), row. naive_solver.
  - apply wp_throw, settled_error; [apply Hi2|done|]. apply Hstep. by right.
Qed.

(** Once the row is among the tables, whose constraints hold, no other row bars the request. *)
Lemma stored_not_barred request id input now db db2 log i x :
  db_ok db → db_ok db2 → db_tasks db !! id = None →
  effect db (<[id := request_row request id input now]> (db_tasks db)) (db_runs db) log db2 →
  db_tasks db !! i = Some x → ¬ bars_row request x.
Proof.
  intros Hok Hok2 Hid Heff Hx Hb. assert (i ≠ id) as Hne by congruence.
  destruct (ok_task _ Hok _ _ Hx) as [Hxi _]. assert (tr_id x ≠ id) as Hnx by congruence.
  apply (conflict_bars request id input now x Hnx) in Hb. unfold task_conflict in Hb.
  rewrite (bool_decide_false (tr_id x = _)) in Hb by done. cbn [orb] in Hb.
  apply Hne. symmetry. eapply (ok_unique _ Hok2); [..|exact Hb]; rewrite (eff_tasks _ _ _ _ _ Heff).
  - apply lookup_insert_eq.
  - by rewrite lookup_insert_ne.
Qed.

Lemma changed_insert {A} now w id row (x : A) :
  db_tasks (DBof w) !! id = None →
  open (tx_write (empty_tx now) (DBof w) (mkOutcome x (put_task (DBof w) id row) {[id]} ∅)) w →
  changed (tx_write (empty_tx now) (DBof w) (mkOutcome x (put_task (DBof w) id row) {[id]} ∅)) w id None row [].
Proof.
  intros Hid Hopen. split; [done|cbn; set_solver| |done| |].
  - cbn. rewrite diff_same. apply (left_id_L ∅ _).
  - rewrite <-(view_empty now (DBof w)) at 1. rewrite view_write. apply lookup_insert_eq.
  - exists ∅. split; [|split; [apply map_disjoint_empty_l|done]]. cbn. rewrite diff_same, fmap_empty.
    apply (left_id_L ∅ _).
Qed.

Lemma pg_CreateExecution_atomic request w :
  request_ok request → idle w →
  wp (Postgres.CreateExecution request)
    (λ r w', idle w' ∧ outcome (create_step request (DBof w)) (DBof w) r (DBof w')) w.
Proof.
  intros Hrq Hi. unfold Postgres.CreateExecution. apply wp_bind, wp_process_Now. intros now w0 _ Hst0. cbv zeta.
  apply wp_bind, wp_process_UUID. intros id w1 _ Hst1 Hres1.
  assert (DBof w1 = DBof w) as Hdb1 by (by rewrite Hst1, Hst0).
  assert (idle w1) as Hi1 by (apply (idle_same w); [done|by rewrite Hst1, Hst0|done]). rewrite <-Hdb1.
  destruct (attempts_ok request (rq_attempts _ Hrq)) as [Hmax _].
  apply wp_transaction; [done|]. intros t w2 Hclk Ho Hrel Hres. apply wp_bind.
  eapply (wp_tx_query _ (empty_tx t)); [done|apply stmt_ok_insert_task; [done|]|..].
  { intros Hk%key_arg_some. by destruct Hk as [<- ?]. }
  { intros e w3 Hok Hr Ht. by apply settled_failed. }
  intros env w3 Henv _ [Hrel3 _] Hok _ Hun. rewrite view_empty in *.
  destruct (Hun id (Hres id Hres1)) as [(Hid & _) _].
  destruct (insert_task_eval request id now env (DBof w3) Hrq) as (input & Hin & ->). cbv zeta.
  set (row := request_row request id input now).
  assert (∀ i x, db_tasks (DBof w3) !! i = Some x → tr_id x ≠ id) as Hne.
  { intros i x Hx. destruct (ok_task _ Hok _ _ Hx) as [-> _]. congruence. }
  destruct (existsb _ _) eqn:Hex.
  - rewrite write_nothing. intros Hopen. cbn [out_value]. apply wp_bind, wp_rollback; [done|].
    intros r w4 Hi4 Hr4 [->|[(e & -> & He)|Hnone]]; [| |by rewrite (open_tx _ _ Hopen) in Hnone].
    + apply wp_search; [done|by eapply pg_rely_then|].
      apply existsb_exists in Hex as (x & Hx%list_elem_of_In & Hc). apply (elem_of_rows (db_tasks (DBof w3))) in Hx as [i Hx].
      exists (DBof w3), i, x. split_and!; [by eapply pg_rely_then|done|done|]. by apply (conflict_bars _ _ _ _ _ (Hne _ _ Hx)) in Hc.
    + apply settled_failed; [apply Hi4|by eapply pg_rely_then|done].
  - destruct (match c_PipelineRunID request with Some _ => _ | None => true end) eqn:Hrun; cycle 1.
    { apply settled_error; [done|done|]. right. left. split; [done|]. split; [done|].
      destruct (c_PipelineRunID request) as [run|]; [|done]. exists run. split; [done|].
      apply bool_decide_eq_false in Hrun. by apply eq_None_not_Some. }
    intros Hopen. cbn [out_value]. cbv zeta.
    eapply (wp_record_commit _ _ _ _ _ id None row [] _ _ (scanExecution row));
      [by apply (changed_insert t w3 id row (Some row))|done|done|cbn; lia|done| |done].
    intros db' Hok' Hrow db2 Hok2 Heff. left. exists id, now, input. split; [done|]. split; [done|]. cbv zeta.
    split; [|split; [done|exact Heff]]. intros i x. by eapply stored_not_barred.
Qed.

(** ** Runs *)

(** The row of a run, and what the call returns of it: the instants with their nanoseconds and the input
    as given. *)
Definition run_row (request : CreatePipelineRunRequest) (id : UUID) (input : string) (now : Time) : RunRow :=
  mkRunRow id (cr_PipelineName request) (cr_PipelineVersion request) input RunPending EmptyString
    (key_arg (cr_IdempotencyKey request)) 0 (micro now) (micro now) None.

Definition new_run (request : CreatePipelineRunRequest) (id : UUID) (now : Time) : PipelineRun :=
  mkPipelineRun id (cr_PipelineName request) (cr_PipelineVersion request) (cr_Input request) RunPending
    EmptyString (cr_IdempotencyKey request) 0 now now None.

Definition names_run (request : CreatePipelineRunRequest) (r : RunRow) : Prop :=
  cr_IdempotencyKey request ≠ EmptyString ∧ rr_pipeline_name r = cr_PipelineName request ∧
  rr_idempotency_key r = Some (cr_IdempotencyKey request).

(** A new run is stored when no stored one has its key; otherwise the stored one is returned, unless it has
    gone meanwhile. *)
Definition create_run_step (request : CreatePipelineRunRequest) (db0 db : DB) (r : error + PipelineRun) (db' : DB)
    : Prop :=
  (∃ id now input, cr_Input request ≫= jsonb = Some input ∧ db_runs db !! id = None ∧
     (∀ i x, db_runs db !! i = Some x → ¬ names_run request x) ∧
     r = inr (new_run request id now) ∧ db' = put_run db id (run_row request id input now)) ∨
  (db' = db ∧ (∃ db1 i x, rely db0 db1 ∧ rely db1 db ∧ db_runs db1 !! i = Some x ∧ names_run request x) ∧
   ((∃ i x, db_runs db !! i = Some x ∧ names_run request x ∧ r = inr (scanPipelineRun x)) ∨
    ((∀ i x, db_runs db !! i = Some x → ¬ names_run request x) ∧ r = inl ErrNoRows))).

Record run_request_ok (request : CreatePipelineRunRequest) : Prop := {
  rr_name : text_arg (cr_PipelineName request) = true;
  rr_version : int_arg (cr_PipelineVersion request) = true;
  rr_key : text_arg (cr_IdempotencyKey request) = true;
  rr_input : is_Some (cr_Input request ≫= jsonb);
}.

Lemma run_conflict_names request id input now r :
  rr_id r ≠ id → run_conflict (run_row request id input now) r = true ↔ names_run request r.
Proof.
  intros Hne. unfold run_conflict, names_run. cbn [run_row rr_id rr_idempotency_key rr_pipeline_name].
  rewrite bool_decide_false by done. cbn [orb]. split.
  - destruct (key_arg _) as [k|] eqn:Hk; [|done]. apply key_arg_some in Hk as [-> Hk].
    destruct (rr_idempotency_key r) as [k'|]; [|done]. intros H. reflect_bool. subst. split_and!; done.
  - intros (H1 & H2 & H3).
    assert (key_arg (cr_IdempotencyKey request) = Some (cr_IdempotencyKey request)) as -> by (by apply key_arg_some).
    rewrite H3. by rewrite !bool_decide_true.
Qed.

Lemma insert_run_eval request id now env db :
  run_request_ok request →
  ∃ input, cr_Input request ≫= jsonb = Some input ∧
  insert_run id (cr_PipelineName request) (cr_PipelineVersion request) (cr_Input request) RunPending
    (key_arg (cr_IdempotencyKey request)) now env db =
  let row := run_row request id input now in
  if existsb (run_conflict row) (run_values db) then inr (mkOutcome 0%Z db ∅ ∅)
  else inr (mkOutcome 1%Z (put_run db id row) ∅ {[id]}).
Proof.
  intros [H1 H2 H3 [input H4]]. exists input. split; [done|]. unfold insert_run. rewrite H1, H2.
  assert (match key_arg (cr_IdempotencyKey request) with Some k => text_arg k | None => true end = true) as ->.
  { unfold key_arg. by destruct (is_empty _). }
  cbn [andb checked]. destruct (cr_Input request) as [text|]; [|done]. cbn in H4. unfold json_arg. by rewrite H4.
Qed.

Lemma select_run_key_eval name key env db :
  text_arg name = true → text_arg key = true → env_ok env db → db_ok db →
  ∃ row, select_run_key name key env db = inr (mkOutcome row db ∅ ∅) ∧
    match row with
    | Some x => db_runs db !! rr_id x = Some x ∧ rr_pipeline_name x = name ∧ rr_idempotency_key x = Some key
    | None => ∀ i x, db_runs db !! i = Some x → rr_pipeline_name x = name → rr_idempotency_key x ≠ Some key
    end.
Proof.
  intros H1 H2 Henv Hok. unfold select_run_key, query. rewrite H1, H2. cbn [andb checked]. set (P := λ r : RunRow, _ && _).
  exists (head (runs_where env P db)). split; [done|]. destruct (runs_where env P db) as [|x l] eqn:Hl; cbn [head].
  - intros i x Hx Hn Hk. assert (x ∈ runs_where env P db) as Hin.
    { apply elem_of_runs_where; [done..|]. destruct (ok_run _ Hok _ _ Hx) as [-> _]. split; [done|].
      unfold P. by rewrite !bool_decide_true. }
    rewrite Hl in Hin. by apply elem_of_nil in Hin.
  - assert (x ∈ runs_where env P db) as Hin by (rewrite Hl; left).
    apply elem_of_runs_where in Hin as [H3 H4]; [|done..]. unfold P in H4. by reflect_bool.
Qed.

Lemma pg_CreatePipelineRun_atomic request w :
  run_request_ok request → idle w →
  wp (Postgres.CreatePipelineRun request)
    (λ r w', idle w' ∧ outcome (create_run_step request (DBof w)) (DBof w) r (DBof w')) w.
Proof.
  intros Hrq Hi. unfold Postgres.CreatePipelineRun. apply wp_bind, wp_process_Now. intros now w0 _ Hst0.
  apply wp_bind, wp_process_UUID. intros id w1 _ Hst1 Hres. cbv zeta.
  cbn [r_ID r_PipelineName r_PipelineVersion r_Input r_Status].
  assert (DBof w1 = DBof w) as Hdb1 by (by rewrite Hst1, Hst0).
  assert (idle w1) as Hi1 by (apply (idle_same w); [done|by rewrite Hst1, Hst0|done]). rewrite <-Hdb1.
  apply wp_bind, wp_query; [done|apply stmt_ok_insert_run|..].
  { intros Hk%key_arg_some. by destruct Hk as [<- ?]. }
  { intros e w2 Hi2 Hr Ht. split; [done|]. eapply outcome_failed; [done|by exists e]. }
  intros db env w2 r Hok Hr Henv Hi2 Hun. destruct (Hun id Hres) as (_ & Hid & _).
  destruct (insert_run_eval request id now env db Hrq) as (input & Hin & ->). cbv zeta.
  set (row := run_row request id input now).
  assert (∀ i x, db_runs db !! i = Some x → rr_id x ≠ id) as Hne.
  { intros i x Hx. destruct (ok_run _ Hok _ _ Hx) as [-> _]. congruence. }
  destruct (existsb _ _) eqn:Hex; cbn [out_db out_value]; intros Hdb Hrr.
  - apply existsb_exists in Hex as (x & Hx%list_elem_of_In & Hc). apply (elem_of_rows (db_runs db)) in Hx as [i Hx].
    apply (run_conflict_names _ _ _ _ _ (Hne _ _ Hx)) in Hc. subst db. pose proof Hc as (Hkey & _).
    destruct Hrr as [->|(e & -> & He)]; [|split; [done|]; eapply outcome_failed; [done|by exists e]].
    cbn [Z.ltb Z.compare]. unfold is_empty. rewrite bool_decide_false by done. apply wp_bind, wp_query; [done| |..].
    { apply stmt_ok_checked, stmt_ok_query. }
    { intros e w3 Hi3 Hr3 Ht. split; [done|]. eapply outcome_failed; [by eapply pg_rely_then|by exists e]. }
    intros db env3 w3 r Hok3 Hr3 Henv3 Hi3 _.
    destruct (select_run_key_eval (cr_PipelineName request) (cr_IdempotencyKey request) env3 db) as (row3 & -> & Hrow3);
      [by destruct Hrq|by destruct Hrq|done|done|]. cbn [out_db out_value]. intros Hdb3 Hrr. subst db.
    assert (rely (DBof w1) (DBof w3)) as Hrel3 by (by eapply pg_rely_then).
    destruct Hrr as [->|(e & -> & He)]; [|split; [done|]; eapply outcome_failed; [done|by exists e]].
    assert (∀ r, (∃ i x, db_runs (DBof w3) !! i = Some x ∧ names_run request x ∧ r = inr (scanPipelineRun x)) ∨
       ((∀ i x, db_runs (DBof w3) !! i = Some x → ¬ names_run request x) ∧ r = inl ErrNoRows) →
      idle w3 ∧ outcome (create_run_step request (DBof w1)) (DBof w1) r (DBof w3)) as Hstep.
    { intros r' Hr'. split; [done|]. eapply outcome_step; [exact Hrel3| |apply pg_rely_same]. right. split; [done|].
      split; [|done]. exists (DBof w2), i, x. done. }
    destruct row3 as [x3|]; [apply wp_ret|apply wp_throw]; apply Hstep; [left|right].
    + exists (rr_id x3), x3. destruct Hrow3 as (H1 & H2 & H3). split_and!; done.
    + split; [|done]. intros j y Hy (_ & H2 & H3). by eapply Hrow3.
  - assert (create_run_step request (DBof w1) db (inr (new_run request id now)) (DBof w2)) as Hstep.
    { left. exists id, now, input. split_and!; [done|done| |done|done]. intros i x Hx Hn.
      apply (run_conflict_names request id input now x (Hne _ _ Hx)) in Hn.
      pose proof (proj1 (existsb_runs db _) Hex _ _ Hx) as Hf. fold row in Hn. congruence. }
    destruct Hrr as [->|(e & -> & He)].
    + cbn [Z.ltb Z.compare]. apply wp_ret. split; [done|]. by eapply outcome_step; [..|apply pg_rely_same].
    + split; [done|]. eapply outcome_lost; [done|done|apply pg_rely_same|by exists e].
Qed.

(** ** The status of a run *)

Definition status_row (status : RunStatus) (text : string) (now : Time) (r : RunRow) : RunRow :=
  r <| rr_status := status |> <| rr_error := text |> <| rr_updated_at := now |>
    <| rr_revision := (rr_revision r + 1)%Z |>
    <| rr_finished_at := if is_run_final status then Some now else None |>.

(** The update is made at an instant at which the stored revision is the expected one; a call that made
    none found at an instant [db1] that it was not, and then whether the run is stored. *)
Definition run_status_step (id : UUID) (revision : Z) (status : RunStatus) (text : string) (db0 db : DB)
    (r : error + unit) (db' : DB) : Prop :=
  (∃ t row, pg_clock t ∧ db_runs db !! id = Some row ∧ rr_revision row = revision ∧ r = inr tt ∧
     db' = put_run db id (status_row status text t row)) ∨
  (db' = db ∧ (∃ db1, rely db0 db1 ∧ rely db1 db ∧ ∀ row, db_runs db1 !! id = Some row → rr_revision row ≠ revision) ∧
   r = inl (if bool_decide (is_Some (db_runs db !! id)) then ErrConflict : error else ErrNotFound)) ∨
  (db' = db ∧ revision = MaxInt64 ∧ r = inl (sql_error "bigint out of range")).

Lemma set_run_status_eval id revision status text env db :
  (revision <= MaxInt64)%Z → text_arg text = true → env_ok env db → db_ok db →
  set_run_status id revision status text env db =
    match db_runs db !! id with
    | Some row =>
        if (rr_revision row =? revision)%Z then
          if (rr_revision row <? MaxInt64)%Z
          then inr (mkOutcome 1%Z (put_run db id (status_row status text (sql_now env) row)) ∅ {[id]})
          else inl (sql_error "bigint out of range")
        else inr (mkOutcome 0%Z db ∅ ∅)
    | None => inr (mkOutcome 0%Z db ∅ ∅)
    end.
Proof.
  intros Hrev Htext Henv Hok. unfold set_run_status. rewrite Htext, (proj2 (Z.leb_le _ _)) by done. cbn [andb checked].
  rewrite (update_run_one env db _ _ id) by (done || by intros r Hr; reflect_bool).
  destruct (db_runs db !! id) as [row|] eqn:Hrow; [|done].
  by rewrite (bool_decide_true (rr_id row = id)) by (by apply (ok_run _ Hok)).
Qed.

Lemma pg_SetPipelineRunStatus_atomic id revision status text w :
  (revision <= MaxInt64)%Z → text_arg text = true → idle w →
  wp (Postgres.SetPipelineRunStatus id revision status text)
    (λ r w', idle w' ∧ outcome (run_status_step id revision status text (DBof w)) (DBof w) r (DBof w')) w.
Proof.
  intros Hrev Htext Hi. unfold Postgres.SetPipelineRunStatus. apply wp_bind, wp_query; [done|apply stmt_ok_set_run_status|..].
  { intros e w1 Hi1 Hr Ht. split; [done|]. eapply outcome_failed; [done|by exists e]. }
  intros db env w1 r Hok Hr Henv Hi1 _. rewrite set_run_status_eval by done.
  assert ((∀ row, db_runs db !! id = Some row → rr_revision row ≠ revision) → DBof w1 = db → r = inr 0%Z ∨ Failed r →
    match r with
    | inl e => idle w1 ∧ outcome (run_status_step id revision status text (DBof w)) (DBof w) (inl e) (DBof w1)
    | inr affected => wp (if (0 <? affected)%Z then mret tt else
        exists_ ← db_Query (run_exists id);
        if exists_ : bool then throw ErrConflict else throw ErrNotFound)
        (λ r w', idle w' ∧ outcome (run_status_step id revision status text (DBof w)) (DBof w) r (DBof w')) w1
    end) as Hnone.
  { intros Hn Hdb [->|(e & -> & He)]; subst db; [|split; [done|]; eapply outcome_failed; [done|by exists e]].
    cbn [Z.ltb Z.compare]. apply wp_bind, wp_query; [done|apply stmt_ok_query|..].
    { intros e w2 Hi2 Hr2 Ht. split; [done|]. eapply outcome_failed; [by eapply pg_rely_then|by exists e]. }
    intros db env2 w2 r2 Hok2 Hr2 Henv2 Hi2 _. unfold run_exists, query. cbn [out_db out_value]. intros Hdb2 Hrr. subst db.
    assert (rely (DBof w) (DBof w2)) as Hrel2 by (by eapply pg_rely_then).
    destruct Hrr as [->|(e & -> & He)]; [|split; [done|]; eapply outcome_failed; [done|by exists e]].
    assert (outcome (run_status_step id revision status text (DBof w)) (DBof w)
      (inl (if bool_decide (is_Some (db_runs (DBof w2) !! id)) then ErrConflict : error else ErrNotFound)) (DBof w2)) as Ho.
    { eapply outcome_step; [exact Hrel2| |apply pg_rely_same]. right. left. split; [done|]. split; [|done]. by exists (DBof w1). }
    case_bool_decide; apply wp_throw; done. }
  destruct (db_runs db !! id) as [row|] eqn:Hrow; [|by apply Hnone].
  destruct (Z.eqb_spec (rr_revision row) revision) as [Heq|Hne]; [|apply Hnone; by intros ? [= <-]].
  destruct (Z.ltb_spec (rr_revision row) MaxInt64) as [Hlt|Hge]; cbn [out_db out_value]; intros Hdb; cycle 1.
  { split; [done|]. rewrite Hdb. eapply outcome_step; [exact Hr| |apply pg_rely_same]. right. right. split; [done|]. split; [lia|done]. }
  intros Hrr. assert (run_status_step id revision status text (DBof w) db (inr tt) (DBof w1)) as Hstep.
  { left. exists (sql_now env), row. split_and!; [apply Henv|done|done|done|done]. }
  destruct Hrr as [->|(e & -> & He)].
  - cbn [Z.ltb Z.compare]. apply wp_ret. split; [done|]. by eapply outcome_step; [..|apply pg_rely_same].
  - split; [done|]. eapply outcome_lost; [done|done|apply pg_rely_same|by exists e].
Qed.
End Create.
