(* ===== verification/PgSubgraph.v ===== *)
(** * The restart of a part of a pipeline on Postgres

    [RestartPipelineSubgraph] locks the nodes, resets them and reopens the run in one transaction. *)

From S2P Require Import Prelude GoLib GoText Model Memory MemoryInv StoreSpec.
From S2P Require Import PgTables Postgres PgServer PgTx PgStmts PgSpec PgCalls PgRows.

Section Subgraph.
Context `{E : GoEnv} {J : Jsonb} {W : Type} `{!PgClient W} {SV : PgServer W} {HL : PgLaws (W := W)}.

Abbreviation DBof w := (pg_db (pg_state (W := W) w)).
Abbreviation rely := (pg_rely (W := W)).
Abbreviation transport := (pg_transport (W := W)).
Abbreviation moved := (PgTx.moved (W := W)).
Abbreviation open := (PgTx.open (W := W)).
Abbreviation outcome := (PgTx.outcome (W := W)).
Abbreviation settled := (PgTx.settled (W := W)).

Definition restart_keys (request : RestartSubgraph) : list string :=
  rs_RootNodeKey request :: rs_DescendantKeys request.

Abbreviation node_of request := (in_nodes (rs_RunID request) (restart_keys request)).

Definition node_row (request : RestartSubgraph) (available : Time) (r : TaskRow) : TaskRow :=
  restarted_row (if bool_decide (tr_node_key r = rs_RootNodeKey request) then StatusPending else StatusBlocked)
    available r.

Definition reopened_row (now : Time) (r : RunRow) : RunRow :=
  r <| rr_status := RunRunning |> <| rr_error := EmptyString |> <| rr_updated_at := now |>
    <| rr_finished_at := None |> <| rr_revision := (rr_revision r + 1)%Z |>.

(** The restart: the nodes stored at an instant [db2] of the call are reset and the run is reopened; those
    that were stored at an earlier instant [db1] were not active, and the root was among them. *)
Definition restarted (request : RestartSubgraph) (db0 db : DB) (r : error + Execution) (db' : DB) : Prop :=
  ∃ t available db1 db2 rows root, pg_clock t ∧
    (IsZero (rs_AvailableAt request) = false → available = rs_AvailableAt request) ∧
    rely db0 db1 ∧ rely db1 db2 ∧ rely db2 db ∧ NoDup (tr_id <$> rows) ∧
    (∀ row, row ∈ rows ↔ db_tasks db2 !! tr_id row = Some row ∧ node_of request row = true) ∧
    (∀ row, row ∈ rows → db_tasks db !! tr_id row = Some row) ∧
    (∀ id row, db_tasks db1 !! id = Some row → node_of request row = true →
       is_active (tr_status row) = false ∧ row ∈ rows) ∧
    root ∈ rows ∧ tr_node_key root = rs_RootNodeKey request ∧
    is_Some (db_runs db !! rs_RunID request) ∧
    r = inr (scanExecution (node_row request available root)) ∧
    effect db (map_tasks (task_ids rows) (node_row request available) (db_tasks db))
      (map_runs {[rs_RunID request]} (reopened_row t) (db_runs db))
      ((λ row, (tr_id row, EventRestarted, 0%Z, EmptyString)) <$> rows) db'.

(** The refusals: a node is active, the root is not stored, or the revision of the run is the last one. *)
Definition not_restarted (request : RestartSubgraph) (db : DB) (r : error + Execution) (db' : DB) : Prop :=
  db' = db ∧
  ((r = inl (ErrActive : error) ∧ ∃ id row, db_tasks db !! id = Some row ∧ node_of request row = true ∧
      is_active (tr_status row) = true) ∨
   (r = inl (ErrNotFound : error) ∧ ∀ id row, db_tasks db !! id = Some row →
      tr_pipeline_run_id row = Some (rs_RunID request) → tr_node_key row ≠ rs_RootNodeKey request) ∨
   (r = inl (sql_error "bigint out of range") ∧ ∃ run, db_runs db !! rs_RunID request = Some run ∧
      rr_revision run = MaxInt64)).

Definition subgraph_step (request : RestartSubgraph) (db0 db : DB) (r : error + Execution) (db' : DB) : Prop :=
  restarted request db0 db r db' ∨ not_restarted request db r db'.

(** ** Lemmas *)

Lemma pg_active_is_active r : active (scanExecution r) = is_active (tr_status r).
Proof. unfold active. cbn [scanExecution e_Status]. by destruct (tr_status r). Qed.

Lemma some_active rows :
  existsb active (scanExecution <$> rows) = existsb (λ row, is_active (tr_status row)) rows.
Proof. induction rows as [|row l IH]; [done|]. rewrite fmap_cons. cbn [existsb]. by rewrite pg_active_is_active, IH. Qed.

Lemma last_filter_some {A} (P : A → bool) l x : last (List.filter P l) = Some x → x ∈ l ∧ P x = true.
Proof. intros H. apply last_Some in H as [l' Hl]. apply elem_of_filter_In. rewrite Hl. set_solver. Qed.

Lemma last_filter_none {A} (P : A → bool) l : last (List.filter P l) = None → ∀ x, x ∈ l → P x = false.
Proof.
  intros H%last_None x Hx. destruct (P x) eqn:HP; [|done].
  assert (x ∈ List.filter P l) as Hin by (by apply elem_of_filter_In). rewrite H in Hin. by apply elem_of_nil in Hin.
Qed.

(** An UPDATE in a transaction that only holds locks. *)
Definition locking (locks : gset UUID) (now : Time) : Tx := mkTx ∅ ∅ ∅ locks ∅ now.

Lemma view_locking locks now db : view (locking locks now) db = db.
Proof. unfold view, locking. cbn [tx_tasks tx_runs tx_events]. rewrite !overlay_empty. by destruct db. Qed.

Lemma write_locking {A} now db (x : A) locks :
  tx_write (empty_tx now) db (mkOutcome x db locks ∅) = locking locks now.
Proof. unfold tx_write, locking. cbn. rewrite !diff_same. f_equal; try apply (left_id_L ∅ _). set_solver. Qed.

Lemma changes_relocked P f env locks now w o g :
  env_ok env (DBof w) → db_ok (DBof w) → update_tasks P f env (DBof w) = inr o →
  locks ⊆ task_ids (tasks_where env P (DBof w)) → open (tx_write (locking locks now) (DBof w) o) w →
  changes (tx_write (locking locks now) (DBof w) o) w (task_ids (tasks_where env P (DBof w))) (f env) ∅ g [].
Proof.
  intros Henv Hok Ho Hsub Hopen. unfold update_tasks in Ho. injection Ho as <-.
  split; [done|cbn; set_solver|cbn; set_solver| |set_solver|].
  - intros id (r & Hr & HP)%elem_of_where_ids; [|done..]. exists r. split; [done|].
    rewrite <-(view_locking locks now (DBof w)) at 1. rewrite view_write. cbn [out_db db_tasks].
    rewrite lookup_fmap, Hr. simpl. by rewrite HP.
  - exists ∅. split; [|split; [apply map_disjoint_empty_l|done]]. cbn. rewrite diff_same, fmap_empty.
    apply (left_id_L ∅ _).
Qed.

(** The run is updated after the nodes. *)
Lemma changes_write_run {A} tx w w' ids f g' log id r (x : A) (o : Outcome A) :
  changes tx w ids f ∅ (λ r, r) log → moved tx w w' → db_runs (view tx (DBof w')) !! id = Some r →
  o = mkOutcome x (put_run (view tx (DBof w')) id (g' r)) ∅ {[id]} →
  open (tx_write tx (view tx (DBof w')) o) w' →
  changes (tx_write tx (view tx (DBof w')) o) w' ids f {[id]} g' log.
Proof.
  intros Hc Hm Hr -> Hopen. destruct (changes_view _ _ _ _ _ _ _ _ Hc Hm) as [Ht _].
  destruct Hc as [Hop Hl Hlr _ _ Hlog]. split; [done|..].
  - cbn [tx_write tx_task_locks out_tasks]. rewrite Hl. set_solver.
  - cbn [tx_write tx_run_locks out_runs]. rewrite Hlr. set_solver.
  - intros i Hi. destruct (Ht _ Hi) as (ri & H1 & H2 & H3). exists ri. split; [done|]. by rewrite view_write.
  - intros i ->%elem_of_singleton. exists r. rewrite view_write. cbn [out_db put_run db_runs]. rewrite lookup_insert_eq.
    split; [|done]. rewrite <-Hr. cbn [view db_runs]. rewrite lookup_overlay.
    rewrite (framed_runs _ (open_framed _ _ Hop)); [done|]. rewrite Hlr. set_solver.
  - destruct (recorded_holds _ _ _ _ (proj2 Hm) Hlog) as (evs & He & Hn). exists evs. split; [|done].
    cbn [tx_write tx_events out_db put_run db_events]. by rewrite diff_same, (left_id_L ∅ _).
Qed.

Lemma reopen_run_eval id env db :
  env_ok env db → db_ok db →
  reopen_run id env db =
    match db_runs db !! id with
    | Some row =>
        if (rr_revision row <? MaxInt64)%Z
        then inr (mkOutcome 1%Z (put_run db id (reopened_row (sql_now env) row)) ∅ {[id]})
        else inl (sql_error "bigint out of range")
    | None => inr (mkOutcome 0%Z db ∅ ∅)
    end.
Proof.
  intros Henv Hok. unfold reopen_run. rewrite (update_run_one env db _ _ id) by (done || by intros r Hr; reflect_bool).
  destruct (db_runs db !! id) as [row|] eqn:Hrow; [|done].
  by rewrite (bool_decide_true (rr_id row = id)) by (by apply (ok_run _ Hok)).
Qed.

(** ** The transaction *)

(** The end of the transaction: the run is reopened and everything is committed. *)
Lemma wp_reopen request now available tx w db0 dbs db1 db2 rows root :
  let ids := task_ids rows in
  pg_clock now → tx_now tx = now →
  (IsZero (rs_AvailableAt request) = false → available = rs_AvailableAt request) →
  rely dbs (DBof w) → rely db0 db1 → rely db1 db2 → rely db2 (DBof w) → NoDup (tr_id <$> rows) →
  (∀ row, row ∈ rows ↔ db_tasks db2 !! tr_id row = Some row ∧ node_of request row = true) →
  (∀ row, row ∈ rows → db_tasks (DBof w) !! tr_id row = Some row) →
  (∀ id row, db_tasks db1 !! id = Some row → node_of request row = true →
     is_active (tr_status row) = false ∧ row ∈ rows) →
  root ∈ rows → tr_node_key root = rs_RootNodeKey request →
  changes tx w ids (node_row request available) ∅ (λ r, r)
    ((λ row, (tr_id row, EventRestarted, 0%Z, EmptyString)) <$> rows) →
  wp (affected ← tx_Query (reopen_run (rs_RunID request));
      if (affected =? 0)%Z then throw ErrNotFound else
      _ ← tx_Commit;
      mret (scanExecution (node_row request available root))) (settled (subgraph_step request db0) dbs) w.
Proof.
  intros ids Hclk Hnow Hav Hrs H01 H12 H2w Hn Hrows Hstill Hsel Hroot Hkey Hc.
  apply wp_bind. eapply (wp_tx_query _ tx); [by destruct Hc|apply stmt_ok_reopen|..].
  { intros e w1 Hok Hr Ht. apply settled_failed; [done|exact (pg_rely_then _ _ _ Hrs Hr)|done]. }
  intros env w1 Henv Hnow1 Hm Hok Hv _. rewrite reopen_run_eval, Hnow1, Hnow by done.
  assert (tr_id root ∈ ids) as Hrid by (apply elem_of_task_ids; by exists root).
  destruct (proj1 (changes_view _ _ _ _ _ _ _ _ Hc Hm) _ Hrid) as (r0 & Hr0 & _ & Hview).
  rewrite (Hstill _ Hroot) in Hr0. injection Hr0 as <-.
  assert (is_Some (db_runs (view tx (DBof w1)) !! rs_RunID request)) as [run Hrun].
  { eapply (ok_task_run _ Hv); [exact Hview|]. destruct (proj1 (Hrows root) Hroot) as [_ Hin].
    unfold in_nodes in Hin. reflect_bool. by cbn. }
  assert (db_runs (DBof w1) !! rs_RunID request = Some run) as Hrun1.
  { rewrite <-Hrun. cbn [view db_runs]. rewrite lookup_overlay.
    rewrite (framed_runs _ (open_framed _ _ (cs_open _ _ _ _ _ _ _ Hc))); [done|].
    rewrite (cs_runs _ _ _ _ _ _ _ Hc). set_solver. }
  assert (rely dbs (DBof w1)) as Hrs1 by (exact (pg_rely_then _ _ _ Hrs (proj1 Hm))).
  rewrite Hrun. destruct (Z.ltb_spec (rr_revision run) MaxInt64) as [Hlt|Hge]; cycle 1.
  { apply settled_error; [done|done|]. right. split; [done|]. right. right. split; [done|]. exists run. split; [done|].
    destruct (ok_run _ Hok _ _ Hrun1) as [_ []]. lia. }
  set (o := mkOutcome _ _ _ _). intros Hopen. cbn [out_value Z.eqb].
  pose proof (changes_write_run tx w w1 ids _ (reopened_row now) _ _ run 1%Z o Hc Hm Hrun eq_refl Hopen) as Hc1.
  eapply (wp_changes_commit _ _ _ _ _ _ _ _ _ _ Hc1); [done|].
  intros db' db3 Hr' Hok' Hsame1 Hsame2 Heff. left. exists now, available, db1, db2, rows, root.
  assert (∀ row, row ∈ rows → db_tasks db' !! tr_id row = Some row) as Hst'.
  { intros row Hrow. assert (tr_id row ∈ ids) as Hin by (apply elem_of_task_ids; by exists row).
    rewrite Hsame1 by done. rewrite (holds_tasks _ _ _ (proj2 Hm)); [by apply Hstill|].
    by rewrite (cs_tasks _ _ _ _ _ _ _ Hc). }
  assert (rely db2 db') as H2' by (eapply pg_rely_then; [exact H2w|exact (pg_rely_then _ _ _ (proj1 Hm) Hr')]).
  split_and!; try done. rewrite Hsame2 by set_solver. by eexists.
Qed.

Lemma restart_nodes_eval request available :
  forallb text_arg (restart_keys request) = true →
  restart_nodes (rs_RunID request) (rs_RootNodeKey request) (restart_keys request) available
  = update_tasks (node_of request) (λ _, node_row request available).
Proof. intros H. unfold restart_nodes, checked. by rewrite H. Qed.

Lemma node_row_columns request available r :
  e_NodeKey (scanExecution (node_row request available r)) = tr_node_key r ∧
  e_ID (scanExecution (node_row request available r)) = tr_id r ∧
  e_Attempt (scanExecution (node_row request available r)) = 0%Z ∧
  tr_pipeline_run_id (node_row request available r) = tr_pipeline_run_id r.
Proof. by destruct r. Qed.

(** The root among the updated nodes. *)
Lemma updated_root_of (key : string) (f : TaskRow → Execution) rows root0 :
  (∀ row, e_NodeKey (f row) = tr_node_key row) → root0 ∈ rows → tr_node_key root0 = key →
  ∃ root, root ∈ rows ∧ tr_node_key root = key ∧
    default (scanExecution root0) (last (List.filter (is_node key) (f <$> rows))) = f root.
Proof.
  intros Hf Hroot0 Hkey0. destruct (last _) as [x|] eqn:Hl; cbn [default].
  - apply last_filter_some in Hl as [Hx Hk]. apply list_elem_of_fmap in Hx as (row & -> & Hrow). exists row.
    split; [done|]. split; [|done]. unfold is_node in Hk. apply bool_decide_eq_true in Hk. congruence.
  - exfalso. pose proof (last_filter_none _ _ Hl _ (list_elem_of_fmap_2 f _ _ Hroot0)) as Hn.
    unfold is_node in Hn. apply bool_decide_eq_false in Hn. by rewrite Hf in Hn.
Qed.

Lemma updated_root request available rows root0 :
  root0 ∈ rows → tr_node_key root0 = rs_RootNodeKey request →
  ∃ root, root ∈ rows ∧ tr_node_key root = rs_RootNodeKey request ∧
    default (scanExecution root0) (last (List.filter (is_node (rs_RootNodeKey request))
      (scanExecution <$> (node_row request available <$> rows))))
    = scanExecution (node_row request available root).
Proof.
  rewrite <-list_fmap_compose. apply (updated_root_of _ (scanExecution ∘ node_row request available)).
  intros row. apply node_row_columns.
Qed.

Lemma wp_restart_nodes request now available rows1 w db0 dbs root0 :
  pg_clock now → (IsZero (rs_AvailableAt request) = false → available = rs_AvailableAt request) →
  forallb text_arg (restart_keys request) = true → rely dbs (DBof w) → rely db0 (DBof w) →
  open (locking (task_ids rows1) now) w →
  (∀ row, row ∈ rows1 ↔ db_tasks (DBof w) !! tr_id row = Some row ∧ node_of request row = true) →
  (∀ row, row ∈ rows1 → is_active (tr_status row) = false) →
  root0 ∈ rows1 → tr_node_key root0 = rs_RootNodeKey request →
  wp (rows ← tx_Query (restart_nodes (rs_RunID request) (rs_RootNodeKey request) (restart_keys request) available);
      let updated := scanExecution <$> rows in
      let root := default (scanExecution root0) (last (List.filter (is_node (rs_RootNodeKey request)) updated)) in
      _ ← forM_ updated (λ item, insertEvent item EventRestarted EmptyString);
      affected ← tx_Query (reopen_run (rs_RunID request));
      if (affected =? 0)%Z then throw ErrNotFound else
      _ ← tx_Commit;
      mret root) (settled (subgraph_step request db0) dbs) w.
Proof.
  intros Hclk Hav Htext Hrs H0 Ho Hrows1 Hinact Hroot0 Hkey0.
  apply wp_bind. eapply (wp_tx_query _ (locking _ now)); [done|apply stmt_ok_restart_nodes|..].
  { intros e w1 Hok Hr Ht. apply settled_failed; [done|exact (pg_rely_then _ _ _ Hrs Hr)|done]. }
  intros env w1 Henv Hnow [Hrel Hh] Hok _ _. rewrite view_locking in *. cbn [locking tx_now] in Hnow.
  rewrite restart_nodes_eval by done. set (P := node_of request).
  set (rows := tasks_where env P (DBof w1)).
  assert (∀ row, row ∈ rows ↔ db_tasks (DBof w1) !! tr_id row = Some row ∧ P row = true) as Hrows
    by (intros row; by apply elem_of_tasks_where).
  assert (∀ row, row ∈ rows1 → row ∈ rows) as Hsub.
  { intros row Hrow. pose proof (proj1 (Hrows1 row) Hrow) as [H1 H2]. apply Hrows. split; [|done].
    rewrite (holds_tasks _ _ _ Hh); [done|]. cbn. apply elem_of_task_ids. by exists row. }
  destruct (update_tasks P _ env (DBof w1)) as [e|o] eqn:Hup; [done|]. intros Hopen.
  assert (out_value o = node_row request available <$> rows) as -> by (unfold update_tasks in Hup; by injection Hup as <-).
  pose proof (changes_relocked P _ env (task_ids rows1) now w1 o (λ r, r) Henv Hok Hup) as Hc. fold rows in Hc.
  specialize (Hc ltac:(intros i (row & Hrow & <-)%elem_of_task_ids; apply elem_of_task_ids; eauto) Hopen).
  cbv zeta. destruct (updated_root request available rows root0) as (root & Hroot & Hkey & ->); [by apply Hsub|done|].
  set (updated := scanExecution <$> _).
  apply wp_bind. eapply (wp_changes_events updated _ _ _ _ _ _ _ _ _ Hc).
  - unfold updated. rewrite !Forall_fmap, Forall_forall. intros row Hrow. cbn. split; [|lia].
    apply elem_of_task_ids. by exists row.
  - intros e w2 Hok2 Hr2 Ht2. apply settled_failed; [done| |done].
    eapply pg_rely_then; [exact Hrs|exact (pg_rely_then _ _ _ Hrel Hr2)].
  - intros tx2 w2 [Hrel2 Hh2] Hnow2 Hc2. unfold updated in Hc2. rewrite app_nil_l, <-!list_fmap_compose in Hc2.
    eapply (wp_reopen request now available tx2 w2 db0 dbs (DBof w) (DBof w1) rows root); [done| |done|..].
    + rewrite Hnow2. done.
    + eapply pg_rely_then; [exact Hrs|exact (pg_rely_then _ _ _ Hrel Hrel2)].
    + done.
    + done.
    + done.
    + by apply NoDup_tasks_where.
    + done.
    + intros row Hrow. rewrite (holds_tasks _ _ _ Hh2); [by apply Hrows|]. rewrite (cs_tasks _ _ _ _ _ _ _ Hc).
      apply elem_of_task_ids. by exists row.
    + intros id row Hr HP. assert (tr_id row = id) as Hid by (by apply (ok_task _ (open_ok _ _ Ho))).
      assert (row ∈ rows1) as Hin by (apply Hrows1; by rewrite Hid). split; [by apply Hinact|by apply Hsub].
    + done.
    + done.
    + exact Hc2.
Qed.

Lemma pg_RestartPipelineSubgraph_atomic request w :
  forallb text_arg (restart_keys request) = true → idle w →
  wp (Postgres.RestartPipelineSubgraph request)
    (λ r w', idle w' ∧ outcome (subgraph_step request (DBof w)) (DBof w) r (DBof w')) w.
Proof.
  intros Htext Hi. unfold Postgres.RestartPipelineSubgraph. apply wp_bind, wp_availableAt; [done|].
  intros t0 w0 Ht0 Hi0 Hdb0. rewrite <-Hdb0. cbv zeta. fold (restart_keys request).
  set (available := if IsZero (rs_AvailableAt request) then t0 else rs_AvailableAt request).
  assert (IsZero (rs_AvailableAt request) = false → available = rs_AvailableAt request) as Hav
    by (unfold available; by intros ->).
  apply wp_transaction; [done|]. intros now w1 Hclk Ho Hrel _. apply wp_bind.
  eapply (wp_tx_query _ (empty_tx now)); [done|apply stmt_ok_select_nodes|..].
  { intros e w2 Hok Hr Ht. by apply settled_failed. }
  intros env w2 Henv Hnow [Hrel2 _] Hok _ _. rewrite view_empty in *. unfold select_nodes, checked. rewrite Htext.
  set (rows := tasks_where env (node_of request) (DBof w2)). rewrite write_locking. intros Hopen. cbn [out_value].
  assert (∀ row, row ∈ rows ↔ db_tasks (DBof w2) !! tr_id row = Some row ∧ node_of request row = true) as Hrows
    by (intros row; by apply elem_of_tasks_where).
  rewrite some_active.
  destruct (existsb _ rows) eqn:Hact.
  { apply existsb_exists in Hact as (row & Hin%list_elem_of_In & Ha). apply Hrows in Hin as [H1 H2].
    apply wp_throw, settled_error; [done|done|]. right. split; [done|]. left. split; [done|]. by exists (tr_id row), row. }
  destruct (last _) as [x|] eqn:Hl; cycle 1.
  { apply wp_throw, settled_error; [done|done|]. right. split; [done|]. right. left. split; [done|].
    intros id row Hr Hrun Hkey. assert (row ∈ rows) as Hin.
    { apply Hrows. assert (tr_id row = id) as -> by (by apply (ok_task _ Hok)). split; [done|].
      unfold in_nodes. rewrite !bool_decide_true; [done| |done]. rewrite Hkey. left. }
    pose proof (last_filter_none _ _ Hl (scanExecution row)) as Hf. unfold is_node in Hf.
    specialize (Hf ltac:(by apply list_elem_of_fmap_2)). by apply bool_decide_eq_false in Hf. }
  apply last_filter_some in Hl as [Hx Hk]. apply list_elem_of_fmap in Hx as (root0 & -> & Hroot0).
  unfold is_node in Hk. reflect_bool.
  apply (wp_restart_nodes request now available rows w2); try done; [by eapply pg_rely_then|].
  intros row Hrow. destruct (is_active (tr_status row)) eqn:Ha; [|done].
  assert (existsb (λ row, is_active (tr_status row)) rows = true) as Hc; [|congruence].
  apply existsb_exists. exists row. split; [by apply list_elem_of_In|done].
Qed.
End Subgraph.
