(* ===== verification/PgReads.v ===== *)
(** * The reads of the Postgres store

    A read is one statement, so that it reports the tables of one instant: it answers as the in-memory
    store does on the records that those tables hold. *)

From S2P Require Import Prelude GoLib GoText Model Memory MemoryInv MemoryOps MemoryLists MemoryCounts.
From S2P Require Import PgTables Postgres PgServer PgTx PgStmts.

Section Reads.
Context `{E : GoEnv} {HE : GoEnvOk} {W : Type} `{!PgClient W} {SV : PgServer W} {HL : PgLaws (W := W)}.

Abbreviation DBof w := (pg_db (pg_state (W := W) w)).
Abbreviation outcome := (PgTx.outcome (W := W)).

(** The records of the tables, in an in-memory store. *)
Definition records (db : DB) : World :=
  mkWorld (mkMemoryStore (scanExecution <$> db_tasks db) (scanPipelineRun <$> db_runs db) ∅ ∅ ∅ ∅) 0.

(** The answer of the in-memory operation [m] on the tables.  The in-memory store copies what it returns,
    by [copy]. *)
Definition answers {A} (copy : A → A) (m : M World A) (db : DB) (r : error + A) (db' : DB) : Prop :=
  db' = db ∧ match r with inl e => inl e | inr x => inr (copy x) end = (m (records db)).1.

(** ... up to the order of its rows. *)
Definition answers_upto {A} (copy : A → A) (m : M World (list A)) (db : DB) (r : error + list A) (db' : DB)
    : Prop :=
  db' = db ∧ ∃ l l', r = inr l ∧ (m (records db)).1 = inr l' ∧ copy <$> l ≡ₚ l'.

(** The rows are in the order of their creation. *)
Definition oldest_first {A} (tm : A → Time) (uid : A → UUID) (l : list A) : Prop :=
  StronglySorted (λ a b, newer (tm a) (uid a) (tm b) (uid b) = false) l.

(** The events of one execution; none, and no error, when it is not stored. *)
Definition events_step (id : UUID) (db : DB) (r : error + list Event) (db' : DB) : Prop :=
  db' = db ∧ ∃ l, r = inr l ∧ NoDup l ∧ oldest_first ev_CreatedAt ev_ID l ∧
    ∀ ev, ev ∈ l ↔ db_events db !! ev_ID ev = Some ev ∧ ev_ExecutionID ev = id.

(** The instant of a cursor has microseconds, as the records have. *)
Definition cursor_ok (c : option Cursor) : Prop :=
  match c with Some c => micro (cu_CreatedAt c) = cu_CreatedAt c | None => True end.

Definition filter_ok (filter : ListFilter) : Prop :=
  text_arg (f_TaskName filter) && text_arg (f_Status filter) = true ∧ cursor_ok (f_Before filter).

Definition run_filter_ok (filter : RunFilter) : Prop :=
  forallb text_arg (rf_Statuses filter) = true ∧ cursor_ok (rf_Before filter).

(** ** Rows and records *)

Lemma records_keyed db : db_ok db → keyed (records db).
Proof.
  intros Hok. split; simpl; intros id x; rewrite lookup_fmap; intros (r & Hr & ->)%fmap_Some;
    [by apply (ok_task _ Hok)|by apply (ok_run _ Hok)].
Qed.

Lemma values_fmap {A B} (f : A → B) (m : gmap UUID A) :
  (map_to_list (f <$> m)).*2 ≡ₚ f <$> (map_to_list m).*2.
Proof. rewrite map_to_list_fmap, <-!list_fmap_compose. done. Qed.

Lemma filter_map_rows {A B} (f : A → B) (P : B → bool) l :
  List.filter P (f <$> l) = f <$> List.filter (λ x, P (f x)) l.
Proof. induction l as [|x l IH]; [done|]. rewrite fmap_cons. simpl. destruct (P (f x)); by rewrite IH. Qed.

Lemma page_row t i c :
  cursor_ok c → match c with Some c => row_before t i c | None => true end = in_page t i c.
Proof. destruct c as [c|]; [|done]. intros Hc. unfold row_before. by rewrite Hc. Qed.

Lemma scan_where {A B} (scan : ∀ A : Type, list A → list A) (f : A → B) (P : B → bool) (Q : A → bool) (m : gmap UUID A) :
  (∀ A (l : list A), scan A l ≡ₚ l) → (∀ x, Q x = P (f x)) →
  f <$> List.filter Q (scan A (map_to_list m).*2) ≡ₚ List.filter P (map_to_list (f <$> m)).*2.
Proof.
  intros Hs HQ. rewrite (List.filter_ext Q (λ x, P (f x))) by done. rewrite <-filter_map_rows.
  apply filter_Permutation_bool. rewrite values_fmap. apply fmap_Permutation, Hs.
Qed.

Lemma sort_Slice_fmap {A B} (f : A → B) (less' : A → A → bool) (less : B → B → bool) l :
  (∀ a b, less' a b = less (f a) (f b)) → f <$> sort_Slice less' l = sort_Slice less (f <$> l).
Proof.
  intros Hless. assert (∀ x l, f <$> sort_insert less' x l = sort_insert less (f x) (f <$> l)) as Hi.
  { intros x k. induction k as [|y k IH]; [done|]. rewrite fmap_cons. simpl. rewrite Hless.
    destruct (less (f y) (f x)); [|done]. by rewrite fmap_cons, IH. }
  unfold sort_Slice. induction l as [|x l IH]; [done|]. rewrite fmap_cons. simpl foldr. by rewrite Hi, IH.
Qed.

Lemma limit_slice_fmap {A B} (f : A → B) n l : f <$> limit_slice n l = limit_slice n (f <$> l).
Proof. unfold limit_slice. rewrite length_fmap. destruct (_ && _); [by rewrite fmap_take|done]. Qed.

(** A page: the rows are selected, sorted and cut as the in-memory store does with their records. *)
Lemma page_records {A B} (tm : B → Time) (uid : B → UUID) (copy : B → B) (f : A → B) (P : B → bool) (Q : A → bool)
    (scan : ∀ A : Type, list A → list A) (m : gmap UUID A) limit :
  (∀ x, tm (copy x) = tm x) → (∀ x, uid (copy x) = uid x) → (∀ A (l : list A), scan A l ≡ₚ l) →
  (∀ x, Q x = P (f x)) → (∀ i x, m !! i = Some x → uid (f x) = i) →
  copy <$> (f <$> limit_slice limit (sort_Slice (λ a b, newer (tm (f a)) (uid (f a)) (tm (f b)) (uid (f b)))
    (List.filter Q (scan A (map_to_list m).*2))))
  = limit_slice limit (sort_Slice (newer_by tm uid) (copy <$> List.filter P (map_to_list (f <$> m)).*2)).
Proof using HE.
  intros Htm Huid Hs HQ Hk. rewrite !limit_slice_fmap. f_equal.
  rewrite (sort_Slice_fmap f _ (newer_by tm uid)), (sort_Slice_fmap copy _ (newer_by tm uid))
    by (intros; unfold newer_by; by rewrite ?Htm, ?Huid).
  apply sort_newer_perm; [|apply fmap_Permutation, scan_where; done].
  unfold distinct. rewrite <-list_fmap_compose. rewrite (list_fmap_ext _ uid) by (intros; simpl; apply Huid).
  rewrite (scan_where _ f P Q m Hs HQ). apply NoDup_values.
  intros i x. rewrite lookup_fmap. intros (y & Hy & ->)%fmap_Some. by apply Hk.
Qed.

(** ** The operations *)

(** A read: one statement and what is made of its rows. *)
Lemma pg_wp_read {A B} (f : SqlEnv → DB → A) (k : A → M W B) (res : A → error + B) step w :
  idle w → (∀ x w', k x w' = (res x, w')) →
  (∀ env db, env_ok env db → db_ok db → step db (res (f env db)) db) →
  wp (x ← db_Query (query f); k x) (λ r w', idle w' ∧ outcome step (DBof w) r (DBof w')) w.
Proof.
  intros Hi Hk Hstep. apply wp_bind. apply wp_query; [done|apply stmt_ok_query|..].
  - intros e w' Hi' Hr Ht. split; [done|]. eapply outcome_failed; [done|by exists e].
  - intros db env w' r Hok Hr Henv Hi' _. unfold query. intros Hdb [->|(e & -> & He)]; cbn [out_db out_value] in *.
    + unfold wp. rewrite Hk. cbn [fst snd]. split; [done|]. rewrite Hdb.
      eapply outcome_step; [exact Hr|by apply Hstep|apply pg_rely_same].
    + split; [done|]. eapply outcome_failed; [by rewrite Hdb|by exists e].
Qed.

Lemma pg_GetExecution_atomic id w :
  idle w →
  wp (Postgres.GetExecution id)
    (λ r w', idle w' ∧ outcome (answers cloneExecution (Memory.GetExecution id)) (DBof w) r (DBof w')) w.
Proof.
  intros Hi. eapply (pg_wp_read _ _ (λ row, match row with Some row => inr (scanExecution row) | None => inl (ErrNotFound : error) end));
    [done|by intros []|]. intros env db _ _. split; [done|].
  unfold Memory.GetExecution, mbind, M_bind, gets. simpl. rewrite lookup_fmap. by destruct (db_tasks db !! id).
Qed.

Lemma pg_GetPipelineRun_atomic id w :
  idle w →
  wp (Postgres.GetPipelineRun id)
    (λ r w', idle w' ∧ outcome (answers cloneRun (Memory.GetPipelineRun id)) (DBof w) r (DBof w')) w.
Proof.
  intros Hi. eapply (pg_wp_read _ _ (λ row, match row with Some row => inr (scanPipelineRun row) | None => inl (ErrNotFound : error) end));
    [done|by intros []|]. intros env db _ _. split; [done|].
  unfold Memory.GetPipelineRun, mbind, M_bind, gets. simpl. rewrite lookup_fmap. by destruct (db_runs db !! id).
Qed.

Lemma pg_ListExecutions_atomic filter w :
  filter_ok filter → idle w →
  wp (Postgres.ListExecutions filter)
    (λ r w', idle w' ∧ outcome (answers (fmap cloneExecution) (Memory.ListExecutions filter)) (DBof w) r (DBof w')) w.
Proof.
  intros [Htext Hc] Hi. unfold Postgres.ListExecutions, list_tasks, checked. rewrite Htext.
  eapply (pg_wp_read _ _ (λ rows, inr (scanExecution <$> rows))); [done|done|]. intros env db Henv Hok. split; [done|].
  rewrite ListExecutions_keyed by (by apply records_keyed). cbn [fst]. f_equal. unfold listing, tasks_where, task_values.
  apply (page_records e_CreatedAt e_ID cloneExecution scanExecution); [done|done|apply (env_scan _ _ Henv)| |].
  - intros r. unfold matches_filter. by rewrite page_row.
  - intros i r Hr. by apply (ok_task _ Hok).
Qed.

Lemma pg_ListPipelineRuns_atomic filter w :
  run_filter_ok filter → idle w →
  wp (Postgres.ListPipelineRuns filter)
    (λ r w', idle w' ∧ outcome (answers (fmap cloneRun) (Memory.ListPipelineRuns filter)) (DBof w) r (DBof w')) w.
Proof.
  intros [Htext Hc] Hi. unfold Postgres.ListPipelineRuns, list_runs, checked. rewrite Htext.
  eapply (pg_wp_read _ _ (λ rows, inr (scanPipelineRun <$> rows))); [done|done|]. intros env db Henv Hok. split; [done|].
  rewrite ListPipelineRuns_keyed by (by apply records_keyed). cbn [fst]. f_equal. unfold run_listing, runs_where, run_values.
  apply (page_records r_CreatedAt r_ID cloneRun scanPipelineRun); [done|done|apply (env_scan _ _ Henv)| |].
  - intros r. unfold matches_run_filter. by rewrite page_row.
  - intros i r Hr. by apply (ok_run _ Hok).
Qed.

Lemma sort_oldest_first {A} (tm : A → Time) (uid : A → UUID) l :
  oldest_first tm uid (sort_Slice (λ a b, newer (tm b) (uid b) (tm a) (uid a)) l).
Proof using HE.
  apply sort_Slice_sorted.
  - intros a b. apply newer_asym.
  - intros a b c Hab Hbc. by eapply not_newer_trans.
Qed.

Lemma pg_ListRunExecutions_atomic runID w :
  idle w →
  wp (Postgres.ListRunExecutions runID) (λ r w', idle w' ∧ outcome (λ db r db',
    answers_upto cloneExecution (Memory.ListRunExecutions runID) db r db' ∧
    ∀ l, r = inr l → oldest_first e_CreatedAt e_ID l) (DBof w) r (DBof w')) w.
Proof.
  intros Hi. eapply (pg_wp_read _ _ (λ rows, inr (scanExecution <$> rows))); [done|done|]. intros env db Henv Hok.
  rewrite (sort_Slice_fmap scanExecution _ (λ a b, newer (e_CreatedAt b) (e_ID b) (e_CreatedAt a) (e_ID a))) by done.
  split; [|by intros l [= <-]; apply sort_oldest_first]. split; [done|]. do 2 eexists. split; [done|]. split; [done|].
  rewrite !sort_Slice_perm. apply fmap_Permutation. unfold tasks_where, task_values.
  rewrite (scan_where _ scanExecution (of_run runID)) by (apply (env_scan _ _ Henv) || done).
  apply filter_Permutation_bool, fmap_Permutation. symmetry. apply env_shuffle_perm.
Qed.

Lemma pg_Events_atomic id w :
  idle w →
  wp (Postgres.Events id) (λ r w', idle w' ∧ outcome (events_step id) (DBof w) r (DBof w')) w.
Proof.
  intros Hi. set (f := λ env db, sort_Slice (λ a b, newer (ev_CreatedAt b) (ev_ID b) (ev_CreatedAt a) (ev_ID a))
    (List.filter (λ ev, bool_decide (ev_ExecutionID ev = id)) (sql_scan env _ (map_to_list (db_events db)).*2))).
  assert (∀ w', Postgres.Events id w' = (x ← db_Query (query f); mret x) w') as Heq.
  { intros w'. unfold Postgres.Events, select_events, mbind, M_bind. fold f. by destruct (db_Query _ w') as [[] ?]. }
  unfold wp. rewrite Heq. apply (pg_wp_read _ _ inr); [done|done|]. intros env db Henv Hok. split; [done|].
  exists (f env db). split; [done|]. assert (f env db ≡ₚ List.filter (λ ev, bool_decide (ev_ExecutionID ev = id)) (map_to_list (db_events db)).*2) as Hp.
  { unfold f. rewrite sort_Slice_perm. apply filter_Permutation_bool, (env_scan _ _ Henv). }
  split_and!; [|apply sort_oldest_first|].
  - eapply (NoDup_fmap_1 ev_ID). rewrite Hp. apply NoDup_values. intros i ev Hev. by apply (ok_event _ Hok).
  - intros ev. rewrite Hp, elem_of_filter_In, elem_of_values, bool_decide_eq_true. split; [|naive_solver].
    intros [[i Hev] Hid]. split; [|done]. by destruct (ok_event _ Hok _ _ Hev) as [-> _].
Qed.

(** ** Statistics *)

(** The rows of a report: each group that has records, with their number. *)
Lemma count_groups_perm keys keys' env :
  (∀ A (l : list A), sql_scan env A l ≡ₚ l) → keys ≡ₚ keys' →
  count_groups keys env ≡ₚ map_to_list (count_keys keys').
Proof.
  intros Hs Hk. apply NoDup_Permutation.
  - eapply (NoDup_fmap_1 fst). unfold count_groups. rewrite <-list_fmap_compose. simpl. rewrite list_fmap_id, Hs. apply NoDup_remove_dups.
  - apply NoDup_map_to_list.
  - intros [k n]. rewrite elem_of_map_to_list, count_keys_lookup, <-(occurrences_of_perm _ _ _ Hk).
    unfold count_groups. rewrite list_elem_of_fmap. setoid_rewrite Hs. setoid_rewrite elem_of_remove_dups. unfold occurrences_of.
    split; [intros (k' & [= -> ->] & Hin)|intros [Hpos ->]].
    + split; [|done]. assert (k' ∈ List.filter (λ k, bool_decide (k = k')) keys) as Hin'.
      { apply elem_of_filter_In. by rewrite bool_decide_true. }
      destruct (List.filter _ keys); [by apply elem_of_nil in Hin'|simpl; lia].
    + exists k. split; [done|]. destruct (List.filter _ keys) as [|k' l] eqn:Hf; [simpl in Hpos; lia|].
      assert (k' ∈ List.filter (λ k', bool_decide (k' = k)) keys) as [Hin Heq]%elem_of_filter_In by (rewrite Hf; left).
      by apply bool_decide_eq_true in Heq as ->.
Qed.

Lemma count_rows_perm {A B R} (scan : A → B) (key : B → string * string) (g g' : (string * string) * Z → R) (m : gmap UUID A) env n n' :
  (∀ A (l : list A), sql_scan env A l ≡ₚ l) → (∀ x, g x = g' x) →
  g <$> count_groups (key ∘ scan <$> (map_to_list m).*2) env
  ≡ₚ g' <$> env_shuffle n _ (map_to_list (count_keys (key <$> (env_shuffle n' _ (map_to_list (scan <$> m))).*2))).
Proof using HE.
  intros Hs Hg. rewrite (list_fmap_ext g g') by (intros; apply Hg). apply fmap_Permutation.
  rewrite (env_shuffle_perm _ _ _). apply count_groups_perm; [done|].
  rewrite (list_fmap_compose scan key). apply fmap_Permutation. rewrite <-values_fmap.
  apply fmap_Permutation. symmetry. apply env_shuffle_perm.
Qed.

Lemma pg_ExecutionCounts_atomic w :
  idle w →
  wp Postgres.ExecutionCounts (λ r w', idle w' ∧
    outcome (answers_upto (λ row, row) Memory.ExecutionCounts) (DBof w) r (DBof w')) w.
Proof.
  intros Hi. eapply (pg_wp_read _ _ (λ rows, inr ((λ row, mkExecutionCount row.1.1 row.1.2 row.2) <$> rows))); [done|done|].
  intros env db Henv Hok. split; [done|]. do 2 eexists. split; [done|]. split; [done|].
  rewrite list_fmap_id, sort_Slice_perm.
  apply (count_rows_perm scanExecution execution_key); [apply (env_scan _ _ Henv)|by intros [[] ?]].
Qed.

Lemma pg_PipelineCounts_atomic w :
  idle w →
  wp Postgres.PipelineCounts (λ r w', idle w' ∧
    outcome (answers_upto (λ row, row) Memory.PipelineCounts) (DBof w) r (DBof w')) w.
Proof.
  intros Hi. eapply (pg_wp_read _ _ (λ rows, inr ((λ row, mkPipelineCount row.1.1 row.1.2 row.2) <$> rows))); [done|done|].
  intros env db Henv Hok. split; [done|]. do 2 eexists. split; [done|]. split; [done|].
  rewrite list_fmap_id, sort_Slice_perm.
  apply (count_rows_perm scanPipelineRun MemoryCounts.run_key); [apply (env_scan _ _ Henv)|by intros [[] ?]].
Qed.
End Reads.
