(* ===== verification/PgPurge.v ===== *)
(** * Retention on Postgres

    [Purge] removes finished runs with their nodes and finished executions with their events, in one
    transaction. *)

From S2P Require Import Prelude GoLib GoText Model Memory MemoryInv.
From S2P Require Import PgTables Postgres PgServer PgTx PgStmts PgRows PgCalls.

Section Purge.
Context `{E : GoEnv} {W : Type} `{!PgClient W} {SV : PgServer W} {HL : PgLaws (W := W)}.

Abbreviation DBof w := (pg_db (pg_state (W := W) w)).
Abbreviation rely := (pg_rely (W := W)).
Abbreviation moved := (PgTx.moved (W := W)).
Abbreviation open := (PgTx.open (W := W)).
Abbreviation outcome := (PgTx.outcome (W := W)).
Abbreviation settled := (PgTx.settled (W := W)).

(** The tables without the executions [T], their events, and the runs [R]. *)
Definition remove (T R : gset UUID) (db : DB) : DB :=
  mkDB (filter (λ p, p.1 ∉ T) (db_tasks db)) (filter (λ p, p.1 ∉ R) (db_runs db))
    (filter (λ p, ev_ExecutionID p.2 ∉ T) (db_events db)).

Definition finished_before (before : Time) (t : option Time) : Prop :=
  ∃ u, t = Some u ∧ (u < micro before)%Z.

(** What may be removed: runs [R] that finished before the deadline, with nodes [N] of them, and
    executions [S] of no run that finished before the deadline. *)
Record purgeable (before : Time) (N S R : gset UUID) (db : DB) : Prop := {
  pu_runs : ∀ id, id ∈ R → ∃ run, db_runs db !! id = Some run ∧ finished_before before (rr_finished_at run);
  pu_nodes : ∀ id, id ∈ N → ∃ row run, db_tasks db !! id = Some row ∧ tr_pipeline_run_id row = Some run ∧ run ∈ R;
  pu_single : ∀ id, id ∈ S → ∃ row, db_tasks db !! id = Some row ∧ tr_pipeline_run_id row = None ∧
    finished_before before (tr_finished_at row);
}.

(** A purge of at most [limit] runs and single executions removes them with all nodes of the runs.  It fails,
    and removes nothing, when an execution joins one of its runs meanwhile. *)
Definition purge_step (before : Time) (limit : Z) (db : DB) (r : error + PurgeResult) (db' : DB) : Prop :=
  (∃ N S R, purgeable before N S R db ∧
     (∀ id row run, db_tasks db !! id = Some row → tr_pipeline_run_id row = Some run → run ∈ R → id ∈ N) ∧
     (Z.of_nat (size R) + Z.of_nat (size S) ≤ limit)%Z ∧ db' = remove (N ∪ S) R db ∧
     r = inr (mkPurgeResult (Z.of_nat (size N) + Z.of_nat (size S)) (Z.of_nat (size R)))) ∨
  (db' = db ∧ r = inl (sql_error "violates foreign key constraint") ∧
     ∃ id row run r, db_tasks db !! id = Some row ∧ tr_pipeline_run_id row = Some run ∧
       db_runs db !! run = Some r ∧ finished_before before (rr_finished_at r)).

(** ** The state of the transaction *)

(** The transaction has removed [T] and [R] and nothing else, and holds them with [R0]. *)
Record removing (tx : Tx) (w : W) (T R R0 : gset UUID) : Prop := {
  rm_tasks : ∀ id, tx_tasks tx !! id = if decide (id ∈ T) then Some None else None;
  rm_runs : ∀ id, tx_runs tx !! id = if decide (id ∈ R) then Some None else None;
  rm_locks : T ⊆ tx_task_locks tx;
  rm_run_locks : R ∪ R0 ⊆ tx_run_locks tx;
  rm_events : ∀ id v, tx_events tx !! id = Some v →
    v = None ∧ ∃ ev, db_events (DBof w) !! id = Some ev ∧ ev_ExecutionID ev ∈ T;
}.

Lemma overlay_remove {A} (d : gmap UUID (option A)) (m : gmap UUID A) (X : gset UUID) :
  (∀ id, d !! id = if decide (id ∈ X) then Some None else None) → overlay d m = filter (λ p, p.1 ∉ X) m.
Proof.
  intros Hd. apply map_eq. intros id. rewrite lookup_overlay, Hd, map_lookup_filter. simpl.
  case_decide as Hx; destruct (m !! id); simpl; try done; case_guard; done.
Qed.

(** What the transaction sees, whatever other transactions have committed. *)
Lemma removing_view tx w T R R0 db :
  removing tx w T R R0 → holds tx (DBof w) db → db_ok (view tx db) → view tx db = remove T R db.
Proof.
  intros [Ht Hr Hl Hlr He] Hh Hok. unfold remove. unfold view at 1. f_equal; [by apply overlay_remove..|].
  apply map_eq. intros id. rewrite map_lookup_filter. cbn [db_events view] in *.
  pose proof (ok_event _ Hok id) as Hev. cbn [view db_events db_tasks] in Hev. rewrite lookup_overlay in *.
  destruct (tx_events tx !! id) as [v|] eqn:Hid.
  - destruct (He _ _ Hid) as (-> & ev & Hdb & Hin). rewrite (holds_events _ _ _ Hh), Hdb by (by rewrite Hid). simpl.
    case_guard; done.
  - destruct (db_events db !! id) as [ev|]; [|done]. simpl. case_guard as Hn; [done|]. exfalso.
    destruct (Hev _ eq_refl) as [_ [r Hrow]]. by rewrite lookup_overlay, Ht, decide_True in Hrow.
Qed.

Lemma removing_moved tx w w' T R R0 :
  removing tx w T R R0 → moved tx w w' → removing tx w' T R R0.
Proof.
  intros [Ht Hr Hl Hlr He] [_ Hh]. split; try done. intros id v Hv.
  destruct (He _ _ Hv) as (-> & ev & Hev & Hin). split; [done|]. exists ev.
  by rewrite (holds_events _ _ _ Hh) by (by rewrite Hv).
Qed.

Lemma lookup_diff_filter {A} `{EqDecision A} (m : gmap UUID A) (X : gset UUID) id :
  (∀ i, i ∈ X → is_Some (m !! i)) →
  diff m (filter (λ p, p.1 ∉ X) m) !! id = if decide (id ∈ X) then Some None else None.
Proof.
  intros HX. rewrite lookup_diff, map_lookup_filter. case_decide as Hid.
  - case_decide as Hx; [|done]. destruct (HX _ Hx) as [x Hm]. rewrite Hm in Hid. simpl in Hid.
    rewrite option_guard_False in Hid; [done|tauto].
  - destruct (m !! id) as [x|]; simpl in *; [|done]. case_decide as Hx.
    + rewrite option_guard_False by tauto. done.
    + by rewrite option_guard_True in Hid.
Qed.

Lemma union_removed {A} (d d' : gmap UUID (option A)) (X Y : gset UUID) id :
  d !! id = (if decide (id ∈ X) then Some None else None) →
  d' !! id = (if decide (id ∈ Y) then Some None else None) →
  (d ∪ d') !! id = if decide (id ∈ Y ∪ X) then Some None else None.
Proof. rewrite lookup_union. intros -> ->. repeat case_decide; set_solver. Qed.

Lemma size_task_ids l : NoDup (tr_id <$> l) → size (task_ids l) = length l.
Proof. intros H. unfold task_ids. by rewrite size_list_to_set, length_fmap. Qed.

(** A deletion of executions. *)
Lemma removing_delete P env tx w T R R0 o :
  let v := view tx (DBof w) in let X := task_ids (tasks_where env P v) in
  removing tx w T R R0 → env_ok env v → db_ok v → delete_tasks P env v = inr o →
  out_value o = Z.of_nat (size X) ∧ removing (tx_write tx v o) w (T ∪ X) R R0 ∧
  ∀ id, id ∈ X → id ∉ T ∧ ∃ r, db_tasks (DBof w) !! id = Some r ∧ P r = true.
Proof.
  intros v X Hrm Henv Hok Ho. pose proof (removing_view _ _ _ _ _ _ Hrm (holds_refl _ _) Hok) as Hv. fold v in Hv.
  assert (∀ id, id ∈ X → id ∉ T ∧ ∃ r, db_tasks v !! id = Some r ∧ db_tasks (DBof w) !! id = Some r ∧ P r = true) as HX.
  { intros id (r & Hr & HP)%elem_of_where_ids; [|done..]. pose proof Hr as Hr'. rewrite Hv in Hr'.
    apply map_lookup_filter_Some in Hr' as [Hr' Hn]. split; [done|]. by exists r. }
  unfold delete_tasks in Ho. injection Ho as <-. fold X. split; [|split].
  - cbn [out_value]. by rewrite <-size_task_ids by (by apply NoDup_tasks_where).
  - destruct Hrm as [Ht Hr Hl Hlr He]. split; cbn [tx_write tx_tasks tx_runs tx_events tx_task_locks tx_run_locks out_tasks out_runs out_db db_tasks db_runs db_events].
    + intros id. apply union_removed; [|apply Ht]. apply lookup_diff_filter. intros i Hi.
      destruct (HX _ Hi) as (_ & r & Hri & _). by exists r.
    + intros id. by rewrite diff_same, (left_id_L ∅ _).
    + set_solver.
    + set_solver.
    + intros id x. rewrite lookup_union, lookup_diff, map_lookup_filter. change (overlay (tx_events tx) (db_events (DBof w))) with (db_events v). case_decide as Hd.
      * rewrite (left_id_L None _). intros Hx. destruct (He _ _ Hx) as (-> & ev & Hev & Hin). split; [done|]. exists ev. set_solver.
      * intros Hx. assert (x = (db_events v !! id ≫= λ ev, guard (ev_ExecutionID ev ∉ X);; Some ev)) as ->
          by (destruct (tx_events tx !! id); by injection Hx).
        destruct (db_events v !! id) as [ev|] eqn:Hev; [|by destruct Hd]. cbn [mbind option_bind].
        simpl in Hd. case_guard as Hg; [done|]. split; [done|]. exists ev. split; [|set_solver].
        rewrite Hv in Hev. by apply map_lookup_filter_Some in Hev as [Hev _].
  - intros id Hid. destruct (HX _ Hid) as (Hn & r & _ & Hr & HP). split; [done|by exists r].
Qed.

(** The deletion of the runs that the transaction holds. *)
Lemma removing_delete_runs env tx w T ids o :
  let v := view tx (DBof w) in
  removing tx w T ∅ (list_to_set ids) → env_ok env v → db_ok v → delete_runs ids env v = inr o →
  (∀ id, id ∈ ids → is_Some (db_runs (DBof w) !! id)) →
  removing (tx_write tx v o) w T (list_to_set ids) (list_to_set ids).
Proof.
  intros v Hrm Henv Hok Ho Hids. pose proof (removing_view _ _ _ _ _ _ Hrm (holds_refl _ _) Hok) as Hv. fold v in Hv.
  assert (∀ id, db_runs v !! id = db_runs (DBof w) !! id) as Hruns.
  { intros id. rewrite Hv. cbn [remove db_runs]. rewrite map_lookup_filter.
    destruct (db_runs (DBof w) !! id); [|done]. simpl. by rewrite option_guard_True by set_solver. }
  set (X := run_ids (runs_where env (λ r, bool_decide (rr_id r ∈ ids)) v)).
  assert (X = list_to_set ids) as HX.
  { apply set_eq. intros id. unfold X. rewrite elem_of_where_run_ids, elem_of_list_to_set by done. split.
    - intros (r & Hr & Hin). apply bool_decide_eq_true in Hin. by rewrite (run_row_key _ Hok _ _ Hr) in Hin.
    - intros Hin. destruct (Hids _ Hin) as [r Hr]. rewrite <-Hruns in Hr. exists r. split; [done|].
      rewrite (run_row_key _ Hok _ _ Hr). by apply bool_decide_eq_true. }
  unfold delete_runs in Ho. destruct (existsb _ _); [done|]. injection Ho as <-. fold X. rewrite HX.
  destruct Hrm as [Ht Hr Hl Hlr He]. split; cbn [tx_write tx_tasks tx_runs tx_events tx_task_locks tx_run_locks out_tasks out_runs out_db db_tasks db_runs db_events].
  - intros id. by rewrite diff_same, (left_id_L ∅ _).
  - intros id. rewrite (union_removed _ _ (list_to_set ids) ∅); [by rewrite (left_id_L ∅ _)| |apply Hr].
    apply lookup_diff_filter. intros i Hi%elem_of_list_to_set. rewrite Hruns. by apply Hids.
  - set_solver.
  - set_solver.
  - intros id x. rewrite diff_same, (left_id_L ∅ _). apply He.
Qed.

(** ** The selections *)

Definition finished_runs (before : Time) (limit : Z) (env : SqlEnv) (db : DB) : list RunRow :=
  take (Z.to_nat limit) (sort_Slice
    (λ a b, finished_less (rr_finished_at a) (rr_id a) (rr_finished_at b) (rr_id b))
    (runs_where env (λ r, match rr_finished_at r with Some t => Before t (micro before) | None => false end
                          && negb (sql_locked env (rr_id r))) db)).

Definition finished_tasks (before : Time) (limit : Z) (env : SqlEnv) (db : DB) : list TaskRow :=
  take (Z.to_nat limit) (sort_Slice
    (λ a b, finished_less (tr_finished_at a) (tr_id a) (tr_finished_at b) (tr_id b))
    (tasks_where env (λ r, bool_decide (tr_pipeline_run_id r = None) &&
       match tr_finished_at r with Some t => Before t (micro before) | None => false end
       && negb (sql_locked env (tr_id r))) db)).

Lemma before_finished before t :
  match t with Some t => Before t (micro before) | None => false end = true → finished_before before t.
Proof. destruct t as [u|]; [|done]. intros H%Z.ltb_lt. by exists u. Qed.

Lemma NoDup_take_sort {A} (uid : A → UUID) (less : A → A → bool) n l :
  NoDup (uid <$> l) → NoDup (uid <$> take n (sort_Slice less l)).
Proof.
  intros Hn. apply (NoDup_app (uid <$> take n (sort_Slice less l)) (uid <$> drop n (sort_Slice less l))).
  by rewrite <-fmap_app, take_drop, sort_Slice_perm.
Qed.

Lemma elem_of_take_sort {A} (less : A → A → bool) n l x : x ∈ take n (sort_Slice less l) → x ∈ l.
Proof. intros H. rewrite <-(sort_Slice_perm less l), <-(take_drop n (sort_Slice less l)). set_solver. Qed.

Lemma finished_runs_spec before limit env db :
  env_ok env db → db_ok db → (0 ≤ limit)%Z →
  NoDup (rr_id <$> finished_runs before limit env db) ∧
  (Z.of_nat (length (finished_runs before limit env db)) ≤ limit)%Z ∧
  ∀ r, r ∈ finished_runs before limit env db →
    db_runs db !! rr_id r = Some r ∧ finished_before before (rr_finished_at r).
Proof.
  intros Henv Hok Hl. split; [by apply NoDup_take_sort, NoDup_runs_where|]. split.
  - unfold finished_runs. rewrite length_take. lia.
  - intros r [Hr HP]%elem_of_take_sort%elem_of_runs_where; [|done..]. split; [done|].
    apply andb_true_iff in HP as [HP _]. by apply before_finished.
Qed.

Lemma finished_tasks_spec before limit env db :
  env_ok env db → db_ok db → (0 ≤ limit)%Z →
  NoDup (tr_id <$> finished_tasks before limit env db) ∧
  (Z.of_nat (length (finished_tasks before limit env db)) ≤ limit)%Z ∧
  ∀ r, r ∈ finished_tasks before limit env db → db_tasks db !! tr_id r = Some r ∧
    tr_pipeline_run_id r = None ∧ finished_before before (tr_finished_at r).
Proof.
  intros Henv Hok Hl. split; [by apply NoDup_take_sort, NoDup_tasks_where|]. split.
  - unfold finished_tasks. rewrite length_take. lia.
  - intros r [Hr HP]%elem_of_take_sort%elem_of_tasks_where; [|done..]. split; [done|].
    apply andb_true_iff in HP as [HP _]. apply andb_true_iff in HP as [Hn HP]. apply bool_decide_eq_true in Hn.
    split; [done|]. by apply before_finished.
Qed.

(** The rows that [DELETE ... WHERE id IN] finds are those selected. *)
Lemma where_in_rows env db rows :
  env_ok env db → db_ok db → (∀ r, r ∈ rows → db_tasks db !! tr_id r = Some r) →
  task_ids (tasks_where env (λ r, bool_decide (tr_id r ∈ task_ids rows)) db) = task_ids rows.
Proof.
  intros Henv Hok Hrows. apply set_eq. intros id. rewrite elem_of_where_ids by done. split.
  - intros (r & Hr & Hin%bool_decide_eq_true). by rewrite (task_key _ Hok _ _ Hr) in Hin.
  - intros Hin. pose proof Hin as (r & Hr & <-)%elem_of_task_ids. exists r. split; [by apply Hrows|].
    by apply bool_decide_eq_true.
Qed.

(** ** The transaction *)

(** Rows that the transaction holds stay purgeable. *)
Lemma purgeable_moved before N S R db db' tx :
  purgeable before N S R db → N ∪ S ⊆ tx_task_locks tx → R ⊆ tx_run_locks tx → holds tx db db' →
  purgeable before N S R db'.
Proof.
  intros [H1 H2 H3] Ht Hr Hh. split; intros id Hid.
  - rewrite (holds_runs _ _ _ Hh) by set_solver. by apply H1.
  - rewrite (holds_tasks _ _ _ Hh) by set_solver. by apply H2.
  - rewrite (holds_tasks _ _ _ Hh) by set_solver. by apply H3.
Qed.

(** The end: what is removed has no remains. *)
Lemma removing_step before limit N S R R0 tx w db :
  removing tx w (N ∪ S) R R0 → purgeable before N S R (DBof w) →
  (Z.of_nat (size R) + Z.of_nat (size S) ≤ limit)%Z →
  holds tx (DBof w) db → db_ok (view tx db) →
  purge_step before limit db (inr (mkPurgeResult (Z.of_nat (size N) + Z.of_nat (size S)) (Z.of_nat (size R))))
    (view tx db).
Proof.
  intros Hrm Hp Hlim Hh Hok. pose proof (removing_view _ _ _ _ _ _ Hrm Hh Hok) as Hv. destruct Hrm as [_ _ Hl Hlr _].
  assert (purgeable before N S R db) as Hp' by (eapply purgeable_moved; [done|done|set_solver|done]).
  left. exists N, S, R. split_and!; [done| |done|done|done].
  intros id row run Hrow Hrun Hin. destruct (decide (id ∈ N ∪ S)) as [Hid|Hid].
  - apply elem_of_union in Hid as [Hid|Hid]; [done|]. destruct (pu_single _ _ _ _ _ Hp' _ Hid) as (row' & Hr' & Hn & _). congruence.
  - exfalso. rewrite Hv in Hok. destruct (ok_task_run _ Hok id row run) as [x Hx]; [|done|].
    + cbn [remove db_tasks]. by apply map_lookup_filter_Some.
    + cbn [remove db_runs] in Hx. by apply map_lookup_filter_Some in Hx as [_ Hx].
Qed.

Lemma wp_purge_end before limit n N S R R0 tx w dbs :
  n = (Z.of_nat (size N) + Z.of_nat (size S))%Z →
  open tx w → removing tx w (N ∪ S) R R0 → purgeable before N S R (DBof w) → rely dbs (DBof w) →
  (Z.of_nat (size R) + Z.of_nat (size S) ≤ limit)%Z →
  wp (_ ← tx_Commit; mret (mkPurgeResult n (Z.of_nat (size R)))) (settled (purge_step before limit) dbs) w.
Proof.
  intros -> Hopen Hrm Hp Hr Hlim. eapply wp_commit_settled; [done|done|]. intros db' _ Hh _ Hok.
  by eapply removing_step.
Qed.

(** The single executions, when there is room for them. *)
Lemma wp_purge_single before limit n N R R0 tx w dbs :
  n = Z.of_nat (size N) → open tx w → removing tx w N R R0 → purgeable before N ∅ R (DBof w) → rely dbs (DBof w) →
  (Z.of_nat (size R) ≤ limit)%Z →
  wp (count ← (if (0 <? limit - Z.of_nat (size R))%Z
               then tx_Query (delete_finished_tasks before (limit - Z.of_nat (size R))) else mret 0%Z);
      _ ← tx_Commit;
      mret (mkPurgeResult (n + count) (Z.of_nat (size R))))
    (settled (purge_step before limit) dbs) w.
Proof.
  intros -> Hopen Hrm Hp Hrs Hlim. apply wp_bind. destruct (Z.ltb_spec 0 (limit - Z.of_nat (size R))) as [Hpos|Hneg]; cycle 1.
  { apply wp_ret. apply (wp_purge_end before limit _ N ∅ R R0 tx); [|done|by rewrite (right_id_L ∅ _)|done|done|];
      rewrite size_empty; lia. }
  eapply (wp_tx_query _ tx); [done|apply stmt_ok_delete_finished|..].
  { intros e w1 Hok Hr Ht. apply settled_failed; [done|exact (pg_rely_then _ _ _ Hrs Hr)|done]. }
  intros env w1 Henv _ Hm Hok Hv _. unfold delete_finished_tasks.
  set (n := (limit - Z.of_nat (size R))%Z). pose proof (removing_moved _ _ _ _ _ _ Hrm Hm) as Hrm1.
  destruct (finished_tasks_spec before n env (view tx (DBof w1))) as (Hnd & Hlen & Hrows); [done|done|lia|].
  unfold finished_tasks in Hnd, Hlen, Hrows. set (rows := take _ _) in *.
  destruct (delete_tasks _ env _) as [e|o] eqn:Ho; [done|]. intros Hopen1.
  destruct (removing_delete _ _ _ _ _ _ _ _ Hrm1 Henv Hv Ho) as (-> & Hrm2 & HX).
  rewrite where_in_rows in * by (done || intros r Hr; by apply Hrows).
  eapply (wp_purge_end before limit _ N (task_ids rows) R R0); [done|exact Hopen1|exact Hrm2| |exact (pg_rely_then _ _ _ Hrs (proj1 Hm))|].
  - destruct (purgeable_moved _ _ _ _ _ _ tx Hp ltac:(destruct Hrm; set_solver) ltac:(destruct Hrm; set_solver) (proj2 Hm)) as [H1 H2 _].
    split; [done|done|]. intros id Hid. destruct (HX _ Hid) as (_ & r & Hr & _).
    apply elem_of_task_ids in Hid as (r' & Hr' & <-). destruct (Hrows _ Hr') as (Hv' & Hn & Hf).
    rewrite (removing_view _ _ _ _ _ _ Hrm1 (holds_refl _ _) Hv) in Hv'. apply map_lookup_filter_Some in Hv' as [Hv' _].
    exists r'. by split_and!.
  - rewrite size_task_ids by done. unfold n in Hlen. lia.
Qed.

(** The foreign key. *)
Lemma delete_runs_refused ids env tx w T R R0 e :
  removing tx w T R R0 → env_ok env (view tx (DBof w)) → db_ok (view tx (DBof w)) →
  delete_runs ids env (view tx (DBof w)) = inl e →
  (inl e : error + PurgeResult) = inl (sql_error "violates foreign key constraint") ∧
  ∃ id row run, db_tasks (DBof w) !! id = Some row ∧ tr_pipeline_run_id row = Some run ∧ run ∈ ids.
Proof.
  intros Hrm Henv Hok. pose proof (removing_view _ _ _ _ _ _ Hrm (holds_refl _ _) Hok) as Hv.
  rewrite Hv in Henv, Hok |- *. unfold delete_runs.
  destruct (existsb _ _) eqn:Hb; [|done]. intros [= <-]. split; [done|].
  apply existsb_exists in Hb as (row & Hrow%list_elem_of_In & Hin). apply elem_of_rows in Hrow as (id & Hrow).
  cbn [remove db_tasks] in Hrow. apply map_lookup_filter_Some in Hrow as [Hrow _].
  destruct (tr_pipeline_run_id row) as [run|] eqn:Hrun; [|done]. exists id, row, run. split; [done|]. split; [done|].
  apply bool_decide_eq_true in Hin. apply elem_of_where_run_ids in Hin as (r & Hr & Hin); [|done..].
  apply bool_decide_eq_true in Hin. by rewrite (run_row_key _ Hok _ _ Hr) in Hin.
Qed.

(** The runs that the transaction holds, with their nodes. *)
Lemma wp_purge_runs before limit ids tx w dbs :
  let R := list_to_set ids : gset UUID in
  open tx w → removing tx w ∅ ∅ R → purgeable before ∅ ∅ R (DBof w) → rely dbs (DBof w) →
  (Z.of_nat (size R) ≤ limit)%Z →
  wp (executions ← (deleted ← tx_Query (delete_run_tasks ids); _ ← tx_Query (delete_runs ids); mret deleted);
      count ← (if (0 <? limit - Z.of_nat (size R))%Z
               then tx_Query (delete_finished_tasks before (limit - Z.of_nat (size R))) else mret 0%Z);
      _ ← tx_Commit;
      mret (mkPurgeResult (executions + count) (Z.of_nat (size R))))
    (settled (purge_step before limit) dbs) w.
Proof.
  intros R Hopen Hrm Hp Hrs Hlim. do 2 apply wp_bind.
  eapply (wp_tx_query _ tx); [done|apply stmt_ok_delete_run_tasks|..].
  { intros e w1 Hok Hr Ht. apply settled_failed; [done|exact (pg_rely_then _ _ _ Hrs Hr)|done]. }
  intros env1 w1 Henv1 _ Hm1 Hok1 Hv1 _. pose proof (removing_moved _ _ _ _ _ _ Hrm Hm1) as Hrm1.
  destruct (delete_run_tasks ids env1 _) as [e|o1] eqn:Ho1; [done|]. intros Hopen1.
  destruct (removing_delete _ _ _ _ _ _ _ _ Hrm1 Henv1 Hv1 Ho1) as (-> & Hrm2 & HX).
  rewrite (left_id_L ∅ _) in Hrm2. set (N := task_ids _) in *.
  assert (purgeable before N ∅ R (DBof w1)) as Hp1.
  { destruct (purgeable_moved _ _ _ _ _ _ tx Hp ltac:(set_solver) ltac:(destruct Hrm; set_solver) (proj2 Hm1)) as [H1 _ _].
    split; [done| |set_solver]. intros id Hid. destruct (HX _ Hid) as (_ & r & Hr & HP). exists r.
    destruct (tr_pipeline_run_id r) as [run|]; [|done]. exists run. apply bool_decide_eq_true in HP. set_solver. }
  set (tx1 := tx_write _ _ _) in *. clearbody tx1. clear HX.
  apply wp_bind. eapply (wp_tx_query _ tx1); [done|apply stmt_ok_delete_runs|..].
  { intros e w2 Hok Hr Ht. apply settled_failed; [done| |done].
    eapply pg_rely_then; [exact Hrs|exact (pg_rely_then _ _ _ (proj1 Hm1) Hr)]. }
  intros env2 w2 Henv2 _ Hm2 Hok2 Hv2 _. pose proof (removing_moved _ _ _ _ _ _ Hrm2 Hm2) as Hrm3.
  assert (rely dbs (DBof w2)) as Hrs2 by (eapply pg_rely_then; [exact Hrs|exact (pg_rely_then _ _ _ (proj1 Hm1) (proj1 Hm2))]).
  assert (purgeable before N ∅ R (DBof w2)) as Hp2.
  { eapply (purgeable_moved _ _ _ _ _ _ tx1); [done|destruct Hrm2; set_solver..|exact (proj2 Hm2)]. }
  destruct (delete_runs ids env2 _) as [e|o2] eqn:Ho2.
  - apply settled_error; [done|done|]. right. split; [done|].
    destruct (delete_runs_refused _ _ _ _ _ _ _ _ Hrm3 Henv2 Hv2 Ho2) as (He & id & row & run & Hrow & Hrun & Hin).
    split; [done|]. destruct (pu_runs _ _ _ _ _ Hp2 run) as (r & Hr & Hf); [set_solver|]. by exists id, row, run, r.
  - intros Hopen2. apply wp_ret. apply (wp_purge_single before limit _ N R R (tx_write tx1 (view tx1 (DBof w2)) o2)); try done.
    eapply removing_delete_runs; try done. intros id Hid. destruct (pu_runs _ _ _ _ _ Hp2 id) as (run & Hrun & _); [set_solver|by exists run].
Qed.

Lemma pg_Purge_atomic before limit w :
  idle w →
  wp (Postgres.Purge before limit) (λ r w', idle w' ∧
    outcome (purge_step before (if (limit <=? 0)%Z then 1000%Z else limit)) (DBof w) r (DBof w')) w.
Proof.
  intros Hi. unfold Postgres.Purge. cbv zeta. set (lim := if (limit <=? 0)%Z then _ else _).
  assert (0 ≤ lim)%Z as Hlim by (unfold lim; destruct (Z.leb_spec limit 0); lia).
  apply wp_transaction; [done|]. intros now w1 _ Hopen _ _. apply wp_bind.
  eapply (wp_tx_query _ (empty_tx now)); [done|apply stmt_ok_finished_runs|..].
  { intros e w2 Hok Hr Ht. by apply settled_failed. }
  intros env w2 Henv _ [Hrel _] Hok Hv _. rewrite view_empty in *. unfold select_finished_runs.
  destruct (finished_runs_spec before lim env (DBof w2)) as (Hnd & Hlen & Hrows); [done..|].
  fold (finished_runs before lim env (DBof w2)). set (rows := finished_runs _ _ _ _) in *. intros Hopen2. cbn [out_value].
  rewrite <-(length_fmap rr_id) in Hlen. set (ids := rr_id <$> rows) in *.
  rewrite <-(size_list_to_set (C := gset UUID)) in Hlen by done. set (R := list_to_set ids : gset UUID) in *.
  set (tx := tx_write _ _ _) in Hopen2. assert (removing tx w2 ∅ ∅ R) as Hrm.
  { unfold tx. split; cbn; intros *; rewrite ?diff_same, ?(left_id_L ∅ _), ?lookup_empty; try done; unfold run_ids; set_solver. }
  assert (purgeable before ∅ ∅ R (DBof w2)) as Hp.
  { split; [|set_solver..]. intros id Hid%elem_of_list_to_set. apply list_elem_of_fmap in Hid as (r & -> & Hr).
    exists r. by apply Hrows. }
  assert (Z.of_nat (length ids) = Z.of_nat (size R)) as -> by (unfold R; by rewrite size_list_to_set).
  clearbody tx ids. clear Hrows. destruct ids as [|id l].
  - apply wp_bind, wp_ret. apply (wp_purge_single before lim 0 ∅ R R tx); done.
  - by apply (wp_purge_runs before lim (id :: l) tx).
Qed.
End Purge.
