(* ===== verification/PgClients.v ===== *)
(** * The clients of one Postgres server guarantee what they rely on

    Whatever an operation other than [Purge] does, the tables only grow: executions and runs stay stored
    with the columns of their creation, the revision of a run increases with every change of its row, and
    the log of events is only extended.  Clients that rely on this of each other also guarantee it. *)

From S2P Require Import Prelude GoLib GoText Model Memory MemoryInv StoreSpec.
From S2P Require Import PgTables Postgres PgServer PgTx PgStmts PgSpec PgCalls PgRows.
From S2P Require Import PgDelivery PgCreate PgSubgraph PgReads.

(** ** Growth *)

(** The run was updated, under a later revision, or is the same. *)
Definition run_grows (r r' : RunRow) : Prop :=
  same_run_columns r r' ∧ (r' = r ∨ (rr_revision r < rr_revision r')%Z).

Record grows (db db' : DB) : Prop := {
  g_tasks : ∀ id r, db_tasks db !! id = Some r →
    ∃ r', db_tasks db' !! id = Some r' ∧ same_identity (scanExecution r) (scanExecution r');
  g_runs : ∀ id r, db_runs db !! id = Some r → ∃ r', db_runs db' !! id = Some r' ∧ run_grows r r';
  g_events : db_events db ⊆ db_events db';
}.

Lemma run_grows_refl r : run_grows r r.
Proof. split; [done|by left]. Qed.

Lemma grows_refl db : grows db db.
Proof.
  split; [| |done]; intros id r Hr; exists r; (split; [done|]); [apply same_identity_refl|apply run_grows_refl].
Qed.

Lemma grows_trans a b c : grows a b → grows b c → grows a c.
Proof.
  intros [H1 H2 H3] [H4 H5 H6]. split; [| |by etrans].
  - intros id x Hx. destruct (H1 _ _ Hx) as (y & Hy & Hxy). destruct (H4 _ _ Hy) as (z & Hz & Hyz).
    exists z. split; [done|]. by eapply same_identity_trans.
  - intros id x Hx. destruct (H2 _ _ Hx) as (y & Hy & [(? & ? & ?) Hxy]).
    destruct (H5 _ _ Hy) as (z & Hz & [(? & ? & ?) Hyz]). exists z. split; [done|].
    split; [unfold same_run_columns; intuition congruence|]. destruct Hxy as [->|Hxy], Hyz as [->|Hyz]; auto. right. lia.
Qed.

Section Steps.
Context `{E : GoEnv} {J : Jsonb} {W : Type} `{!PgClient W} {SV : PgServer W}.

(** Rows that are replaced by ones with the same identity, and a longer log. *)
Lemma grows_effect db tasks rows log db' :
  effect db tasks rows log db' →
  (∀ id r, db_tasks db !! id = Some r →
     ∃ r', tasks !! id = Some r' ∧ same_identity (scanExecution r) (scanExecution r')) →
  (∀ id r, db_runs db !! id = Some r → ∃ r', rows !! id = Some r' ∧ run_grows r r') →
  grows db db'.
Proof.
  intros [H1 H2 (evs & [Hd _] & He)] Ht Hr. rewrite <-H1 in Ht. rewrite <-H2 in Hr. split; [done|done|].
  rewrite He. by apply map_union_subseteq_r.
Qed.

Lemma same_runs db : ∀ id r, db_runs db !! id = Some r → ∃ r', db_runs db !! id = Some r' ∧ run_grows r r'.
Proof. intros id r Hr. exists r. split; [done|apply run_grows_refl]. Qed.

Lemma map_tasks_grows ids f m :
  (∀ r, same_identity (scanExecution r) (scanExecution (f r))) →
  ∀ id r, m !! id = Some r →
    ∃ r', map_tasks ids f m !! id = Some r' ∧ same_identity (scanExecution r) (scanExecution r').
Proof.
  intros Hf id r Hr. unfold map_tasks. rewrite lookup_fmap, Hr. eexists. split; [done|].
  case_bool_decide; [apply Hf|apply same_identity_refl].
Qed.

Lemma pg_adjust_identity {A} (c : Call A) t0 t e e' : same_identity e e' → same_identity e (pg_adjust c t0 t e e').
Proof. by destruct c. Qed.

Lemma pg_call_grows {A} (c : Call A) t0 t db r db' : pg_call_step c t0 t db r db' → grows db db'.
Proof.
  unfold pg_call_step. destruct (db_tasks db !! call_id c) as [row|] eqn:Hrow; [|by intros [_ ->]; apply grows_refl].
  unfold pg_change. destruct (call_change false c t (scanExecution row)) as [e|ch] eqn:Hc; [by intros [_ ->]; apply grows_refl|].
  intros (_ & row' & Hrow' & Heff). eapply grows_effect; [exact Heff| |apply same_runs].
  intros id r0 Hr0. destruct (decide (id = call_id c)) as [->|Hne]; cycle 1.
  { rewrite lookup_insert_ne by done. exists r0. split; [done|apply same_identity_refl]. }
  rewrite Hrow in Hr0. injection Hr0 as <-. rewrite lookup_insert_eq. exists row'. split; [done|]. rewrite Hrow'.
  cbn [ch_item]. apply pg_adjust_identity. by eapply call_identity.
Qed.

Lemma pg_steps_grow {A} (c : Call A) db0 db r db' : pg_steps (W := W) c db0 db r db' → grows db db'.
Proof.
  intros [(t0 & t & _ & _ & Hs)|Hs]; [by eapply pg_call_grows|].
  destruct c; try done. destruct Hs as (_ & -> & _). apply grows_refl.
Qed.

Lemma claim_grows keys owner limit lease db0 db r db' :
  claim_step (W := W) keys owner limit lease db0 db r db' → grows db db'.
Proof.
  intros (t & token & rows & f & db1 & _ & _ & _ & _ & Hf & _ & Heff).
  eapply grows_effect; [exact Heff|by apply map_tasks_grows|apply same_runs].
Qed.

Lemma reaped_row_identity now r : same_identity (scanExecution r) (scanExecution (reaped_row now r)).
Proof. by destruct r. Qed.

Lemma reap_grows db0 db r db' : reap_step (W := W) db0 db r db' → grows db db'.
Proof.
  intros (t & rows & db1 & _ & _ & _ & _ & _ & _ & _ & _ & Heff).
  eapply grows_effect; [exact Heff|apply map_tasks_grows, reaped_row_identity|apply same_runs].
Qed.

Lemma create_grows request db0 db r db' : create_step (W := W) request db0 db r db' → grows db db'.
Proof.
  intros [(id & now & input & _ & Hid & _ & _ & Heff)|[(_ & -> & _)|(-> & _)]]; [|apply grows_refl..].
  eapply grows_effect; [exact Heff| |apply same_runs]. intros i x Hx. rewrite lookup_insert_ne by congruence.
  exists x. split; [done|apply same_identity_refl].
Qed.

(** A run is stored or updated. *)
Lemma grows_put_run db id r' :
  (∀ r, db_runs db !! id = Some r → run_grows r r') → grows db (put_run db id r').
Proof.
  intros Hr. split; cbn [put_run db_tasks db_runs db_events]; [| |done].
  - intros i x Hx. exists x. split; [done|apply same_identity_refl].
  - intros i x Hx. destruct (decide (i = id)) as [->|Hne].
    + rewrite lookup_insert_eq. exists r'. split; [done|by apply Hr].
    + rewrite lookup_insert_ne by done. exists x. split; [done|apply run_grows_refl].
Qed.

Lemma create_run_grows request db0 db r db' : create_run_step (W := W) request db0 db r db' → grows db db'.
Proof.
  intros [(id & now & input & _ & Hid & _ & _ & ->)|(-> & _)]; [|apply grows_refl].
  apply grows_put_run. intros x Hx. congruence.
Qed.

Lemma status_row_grows status text now r : run_grows r (status_row status text now r).
Proof. destruct r. split; [done|]. right. cbn. lia. Qed.

Lemma status_grows id revision status text db0 db r db' :
  run_status_step (W := W) id revision status text db0 db r db' → grows db db'.
Proof.
  intros [(t & row & _ & Hrow & _ & _ & ->)|[(-> & _)|(-> & _)]]; [|apply grows_refl..].
  apply grows_put_run. intros x Hx. rewrite Hrow in Hx. injection Hx as <-. apply status_row_grows.
Qed.

Lemma node_row_identity request available r :
  same_identity (scanExecution r) (scanExecution (node_row request available r)).
Proof. by destruct r. Qed.

Lemma reopened_row_grows now r : run_grows r (reopened_row now r).
Proof. destruct r. split; [done|]. right. cbn. lia. Qed.

Lemma subgraph_grows request db0 db r db' : subgraph_step (W := W) request db0 db r db' → grows db db'.
Proof.
  intros [(t & av & db1 & db2 & rows & root & _ & _ & _ & _ & _ & _ & _ & _ & _ & _ & _ & _ & _ & Heff)|(-> & _)];
    [|apply grows_refl].
  eapply grows_effect; [exact Heff|apply map_tasks_grows, node_row_identity|].
  intros id x Hx. unfold map_runs. rewrite lookup_fmap, Hx. eexists. split; [done|].
  case_bool_decide; [apply reopened_row_grows|apply run_grows_refl].
Qed.
End Steps.

(** The clients rely on each other to do no more than to grow the tables. *)
Class PgGuarantee (W : Type) `{!PgServer W} : Prop := rely_grows : ∀ db db', grows db db' → pg_rely db db'.

(** ** The operations *)

Inductive PgOp : Type → Type :=
  | PCall {A} (c : Call A) : PgOp A
  | PCreateExecution (request : CreateExecutionRequest) : PgOp Execution
  | PCreatePipelineRun (request : CreatePipelineRunRequest) : PgOp PipelineRun
  | PSetPipelineRunStatus (id : UUID) (revision : Z) (status : RunStatus) (text : string) : PgOp unit
  | PClaim (owner : string) (keys : list TaskKey) (limit : Z) (lease : Duration) : PgOp (list Execution)
  | PReapExpired : PgOp (list UUID)
  | PRestartPipelineSubgraph (request : RestartSubgraph) : PgOp Execution
  | PGetExecution (id : UUID) : PgOp Execution
  | PListExecutions (filter : ListFilter) : PgOp (list Execution)
  | PListRunExecutions (run : UUID) : PgOp (list Execution)
  | PEvents (id : UUID) : PgOp (list Event)
  | PGetPipelineRun (id : UUID) : PgOp PipelineRun
  | PListPipelineRuns (filter : RunFilter) : PgOp (list PipelineRun)
  | PExecutionCounts : PgOp (list ExecutionCount)
  | PPipelineCounts : PgOp (list PipelineCount).

Section Operations.
Context `{E : GoEnv} {J : Jsonb} {W : Type} `{!PgClient W}.

Definition pg_run {A} (o : PgOp A) : M W A :=
  match o with
  | PCall c => pg_call c
  | PCreateExecution request => Postgres.CreateExecution request
  | PCreatePipelineRun request => Postgres.CreatePipelineRun request
  | PSetPipelineRunStatus id revision status text => Postgres.SetPipelineRunStatus id revision status text
  | PClaim owner keys limit lease => Postgres.Claim owner keys limit lease
  | PReapExpired => Postgres.ReapExpired
  | PRestartPipelineSubgraph request => Postgres.RestartPipelineSubgraph request
  | PGetExecution id => Postgres.GetExecution id
  | PListExecutions filter => Postgres.ListExecutions filter
  | PListRunExecutions run => Postgres.ListRunExecutions run
  | PEvents id => Postgres.Events id
  | PGetPipelineRun id => Postgres.GetPipelineRun id
  | PListPipelineRuns filter => Postgres.ListPipelineRuns filter
  | PExecutionCounts => Postgres.ExecutionCounts
  | PPipelineCounts => Postgres.PipelineCounts
  end.

(** The arguments that the server accepts. *)
Definition pg_op_ok {A} (o : PgOp A) : Prop :=
  match o with
  | PCall c => pg_call_ok c
  | PCreateExecution request => request_ok request
  | PCreatePipelineRun request => run_request_ok request
  | PSetPipelineRunStatus _ revision _ text => (revision <= MaxInt64)%Z ∧ text_arg text = true
  | PClaim owner keys _ _ => claim_ok keys owner
  | PRestartPipelineSubgraph request => forallb text_arg (restart_keys request) = true
  | PListExecutions filter => filter_ok filter
  | PListPipelineRuns filter => run_filter_ok filter
  | _ => True
  end.

Context {HE : GoEnvOk} {SV : PgServer W} {HL : PgLaws (W := W)} {HG : PgGuarantee W}.

Abbreviation DBof w := (pg_db (pg_state (W := W) w)).
Abbreviation rely := (pg_rely (W := W)).
Abbreviation outcome := (PgTx.outcome (W := W)).

(** An operation whose steps grow the tables. *)
Lemma pg_outcome_rely {A} (step : DB → error + A → DB → Prop) db r db' :
  (∀ db1 r db2, step db1 r db2 → grows db1 db2) → outcome step db r db' → rely db db'.
Proof using HL HG.
  intros Hs [db1 db2 H1 H2 H3|H1 _|db1 db2 x H1 H2 H3 _]; [|done|];
    (eapply pg_rely_then; [exact H1|]; eapply pg_rely_then; [|exact H3]; by eapply rely_grows, Hs).
Qed.

Lemma wp_grows {A} (m : M W A) (step : DB → error + A → DB → Prop) w :
  (∀ db1 r db2, step db1 r db2 → grows db1 db2) →
  wp m (λ r w', idle w' ∧ outcome step (DBof w) r (DBof w')) w →
  wp m (λ _ w', idle w' ∧ rely (DBof w) (DBof w')) w.
Proof using HL HG.
  intros Hs Hm. eapply wp_mono; [exact Hm|]. intros r w' [Hi Ho]. split; [done|by eapply pg_outcome_rely].
Qed.

Ltac reads := intros ???; (intros [-> _] || intros [[-> _] _]); apply grows_refl.

Lemma pg_run_guarantee {A} (o : PgOp A) w :
  pg_op_ok o → idle w → wp (pg_run o) (λ _ w', idle w' ∧ rely (DBof w) (DBof w')) w.
Proof using HE HL HG.
  intros Hok Hi. destruct o; cbn [pg_run pg_op_ok] in *.
  - eapply wp_grows; [|by apply pg_call_atomic]. intros ???. apply pg_steps_grow.
  - eapply wp_grows; [|by apply pg_CreateExecution_atomic]. intros ???. apply create_grows.
  - eapply wp_grows; [|by apply pg_CreatePipelineRun_atomic]. intros ???. apply create_run_grows.
  - destruct Hok. eapply wp_grows; [|by apply pg_SetPipelineRunStatus_atomic]. intros ???. apply status_grows.
  - eapply wp_mono; [by apply pg_Claim_atomic|]. intros r w' [Hi' [(_ & _ & ->)|Ho]]; (split; [done|]); [apply pg_rely_same|].
    eapply pg_outcome_rely; [|exact Ho]. intros ???. apply claim_grows.
  - eapply wp_mono; [by apply pg_ReapExpired_atomic|]. intros r w' [Hi' (ro & Ho & _)]. split; [done|].
    eapply pg_outcome_rely; [|exact Ho]. intros ???. apply reap_grows.
  - eapply wp_grows; [|by apply pg_RestartPipelineSubgraph_atomic]. intros ???. apply subgraph_grows.
  - eapply wp_grows; [|by apply pg_GetExecution_atomic]. reads.
  - eapply wp_grows; [|by apply pg_ListExecutions_atomic]. reads.
  - eapply wp_grows; [|by apply pg_ListRunExecutions_atomic]. reads.
  - eapply wp_grows; [|by apply pg_Events_atomic]. reads.
  - eapply wp_grows; [|by apply pg_GetPipelineRun_atomic]. reads.
  - eapply wp_grows; [|by apply pg_ListPipelineRuns_atomic]. reads.
  - eapply wp_grows; [|by apply pg_ExecutionCounts_atomic]. reads.
  - eapply wp_grows; [|by apply pg_PipelineCounts_atomic]. reads.
Qed.
End Operations.
