(* ===== verification/PgProps.v ===== *)
(** * The properties of the Postgres store

    What the operations of [postgres.Store] promise to a client, whatever other clients commit meanwhile
    and whichever connection is lost, and how they agree with the in-memory store. *)

From S2P Require Import Prelude GoLib GoText Model Memory MemoryInv StoreSpec.
From S2P Require Import PgTables Postgres PgServer PgTx PgStmts PgSpec PgCalls PgRows PgDelivery PgCreate.
From S2P Require Import PgSubgraph PgReads PgPurge PgClients.

Section Postgres.
Context `{E : GoEnv} {HE : GoEnvOk} {J : Jsonb} {W : Type} `{!PgClient W} {SV : PgServer W} {HL : PgLaws (W := W)}.

Abbreviation DBof w := (pg_db (pg_state (W := W) w)).
Abbreviation rely := (pg_rely (W := W)).
Abbreviation outcome := (PgTx.outcome (W := W)).


(** C7: a claim is exclusive and fair: the executions it returns, each once and at most [limit] (one if the
    limit is not positive), were claimable at one instant of the call (routed to the caller, due, not under
    a live lease and with attempts left), and every other claimable execution of that instant that is left
    out, unless another open transaction may have held its row ([pg_held]), is due no earlier than each of
    them, of which there are then [limit]; so without other holders a claim returns the executions that are
    due first, and none only if none is due. Each is still as it was when the claim takes effect, is running
    from then on under a new token of its own, and its start is recorded. A call without keys returns
    nothing; one that loses its connection has claimed all or none. The statement is taken to see one
    committed state: rows that the server checks again because they changed since its snapshot may come out
    of the order. *)
Theorem postgres_claim_exclusive owner keys limit lease w :
  claim_ok keys owner → idle w →
  wp (Postgres.Claim owner keys limit lease) (λ r w', idle w' ∧
    (keys = [] ∧ r = inr [] ∧ DBof w' = DBof w ∨
     outcome (claim_step keys owner (if (limit <=? 0)%Z then 1%Z else limit) lease (DBof w)) (DBof w) r (DBof w'))) w.
Proof. apply pg_Claim_atomic. Qed.

(** C19: creation is atomic and idempotent: for arguments that the columns accept, a new execution or run is
    stored, with the first event of an execution, at an instant at which no stored one has its idempotency
    key (nor, for an execution of a run, its node key in the run, the empty one included). If there is one
    at an instant of the call, nothing is stored, and the answer is given at a later instant: the stored one
    with that idempotency key or non-empty node key, or ErrNoRows if there is none, for instance because it
    was removed meanwhile; a request without an idempotency key that conflicts on the empty node key gets an
    error that says so. An execution for a run that is not stored is refused with the foreign-key error, and
    a call that loses its connection has stored all or nothing. *)
Theorem postgres_create_idempotent request run_request w :
  request_ok request → run_request_ok run_request → idle w →
  wp (Postgres.CreateExecution request)
    (λ r w', idle w' ∧ outcome (create_step request (DBof w)) (DBof w) r (DBof w')) w ∧
  wp (Postgres.CreatePipelineRun run_request)
    (λ r w', idle w' ∧ outcome (create_run_step run_request (DBof w)) (DBof w) r (DBof w')) w.
Proof. intros H1 H2 Hi. split; [by apply pg_CreateExecution_atomic|by apply pg_CreatePipelineRun_atomic]. Qed.

(** C20: the status of a run is compare-and-set: it is updated at an instant at which the stored revision is the
    expected one, which the update increments; a run with another revision is left as it was, and the call
    tells a conflict from a run that is not stored. *)
Theorem postgres_run_compare_and_set id revision status text w :
  (revision <= MaxInt64)%Z → text_arg text = true → idle w →
  wp (Postgres.SetPipelineRunStatus id revision status text)
    (λ r w', idle w' ∧ outcome (run_status_step id revision status text (DBof w)) (DBof w) r (DBof w')) w.
Proof. apply pg_SetPipelineRunStatus_atomic. Qed.

(** The reaper fails expired final attempts of one instant of the call, all that nobody else held and no
    others than expired ones; it returns their runs, each once. *)
Theorem postgres_reaper_exact w :
  idle w →
  wp Postgres.ReapExpired (λ r w', idle w' ∧ ∃ ro, outcome (reap_step (DBof w)) (DBof w) ro (DBof w') ∧
    match ro with inl e => r = inl e | inr runs => ∃ l, r = inr l ∧ l ≡ₚ elements runs end) w.
Proof. apply pg_ReapExpired_atomic. Qed.

(** C16: the restart of a part of a pipeline is all or nothing: at one instant the root becomes pending, the
    other requested nodes blocked, each with its attempts and results cleared and an event, and the run is
    running again under the next revision. None of the nodes stored when they were looked at was active; a
    refusal changes nothing. The rows of a query are taken to arrive completely or the call to fail. *)
Theorem postgres_restart_subgraph request w :
  forallb text_arg (restart_keys request) = true → idle w →
  wp (Postgres.RestartPipelineSubgraph request)
    (λ r w', idle w' ∧ outcome (subgraph_step request (DBof w)) (DBof w) r (DBof w')) w.
Proof. apply pg_RestartPipelineSubgraph_atomic. Qed.

(** C28: reads are snapshots that agree with the in-memory store: lookups and pages of executions and of
    runs are what the in-memory store returns on the records that are stored at one instant of the call, the
    nodes of a run and the counts are that up to their order, and nothing is changed. The texts of a filter
    are valid and its cursor is in whole microseconds, as the cursors that the store returns are. *)
Theorem postgres_reads_agree id filter run_filter w :
  filter_ok filter → run_filter_ok run_filter → idle w →
  wp (Postgres.GetExecution id) (λ r w', idle w' ∧
    outcome (answers cloneExecution (Memory.GetExecution id)) (DBof w) r (DBof w')) w ∧
  wp (Postgres.GetPipelineRun id) (λ r w', idle w' ∧
    outcome (answers cloneRun (Memory.GetPipelineRun id)) (DBof w) r (DBof w')) w ∧
  wp (Postgres.ListExecutions filter) (λ r w', idle w' ∧
    outcome (answers (fmap cloneExecution) (Memory.ListExecutions filter)) (DBof w) r (DBof w')) w ∧
  wp (Postgres.ListPipelineRuns run_filter) (λ r w', idle w' ∧
    outcome (answers (fmap cloneRun) (Memory.ListPipelineRuns run_filter)) (DBof w) r (DBof w')) w ∧
  wp (Postgres.ListRunExecutions id) (λ r w', idle w' ∧ outcome (λ db r db',
    answers_upto cloneExecution (Memory.ListRunExecutions id) db r db' ∧
    ∀ l, r = inr l → oldest_first e_CreatedAt e_ID l) (DBof w) r (DBof w')) w ∧
  wp Postgres.ExecutionCounts (λ r w', idle w' ∧
    outcome (answers_upto (λ row, row) Memory.ExecutionCounts) (DBof w) r (DBof w')) w ∧
  wp Postgres.PipelineCounts (λ r w', idle w' ∧
    outcome (answers_upto (λ row, row) Memory.PipelineCounts) (DBof w) r (DBof w')) w.
Proof.
  intros H1 H2 Hi. split_and!; [by apply pg_GetExecution_atomic|by apply pg_GetPipelineRun_atomic|by apply pg_ListExecutions_atomic
    |by apply pg_ListPipelineRuns_atomic|by apply pg_ListRunExecutions_atomic|by apply pg_ExecutionCounts_atomic|by apply pg_PipelineCounts_atomic].
Qed.

(** C30: a purge removes, all at one instant: runs that ended before the deadline with all their nodes,
    whatever the status of those nodes, and executions of no run that ended before it; at most [limit] runs
    and single executions (1000 if the limit is not positive), with all their events, and nothing else; it
    reports their numbers. When an execution joins one of these runs meanwhile it fails with the foreign-key
    error, and it has removed all or nothing when the connection is lost. *)
Theorem postgres_purge_safe before limit w :
  idle w →
  wp (Postgres.Purge before limit) (λ r w', idle w' ∧
    outcome (purge_step before (if (limit <=? 0)%Z then 1000%Z else limit)) (DBof w) r (DBof w')) w.
Proof. apply pg_Purge_atomic. Qed.

Context {HG : PgGuarantee W}.

(** C12: what clients rely on is what they guarantee: every operation but the purge, called while others only
    grow the tables, keeps every constraint of the schema and grows them itself: executions and runs stay
    stored with the columns of their creation, every change of a run increases its revision, and no event is
    changed or lost. *)
Theorem postgres_clients_compose {A} (o : PgOp A) w :
  pg_op_ok o → idle w → wp (pg_run o) (λ _ w', idle w' ∧ rely (DBof w) (DBof w')) w.
Proof. apply pg_run_guarantee. Qed.
End Postgres.
