(* ===== verification/PgWitness.v ===== *)
(** * The Postgres store's properties on a concrete server

    A server with one client, in memory.  It satisfies the laws of [PgLaws] and makes the operations of the
    store executable. *)

From S2P Require Import Prelude GoLib GoText Model Memory MemoryInv StoreSpec Demo.
From S2P Require Import PgTables Postgres PgServer PgTx PgStmts PgSpec PgCalls PgRows PgDelivery PgCreate.
From S2P Require Import PgSubgraph PgReads PgPurge PgClients PgProps.

(** A value is kept as it was written; the empty text is no JSON. *)
#[export] Instance demo_jsonb : Jsonb := {| jsonb s := if is_empty s then None else Some s |}.

(** Later than the longest duration after the zero instant. *)
Definition pg_now : Time := (10 ^ 19)%Z.

(** ** New identifiers *)

Definition tokens (db : DB) : list UUID := omap tr_lease_token (task_values db).

(** Larger than every token. *)
Definition new_token (db : DB) (id : UUID) : UUID := (1 + foldr N.max 0 (tokens db) + id)%N.

Definition used (db : DB) : gset UUID := dom (db_tasks db) ∪ dom (db_runs db) ∪ dom (db_events db).

Definition new_id (s : PgState) : UUID := fresh ({[uuid_Nil]} ∪ used (pg_db s) ∪ used (pending s) ∪ pg_issued s).

Definition env_of (db : DB) : SqlEnv := mkSqlEnv pg_now (new_token db) (λ _, false) (λ _ l, l).

(** ** The calls *)

Definition run_query {A} (s : Stmt A) : M PgState A := λ w,
  match s (env_of (pg_db w)) (pg_db w) with
  | inl e => (inl e, w)
  | inr o => (inr (out_value o), st_publish (out_db o) w)
  end.

(** The error for a transaction that this server did not start. *)
Definition no_transaction : error := sql_error "no transaction is open".

Definition run_tx_query {A} (s : Stmt A) : M PgState A := λ w,
  match pg_tx w with
  | None => (inl no_transaction, w)
  | Some tx =>
      let v := view tx (pg_db w) in
      if negb (tx_now tx =? pg_now)%Z then (inl no_transaction, st_tx None w) else
      match s (env_of v) v with
      | inl e => (inl e, st_tx None w)
      | inr o => (inr (out_value o), st_tx (Some (tx_write tx v o)) w)
      end
  end.

#[export] Instance demo_client : PgClient PgState := {|
  db_Query A s := run_query s;
  db_BeginTx w := (inr tt, st_tx (Some (empty_tx pg_now)) w);
  tx_Query A s := run_tx_query s;
  tx_Commit w := match pg_tx w with
                 | None => (inl no_transaction, w)
                 | Some tx => (inr tt, st_publish (view tx (pg_db w)) w)
                 end;
  tx_Rollback w := (inr tt, st_tx None w);
  process_Now w := (inr pg_now, w);
  process_UUID w := (inr (new_id w), st_issue (new_id w) w);
  process_Range A l w := (inr l, w);
|}.

(** Nobody else is connected, so that any assumption about other clients holds. *)
#[export] Instance demo_server : PgServer PgState := {|
  pg_state w := w;
  pg_rely := grows;
  pg_held _ _ := False;
  pg_transport e := e = no_transaction;
|}.

(** ** The laws *)

Lemma new_token_above db id t : t ∈ tokens db → (t < new_token db id)%N.
Proof.
  unfold new_token. generalize (tokens db). intros l. induction l as [|x l IH]; [by intros ?%elem_of_nil|].
  intros [->|Hin]%elem_of_cons; simpl; [lia|]. specialize (IH Hin). lia.
Qed.

Lemma env_of_ok db : env_ok (env_of db) db.
Proof.
  split; cbn [env_of sql_now sql_token sql_scan].
  - done.
  - done.
  - unfold new_token, uuid_Nil. lia.
  - intros id i r Hr Ht. assert (new_token db id ∈ tokens db) as Hin; [|apply (new_token_above _ id) in Hin; lia].
    apply list_elem_of_omap. exists r. split; [|done]. apply list_elem_of_fmap. exists (i, r).
    split; [done|]. by apply elem_of_map_to_list.
  - unfold new_token. lia.
Qed.

Lemma used_not id db : id ∉ used db → unused id db.
Proof. unfold used, unused. rewrite !not_elem_of_union, !not_elem_of_dom. tauto. Qed.

Lemma still (w : PgState) : evolve (W := PgState) w w.
Proof. split; try done. apply grows_refl. Qed.

#[export] Instance demo_guarantee : PgGuarantee PgState.
Proof. intros db db' Hg. exact Hg. Qed.

#[export] Instance demo_laws : PgLaws (W := PgState).
Proof.
  split; cbn [pg_state pg_rely pg_transport demo_server]; intros *.
  - apply grows_refl.
  - apply grows_trans.
  - intros Htx. unfold wp. cbn [db_Query demo_client]. exists w. split; [apply still|]. right.
    exists (env_of (pg_db w)). split; [apply env_of_ok|]. unfold run_query.
    destruct (s (env_of (pg_db w)) (pg_db w)); [done|]. split; [done|by left].
  - intros Htx. exists w. split; [apply still|]. right. by exists pg_now.
  - intros Htx. unfold wp. cbn [tx_Query demo_client]. exists w. split; [apply still|]. unfold run_tx_query. rewrite Htx.
    destruct (Z.eqb_spec (tx_now tx) pg_now) as [Hnow|Hnow]; cbn [negb].
    + right. exists (env_of (view tx (pg_db w))). unfold pending. rewrite Htx. split; [apply env_of_ok|]. split; [done|]. split; [done|].
      by destruct (s (env_of (view tx (pg_db w))) (view tx (pg_db w))).
    + left. split; [done|]. by eexists.
  - intros Htx. unfold wp. cbn [tx_Commit demo_client]. exists w. split; [apply still|]. rewrite Htx. right.
    split; [done|by left].
  - exists w. split; [apply still|]. split; [done|by left].
  - split; [|done]. by exists pg_now.
  - assert (new_id w ∉ {[uuid_Nil]} ∪ used (pg_db w) ∪ used (pending w) ∪ pg_issued w) as Hf by (unfold new_id; apply is_fresh).
    apply not_elem_of_union in Hf as [[[H1 H2]%not_elem_of_union H3]%not_elem_of_union H4].
    exists (new_id w). split_and!; [done|set_solver|by apply used_not|by apply used_not|done|done].
  - split; [|done]. by exists l.
Qed.

(** ** Tables *)

Definition pg_empty : PgState := mkPgState (mkDB ∅ ∅ ∅) None ∅.

Lemma idle_empty : idle (W := PgState) pg_empty.
Proof. split; [done|]. split; simpl; intros *; rewrite ?lookup_empty; done. Qed.

(** Every operation leaves the server idle, with its tables in order. *)
Lemma idle_run {A} (o : PgOp A) w : pg_op_ok o → idle (W := PgState) w → idle (W := PgState) (pg_run o w).2.
Proof. intros Hok Hi. by destruct (pg_run_guarantee o w Hok Hi). Qed.

(** ** The scenario *)

(** An execution is created and claimed. *)
Definition pg_request_op : PgOp Execution := PCreateExecution (demo_request "k").
Definition pg_claim_op : PgOp (list Execution) := PClaim "w" [demo_key] 3 1000000000.
Definition pg_created : PgState := (pg_run pg_request_op pg_empty).2.
Definition pg_claimed : PgState := (pg_run pg_claim_op pg_created).2.
Definition pg_first_id : UUID := 1%N.
Definition pg_token (w : PgState) (id : UUID) : UUID :=
  match db_tasks (pg_db w) !! id with Some r => default uuid_Nil (tr_lease_token r) | None => uuid_Nil end.

(** A run with two nodes. *)
Definition pg_run_request : CreatePipelineRunRequest := mkCreatePipelineRun "p" 1 (Some "{}") "r".
Definition pg_with_run : PgState := (pg_run (PCreatePipelineRun pg_run_request) pg_empty).2.
Definition pg_node_op (node : string) : PgOp Execution := PCreateExecution (demo_node pg_first_id node).
Definition pg_nodes : PgState := (pg_run (pg_node_op "second") (pg_run (pg_node_op "first") pg_with_run).2).2.

Ltac accepted := split; try done; try (by eexists); try (cbn; lia).

Lemma demo_request_ok key : text_arg key = true → request_ok (demo_request key).
Proof. intros Hk. by accepted. Qed.

Lemma demo_node_ok node : text_arg node = true → request_ok (demo_node pg_first_id node).
Proof. intros Hn. by accepted. Qed.

Lemma pg_run_request_ok : run_request_ok pg_run_request.
Proof. by accepted. Qed.

Lemma idle_created : idle (W := PgState) pg_created.
Proof. apply idle_run; [by apply demo_request_ok|apply idle_empty]. Qed.

Lemma idle_claimed : idle (W := PgState) pg_claimed.
Proof. apply idle_run; [done|apply idle_created]. Qed.

Lemma idle_with_run : idle (W := PgState) pg_with_run.
Proof. apply idle_run; [apply pg_run_request_ok|apply idle_empty]. Qed.

Lemma idle_nodes : idle (W := PgState) pg_nodes.
Proof. apply idle_run; [by apply demo_node_ok|]. apply idle_run; [by apply demo_node_ok|apply idle_with_run]. Qed.

(** ** The witnesses *)

Abbreviation idle_pg := (idle (W := PgState)).
Abbreviation outcome_pg := (PgTx.outcome (W := PgState)).
Abbreviation DBof w := (pg_db (pg_state (W := PgState) w)).

(** The owner of a lease reports success; with another token nothing happens. *)
Definition pg_succeed (token : UUID) : Call unit := CSucceed pg_first_id token (Some "7").

Lemma pg_succeed_ok token : pg_call_ok (pg_succeed token).
Proof. by eexists. Qed.


(** A second execution, created later and due earlier: a claim of one returns that one, since nobody holds
    its row; of the remaining ones a claim of three returns the first, and then nothing is left. *)
Definition pg_earlier : CreateExecutionRequest :=
  mkCreateExecution "mail" 1 (Some "{}") 2 (pg_now - Second)%Z "early" None EmptyString.
Definition pg_two : PgState := (pg_run (PCreateExecution pg_earlier) pg_created).2.

Lemma pg_earlier_ok : request_ok pg_earlier.
Proof. by accepted. Qed.

Lemma idle_two : idle (W := PgState) pg_two.
Proof. apply idle_run; [apply pg_earlier_ok|apply idle_created]. Qed.

Lemma postgres_claim_exclusive_witness :
  match (Postgres.Claim "w" [demo_key] 1 1000000000 pg_two).1 with
  | inr [e] => e_IdempotencyKey e = "early" | _ => False end ∧
  match (Postgres.Claim "w" [demo_key] 3 1000000000 pg_created).1 with inr [e] => e_ID e = pg_first_id | _ => False end ∧
  (Postgres.Claim "v" [demo_key] 3 1000000000 pg_claimed).1 = inr [] ∧
  wp (Postgres.Claim "w" [demo_key] 1 1000000000) (λ r w', idle_pg w' ∧
    ([demo_key] = [] ∧ r = inr [] ∧ DBof w' = DBof pg_two ∨
     outcome_pg (claim_step (W := PgState) [demo_key] "w" (if (1 <=? 0)%Z then 1%Z else 1%Z) 1000000000 (DBof pg_two)) (DBof pg_two) r (DBof w')))
    pg_two.
Proof.
  split; [by vm_compute|]. split; [by vm_compute|]. split; [by vm_compute|].
  exact (postgres_claim_exclusive (W := PgState) "w" [demo_key] 1 1000000000 pg_two eq_refl idle_two).
Defined.

(** The request is made twice: the second call returns the stored execution. *)
Lemma postgres_create_idempotent_witness :
  match (Postgres.CreateExecution (demo_request "k") pg_claimed).1 with
  | inr e => e_ID e = pg_first_id ∧ e_Status e = StatusRunning | inl _ => False end ∧
  wp (Postgres.CreateExecution (demo_request "k")) (λ r w', idle_pg w' ∧
    outcome_pg (create_step (W := PgState) (demo_request "k") (DBof pg_claimed)) (DBof pg_claimed) r (DBof w')) pg_claimed ∧
  wp (Postgres.CreatePipelineRun pg_run_request) (λ r w', idle_pg w' ∧
    outcome_pg (create_run_step (W := PgState) pg_run_request (DBof pg_claimed)) (DBof pg_claimed) r (DBof w')) pg_claimed.
Proof.
  split; [by vm_compute|].
  exact (postgres_create_idempotent (W := PgState) (demo_request "k") pg_run_request pg_claimed
    (demo_request_ok "k" eq_refl) pg_run_request_ok idle_claimed).
Defined.

(** The revision 0 of the run is updated; revision 5 is a conflict. *)
Lemma postgres_run_compare_and_set_witness :
  (Postgres.SetPipelineRunStatus pg_first_id 0 RunRunning EmptyString pg_with_run).1 = inr tt ∧
  (Postgres.SetPipelineRunStatus pg_first_id 5 RunRunning EmptyString pg_with_run).1 = inl (ErrConflict : error) ∧
  wp (Postgres.SetPipelineRunStatus pg_first_id 0 RunRunning EmptyString) (λ r w', idle_pg w' ∧
    outcome_pg (run_status_step (W := PgState) pg_first_id 0 RunRunning EmptyString (DBof pg_with_run)) (DBof pg_with_run) r (DBof w'))
    pg_with_run.
Proof.
  split; [by vm_compute|]. split; [by vm_compute|].
  refine (postgres_run_compare_and_set (W := PgState) pg_first_id 0 RunRunning EmptyString pg_with_run _ eq_refl idle_with_run).
  by vm_compute.
Defined.

(** The nodes are pending and cannot be restarted; after they were cancelled they can. *)
Definition pg_restart : RestartSubgraph := mkRestartSubgraph pg_first_id "first" ["second"] 0.
Definition pg_cancel (id : UUID) : PgOp unit := PCall (CCancel id "stop").
Definition pg_node_ids (w : PgState) : list UUID := (map_to_list (db_tasks (pg_db w))).*1.
Definition pg_cancel_all (w : PgState) (ids : list UUID) : PgState := foldl (λ w id, (pg_run (pg_cancel id) w).2) w ids.
Definition pg_cancelled : PgState := pg_cancel_all pg_nodes (pg_node_ids pg_nodes).

Lemma idle_cancel_all ids : ∀ w, idle_pg w → idle_pg (pg_cancel_all w ids).
Proof.
  induction ids as [|id ids IH]; intros w Hi; [exact Hi|].
  exact (IH _ (idle_run (pg_cancel id) w eq_refl Hi)).
Qed.

Lemma idle_cancelled : idle_pg pg_cancelled.
Proof. exact (idle_cancel_all _ _ idle_nodes). Qed.

Lemma postgres_restart_subgraph_witness :
  (Postgres.RestartPipelineSubgraph pg_restart pg_nodes).1 = inl (ErrActive : error) ∧
  match (Postgres.RestartPipelineSubgraph pg_restart pg_cancelled).1 with
  | inr e => e_NodeKey e = "first" ∧ e_Status e = StatusPending | inl _ => False end ∧
  wp (Postgres.RestartPipelineSubgraph pg_restart) (λ r w', idle_pg w' ∧
    outcome_pg (subgraph_step (W := PgState) pg_restart (DBof pg_cancelled)) (DBof pg_cancelled) r (DBof w')) pg_cancelled.
Proof.
  split; [by vm_compute|]. split; [by vm_compute|].
  exact (postgres_restart_subgraph (W := PgState) pg_restart pg_cancelled eq_refl idle_cancelled).
Defined.

(** The claimed execution is listed and counted. *)
Definition pg_filter : ListFilter := mkListFilter "mail" EmptyString None 5 None.
Definition pg_run_filter : RunFilter := mkRunFilter [] 5 None.

Lemma postgres_reads_agree_witness :
  match (Postgres.ListExecutions pg_filter pg_claimed).1 with inr [e] => e_ID e = pg_first_id | _ => False end ∧
  (Postgres.ExecutionCounts pg_claimed).1 = inr [mkExecutionCount "mail" "running" 1] ∧
  wp (Postgres.ListExecutions pg_filter) (λ r w', idle_pg w' ∧
    outcome_pg (answers (fmap cloneExecution) (Memory.ListExecutions pg_filter)) (DBof pg_claimed) r (DBof w')) pg_claimed.
Proof.
  split; [by vm_compute|]. split; [by vm_compute|].
  exact (proj1 (proj2 (proj2 (postgres_reads_agree (W := PgState) pg_first_id pg_filter pg_run_filter pg_claimed
    (conj eq_refl I) (conj eq_refl I) idle_claimed)))).
Defined.

(** The finished execution is purged once its end is before the deadline. *)
Definition pg_finished : PgState := (pg_run (PCall (pg_succeed (pg_token pg_claimed pg_first_id))) pg_claimed).2.

Lemma idle_finished : idle_pg pg_finished.
Proof. apply (idle_run (PCall (pg_succeed _))); [apply pg_succeed_ok|apply idle_claimed]. Qed.

Lemma postgres_purge_safe_witness :
  (Postgres.Purge (pg_now + Second) 10 pg_finished).1 = inr (mkPurgeResult 1 0) ∧
  (Postgres.Purge (pg_now + Second) 10 pg_claimed).1 = inr (mkPurgeResult 0 0) ∧
  wp (Postgres.Purge (pg_now + Second) 10) (λ r w', idle_pg w' ∧
    outcome_pg (purge_step (pg_now + Second) (if (10 <=? 0)%Z then 1000%Z else 10%Z)) (DBof pg_finished) r (DBof w')) pg_finished.
Proof.
  split; [by vm_compute|]. split; [by vm_compute|].
  exact (postgres_purge_safe (W := PgState) (pg_now + Second) 10 pg_finished idle_finished).
Defined.

(** The tables grow by a claim. *)
Lemma postgres_clients_compose_witness :
  wp (pg_run pg_claim_op) (λ _ w', idle_pg w' ∧ pg_rely (DBof pg_created) (DBof w')) pg_created.
Proof. exact (postgres_clients_compose (W := PgState) pg_claim_op pg_created eq_refl idle_created). Defined.
