(* ===== verification/Admin.v ===== *)
(** * The administration command (src/cmd/ody-admin/main.go)

    Flags and environment, the connection to a store, and the commands over the monitoring service.  The
    process and its connections are one part of the state, the contents of the store the other. *)

From S2P Require Import Prelude GoLib GoText GoFlag Model Memory Task TaskRegistry Pipeline Engine Observers.
From S2P Require Import Monitoring RedisServer Redis RedisRuns PgTables Postgres.

(** ** Stores *)

(** [execution.Store], as far as the command uses it. *)
Record Backend (S : Type) := mkBackend {
  bk_monitoring : MonitoringStore S;
  bk_statistics : StatisticsReader S;
  bk_Purge : Time → Z → M S PurgeResult;
}.
Arguments mkBackend {S} _ _ _.
Arguments bk_monitoring {S} _.
Arguments bk_statistics {S} _.
Arguments bk_Purge {S} _ _ _.

Section Stores.
Context `{E : GoEnv} {S : Type}.

Definition postgres_store {J : Jsonb} (client : PgClient S) : Backend S := mkBackend
  {| monitoring_persistence := {|
       Engine.CreatePipelineRun := Postgres.CreatePipelineRun;
       Engine.GetPipelineRun := Postgres.GetPipelineRun;
       Engine.ListPipelineRuns := Postgres.ListPipelineRuns;
       Engine.SetPipelineRunStatus := Postgres.SetPipelineRunStatus;
       Engine.RestartPipelineSubgraph := Postgres.RestartPipelineSubgraph;
       Engine.ReleaseExecution := Postgres.ReleaseExecution;
       Engine.CreateExecution := Postgres.CreateExecution;
       Engine.GetExecution := Postgres.GetExecution;
       Engine.ListRunExecutions := Postgres.ListRunExecutions;
       Engine.CancelExecution := Postgres.CancelExecution;
       Engine.RestartExecution := Postgres.RestartExecution |};
     store_ListExecutions := Postgres.ListExecutions;
     store_Events := Postgres.Events |}
  {| stat_ExecutionCounts := Postgres.ExecutionCounts; stat_PipelineCounts := Postgres.PipelineCounts |}
  Postgres.Purge.

Definition redis_store {C : RedisServer.Codec} {PR : Process S} (client : RedisClient S) (prefix : string)
    : Backend S := mkBackend
  {| monitoring_persistence := {|
       Engine.CreatePipelineRun := RedisRuns.CreatePipelineRun prefix;
       Engine.GetPipelineRun := RedisRuns.GetPipelineRun prefix;
       Engine.ListPipelineRuns := RedisRuns.ListPipelineRuns prefix;
       Engine.SetPipelineRunStatus := RedisRuns.SetPipelineRunStatus prefix;
       Engine.RestartPipelineSubgraph := Redis.RestartPipelineSubgraph prefix;
       Engine.ReleaseExecution := Redis.ReleaseExecution prefix;
       Engine.CreateExecution := Redis.CreateExecution prefix;
       Engine.GetExecution := Redis.GetExecution prefix;
       Engine.ListRunExecutions := Redis.ListRunExecutions prefix;
       Engine.CancelExecution := Redis.CancelExecution prefix;
       Engine.RestartExecution := Redis.RestartExecution prefix |};
     store_ListExecutions := Redis.ListExecutions prefix;
     store_Events := Redis.Events prefix |}
  {| stat_ExecutionCounts := RedisRuns.ExecutionCounts prefix;
     stat_PipelineCounts := RedisRuns.PipelineCounts prefix |}
  (RedisRuns.Purge prefix).
End Stores.

(** ** The process *)

(** What is given to the JSON encoder of the standard output. *)
Inductive Output :=
  | OExecutions (items : list Execution)
  | OTask (details : TaskDetails)
  | ORuns (runs : list PipelineRun)
  | OPipeline (details : PipelineDetails)
  | OPurge (result : PurgeResult)
  | OExecution (item : Execution).

(** How the HTTP server ended: [ListenAndServe] returned (with [http.ErrServerClosed] or another error), or
    a signal came and [Shutdown] returned. *)
Inductive Served := Listened (closed : bool) (err : error) | Interrupted (shutdown : error + unit).

(** The environment of the process, its connections and its output.  [Conn] stands for a pool of
    connections, of either driver. *)
Class AdminHost (H Conn URLOptions : Type) := {
  os_Getenv : string → M H string;
  time_Now : M H Time;
  stdout_Encode : Output → M H unit;
  sql_Open : string → M H Conn;
  redis_ParseURL : string → error + URLOptions;
  redis_NewClient : URLOptions → M H Conn;
  conn_Ping : Conn → M H unit;
  conn_Close : Conn → M H unit;
  prom_Register : Collector → option error;
  promhttp_Handler : ∀ {S : Type}, StatisticsReader S → Request → M (H * S) Response;
  http_Serve : ∀ {S : Type}, string → Handler (H * S) → M (H * S) Served;
}.

Section Admin.
Context `{E : GoEnv} {UP : UUIDParser} {H S Conn URLOptions : Type} {AH : AdminHost H Conn URLOptions}.
Context {J : Jsonb} {C : RedisServer.Codec} {PR : Process S}.
Context (pg_client : Conn → PgClient S) (redis_client : Conn → RedisClient S).

Abbreviation MA := (M (H * S)).

Definition on_host {A} (m : M H A) : MA A := λ w, let '(r, h) := m w.1 in (r, (h, w.2)).
Definition on_store {A} (m : M S A) : MA A := λ w, let '(r, s) := m w.2 in (r, (w.1, s)).

Definition env (key fallback : string) : MA string :=
  value ← on_host (os_Getenv key);
  mret (if is_empty value then fallback else value).

Definition printJSON {A} (value : A → Output) (r : error + A) : MA unit :=
  match r with
  | inl err => throw err
  | inr x => on_host (stdout_Encode (value x))
  end.

Definition argumentID (args : list string) : error + UUID :=
  match args with
  | [] => inl (errorString "execution or pipeline id is required")
  | arg :: _ => parse_uuid arg
  end.

(** An API over the contents of the store, as one over the whole state. *)
Definition lift_API (api : API S) : API (H * S) :=
  mkAPI (λ filter, on_store (api_ListTasks api filter)) (λ id, on_store (api_Task api id))
    (λ filter, on_store (api_ListPipelines api filter)) (λ id, on_store (api_Pipeline api id))
    (λ id, on_store (api_RestartTask api id)) (λ id reason, on_store (api_CancelTask api id reason)).

(** [errors.Is(err, http.ErrServerClosed)] is the first component of [Listened]. *)
Definition serve (api : API S) (store : Backend S) (addr : string) : MA unit :=
  match NewMetrics (Some (prom_Register (H := H) (Conn := Conn) (URLOptions := URLOptions))) true with
  | inl err => throw err
  | inr _ =>
      match NewHandler (Some (lift_API api)) (Some (promhttp_Handler (AdminHost := AH) (bk_statistics store))) with
      | inl err => throw err
      | inr handler =>
          served ← http_Serve addr handler;
          match served with
          | Listened closed err => if closed : bool then mret tt else throw err
          | Interrupted (inl err) => throw err
          | Interrupted (inr _) => mret tt
          end
      end
  end.

(** [strings.Split(s, ",")]. *)
Fixpoint split_comma (s : string) : list string :=
  match s with
  | EmptyString => [EmptyString]
  | String c s' =>
      if bool_decide (c = char 44) then EmptyString :: split_comma s'
      else match split_comma s' with
           | part :: parts => String c part :: parts
           | [] => [String c EmptyString]
           end
  end.

(** [strings.Join(args, " ")]. *)
Fixpoint join_space (args : list string) : string :=
  match args with
  | [] => EmptyString
  | [arg] => arg
  | arg :: args' => (arg ++ String (char 32) (join_space args'))%string
  end.

Definition Hour : Duration := (3600 * Second)%Z.

Definition tasks_flags : FlagSet :=
  <["status" := FString EmptyString]> (<["name" := FString EmptyString]> (<["limit" := FInt 100]> ∅)).
Definition pipelines_flags : FlagSet := <["status" := FString EmptyString]> (<["limit" := FInt 100]> ∅).
Definition purge_flags : FlagSet := <["older-than" := FDuration (30 * 24 * Hour)%Z]> (<["limit" := FInt 1000]> ∅).

Definition with_flags (flags : FlagSet) (args : list string) (k : FlagSet → MA unit) : MA unit :=
  match Parse flags args with inl err => throw err | inr (flags, _) => k flags end.

Definition with_id (args : list string) (k : UUID → MA unit) : MA unit :=
  match argumentID args with inl err => throw err | inr id => k id end.

Definition command (api : API S) (store : Backend S) (addr name : string) (args : list string) : MA unit :=
  if bool_decide (name = "tasks") then
    with_flags tasks_flags args (λ flags,
      items ← try (on_store (api_ListTasks api
        (mkListFilter (string_flag "name" flags) (string_flag "status" flags) None (int_flag "limit" flags) None)));
      printJSON OExecutions items)
  else if bool_decide (name = "task") then
    with_id args (λ id, item ← try (on_store (api_Task api id)); printJSON OTask item)
  else if bool_decide (name = "pipelines") then
    with_flags pipelines_flags args (λ flags,
      let statusList := string_flag "status" flags in
      let statuses := if is_empty statusList then [] else split_comma statusList in
      items ← try (on_store (api_ListPipelines api (mkRunFilter statuses (int_flag "limit" flags) None)));
      printJSON ORuns items)
  else if bool_decide (name = "pipeline") then
    with_id args (λ id, item ← try (on_store (api_Pipeline api id)); printJSON OPipeline item)
  else if bool_decide (name = "purge") then
    with_flags purge_flags args (λ flags,
      let olderThan := duration_flag "older-than" flags in
      let limit := int_flag "limit" flags in
      if (olderThan <=? 0)%Z || (limit <=? 0)%Z
      then throw (errorString "older-than and limit must be positive") else
      now ← on_host time_Now;
      result ← try (on_store (bk_Purge store (Add now (- olderThan)) limit));
      printJSON OPurge result)
  else if bool_decide (name = "restart") then
    with_id args (λ id, item ← try (on_store (api_RestartTask api id)); printJSON OExecution item)
  else if bool_decide (name = "cancel") then
    with_id args (λ id,
      let reason := match args with _ :: (_ :: _ as rest) => join_space rest | _ => "cancelled by operator" end in
      on_store (api_CancelTask api id reason))
  else if bool_decide (name = "serve") then serve api store addr
  else throw (fmt_Errorf "unknown command %q" [name]).

(** The store with the function that closes its connections. *)
Definition closing (conn : Conn) : MA unit := _ ← try (on_host (conn_Close conn)); mret tt.

Definition openStore (backend dsn redisURL redisPrefix : string) : MA (Backend S * MA unit) :=
  if bool_decide (backend = "postgres") then
    if is_empty dsn then throw (errorString "ODY_DB_DSN or --db-dsn is required for postgres") else
    db ← on_host (sql_Open dsn);
    pinged ← try (on_host (conn_Ping db));
    match pinged with
    | inl err => _ ← closing db; throw (fmtError "connect postgres: %w" [] (Some err) [])
    | inr _ =>
        match Postgres.NewStore (Some db) with
        | inl err => _ ← closing db; throw err
        | inr store => mret (postgres_store (pg_client store), closing db)
        end
    end
  else if bool_decide (backend = "redis") then
    match redis_ParseURL redisURL with
    | inl err => throw (fmtError "parse redis URL: %w" [] (Some err) [])
    | inr options =>
        client ← on_host (redis_NewClient options);
        pinged ← try (on_host (conn_Ping client));
        match pinged with
        | inl err => _ ← closing client; throw (fmtError "connect redis: %w" [] (Some err) [])
        | inr _ =>
            match Redis.New (Some client) (mkRedisOptions redisPrefix) with
            | inl err => _ ← closing client; throw err
            | inr store => mret (redis_store (redis_client (s_client store)) (s_prefix store), closing client)
            end
        end
    end
  else throw (fmt_Errorf "unsupported execution store %q" [backend]).

Definition run (args : list string) : MA unit :=
  backend ← env "ODY_STORE" "postgres";
  dsn ← env "ODY_DB_DSN" EmptyString;
  redisURL ← env "ODY_REDIS_URL" "redis://127.0.0.1:6379/0";
  redisPrefix ← env "ODY_REDIS_PREFIX" EmptyString;
  addr ← env "ODY_ADMIN_ADDR" "127.0.0.1:8081";
  let global : FlagSet := <["store" := FString backend]> (<["db-dsn" := FString dsn]>
    (<["redis-url" := FString redisURL]> (<["redis-prefix" := FString redisPrefix]> (<["addr" := FString addr]> ∅)))) in
  match Parse global args with
  | inl err => throw err
  | inr (flags, remaining) =>
      match remaining with
      | [] => throw (errorString "command is required: tasks|task|pipelines|pipeline|restart|cancel|purge|serve")
      | name :: rest =>
          opened ← openStore (string_flag "store" flags) (string_flag "db-dsn" flags)
            (string_flag "redis-url" flags) (string_flag "redis-prefix" flags);
          let '(store, closeStore) := opened in
          r ← try (match NewService (Some (bk_monitoring store)) [] with
                   | inl err => throw err
                   | inr service =>
                       command (service_API (MonitoringStore0 := bk_monitoring store) service) store
                         (string_flag "addr" flags) name rest
                   end);
          _ ← closeStore;
          match r with inl err => throw err | inr _ => mret tt end
      end
  end.

(** The exit code. *)
Definition main (args : list string) (w : H * S) : Z * (H * S) :=
  match run args w with (inl _, w') => (1%Z, w') | (inr _, w') => (0%Z, w') end.
End Admin.
