(* ===== verification/AdminProps.v ===== *)
(** * Properties of the administration command

    The round trip of flags, the ownership of connections, and the commands on a store; then a concrete host
    on which the command runs over the Postgres store. *)

From S2P Require Import Prelude GoLib GoText GoFlag Model Memory MemoryInv MemoryOps Task TaskRegistry Pipeline Engine Demo.
From S2P Require Import StoreLaws Observers ObserversProps Monitoring MonitoringProps RedisServer PgTables Postgres Admin.
From S2P Require Import RedisDemo PgServer PgTx PgStmts PgClients PgWitness.

(** ** Flags *)

Lemma leadingInt_length x s v rest : leadingInt x s = Some (v, rest) → String.length rest ≤ String.length s.
Proof.
  revert x. induction s as [|c s IH]; intros x; simpl; [by intros [= _ <-]|].
  destruct (digit c); [|by intros [= _ <-]]. repeat case_match; try done; intros Hrest%IH; lia.
Qed.

Lemma leadingFraction_length x scale o s : String.length (leadingFraction x scale o s).2 ≤ String.length s.
Proof.
  revert x scale o. induction s as [|c s IH]; intros x scale o; simpl; [done|].
  destruct (digit c); [|done]. destruct o; [|repeat case_match]; etrans; try apply IH; lia.
Qed.

Lemma unit_text_length s : String.length (unit_text s).1 + String.length (unit_text s).2 = String.length s.
Proof.
  induction s as [|c s IH]; simpl; [done|]. case_match; [done|]. destruct (unit_text s). simpl in *. lia.
Qed.

Lemma unitMap_nonempty u n : unitMap u = Some n → 0 < String.length u.
Proof. by destruct u; [vm_compute|simpl; lia]. Qed.

(** A part of a duration takes at least its unit. *)
Lemma duration_part_length s v rest : duration_part s = Some (v, rest) → String.length rest < String.length s.
Proof.
  unfold duration_part. generalize (float64 1). intros one. destruct s as [|c s0]; [done|]. generalize (String c s0). intros s. destruct (negb _); [done|].
  destruct (leadingInt 0 s) as [[x s1]|] eqn:Hl; [|done]. apply leadingInt_length in Hl. simpl.
  assert (∀ f scale s2 post, String.length s2 ≤ String.length s1 →
    (if negb (negb (bool_decide (s1 = s)) || post) then None else
      let '(u, rest) := unit_text s2 in
      unit ← unitMap u;
      if (2 ^ 63 / unit <? x)%Z then None else
      let v := (x * unit)%Z in
      let v := if (0 <? f)%Z then (v + float_trunc (float_mul (float64 f) (float_div (float64 unit) scale)))%Z else v in
      if (2 ^ 63 <? v)%Z then None else Some (v, rest)) = Some (v, rest) → String.length rest < String.length s) as Hend.
  { intros f scale s2 post Hs2. destruct (negb _); [done|]. pose proof (unit_text_length s2) as Hu.
    destruct (unit_text s2) as [u r]. simpl in Hu. destruct (unitMap u) as [unit|] eqn:Hm; [|done].
    apply unitMap_nonempty in Hm. simpl. repeat case_match; try done; intros [= _ ->]; lia. }
  destruct s1 as [|c1 s1']; [by apply Hend|]. destruct (bool_decide (c1 = char 46)); [|by apply Hend].
  pose proof (leadingFraction_length 0 one false s1') as Hf.
  destruct (leadingFraction 0 one false s1') as [[f scale] s2]. simpl in Hf. apply Hend. simpl. lia.
Qed.

(** More fuel than the length of the text changes nothing. *)
Lemma duration_sum_fuel fuel fuel' d s :
  String.length s ≤ fuel → String.length s ≤ fuel' → duration_sum fuel d s = duration_sum fuel' d s.
Proof.
  revert fuel' d s. induction fuel as [|fuel IH]; intros fuel' d s Hs Hs'.
  - destruct s; [by destruct fuel'|simpl in Hs; lia].
  - destruct s as [|c s]; [by destruct fuel'|]. destruct fuel' as [|fuel']; [simpl in Hs'; lia|]. cbn [duration_sum].
    destruct (duration_part (String c s)) as [[v rest]|] eqn:Hp; [|done]. apply duration_part_length in Hp.
    cbn [mbind option_bind String.length] in *. destruct (_ <? _)%Z; [done|]. apply IH; lia.
Qed.

(** An argument list that assigns values to flags, in any of the forms of an assignment. *)
Inductive Form := FormSpace | FormEquals.

Definition assignment (a : string * string * Form * bool) : list string :=
  let '(name, value, form, double) := a in
  let dashes := if double : bool then "--" else "-" in
  match form with
  | FormSpace => [dashes ++ name; value]%string
  | FormEquals => [dashes ++ name ++ "=" ++ value]%string
  end.

(** A name that can be given on the command line. *)
Fixpoint no_equals (s : string) : bool :=
  match s with EmptyString => true | String c s' => negb (bool_decide (c = char 61)) && no_equals s' end.

Definition name_ok (name : string) : bool :=
  match name with String c _ => negb (bool_decide (c = char 45)) && no_equals name | EmptyString => false end.

Lemma cut_equals_name s : no_equals s = true → cut_equals s = (s, None).
Proof.
  induction s as [|c s IH]; [done|]. simpl. intros [Hc Hs]%andb_true_iff. apply negb_true_iff in Hc. rewrite Hc, IH by done.
  done.
Qed.

Lemma cut_equals_value s v : no_equals s = true → cut_equals (s ++ "=" ++ v)%string = (s, Some v).
Proof.
  induction s as [|c s IH]; [done|]. simpl. intros [Hc Hs]%andb_true_iff. apply negb_true_iff in Hc. rewrite Hc.
  simpl in IH. by rewrite IH.
Qed.

(** An argument that is a flag. *)
Lemma read_arg_flag (double : bool) c s :
  c ≠ char 45 → c ≠ char 61 →
  read_arg ((if double then "--" else "-") ++ String c s)%string
  = let '(n, v) := flag_name (String c s) in ArgFlag n v.
Proof.
  intros H1 H2. apply (proj2 (bool_decide_eq_false _)) in H1, H2. destruct double.
  - change ("--" ++ String c s)%string with (String (char 45) (String (char 45) (String c s))). unfold read_arg.
    rewrite (bool_decide_true (char 45 = char 45)), (bool_decide_false (String c s = EmptyString)) by done.
    cbn [negb andb]. by rewrite H1, H2.
  - change ("-" ++ String c s)%string with (String (char 45) (String c s)). unfold read_arg.
    rewrite (bool_decide_true (char 45 = char 45)) by done. cbn [negb]. rewrite H1. cbn [andb]. by rewrite H1, H2.
Qed.

Lemma read_assignment (double : bool) name :
  name_ok name = true →
  read_arg ((if double then "--" else "-") ++ name)%string = ArgFlag name None ∧
  ∀ v, read_arg ((if double then "--" else "-") ++ name ++ "=" ++ v)%string = ArgFlag name (Some v).
Proof.
  destruct name as [|c s]; [done|]. cbn [name_ok no_equals]. rewrite !andb_true_iff, !negb_true_iff, !bool_decide_eq_false.
  intros [H1 [H2 H3]]. split; [|intros v; change (String c s ++ ?x)%string with (String c (s ++ x))];
    rewrite read_arg_flag by done; unfold flag_name; [by rewrite cut_equals_name|].
  by rewrite cut_equals_value.
Qed.

Section Flags.
Context `{E : GoEnv}.

(** The flags after assignments; [None] when a flag is not defined or a value is refused. *)
Fixpoint assign (flags : FlagSet) (l : list (string * string * Form * bool)) : option FlagSet :=
  match l with
  | [] => Some flags
  | (name, value, _, _) :: l' =>
      old ← flags !! name;
      match set_flag old value with inr new => assign (<[name := new]> flags) l' | inl _ => None end
  end.

(** Parsing reads back assignments: whatever the forms they are written in, the flags get their values, the
    last one of each, and the arguments from the first one that is no flag on are left. *)
Theorem parse_assignments flags l flags' rest :
  Forall (λ a, name_ok a.1.1.1 = true) l → assign flags l = Some flags' →
  match rest with [] => True | arg :: _ => read_arg arg = ArgStop end →
  Parse flags (concat (assignment <$> l) ++ rest) = inr (flags', rest).
Proof.
  intros Hnames Ha Hrest. revert flags Ha. induction Hnames as [|[[[name value] form] double] l Hname Hnames IH]; intros flags.
  { intros [= <-]. destruct rest as [|arg rest]; [done|]. simpl. by rewrite Hrest. }
  cbn [assign]. destruct (flags !! name) as [old|] eqn:Hold; [|done]. cbn [mbind option_bind].
  destruct (set_flag old value) as [e|new] eqn:Hset; [done|]. intros Ha. specialize (IH _ Ha).
  destruct (read_assignment double name Hname) as [H1 H2].
  rewrite fmap_cons, concat_cons. destruct form; cbn [assignment app Parse].
  - by rewrite H1, Hold, Hset.
  - by rewrite H2, Hold, Hset.
Qed.
End Flags.

(** ** The process *)

(** What the command relies on of its surroundings: opening a pool gives a new one, closing it returns its
    connections whatever it reports, and nothing else opens or closes one.  [opened] are the pools that are
    open and [printed] the values written to the standard output. *)
Class HostState (H Conn : Type) := { opened : H → list Conn; printed : H → list Output }.

Section Laws.
Context `{E : GoEnv} {UP : UUIDParser} {H Conn URLOptions : Type} {AH : AdminHost H Conn URLOptions} {HS : HostState H Conn} `{!EqDecision Conn}.

Definition host_quiet {A} (m : M H A) : Prop := ∀ h, wp m (λ _ h', opened h' = opened h ∧ printed h' = printed h) h.

Definition opens (m : M H Conn) : Prop := ∀ h, wp m (λ r h', printed h' = printed h ∧
  match r with inr c => c ∉ opened h ∧ opened h' = c :: opened h | inl _ => opened h' = opened h end) h.

Class HostLaws : Prop := {
  law_Getenv : ∀ key, host_quiet (os_Getenv key);
  law_Now : host_quiet time_Now;
  law_Encode : ∀ o h, wp (stdout_Encode o) (λ r h', opened h' = opened h ∧
    printed h' = match r with inr _ => printed h ++ [o] | inl _ => printed h end) h;
  law_Open : ∀ dsn, opens (sql_Open dsn);
  law_NewClient : ∀ options, opens (redis_NewClient options);
  law_Ping : ∀ c, host_quiet (conn_Ping c);
  law_Close : ∀ c h, wp (conn_Close c) (λ _ h', opened h' = List.filter (λ x, negb (bool_decide (x = c))) (opened h) ∧
    printed h' = printed h) h;
  law_Metrics : ∀ S (st : StatisticsReader S) request w,
    wp (promhttp_Handler st request) (λ _ w', opened w'.1 = opened w.1) w;
  (** The server does what its handler does. *)
  law_Serve : ∀ S addr (handler : Handler (H * S)) w,
    (∀ request w, wp (ServeHTTP handler request) (λ _ w', opened w'.1 = opened w.1) w) →
    wp (http_Serve addr handler) (λ _ w', opened w'.1 = opened w.1) w;
}.
End Laws.

Section Admin.
Context `{E : GoEnv} {HE : GoEnvOk} {UP : UUIDParser} {H S Conn URLOptions : Type} {AH : AdminHost H Conn URLOptions}.
Context {J : Jsonb} {C : RedisServer.Codec} {PR : Process S}.
Context (pg_client : Conn → PgClient S) (redis_client : Conn → RedisClient S).
Context {HS : HostState H Conn} `{!EqDecision Conn} {HH : HostLaws}.

Abbreviation MA := (M (H * S)).

(** *** Connections *)

(** The open pools are the same afterwards. *)
Definition balanced {A} (m : MA A) : Prop := ∀ w, wp m (λ _ w', opened w'.1 = opened w.1) w.

Lemma balanced_ret {A} (x : A) : balanced (mret x).
Proof. done. Qed.

Lemma balanced_throw {A} e : balanced (throw (A := A) e).
Proof. done. Qed.

Lemma balanced_bind {A B} (m : MA A) (k : A → MA B) : balanced m → (∀ x, balanced (k x)) → balanced (m ≫= k).
Proof.
  intros Hm Hk w. apply wp_bind. eapply wp_mono; [apply Hm|]. intros [e|x] w1 Hw1; [done|].
  eapply wp_mono; [apply Hk|]. intros r w2 Hw2. congruence.
Qed.

Lemma balanced_try {A} (m : MA A) : balanced m → balanced (try m).
Proof. intros Hm w. apply wp_try. apply Hm. Qed.

Lemma balanced_store {A} (m : M S A) : balanced (on_store (H := H) m).
Proof. intros w. unfold wp, on_store. by destruct (m w.2). Qed.

Lemma wp_store {A} (m : M S A) (Q : error + A → H * S → Prop) w :
  wp m (λ r s', Q r (w.1, s')) w.2 → wp (on_store m) Q w.
Proof. unfold wp, on_store. by destruct (m w.2). Qed.

Lemma wp_host {A} (m : M H A) (Q : error + A → H * S → Prop) w :
  wp m (λ r h', Q r (h', w.2)) w.1 → wp (on_host m) Q w.
Proof. unfold wp, on_host. by destruct (m w.1). Qed.

Lemma balanced_host {A} (m : M H A) : (∀ h, wp m (λ _ h', opened h' = opened h) h) → balanced (on_host m).
Proof. intros Hm w. apply wp_host, Hm. Qed.

Lemma balanced_quiet {A} (m : M H A) : host_quiet m → balanced (on_host m).
Proof. intros Hm. apply balanced_host. intros h. eapply wp_mono; [apply Hm|]. by intros r h' []. Qed.

Lemma balanced_print {A} (value : A → Output) r : balanced (printJSON value r).
Proof.
  destruct r as [e|x]; [done|]. apply balanced_host. intros h. eapply wp_mono; [apply law_Encode|]. by intros r h' [].
Qed.

Lemma balanced_show {A} (value : A → Output) (m : M S A) : balanced (r ← try (on_store m); printJSON value r).
Proof. apply balanced_bind; [apply balanced_try, balanced_store|]. intros r. apply balanced_print. Qed.

Lemma balanced_answer {A} (body : A → Body) (m : MA A) : balanced m → balanced (answer body m).
Proof. intros Hm. unfold answer. apply balanced_bind; [by apply balanced_try|]. intros r. apply balanced_ret. Qed.

Lemma balanced_parsed {A} (r : Response + A) (k : A → MA Response) :
  (∀ x, balanced (k x)) → balanced (with_parsed r k).
Proof. intros Hk. destruct r; [apply balanced_ret|apply Hk]. Qed.

(** Serving requests opens no pool. *)
Lemma balanced_ServeHTTP (api : API S) (stats : StatisticsReader S) request :
  balanced (ServeHTTP (mkHandler (lift_API api) (Some (promhttp_Handler (AdminHost := AH) stats))) request).
Proof.
  assert (∀ r, balanced (index (mkHandler (lift_API api) (Some (promhttp_Handler (AdminHost := AH) stats))) r)) as Hindex.
  { intros r. unfold index. case_match; apply balanced_ret. }
  unfold ServeHTTP. cbn [h_metrics].
  repeat first [apply Hindex | apply balanced_ret | (intros ?; apply law_Metrics) | case_match];
    unfold tasks, pipelines, task, pipeline, restart, cancel; repeat (apply balanced_parsed; intros ?);
    apply balanced_answer, balanced_store.
Qed.

Lemma balanced_serve (api : API S) (store : Backend S) addr : balanced (serve api store addr).
Proof.
  unfold serve. destruct (NewMetrics _ _) as [e|]; [apply balanced_throw|]. cbn [NewHandler].
  apply balanced_bind.
  - intros w. apply law_Serve. intros request w'. apply balanced_ServeHTTP.
  - intros [closed err|[err|[]]]; [destruct closed|..]; done.
Qed.

Lemma balanced_command (api : API S) (store : Backend S) addr name args : balanced (command api store addr name args).
Proof.
  unfold command, with_flags, with_id.
  repeat first [apply balanced_show | apply balanced_serve | apply balanced_store | apply balanced_throw
    | (apply balanced_bind; [apply balanced_quiet, law_Now|intros ?]) | case_match].
Qed.

Lemma filter_other (c : Conn) l : c ∉ l → List.filter (λ x, negb (bool_decide (x = c))) (c :: l) = l.
Proof.
  intros Hc. simpl. rewrite bool_decide_true by done. simpl. apply filter_true_id. intros x Hx.
  rewrite bool_decide_false; [done|]. intros ->. done.
Qed.

Lemma wp_closing (c : Conn) w (Q : error + unit → H * S → Prop) :
  (∀ w', opened w'.1 = List.filter (λ x, negb (bool_decide (x = c))) (opened w.1) → Q (inr tt) w') →
  wp (closing c) Q w.
Proof.
  intros HQ. unfold closing. apply wp_bind, wp_try, wp_host. eapply wp_mono; [apply law_Close|].
  intros r h' [Ho _]. by apply wp_ret, HQ.
Qed.

(** A pool that does not answer is closed again. *)
Lemma wp_connect {B} (m : M H Conn) (f : error → error) (g : Conn → B) (w : H * S) :
  opens m →
  wp (c ← on_host m;
      pinged ← try (on_host (conn_Ping c));
      match pinged with
      | inl err => _ ← closing c; throw (f err)
      | inr _ => mret (g c, closing c : MA unit)
      end) (λ r w',
    match r with
    | inr (_, close) => ∃ c, close = closing c ∧ c ∉ opened w.1 ∧ opened w'.1 = c :: opened w.1
    | inl _ => opened w'.1 = opened w.1
    end) w.
Proof.
  intros Hm. apply wp_bind, wp_host. eapply wp_mono; [apply Hm|]. intros [e|c] h1 [_ Ho]; [done|]. destruct Ho as [Hc Ho].
  apply wp_bind, wp_try, wp_host. eapply wp_mono; [apply law_Ping|]. intros [e|[]] h2 [Ho2 _]; cbn [fst] in Ho2.
  - apply wp_bind, wp_closing. intros w3 Ho3. apply wp_throw. rewrite Ho3. cbn [fst]. rewrite Ho2, Ho. by apply filter_other.
  - apply wp_ret. exists c. split; [done|]. split; [done|]. cbn [fst]. by rewrite Ho2.
Qed.

(** Opening a store opens a pool, or nothing when it fails. *)
Lemma wp_openStore backend dsn redisURL redisPrefix w :
  wp (openStore pg_client redis_client backend dsn redisURL redisPrefix) (λ r w',
    match r with
    | inr (_, close) => ∃ c, close = closing c ∧ c ∉ opened w.1 ∧ opened w'.1 = c :: opened w.1
    | inl _ => opened w'.1 = opened w.1
    end) w.
Proof.
  unfold openStore. destruct (bool_decide (backend = "postgres")).
  { destruct (is_empty dsn); [done|].
    apply (wp_connect _ (λ err, fmtError "connect postgres: %w" [] (Some err) []) (λ db, postgres_store (pg_client db))), law_Open. }
  destruct (bool_decide (backend = "redis")); [|done]. destruct (redis_ParseURL redisURL) as [e|options]; [done|].
  apply (wp_connect _ (λ err, fmtError "connect redis: %w" [] (Some err) [])
    (λ c, redis_store (redis_client c) (if is_empty redisPrefix then Redis.defaultPrefix else redisPrefix))), law_NewClient.
Qed.

Lemma balanced_env key fallback : balanced (env key fallback).
Proof. apply balanced_bind; [apply balanced_quiet, law_Getenv|]. intros v. apply balanced_ret. Qed.

(** C34: The command closes what it opens: whatever its arguments, its environment, its store and its requests, and
    on every path that fails, the connection pools that are open when it returns are those that were open
    when it started. *)
Theorem admin_closes_connections args w :
  wp (run pg_client redis_client args) (λ _ w', opened w'.1 = opened w.1) w.
Proof.
  revert w. apply balanced_bind; [apply balanced_env|intros backend]. apply balanced_bind; [apply balanced_env|intros dsn].
  apply balanced_bind; [apply balanced_env|intros url]. apply balanced_bind; [apply balanced_env|intros prefix].
  apply balanced_bind; [apply balanced_env|intros addr]. cbv zeta.
  destruct (Parse _ args) as [e|[flags [|name rest]]]; [apply balanced_throw..|].
  intros w. apply wp_bind. eapply wp_mono; [apply wp_openStore|]. intros [e|[store close]] w1 Ho1; [done|].
  destruct Ho1 as (c & -> & Hc & Ho1). apply wp_bind, wp_try. cbn [NewService]. eapply wp_mono; [apply balanced_command|].
  intros r w2 Ho2. apply wp_bind, wp_closing. intros w3 Ho3.
  assert (opened w3.1 = opened w.1) as Hend by (rewrite Ho3, Ho2, Ho1; by apply filter_other).
  by destruct r.
Qed.
End Admin.

(** *** Commands on a store *)

(** A computation that keeps [P] and leaves the store as [R] allows others to change it. *)
Definition looking {S A} (P : S → Prop) (R : S → S → Prop) (m : M S A) : Prop :=
  ∀ w, P w → wp m (λ _ w', P w' ∧ R w w') w.

(** What the commands that look rely on of a store: its reads change nothing themselves. *)
Class LookOnly {S} (store : Backend S) (P : S → Prop) (R : S → S → Prop) : Prop := {
  look_order :: PreOrder R;
  look_tasks : ∀ filter, looking P R (store_ListExecutions (MonitoringStore := bk_monitoring store) filter);
  look_task : ∀ id, looking P R (Engine.GetExecution (Persistence := monitoring_persistence (MonitoringStore := bk_monitoring store)) id);
  look_events : ∀ id, looking P R (store_Events (MonitoringStore := bk_monitoring store) id);
  look_runs : ∀ filter, looking P R (Engine.ListPipelineRuns (Persistence := monitoring_persistence (MonitoringStore := bk_monitoring store)) filter);
  look_run : ∀ id, looking P R (Engine.GetPipelineRun (Persistence := monitoring_persistence (MonitoringStore := bk_monitoring store)) id);
  look_nodes : ∀ id, looking P R (Engine.ListRunExecutions (Persistence := monitoring_persistence (MonitoringStore := bk_monitoring store)) id);
}.

Section Looking.
Context {S : Type} (P : S → Prop) (R : S → S → Prop) `{!PreOrder R}.

Lemma looking_ret {A} (x : A) : looking P R (mret x).
Proof. intros w Hw. apply wp_ret. split; [done|reflexivity]. Qed.

Lemma looking_throw {A} e : looking P R (throw (A := A) e).
Proof. intros w Hw. apply wp_throw. split; [done|reflexivity]. Qed.

Lemma looking_lift {A} (r : error + A) : looking P R (Redis.lift r).
Proof. destruct r; [apply looking_throw|apply looking_ret]. Qed.

Lemma looking_bind {A B} (m : M S A) (k : A → M S B) :
  looking P R m → (∀ x, looking P R (k x)) → looking P R (m ≫= k).
Proof.
  intros Hm Hk w Hw. apply wp_bind. eapply wp_mono; [by apply Hm|]. intros [e|x] w1 [H1 H2]; [done|].
  eapply wp_mono; [by apply Hk|]. intros r w2 [H3 H4]. split; [done|by etrans].
Qed.

Lemma looking_try {A} (m : M S A) : looking P R m → looking P R (try m).
Proof. intros Hm w Hw. apply wp_try. by apply Hm. Qed.
End Looking.

Section Commands.
Context `{E : GoEnv} {UP : UUIDParser} {H S Conn URLOptions : Type} {AH : AdminHost H Conn URLOptions}.
Context {HS : HostState H Conn} `{!EqDecision Conn} {HH : HostLaws}.
Context (store : Backend S).

Abbreviation api s := (service_API (MonitoringStore0 := bk_monitoring store) s).

(** The outcome of a command: a value was printed, or there was an error and none was. *)
Definition prints (h : H) (r : error + unit) (h' : H) : Prop :=
  match r with inr _ => ∃ o, printed h' = printed h ++ [o] | inl _ => printed h' = printed h end.

Lemma wp_show {A} (value : A → Output) (m : M S A) (Q : S → Prop) (w : H * S) :
  wp m (λ _ s', Q s') w.2 →
  wp (r ← try (on_store m); printJSON value r) (λ r w', Q w'.2 ∧ prints w.1 r w'.1) w.
Proof.
  intros HQ. apply wp_bind, wp_try, wp_store. eapply wp_mono; [exact HQ|]. intros [e|x] s' Hs'.
  { by apply wp_throw. }
  cbn [printJSON]. apply wp_host. eapply wp_mono; [apply law_Encode|].
  intros [e|[]] h' [_ Hp]; (split; [done|]); [done|by exists (value x)].
Qed.

(** The arguments of a command are refused before anything happens. *)
Lemma wp_with_flags flags args k (Q : error + unit → H * S → Prop) w :
  (∀ e, Q (inl e) w) → (∀ flags, wp (k flags) Q w) → wp (with_flags flags args k) Q w.
Proof. intros H1 H2. unfold with_flags. destruct (Parse flags args) as [e|[flags' rest]]; [apply H1|apply H2]. Qed.

Lemma wp_with_id args k (Q : error + unit → H * S → Prop) w :
  (∀ e, Q (inl e) w) → (∀ id, wp (k id) Q w) → wp (with_id args k) Q w.
Proof. intros H1 H2. unfold with_id. destruct (argumentID args) as [e|id]; [apply H1|apply H2]. Qed.

(** A command that looks, over any store whose reads do. *)
Lemma command_looks P R s addr name args (w : H * S) :
  LookOnly store P R → name ∉ ["restart"; "cancel"; "purge"; "serve"] → P w.2 →
  wp (command (api s) store addr name args) (λ r w', (P w'.2 ∧ R w.2 w'.2) ∧ prints w.1 r w'.1) w.
Proof.
  intros HL Hname Hw.
  assert (∀ e, (P w.2 ∧ R w.2 w.2) ∧ prints w.1 (inl e) w.1) as Hrefused by (split; [split; [done|reflexivity]|done]).
  unfold command. destruct (bool_decide (name = "tasks")).
  { apply wp_with_flags; [done|]. intros flags. apply (wp_show _ _ (λ s', P s' ∧ R w.2 s')). by apply look_tasks. }
  destruct (bool_decide (name = "task")).
  { apply wp_with_id; [done|]. intros id. apply (wp_show _ _ (λ s', P s' ∧ R w.2 s')). revert Hw. generalize w.2.
    apply looking_bind; [apply _|apply look_task|]. intros item. apply looking_bind; [apply _|apply look_events|].
    intros evs. apply looking_ret, _. }
  destruct (bool_decide (name = "pipelines")).
  { apply wp_with_flags; [done|]. intros flags. apply (wp_show _ _ (λ s', P s' ∧ R w.2 s')). by apply look_runs. }
  destruct (bool_decide (name = "pipeline")).
  { apply wp_with_id; [done|]. intros id. apply (wp_show _ _ (λ s', P s' ∧ R w.2 s')). revert Hw. generalize w.2.
    apply looking_bind; [apply _|apply look_run|]. intros run. apply looking_bind; [apply _|apply look_nodes|].
    intros items. apply looking_ret, _. }
  rewrite !bool_decide_false by set_solver. apply wp_throw, Hrefused.
Qed.

(** A purge over the command line removes what ended before a deadline in the past, at most as much as the
    limit says: durations and limits that are not positive are refused and change nothing. *)
Theorem admin_purge_guarded s addr args (w : H * S) :
  wp (command (api s) store addr "purge" args) (λ r w', prints w.1 r w'.1 ∧
    (w'.2 = w.2 ∨ ∃ now olderThan limit, (0 < olderThan)%Z ∧ (0 < limit)%Z ∧
       w'.2 = (bk_Purge store (Add now (- olderThan)) limit w.2).2)) w.
Proof.
  unfold command. rewrite (bool_decide_true ("purge" = "purge")) by done. rewrite !bool_decide_false by done.
  apply wp_with_flags; [split; [done|by left]|]. intros flags. cbv zeta.
  destruct (Z.leb_spec (duration_flag "older-than" flags) 0); [split; [done|by left]|].
  destruct (Z.leb_spec (int_flag "limit" flags) 0); [split; [done|by left]|]. cbn [orb].
  apply wp_bind, wp_host. eapply wp_mono; [apply law_Now|]. intros [e|now] h' [_ Hp]; [split; [done|by left]|].
  set (w2 := (bk_Purge store (Add now (- duration_flag "older-than" flags)) (int_flag "limit" flags) w.2).2).
  eapply (wp_mono _ (λ r w', w'.2 = w2 ∧ prints (h', w.2).1 r w'.1)); [by apply (wp_show _ _ (λ s', s' = w2))|].
  intros r w' [Hw Hpr]. split; [unfold prints in *; cbn [fst] in Hpr; by rewrite Hp in Hpr|]. right.
  by exists now, (duration_flag "older-than" flags), (int_flag "limit" flags).
Qed.
End Commands.

(** *** The stores that the command opens *)

Section PostgresReads.
Context `{E : GoEnv} {J : Jsonb} {S : Type} {client : PgClient S} {SV : PgServer S} {HL : PgLaws (W := S)}.

(** The tables change only by what others commit. *)
Definition pg_looked (w w' : S) : Prop := pg_rely (W := S) (pg_db (pg_state w)) (pg_db (pg_state w')).

#[local] Instance pg_looked_order : PreOrder pg_looked.
Proof. split; [intros w; apply rely_refl|]. intros a b c. apply rely_trans. Qed.

Lemma looking_query {A} ok what (f : SqlEnv → DB → A) :
  looking (PgTx.idle (W := S)) pg_looked (db_Query (checked ok what (query f))).
Proof.
  intros w Hi. apply wp_query; [done|apply stmt_ok_checked, stmt_ok_query|done|].
  intros db env w' r Hok Hrel Henv Hi' _. unfold checked, query. destruct ok; simpl.
  - intros Hdb _. split; [done|]. unfold pg_looked. by rewrite Hdb.
  - intros Hdb. split; [done|]. unfold pg_looked. by rewrite Hdb.
Qed.

Lemma postgres_look_only : LookOnly (postgres_store client) (PgTx.idle (W := S)) pg_looked.
Proof.
  split; [apply _|..].
  - intros filter. apply looking_bind; [apply _|apply looking_query|]. intros rows. apply looking_ret, _.
  - intros id. apply looking_bind; [apply _|apply (looking_query true EmptyString)|].
    intros [row|]; [apply looking_ret, _|apply looking_throw, _].
  - intros id. apply (looking_query true EmptyString).
  - intros filter. apply looking_bind; [apply _|apply looking_query|]. intros rows. apply looking_ret, _.
  - intros id. apply looking_bind; [apply _|apply (looking_query true EmptyString)|].
    intros [row|]; [apply looking_ret, _|apply looking_throw, _].
  - intros id. apply looking_bind; [apply _|apply (looking_query true EmptyString)|]. intros rows. apply looking_ret, _.
Qed.
End PostgresReads.

Section RedisReads.
Context `{E : GoEnv} {C : RedisServer.Codec} {S : Type} {client : RedisClient S} {PR : Process S}.
Context (prefix : string) (st : S → RState) (others : Keyspace → gset string → Keyspace → Prop)
  (transport : error → Prop) {HR : RedisLaws prefix st others transport}.

(** The keyspace changes only by what other clients do. *)
Definition redis_looked (w w' : S) : Prop := rtc (RedisServer.evolve prefix others) (st w) (st w').

#[local] Instance redis_looked_order : PreOrder redis_looked.
Proof. split; [intros w; apply rtc_refl|]. intros a b c H1 H2. unfold redis_looked in *. by etrans. Qed.

Abbreviation looks m := (looking (λ _ : S, True) redis_looked m).

Lemma looking_reads {A} (m : M S A) f : reads prefix st others transport m f → looks m.
Proof. intros Hm w _. eapply wp_mono; [apply Hm|]. intros r w' [He _]. split; [done|by apply rtc_once]. Qed.

Lemma looking_range {A} (l : list A) : looks (process_range A l).
Proof.
  intros w _. eapply wp_mono; [apply (RedisServer.law_range prefix st others transport)|].
  intros r w' (l' & _ & _ & Hst). split; [done|]. unfold redis_looked. rewrite Hst. apply rtc_refl.
Qed.

Lemma looking_get id : looks (Redis.GetExecution prefix id).
Proof.
  apply looking_bind; [apply _|eapply looking_try, looking_reads, (law_Get prefix st others transport)|]. intros [e|value].
  - destruct (errors_Is e RedisNil); apply looking_throw, _.
  - destruct (unmarshal_execution value); [apply looking_throw, _|apply looking_ret, _].
Qed.

Lemma looking_get_run id : looks (RedisRuns.GetPipelineRun prefix id).
Proof.
  apply looking_bind; [apply _|eapply looking_reads, (law_HGetAll prefix st others transport)|]. intros values.
  destruct (decide (values = ∅)); [apply looking_throw, _|apply looking_lift, _].
Qed.

Lemma looking_list filter ids : ∀ items, looks (Redis.list_loop prefix filter ids items).
Proof.
  induction ids as [|value ids IH]; intros items; cbn [Redis.list_loop]; [apply looking_ret, _|].
  apply looking_bind; [apply _|apply looking_lift, _|]. intros id.
  apply looking_bind; [apply _|apply looking_get|]. intros item.
  destruct (negb _); [apply IH|]. cbv zeta. destruct (_ && _); [apply looking_ret, _|apply IH].
Qed.

Lemma looking_get_all ids : ∀ items, looks (Redis.get_all prefix ids items).
Proof.
  induction ids as [|value ids IH]; intros items; cbn [Redis.get_all]; [apply looking_ret, _|].
  apply looking_bind; [apply _|apply looking_lift, _|]. intros id.
  apply looking_bind; [apply _|apply looking_get|]. intros item. apply IH.
Qed.

Lemma looking_decode_events values : ∀ items, looks (Redis.decode_events values items).
Proof.
  induction values as [|value values IH]; intros items; cbn [Redis.decode_events]; [apply looking_ret, _|].
  destruct (unmarshal_event value); [apply looking_throw, _|apply IH].
Qed.

Lemma looking_union keys : ∀ ids, looks (RedisRuns.union_ids keys ids).
Proof.
  induction keys as [|key keys IH]; intros ids; cbn [RedisRuns.union_ids]; [apply looking_ret, _|].
  apply looking_bind; [apply _|eapply looking_reads, (law_ZRevRange prefix st others transport)|]. intros values. apply IH.
Qed.

Lemma looking_run_loop filter ids : ∀ items, looks (RedisRuns.run_loop prefix filter ids items).
Proof.
  induction ids as [|value ids IH]; intros items; cbn [RedisRuns.run_loop]; [apply looking_ret, _|].
  apply looking_bind; [apply _|apply looking_lift, _|]. intros id.
  apply looking_bind; [apply _|apply looking_get_run|]. intros run. apply IH.
Qed.

Lemma redis_look_only : LookOnly (redis_store client prefix) (λ _ : S, True) redis_looked.
Proof.
  split; [apply _|..].
  - intros filter. apply looking_bind; [apply _|eapply looking_reads, (law_ZRevRange prefix st others transport)|]. intros ids. apply looking_list.
  - intros id. apply looking_get.
  - intros id. apply looking_bind; [apply _|apply looking_get|]. intros item.
    apply looking_bind; [apply _|eapply looking_reads, (law_LRange prefix st others transport)|]. intros values. apply looking_decode_events.
  - intros filter. apply looking_bind; [apply _|apply looking_union|]. intros ids.
    apply looking_bind; [apply _|apply looking_range|]. intros l.
    apply looking_bind; [apply _|apply looking_run_loop|]. intros items. apply looking_ret, _.
  - intros id. apply looking_get_run.
  - intros id. apply looking_bind; [apply _|eapply looking_reads, (law_ZRange prefix st others transport)|]. intros ids. apply looking_get_all.
Qed.
End RedisReads.

Section Reads.
Context `{E : GoEnv} {UP : UUIDParser} {H Conn URLOptions : Type} {AH : AdminHost H Conn URLOptions}.
Context {HS : HostState H Conn} `{!EqDecision Conn} {HH : HostLaws}.
Context {J : Jsonb} {S : Type} {pg : PgClient S} {SV : PgServer S} {HL : PgLaws (W := S)}.
Context {C : RedisServer.Codec} {S' : Type} {rc : RedisClient S'} {PR : Process S'}.
Context (prefix : string) (st : S' → RState) (others : Keyspace → gset string → Keyspace → Prop)
  (transport : error → Prop) {HR : RedisLaws prefix st others transport}.

(** C35: looking is safe, on the Postgres and on the Redis store, the two that the command opens: a command
    other than a restart, a cancellation, a purge or the server changes nothing in the store, whatever its
    arguments and whether its reads succeed: the tables (the keyspace) change meanwhile only by what other
    clients do; it prints one value, or fails and prints none. *)
Theorem admin_reads_safe s s' addr name args :
  name ∉ ["restart"; "cancel"; "purge"; "serve"] →
  (∀ w : H * S, PgTx.idle (W := S) w.2 →
    wp (command (service_API (MonitoringStore0 := bk_monitoring (postgres_store pg)) s) (postgres_store pg) addr name args)
      (λ r w', (PgTx.idle (W := S) w'.2 ∧ pg_looked w.2 w'.2) ∧ prints w.1 r w'.1) w) ∧
  (∀ w : H * S',
    wp (command (service_API (MonitoringStore0 := bk_monitoring (redis_store rc prefix)) s') (redis_store rc prefix) addr name args)
      (λ r w', redis_looked prefix st others w.2 w'.2 ∧ prints w.1 r w'.1) w).
Proof.
  intros Hname. split; intros w.
  - intros Hi. apply command_looks; [apply postgres_look_only|done|done].
  - eapply wp_mono; [apply (command_looks _ (λ _, True) (redis_looked prefix st others)); [|done|done]|].
    + apply (redis_look_only prefix st others transport).
    + by intros r w' [[_ Hr] Hp].
Qed.
End Reads.

(** ** A concrete host *)

(** A host with numbered pools; the environment names a database, and the HTTP server is interrupted at once. *)
Record DemoHost := mkDemoHost { dh_pools : list N; dh_output : list Output }.

Definition demo_open : M DemoHost N := λ h,
  let c := (1 + foldr N.max 0 (dh_pools h))%N in (inr c, mkDemoHost (c :: dh_pools h) (dh_output h)).

#[export] Instance demo_host : AdminHost DemoHost N unit := {|
  os_Getenv key h := (inr (if bool_decide (key = "ODY_DB_DSN") then "dsn" else EmptyString), h);
  time_Now h := (inr pg_now, h);
  stdout_Encode o h := (inr tt, mkDemoHost (dh_pools h) (dh_output h ++ [o]));
  sql_Open dsn := demo_open;
  redis_ParseURL url := if is_empty url then inl (errorString "redis: invalid URL scheme") else inr tt;
  redis_NewClient _ := demo_open;
  conn_Ping c h := (inr tt, h);
  conn_Close c h := (inr tt, mkDemoHost (List.filter (λ x, negb (bool_decide (x = c))) (dh_pools h)) (dh_output h));
  prom_Register _ := None;
  promhttp_Handler S _ _ w := (inr (mkResponse StatusOK text_plain (BMetrics EmptyString)), w);
  http_Serve S _ _ w := (inr (Interrupted (inr tt)), w);
|}.

#[export] Instance demo_host_state : HostState DemoHost N := {| opened := dh_pools; printed := dh_output |}.

Lemma demo_open_new : opens (HS := demo_host_state) demo_open.
Proof.
  intros h. split; [done|]. split; [|done]. cbn. assert (∀ l x, x ∈ l → (x ≤ foldr N.max 0 l)%N) as Hmax.
  { induction l as [|y l IH]; intros x; [by intros ?%elem_of_nil|]. intros [->|Hx]%elem_of_cons; simpl; [lia|].
    specialize (IH _ Hx). lia. }
  intros Hin%Hmax. lia.
Qed.

#[export] Instance demo_host_laws : HostLaws (AH := demo_host).
Proof. split; try done; intros; apply demo_open_new. Qed.

(** No Redis server answers. *)
Definition no_redis {A} : M PgState A := throw (errorString "connection refused").
Definition demo_redis (_ : N) : RedisClient PgState := {|
  redis_Time := no_redis; redis_Get _ := no_redis; redis_HGetAll _ := no_redis; redis_LRange _ := no_redis;
  redis_ZRange _ := no_redis; redis_ZRevRange _ := no_redis; redis_ZRangeByScore _ _ _ := no_redis;
  redis_ZRem _ _ := no_redis; redis_Watch _ _ _ := no_redis; tx_TxPipelined _ := no_redis;
  redis_TxPipelined _ := no_redis |}.
Definition demo_process : Process PgState := {|
  process_uuid := process_UUID; process_range A l := mret l |}.

Definition demo_run (args : list string) : M (DemoHost * PgState) unit :=
  Admin.run (PR := demo_process) (λ _ : N, demo_client) demo_redis args.

Definition demo_state : DemoHost * PgState := (mkDemoHost [] [], pg_created).
Definition demo_args : list string := ["tasks"; "--name=mail"; "-limit"; "0x5"].

(** The command lists the stored execution; its pool is closed again. *)
Lemma admin_run_example :
  match demo_run demo_args demo_state with
  | (inr tt, (h, _)) => dh_pools h = [] ∧ match dh_output h with [OExecutions [e]] => e_TaskName e = "mail" | _ => False end
  | _ => False
  end.
Proof. by vm_compute. Qed.

(** The identifier is missing. *)
Lemma admin_run_refused :
  demo_run ["restart"] demo_state = (inl (errorString "execution or pipeline id is required"), demo_state).
Proof. by vm_compute. Qed.

Lemma admin_closes_connections_witness :
  wp (demo_run demo_args) (λ _ w', opened w'.1 = opened demo_state.1) demo_state.
Proof. exact (admin_closes_connections (PR := demo_process) (λ _ : N, demo_client) demo_redis demo_args demo_state). Defined.

(** The same on the Redis store. *)
Lemma admin_reads_safe_witness :
  (∀ w : DemoHost * PgState, PgTx.idle (W := PgState) w.2 →
    wp (command (service_API (MonitoringStore0 := bk_monitoring (postgres_store demo_client)) (mkService None))
      (postgres_store demo_client) EmptyString "tasks" ["-limit=5"])
      (λ r w', (PgTx.idle (W := PgState) w'.2 ∧ pg_looked w.2 w'.2) ∧ prints w.1 r w'.1) w) ∧
  (∀ w : DemoHost * RWorld,
    wp (command (service_API (MonitoringStore0 := bk_monitoring (redis_store RedisDemo.redis_client Redis.defaultPrefix)) (mkService None))
      (redis_store RedisDemo.redis_client Redis.defaultPrefix) EmptyString "tasks" ["-limit=5"])
      (λ r w', redis_looked Redis.defaultPrefix rw_state (λ ks _ ks', ks' = ks) w.2 w'.2 ∧ prints w.1 r w'.1) w).
Proof.
  apply (admin_reads_safe (S := PgState) (S' := RWorld) (HR := rw_laws (λ ks _ ks', ks' = ks) (λ ks, eq_refl)) Redis.defaultPrefix rw_state _ rw_transport
    (mkService None) (mkService None) EmptyString "tasks" ["-limit=5"]). set_solver.
Defined.
